(* ===== verification/_CoqProject ===== *)
-Q . S2P
Prelude.v
GoRuntime.v
GoHeap.v
Contract.v
Options.v
Memory.v
MemorySpec.v
Lifecycle.v
Subscription.v
MemorySystem.v
MemoryShutdown.v
MemoryProps.v
MemoryOrder.v
MemoryFailing.v
Effects.v
TaskTable.v
SqlEffects.v
Gorm.v
Leases.v
GormLegal.v
Postgres.v
WakeChannels.v
PgListener.v
PostgresLegal.v
SqlSystem.v
SqlPools.v
SqlInv.v
ScriptDB.v
SqlProps.v
SqlShutdown.v
ClaimSpec.v
GormProps.v
PostgresProps.v
JetStream.v
Nats.v
NatsNames.v
NatsLegal.v
NatsSystem.v
NatsInv.v
NatsSafety.v
NatsSubscription.v
NatsHeartbeat.v
NatsExact.v
ScriptJS.v
NatsProps.v
Settings.v
Startup.v
StartupProps.v
DeadLetters.v
MemoryDead.v
SqlDead.v
NatsDead.v
DeadLettersProps.v
WorkQueueSpec.v
Suite.v
SuiteHarness.v
SuiteLogic.v
SuiteRules.v
SuiteSingle.v
SuiteProofs.v
SuiteCrowd.v
SuiteSafe.v
MemoryBackend.v
MemoryConforms.v
SuiteMemory.v
