(* ===== verification/Prelude.v ===== *)
(** * workqueue-modules: a verification development

    The repository is one interface, [workqueue.WorkQueue] - delayed delivery,
    retries with backoff, dead letters - and four backends for it. This is a
    shallow embedding of all four with their worker pools, and the theorems
    that make them work queues.

    ** The program and the files that model it

    - src/workqueue: [Contract] (Task, Handler, the sentinel error, the
      recovering call of a handler), [Options] (options.go, with the backoff
      on 64-bit durations) and [Lifecycle] (what the comments of the interface
      promise, as one abstract machine per task, [life_step]).
    - src/memory_workqueue: [Memory] has every method under the mutex as a
      function of the state, in which [None] is a Go panic; the heap is
      [GoHeap] (container/heap) at the instance for its pending items;
      [MemorySystem] adds the workers, Consume and Stop as a step function on
      any number of pools. [Subscription] is the subscription type the three
      polling backends carry copies of.
    - src/gorm_workqueue: [TaskTable] is model.go and the SQL statements the
      backend builds, [Gorm] its methods.
    - src/postgres_workqueue: [Postgres] is workqueue.go and model.go,
      [PgListener] the goroutine of listener.go. [WakeChannels] is the map of
      wake channels both SQL backends keep, [SqlSystem] any number of
      processes of both backends on one table, with their pools.
    - src/nats_workqueue: [Nats] has the methods and [handleMsg];
      [NatsSystem] any number of processes and redeliveries on one server;
      [NatsSubscription] the callback of Consume, its semaphore and Stop;
      [NatsHeartbeat] the goroutine of invokeWithHeartbeat.
    - the fx hooks, the settings read from viper and [New] of each package:
      [Settings] and [Startup].
    - src/workqueuetest/suite.go: [Suite], each test a program over the calls
      of a work queue, the clock and the variables it shares with its
      handlers; [SuiteHarness] interleaves a test with its handlers and any
      backend. The interfaces WorkQueue and Subscription it is written
      against are [WorkQueueSpec], an abstract machine with one action per
      thing a backend does, and a class for what implements it;
      [MemoryBackend] is the in-memory one. [DeadLetters] is the part of the
      interface that deals with dead letters, with the suite's calls on it.

    ** How they are modelled

    [GoRuntime] has the machine integers, time and duration with their
    wrap-around, and channels as they are used here (made, closed, received
    from); it is Go's, as are [GoHeap] and [Settings.duration_String].

    Where a backend shares nothing between two lines, a method is a function.
    Where it calls a server it is a [prog] of [Effects], a tree of calls: to
    the clock, the server, the handler, or a critical section on the process's
    own channels. One program is run by its interpretation
    ([SqlEffects.run_program], [JetStream.run_nprogram]); many are interleaved
    call by call by the systems, whose events also let time pass, lose a
    process, or redeliver. All of them are executable, and [Prelude.run] runs
    a list of events.

    Code outside the repository is a type class with its laws, and each has an
    instance that keeps them: [Database] with [DatabaseLaws] (what a statement
    or a transaction does to the table, or that it failed and nobody knows
    whether it was executed) by [ScriptDB]; [JetStream] with [JetStreamLaws]
    by [ScriptJS]; [Viper] with [ViperLaws] by [Settings.map_settings]; the
    JSON codecs by their round trips. Nothing is assumed of a database or a
    server's reliability except where a class [Reliable], [ReliableTx] or
    [JetStreamHealthy] says so.

    The classes also stand between the components of the development:
    [HeapInterface] between the heap and the memory backend, [DeadLetters]
    between the backends ([MemoryDead], [SqlDead], [NatsDead]) and the clients
    of dead letters, [Backend] with [BackendLaws] between a backend with its
    workers ([MemoryConforms]) and the tests, and the predicates [legal] of [Leases] and [nlegal] of
    [NatsLegal] between the programs of a backend and the systems that
    interleave them: a program is proved legal once ([GormLegal],
    [PostgresLegal], [NatsLegal]), and the invariants hold of any legal ones.

    ** The theorems

    - One process. [MemorySpec] has abstract queues, a sorted list of pending
      tasks and a list of dead ones, and [MemoryProps] the refinement by every
      history of calls, with the exact attempts and the conservation of tasks;
      [MemoryOrder] that the dead are listed oldest first, [MemoryFailing]
      that a task whose handler always fails is invoked MaxRetries + 1 times
      and then dead, and can always be brought there. An operation panics in
      one case only, which [op_panics] describes: a page of dead letters whose
      end is past the largest int.
      [ClaimSpec] is the abstract claim that [GormProps] proves of the
      optimistic loop and [PostgresProps] of the SKIP LOCKED statement; these
      files and [NatsExact] also give each method's behaviour on every branch.
      [Options] has the closed form of the backoff.
    - Many processes. [SqlInv] and [NatsInv] are the invariants of the shared
      table and of the streams, kept by every event ([SqlProps],
      [NatsSafety]): no task is lost, rows are well formed, no claim is
      delivered twice, attempts are counted exactly. The handlers of the
      JetStream backend write to the task that is published again; its
      invariant holds as long as those that fail keep its identifier, counter
      and budget ([NatsLegal.keeps_key]), and of queues none of which has the
      name of another with _DLQ appended. [NatsExact.handled_by] is what one
      delivery does on any server, failures included.
    - Pools. [MemoryShutdown], [SqlPools] and [SqlShutdown], and
      [NatsSubscription]: no wake-up is lost, a stopped pool drains, Stop
      returns only then, no channel is closed twice. [NatsHeartbeat]: the
      deadline of a delivery stays ahead while its handler runs, for how late
      a tick may be handled and how many heartbeats in a row may be lost. [PgListener]: after each
      reconnection every queue is woken before notifications are awaited.
    - All backends at once. [DeadLettersProps]: the three kinds of backend
      answer any sequence of dead-letter calls as one abstract list does, but
      for the page that makes the in-memory one panic, and so pass those cases
      of the suite.
    - The suite. [SuiteLogic] is a program logic for tests: assertions that
      are stable under what workers, clock and handlers do, a weakest
      precondition, and its soundness for every interleaving on every backend
      that keeps the laws. [SuiteRules] has a rule per statement of a test,
      [SuiteSingle] the life of the one task most tests have, [SuiteProofs] and
      [SuiteCrowd] the tests. [SuiteSafe]: on such a backend a test fails with
      a time-out or not at all. [SuiteMemory]: the in-memory backend is one,
      and each test has an execution on it that passes, computed by a
      scheduler.
    - Names and start-up. [NatsNames]: streams, subjects and message
      identifiers do not clash but in one case. [StartupProps]: what a process
      is after its hooks, and that a queue that was not started refuses.
    - What does not hold. [SqlProps] and [NatsProps] end in concrete
      executions in which a comment of the code is contradicted or a task is
      lost (requeued too soon, or by a handler that sets its task's attempt
      counter back), and [NatsHeartbeat] shows for which AckWait the heartbeats come
      too late.

    ** Fuel

    No fuel is arbitrary. [Options.RetryBackoff] doubles at most 64 times
    before it passes a bound of 64 bits ([backoff_loop_exact]); the sifts of
    [GoHeap] take the number of elements ([up_correct], [down_correct]); the
    scan of a dead-letter stream takes the number of its sequence numbers and
    one more, which is enough whatever the server answers
    ([nats_scans_terminate]). [Suite.waitFor] polls at most 1501 times: each
    round sleeps ten milliseconds of its fifteen seconds
    ([rule_wait_loop] shows that its fuel is never used up). The loops of the workers and of the listener are
    not bounded and are events of the systems.

    ** Not modelled

    Logging; context.Context, which the code only passes on, apart from Stop,
    where its end is an argument; fx itself, gorm's migration and the SQL it
    writes, the protocols of pgx and NATS: they are parameters, by what they
    answer. The reason given to TermWithReason is dropped. A queue of the
    memory backend holds fewer than 2^63 tasks and numbers. Of the suite, the
    arguments of its messages are dropped (a failure is a format string), a
    mutex the test holds to its end is held for one section of its code, and
    that a test ends within some time is not claimed: its time-outs are
    among the ends that are allowed. Two queues of the JetStream backend one of
    which is named as the other with _DLQ appended would share a stream
    ([NatsNames.nats_names]); what the server makes of that is not modelled. *)

From stdpp Require Import base tactics list numbers option gmap sorting strings.

#[global] Set Default Proof Using "Type".
Open Scope Z_scope.

(** ** Automation of the development *)

Create HintDb wq discriminated.

(** [inv_opt] inverts every hypothesis that says an option computation
    succeeded, down to the equations of its parts. *)
Ltac inv_opt :=
  repeat match goal with
  | H : Some _ = Some _ |- _ => injection H as H; subst
  | H : (_ ≫= _) = Some _ |- _ => apply bind_Some in H as (? & ? & ?)
  | H : None = Some _ |- _ => discriminate H
  | H : Some _ = None |- _ => discriminate H
  end; simplify_eq/=.

(** [split_cases] splits the conditionals of the goal and of the hypotheses. *)
Ltac split_cases := repeat (case_match || case_decide); simplify_eq/=.

(** ** Executable transition systems

    A component with several concurrent actors is a state type, a type of
    events and a partial [step]; [None] means that the event is not enabled. *)

Section machine.
Context {E S : Type} (step : E → S → option S).

Fixpoint run (es : list E) (s : S) : option S :=
  match es with
  | [] => Some s
  | e :: es => s' ← step e s; run es s'
  end.

Definition reachable (s0 s : S) : Prop := ∃ es, run es s0 = Some s.

Lemma run_app es1 es2 s : run (es1 ++ es2) s = (s' ← run es1 s; run es2 s').
Proof.
  revert s; induction es1 as [|e es1 IH]; intros s; simpl; [done|].
  destruct (step e s); simpl; auto.
Qed.

(** The rule of induction over reachable states. *)
Lemma run_invariant (I : S → Prop) es s s' :
  (∀ e s s', I s → step e s = Some s' → I s') →
  I s → run es s = Some s' → I s'.
Proof.
  intros Hstep; revert s; induction es as [|e es IH]; intros s HI Hrun;
    simpl in Hrun; inv_opt; eauto.
Qed.

Lemma reachable_invariant (I : S → Prop) s0 s :
  (∀ e s s', I s → step e s = Some s' → I s') →
  I s0 → reachable s0 s → I s.
Proof. intros Hstep HI [es Hes]. eapply run_invariant; eauto. Qed.

(** A concrete execution that does not get stuck reaches its last state. *)
Definition runs (es : list E) (s0 : S) : bool :=
  match run es s0 with Some _ => true | None => false end.

Lemma runs_reachable es s0 : runs es s0 = true → reachable s0 (default s0 (run es s0)).
Proof. unfold runs. intros H. exists es. by destruct (run es s0). Qed.
End machine.

(** ** Pages

    What [ListDeadTasks limit offset] promises of a listing [l]: a negative
    offset counts as 0, and a limit that is not positive means no limit. *)

Definition page {A} (limit offset : Z) (l : list A) : list A :=
  let rest := drop (Z.to_nat offset) l in
  if decide (0 < limit) then take (Z.to_nat limit) rest else rest.

Lemma page_nil {A} limit offset : page limit offset (@nil A) = [].
Proof. unfold page. rewrite drop_nil. case_decide; [by rewrite take_nil|done]. Qed.

Lemma page_fmap {A B} (f : A → B) limit offset l :
  page limit offset (f <$> l) = f <$> page limit offset l.
Proof.
  unfold page. case_decide; by rewrite ?fmap_drop, ?fmap_take, <-?fmap_drop.
Qed.

(** ** Lists *)

Lemma list_insert_id' {A} (l : list A) i x : l !! i = Some x → <[i:=x]> l = l.
Proof. apply list_insert_id. Qed.

Lemma filter_none {A} (P : A → Prop) `{∀ x, Decision (P x)} l :
  Forall (λ x, ¬ P x) l → filter P l = [].
Proof. induction 1; simpl; [done|]. by rewrite filter_cons_False. Qed.

Lemma filter_all {A} (P : A → Prop) `{∀ x, Decision (P x)} l :
  Forall P l → filter P l = l.
Proof. induction 1; simpl; [done|]. rewrite filter_cons_True by done. by f_equal. Qed.

Lemma elem_of_insert_inv {A} (l : list A) i x y : y ∈ <[i:=x]> l → y = x ∨ y ∈ l.
Proof.
  intros [j Hj]%list_elem_of_lookup. apply list_lookup_insert_Some in Hj as [(-> & -> & _)|[_ Hj]].
  - by left.
  - right. by eapply list_elem_of_lookup_2.
Qed.

(** Flattening after an update in place: one contribution is replaced. *)
Lemma bind_take_drop {A B} (f : A → list B) l i x :
  l !! i = Some x → l ≫= f ≡ₚ f x ++ ((take i l ++ drop (S i) l) ≫= f).
Proof.
  intros Hi. rewrite <- (take_drop_middle l i x Hi) at 1.
  rewrite !bind_app. csimpl. rewrite !(assoc_L (++)).
  apply Permutation_app_tail. by rewrite Permutation_app_comm.
Qed.

Lemma bind_insert {A B} (f : A → list B) l i x y :
  l !! i = Some x → <[i:=y]> l ≫= f ≡ₚ f y ++ ((take i l ++ drop (S i) l) ≫= f).
Proof.
  intros Hi. rewrite insert_take_drop by (by eapply lookup_lt_Some).
  rewrite !bind_app. csimpl. rewrite !(assoc_L (++)).
  apply Permutation_app_tail. by rewrite Permutation_app_comm.
Qed.

(** ** Strings *)

Lemma string_append_assoc (s1 s2 s3 : string) : (s1 +:+ s2) +:+ s3 = s1 +:+ (s2 +:+ s3).
Proof.
  induction s1 as [|c s1 IH]; [done|].
  change (String c ((s1 +:+ s2) +:+ s3) = String c (s1 +:+ (s2 +:+ s3))). by rewrite IH.
Qed.

Lemma string_length_append (s1 s2 : string) :
  String.length (s1 +:+ s2) = (String.length s1 + String.length s2)%nat.
Proof. induction s1 as [|c s1 IH]; simpl; [done|by rewrite IH]. Qed.

Lemma string_append_inj_r (a b s : string) : a +:+ s = b +:+ s → a = b.
Proof.
  revert b. induction a as [|c a IH]; intros [|c' b] Heq; [done|..].
  - apply (f_equal String.length) in Heq. rewrite !string_length_append in Heq. simpl in Heq. lia.
  - apply (f_equal String.length) in Heq. rewrite !string_length_append in Heq. simpl in Heq. lia.
  - injection Heq as -> Heq. f_equal. by apply IH.
Qed.

Lemma string_append_inj_l (s a b : string) : s +:+ a = s +:+ b → a = b.
Proof. induction s as [|c s IH]; [done|]. intros [= Heq]. by apply IH. Qed.
