(* ===== verification/GoRuntime.v ===== *)
(** * The parts of Go the repository relies on

    Machine integers, [time.Time] and [time.Duration], and channels used as
    broadcast flags (made, closed, received from; never sent on).  These are
    the language and its standard library; nothing here is code of [src/]. *)

From stdpp Require Import base tactics list numbers option gmap strings.
From S2P Require Import Prelude.

(** ** 64-bit integers

    [int] and [time.Duration] are 64-bit two's complement integers; arithmetic
    wraps. [uint64] wraps modulo 2^64. *)

Abbreviation min_int64 := (-9223372036854775808).
Abbreviation max_int64 := 9223372036854775807.
Abbreviation two64 := 18446744073709551616.

Definition in_int64 (z : Z) : Prop := min_int64 ≤ z ≤ max_int64.

#[export] Instance in_int64_dec z : Decision (in_int64 z).
Proof. unfold in_int64. apply _. Defined.

Definition wrap64 (z : Z) : Z := (z - min_int64) mod two64 + min_int64.

Definition wrapu64 (z : Z) : Z := z mod two64.

Lemma wrap64_id z : in_int64 z → wrap64 z = z.
Proof. unfold in_int64, wrap64. intros. rewrite Z.mod_small; lia. Qed.

Lemma wrap64_in_int64 z : in_int64 (wrap64 z).
Proof. unfold in_int64, wrap64. pose proof (Z.mod_pos_bound (z - min_int64) two64). lia. Qed.

Lemma wrap64_idemp z : wrap64 (wrap64 z) = wrap64 z.
Proof. apply wrap64_id, wrap64_in_int64. Qed.

Lemma wrap64_succ z : in_int64 z → z < max_int64 → wrap64 (z + 1) = z + 1.
Proof. intros ??. apply wrap64_id. unfold in_int64 in *; lia. Qed.

Lemma wrapu64_id z : 0 ≤ z < two64 → wrapu64 z = z.
Proof. intros. unfold wrapu64. by apply Z.mod_small. Qed.

#[export] Hint Resolve wrap64_in_int64 : wq.

(** The doubling of a positive int64 either is exact or turns negative. *)
Lemma wrap64_double z :
  0 < z ≤ max_int64 →
  (wrap64 (z * 2) = z * 2 ∧ z * 2 ≤ max_int64) ∨
  (wrap64 (z * 2) < 0 ∧ max_int64 < z * 2).
Proof.
  intros Hz. destruct (decide (z * 2 ≤ max_int64)) as [Hle|Hgt].
  - left. rewrite wrap64_id; unfold in_int64; lia.
  - right. unfold wrap64.
    replace ((z * 2 - min_int64) mod two64) with (z * 2 - min_int64 - two64); [lia|].
    apply (Z.mod_unique _ _ 1); lia.
Qed.

(** ** time.Duration and time.Time

    A duration counts nanoseconds. A [time.Time] is the number of nanoseconds
    since the zero Time (January 1, year 1, UTC); the wall and the monotonic
    readings of the clock are taken to agree. *)

Abbreviation duration := Z (only parsing).
Abbreviation time := Z (only parsing).

Definition Millisecond : duration := 1000000.
Definition Second : duration := 1000000000.
Definition Minute : duration := 60000000000.

Definition zeroTime : time := 0.

Definition time_IsZero (t : time) : bool := bool_decide (t = zeroTime).
Definition time_Add (t : time) (d : duration) : time := t + d.
Definition time_After (t u : time) : bool := bool_decide (u < t).
Definition time_Before (t u : time) : bool := bool_decide (t < u).
Definition time_Equal (t u : time) : bool := bool_decide (t = u).

(** [Sub] saturates at the extreme durations. *)
Definition time_Sub (t u : time) : duration :=
  Z.max min_int64 (Z.min max_int64 (t - u)).

Definition time_Until (now t : time) : duration := time_Sub t now.

Lemma time_Sub_le t u : u ≤ t → time_Sub t u ≤ t - u.
Proof. unfold time_Sub; lia. Qed.

Lemma time_Sub_pos t u : u < t → 0 < time_Sub t u.
Proof. unfold time_Sub; lia. Qed.

Lemma time_Sub_exact t u : in_int64 (t - u) → time_Sub t u = t - u.
Proof. unfold time_Sub, in_int64; lia. Qed.

(** A timer started at [now] with duration [d] fires at [timer_deadline now d]:
    a duration that is not positive fires at once. *)
Definition timer_deadline (now : time) (d : duration) : time := now + Z.max 0 d.

(** ** Channels

    A channel is the number [make] gave it. [chans] holds the numbers given so
    far and the channels that were closed. Closing a closed channel panics. *)

Abbreviation chan := nat (only parsing).

Record chans := Chans { next_chan : nat; closed_chans : gset nat }.

Definition no_chans : chans := Chans 0 ∅.

Definition make_chan (c : chans) : chan * chans :=
  (next_chan c, Chans (S (next_chan c)) (closed_chans c)).

Definition is_closed (ch : chan) (c : chans) : Prop := ch ∈ closed_chans c.

#[export] Instance is_closed_dec ch c : Decision (is_closed ch c).
Proof. unfold is_closed. apply _. Defined.

Definition close_chan (ch : chan) (c : chans) : option chans :=
  if decide (is_closed ch c) then None
  else Some (Chans (next_chan c) ({[ch]} ∪ closed_chans c)).

Definition made (ch : chan) (c : chans) : Prop := (ch < next_chan c)%nat.

Definition is_open (ch : chan) (c : chans) : Prop := made ch c ∧ ¬ is_closed ch c.

(** Only channels that were made are closed. *)
Definition chans_ok (c : chans) : Prop := ∀ ch, is_closed ch c → made ch c.

(** [chans_le c c']: [c'] comes after [c]; channels are never unmade nor
    reopened, and a channel that is new is made after [c]. *)
Definition chans_le (c c' : chans) : Prop :=
  (next_chan c ≤ next_chan c')%nat ∧ closed_chans c ⊆ closed_chans c'.

#[export] Instance chans_le_preorder : PreOrder chans_le.
Proof.
  split; unfold chans_le.
  - intros c; split; [lia|set_solver].
  - intros c1 c2 c3 [??] [??]; split; [lia|set_solver].
Qed.

Section chans.
Context (c : chans) (Hok : chans_ok c).

Lemma make_chan_ok : chans_ok (make_chan c).2.
Proof using Hok. intros ch Hch. specialize (Hok ch Hch). unfold made in *; simpl; lia. Qed.

Lemma make_chan_open : is_open (make_chan c).1 (make_chan c).2.
Proof using Hok.
  split; unfold made; simpl; [lia|]. intros Hin.
  specialize (Hok _ Hin). unfold made in Hok. lia.
Qed.

Lemma close_chan_ok ch c' : made ch c → close_chan ch c = Some c' → chans_ok c'.
Proof using Hok.
  unfold close_chan, is_closed, chans_ok, made. case_decide; intros ??; simplify_eq/=.
  intros ch'. unfold is_closed; simpl. rewrite elem_of_union, elem_of_singleton.
  intros [->|Hin]; [done|]. by apply Hok.
Qed.
End chans.

Lemma make_chan_le c : chans_le c (make_chan c).2.
Proof. split; simpl; [lia|done]. Qed.

Lemma make_chan_is_closed ch c : is_closed ch (make_chan c).2 ↔ is_closed ch c.
Proof. done. Qed.

Lemma make_chan_other ch c : is_open ch c → is_open ch (make_chan c).2.
Proof. unfold is_open, made; simpl; intros [??]; split; [lia|done]. Qed.

Lemma close_chan_open ch c : is_open ch c → is_Some (close_chan ch c).
Proof. intros [_ Hn]. unfold close_chan. rewrite decide_False by done. eauto. Qed.

Lemma close_chan_le ch c c' : close_chan ch c = Some c' → chans_le c c'.
Proof.
  unfold close_chan. case_decide; intros; simplify_eq. split; simpl; [lia|set_solver].
Qed.

Lemma close_chan_is_closed ch c c' ch' :
  close_chan ch c = Some c' → is_closed ch' c' ↔ ch' = ch ∨ is_closed ch' c.
Proof.
  unfold close_chan, is_closed. case_decide; intros; simplify_eq/=.
  by rewrite elem_of_union, elem_of_singleton.
Qed.

Lemma close_chan_made ch c c' ch' :
  close_chan ch c = Some c' → made ch' c' ↔ made ch' c.
Proof. unfold close_chan, made. case_decide; intros; by simplify_eq/=. Qed.

Lemma chans_le_closed c c' ch : chans_le c c' → is_closed ch c → is_closed ch c'.
Proof. unfold is_closed. intros [_ Hs]; set_solver. Qed.

Lemma chans_le_made c c' ch : chans_le c c' → made ch c → made ch c'.
Proof. unfold made. intros [Hs _]; lia. Qed.

#[export] Hint Resolve make_chan_ok make_chan_open make_chan_le make_chan_other
  close_chan_open close_chan_le chans_le_closed chans_le_made : wq.
