(* ===== verification/GoHeap.v ===== *)
(** * container/heap

    The standard library's binary heap over an array-like container, written
    against the interface [heap.Interface] that the memory backend implements
    for its pending tasks. [up], [down], [Push] and [Pop] are the functions of
    the Go library; the laws in [HeapLaws] are what they need of the five
    methods. An index out of range is a panic, [None]. *)

From stdpp Require Import base tactics list numbers option sorting.
From S2P Require Import Prelude.

#[local] Open Scope nat_scope.

(** ** The interface and its laws *)

Class HeapInterface (H X : Type) := {
  Len : H → nat;
  Less : H → nat → nat → option bool;
  Swap : H → nat → nat → option H;
  append_last : X → H → H;          (** the method [Push] *)
  remove_last : H → option (X * H)  (** the method [Pop] *)
}.

(** [contents h] is the array; [ltb] is the strict order [Less] compares by.
    [X] carries a strict weak order: [le a b], [b] not before [a], is a total
    preorder. *)
Class HeapLaws {H X} (HI : HeapInterface H X) (contents : H → list X)
    (ltb : X → X → bool) := {
  Len_spec h : Len h = length (contents h);
  Less_spec h i j : Less h i j =
    (a ← contents h !! i; b ← contents h !! j; Some (ltb a b));
  Swap_spec h i j a b : contents h !! i = Some a → contents h !! j = Some b →
    ∃ h', Swap h i j = Some h' ∧ contents h' = <[i:=b]> (<[j:=a]> (contents h));
  append_last_spec x h : contents (append_last x h) = contents h ++ [x];
  remove_last_spec h x l : contents h = l ++ [x] →
    ∃ h', remove_last h = Some (x, h') ∧ contents h' = l;
  ltb_asym a b : ltb a b = true → ltb b a = false;
  ltb_neg_trans a b c : ltb b a = false → ltb c b = false → ltb c a = false
}.

(** ** The library's functions *)

Section heap.
Context {H X : Type} {HI : HeapInterface H X}.

Definition parent (j : nat) : nat := (j - 1) / 2.

(** [for { i := (j-1)/2; if i == j || !h.Less(j, i) { break }; h.Swap(i, j); j = i }] *)
Fixpoint up (fuel : nat) (h : H) (j : nat) : option H :=
  match fuel with
  | O => None
  | S fuel =>
      let i := parent j in
      if decide (i = j) then Some h
      else b ← Less h j i;
           if (b : bool) then h' ← Swap h i j; up fuel h' i else Some h
  end.

(** The smaller child of [i], of which the left one is in range. *)
Definition pick_child (h : H) (i n : nat) : option nat :=
  let j1 := 2 * i + 1 in
  let j2 := j1 + 1 in
  if decide (j2 < n) then b ← Less h j2 j1; Some (if (b : bool) then j2 else j1)
  else Some j1.

Fixpoint down (fuel : nat) (h : H) (i n : nat) : option H :=
  match fuel with
  | O => None
  | S fuel =>
      if decide (n ≤ 2 * i + 1) then Some h
      else j ← pick_child h i n;
           b ← Less h j i;
           if (b : bool) then h' ← Swap h i j; down fuel h' j n else Some h
  end.

Definition Push (h : H) (x : X) : option H :=
  let h' := append_last x h in up (Len h') h' (Len h' - 1).

Definition Pop (h : H) : option (X * H) :=
  match Len h with
  | O => None
  | S n => h1 ← Swap h 0 n; h2 ← down (S n) h1 0 n; remove_last h2
  end.
End heap.

(** ** Heap order *)

Section order.
Context {X : Type} (ltb : X → X → bool).

Definition le (a b : X) : Prop := ltb b a = false.

(** Every element among the first [n] but those [skip] picks is at or after
    its parent. *)
Definition ordered_but (skip : nat → Prop) (n : nat) (l : list X) : Prop :=
  ∀ k a b, 0 < k < n → ¬ skip k →
    l !! parent k = Some a → l !! k = Some b → le a b.

Definition is_heap (l : list X) : Prop := ordered_but (λ _, False) (length l) l.

(** The children of [j] are at or after the parent of [j]. *)
Definition grandparent_ok (j n : nat) (l : list X) : Prop :=
  ∀ k a b, 0 < k < n → parent k = j → 0 < j →
    l !! parent j = Some a → l !! k = Some b → le a b.
End order.

Arguments le {X} ltb a b /.

Lemma parent_lt k : 0 < k → parent k < k.
Proof.
  intros. unfold parent. pose proof (Nat.Div0.div_le_upper_bound (k - 1) 2 (k - 1)). lia.
Qed.

Lemma parent_child k j : parent k = j → 0 < k → k = 2 * j + 1 ∨ k = 2 * j + 2.
Proof.
  unfold parent. intros <- ?. pose proof (Nat.div_mod_eq (k - 1) 2).
  pose proof (Nat.mod_upper_bound (k - 1) 2). lia.
Qed.

Lemma child_parent j k : k = 2 * j + 1 ∨ k = 2 * j + 2 → parent k = j.
Proof.
  intros Hk. unfold parent. symmetry.
  destruct Hk; subst; [apply (Nat.div_unique _ 2 _ 0)|apply (Nat.div_unique _ 2 _ 1)]; lia.
Qed.

(** Exchanging two elements. *)
Definition swapped {X} (i j : nat) (a b : X) (l : list X) : list X :=
  <[i:=b]> (<[j:=a]> l).

Lemma swapped_length {X} i j (a b : X) l : length (swapped i j a b l) = length l.
Proof. unfold swapped. by rewrite !length_insert. Qed.

Lemma swapped_lookup {X} i j k (a b : X) l :
  l !! i = Some a → l !! j = Some b → i ≠ j →
  swapped i j a b l !! k =
    if decide (k = i) then Some b else if decide (k = j) then Some a else l !! k.
Proof.
  intros Hi%lookup_lt_Some Hj%lookup_lt_Some Hij. unfold swapped.
  case_decide as Ei; [|case_decide as Ej]; subst.
  - apply list_lookup_insert_eq. by rewrite length_insert.
  - rewrite list_lookup_insert_ne by done. by apply list_lookup_insert_eq.
  - by rewrite !list_lookup_insert_ne by congruence.
Qed.

Lemma swapped_Permutation {X} i j (a b : X) l :
  l !! i = Some a → l !! j = Some b → swapped i j a b l ≡ₚ l.
Proof.
  intros Hi Hj. unfold swapped. destruct (decide (i = j)) as [->|Hij].
  { simplify_eq. by rewrite list_insert_insert_eq, list_insert_id. }
  apply Permutation_inj. split.
  { by rewrite !length_insert. }
  exists (λ k, if decide (k = i) then j else if decide (k = j) then i else k).
  split.
  - intros x y. repeat case_decide; congruence.
  - intros k. pose proof (swapped_lookup i j k a b l Hi Hj Hij) as Hk.
    unfold swapped in Hk. rewrite Hk. repeat case_decide; congruence.
Qed.

(** ** The functions keep the heap order *)

Section heap_laws.
Context {H X : Type} {HI : HeapInterface H X} {contents : H → list X}
  {ltb : X → X → bool} {HL : HeapLaws HI contents ltb}.

Abbreviation le := (le ltb).
Abbreviation ordered_but := (ordered_but ltb).
Abbreviation grandparent_ok := (grandparent_ok ltb).
Abbreviation is_heap := (is_heap ltb).

Lemma le_trans a b c : le a b → le b c → le a c.
Proof using HL. simpl. intros. eapply ltb_neg_trans; eauto. Qed.

Lemma ltb_le a b : ltb a b = true → le a b.
Proof using HL. apply ltb_asym. Qed.

Lemma Less_lookup h i j a b :
  contents h !! i = Some a → contents h !! j = Some b → Less h i j = Some (ltb a b).
Proof using HL. intros Ha Hb. by rewrite Less_spec, Ha; simpl; rewrite Hb. Qed.

(** One exchange of [up] moves the hole to the parent. *)
Lemma up_swap l j a b n :
  0 < j < n → l !! parent j = Some a → l !! j = Some b → ltb b a = true →
  ordered_but (λ k, k = j) n l → grandparent_ok j n l →
  ordered_but (λ k, k = parent j) n (swapped (parent j) j a b l) ∧
  grandparent_ok (parent j) n (swapped (parent j) j a b l).
Proof using HL.
  intros Hj Ha Hb Hlt Hord Hgp. pose proof (parent_lt j (proj1 Hj)) as Hlt_j.
  pose proof (ltb_le _ _ Hlt) as Hba.
  split.
  - intros k x y Hk Hski. pose proof (parent_lt k (proj1 Hk)).
    rewrite !swapped_lookup by (done || lia).
    repeat case_decide; intros; simplify_eq; try lia; try done.
    + eapply le_trans; [apply Hba|]. eapply (Hord k); eauto; congruence.
    + eapply (Hgp k); eauto; lia.
    + eapply (Hord k); eauto.
  - intros k x y Hk Hpk Hpos. pose proof (parent_lt _ Hpos).
    rewrite !swapped_lookup by (done || lia).
    repeat case_decide; intros; simplify_eq; try lia.
    + eapply (Hord (parent j)); eauto; lia.
    + eapply le_trans; [eapply (Hord (parent j)); eauto; lia|].
      eapply (Hord k); eauto; congruence.
Qed.

Lemma up_correct fuel h j :
  j < fuel → j < length (contents h) →
  ordered_but (λ k, k = j) (length (contents h)) (contents h) →
  grandparent_ok j (length (contents h)) (contents h) →
  ∃ h', up fuel h j = Some h' ∧ is_heap (contents h') ∧ contents h' ≡ₚ contents h.
Proof using HL.
  revert h j; induction fuel as [|fuel IH]; intros h j Hfuel Hj Hord Hgp; [lia|].
  simpl. case_decide as Hroot.
  { exists h. split_and!; [done| |done]. intros k a b Hk _ Ha Hb.
    eapply (Hord k); eauto. intros ->. pose proof (parent_lt j); lia. }
  assert (0 < j) as Hpos by (destruct j; [by destruct Hroot|lia]).
  pose proof (parent_lt j Hpos) as Hlt.
  destruct (lookup_lt_is_Some_2 _ _ Hj) as [b Hb].
  destruct (lookup_lt_is_Some_2 (contents h) (parent j)) as [a Ha]; [lia|].
  rewrite (Less_lookup h j (parent j) b a) by done; simpl.
  destruct (ltb b a) eqn:Hba.
  - destruct (Swap_spec h (parent j) j a b Ha Hb) as (h' & -> & Hh'); simpl.
    change (contents h' = swapped (parent j) j a b (contents h)) in Hh'.
    destruct (up_swap _ _ _ _ _ (conj Hpos Hj) Ha Hb Hba Hord Hgp) as [Hord' Hgp'].
    destruct (IH h' (parent j)) as (h2 & Hup & Hheap & Hperm);
      rewrite ?Hh', ?swapped_length; auto; try lia.
    exists h2. split_and!; [done|done|].
    by rewrite Hperm, Hh', swapped_Permutation.
  - exists h. split_and!; [done| |done]. intros k x y Hk _ Hx Hy.
    destruct (decide (k = j)) as [->|Hkj]; [by simplify_eq|].
    eapply (Hord k); eauto.
Qed.

Lemma pick_child_spec h i n :
  2 * i + 1 < n → n ≤ length (contents h) →
  ∃ j b, pick_child h i n = Some j ∧ contents h !! j = Some b ∧ j < n ∧
    parent j = i ∧ i < j ∧
    ∀ k c, 0 < k < n → parent k = i → contents h !! k = Some c → le b c.
Proof using HL.
  intros Hn Hlen. unfold pick_child.
  destruct (lookup_lt_is_Some_2 (contents h) (2 * i + 1)) as [x Hx]; [lia|].
  assert (le x x) as Hxx.
  { simpl. destruct (ltb x x) eqn:E; [|done]. by rewrite (ltb_asym _ _ E) in E. }
  case_decide as Hj2.
  - destruct (lookup_lt_is_Some_2 (contents h) (2 * i + 1 + 1)) as [y Hy]; [lia|].
    rewrite (Less_lookup h _ _ y x) by done; simpl.
    assert (∀ k c, 0 < k < n → parent k = i → contents h !! k = Some c → c = x ∨ c = y)
      as Hkids.
    { intros k c Hk Hp Hc. destruct (parent_child _ _ Hp) as [->| ->]; [lia| |].
      - left; congruence.
      - right. replace (2 * i + 2) with (2 * i + 1 + 1) in Hc by lia. congruence. }
    destruct (ltb y x) eqn:Hyx.
    + exists (2 * i + 1 + 1), y.
      split_and!; [done|done|lia|apply child_parent; lia|lia|].
      intros k c Hk Hp Hc. destruct (Hkids k c Hk Hp Hc) as [->| ->]; [by apply ltb_le|].
      simpl. destruct (ltb y y) eqn:E; [by rewrite (ltb_asym _ _ E) in E|done].
    + exists (2 * i + 1), x.
      split_and!; [done|done|lia|apply child_parent; lia|lia|].
      intros k c Hk Hp Hc. by destruct (Hkids k c Hk Hp Hc) as [->| ->].
  - exists (2 * i + 1), x.
    split_and!; [done|done|lia|apply child_parent; lia|lia|].
    intros k c Hk Hp Hc. destruct (parent_child _ _ Hp) as [->| ->]; [lia| |lia].
    by simplify_eq.
Qed.

(** One exchange of [down] moves the hole to the picked child. *)
Lemma down_swap l i j a b n :
  0 < j < n → parent j = i → l !! i = Some a → l !! j = Some b → ltb b a = true →
  (∀ k c, 0 < k < n → parent k = i → l !! k = Some c → le b c) →
  ordered_but (λ k, parent k = i) n l → grandparent_ok i n l →
  ordered_but (λ k, parent k = j) n (swapped i j a b l) ∧
  grandparent_ok j n (swapped i j a b l).
Proof using HL.
  intros Hj <- Ha Hb Hlt Hmin Hord Hgp.
  pose proof (parent_lt j (proj1 Hj)) as Hlt_j.
  pose proof (ltb_le _ _ Hlt) as Hba.
  split.
  - intros k x y Hk Hskip. pose proof (parent_lt k (proj1 Hk)).
    rewrite !swapped_lookup by (done || lia).
    repeat case_decide; intros; simplify_eq; try lia; try done.
    + eapply (Hmin k); eauto.
    + eapply (Hgp j); eauto; lia.
    + eapply (Hord k); eauto.
  - intros k x y Hk Hpk Hpos. pose proof (parent_lt k (proj1 Hk)).
    rewrite !swapped_lookup by (done || lia).
    repeat case_decide; intros; simplify_eq; try lia.
    eapply (Hord k); eauto; congruence || lia.
Qed.

Lemma down_correct fuel h i n :
  i ≤ n → n < i + fuel → n ≤ length (contents h) →
  ordered_but (λ k, parent k = i) n (contents h) →
  grandparent_ok i n (contents h) →
  ∃ h', down fuel h i n = Some h' ∧ ordered_but (λ _, False) n (contents h') ∧
    contents h' ≡ₚ contents h ∧ ∀ k, n ≤ k → contents h' !! k = contents h !! k.
Proof using HL.
  revert h i; induction fuel as [|fuel IH]; intros h i Hi Hfuel Hlen Hord Hgp; [lia|].
  simpl. case_decide as Hleaf.
  { exists h. split_and!; [done| |done|done]. intros k a b Hk _ Ha Hb.
    eapply (Hord k); eauto. intros Hp. destruct (parent_child _ _ Hp); lia. }
  destruct (pick_child_spec h i n) as (j & b & -> & Hb & Hjn & Hpj & Hij & Hmin);
    [lia|done|]; simpl.
  destruct (lookup_lt_is_Some_2 (contents h) i) as [a Ha]; [lia|].
  rewrite (Less_lookup h j i b a) by done; simpl.
  destruct (ltb b a) eqn:Hba.
  - destruct (Swap_spec h i j a b Ha Hb) as (h' & -> & Hh'); simpl.
    change (contents h' = swapped i j a b (contents h)) in Hh'.
    destruct (down_swap (contents h) i j a b n) as [Hord' Hgp']; auto; [lia|].
    destruct (IH h' j) as (h2 & Hdown & Hheap & Hperm & Hrest);
      rewrite ?Hh', ?swapped_length; auto; try lia.
    exists h2. split_and!; [done|done| |].
    + by rewrite Hperm, Hh', swapped_Permutation.
    + intros k Hk. rewrite Hrest, Hh' by done.
      rewrite swapped_lookup by (done || lia). by rewrite !decide_False by lia.
  - exists h. split_and!; [done| |done|done]. intros k x y Hk _ Hx Hy.
    destruct (decide (parent k = i)) as [Hp|Hp]; [|by eapply (Hord k)].
    rewrite Hp in Hx. simplify_eq. eapply le_trans; [apply Hba|]. by eapply (Hmin k).
Qed.

Lemma heap_root_min l a :
  is_heap l → l !! 0 = Some a → ∀ k b, l !! k = Some b → le a b.
Proof using HL.
  intros Hheap Ha k. induction (lt_wf k) as [k _ IH]; intros b Hb.
  destruct (decide (k = 0)) as [Hk|Hk].
  { subst k. simplify_eq/=. destruct (ltb _ _) eqn:E; [|done].
    by rewrite (ltb_asym _ _ E) in E. }
  pose proof (parent_lt k) as Hp. pose proof (lookup_lt_Some _ _ _ Hb).
  destruct (lookup_lt_is_Some_2 l (parent k)) as [c Hc]; [lia|].
  eapply le_trans; [apply (IH (parent k)); [lia|done]|].
  eapply (Hheap k); eauto. lia.
Qed.

(** [heap.Push] returns a heap with the new element added. *)
Lemma Push_correct h x :
  is_heap (contents h) →
  ∃ h', Push h x = Some h' ∧ is_heap (contents h') ∧ contents h' ≡ₚ x :: contents h.
Proof using HL.
  intros Hheap. unfold Push. set (h1 := append_last x h).
  assert (contents h1 = contents h ++ [x]) as Hh1 by apply append_last_spec.
  assert (length (contents h1) = S (length (contents h))) as Hlen1
    by (rewrite Hh1, length_app; simpl; lia).
  destruct (up_correct (Len h1) h1 (Len h1 - 1)) as (h2 & Hup & Hh2 & Hperm).
  - rewrite Len_spec. lia.
  - rewrite Len_spec. lia.
  - rewrite Len_spec, Hlen1. intros k a b Hk Hne. rewrite Hh1.
    pose proof (parent_lt k (proj1 Hk)).
    rewrite !lookup_app_l by lia. apply Hheap; [lia|tauto].
  - rewrite Len_spec, Hlen1. intros k a b Hk Hp Hpos.
    pose proof (parent_child _ _ Hp). lia.
  - exists h2. split_and!; [done|done|]. rewrite Hperm, Hh1. by rewrite Permutation_app_comm.
Qed.

(** [heap.Pop] returns an element no other one precedes, and a heap of the rest. *)
Lemma Pop_correct h :
  is_heap (contents h) → contents h ≠ [] →
  ∃ x h', Pop h = Some (x, h') ∧ contents h !! 0 = Some x ∧ is_heap (contents h') ∧
    x :: contents h' ≡ₚ contents h ∧ Forall (le x) (contents h).
Proof using HL.
  intros Hheap Hne. unfold Pop. rewrite Len_spec.
  destruct (length (contents h)) as [|n] eqn:Hlen.
  { by apply nil_length_inv in Hlen. }
  destruct (lookup_lt_is_Some_2 (contents h) 0) as [a Ha]; [lia|].
  destruct (lookup_lt_is_Some_2 (contents h) n) as [b Hb]; [lia|].
  destruct (Swap_spec h 0 n a b Ha Hb) as (h1 & -> & Hh1); simpl.
  change (contents h1 = swapped 0 n a b (contents h)) in Hh1.
  assert (contents h1 !! n = Some a) as Hlast.
  { rewrite Hh1. destruct (decide (n = 0)) as [->|].
    - unfold swapped. simplify_eq. rewrite list_insert_insert_eq.
      by rewrite list_lookup_insert_eq by lia.
    - rewrite swapped_lookup by done. by rewrite decide_False, decide_True by done. }
  assert (length (contents h1) = S n) as Hlen1 by (by rewrite Hh1, swapped_length).
  destruct (down_correct (S n) h1 0 n) as (h2 & Hdown & Hh2 & Hperm & Hrest);
    [lia|lia|lia| |intros k x y _ _ ?; lia|].
  { intros k x y Hk Hp. pose proof (parent_lt k (proj1 Hk)). rewrite Hh1.
    rewrite !swapped_lookup by (done || lia). rewrite !decide_False by lia.
    apply Hheap; [lia|tauto]. }
  simpl in Hdown. rewrite Hdown; simpl.
  assert (contents h2 = take n (contents h2) ++ [a]) as Hsplit.
  { assert (contents h2 !! n = Some a) as Hl2 by (by rewrite Hrest).
    pose proof (Permutation_length Hperm) as Hlen2.
    rewrite <- (take_drop n (contents h2)) at 1. f_equal.
    rewrite (drop_S _ _ _ Hl2), drop_ge; [done|lia]. }
  destruct (remove_last_spec h2 a _ Hsplit) as (h3 & -> & Hh3).
  exists a, h3. split_and!; [done|done| | |].
  - rewrite Hh3. intros k x y Hk _ Hx Hy.
    rewrite length_take in Hk. rewrite lookup_take_Some in Hx, Hy.
    eapply (Hh2 k); try tauto; lia.
  - rewrite Hh3. transitivity (contents h2).
    + rewrite Hsplit at 2. by rewrite Permutation_app_comm.
    + rewrite Hperm, Hh1. by apply swapped_Permutation.
  - apply Forall_lookup_2. intros i x Hx. by eapply heap_root_min.
Qed.
End heap_laws.
