(* ===== verification/Contract.v ===== *)
(** * The shared contract: src/workqueue/workqueue.go

    [Task], the handler type and the sentinel error every backend shares, and
    the panic-recovering call of a handler, which the four backends each carry
    a copy of. *)

From stdpp Require Import base tactics list numbers option gmap strings.
From Stdlib Require Import Strings.Byte.
From S2P Require Import Prelude GoRuntime.

(** A Go [[]byte] and a Go [map[string]string] can be nil. *)
Abbreviation bytes := (option (list byte)).
Abbreviation metadata := (option (gmap string string)).

#[export] Instance byte_eq_dec : EqDecision byte := Byte.byte_eq_dec.

Record Task := mkTask {
  ID : string;
  Queue : string;
  Payload : bytes;
  Metadata : metadata;
  Attempts : Z;
  MaxRetries : Z;
  EnqueuedAt : time;
  RunAt : time;
  LastError : string;
  DiedAt : time
}.

#[export] Instance Task_eq_dec : EqDecision Task.
Proof. solve_decision. Defined.

(** Assignments to the fields the backends write. *)

Definition set_Attempts (n : Z) (t : Task) : Task :=
  mkTask (ID t) (Queue t) (Payload t) (Metadata t) n (MaxRetries t)
    (EnqueuedAt t) (RunAt t) (LastError t) (DiedAt t).

Definition set_RunAt (at_ : time) (t : Task) : Task :=
  mkTask (ID t) (Queue t) (Payload t) (Metadata t) (Attempts t) (MaxRetries t)
    (EnqueuedAt t) at_ (LastError t) (DiedAt t).

Definition set_LastError (e : string) (t : Task) : Task :=
  mkTask (ID t) (Queue t) (Payload t) (Metadata t) (Attempts t) (MaxRetries t)
    (EnqueuedAt t) (RunAt t) e (DiedAt t).

Definition set_DiedAt (at_ : time) (t : Task) : Task :=
  mkTask (ID t) (Queue t) (Payload t) (Metadata t) (Attempts t) (MaxRetries t)
    (EnqueuedAt t) (RunAt t) (LastError t) at_.

(** [task.Attempts++] on an [int]. *)
Definition incr_Attempts (t : Task) : Task := set_Attempts (wrap64 (Attempts t + 1)) t.

(** ** Errors *)

Inductive Err :=
  | ErrTaskNotFound                       (** shared: workqueue.ErrTaskNotFound *)
  | errNotStarted                         (** used before the handle is resolved *)
  | ErrInvalidQueueName (queue : string)  (** nats_workqueue.ErrInvalidQueueName *)
  | ErrStorage (msg : string).            (** an error of the storage client *)

#[export] Instance Err_eq_dec : EqDecision Err.
Proof. solve_decision. Defined.

(** ** Handlers

    A handler gets a pointer to a task: it may write through it before it
    returns an error (or nil) or panics. *)

Inductive Outcome :=
  | Returned (err : option string)
  | Panicked (value : string).

Definition Handler : Type := Task → Task * Outcome.

(** The [defer]/[recover] of [invokeHandler]: the error that is returned. *)
Definition recovered (o : Outcome) : option string :=
  match o with
  | Returned err => err
  | Panicked r => Some ("workqueue handler panic: " +:+ r)
  end.

(** Returns what the handler left in the task it was given, and the error. *)
Definition invokeHandler (handler : Handler) (task : Task) : Task * option string :=
  let '(task', o) := handler task in (task', recovered o).

Lemma invokeHandler_panic handler task task' r :
  handler task = (task', Panicked r) → is_Some (invokeHandler handler task).2.
Proof. unfold invokeHandler. intros ->. by eexists. Qed.
