(* ===== verification/Options.v ===== *)
(** * Per-call settings and the retry backoff: src/workqueue/options.go *)

From stdpp Require Import base tactics list numbers option gmap strings.
From S2P Require Import Prelude GoRuntime Contract.

(** ** Defaults *)

Definition DefaultMaxRetries : Z := 3.
Definition DefaultConcurrency : Z := 10.
Definition DefaultBackoffBase : duration := 10 * Second.
Definition DefaultBackoffMax : duration := 10 * Minute.

(** ** Enqueue options *)

Record EnqueueOptions := mkEnqueueOptions {
  eo_RunAt : time;
  eo_Delay : duration;
  eo_MaxRetries : Z;
  eo_Metadata : metadata
}.

Definition EnqueueOption : Type := EnqueueOptions → EnqueueOptions.

Definition NewEnqueueOptions (opts : list EnqueueOption) : EnqueueOptions :=
  let o := foldl (λ o opt, opt o) (mkEnqueueOptions zeroTime 0 DefaultMaxRetries None) opts in
  if decide (eo_MaxRetries o < 0)
  then mkEnqueueOptions (eo_RunAt o) (eo_Delay o) 0 (eo_Metadata o)
  else o.

Definition ResolveRunAt (o : EnqueueOptions) (now : time) : time :=
  if negb (time_IsZero (eo_RunAt o)) then eo_RunAt o
  else if decide (0 < eo_Delay o) then time_Add now (eo_Delay o)
  else now.

Definition WithDelay (d : duration) : EnqueueOption := λ o,
  mkEnqueueOptions (eo_RunAt o) d (eo_MaxRetries o) (eo_Metadata o).

Definition WithRunAt (t : time) : EnqueueOption := λ o,
  mkEnqueueOptions t (eo_Delay o) (eo_MaxRetries o) (eo_Metadata o).

Definition WithMaxRetries (n : Z) : EnqueueOption := λ o,
  mkEnqueueOptions (eo_RunAt o) (eo_Delay o) n (eo_Metadata o).

(** [maps.Copy(dst, src)]: the entries of [src] replace those of [dst]; a nil
    [src] has no entries. *)
Definition maps_Copy (dst : gmap string string) (src : metadata) : gmap string string :=
  default ∅ src ∪ dst.

Definition WithMetadata (md : metadata) : EnqueueOption := λ o,
  let dst := match eo_Metadata o with None => ∅ | Some m => m end in
  mkEnqueueOptions (eo_RunAt o) (eo_Delay o) (eo_MaxRetries o) (Some (maps_Copy dst md)).

(** ** Consume options *)

Record ConsumeOptions := mkConsumeOptions {
  Concurrency : Z;
  BackoffBase : duration;
  BackoffMax : duration
}.

Definition ConsumeOption : Type := ConsumeOptions → ConsumeOptions.

Definition NewConsumeOptions (opts : list ConsumeOption) : ConsumeOptions :=
  let o := foldl (λ o opt, opt o)
             (mkConsumeOptions DefaultConcurrency DefaultBackoffBase DefaultBackoffMax) opts in
  let o := if decide (Concurrency o < 1)
           then mkConsumeOptions 1 (BackoffBase o) (BackoffMax o) else o in
  let o := if decide (BackoffBase o ≤ 0)
           then mkConsumeOptions (Concurrency o) DefaultBackoffBase (BackoffMax o) else o in
  if decide (BackoffMax o < BackoffBase o)
  then mkConsumeOptions (Concurrency o) (BackoffBase o) (BackoffBase o) else o.

Definition WithConcurrency (n : Z) : ConsumeOption := λ o,
  mkConsumeOptions n (BackoffBase o) (BackoffMax o).

Definition WithRetryBackoff (base max : duration) : ConsumeOption := λ o,
  mkConsumeOptions (Concurrency o) base max.

(** ** The retry backoff *)

(** [for i := 1; i < attempt; i++ { ... }] and the code after it; [None] when
    the fuel runs out. *)
Fixpoint backoff_loop (fuel : nat) (i attempt d max : Z) : option duration :=
  match fuel with
  | O => None
  | S fuel =>
      if decide (i < attempt) then
        let d := wrap64 (d * 2) in
        if decide (max ≤ d ∨ d < 0) then Some max
        else backoff_loop fuel (i + 1) attempt d max
      else if decide (max < d) then Some max else Some d
  end.

(** The three normalisations at the top of [RetryBackoff]. *)
Definition backoff_base (base : duration) : duration :=
  if decide (base ≤ 0) then DefaultBackoffBase else base.
Definition backoff_max (base max : duration) : duration :=
  if decide (max < backoff_base base) then backoff_base base else max.
Definition backoff_attempt (attempt : Z) : Z :=
  if decide (attempt < 1) then 1 else attempt.

(** A duration doubles at most 63 times before it overflows, so that 64 rounds
    are enough ([RetryBackoff_exact]). *)
Definition RetryBackoff (base max : duration) (attempt : Z) : option duration :=
  backoff_loop 64 1 (backoff_attempt attempt) (backoff_base base) (backoff_max base max).

(** ** Lemmas *)

Lemma NewEnqueueOptions_nonneg opts : 0 ≤ eo_MaxRetries (NewEnqueueOptions opts).
Proof. unfold NewEnqueueOptions. case_decide; simpl; lia. Qed.

Lemma pow2_pos k : 0 ≤ k → 0 < 2 ^ k.
Proof. intros. by apply Z.pow_pos_nonneg. Qed.

Lemma backoff_loop_exact fuel i attempt d max :
  0 < d ≤ max → max ≤ max_int64 → i ≤ attempt → max_int64 < d * 2 ^ Z.of_nat fuel →
  backoff_loop fuel i attempt d max = Some (Z.min (d * 2 ^ (attempt - i)) max).
Proof.
  revert i d; induction fuel as [|fuel IH]; intros i d Hd Hmax Hi Hfuel; [simpl in *; lia|].
  cbn [backoff_loop]. destruct (decide (i < attempt)) as [Hlt|Hge].
  - assert (2 ^ (attempt - i) = 2 * 2 ^ (attempt - (i + 1))) as Hpow.
    { rewrite <- Z.pow_succ_r by lia. f_equal. lia. }
    pose proof (pow2_pos (attempt - (i + 1))) as Hp.
    destruct (wrap64_double d) as [[Hw Hle]|[Hw Hgt]]; [lia| |].
    + rewrite Hw. case_decide as Hc.
      * f_equal. rewrite Hpow. nia.
      * rewrite IH; [|lia|lia|lia|].
        -- f_equal. rewrite Hpow. f_equal. ring.
        -- rewrite Nat2Z.inj_succ, Z.pow_succ_r in Hfuel by lia. lia.
    + rewrite decide_True by (right; lia). f_equal. rewrite Hpow. nia.
  - replace i with attempt by lia. rewrite Z.sub_diag, Z.mul_1_r.
    rewrite decide_False by lia. f_equal. lia.
Qed.

Lemma backoff_bounds base max :
  in_int64 base → in_int64 max →
  0 < backoff_base base ≤ backoff_max base max ∧ backoff_max base max ≤ max_int64.
Proof.
  unfold in_int64, backoff_max, backoff_base, DefaultBackoffBase, Second.
  intros; repeat case_decide; lia.
Qed.

Lemma backoff_attempt_pos n : 1 ≤ backoff_attempt n.
Proof. unfold backoff_attempt. case_decide; lia. Qed.

Lemma RetryBackoff_eq base max attempt :
  in_int64 base → in_int64 max →
  RetryBackoff base max attempt =
    Some (Z.min (backoff_base base * 2 ^ (backoff_attempt attempt - 1)) (backoff_max base max)).
Proof.
  intros Hb Hm. destruct (backoff_bounds base max Hb Hm) as [??].
  apply backoff_loop_exact; [lia|lia|apply backoff_attempt_pos|].
  change (2 ^ Z.of_nat 64) with two64. lia.
Qed.

(** ** The options a caller passes *)

(** The option constructors of the package, as data. *)
Inductive eopt :=
  | ODelay (d : duration) | ORunAt (t : time) | OMaxRetries (n : Z) | OMetadata (md : metadata).

Definition eopt_apply (o : eopt) : EnqueueOption :=
  match o with
  | ODelay d => WithDelay d
  | ORunAt t => WithRunAt t
  | OMaxRetries n => WithMaxRetries n
  | OMetadata md => WithMetadata md
  end.

Definition delay_of (o : eopt) : option Z := match o with ODelay d => Some d | _ => None end.
Definition runAt_of (o : eopt) : option Z := match o with ORunAt t => Some t | _ => None end.
Definition retries_of (o : eopt) : option Z := match o with OMaxRetries n => Some n | _ => None end.
Definition entry_of (k : string) (o : eopt) : option string :=
  match o with OMetadata (Some md) => md !! k | _ => None end.

(** The value the last option of a kind gives. *)
Definition last_of {A} (f : eopt → option A) (l : list eopt) : option A := last (omap f l).

Definition fold_options (l : list eopt) : EnqueueOptions :=
  foldl (λ o opt, opt o) (mkEnqueueOptions zeroTime 0 DefaultMaxRetries None) (eopt_apply <$> l).

Lemma fold_options_snoc l o : fold_options (l ++ [o]) = eopt_apply o (fold_options l).
Proof. unfold fold_options. by rewrite fmap_app, foldl_app. Qed.

Lemma last_of_snoc {A} (f : eopt → option A) l o :
  last_of f (l ++ [o]) = match f o with Some x => Some x | None => last_of f l end.
Proof.
  unfold last_of. rewrite omap_app; simpl. destruct (f o); simpl.
  - by rewrite last_snoc.
  - by rewrite app_nil_r.
Qed.

Lemma fold_options_spec l :
  eo_RunAt (fold_options l) = default zeroTime (last_of runAt_of l) ∧
  eo_Delay (fold_options l) = default 0 (last_of delay_of l) ∧
  eo_MaxRetries (fold_options l) = default DefaultMaxRetries (last_of retries_of l) ∧
  (∀ k, default ∅ (eo_Metadata (fold_options l)) !! k = last_of (entry_of k) l).
Proof.
  induction l as [|o l (Hr & Hd & Hm & Hk)] using rev_ind; [by split_and!|].
  rewrite fold_options_snoc, !last_of_snoc.
  split_and!; try (by destruct o).
  intros k. rewrite last_of_snoc, <- Hk. destruct o as [d|t|n|md]; simpl; try done.
  change (match eo_Metadata (fold_options l) with None => ∅ | Some m => m end)
    with (default ∅ (eo_Metadata (fold_options l))).
  generalize (default ∅ (eo_Metadata (fold_options l))) as g. intros g.
  unfold maps_Copy. rewrite lookup_union.
  destruct md as [md|]; simpl; [destruct (md !! k)|rewrite lookup_empty]; by destruct (g !! k).
Qed.

(** Whatever options are passed in whatever order, the last one of each kind
    wins, a negative retry budget becomes 0, each metadata key has the value
    the last map that has the key gives it, and the first delivery is at the
    last RunAt that is set, else after the last positive delay, else now. *)
Theorem enqueue_options_last_wins l now :
  let o := NewEnqueueOptions (eopt_apply <$> l) in
  eo_MaxRetries o = Z.max 0 (default DefaultMaxRetries (last_of retries_of l)) ∧
  (∀ k, default ∅ (eo_Metadata o) !! k = last_of (entry_of k) l) ∧
  ResolveRunAt o now =
    let t := default zeroTime (last_of runAt_of l) in
    let d := default 0 (last_of delay_of l) in
    if decide (t = zeroTime) then now + Z.max 0 d else t.
Proof.
  destruct (fold_options_spec l) as (Hr & Hd & Hm & Hk). simpl. unfold NewEnqueueOptions.
  fold (fold_options l). rewrite Hm.
  assert (∀ n, ResolveRunAt (mkEnqueueOptions (eo_RunAt (fold_options l))
    (eo_Delay (fold_options l)) n (eo_Metadata (fold_options l))) now =
    if decide (default zeroTime (last_of runAt_of l) = zeroTime)
    then now + Z.max 0 (default 0 (last_of delay_of l))
    else default zeroTime (last_of runAt_of l)) as Hres.
  { intros n. unfold ResolveRunAt, time_IsZero, time_Add; simpl. rewrite Hr, Hd.
    case_bool_decide; repeat case_decide; simpl; try done; lia. }
  destruct (decide (default DefaultMaxRetries (last_of retries_of l) < 0)); simpl.
  - split_and!; [lia|done|apply Hres].
  - split_and!; [rewrite Hm; lia|done|].
    rewrite <- (Hres (eo_MaxRetries (fold_options l))). by destruct (fold_options l).
Qed.

(** The settings of a subscription are usable whatever options are passed: at
    least one worker, and a positive base of at most the bound. *)
Lemma NewConsumeOptions_sound opts :
  let o := NewConsumeOptions opts in
  1 ≤ Concurrency o ∧ 0 < BackoffBase o ≤ BackoffMax o.
Proof.
  simpl. unfold NewConsumeOptions. set (o := foldl _ _ _). clearbody o.
  unfold DefaultBackoffBase, Second. repeat case_decide; simpl in *; lia.
Qed.

(** C36. The delay before the n-th retry of a subscription is exactly
    min(BackoffBase * 2^(n-1), BackoffMax) for every n an [int] can hold, with
    the settings as [NewConsumeOptions] left them: the doubling never
    overflows into a wrong delay, and the loop ends within 64 rounds. *)
Theorem RetryBackoff_exact opts n :
  let o := NewConsumeOptions opts in
  in_int64 (BackoffBase o) → in_int64 (BackoffMax o) → 1 ≤ n →
  1 ≤ Concurrency o ∧
  RetryBackoff (BackoffBase o) (BackoffMax o) n =
    Some (Z.min (BackoffBase o * 2 ^ (n - 1)) (BackoffMax o)).
Proof.
  intros o Hb Hm Hn. destruct (NewConsumeOptions_sound opts) as (Hc & Hpos & Hle). fold o in Hc, Hpos, Hle.
  split; [done|]. rewrite RetryBackoff_eq by done.
  unfold backoff_base, backoff_max, backoff_base, backoff_attempt.
  by repeat (rewrite decide_False by lia).
Qed.

Lemma RetryBackoff_exact_witness :
  RetryBackoff (10 * Second) (10 * Minute) 100 = Some (10 * Minute) ∧
  RetryBackoff (10 * Second) (10 * Minute) 3 = Some (40 * Second).
Proof.
  split.
  - destruct (RetryBackoff_exact [] 100) as [_ H]; [split; vm_compute; discriminate..|vm_compute; discriminate|].
    exact H.
  - destruct (RetryBackoff_exact [] 3) as [_ H]; [split; vm_compute; discriminate..|vm_compute; discriminate|]. exact H.
Defined.

(** The delays never shrink from one retry to the next, each is the double of
    the one before until the bound is reached, and all stay within the base and
    the bound, for all int64 arguments, degenerate ones included. *)
Theorem RetryBackoff_grows base max n :
  in_int64 base → in_int64 max →
  ∃ d d', RetryBackoff base max n = Some d ∧ RetryBackoff base max (n + 1) = Some d' ∧
    (1 ≤ n → d' = Z.min (2 * d) (backoff_max base max)) ∧
    backoff_base base ≤ d ≤ d' ∧ d' ≤ backoff_max base max.
Proof.
  intros Hb Hm. destruct (backoff_bounds base max Hb Hm) as [[Hpos Hle] _].
  eexists _, _. split; [by apply RetryBackoff_eq|]. split; [by apply RetryBackoff_eq|].
  set (b := backoff_base base) in *. set (M := backoff_max base max) in *.
  assert (∀ k, 0 ≤ k → b ≤ b * 2 ^ k ≤ b * 2 ^ (k + 1)) as Hgrow.
  { intros k Hk. rewrite Z.pow_add_r by lia. pose proof (pow2_pos k Hk). nia. }
  unfold backoff_attempt. repeat case_decide; try lia.
  - assert (n = 0) as -> by lia. change (0 + 1 - 1) with 0. change (1 - 1) with 0.
    rewrite Z.pow_0_r. lia.
  - pose proof (Hgrow (n - 1) ltac:(lia)) as Hg.
    replace (n - 1 + 1) with (n + 1 - 1) in Hg by lia. split; [|lia]. intros _.
    replace (n + 1 - 1) with (Z.succ (n - 1)) by lia. rewrite Z.pow_succ_r by lia.
    pose proof (pow2_pos (n - 1) ltac:(lia)). nia.
Qed.

Lemma RetryBackoff_grows_witness :
  ∃ d d', RetryBackoff (-5) 0 (max_int64 - 1) = Some d ∧
          RetryBackoff (-5) 0 max_int64 = Some d' ∧ d ≤ d'.
Proof.
  destruct (RetryBackoff_grows (-5) 0 (max_int64 - 1)) as (d & d' & H1 & H2 & _ & H3 & _).
  - split; vm_compute; discriminate.
  - split; vm_compute; discriminate.
  - exists d, d'. split_and!; [exact H1|exact H2|apply H3].
Defined.
