(* ===== verification/Memory.v ===== *)
(** * The in-memory backend: src/memory_workqueue/workqueue.go

    The operations of [MemoryWorkQueue] under its mutex, each as a function of
    the state, of the readings of [time.Now()] it makes and of the identifier
    [uuid.NewString()] gives. A result [None] is a Go panic.

    A task record is owned by exactly one of the pending heap, the worker that
    claimed it and the dead-letter list, and what leaves the queue is a clone,
    so that records are values here. *)

From stdpp Require Import base tactics list numbers option gmap strings.
From Stdlib Require Import Strings.Byte.
From S2P Require Import Prelude GoRuntime GoHeap Contract Options.

(** ** State *)

Record pendingItem := mkItem { task : Task; item_seq : Z }.

Record queueState := mkQueue {
  pending : list pendingItem;
  seq : Z;
  dead : list Task;
  notify : chan
}.

(** [mem_chans] are the channels of the process. *)
Record MemoryWorkQueue := mkMemory {
  queues : gmap string queueState;
  mem_chans : chans
}.

Definition New (c : chans) : MemoryWorkQueue := mkMemory ∅ c.

(** ** pendingHeap *)

(** The comparison of [Less]: by RunAt, equal times in the order of seq. *)
Definition item_less (x y : pendingItem) : bool :=
  if negb (time_Equal (RunAt (task x)) (RunAt (task y)))
  then time_Before (RunAt (task x)) (RunAt (task y))
  else bool_decide (item_seq x < item_seq y).

Definition pendingHeap_Less (h : list pendingItem) (i j : nat) : option bool :=
  x ← h !! i; y ← h !! j; Some (item_less x y).

Definition pendingHeap_Swap (h : list pendingItem) (i j : nat) : option (list pendingItem) :=
  x ← h !! i; y ← h !! j; Some (<[i:=y]> (<[j:=x]> h)).

Definition pendingHeap_Push (x : pendingItem) (h : list pendingItem) : list pendingItem :=
  h ++ [x].

Definition pendingHeap_Pop (h : list pendingItem) : option (pendingItem * list pendingItem) :=
  item ← last h; Some (item, take (length h - 1) h).

#[export] Instance pendingHeap : HeapInterface (list pendingItem) pendingItem := {
  Len := length;
  Less := pendingHeap_Less;
  Swap := pendingHeap_Swap;
  append_last := pendingHeap_Push;
  remove_last := pendingHeap_Pop
}.

(** ** Helpers of the operations *)

(** [m.queue(name)]: looks the queue up and creates it on first use. *)
Definition queue (name : string) (m : MemoryWorkQueue) : queueState * MemoryWorkQueue :=
  match queues m !! name with
  | Some q => (q, m)
  | None =>
      let '(ch, c) := make_chan (mem_chans m) in
      let q := mkQueue [] 0 [] ch in
      (q, mkMemory (<[name:=q]> (queues m)) c)
  end.

(** What the operations write through the pointer [m.queue(name)] returned. *)
Definition put_queue (name : string) (q : queueState) (c : chans) (m : MemoryWorkQueue) :
    MemoryWorkQueue :=
  mkMemory (<[name:=q]> (queues m)) c.

Definition broadcast (q : queueState) (c : chans) : option (queueState * chans) :=
  c ← close_chan (notify q) c;
  let '(ch, c) := make_chan c in
  Some (mkQueue (pending q) (seq q) (dead q) ch, c).

(** [q.seq++; heap.Push(&q.pending, &pendingItem{t, q.seq}); q.broadcast()] *)
Definition push_pending (t : Task) (q : queueState) (c : chans) :
    option (queueState * chans) :=
  let n := wrap64 (seq q + 1) in
  h ← Push (pending q) (mkItem t n);
  broadcast (mkQueue h n (dead q) (notify q)) c.

(** [append([]byte(nil), p...)]: nil when there is nothing to append. *)
Definition append_to_nil (p : bytes) : bytes :=
  match p with
  | None | Some [] => None
  | Some l => Some l
  end.

Definition cloneTask (t : Task) : Task :=
  mkTask (ID t) (Queue t) (append_to_nil (Payload t)) (Metadata t) (Attempts t)
    (MaxRetries t) (EnqueuedAt t) (RunAt t) (LastError t) (DiedAt t).

(** ** Operations *)

Definition Enqueue (now : time) (uuid : string) (name : string) (payload : bytes)
    (opts : list EnqueueOption) (m : MemoryWorkQueue) : option (Task * MemoryWorkQueue) :=
  let o := NewEnqueueOptions opts in
  let t := mkTask uuid name (append_to_nil payload) (eo_Metadata o) 0 (eo_MaxRetries o)
             now (ResolveRunAt o now) "" zeroTime in
  let ret := cloneTask t in
  let '(q, m) := queue name m in
  '(q, c) ← push_pending t q (mem_chans m);
  Some (ret, put_queue name q c m).

Definition idleWait : duration := Minute.

(** Task (nil when nothing is due), wait, and the channel to sleep on. *)
Definition claim (now : time) (name : string) (m : MemoryWorkQueue) :
    option ((option Task * duration * option chan) * MemoryWorkQueue) :=
  let '(q, m) := queue name m in
  match pending q !! 0%nat with
  | None => Some ((None, idleWait, Some (notify q)), m)
  | Some first =>
      let next := task first in
      if time_After (RunAt next) now
      then Some ((None, time_Sub (RunAt next) now, Some (notify q)), m)
      else
        '(item, h) ← Pop (pending q);
        let q := mkQueue h (seq q) (dead q) (notify q) in
        Some ((Some (incr_Attempts (task item)), 0, None), put_queue name q (mem_chans m) m)
  end.

Definition complete (now : time) (name : string) (t : Task) (handlerErr : option string)
    (o : ConsumeOptions) (m : MemoryWorkQueue) : option MemoryWorkQueue :=
  match handlerErr with
  | None => Some m
  | Some e =>
      let '(q, m) := queue name m in
      if decide (MaxRetries t < Attempts t) then
        let t := set_DiedAt now (set_LastError e t) in
        let q := mkQueue (pending q) (seq q) (dead q ++ [t]) (notify q) in
        Some (put_queue name q (mem_chans m) m)
      else
        d ← RetryBackoff (BackoffBase o) (BackoffMax o) (Attempts t);
        let t := set_RunAt (time_Add now d) t in
        '(q, c) ← push_pending t q (mem_chans m);
        Some (put_queue name q c m)
  end.

(** The slice bounds [dead[offset:end]] panic unless offset <= end <= len. *)
Definition slice {A} (lo hi : Z) (l : list A) : option (list A) :=
  if decide (0 ≤ lo ≤ hi ∧ hi ≤ Z.of_nat (length l))
  then Some (take (Z.to_nat (hi - lo)) (drop (Z.to_nat lo) l)) else None.

Definition ListDeadTasks (name : string) (limit offset : Z) (m : MemoryWorkQueue) :
    option (list Task * MemoryWorkQueue) :=
  let '(q, m) := queue name m in
  let offset := if decide (offset < 0) then 0 else offset in
  let len := Z.of_nat (length (dead q)) in
  if decide (len ≤ offset) then Some ([], m)
  else
    let stop := wrap64 (offset + limit) in
    let end_ := if decide (0 < limit ∧ stop < len) then stop else len in
    l ← slice offset end_ (dead q);
    Some (map cloneTask l, m).

(** The index of the first dead task with the identifier. *)
Definition find_dead (taskID : string) (l : list Task) : option (nat * Task) :=
  list_find (λ t, ID t = taskID) l.

(** [append(l[:i], l[i+1:]...)] *)
Definition remove_at {A} (i : nat) (l : list A) : list A := take i l ++ drop (S i) l.

Definition RequeueDeadTask (now : time) (name taskID : string) (m : MemoryWorkQueue) :
    option (option Err * MemoryWorkQueue) :=
  let '(q, m) := queue name m in
  match find_dead taskID (dead q) with
  | None => Some (Some ErrTaskNotFound, m)
  | Some (i, t) =>
      let q := mkQueue (pending q) (seq q) (remove_at i (dead q)) (notify q) in
      let t := set_RunAt now (set_DiedAt zeroTime (set_LastError "" (set_Attempts 0 t))) in
      '(q, c) ← push_pending t q (mem_chans m);
      Some (None, put_queue name q c m)
  end.

Definition DeleteDeadTask (name taskID : string) (m : MemoryWorkQueue) :
    option Err * MemoryWorkQueue :=
  let '(q, m) := queue name m in
  match find_dead taskID (dead q) with
  | None => (Some ErrTaskNotFound, m)
  | Some (i, t) =>
      let q := mkQueue (pending q) (seq q) (remove_at i (dead q)) (notify q) in
      (None, put_queue name q (mem_chans m) m)
  end.
