(* ===== verification/MemorySpec.v ===== *)
(** * What a queue of the in-memory backend is, and that it is one

    The abstract queue is a list of pending tasks in delivery order and the
    list of dead tasks. A task enters the pending list behind every task that
    is not due later than it ([a_insert]): the queue is ordered by RunAt and
    first-in first-out among equal times. The operations of [Memory] on their
    heaps, sequence numbers and channels are a forward simulation of it. *)

From stdpp Require Import base tactics list numbers option gmap strings sorting.
From S2P Require Import Prelude GoRuntime GoHeap Contract Options Memory.

(** ** The abstract queue *)

Record AQueue := mkAQueue { a_pending : list Task; a_dead : list Task }.

Definition a_empty : AQueue := mkAQueue [] [].

Fixpoint a_insert (t : Task) (l : list Task) : list Task :=
  match l with
  | [] => [t]
  | u :: l => if decide (RunAt t < RunAt u) then t :: u :: l else u :: a_insert t l
  end.

(** The operations of one queue, with the clock readings they make. *)
Inductive op :=
  | OpEnqueue (now : time) (uuid : string) (payload : bytes) (opts : list EnqueueOption)
  | OpClaim (now : time)
  | OpComplete (now : time) (t : Task) (err : option string) (o : ConsumeOptions)
  | OpList (limit offset : Z)
  | OpRequeue (now : time) (taskID : string)
  | OpDelete (taskID : string).

Inductive resp :=
  | RTask (t : Task)
  | RClaim (t : option Task) (wait : duration)
  | RUnit
  | RList (l : list Task)
  | RErr (e : option Err).

(** The delay before the retry that follows attempt [n]. *)
Definition retry_delay (o : ConsumeOptions) (n : Z) : duration :=
  Z.min (backoff_base (BackoffBase o) * 2 ^ (backoff_attempt n - 1))
        (backoff_max (BackoffBase o) (BackoffMax o)).

Definition revived (now : time) (t : Task) : Task :=
  set_RunAt now (set_DiedAt zeroTime (set_LastError "" (set_Attempts 0 t))).

Definition new_task (now : time) (uuid name : string) (payload : bytes)
    (opts : list EnqueueOption) : Task :=
  let o := NewEnqueueOptions opts in
  mkTask uuid name (append_to_nil payload) (eo_Metadata o) 0 (eo_MaxRetries o)
    now (ResolveRunAt o now) "" zeroTime.

Definition spec_exec (name : string) (p : op) (a : AQueue) : resp * AQueue :=
  match p with
  | OpEnqueue now uuid payload opts =>
      let t := new_task now uuid name payload opts in
      (RTask t, mkAQueue (a_insert t (a_pending a)) (a_dead a))
  | OpClaim now =>
      match a_pending a with
      | [] => (RClaim None Minute, a)
      | t :: rest =>
          if decide (now < RunAt t) then (RClaim None (time_Sub (RunAt t) now), a)
          else (RClaim (Some (incr_Attempts t)) 0, mkAQueue rest (a_dead a))
      end
  | OpComplete now t None o => (RUnit, a)
  | OpComplete now t (Some e) o =>
      if decide (MaxRetries t < Attempts t)
      then (RUnit, mkAQueue (a_pending a) (a_dead a ++ [set_DiedAt now (set_LastError e t)]))
      else (RUnit, mkAQueue (a_insert (set_RunAt (now + retry_delay o (Attempts t)) t)
                               (a_pending a)) (a_dead a))
  | OpList limit offset => (RList (map cloneTask (page limit offset (a_dead a))), a)
  | OpRequeue now taskID =>
      match find_dead taskID (a_dead a) with
      | None => (RErr (Some ErrTaskNotFound), a)
      | Some (i, t) => (RErr None, mkAQueue (a_insert (revived now t) (a_pending a))
                                            (remove_at i (a_dead a)))
      end
  | OpDelete taskID =>
      match find_dead taskID (a_dead a) with
      | None => (RErr (Some ErrTaskNotFound), a)
      | Some (i, t) => (RErr None, mkAQueue (a_pending a) (remove_at i (a_dead a)))
      end
  end.

(** ** The concrete operations under the same names *)

Definition mem_exec (name : string) (p : op) (m : MemoryWorkQueue) :
    option (resp * MemoryWorkQueue) :=
  match p with
  | OpEnqueue now uuid payload opts =>
      '(t, m) ← Enqueue now uuid name payload opts m; Some (RTask t, m)
  | OpClaim now => '(t, wait, _, m) ← claim now name m; Some (RClaim t wait, m)
  | OpComplete now t err o => m ← complete now name t err o m; Some (RUnit, m)
  | OpList limit offset => '(l, m) ← ListDeadTasks name limit offset m; Some (RList l, m)
  | OpRequeue now taskID => '(e, m) ← RequeueDeadTask now name taskID m; Some (RErr e, m)
  | OpDelete taskID => let '(e, m) := DeleteDeadTask name taskID m in Some (RErr e, m)
  end.

(** What a call relies on: the arguments are 64-bit integers, the queue has
    seen fewer than 2^63 - 1 insertions, and the page does not end past the
    largest int (see [ListDeadTasks_overflow_panics]). *)
Definition op_ok (p : op) : Prop :=
  match p with
  | OpComplete _ _ _ o => in_int64 (BackoffBase o) ∧ in_int64 (BackoffMax o)
  | OpList limit offset => in_int64 limit ∧ Z.max 0 offset + limit ≤ max_int64
  | _ => True
  end.

(** ListDeadTasks adds offset and limit as ints. A page that starts inside the
    list and ends past the largest int makes it panic; nothing else makes an
    operation panic. *)
Definition page_overflows (limit offset len : Z) : bool :=
  bool_decide (Z.max 0 offset < len ∧ max_int64 < Z.max 0 offset + limit).

Definition op_panics (p : op) (a : AQueue) : bool :=
  match p with
  | OpList limit offset => page_overflows limit offset (Z.of_nat (length (a_dead a)))
  | _ => false
  end.

(** The integer arguments of a call are 64-bit integers. *)
Definition op_args (p : op) : Prop :=
  match p with
  | OpComplete _ _ _ o => in_int64 (BackoffBase o) ∧ in_int64 (BackoffMax o)
  | OpList limit offset => in_int64 limit ∧ in_int64 offset
  | _ => True
  end.

(** ** Abstraction *)

Definition item_le (x y : pendingItem) : Prop := item_less y x = false.

#[export] Instance item_le_dec x y : Decision (item_le x y).
Proof. unfold item_le. apply _. Defined.

Lemma item_le_key x y :
  item_le x y ↔ RunAt (task x) < RunAt (task y) ∨
    (RunAt (task x) = RunAt (task y) ∧ item_seq x ≤ item_seq y).
Proof.
  unfold item_le, item_less, time_Equal, time_Before.
  repeat case_bool_decide; simpl; split; intros; try done; lia.
Qed.

#[export] Instance item_le_total : Total item_le.
Proof. intros x y. rewrite !item_le_key. lia. Qed.

#[export] Instance item_le_trans : Transitive item_le.
Proof. intros x y z. rewrite !item_le_key. lia. Qed.

#[export] Instance pendingHeap_laws : HeapLaws pendingHeap (λ h, h) item_less.
Proof.
  split.
  - done.
  - done.
  - intros h i j a b Hi Hj. simpl. unfold pendingHeap_Swap.
    rewrite Hi; simpl; rewrite Hj; simpl. eauto.
  - done.
  - intros h x l ->. simpl. unfold pendingHeap_Pop. rewrite last_snoc; simpl.
    rewrite length_app; simpl. replace (length l + 1 - 1)%nat with (length l) by lia.
    rewrite take_app_length. eauto.
  - intros a b. change (item_less b a = false) with (item_le a b). rewrite item_le_key.
    unfold item_less, time_Equal, time_Before.
    repeat case_bool_decide; simpl; intros; try done; lia.
  - intros a b c Hab Hbc. exact (item_le_trans a b c Hab Hbc).
Qed.

Definition delivery_order (h : list pendingItem) : list pendingItem := merge_sort item_le h.

Definition abs_queue (q : queueState) : AQueue :=
  mkAQueue (task <$> delivery_order (pending q)) (dead q).

(** A queue that was never named is empty. *)
Definition abs (m : MemoryWorkQueue) (name : string) : AQueue :=
  match queues m !! name with Some q => abs_queue q | None => a_empty end.

(** ** Invariant *)

Record queue_ok (c : chans) (q : queueState) : Prop := {
  ok_heap : is_heap item_less (pending q);
  ok_nodup : NoDup (item_seq <$> pending q);
  ok_seq : Forall (λ i, item_seq i ≤ seq q) (pending q);
  ok_seq_pos : 0 ≤ seq q;
  ok_notify : is_open (notify q) c
}.

Record memory_ok (m : MemoryWorkQueue) : Prop := {
  ok_chans : chans_ok (mem_chans m);
  ok_queues name q : queues m !! name = Some q → queue_ok (mem_chans m) q;
  ok_distinct name name' q q' :
    queues m !! name = Some q → queues m !! name' = Some q' →
    notify q = notify q' → name = name'
}.

(** No queue has numbered more than [k] insertions. *)
Definition seqs_le (k : Z) (m : MemoryWorkQueue) : Prop :=
  ∀ name q, queues m !! name = Some q → seq q ≤ k.

(** There is room for one more insertion into the queue. *)
Definition has_room (name : string) (m : MemoryWorkQueue) : Prop :=
  ∀ q, queues m !! name = Some q → seq q < max_int64.

(** ** Delivery order *)

Lemma delivery_order_Permutation h : delivery_order h ≡ₚ h.
Proof. apply merge_sort_Permutation. Qed.

Lemma delivery_order_sorted h : StronglySorted item_le (delivery_order h).
Proof. apply (StronglySorted_merge_sort item_le); apply _. Qed.

(** Distinct sequence numbers make the delivery order the only one. *)
Lemma delivery_order_unique h l :
  NoDup (item_seq <$> h) → StronglySorted item_le l → l ≡ₚ h → delivery_order h = l.
Proof.
  intros Hnd Hl Hperm. eapply (StronglySorted_unique_strong item_le).
  - intros x y Hx Hy Hxy Hyx.
    rewrite delivery_order_Permutation in Hx. rewrite Hperm in Hy.
    rewrite item_le_key in Hxy, Hyx.
    apply list_elem_of_lookup in Hx as [i Hi], Hy as [j Hj].
    assert (i = j) as ->; [|congruence].
    eapply (NoDup_lookup _ i j (item_seq x) Hnd).
    + by rewrite list_lookup_fmap, Hi.
    + rewrite list_lookup_fmap, Hj; simpl. f_equal. lia.
  - apply delivery_order_sorted.
  - done.
  - by rewrite delivery_order_Permutation.
Qed.

Fixpoint insert_item (x : pendingItem) (l : list pendingItem) : list pendingItem :=
  match l with
  | [] => [x]
  | y :: l => if decide (RunAt (task x) < RunAt (task y)) then x :: y :: l
              else y :: insert_item x l
  end.

Lemma insert_item_Permutation x l : insert_item x l ≡ₚ x :: l.
Proof.
  induction l as [|y l IH]; simpl; [done|]. case_decide; [done|].
  rewrite IH. apply Permutation_swap.
Qed.

Lemma insert_item_sorted x l :
  Forall (λ y, item_seq y ≤ item_seq x) l → StronglySorted item_le l →
  StronglySorted item_le (insert_item x l).
Proof.
  induction 2 as [|y l Hl IH Hy]; simpl; [repeat constructor|].
  apply Forall_cons in H as [Hxy Hall]. case_decide as Hlt.
  - constructor; [by constructor|]. constructor; [apply item_le_key; lia|].
    eapply Forall_impl; [done|]. intros z. rewrite !item_le_key. lia.
  - constructor; [by apply IH|]. rewrite insert_item_Permutation.
    constructor; [apply item_le_key; lia|done].
Qed.

Lemma insert_item_task x l : task <$> insert_item x l = a_insert (task x) (task <$> l).
Proof. induction l as [|y l IH]; csimpl; [done|]. case_decide; csimpl; [done|by rewrite IH]. Qed.

Lemma item_le_refl x : item_le x x.
Proof. apply item_le_key. lia. Qed.

(** Two sorted splits: the head of the delivery order is the popped item. *)
Lemma delivery_order_pop h x h' :
  NoDup (item_seq <$> h) → x :: h' ≡ₚ h → Forall (item_le x) h →
  delivery_order h = x :: delivery_order h'.
Proof.
  intros Hnd Hperm Hmin. apply delivery_order_unique; [done| |].
  - constructor; [apply delivery_order_sorted|].
    rewrite delivery_order_Permutation. rewrite <- Hperm in Hmin. by inversion Hmin.
  - by rewrite delivery_order_Permutation.
Qed.

Lemma delivery_order_push h x h' n :
  NoDup (item_seq <$> h) → Forall (λ i, item_seq i ≤ n) h → item_seq x = n + 1 →
  h' ≡ₚ x :: h → delivery_order h' = insert_item x (delivery_order h).
Proof.
  intros Hnd Hle Hx Hperm. apply delivery_order_unique.
  - rewrite Hperm; simpl. constructor; [|done].
    rewrite list_elem_of_fmap. intros (y & Hy & Hin).
    rewrite Forall_forall in Hle. specialize (Hle y Hin); simpl in Hle. lia.
  - apply insert_item_sorted; [|apply delivery_order_sorted].
    rewrite delivery_order_Permutation. eapply Forall_impl; [done|]; simpl; lia.
  - by rewrite insert_item_Permutation, delivery_order_Permutation, Hperm.
Qed.

(** ** How a step on one queue changes the channels

    A channel made before the step is closed by it only if it was the queue's
    notify channel. Afterwards the queue has the same channel and no new
    pending item, or a channel that was not made before and its former channel
    closed: nobody sleeping on a queue misses an insertion. *)

Record evolves (name : string) (m m' : MemoryWorkQueue) : Prop := {
  ev_le : chans_le (mem_chans m) (mem_chans m');
  ev_others n : n ≠ name → queues m' !! n = queues m !! n;
  ev_exists : is_Some (queues m !! name) → is_Some (queues m' !! name);
  ev_closed ch : is_closed ch (mem_chans m') →
    is_closed ch (mem_chans m) ∨ ¬ made ch (mem_chans m) ∨
    ∃ q, queues m !! name = Some q ∧ notify q = ch;
  ev_notify q' : queues m' !! name = Some q' →
    (∃ q, queues m !! name = Some q ∧ notify q' = notify q ∧ pending q' ⊆ pending q) ∨
    (¬ made (notify q') (mem_chans m) ∧
     ∀ q, queues m !! name = Some q → is_closed (notify q) (mem_chans m'))
}.

#[export] Instance evolves_preorder name : PreOrder (evolves name).
Proof.
  split.
  - intros m. split; try done; [by left|]. intros q' Hq'. left. by exists q'.
  - intros m1 m2 m3 [Hle1 Ho1 He1 Hc1 Hn1] [Hle2 Ho2 He2 Hc2 Hn2]. split.
    + by etrans.
    + intros n Hn. by rewrite Ho2, Ho1.
    + auto.
    + intros ch Hch. destruct (Hc2 ch Hch) as [Hcl|[Hm|(q & Hq & <-)]].
      * by apply Hc1.
      * right; left. intros Hm1. apply Hm. by eapply chans_le_made.
      * destruct (Hn1 q Hq) as [(q0 & Hq0 & -> & _)|[Hm _]]; [|by right; left].
        right; right. by exists q0.
    + intros q3 Hq3. destruct (Hn2 q3 Hq3) as [(q2 & Hq2 & Hn & Hsub)|[Hm Hcl]].
      * destruct (Hn1 q2 Hq2) as [(q1 & Hq1 & Hn' & Hsub')|[Hm Hcl]].
        -- left. exists q1. split_and!; [done|congruence|by etrans].
        -- right. rewrite Hn. split; [done|]. intros q Hq.
           eapply chans_le_closed; [done|by apply Hcl].
      * right. split; [intros Hm1; apply Hm; by eapply chans_le_made|].
        intros q Hq. destruct (He1 (ex_intro _ q Hq)) as [q2 Hq2].
        destruct (Hn1 q2 Hq2) as [(q1 & Hq1 & Hn' & _)|[_ Hcl']].
        -- simplify_eq. rewrite <- Hn'. by apply Hcl.
        -- eapply chans_le_closed; [done|by apply Hcl'].
Qed.

(** A write that keeps the channel and adds no item. *)
Lemma evolves_write name q q' m :
  queues m !! name = Some q → notify q' = notify q → pending q' ⊆ pending q →
  evolves name m (put_queue name q' (mem_chans m) m).
Proof.
  intros Hq Hn Hsub. split; simpl.
  - done.
  - intros n Hne. by rewrite lookup_insert_ne.
  - intros _. rewrite lookup_insert_eq. eauto.
  - by left.
  - intros r. rewrite lookup_insert_eq. intros [= <-]. left. by exists q.
Qed.

(** A write after a broadcast. *)
Lemma evolves_broadcast name q q' c1 c' m :
  queues m !! name = Some q → close_chan (notify q) (mem_chans m) = Some c1 →
  closed_chans c' = closed_chans c1 → next_chan c' = S (next_chan (mem_chans m)) →
  notify q' = next_chan (mem_chans m) → evolves name m (put_queue name q' c' m).
Proof.
  intros Hq Hclose Hcc Hnext Hn.
  assert (∀ ch, is_closed ch c' ↔ ch = notify q ∨ is_closed ch (mem_chans m)) as Hcl.
  { intros ch. unfold is_closed at 1. rewrite Hcc. by eapply close_chan_is_closed. }
  split; simpl.
  - split; [lia|]. intros ch Hch. apply Hcl. by right.
  - intros n Hne. by rewrite lookup_insert_ne.
  - intros _. rewrite lookup_insert_eq. eauto.
  - intros ch. rewrite Hcl. intros [->|Hch]; [right; right; by exists q|by left].
  - intros r. rewrite lookup_insert_eq. intros [= <-]. right. split.
    + unfold made. rewrite Hn. lia.
    + intros q0 Hq0. simplify_eq. apply Hcl. by left.
Qed.

(** The creation of a queue on first use. *)
Lemma evolves_create name q m :
  queues m !! name = None → notify q = next_chan (mem_chans m) →
  evolves name m (mkMemory (<[name:=q]> (queues m)) (make_chan (mem_chans m)).2).
Proof.
  intros Hq Hn. split; simpl.
  - apply make_chan_le.
  - intros n Hne. by rewrite lookup_insert_ne.
  - rewrite Hq. by intros [??].
  - by left.
  - intros r. rewrite lookup_insert_eq. intros [= <-]. right. split.
    + unfold made. rewrite Hn. lia.
    + intros q0 Hq0. simplify_eq.
Qed.

(** ** One queue *)

(** The insertion every operation that adds a task ends with. *)
Lemma push_pending_ok t q c :
  chans_ok c → queue_ok c q → seq q < max_int64 →
  ∃ q' c', push_pending t q c = Some (q', c') ∧ chans_ok c' ∧ queue_ok c' q' ∧
    abs_queue q' = mkAQueue (a_insert t (a_pending (abs_queue q))) (a_dead (abs_queue q)) ∧
    pending q' ≡ₚ mkItem t (seq q + 1) :: pending q ∧ seq q' = seq q + 1 ∧
    dead q' = dead q ∧
    close_chan (notify q) c = Some (Chans (next_chan c) (closed_chans c')) ∧
    notify q' = next_chan c ∧ next_chan c' = S (next_chan c).
Proof.
  intros Hc [Hheap Hnd Hle Hpos Hopen] Hroom.
  unfold push_pending. rewrite wrap64_succ by (unfold in_int64; lia).
  destruct (Push_correct (contents := λ h, h) (pending q) (mkItem t (seq q + 1)) Hheap)
    as (h & -> & Hh & Hperm); simpl.
  unfold broadcast; simpl.
  destruct (close_chan_open _ _ Hopen) as [c1 Hc1]. rewrite Hc1; simpl.
  assert (chans_ok c1) as Hok1 by (eapply close_chan_ok; eauto; apply Hopen).
  pose proof Hc1 as Hc1'. unfold close_chan in Hc1'. case_decide; [done|].
  injection Hc1' as Hc1'.
  eexists _, _. split; [reflexivity|]. split_and!; simpl.
  - by apply (make_chan_ok c1).
  - constructor; simpl.
    + done.
    + rewrite Hperm; simpl. constructor; [|done].
      rewrite list_elem_of_fmap. intros (y & Hy & Hin).
      rewrite Forall_forall in Hle. specialize (Hle y Hin); simpl in Hle. lia.
    + rewrite Hperm. constructor; simpl; [lia|].
      eapply Forall_impl; [done|]; simpl; lia.
    + lia.
    + by apply (make_chan_open c1).
  - unfold abs_queue; simpl. f_equal.
    rewrite (delivery_order_push (pending q) (mkItem t (seq q + 1)) h (seq q)) by done.
    apply insert_item_task.
  - done.
  - done.
  - done.
  - by rewrite <- Hc1'.
  - by rewrite <- Hc1'.
  - by rewrite <- Hc1'.
Qed.

(** The pop of [claim]: the first item of the delivery order. *)
Lemma pop_ok c q first :
  queue_ok c q → pending q !! 0%nat = Some first →
  ∃ h, Pop (pending q) = Some (first, h) ∧ first :: h ≡ₚ pending q ∧
    delivery_order (pending q) = first :: delivery_order h ∧
    queue_ok c (mkQueue h (seq q) (dead q) (notify q)).
Proof.
  intros [Hheap Hnd Hle Hpos Hopen] Hfirst.
  destruct (Pop_correct (contents := λ h, h) (pending q) Hheap) as (x & h & HPop & Hx & Hh & Hperm & Hmin).
  { intros E. by rewrite E in Hfirst. }
  simplify_eq. exists h. split_and!; [done|done|by apply delivery_order_pop|].
  rewrite <- Hperm in Hnd, Hle. constructor; simpl; [done| | |done|done].
  - by inversion Hnd.
  - by inversion Hle.
Qed.

Lemma pending_nil q : pending q !! 0%nat = None → delivery_order (pending q) = [].
Proof. destruct (pending q); simpl; [done|discriminate]. Qed.

(** ** The map of queues *)

Lemma queue_spec name m :
  memory_ok m →
  ∃ q m', queue name m = (q, m') ∧ memory_ok m' ∧ queues m' !! name = Some q ∧
    queue_ok (mem_chans m') q ∧ (has_room name m → seq q < max_int64) ∧
    (∀ n, abs m' n = abs m n) ∧ abs m name = abs_queue q ∧
    (∀ k, 0 ≤ k → seqs_le k m → seqs_le k m') ∧ evolves name m m'.
Proof.
  intros Hm. unfold queue. destruct (queues m !! name) as [q|] eqn:Hq.
  { exists q, m. split_and!; try done; [by eapply ok_queues|by intros H; apply H|].
    unfold abs. by rewrite Hq. }
  destruct Hm as [Hc Hqs Hdist].
  eexists _, _. split; [reflexivity|].
  assert (queue_ok (make_chan (mem_chans m)).2
            (mkQueue [] 0 [] (make_chan (mem_chans m)).1)) as Hnew.
  { constructor; simpl; [intros ???; simpl; lia|constructor|constructor|lia|].
    by apply (make_chan_open (mem_chans m)). }
  split_and!; simpl; try done.
  - constructor; simpl.
    + by apply (make_chan_ok (mem_chans m)).
    + intros n q. rewrite lookup_insert_Some. intros [[<- <-]|[Hne Hq']]; [done|].
      destruct (Hqs n q Hq'). constructor; auto. by apply make_chan_other.
    + intros n n' q q'. rewrite !lookup_insert_Some.
      intros [[<- <-]|[Hne Hl]] [[<- <-]|[Hne' Hl']]; simpl; intros Hn; try done.
      * destruct (ok_notify _ _ (Hqs _ _ Hl')) as [Hmade _]. unfold made in Hmade. lia.
      * destruct (ok_notify _ _ (Hqs _ _ Hl)) as [Hmade _]. unfold made in Hmade. lia.
      * by eapply Hdist.
  - by rewrite lookup_insert_eq.
  - intros n. unfold abs; simpl. destruct (decide (name = n)) as [<-|Hne].
    + by rewrite lookup_insert_eq, Hq.
    + by rewrite lookup_insert_ne.
  - unfold abs. by rewrite Hq.
  - intros k Hk Hle n q. simpl. rewrite lookup_insert_Some.
    intros [[<- <-]|[_ Hl]]; [done|by eapply Hle].
  - by apply evolves_create.
Qed.

Lemma put_queue_seqs_le name q c k k' m :
  seqs_le k m → k ≤ k' → seq q ≤ k' → seqs_le k' (put_queue name q c m).
Proof.
  intros Hle Hkk' Hq n r. simpl. rewrite lookup_insert_Some.
  intros [[<- <-]|[_ Hl]]; [done|]. specialize (Hle _ _ Hl). lia.
Qed.

(** A write that keeps the queue's channel and the channels. *)
Lemma put_queue_same name q q' m :
  memory_ok m → queues m !! name = Some q → queue_ok (mem_chans m) q' →
  notify q' = notify q → memory_ok (put_queue name q' (mem_chans m) m).
Proof.
  intros [Hc Hqs Hdist] Hq Hq' Hn. constructor; simpl; [done| |].
  - intros n r. rewrite lookup_insert_Some. intros [[<- <-]|[Hne Hr]]; [done|by eapply Hqs].
  - intros n n' r r'. rewrite !lookup_insert_Some.
    intros [[<- <-]|[Hne Hl]] [[<- <-]|[Hne' Hl']] Hnn; try done; eapply Hdist; eauto; congruence.
Qed.

(** A write after a broadcast: the other queues' channels stay open. *)
Lemma put_queue_broadcast name q q' c' m :
  memory_ok m → queues m !! name = Some q → chans_ok c' → queue_ok c' q' →
  close_chan (notify q) (mem_chans m) = Some (Chans (next_chan (mem_chans m)) (closed_chans c')) →
  notify q' = next_chan (mem_chans m) → next_chan c' = S (next_chan (mem_chans m)) →
  memory_ok (put_queue name q' c' m).
Proof.
  intros [Hc Hqs Hdist] Hq Hc' Hq' Hclose Hn Hnext. constructor; simpl; [done| |].
  - intros n r. rewrite lookup_insert_Some. intros [[<- <-]|[Hne Hr]]; [done|].
    destruct (Hqs n r Hr) as [? ? ? ? [Hmade Hnc]]. constructor; auto.
    split; [unfold made in *; lia|]. intros Hcl.
    assert (is_closed (notify r) (Chans (next_chan (mem_chans m)) (closed_chans c'))) as Hcl'
      by exact Hcl.
    rewrite (close_chan_is_closed _ _ _ _ Hclose) in Hcl'.
    destruct Hcl' as [E|?]; [|done]. apply Hne. by eapply Hdist.
  - intros n n' r r'. rewrite !lookup_insert_Some.
    intros [[<- <-]|[Hne Hl]] [[<- <-]|[Hne' Hl']] Hnn; try done.
    + destruct (ok_notify _ _ (Hqs _ _ Hl')) as [Hmade _]. unfold made in Hmade. lia.
    + destruct (ok_notify _ _ (Hqs _ _ Hl)) as [Hmade _]. unfold made in Hmade. lia.
    + by eapply Hdist.
Qed.

Lemma abs_put_queue name q c m n :
  abs (put_queue name q c m) n = if decide (n = name) then abs_queue q else abs m n.
Proof.
  unfold abs, put_queue; simpl. case_decide as E; [subst; by rewrite lookup_insert_eq|].
  by rewrite lookup_insert_ne.
Qed.

(** ** Slices and pages *)

Lemma slice_page {A} limit offset (l : list A) :
  in_int64 limit → Z.max 0 offset + limit ≤ max_int64 →
  let offset' := if decide (offset < 0) then 0 else offset in
  let len := Z.of_nat (length l) in
  offset' < len →
  let stop := wrap64 (offset' + limit) in
  slice offset' (if decide (0 < limit ∧ stop < len) then stop else len) l =
    Some (page limit offset l).
Proof.
  intros Hlim Hsum offset' len Hlt stop. unfold in_int64 in Hlim.
  assert (offset' = Z.max 0 offset) as Hoff by (unfold offset'; case_decide; lia).
  assert (Z.to_nat offset = Z.to_nat offset') as Hnat by lia.
  unfold slice, page. rewrite Hnat. clearbody offset'.
  destruct (decide (0 < limit)) as [Hpos|Hneg].
  - assert (stop = offset' + limit) as -> by (apply wrap64_id; unfold in_int64; lia).
    destruct (decide (offset' + limit < len)).
    + rewrite (decide_True (P := 0 < limit ∧ _)) by lia. rewrite decide_True by lia.
      by replace (offset' + limit - offset') with limit by lia.
    + rewrite (decide_False (P := 0 < limit ∧ _)) by lia. rewrite decide_True by lia.
      f_equal. rewrite !take_ge; [done| |]; rewrite length_drop; lia.
  - rewrite (decide_False (P := 0 < limit ∧ _)) by lia. rewrite decide_True by lia.
    f_equal. apply take_ge. rewrite length_drop. lia.
Qed.

Lemma page_past_end {A} limit offset (l : list A) :
  Z.of_nat (length l) ≤ (if decide (offset < 0) then 0 else offset) → page limit offset l = [].
Proof.
  intros Hle. assert (drop (Z.to_nat offset) l = []) as Hd.
  { apply drop_ge. case_decide; lia. }
  unfold page. rewrite Hd, take_nil. by destruct (decide (0 < limit)).
Qed.

(** ** The operations *)

(** [push_pending] and the write of its result. *)
Lemma push_write t name q0 q m :
  memory_ok m → queues m !! name = Some q0 → notify q = notify q0 →
  queue_ok (mem_chans m) q → seq q < max_int64 →
  ∃ q' c', push_pending t q (mem_chans m) = Some (q', c') ∧
    memory_ok (put_queue name q' c' m) ∧
    abs (put_queue name q' c' m) name =
      mkAQueue (a_insert t (a_pending (abs_queue q))) (dead q) ∧
    (∀ n, n ≠ name → abs (put_queue name q' c' m) n = abs m n) ∧
    seq q' = seq q + 1 ∧ evolves name m (put_queue name q' c' m).
Proof.
  intros Hm Hq Hn Hok Hroom.
  destruct (push_pending_ok t q (mem_chans m)) as
    (q' & c' & Hpush & Hc' & Hok' & Habs & _ & Hseq & _ & Hclose & Hnotify & Hnext);
    [apply Hm|done|done|].
  exists q', c'. split_and!; [done| | | |done|].
  - eapply put_queue_broadcast; eauto. by rewrite <- Hn.
  - by rewrite abs_put_queue, decide_True, Habs.
  - intros n Hne. by rewrite abs_put_queue, decide_False.
  - rewrite Hn in Hclose. eapply evolves_broadcast; eauto.
Qed.

Lemma append_to_nil_idemp p : append_to_nil (append_to_nil p) = append_to_nil p.
Proof. by destruct p as [[|b l]|]. Qed.

Lemma remove_dead_ok c q i :
  queue_ok c q → queue_ok c (mkQueue (pending q) (seq q) (remove_at i (dead q)) (notify q)).
Proof. by intros []. Qed.

(** A step of the backend is the step of the abstract queue. *)
Definition refines (name : string) (p : op) (m : MemoryWorkQueue) : Prop :=
  ∃ r m', mem_exec name p m = Some (r, m') ∧ memory_ok m' ∧
    (r, abs m' name) = spec_exec name p (abs m name) ∧
    (∀ n, n ≠ name → abs m' n = abs m n) ∧
    (∀ k, 0 ≤ k → seqs_le k m → seqs_le (k + 1) m') ∧ evolves name m m'.

Lemma seqs_le_mono k k' m : seqs_le k m → k ≤ k' → seqs_le k' m.
Proof. intros Hle Hk n q Hq. specialize (Hle n q Hq). lia. Qed.

(** The shapes a step takes: it leaves the looked-up queue alone, it writes it
    back with its channel and its numbering, or it inserts a task. *)
Section step_shapes.
Context (name : string) (p : op) (m m1 : MemoryWorkQueue) (q : queueState).
Context (Hm1 : memory_ok m1) (Hq : queues m1 !! name = Some q)
  (Hok : queue_ok (mem_chans m1) q) (Heq : ∀ n, abs m1 n = abs m n)
  (Habs : abs m name = abs_queue q) (Hseqs : ∀ k, 0 ≤ k → seqs_le k m → seqs_le k m1)
  (Hev : evolves name m m1).

Lemma refines_keep r :
  mem_exec name p m = Some (r, m1) → spec_exec name p (abs_queue q) = (r, abs_queue q) →
  refines name p m.
Proof using Hm1 Heq Habs Hseqs Hev.
  intros He Hs. exists r, m1. split_and!; [done|done| |auto| |done].
  - by rewrite Heq, Habs.
  - intros k Hk Hle. eapply seqs_le_mono; [by apply Hseqs|lia].
Qed.

Lemma refines_write r q' :
  mem_exec name p m = Some (r, put_queue name q' (mem_chans m1) m1) →
  queue_ok (mem_chans m1) q' → notify q' = notify q → seq q' = seq q →
  pending q' ⊆ pending q →
  spec_exec name p (abs_queue q) = (r, abs_queue q') → refines name p m.
Proof using All.
  intros He Hok' Hn Hseq Hsub Hs. eexists _, _. split; [exact He|]. split_and!.
  - by eapply put_queue_same.
  - by rewrite abs_put_queue, decide_True, Habs.
  - intros n Hne. by rewrite abs_put_queue, decide_False.
  - intros k Hk Hle. specialize (Hseqs k Hk Hle).
    eapply put_queue_seqs_le; [done|lia|]. rewrite Hseq. specialize (Hseqs _ _ Hq). lia.
  - etrans; [exact Hev|]. by eapply evolves_write.
Qed.

Lemma refines_push r t q0 :
  (∀ q' c', push_pending t q0 (mem_chans m1) = Some (q', c') →
    mem_exec name p m = Some (r, put_queue name q' c' m1)) →
  queue_ok (mem_chans m1) q0 → notify q0 = notify q → seq q0 = seq q → seq q < max_int64 →
  spec_exec name p (abs_queue q) =
    (r, mkAQueue (a_insert t (a_pending (abs_queue q0))) (dead q0)) →
  refines name p m.
Proof using All.
  intros He Hok0 Hn Hseq Hlt Hs.
  destruct (push_write t name q q0 m1) as (q' & c' & Hpush & Hm' & Hname & Hothers & Hseq' & Hev');
    [done|done|done|done|lia|].
  eexists _, _. split; [by apply He|]. split_and!.
  - done.
  - by rewrite Hname, Habs.
  - intros n Hne. by rewrite Hothers, Heq.
  - intros k Hk Hle. specialize (Hseqs k Hk Hle).
    eapply put_queue_seqs_le; [done|lia|]. specialize (Hseqs _ _ Hq). lia.
  - by etrans.
Qed.
End step_shapes.

(** [lookup_queue name m] names the queue an operation starts with. *)
Ltac lookup_queue name m Hm :=
  destruct (queue_spec name m Hm) as (q & m1 & HQ & Hm1 & Hq & Hok & Hlt & Heq & Habs & Hseqs & Hev).

Lemma Enqueue_refines name now uuid payload opts m :
  memory_ok m → has_room name m → refines name (OpEnqueue now uuid payload opts) m.
Proof.
  intros Hm Hroom. lookup_queue name m Hm.
  eapply (refines_push name _ m m1 q) with (q0 := q) (t := new_task now uuid name payload opts);
    eauto.
  intros q' c' Hpush. simpl. unfold Enqueue. rewrite HQ.
  fold (new_task now uuid name payload opts). rewrite Hpush; simpl.
  unfold cloneTask, new_task; simpl. by rewrite append_to_nil_idemp.
Qed.

Lemma claim_refines name now m : memory_ok m → refines name (OpClaim now) m.
Proof.
  intros Hm. lookup_queue name m Hm.
  destruct (pending q !! 0%nat) as [first|] eqn:Hfirst.
  - destruct (pop_ok _ _ _ Hok Hfirst) as (h & HPop & Hperm & Hord & Hok').
    destruct (decide (now < RunAt (task first))) as [Hnow|Hnow].
    + eapply (refines_keep name _ m m1 q); eauto.
      * simpl. unfold claim, time_After. rewrite HQ, Hfirst, bool_decide_true by done. done.
      * simpl. rewrite Hord; csimpl. by rewrite decide_True.
    + eapply (refines_write name _ m m1 q) with
        (q' := mkQueue h (seq q) (dead q) (notify q)); eauto.
      * simpl. unfold claim, time_After. rewrite HQ, Hfirst, bool_decide_false by done.
        by rewrite HPop.
      * simpl. rewrite <- Hperm. by apply list_subseteq_cons.
      * simpl. rewrite Hord; csimpl. by rewrite decide_False.
  - eapply (refines_keep name _ m m1 q); eauto.
    + simpl. unfold claim. by rewrite HQ, Hfirst.
    + simpl. by rewrite pending_nil.
Qed.

Lemma complete_refines name now t err o m :
  memory_ok m → has_room name m → op_ok (OpComplete now t err o) →
  refines name (OpComplete now t err o) m.
Proof.
  intros Hm Hroom [Hbase Hmax].
  destruct err as [e|].
  2:{ exists RUnit, m. split_and!; [done|done|done|done| |done].
      intros. eapply seqs_le_mono; [done|lia]. }
  lookup_queue name m Hm.
  destruct (decide (MaxRetries t < Attempts t)) as [Hdead|Hretry].
  - eapply (refines_write name _ m m1 q) with
      (q' := mkQueue (pending q) (seq q) (dead q ++ [set_DiedAt now (set_LastError e t)])
               (notify q)); eauto.
    + simpl. unfold complete. by rewrite HQ, decide_True.
    + by destruct Hok.
    + simpl. by rewrite decide_True.
  - eapply (refines_push name _ m m1 q) with (q0 := q)
      (t := set_RunAt (now + retry_delay o (Attempts t)) t); eauto.
    + intros q' c' Hpush. simpl. unfold complete. rewrite HQ, decide_False by done.
      rewrite RetryBackoff_eq by done; simpl. unfold time_Add.
      fold (retry_delay o (Attempts t)). by rewrite Hpush.
    + simpl. by rewrite decide_False.
Qed.

Lemma ListDeadTasks_refines name limit offset m :
  memory_ok m → in_int64 limit →
  page_overflows limit offset (Z.of_nat (length (a_dead (abs m name)))) = false →
  refines name (OpList limit offset) m.
Proof.
  intros Hm Hlim Hsum%bool_decide_eq_false. lookup_queue name m Hm. rewrite Habs in Hsum.
  eapply (refines_keep name _ m m1 q); eauto.
  simpl. unfold ListDeadTasks. rewrite HQ; cbv zeta.
  destruct (decide (Z.of_nat (length (dead q)) ≤ (if decide (offset < 0) then 0 else offset))).
  - by rewrite page_past_end.
  - rewrite (slice_page limit offset (dead q)); [done|done| |lia].
    simpl in Hsum. case_decide; lia.
Qed.

(** The sum wraps to a negative end and the slice panics. *)
Lemma ListDeadTasks_panics name limit offset m :
  memory_ok m → in_int64 limit → in_int64 offset →
  page_overflows limit offset (Z.of_nat (length (a_dead (abs m name)))) = true →
  ListDeadTasks name limit offset m = None.
Proof.
  unfold in_int64. intros Hm Hlim Hoff [Hin Hsum]%bool_decide_eq_true.
  lookup_queue name m Hm. rewrite Habs in Hin. simpl in Hin.
  unfold ListDeadTasks. rewrite HQ; cbv zeta.
  set (off := if decide (offset < 0) then 0 else offset).
  assert (off = Z.max 0 offset) as Hoff' by (subst off; case_decide; lia). rewrite <- Hoff' in Hin, Hsum.
  assert (wrap64 (off + limit) = off + limit - two64) as Hwrap.
  { unfold wrap64. replace ((off + limit - min_int64) mod two64)
      with (off + limit - min_int64 - two64); [lia|]. apply (Z.mod_unique _ _ 1); lia. }
  rewrite decide_False by lia. rewrite Hwrap.
  rewrite (decide_True (P := 0 < limit ∧ _)) by lia.
  unfold slice. by rewrite (decide_False (P := 0 ≤ off ≤ _ ∧ _)) by lia.
Qed.

Lemma RequeueDeadTask_refines name now taskID m :
  memory_ok m → has_room name m → refines name (OpRequeue now taskID) m.
Proof.
  intros Hm Hroom. lookup_queue name m Hm.
  destruct (find_dead taskID (dead q)) as [[i t]|] eqn:Hfind.
  - eapply (refines_push name _ m m1 q) with (t := revived now t)
      (q0 := mkQueue (pending q) (seq q) (remove_at i (dead q)) (notify q));
      eauto using remove_dead_ok.
    + intros q' c' Hpush. simpl. unfold RequeueDeadTask. rewrite HQ, Hfind.
      fold (revived now t). by rewrite Hpush.
    + simpl. by rewrite Hfind.
  - eapply (refines_keep name _ m m1 q); eauto; simpl.
    + unfold RequeueDeadTask. by rewrite HQ, Hfind.
    + by rewrite Hfind.
Qed.

Lemma DeleteDeadTask_refines name taskID m :
  memory_ok m → refines name (OpDelete taskID) m.
Proof.
  intros Hm. lookup_queue name m Hm.
  destruct (find_dead taskID (dead q)) as [[i t]|] eqn:Hfind.
  - eapply (refines_write name _ m m1 q) with
      (q' := mkQueue (pending q) (seq q) (remove_at i (dead q)) (notify q));
      eauto using remove_dead_ok; simpl.
    + unfold DeleteDeadTask. by rewrite HQ, Hfind.
    + by rewrite Hfind.
  - eapply (refines_keep name _ m m1 q); eauto; simpl.
    + unfold DeleteDeadTask. by rewrite HQ, Hfind.
    + by rewrite Hfind.
Qed.

Lemma op_ok_panics p a : op_ok p → op_panics p a = false.
Proof. destruct p; simpl; try done. intros [_ Hsum]. apply bool_decide_eq_false. lia. Qed.

(** Every operation answers what the abstract queue answers, or panics where
    [op_panics] says so. *)
Lemma mem_exec_exact name p m :
  memory_ok m → has_room name m → op_args p →
  if op_panics p (abs m name) then mem_exec name p m = None else refines name p m.
Proof.
  intros Hm Hroom Hp. destruct p; simpl;
    auto using Enqueue_refines, claim_refines, complete_refines,
      RequeueDeadTask_refines, DeleteDeadTask_refines.
  destruct Hp as [Hlim Hoff]. destruct (page_overflows _ _ _) eqn:E.
  - by rewrite (ListDeadTasks_panics name limit offset m).
  - by apply ListDeadTasks_refines.
Qed.

Lemma mem_exec_refines name p m :
  memory_ok m → has_room name m → op_ok p → refines name p m.
Proof.
  intros Hm Hroom Hp. pose proof (op_ok_panics p (abs m name) Hp) as Hn.
  destruct p; simpl in *; auto using Enqueue_refines, claim_refines, complete_refines,
      RequeueDeadTask_refines, DeleteDeadTask_refines.
  apply ListDeadTasks_refines; [done|apply Hp|done].
Qed.

(** ** Whole histories *)

Fixpoint mem_run (ps : list (string * op)) (m : MemoryWorkQueue) :
    option (list resp * MemoryWorkQueue) :=
  match ps with
  | [] => Some ([], m)
  | (name, p) :: ps =>
      '(r, m) ← mem_exec name p m;
      '(rs, m) ← mem_run ps m;
      Some (r :: rs, m)
  end.

(** A history ends at the first operation that panics. *)
Fixpoint spec_run (ps : list (string * op)) (A : string → AQueue) :
    option (list resp * (string → AQueue)) :=
  match ps with
  | [] => Some ([], A)
  | (name, p) :: ps =>
      if op_panics p (A name) then None
      else
        let '(r, a) := spec_exec name p (A name) in
        '(rs, A) ← spec_run ps (λ n, if decide (n = name) then a else A n);
        Some (r :: rs, A)
  end.

(** What a run of the backend from [m] has to do with the abstract one. *)
Definition run_refines (ps : list (string * op)) (m : MemoryWorkQueue) (A : string → AQueue) : Prop :=
  match spec_run ps A with
  | Some (rs, A') => ∃ m', mem_run ps m = Some (rs, m') ∧ memory_ok m' ∧ ∀ n, abs m' n = A' n
  | None => mem_run ps m = None
  end.

Lemma mem_run_refines ps m A k :
  memory_ok m → (∀ n, abs m n = A n) → Forall (λ p, op_args p.2) ps →
  0 ≤ k → seqs_le k m → k + Z.of_nat (length ps) ≤ max_int64 → run_refines ps m A.
Proof.
  unfold run_refines.
  revert m A k; induction ps as [|[name p] ps IH]; intros m A k Hm HA Hops Hk Hle Hlen.
  { by exists m. }
  apply Forall_cons in Hops as [Hp Hops]. simpl in Hlen |- *. rewrite <- (HA name).
  pose proof (mem_exec_exact name p m Hm) as Hx. destruct (op_panics p (abs m name)).
  { rewrite Hx; [done|intros q Hq; specialize (Hle _ _ Hq); lia|done]. }
  destruct Hx as (r & m1 & He & Hm1 & Hs & Hothers & Hseqs & _); [|done|].
  { intros q Hq. specialize (Hle _ _ Hq). lia. }
  rewrite He, <- Hs; simpl.
  specialize (IH m1 (λ n, if decide (n = name) then abs m1 name else A n) (k + 1)).
  destruct (spec_run ps _) as [[rs A2]|]; simpl.
  - destruct IH as (m2 & -> & Hm2 & HA2); auto; try lia; simpl; [|by eauto].
    intros n. case_decide as E; [by subst|]. by rewrite Hothers.
  - rewrite IH; auto; try lia. intros n. case_decide as E; [by subst|]. by rewrite Hothers.
Qed.

Lemma New_ok c : chans_ok c → memory_ok (New c).
Proof.
  intros Hc. split; [done| |]; unfold New; simpl.
  - intros name q Hq. by rewrite lookup_empty in Hq.
  - intros name name' q q' Hq. by rewrite lookup_empty in Hq.
Qed.

Lemma New_seqs c k : seqs_le k (New c).
Proof. intros n q Hq. simpl in Hq. by rewrite lookup_empty in Hq. Qed.

(** The pending list of a queue is ordered by RunAt. *)
Lemma abs_sorted name m : StronglySorted (λ t u, RunAt t ≤ RunAt u) (a_pending (abs m name)).
Proof.
  unfold abs. destruct (queues m !! name) as [q|]; [|constructor]. simpl.
  induction (delivery_order_sorted (pending q)) as [|i l Hl IH Hall]; csimpl; constructor; [done|].
  apply Forall_fmap. eapply Forall_impl; [exact Hall|].
  intros j Hij. simpl. apply item_le_key in Hij. lia.
Qed.
