(* ===== verification/Lifecycle.v ===== *)
(** * The life of a task: the contract stated in src/workqueue/workqueue.go

    The comments on [Task], [Handler] and [WorkQueue] describe one queue as a
    machine: tasks are pending, in the hands of a handler, or dead; a claim
    counts one more attempt; an error sends the task back or, once its retries
    are spent, to the dead letters; a dead task is revived with its counter
    reset, or deleted. [life_step] is that machine, with the history of handler
    invocations as a ghost. A backend is shown correct by simulating it. *)

From stdpp Require Import base tactics list numbers option strings sets gmap.
From S2P Require Import Prelude GoRuntime Contract.

(** ** History *)

Inductive entry :=
  | Invoked (id : string) (attempt : Z)
  | Revived (id : string).

Definition entry_id (e : entry) : string :=
  match e with Invoked id _ | Revived id => id end.

(** The attempt numbers handlers saw for a task since it was enqueued or last
    revived, newest first. *)
Fixpoint attempts_of (id : string) (l : list entry) : list Z :=
  match l with
  | [] => []
  | Invoked i n :: l => if decide (i = id) then n :: attempts_of id l else attempts_of id l
  | Revived i :: l => if decide (i = id) then [] else attempts_of id l
  end.

(** [[n; n-1; ...; 1]] *)
Fixpoint countdown (n : nat) : list Z :=
  match n with O => [] | S k => Z.of_nat (S k) :: countdown k end.

(** ** State *)

Record life := mkLife {
  pend : list Task;      (** waiting to be claimed *)
  runn : list Task;      (** in the hands of a handler *)
  deadl : list Task;     (** in the dead-letter storage *)
  enq : list Task;       (** ghost: as they were enqueued *)
  fin : list Task;       (** ghost: acknowledged *)
  del : list Task;       (** ghost: deleted from the dead letters *)
  log : list entry       (** ghost: history, newest first *)
}.

Definition life_empty : life := mkLife [] [] [] [] [] [] [].

(** The fields no operation changes. *)
Definition same_identity (t u : Task) : Prop :=
  ID t = ID u ∧ Queue t = Queue u ∧ Payload t = Payload u ∧ Metadata t = Metadata u ∧
  MaxRetries t = MaxRetries u ∧ EnqueuedAt t = EnqueuedAt u.

#[export] Instance same_identity_equiv : Equivalence same_identity.
Proof.
  split; unfold same_identity.
  - done.
  - intros t u (?&?&?&?&?&?). by split_and!.
  - intros t u v (?&?&?&?&?&?) (?&?&?&?&?&?). split_and!; congruence.
Qed.

(** ** Steps *)

Inductive life_step : life → life → Prop :=
  | life_keep p p' r r' d d' e f x l :
      p ≡ₚ p' → r ≡ₚ r' → d ≡ₚ d' →
      life_step (mkLife p r d e f x l) (mkLife p' r' d' e f x l)
  | life_enqueue t p p' r r' d d' e f x l :
      Attempts t = 0 → 0 ≤ MaxRetries t < max_int64 → ID t ∉ ID <$> e →
      t :: p ≡ₚ p' → r ≡ₚ r' → d ≡ₚ d' →
      life_step (mkLife p r d e f x l) (mkLife p' r' d' (t :: e) f x l)
  | life_claim t p p' r r' d d' e f x l :
      p ≡ₚ t :: p' → incr_Attempts t :: r ≡ₚ r' → d ≡ₚ d' →
      life_step (mkLife p r d e f x l)
        (mkLife p' r' d' e f x (Invoked (ID t) (Attempts (incr_Attempts t)) :: l))
  | life_ack t p p' r r' d d' e f x l :
      p ≡ₚ p' → r ≡ₚ t :: r' → d ≡ₚ d' →
      life_step (mkLife p r d e f x l) (mkLife p' r' d' e (t :: f) x l)
  | life_retry t t' p p' r r' d d' e f x l :
      Attempts t ≤ MaxRetries t → same_identity t t' → Attempts t' = Attempts t →
      t' :: p ≡ₚ p' → r ≡ₚ t :: r' → d ≡ₚ d' →
      life_step (mkLife p r d e f x l) (mkLife p' r' d' e f x l)
  | life_bury t t' p p' r r' d d' e f x l :
      MaxRetries t < Attempts t → same_identity t t' → Attempts t' = Attempts t →
      p ≡ₚ p' → r ≡ₚ t :: r' → t' :: d ≡ₚ d' →
      life_step (mkLife p r d e f x l) (mkLife p' r' d' e f x l)
  | life_revive t t' p p' r r' d d' e f x l :
      same_identity t t' → Attempts t' = 0 →
      t' :: p ≡ₚ p' → r ≡ₚ r' → d ≡ₚ t :: d' →
      life_step (mkLife p r d e f x l) (mkLife p' r' d' e f x (Revived (ID t) :: l))
  | life_delete t p p' r r' d d' e f x l :
      p ≡ₚ p' → r ≡ₚ r' → d ≡ₚ t :: d' →
      life_step (mkLife p r d e f x l) (mkLife p' r' d' e f (t :: x) l).

(** ** Invariant *)

(** [t] descends from an enqueued task, and the handlers saw the attempts
    1, 2, ..., [Attempts t] of it, each once and in this order. *)
Definition task_ok (e : list Task) (l : list entry) (t : Task) : Prop :=
  (∃ t0, t0 ∈ e ∧ same_identity t0 t) ∧
  attempts_of (ID t) l = countdown (Z.to_nat (Attempts t)).

Definition holders (s : life) : list Task :=
  pend s ++ runn s ++ deadl s ++ fin s ++ del s.

Record life_ok (s : life) : Prop := {
  (** every enqueued task is in exactly one place *)
  life_conserved : ID <$> holders s ≡ₚ ID <$> enq s;
  life_nodup : NoDup (ID <$> enq s);
  life_budget t : t ∈ enq s → 0 ≤ MaxRetries t < max_int64;
  life_pend t : t ∈ pend s → task_ok (enq s) (log s) t ∧ 0 ≤ Attempts t ≤ MaxRetries t;
  life_runn t : t ∈ runn s → task_ok (enq s) (log s) t ∧ 1 ≤ Attempts t ≤ MaxRetries t + 1;
  life_deadl t : t ∈ deadl s → task_ok (enq s) (log s) t ∧ Attempts t = MaxRetries t + 1;
  life_log t : t ∈ enq s → ∃ k, attempts_of (ID t) (log s) = countdown k ∧
                                Z.of_nat k ≤ MaxRetries t + 1;
  life_log_dom : Forall (λ e, entry_id e ∈ ID <$> enq s) (log s)
}.

Lemma life_empty_ok : life_ok life_empty.
Proof. split; simpl; try (intros t Ht; by apply not_elem_of_nil in Ht); constructor. Qed.

Lemma attempts_of_fresh id l : (∀ e, e ∈ l → entry_id e ≠ id) → attempts_of id l = [].
Proof.
  induction l as [|[i n|i] l IH]; intros Hl; simpl; [done|..];
    pose proof (Hl _ (list_elem_of_here _ _)) as Hi; simpl in Hi; rewrite decide_False by done;
    apply IH; intros e He; apply Hl; by apply list_elem_of_further.
Qed.

Lemma countdown_S n : 0 ≤ n → countdown (Z.to_nat (n + 1)) = (n + 1) :: countdown (Z.to_nat n).
Proof.
  intros. rewrite Z.add_1_r, Z2Nat.inj_succ by done. cbn [countdown].
  f_equal. rewrite Nat2Z.inj_succ, Z2Nat.id by done. done.
Qed.

Lemma length_countdown n : length (countdown n) = n.
Proof. induction n as [|n IH]; simpl; congruence. Qed.

(** Two holders with one identifier are the same one. *)
Lemma holder_unique (s : life) t l :
  life_ok s → holders s ≡ₚ t :: l → ∀ u, u ∈ l → ID u ≠ ID t.
Proof.
  intros [Hcons Hnd _ _ _ _ _ _] Hperm u Hu Heq.
  rewrite <- Hcons, Hperm in Hnd. apply NoDup_cons in Hnd as [Hnotin _]. apply Hnotin.
  fold (fmap (M := list) ID). apply list_elem_of_fmap. by exists u.
Qed.

Lemma holder_enqueued (s : life) t :
  life_ok s → t ∈ holders s → ID t ∈ ID <$> enq s.
Proof. intros [Hcons _ _ _ _ _ _ _] Ht. rewrite <- Hcons. by apply list_elem_of_fmap_2. Qed.

Lemma task_ok_identity e l t t' :
  same_identity t t' → Attempts t' = Attempts t → task_ok e l t → task_ok e l t'.
Proof.
  intros Hid Ha [(t0 & Ht0 & Hid0) Hl]. split.
  - exists t0. split; [done|]. by etrans.
  - destruct Hid as [Hid _]. by rewrite <- Hid, Ha.
Qed.

Lemma task_ok_enqueue e l t u : task_ok e l u → task_ok (t :: e) l u.
Proof.
  intros [(t0 & Ht0 & ?) ?]. split; [|done]. exists t0. split; [by apply list_elem_of_further|done].
Qed.

(** An entry about another task is not seen. *)
Lemma attempts_of_other id en l : entry_id en ≠ id → attempts_of id (en :: l) = attempts_of id l.
Proof. destruct en; simpl; intros; by rewrite decide_False. Qed.

Lemma task_ok_other e en l t : entry_id en ≠ ID t → task_ok e l t → task_ok e (en :: l) t.
Proof. intros Hne [? ?]. split; [done|]. by rewrite attempts_of_other. Qed.

(** ** The machine keeps its invariant *)

Lemma life_ok_perm p p' r r' d d' e f x l :
  p ≡ₚ p' → r ≡ₚ r' → d ≡ₚ d' →
  life_ok (mkLife p r d e f x l) → life_ok (mkLife p' r' d' e f x l).
Proof.
  intros Hp Hr Hd [Hcons Hnd Hb Hpend Hrunn Hdead Hlog Hdom]; csimpl in *.
  unfold holders in *; csimpl in *.
  split; unfold holders; csimpl; try done.
  - by rewrite <- Hp, <- Hr, <- Hd.
  - intros t. rewrite <- Hp. auto.
  - intros t. rewrite <- Hr. auto.
  - intros t. rewrite <- Hd. auto.
Qed.

(** The identifiers do not depend on what is written into a moved task. *)
Lemma life_enqueue_ok t p r d e f x l :
  Attempts t = 0 → 0 ≤ MaxRetries t < max_int64 → ID t ∉ ID <$> e →
  life_ok (mkLife p r d e f x l) → life_ok (mkLife (t :: p) r d (t :: e) f x l).
Proof.
  intros Ha Hb Hfresh Hok. pose proof Hok as [Hcons Hnd Hbud Hpend Hrunn Hdead Hlog Hdom].
  csimpl in *.
  assert (attempts_of (ID t) l = []) as Hnil.
  { apply attempts_of_fresh. intros en Hen Heq. rewrite Forall_forall in Hdom.
    apply Hfresh. rewrite <- Heq. by apply Hdom. }
  split; csimpl.
  - unfold holders in *; csimpl in *. by rewrite Hcons.
  - by constructor.
  - intros u [->|Hu]%elem_of_cons; auto.
  - intros u [->|Hu]%elem_of_cons.
    + split; [|lia]. split; [exists t; split; [by left|done]|].
      by rewrite Hnil, Ha.
    + destruct (Hpend u Hu). split; [by apply task_ok_enqueue|done].
  - intros u Hu. destruct (Hrunn u Hu). split; [by apply task_ok_enqueue|done].
  - intros u Hu. destruct (Hdead u Hu). split; [by apply task_ok_enqueue|done].
  - intros u [->|Hu]%elem_of_cons; [exists 0%nat; split; [done|lia]|auto].
  - eapply Forall_impl; [done|]. intros en Hen. csimpl. by right.
Qed.

(** A claimed task moves to the handlers with one more attempt in the history. *)
Lemma life_claim_ok t p r d e f x l :
  life_ok (mkLife (t :: p) r d e f x l) →
  life_ok (mkLife p (incr_Attempts t :: r) d e f x
             (Invoked (ID t) (Attempts (incr_Attempts t)) :: l)).
Proof.
  intros Hok. pose proof Hok as [Hcons Hnd Hbud Hpend Hrunn Hdead Hlog Hdom]. csimpl in *.
  destruct (Hpend t (list_elem_of_here _ _)) as [[(t0 & Ht0 & Hid) Hlt] Hatt].
  pose proof (Hbud t0 Ht0) as Hb0.
  assert (MaxRetries t0 = MaxRetries t ∧ ID t0 = ID t) as [Hmr Hidt] by (split; apply Hid).
  assert (wrap64 (Attempts t + 1) = Attempts t + 1) as Hwrap
    by (apply wrap64_id; unfold in_int64; lia).
  assert (∀ u, u ∈ p ++ r ++ d ++ f ++ x → ID u ≠ ID t) as Huniq
    by (by eapply (holder_unique _ t)).
  assert (attempts_of (ID t) (Invoked (ID t) (Attempts t + 1) :: l) =
    countdown (Z.to_nat (Attempts t + 1))) as Hnew.
  { csimpl. rewrite decide_True by done. rewrite Hlt. by rewrite countdown_S by lia. }
  rewrite Hwrap. split; csimpl; try done.
  - rewrite <- Hcons. unfold holders; csimpl. rewrite !fmap_app. csimpl.
    rewrite !fmap_app. symmetry. apply Permutation_middle.
  - intros u Hu. destruct (Hpend u (list_elem_of_further _ _ _ Hu)) as [Hok1 ?].
    split; [|done]. apply task_ok_other; [|done]. csimpl. apply not_eq_sym, Huniq. rewrite !elem_of_app; tauto.
  - intros u [->|Hu]%elem_of_cons.
    + csimpl. rewrite Hwrap. split; [|lia]. split; [by exists t0|]. csimpl. rewrite Hwrap. done.
    + destruct (Hrunn u Hu) as [Hok1 ?].
      split; [|done]. apply task_ok_other; [|done]. csimpl. apply not_eq_sym, Huniq. rewrite !elem_of_app; tauto.
  - intros u Hu. destruct (Hdead u Hu) as [Hok1 ?].
    split; [|done]. apply task_ok_other; [|done]. csimpl. apply not_eq_sym, Huniq. rewrite !elem_of_app; tauto.
  - intros u Hu. destruct (decide (ID t = ID u)) as [Heq|Hne].
    + assert (u = t0) as ->.
      { apply list_elem_of_lookup in Hu as [i Hi], Ht0 as [j Hj].
        assert (i = j) as ->; [|congruence].
        eapply (NoDup_lookup _ i j (ID u) Hnd); rewrite list_lookup_fmap.
        - by rewrite Hi.
        - rewrite Hj; csimpl. congruence. }
      exists (Z.to_nat (Attempts t + 1)). rewrite <- Heq, Hlt, countdown_S by lia.
      split; [done|lia].
    + auto.
  - constructor; [|done]. csimpl. rewrite <- Hidt. by apply list_elem_of_fmap_2.
Qed.

(** A move that leaves identifiers and history alone keeps conservation. *)
Lemma life_move_ok s s' :
  life_ok s → ID <$> holders s' ≡ₚ ID <$> holders s → enq s' = enq s → log s' = log s →
  (∀ t, t ∈ pend s' → task_ok (enq s) (log s) t ∧ 0 ≤ Attempts t ≤ MaxRetries t) →
  (∀ t, t ∈ runn s' → task_ok (enq s) (log s) t ∧ 1 ≤ Attempts t ≤ MaxRetries t + 1) →
  (∀ t, t ∈ deadl s' → task_ok (enq s) (log s) t ∧ Attempts t = MaxRetries t + 1) →
  life_ok s'.
Proof.
  intros [Hcons Hnd Hbud Hpend Hrunn Hdead Hlog Hdom] Hh He Hl Hp Hr Hd.
  split; rewrite ?He, ?Hl; auto. by rewrite Hh.
Qed.

Lemma life_ack_ok t p r d e f x l :
  life_ok (mkLife p (t :: r) d e f x l) → life_ok (mkLife p r d e (t :: f) x l).
Proof.
  intros Hok. eapply life_move_ok; [exact Hok| |done|done|apply Hok| |apply Hok]; simpl.
  - apply fmap_Permutation. unfold holders; simpl. f_equiv.
    by rewrite (assoc_L (++) r d (t :: f ++ x)), <- Permutation_middle, <- (assoc_L (++)).
  - intros u Hu. apply (life_runn _ Hok). by right.
Qed.

Lemma life_retry_ok t t' p r d e f x l :
  Attempts t ≤ MaxRetries t → same_identity t t' → Attempts t' = Attempts t →
  life_ok (mkLife p (t :: r) d e f x l) → life_ok (mkLife (t' :: p) r d e f x l).
Proof.
  intros Hle Hid Ha Hok. pose proof (proj1 Hid) as HID.
  eapply life_move_ok; [exact Hok| |done|done| | |apply Hok]; simpl.
  - unfold holders; csimpl. rewrite !fmap_app; csimpl. rewrite <- HID, !fmap_app.
    apply Permutation_middle.
  - destruct (life_runn _ Hok t (list_elem_of_here _ _)) as [Hto ?].
    intros u [->|Hu]%elem_of_cons; [|by apply (life_pend _ Hok)]. split.
    + by eapply task_ok_identity.
    + destruct Hid as (_ & _ & _ & _ & Hmr & _). lia.
  - intros u Hu. apply (life_runn _ Hok). by right.
Qed.

Lemma life_bury_ok t t' p r d e f x l :
  MaxRetries t < Attempts t → same_identity t t' → Attempts t' = Attempts t →
  life_ok (mkLife p (t :: r) d e f x l) → life_ok (mkLife p r (t' :: d) e f x l).
Proof.
  intros Hlt Hid Ha Hok. pose proof (proj1 Hid) as HID.
  eapply life_move_ok; [exact Hok| |done|done|apply Hok| |]; simpl.
  - unfold holders; csimpl. rewrite !fmap_app; csimpl. rewrite !fmap_app, <- HID.
    f_equiv. symmetry. apply Permutation_middle.
  - intros u Hu. apply (life_runn _ Hok). by right.
  - destruct (life_runn _ Hok t (list_elem_of_here _ _)) as [Hto ?].
    intros u [->|Hu]%elem_of_cons; [|by apply (life_deadl _ Hok)]. split.
    + by eapply task_ok_identity.
    + destruct Hid as (_ & _ & _ & _ & Hmr & _). simpl in *. lia.
Qed.

Lemma life_delete_ok t p r d e f x l :
  life_ok (mkLife p r (t :: d) e f x l) → life_ok (mkLife p r d e f (t :: x) l).
Proof.
  intros Hok. eapply life_move_ok; [exact Hok| |done|done|apply Hok|apply Hok|]; simpl.
  - apply fmap_Permutation. unfold holders; simpl. do 2 f_equiv.
    rewrite (assoc_L (++) d f). by rewrite <- Permutation_middle, (assoc_L (++)).
  - intros u Hu. apply (life_deadl _ Hok). by right.
Qed.

(** A revived task starts a new run of attempts. *)
Lemma life_revive_ok t t' p r d e f x l :
  same_identity t t' → Attempts t' = 0 →
  life_ok (mkLife p r (t :: d) e f x l) →
  life_ok (mkLife (t' :: p) r d e f x (Revived (ID t) :: l)).
Proof.
  intros Hid Ha Hok. pose proof Hok as [Hcons Hnd Hbud Hpend Hrunn Hdead Hlog Hdom].
  csimpl in *. pose proof (proj1 Hid) as HID.
  destruct (Hdead t (list_elem_of_here _ _)) as [[(t0 & Ht0 & Hid0) Hatt] Hat].
  pose proof (Hbud t0 Ht0) as Hb0.
  assert (MaxRetries t0 = MaxRetries t' ∧ ID t0 = ID t) as [Hmr Hidt].
  { split; [|apply Hid0]. transitivity (MaxRetries t); [apply Hid0|apply Hid]. }
  assert (p ++ r ++ t :: d ++ f ++ x ≡ₚ t :: p ++ r ++ d ++ f ++ x) as Hmid.
  { by rewrite (assoc_L (++) p r (t :: _)), <- Permutation_middle, <- (assoc_L (++)). }
  assert (∀ u, u ∈ p ++ r ++ d ++ f ++ x → ID u ≠ ID t) as Huniq.
  { eapply (holder_unique _ t); [exact Hok|exact Hmid]. }
  assert (∀ u, u ∈ p ++ r ++ d ++ f ++ x → task_ok e l u →
    task_ok e (Revived (ID t) :: l) u) as Hother.
  { intros u Hu. apply task_ok_other. simpl. by apply not_eq_sym, Huniq. }
  split; csimpl; try done.
  - rewrite <- Hcons. unfold holders; csimpl. by rewrite Hmid; csimpl; rewrite HID.
  - intros u [->|Hu]%elem_of_cons.
    + split; [|lia]. split; [exists t0; split; [done|by etrans]|].
      simpl. rewrite decide_True by done. by rewrite Ha.
    + destruct (Hpend u Hu). split; [|done]. apply Hother; [rewrite !elem_of_app; tauto|done].
  - intros u Hu. destruct (Hrunn u Hu). split; [|done]. apply Hother; [rewrite !elem_of_app; tauto|done].
  - intros u Hu. destruct (Hdead u (list_elem_of_further _ _ _ Hu)). split; [|done].
    apply Hother; [rewrite !elem_of_app; tauto|done].
  - intros u Hu. destruct (decide (ID t = ID u)).
    + exists 0%nat. split; [done|]. pose proof (Hbud u Hu). lia.
    + auto.
  - constructor; [|done]. simpl. rewrite <- Hidt. by apply list_elem_of_fmap_2.
Qed.

Lemma life_step_ok s s' : life_step s s' → life_ok s → life_ok s'.
Proof.
  destruct 1; intros Hok.
  - by eapply life_ok_perm.
  - eapply life_ok_perm; [eassumption..|]. by apply life_enqueue_ok.
  - eapply life_ok_perm; [reflexivity|eassumption..|]. apply life_claim_ok.
    by eapply life_ok_perm; [eassumption|reflexivity..|].
  - eapply life_ok_perm; [eassumption|reflexivity|eassumption|]. apply life_ack_ok.
    by eapply life_ok_perm; [reflexivity|eassumption|reflexivity|].
  - eapply life_ok_perm; [eassumption|reflexivity|eassumption|].
    eapply life_retry_ok; [eassumption..|].
    by eapply life_ok_perm; [reflexivity|eassumption|reflexivity|].
  - eapply life_ok_perm; [eassumption|reflexivity|eassumption|].
    eapply life_bury_ok; [eassumption..|].
    by eapply life_ok_perm; [reflexivity|eassumption|reflexivity|].
  - eapply life_ok_perm; [eassumption|eassumption|reflexivity|].
    eapply life_revive_ok; [eassumption..|].
    by eapply life_ok_perm; [reflexivity|reflexivity|eassumption|].
  - eapply life_ok_perm; [eassumption|eassumption|reflexivity|]. apply life_delete_ok.
    by eapply life_ok_perm; [reflexivity|reflexivity|eassumption|].
Qed.
