(* ===== verification/Subscription.v ===== *)
(** * Subscriptions of the polling backends

    The [subscription] type of src/memory_workqueue/workqueue.go, which
    gorm_workqueue and postgres_workqueue carry a copy of: a stop channel that
    [Stop] closes once, and a done channel that is closed when every worker of
    the pool has returned. *)

From stdpp Require Import base tactics list numbers option gmap strings.
From S2P Require Import Prelude GoRuntime.

Record subscription := mkSub {
  stopCh : chan;
  done_ : chan;
  stopOnce : bool   (** whether [stopOnce.Do] has run *)
}.

Definition newSubscription (c : chans) : subscription * chans :=
  let '(st, c) := make_chan c in
  let '(dn, c) := make_chan c in
  (mkSub st dn false, c).

(** [s.stopOnce.Do(func() { close(s.stopCh) })] *)
Definition Stop_once (s : subscription) (c : chans) : option (subscription * chans) :=
  if stopOnce s then Some (s, c)
  else c ← close_chan (stopCh s) c; Some (mkSub (stopCh s) (done_ s) true, c).

(** The results the [select] of [Stop] can have: nil when done is closed,
    [ctx.Err()] when the context has expired; none while it blocks. *)
Inductive Stop_select (s : subscription) (c : chans) (ctxErr : option string) :
    option string → Prop :=
  | Stop_done : is_closed (done_ s) c → Stop_select s c ctxErr None
  | Stop_expired e : ctxErr = Some e → Stop_select s c ctxErr (Some e).

Definition Done (s : subscription) : chan := done_ s.

(** The goroutine of [Consume]: [wg.Wait(); close(sub.done)]. *)
Definition close_done (all_returned : bool) (s : subscription) (c : chans) : option chans :=
  if all_returned then close_chan (done_ s) c else None.

Definition sub_chans (s : subscription) : list chan := [stopCh s; done_ s].

(** ** Pools of subscriptions

    The channels of the subscriptions are made, pairwise distinct, and a stop
    channel is closed exactly when [Stop] was called. *)

Record subs_ok (c : chans) (l : list subscription) : Prop := {
  subs_made ch : ch ∈ l ≫= sub_chans → made ch c;
  subs_nodup : NoDup (l ≫= sub_chans);
  subs_once s : s ∈ l → is_closed (stopCh s) c ↔ stopOnce s = true
}.

Lemma subs_ok_mono c c' l :
  chans_le c c' → (∀ s, s ∈ l → is_closed (stopCh s) c' → is_closed (stopCh s) c) →
  subs_ok c l → subs_ok c' l.
Proof.
  intros Hle Hcl [Hm Hnd Ho]. split; [|done|].
  - intros ch Hch. eapply chans_le_made; eauto.
  - intros s Hs. rewrite <- Ho by done. split; [by apply Hcl|by apply chans_le_closed].
Qed.

Lemma elem_of_sub_chans l s ch : s ∈ l → ch ∈ sub_chans s → ch ∈ l ≫= sub_chans.
Proof. intros Hs Hch. apply list_elem_of_bind. by exists s. Qed.

Lemma newSubscription_ok c l s c' :
  chans_ok c → subs_ok c l → newSubscription c = (s, c') →
  chans_ok c' ∧ subs_ok c' (l ++ [s]) ∧ chans_le c c' ∧
  (∀ ch, is_closed ch c' ↔ is_closed ch c) ∧
  ∀ ch, ch ∈ sub_chans s → ¬ made ch c ∧ ¬ is_closed ch c.
Proof.
  intros Hc [Hm Hnd Ho] [= <- <-].
  assert (∀ ch, ¬ made ch c → ¬ is_closed ch c) as Hfresh by (intros ch Hn Hcl; by apply Hn, Hc).
  assert (∀ ch, ch ∈ [next_chan c; S (next_chan c)] → ¬ made ch c) as Hnew.
  { intros ch. rewrite !elem_of_cons, elem_of_nil. unfold made. lia. }
  split_and!.
  - intros ch Hch. specialize (Hc ch Hch). unfold made in *; simpl in *; lia.
  - split.
    + intros ch. rewrite bind_app, elem_of_app; simpl. unfold made; simpl.
      rewrite !elem_of_cons, elem_of_nil. intros [Hch|Hch]; [|lia].
      specialize (Hm _ Hch). unfold made in Hm. lia.
    + rewrite bind_app. apply NoDup_app. split_and!; [done| |].
      * intros ch Hch Hin. simpl in Hin. by apply (Hnew ch); [|apply Hm].
      * simpl. constructor; [rewrite list_elem_of_singleton; lia|].
        constructor; [apply not_elem_of_nil|constructor].
    + intros s1 [Hs| ->%list_elem_of_singleton]%elem_of_app; simpl; [by apply Ho|].
      split; [|done]. intros Hcl. exfalso. eapply (Hfresh (next_chan c)); [|done].
      apply Hnew. by left.
  - split; simpl; [lia|done].
  - done.
  - simpl. intros ch Hch. split; [by apply Hnew|by apply Hfresh, Hnew].
Qed.

(** Two places that hold one channel are the same subscription and field. *)
Lemma stopCh_inj c l i j s t :
  subs_ok c l → l !! i = Some s → l !! j = Some t → stopCh s = stopCh t → i = j.
Proof.
  intros [_ Hnd _]. revert i j; induction l as [|u l IH]; intros [|i] [|j] Hi Hj Heq;
    simplify_eq/=; try done.
  - exfalso. apply NoDup_cons in Hnd as [Hn _]. apply Hn. rewrite Heq. right.
    apply (elem_of_sub_chans l t); [by eapply list_elem_of_lookup_2|by left].
  - exfalso. apply NoDup_cons in Hnd as [Hn _]. apply Hn. rewrite <- Heq. right.
    apply (elem_of_sub_chans l s); [by eapply list_elem_of_lookup_2|by left].
  - f_equal. apply IH; auto. by apply NoDup_cons in Hnd as [_ [_ ?]%NoDup_cons].
Qed.

Lemma done_inj c l i j s t :
  subs_ok c l → l !! i = Some s → l !! j = Some t → done_ s = done_ t → i = j.
Proof.
  intros [_ Hnd _]. revert i j; induction l as [|u l IH]; intros [|i] [|j] Hi Hj Heq;
    simplify_eq/=; try done.
  - exfalso. apply NoDup_cons in Hnd as [_ [Hn _]%NoDup_cons]. apply Hn. rewrite Heq.
    apply (elem_of_sub_chans l t); [by eapply list_elem_of_lookup_2|right; by left].
  - exfalso. apply NoDup_cons in Hnd as [_ [Hn _]%NoDup_cons]. apply Hn. rewrite <- Heq.
    apply (elem_of_sub_chans l s); [by eapply list_elem_of_lookup_2|right; by left].
  - f_equal. apply IH; auto. by apply NoDup_cons in Hnd as [_ [_ ?]%NoDup_cons].
Qed.

Lemma stop_done_disjoint c l s t :
  subs_ok c l → s ∈ l → t ∈ l → stopCh s ≠ done_ t.
Proof.
  intros [_ Hnd _] Hs Ht. revert s t Hs Ht; induction l as [|u l IH]; intros s t Hs Ht Heq.
  { by apply not_elem_of_nil in Hs. }
  simpl in Hnd. apply NoDup_cons in Hnd as [Hn1 [Hn2 Hnd]%NoDup_cons].
  apply elem_of_cons in Hs as [->|Hs], Ht as [->|Ht].
  - apply Hn1. rewrite Heq. by left.
  - apply Hn1. rewrite Heq. right. apply (elem_of_sub_chans l t); [done|right; by left].
  - apply Hn2. rewrite <- Heq. apply (elem_of_sub_chans l s); [done|by left].
  - by eapply (IH Hnd s t).
Qed.

Lemma sub_chans_insert l k s st :
  l !! k = Some s → <[k:=mkSub (stopCh s) (done_ s) st]> l ≫= sub_chans = l ≫= sub_chans.
Proof.
  revert k; induction l as [|u l IH]; intros [|k] Hk; simplify_eq/=; [done|].
  by rewrite IH.
Qed.

(** [Stop] closes the subscription's stop channel, once. *)
Lemma Stop_once_ok c l k sub sub' c' :
  subs_ok c l → l !! k = Some sub → Stop_once sub c = Some (sub', c') →
  subs_ok c' (<[k:=sub']> l) ∧ chans_le c c' ∧ done_ sub' = done_ sub ∧
  <[k:=sub']> l ≫= sub_chans = l ≫= sub_chans ∧
  (∀ ch, is_closed ch c' → is_closed ch c ∨ ch = stopCh sub).
Proof.
  intros Hsub Hk Honce. unfold Stop_once in Honce. destruct (stopOnce sub) eqn:Ho.
  { injection Honce as <- <-. rewrite list_insert_id by done. by split_and!; auto. }
  apply bind_Some in Honce as (c1 & Hclose & [= <- <-]).
  split_and!; [|by eapply close_chan_le|done|by apply sub_chans_insert|].
  - split.
    + intros ch. rewrite sub_chans_insert by done. intros Hc.
      eapply chans_le_made; [by eapply close_chan_le|]. by eapply subs_made.
    + rewrite sub_chans_insert by done. apply Hsub.
    + intros t Ht. apply list_elem_of_lookup in Ht as [j Hj].
      rewrite (close_chan_is_closed _ _ _ _ Hclose).
      apply list_lookup_insert_Some in Hj as [(<- & <- & _)|[Hne Hj]]; simpl.
      * split; [done|by left].
      * rewrite <- (subs_once _ _ Hsub) by (by eapply list_elem_of_lookup_2).
        split; [intros [Heq|?]; [|done]|by right].
        destruct Hne. by eapply stopCh_inj.
  - intros ch Hch. apply (close_chan_is_closed _ _ _ _ Hclose) in Hch as [->|Hch]; auto.
Qed.

Lemma Stop_once_total c l k sub :
  subs_ok c l → l !! k = Some sub → is_Some (Stop_once sub c).
Proof.
  intros Hsub Hk. unfold Stop_once. destruct (stopOnce sub) eqn:Ho; [eauto|].
  assert (sub ∈ l) as Hin by (by eapply list_elem_of_lookup_2).
  destruct (close_chan_open (stopCh sub) c) as [c' ->]; [|eauto].
  split.
  - eapply subs_made; [done|]. eapply elem_of_sub_chans; [done|by left].
  - rewrite (subs_once _ _ Hsub sub Hin). by rewrite Ho.
Qed.

Lemma close_done_ok c l sub c' :
  subs_ok c l → sub ∈ l → close_chan (done_ sub) c = Some c' → subs_ok c' l.
Proof.
  intros Hsub Hin Hclose. eapply subs_ok_mono; [by eapply close_chan_le| |done].
  intros t Ht. rewrite (close_chan_is_closed _ _ _ _ Hclose). intros [Heq|?]; [|done].
  by destruct (stop_done_disjoint _ _ t sub Hsub Ht Hin).
Qed.
