(* ===== verification/MemorySystem.v ===== *)
(** * The in-memory backend at work: worker pools, clients and the clock

    [Consume] starts workers; each runs the loop of [worker] in
    src/memory_workqueue/workqueue.go, whose steps between two uses of the
    mutex or of a channel are atomic here. Clients call the other operations
    between them, subscriptions are stopped, time passes, and the scheduler
    picks the order: an execution is a list of events.

    A ghost per queue records what was enqueued, acknowledged and deleted and
    every handler invocation, so that each queue projects to the machine of
    [Lifecycle]. *)

From stdpp Require Import base tactics list numbers option gmap strings.
From S2P Require Import Prelude GoRuntime GoHeap Contract Options Memory MemorySpec Lifecycle Subscription.

(** ** Workers *)

(** Where a worker is in its loop. *)
Inductive wpc :=
  | AtTop                                   (** before [select { case <-stopCh: ... default: }] *)
  | AtClaim                                 (** before [m.claim(queue)] *)
  | Handling (t : Task)                     (** in the handler with a clone of [t] *)
  | Arming (since : time) (wait : duration) (ch : chan)
                                            (** [claim] found nothing at [since]; before NewTimer *)
  | Waiting (since : time) (wait : duration) (armed : time) (ch : chan)
                                            (** blocked in the second [select], timer started at [armed] *)
  | Exited.

Record worker := mkWorker {
  w_queue : string;
  w_sub : nat;               (** index of its subscription *)
  w_opts : ConsumeOptions;
  w_pc : wpc
}.

Definition set_pc (pc : wpc) (w : worker) : worker :=
  mkWorker (w_queue w) (w_sub w) (w_opts w) pc.

Record ghost := mkGhost {
  g_enq : list Task; g_fin : list Task; g_del : list Task; g_log : list entry
}.

Definition ghost_empty : ghost := mkGhost [] [] [] [].

Record sys := mkSys {
  s_mem : MemoryWorkQueue;
  s_now : time;
  s_subs : list subscription;
  s_workers : list worker;
  s_ghost : string → ghost;
  s_steps : Z                (** ghost: number of events so far *)
}.

Definition sys_init : sys := mkSys (New no_chans) zeroTime [] [] (λ _, ghost_empty) 0.

(** ** Events *)

Inductive event :=
  | Tick (d : duration)                             (** time passes *)
  | Call (name : string) (p : op)                   (** a client call *)
  | Subscribe (name : string) (opts : list ConsumeOption)  (** Consume *)
  | Stop (k : nat)                                  (** Stop of subscription [k] *)
  | CloseDone (k : nat)                             (** its goroutine closes done *)
  | Run (i : nat)                                   (** worker [i] goes on *)
  | Finish (i : nat) (h : Handler)                  (** its handler [h] returns *)
  | Woken (i : nat)                                 (** [case <-notify:] *)
  | TimedOut (i : nat)                              (** [case <-timer.C:] *)
  | Stopped (i : nat).                              (** [case <-stopCh:] while waiting *)

(** ** Steps *)

Definition upd_ghost (name : string) (f : ghost → ghost) (g : string → ghost) : string → ghost :=
  λ n, if decide (n = name) then f (g n) else g n.

Definition set_mem (m : MemoryWorkQueue) (s : sys) : sys :=
  mkSys m (s_now s) (s_subs s) (s_workers s) (s_ghost s) (s_steps s).

Definition set_worker (i : nat) (w : worker) (s : sys) : sys :=
  mkSys (s_mem s) (s_now s) (s_subs s) (<[i:=w]> (s_workers s)) (s_ghost s) (s_steps s).

Definition set_ghost (g : string → ghost) (s : sys) : sys :=
  mkSys (s_mem s) (s_now s) (s_subs s) (s_workers s) g (s_steps s).

Definition set_subs (l : list subscription) (s : sys) : sys :=
  mkSys (s_mem s) (s_now s) l (s_workers s) (s_ghost s) (s_steps s).

Definition set_chans (c : chans) (m : MemoryWorkQueue) : MemoryWorkQueue :=
  mkMemory (queues m) c.

Definition g_invoke (id : string) (n : Z) (g : ghost) : ghost :=
  mkGhost (g_enq g) (g_fin g) (g_del g) (Invoked id n :: g_log g).

Definition g_finish (t : Task) (g : ghost) : ghost :=
  mkGhost (g_enq g) (t :: g_fin g) (g_del g) (g_log g).

(** The clients' calls are made at the current time. [uuid.NewString()] gives
    an identifier the queue has not seen, and the retry budget is not the
    largest int. *)
Definition call_ok (s : sys) (name : string) (p : op) : Prop :=
  match p with
  | OpEnqueue now uuid _ opts =>
      now = s_now s ∧ (uuid ∉ (ID <$> g_enq (s_ghost s name))) ∧
      eo_MaxRetries (NewEnqueueOptions opts) < max_int64
  | OpRequeue now _ => now = s_now s
  | OpDelete _ => True
  | OpList limit offset => in_int64 limit ∧ Z.max 0 offset + limit ≤ max_int64
  | OpClaim _ | OpComplete _ _ _ _ => False
  end.

#[export] Instance call_ok_dec s name p : Decision (call_ok s name p).
Proof. destruct p; simpl; apply _. Defined.

(** What a call adds to the history. *)
Definition g_call (a : AQueue) (p : op) (r : resp) (g : ghost) : ghost :=
  match p, r with
  | OpEnqueue _ _ _ _, RTask t => mkGhost (t :: g_enq g) (g_fin g) (g_del g) (g_log g)
  | OpRequeue _ id, RErr None => mkGhost (g_enq g) (g_fin g) (g_del g) (Revived id :: g_log g)
  | OpDelete id, RErr None =>
      match find_dead id (a_dead a) with
      | Some (_, t) => mkGhost (g_enq g) (g_fin g) (t :: g_del g) (g_log g)
      | None => g
      end
  | _, _ => g
  end.

(** A worker going on: the code up to its next blocking point. *)
Definition run_worker (i : nat) (w : worker) (s : sys) : option sys :=
  match w_pc w with
  | AtTop =>
      sub ← s_subs s !! w_sub w;
      if decide (is_closed (stopCh sub) (mem_chans (s_mem s)))
      then Some (set_worker i (set_pc Exited w) s)
      else Some (set_worker i (set_pc AtClaim w) s)
  | AtClaim =>
      '(t, wait, notify, m) ← claim (s_now s) (w_queue w) (s_mem s);
      match t, notify with
      | Some t, _ =>
          Some (set_ghost (upd_ghost (w_queue w) (g_invoke (ID t) (Attempts t)) (s_ghost s))
                  (set_worker i (set_pc (Handling t) w) (set_mem m s)))
      | None, Some ch =>
          Some (set_worker i (set_pc (Arming (s_now s) wait ch) w) (set_mem m s))
      | None, None => None
      end
  | Arming since wait ch =>
      Some (set_worker i (set_pc (Waiting since wait (s_now s) ch) w) s)
  | _ => None
  end.

(** The handler returns: [err := invokeHandler(handler, cloneTask(task))] and
    [m.complete(queue, task, err, o)]. *)
Definition finish_worker (i : nat) (w : worker) (h : Handler) (s : sys) : option sys :=
  match w_pc w with
  | Handling t =>
      let err := (invokeHandler h (cloneTask t)).2 in
      m ← complete (s_now s) (w_queue w) t err (w_opts w) (s_mem s);
      let s := set_worker i (set_pc AtTop w) (set_mem m s) in
      Some (match err with
            | None => set_ghost (upd_ghost (w_queue w) (g_finish t) (s_ghost s)) s
            | Some _ => s
            end)
  | _ => None
  end.

(** The workers [Consume] starts. *)
Definition new_workers (name : string) (k : nat) (o : ConsumeOptions) : list worker :=
  replicate (Z.to_nat (Concurrency o)) (mkWorker name k o AtTop).

Definition subscribe (name : string) (opts : list ConsumeOption) (s : sys) : sys :=
  let o := NewConsumeOptions opts in
  let '(sub, c) := newSubscription (mem_chans (s_mem s)) in
  mkSys (set_chans c (s_mem s)) (s_now s) (s_subs s ++ [sub])
    (s_workers s ++ new_workers name (length (s_subs s)) o) (s_ghost s) (s_steps s).

Definition opts_ok (o : ConsumeOptions) : Prop :=
  in_int64 (BackoffBase o) ∧ in_int64 (BackoffMax o).

#[export] Instance opts_ok_dec o : Decision (opts_ok o).
Proof. unfold opts_ok. apply _. Defined.

Definition all_exited (k : nat) (l : list worker) : Prop :=
  Forall (λ w, w_sub w = k → w_pc w = Exited) l.

Definition is_exited (pc : wpc) : bool := match pc with Exited => true | _ => false end.

Definition all_exitedb (k : nat) (l : list worker) : bool :=
  forallb (λ w, negb (bool_decide (w_sub w = k)) || is_exited (w_pc w)) l.

(** A step other than the passing of the step count. *)
Definition step_core (e : event) (s : sys) : option sys :=
  match e with
  | Tick d =>
      if decide (0 ≤ d)
      then Some (mkSys (s_mem s) (s_now s + d) (s_subs s) (s_workers s) (s_ghost s) (s_steps s))
      else None
  | Call name p =>
      if decide (call_ok s name p) then
        '(r, m) ← mem_exec name p (s_mem s);
        Some (set_ghost (upd_ghost name (g_call (abs (s_mem s) name) p r) (s_ghost s))
                (set_mem m s))
      else None
  | Subscribe name opts =>
      if decide (opts_ok (NewConsumeOptions opts)) then Some (subscribe name opts s) else None
  | Stop k =>
      sub ← s_subs s !! k;
      '(sub, c) ← Stop_once sub (mem_chans (s_mem s));
      Some (set_subs (<[k:=sub]> (s_subs s)) (set_mem (set_chans c (s_mem s)) s))
  | CloseDone k =>
      sub ← s_subs s !! k;
      c ← close_done (all_exitedb k (s_workers s)) sub (mem_chans (s_mem s));
      Some (set_mem (set_chans c (s_mem s)) s)
  | Run i => w ← s_workers s !! i; run_worker i w s
  | Finish i h => w ← s_workers s !! i; finish_worker i w h s
  | Woken i =>
      w ← s_workers s !! i;
      match w_pc w with
      | Waiting _ _ _ ch =>
          if decide (is_closed ch (mem_chans (s_mem s)))
          then Some (set_worker i (set_pc AtTop w) s) else None
      | _ => None
      end
  | TimedOut i =>
      w ← s_workers s !! i;
      match w_pc w with
      | Waiting _ wait armed _ =>
          if decide (timer_deadline armed wait ≤ s_now s)
          then Some (set_worker i (set_pc AtTop w) s) else None
      | _ => None
      end
  | Stopped i =>
      w ← s_workers s !! i;
      sub ← s_subs s !! w_sub w;
      match w_pc w with
      | Waiting _ _ _ _ =>
          if decide (is_closed (stopCh sub) (mem_chans (s_mem s)))
          then Some (set_worker i (set_pc Exited w) s) else None
      | _ => None
      end
  end.

Definition count_step (s : sys) : sys :=
  mkSys (s_mem s) (s_now s) (s_subs s) (s_workers s) (s_ghost s) (s_steps s + 1).

(** One event; executions are shorter than 2^63 - 1 events. *)
Definition step (e : event) (s : sys) : option sys :=
  if decide (s_steps s < max_int64) then
    s' ← step_core e s;
    Some (count_step s')
  else None.

(** ** The invariant of the memory and its channels *)

Record sys_ok (s : sys) : Prop := {
  sk_mem : memory_ok (s_mem s);
  sk_steps : 0 ≤ s_steps s;
  sk_seqs : seqs_le (s_steps s) (s_mem s);
  sk_subs : subs_ok (mem_chans (s_mem s)) (s_subs s);
  sk_notify n q ch : queues (s_mem s) !! n = Some q → ch ∈ s_subs s ≫= sub_chans → notify q ≠ ch;
  sk_opts w : w ∈ s_workers s → opts_ok (w_opts w);
  sk_wsub w : w ∈ s_workers s → (w_sub w < length (s_subs s))%nat
}.

Lemma step_Some e s s' :
  step e s = Some s' → s_steps s < max_int64 ∧
    ∃ s1, step_core e s = Some s1 ∧ s' = count_step s1.
Proof.
  unfold step. case_decide; [|discriminate].
  intros (s1 & Hcore & [= <-])%bind_Some. split; [done|]. by exists s1.
Qed.

Lemma step_core_step e s : s_steps s < max_int64 → is_Some (step_core e s) → is_Some (step e s).
Proof. intros Hlt [s1 Hs1]. unfold step. rewrite decide_True by done. rewrite Hs1. simpl; eauto. Qed.

Lemma sys_init_ok : sys_ok sys_init.
Proof.
  split; simpl.
  - apply New_ok. intros ch Hch. unfold is_closed in Hch. simpl in Hch. set_solver.
  - lia.
  - intros n q Hq. simpl in Hq. by rewrite lookup_empty in Hq.
  - split; simpl; [|constructor|]; intros ? Hin; by apply not_elem_of_nil in Hin.
  - intros n q ch _ Hch. by apply not_elem_of_nil in Hch.
  - intros w Hw. by apply not_elem_of_nil in Hw.
  - intros w Hw. by apply not_elem_of_nil in Hw.
Qed.

(** A call of [mem_exec] that succeeds is a refining step. *)
Lemma mem_exec_Some name p m r m' :
  memory_ok m → has_room name m → op_ok p → mem_exec name p m = Some (r, m') →
  memory_ok m' ∧ (r, abs m' name) = spec_exec name p (abs m name) ∧
  (∀ n, n ≠ name → abs m' n = abs m n) ∧
  (∀ k, 0 ≤ k → seqs_le k m → seqs_le (k + 1) m') ∧ evolves name m m'.
Proof.
  intros Hm Hroom Hop He.
  destruct (mem_exec_refines name p m Hm Hroom Hop) as (r1 & m1 & He1 & Hrest).
  rewrite He1 in He. injection He as <- <-. exact Hrest.
Qed.

Lemma sys_room s name : sys_ok s → s_steps s < max_int64 → has_room name (s_mem s).
Proof. intros Hs Hlt q Hq. pose proof (sk_seqs s Hs _ _ Hq). lia. Qed.

(** A step of one queue, whatever it does to the program counters. *)
Lemma sys_ok_evolves name m' ws' now' g' s :
  sys_ok s → memory_ok m' → evolves name (s_mem s) m' → seqs_le (s_steps s + 1) m' →
  (∀ w', w' ∈ ws' → ∃ w, w ∈ s_workers s ∧ w_opts w' = w_opts w ∧ w_sub w' = w_sub w) →
  sys_ok (mkSys m' now' (s_subs s) ws' g' (s_steps s + 1)).
Proof.
  intros [Hmem Hst Hseq Hsub Hnot Hop Hws] Hm' Hev Hseq' Hw. split; simpl.
  - done.
  - lia.
  - done.
  - eapply subs_ok_mono; [apply Hev| |done]. intros sub Hin Hcl.
    assert (stopCh sub ∈ s_subs s ≫= sub_chans) as Hch
      by (eapply elem_of_sub_chans; [done|by left]).
    destruct (ev_closed _ _ _ Hev _ Hcl) as [?|[Hm|(q & Hq & Heq)]]; [done| |].
    + destruct Hm. by eapply subs_made.
    + by destruct (Hnot _ _ _ Hq Hch).
  - intros n q ch Hq Hch. destruct (decide (n = name)) as [->|Hne].
    + destruct (ev_notify _ _ _ Hev _ Hq) as [(q0 & Hq0 & -> & _)|[Hm _]]; [by eapply Hnot|].
      intros <-. apply Hm. by eapply subs_made.
    + rewrite (ev_others _ _ _ Hev) in Hq by done. by eapply Hnot.
  - intros w' (w & Hin & -> & _)%Hw. auto.
  - intros w' (w & Hin & _ & ->)%Hw. auto.
Qed.

Lemma workers_keep (ws : list worker) i w pc :
  ws !! i = Some w → ∀ w', w' ∈ <[i:=set_pc pc w]> ws →
  ∃ w, w ∈ ws ∧ w_opts w' = w_opts w ∧ w_sub w' = w_sub w.
Proof.
  intros Hi w' [->|Hin]%elem_of_insert_inv; [|by exists w'].
  exists w. split_and!; [by eapply list_elem_of_lookup_2|done|done].
Qed.

(** Channels that are made or closed beside the queues. *)
Lemma memory_ok_chans c m :
  memory_ok m → chans_ok c → chans_le (mem_chans m) c →
  (∀ n q, queues m !! n = Some q → ¬ is_closed (notify q) c) →
  memory_ok (set_chans c m).
Proof.
  intros [Hc Hqs Hd] Hok Hle Hopen. split; simpl; [done| |done].
  intros n q Hq. destruct (Hqs n q Hq) as [? ? ? ? [Hm _]]. constructor; auto.
  split; [by eapply chans_le_made|by eapply Hopen].
Qed.

Lemma close_other_ok ch c s :
  sys_ok s → ch ∈ s_subs s ≫= sub_chans → close_chan ch (mem_chans (s_mem s)) = Some c →
  memory_ok (set_chans c (s_mem s)).
Proof.
  intros Hs Hch Hclose. pose proof (sk_mem s Hs) as Hm. apply memory_ok_chans.
  - done.
  - eapply close_chan_ok; [apply Hm| |exact Hclose]. by eapply subs_made; [apply Hs|].
  - by eapply close_chan_le.
  - intros n q Hq. rewrite (close_chan_is_closed _ _ _ _ Hclose). intros [Heq|Hcl].
    + by eapply (sk_notify s Hs).
    + by apply (ok_notify _ _ (ok_queues _ Hm _ _ Hq)).
Qed.

Lemma sys_ok_stop k sub sub' c s :
  sys_ok s → s_subs s !! k = Some sub →
  Stop_once sub (mem_chans (s_mem s)) = Some (sub', c) →
  sys_ok (count_step (set_subs (<[k:=sub']> (s_subs s)) (set_mem (set_chans c (s_mem s)) s))).
Proof.
  intros Hs Hk Honce. pose proof Hs as [Hmem Hst Hseq Hsub Hnot Hop Hws].
  assert (sub ∈ s_subs s) as Hin by (by eapply list_elem_of_lookup_2).
  unfold Stop_once in Honce. destruct (stopOnce sub) eqn:Ho.
  { injection Honce as <- <-. rewrite list_insert_id by done.
    destruct s as [[qs cs] ? ? ? ? ?]; split; simpl in *; auto; [lia|].
    intros n q Hq. specialize (Hseq n q Hq). lia. }
  inv_opt. rename H into Hclose.
  assert (stopCh sub ∈ s_subs s ≫= sub_chans) as Hch
    by (eapply elem_of_sub_chans; [done|by left]).
  destruct (Stop_once_ok (mem_chans (s_mem s)) (s_subs s) k sub (mkSub (stopCh sub) (done_ sub) true) c Hsub Hk)
    as (Hsub' & _); [by unfold Stop_once; rewrite Ho, Hclose|].
  split; simpl; auto.
  - by eapply close_other_ok.
  - lia.
  - intros n q Hq. specialize (Hseq n q Hq). lia.
  - intros n q ch Hq. rewrite sub_chans_insert by done. by apply (Hnot n q ch).
  - intros w Hw. rewrite length_insert. auto.
Qed.

Lemma sys_ok_close_done k sub c s :
  sys_ok s → s_subs s !! k = Some sub →
  close_chan (done_ sub) (mem_chans (s_mem s)) = Some c →
  sys_ok (count_step (set_mem (set_chans c (s_mem s)) s)).
Proof.
  intros Hs Hk Hclose. pose proof Hs as [Hmem Hst Hseq Hsub Hnot Hop Hws].
  assert (sub ∈ s_subs s) as Hin by (by eapply list_elem_of_lookup_2).
  assert (done_ sub ∈ s_subs s ≫= sub_chans) as Hch
    by (eapply elem_of_sub_chans; [done|right; by left]).
  split; simpl; auto.
  - by eapply close_other_ok.
  - lia.
  - intros n q Hq. specialize (Hseq n q Hq). lia.
  - by eapply close_done_ok.
Qed.

Lemma sys_ok_subscribe name opts s :
  sys_ok s → opts_ok (NewConsumeOptions opts) → sys_ok (count_step (subscribe name opts s)).
Proof.
  intros Hs Hopts. pose proof Hs as [Hmem Hst Hseq Hsub Hnot Hop Hws].
  unfold subscribe. destruct (newSubscription _) as [sub c] eqn:Hnew.
  destruct (newSubscription_ok _ _ _ _ (ok_chans _ Hmem) Hsub Hnew)
    as (Hc & Hsub' & Hle & Hcl & Hfresh).
  split; simpl; auto.
  - apply memory_ok_chans; auto. intros n q Hq. rewrite Hcl.
    by apply (ok_notify _ _ (ok_queues _ Hmem _ _ Hq)).
  - lia.
  - intros n q Hq. specialize (Hseq n q Hq). lia.
  - intros n q ch Hq. rewrite bind_app, elem_of_app. intros [Hch|Hch]; [by apply (Hnot n q ch)|].
    intros <-. simpl in Hch. destruct (Hfresh (notify q) Hch) as [Hm _]. apply Hm.
    apply (ok_notify _ _ (ok_queues _ Hmem _ _ Hq)).
  - intros w [Hw|Hw]%elem_of_app; [auto|]. apply elem_of_replicate in Hw as [-> _]. done.
  - intros w. rewrite length_app; simpl. intros [Hw|Hw]%elem_of_app.
    + specialize (Hws w Hw). lia.
    + apply elem_of_replicate in Hw as [-> _]. simpl. lia.
Qed.

(** ** Every step keeps the invariant *)

Lemma workers_refl (ws : list worker) w' :
  w' ∈ ws → ∃ w, w ∈ ws ∧ w_opts w' = w_opts w ∧ w_sub w' = w_sub w.
Proof. intros. by exists w'. Qed.

Lemma seqs_le_step s : sys_ok s → seqs_le (s_steps s + 1) (s_mem s).
Proof. intros Hs. eapply seqs_le_mono; [apply Hs|lia]. Qed.

(** A step that leaves the memory alone. *)
Lemma sys_ok_quiet ws' now' g' s :
  sys_ok s →
  (∀ w', w' ∈ ws' → ∃ w, w ∈ s_workers s ∧ w_opts w' = w_opts w ∧ w_sub w' = w_sub w) →
  sys_ok (mkSys (s_mem s) now' (s_subs s) ws' g' (s_steps s + 1)).
Proof.
  intros Hs Hw. eapply (sys_ok_evolves "" (s_mem s)); [done|apply Hs|done|by apply seqs_le_step|done].
Qed.

(** A step that runs one operation of the backend. *)
Lemma sys_ok_exec name p r m' ws' g' s :
  sys_ok s → s_steps s < max_int64 → op_ok p → mem_exec name p (s_mem s) = Some (r, m') →
  (∀ w', w' ∈ ws' → ∃ w, w ∈ s_workers s ∧ w_opts w' = w_opts w ∧ w_sub w' = w_sub w) →
  sys_ok (mkSys m' (s_now s) (s_subs s) ws' g' (s_steps s + 1)).
Proof.
  intros Hs Hlt Hop He Hw.
  destruct (mem_exec_Some name p (s_mem s) r m') as (Hm' & _ & _ & Hseq & Hev);
    [apply Hs|by apply sys_room|done|done|].
  eapply sys_ok_evolves; eauto. apply Hseq; apply Hs.
Qed.

Lemma claim_exec now name m t wait ch m' :
  claim now name m = Some ((t, wait, ch), m') →
  mem_exec name (OpClaim now) m = Some (RClaim t wait, m').
Proof. intros Hc. simpl. by rewrite Hc. Qed.

(** An empty-handed claim comes with the channel to sleep on. *)
Lemma claim_None_chan now name m wait ch m' :
  claim now name m = Some ((None, wait, ch), m') → is_Some ch.
Proof.
  unfold claim. destruct (queue _ _) as [q m1]. destruct (pending q !! 0%nat).
  - case_match; [intros [= _ <- _]; eauto|]. intros ([? ?] & _ & [=])%bind_Some.
  - intros [= _ <- _]; eauto.
Qed.

Lemma complete_exec now name t err o m m' :
  complete now name t err o m = Some m' →
  mem_exec name (OpComplete now t err o) m = Some (RUnit, m').
Proof. intros Hc. simpl. by rewrite Hc. Qed.

Lemma call_op_ok s name p : call_ok s name p → op_ok p.
Proof. by destruct p. Qed.

(** What a step does, as the operation it runs on the memory, if any, and the
    program counter it moves. *)
Inductive step_shape (s : sys) : event → sys → Prop :=
  | Shape_tick d : 0 ≤ d → step_shape s (Tick d)
      (mkSys (s_mem s) (s_now s + d) (s_subs s) (s_workers s) (s_ghost s) (s_steps s))
  | Shape_call name p r m : call_ok s name p → mem_exec name p (s_mem s) = Some (r, m) →
      step_shape s (Call name p)
        (set_ghost (upd_ghost name (g_call (abs (s_mem s) name) p r) (s_ghost s)) (set_mem m s))
  | Shape_subscribe name opts : opts_ok (NewConsumeOptions opts) →
      step_shape s (Subscribe name opts) (subscribe name opts s)
  | Shape_stop k sub sub' c : s_subs s !! k = Some sub →
      Stop_once sub (mem_chans (s_mem s)) = Some (sub', c) →
      step_shape s (Stop k)
        (set_subs (<[k:=sub']> (s_subs s)) (set_mem (set_chans c (s_mem s)) s))
  | Shape_close_done k sub c : s_subs s !! k = Some sub →
      all_exitedb k (s_workers s) = true →
      close_chan (done_ sub) (mem_chans (s_mem s)) = Some c →
      step_shape s (CloseDone k) (set_mem (set_chans c (s_mem s)) s)
  | Shape_claim i w t wait ch m : s_workers s !! i = Some w → w_pc w = AtClaim →
      claim (s_now s) (w_queue w) (s_mem s) = Some ((Some t, wait, ch), m) →
      step_shape s (Run i)
        (set_ghost (upd_ghost (w_queue w) (g_invoke (ID t) (Attempts t)) (s_ghost s))
           (set_worker i (set_pc (Handling t) w) (set_mem m s)))
  | Shape_idle i w wait ch m : s_workers s !! i = Some w → w_pc w = AtClaim →
      claim (s_now s) (w_queue w) (s_mem s) = Some ((None, wait, Some ch), m) →
      step_shape s (Run i)
        (set_worker i (set_pc (Arming (s_now s) wait ch) w) (set_mem m s))
  | Shape_ack i w h t m : s_workers s !! i = Some w → w_pc w = Handling t →
      (invokeHandler h (cloneTask t)).2 = None →
      complete (s_now s) (w_queue w) t None (w_opts w) (s_mem s) = Some m →
      step_shape s (Finish i h)
        (set_ghost (upd_ghost (w_queue w) (g_finish t) (s_ghost s))
           (set_worker i (set_pc AtTop w) (set_mem m s)))
  | Shape_fail i w h t err m : s_workers s !! i = Some w → w_pc w = Handling t →
      (invokeHandler h (cloneTask t)).2 = Some err →
      complete (s_now s) (w_queue w) t (Some err) (w_opts w) (s_mem s) = Some m →
      step_shape s (Finish i h) (set_worker i (set_pc AtTop w) (set_mem m s))
  | Shape_move i w pc e : s_workers s !! i = Some w →
      (∀ t, w_pc w ≠ Handling t) → (∀ t, pc ≠ Handling t) → pc_moves s w pc →
      step_shape s e (set_worker i (set_pc pc w) s)
with pc_moves (s : sys) : worker → wpc → Prop :=
  | Moves_exit w pc sub : s_subs s !! w_sub w = Some sub →
      is_closed (stopCh sub) (mem_chans (s_mem s)) → w_pc w ≠ Exited → pc = Exited →
      pc_moves s w pc
  | Moves_on w sub : s_subs s !! w_sub w = Some sub → w_pc w = AtTop →
      ¬ is_closed (stopCh sub) (mem_chans (s_mem s)) → pc_moves s w AtClaim
  | Moves_arm w since wait ch : w_pc w = Arming since wait ch →
      pc_moves s w (Waiting since wait (s_now s) ch)
  | Moves_back w since wait armed ch : w_pc w = Waiting since wait armed ch →
      is_closed ch (mem_chans (s_mem s)) ∨ timer_deadline armed wait ≤ s_now s →
      pc_moves s w AtTop.

Lemma run_worker_shape i w s s1 :
  s_workers s !! i = Some w → run_worker i w s = Some s1 → step_shape s (Run i) s1.
Proof.
  intros Hi Hrun. unfold run_worker in Hrun. destruct (w_pc w) eqn:Hpc; try discriminate.
  - apply bind_Some in Hrun as (sub & Hsub & Hrun). case_decide; simplify_eq.
    + apply (Shape_move s i w); try congruence. by eapply Moves_exit; [..|congruence|].
    + apply (Shape_move s i w); try congruence. by eapply Moves_on.
  - apply bind_Some in Hrun as ([[[t wait] notify] m] & Hc & Hrun).
    destruct t as [t|], notify as [ch|]; simplify_eq.
    + by eapply Shape_claim.
    + by eapply Shape_claim.
    + by eapply Shape_idle.
  - simplify_eq. apply (Shape_move s i w); try congruence. by apply Moves_arm.
Qed.

Lemma finish_worker_shape i w h s s1 :
  s_workers s !! i = Some w → finish_worker i w h s = Some s1 → step_shape s (Finish i h) s1.
Proof.
  intros Hi Hfin. unfold finish_worker in Hfin. destruct (w_pc w) eqn:Hpc; try discriminate.
  apply bind_Some in Hfin as (m & Hc & [= <-]).
  destruct (invokeHandler h (cloneTask t)).2 as [err|] eqn:Herr.
  - by eapply Shape_fail.
  - by eapply Shape_ack.
Qed.

Lemma step_core_shape e s s1 : step_core e s = Some s1 → step_shape s e s1.
Proof.
  destruct e; simpl; intros Hs.
  - case_decide; simplify_eq. by constructor.
  - case_decide; [|discriminate]. apply bind_Some in Hs as ([r m] & He & [= <-]).
    by constructor.
  - case_decide; simplify_eq. by constructor.
  - apply bind_Some in Hs as (sub & Hk & Hs).
    apply bind_Some in Hs as ([sub' c] & Ho & [= <-]). by econstructor.
  - apply bind_Some in Hs as (sub & Hk & Hs).
    apply bind_Some in Hs as (c & Ho & [= <-]). unfold close_done in Ho.
    destruct (all_exitedb _ _) eqn:Hall; [|discriminate]. by econstructor.
  - apply bind_Some in Hs as (w & Hi & Hs). by eapply run_worker_shape.
  - apply bind_Some in Hs as (w & Hi & Hs). by eapply finish_worker_shape.
  - apply bind_Some in Hs as (w & Hi & Hs). destruct (w_pc w) eqn:Hpc; try discriminate.
    case_decide; simplify_eq. apply (Shape_move s i w); try congruence.
    eapply Moves_back; [done|by left].
  - apply bind_Some in Hs as (w & Hi & Hs). destruct (w_pc w) eqn:Hpc; try discriminate.
    case_decide; simplify_eq. apply (Shape_move s i w); try congruence.
    eapply Moves_back; [done|by right].
  - apply bind_Some in Hs as (w & Hi & Hs). apply bind_Some in Hs as (sub & Hk & Hs).
    destruct (w_pc w) eqn:Hpc; try discriminate.
    case_decide; simplify_eq. apply (Shape_move s i w); try congruence.
    by eapply Moves_exit; [..|congruence|].
Qed.

Lemma sys_ok_shape e s s1 :
  sys_ok s → s_steps s < max_int64 → step_shape s e s1 → sys_ok (count_step s1).
Proof.
  intros Hs Hlt. destruct 1; unfold count_step; simpl.
  - apply sys_ok_quiet; auto using workers_refl.
  - eapply sys_ok_exec; eauto using workers_refl, call_op_ok.
  - by apply sys_ok_subscribe.
  - by eapply sys_ok_stop.
  - by eapply sys_ok_close_done.
  - eapply sys_ok_exec; eauto using claim_exec, workers_keep. done.
  - eapply sys_ok_exec; eauto using claim_exec, workers_keep. done.
  - eapply sys_ok_exec; eauto using complete_exec, workers_keep.
    apply (sk_opts s Hs w). by eapply list_elem_of_lookup_2.
  - eapply sys_ok_exec; eauto using complete_exec, workers_keep.
    apply (sk_opts s Hs w). by eapply list_elem_of_lookup_2.
  - apply sys_ok_quiet; eauto using workers_keep.
Qed.

Lemma sys_ok_step e s s' : sys_ok s → step e s = Some s' → sys_ok s'.
Proof.
  intros Hs (Hlt & s1 & Hcore & ->)%step_Some.
  eapply sys_ok_shape; eauto using step_core_shape.
Qed.

(** ** Every queue lives the life of [Lifecycle] *)

Definition handled (name : string) (w : worker) : list Task :=
  match w_pc w with
  | Handling t => if decide (w_queue w = name) then [t] else []
  | _ => []
  end.

Definition handling (name : string) (ws : list worker) : list Task := ws ≫= handled name.

Definition life_of (name : string) (s : sys) : life :=
  let a := abs (s_mem s) name in
  let g := s_ghost s name in
  mkLife (a_pending a) (handling name (s_workers s)) (a_dead a)
    (g_enq g) (g_fin g) (g_del g) (g_log g).

Lemma a_insert_Permutation t l : a_insert t l ≡ₚ t :: l.
Proof.
  induction l as [|u l IH]; simpl; [done|]. case_decide; [done|].
  rewrite IH. apply Permutation_swap.
Qed.

Lemma find_dead_Some id l i t :
  find_dead id l = Some (i, t) → l ≡ₚ t :: remove_at i l ∧ ID t = id.
Proof.
  unfold find_dead. rewrite list_find_Some. intros (Hi & Hid & _). split; [|done].
  rewrite <- (take_drop_middle l i t Hi) at 1. unfold remove_at.
  symmetry. apply Permutation_middle.
Qed.

Section handling.
Context (name : string) (ws : list worker) (i : nat) (w : worker) (Hi : ws !! i = Some w).

(** What the other workers of the queue hold. *)
Let others : list Task := (take i ws ++ drop (S i) ws) ≫= handled name.

Lemma handling_here : handling name ws ≡ₚ handled name w ++ others.
Proof using Hi. by apply bind_take_drop. Qed.

Lemma handling_set pc :
  handling name (<[i:=set_pc pc w]> ws) ≡ₚ handled name (set_pc pc w) ++ others.
Proof using Hi. by eapply bind_insert. Qed.

Lemma handling_same pc :
  handled name (set_pc pc w) = handled name w →
  handling name ws ≡ₚ handling name (<[i:=set_pc pc w]> ws).
Proof using Hi. intros Heq. by rewrite handling_set, handling_here, Heq. Qed.
End handling.

Lemma handled_other name w pc : w_queue w ≠ name → handled name (set_pc pc w) = [].
Proof. intros. unfold handled; simpl. destruct pc; try done. by rewrite decide_False. Qed.

Lemma handled_other' name w : w_queue w ≠ name → handled name w = [].
Proof. intros. unfold handled. destruct (w_pc w); try done. by rewrite decide_False. Qed.

Lemma handled_not name w pc :
  (∀ t, w_pc w ≠ Handling t) → (∀ t, pc ≠ Handling t) →
  handled name (set_pc pc w) = handled name w.
Proof. intros H1 H2. unfold handled; simpl. destruct (w_pc w), pc; naive_solver. Qed.

Lemma handling_new name ws q k o : handling name (ws ++ new_workers q k o) = handling name ws.
Proof.
  unfold handling. rewrite bind_app. unfold new_workers.
  induction (Z.to_nat (Concurrency o)) as [|n IH]; simpl; [by rewrite app_nil_r|done].
Qed.

Lemma upd_ghost_eq name f g : upd_ghost name f g name = f (g name).
Proof. unfold upd_ghost. by rewrite decide_True. Qed.

Lemma upd_ghost_ne name f g n : n ≠ name → upd_ghost name f g n = g n.
Proof. intros. unfold upd_ghost. by rewrite decide_False. Qed.

(** A queue the step does not touch. *)
Lemma life_untouched n s s' :
  abs (s_mem s') n = abs (s_mem s) n → s_ghost s' n = s_ghost s n →
  handling n (s_workers s) ≡ₚ handling n (s_workers s') →
  life_step (life_of n s) (life_of n s').
Proof. intros Ha Hg Hh. unfold life_of. rewrite Ha, Hg. by apply life_keep. Qed.

Lemma life_call name p r m s :
  sys_ok s → s_steps s < max_int64 → call_ok s name p →
  mem_exec name p (s_mem s) = Some (r, m) →
  life_step (life_of name s) (life_of name
    (set_ghost (upd_ghost name (g_call (abs (s_mem s) name) p r) (s_ghost s)) (set_mem m s))).
Proof.
  intros Hs Hlt Hcall He.
  destruct (mem_exec_Some name p (s_mem s) r m) as (_ & Hspec & _);
    [apply Hs|by apply sys_room|by eapply call_op_ok|done|].
  unfold life_of; cbn [s_mem s_ghost s_workers set_ghost set_mem]. rewrite upd_ghost_eq.
  destruct p as [now uuid payload opts|now|now t err o|limit offset|now id|id];
    simpl in Hspec, Hcall; try done.
  - injection Hspec as -> ->. destruct Hcall as (-> & Hfresh & Hmax). simpl.
    apply life_enqueue; simpl; auto using NewEnqueueOptions_nonneg.
    by rewrite a_insert_Permutation.
  - injection Hspec as -> ->. by apply life_keep.
  - destruct (find_dead id _) as [[i t]|] eqn:Hfind; injection Hspec as -> ->; simpl.
    + apply find_dead_Some in Hfind as [Hperm <-].
      apply (life_revive t (revived now t)); try done. by rewrite a_insert_Permutation.
    + by apply life_keep.
  - destruct (find_dead id _) as [[i t]|] eqn:Hfind; injection Hspec as -> ->; simpl.
    + rewrite Hfind. apply find_dead_Some in Hfind as [Hperm <-]. by apply (life_delete t).
    + by apply life_keep.
Qed.

Lemma life_claim_step i w t wait ch m s :
  sys_ok s → s_steps s < max_int64 → s_workers s !! i = Some w → w_pc w = AtClaim →
  claim (s_now s) (w_queue w) (s_mem s) = Some ((Some t, wait, ch), m) →
  life_step (life_of (w_queue w) s) (life_of (w_queue w)
    (set_ghost (upd_ghost (w_queue w) (g_invoke (ID t) (Attempts t)) (s_ghost s))
       (set_worker i (set_pc (Handling t) w) (set_mem m s)))).
Proof.
  intros Hs Hlt Hi Hpc Hc.
  destruct (mem_exec_Some _ (OpClaim _) _ _ _ (sk_mem s Hs) (sys_room s (w_queue w) Hs Hlt) I
    (claim_exec _ _ _ _ _ _ _ Hc)) as (_ & Hspec & _).
  unfold life_of; cbn [s_mem s_ghost s_workers set_ghost set_mem set_worker].
  rewrite upd_ghost_eq. simpl in Hspec.
  destruct (a_pending (abs (s_mem s) (w_queue w))) as [|t0 rest] eqn:Hpend; [discriminate|].
  case_decide; [discriminate|]. injection Hspec as -> -> ->. simpl.
  apply (life_claim t0); simpl; [done| |done].
  rewrite (handling_set _ _ i w Hi), (handling_here _ _ i w Hi).
  unfold handled at 1 3; simpl. by rewrite Hpc, decide_True.
Qed.

Lemma life_ack_step i w t m s :
  s_workers s !! i = Some w → w_pc w = Handling t →
  complete (s_now s) (w_queue w) t None (w_opts w) (s_mem s) = Some m →
  life_step (life_of (w_queue w) s) (life_of (w_queue w)
    (set_ghost (upd_ghost (w_queue w) (g_finish t) (s_ghost s))
       (set_worker i (set_pc AtTop w) (set_mem m s)))).
Proof.
  intros Hi Hpc [= <-].
  unfold life_of; cbn [s_mem s_ghost s_workers set_ghost set_mem set_worker].
  rewrite upd_ghost_eq. apply life_ack; [done| |done].
  rewrite (handling_set _ _ i w Hi), (handling_here _ _ i w Hi).
  unfold handled at 1 3; simpl. by rewrite Hpc, decide_True.
Qed.

Lemma life_fail_step i w t err m s :
  sys_ok s → s_steps s < max_int64 → s_workers s !! i = Some w → w_pc w = Handling t →
  complete (s_now s) (w_queue w) t (Some err) (w_opts w) (s_mem s) = Some m →
  life_step (life_of (w_queue w) s) (life_of (w_queue w)
    (set_worker i (set_pc AtTop w) (set_mem m s))).
Proof.
  intros Hs Hlt Hi Hpc Hc.
  assert (opts_ok (w_opts w)) as Hopts by (eapply sk_opts; eauto using list_elem_of_lookup_2).
  destruct (mem_exec_Some _ (OpComplete _ _ _ _) _ _ _ (sk_mem s Hs)
    (sys_room s (w_queue w) Hs Hlt) Hopts (complete_exec _ _ _ _ _ _ _ Hc)) as (_ & Hspec & _).
  unfold life_of; cbn [s_mem s_ghost s_workers set_mem set_worker].
  assert (handling (w_queue w) (s_workers s) ≡ₚ
    t :: handling (w_queue w) (<[i:=set_pc AtTop w]> (s_workers s))) as Hh.
  { rewrite (handling_set _ _ i w Hi), (handling_here _ _ i w Hi).
    unfold handled at 1 3; simpl. by rewrite Hpc, decide_True. }
  simpl in Hspec. case_decide; injection Hspec as ->; simpl.
  - eapply (life_bury t (set_DiedAt (s_now s) (set_LastError err t))); try done.
    by rewrite Permutation_app_comm.
  - eapply (life_retry t (set_RunAt _ t)); try done; [lia|].
    by rewrite a_insert_Permutation.
Qed.

(** The simulation: every event is a step of the life of every queue. *)
Lemma step_life e s s' n :
  sys_ok s → step e s = Some s' → life_step (life_of n s) (life_of n s').
Proof.
  intros Hs (Hlt & s1 & Hcore & ->)%step_Some.
  change (life_of n (count_step s1)) with (life_of n s1).
  apply step_core_shape in Hcore as
    [d Hd|name p r m Hcall He|name opts Hopts|k sub sub' c Hk Ho|k sub c Hk Hall Hc
    |i w t wait ch m Hi Hpc Hc|i w wait ch m Hi Hpc Hc|i w h t m Hi Hpc Herr Hc
    |i w h t err m Hi Hpc Herr Hc|i w pc e' Hi Hw Hnot Hmove].
  - by apply life_untouched.
  - destruct (decide (n = name)) as [->|Hne]; [by apply life_call|].
    destruct (mem_exec_Some name p (s_mem s) r m) as (_ & _ & Hothers & _);
      [apply Hs|by apply sys_room|by eapply call_op_ok|done|].
    apply life_untouched; simpl; [by apply Hothers|by apply upd_ghost_ne|done].
  - unfold subscribe. destruct (newSubscription _) as [sub c].
    apply life_untouched; simpl; [done|done|]. by rewrite handling_new.
  - by apply life_untouched.
  - by apply life_untouched.
  - destruct (decide (n = w_queue w)) as [->|Hne]; [by eapply life_claim_step|].
    destruct (mem_exec_Some _ (OpClaim _) _ _ _ (sk_mem s Hs) (sys_room s (w_queue w) Hs Hlt) I
      (claim_exec _ _ _ _ _ _ _ Hc)) as (_ & _ & Hothers & _).
    apply life_untouched; simpl; [by apply Hothers|by apply upd_ghost_ne|].
    apply (handling_same _ _ i w Hi). by rewrite handled_other, handled_other' by done.
  - destruct (mem_exec_Some _ (OpClaim _) _ _ _ (sk_mem s Hs) (sys_room s (w_queue w) Hs Hlt) I
      (claim_exec _ _ _ _ _ _ _ Hc)) as (_ & Hspec & Hothers & _).
    apply life_untouched; simpl; [|done|].
    + destruct (decide (n = w_queue w)) as [->|Hne]; [|by apply Hothers].
      simpl in Hspec. destruct (a_pending _); [by injection Hspec|].
      case_decide; [by injection Hspec|discriminate].
    + apply (handling_same _ _ i w Hi). apply handled_not; [|done]. by rewrite Hpc.
  - destruct (decide (n = w_queue w)) as [->|Hne]; [by apply life_ack_step|].
    injection Hc as <-. apply life_untouched; simpl; [done|by apply upd_ghost_ne|].
    apply (handling_same _ _ i w Hi). by rewrite handled_other, handled_other' by done.
  - destruct (decide (n = w_queue w)) as [->|Hne]; [by eapply life_fail_step|].
    destruct (mem_exec_Some _ (OpComplete _ _ _ _) _ _ _ (sk_mem s Hs)
      (sys_room s (w_queue w) Hs Hlt)
      (sk_opts s Hs w (list_elem_of_lookup_2 _ _ _ Hi)) (complete_exec _ _ _ _ _ _ _ Hc))
      as (_ & _ & Hothers & _).
    apply life_untouched; simpl; [by apply Hothers|done|].
    apply (handling_same _ _ i w Hi). by rewrite handled_other, handled_other' by done.
  - apply life_untouched; simpl; [done|done|].
    apply (handling_same _ _ i w Hi). by apply handled_not.
Qed.

Lemma reachable_life s n : reachable step sys_init s → sys_ok s ∧ life_ok (life_of n s).
Proof.
  apply (reachable_invariant step (λ s, sys_ok s ∧ life_ok (life_of n s))).
  - intros e s1 s2 [Hs Hl] Hstep. split; [by eapply sys_ok_step|].
    eapply life_step_ok; [by eapply step_life|done].
  - split; [apply sys_init_ok|apply life_empty_ok].
Qed.

(** A task stays in the queue it was enqueued on. *)
Definition enq_here (s : sys) : Prop := ∀ n t, t ∈ g_enq (s_ghost s n) → Queue t = n.

Lemma upd_ghost_enq name f g (P : string → list Task → Prop) :
  (∀ n, P n (g_enq (g n))) → P name (g_enq (f (g name))) →
  ∀ n, P n (g_enq (upd_ghost name f g n)).
Proof. intros Hg Hf n. unfold upd_ghost. case_decide; [by subst|done]. Qed.

Lemma enq_here_step e s s' : sys_ok s → enq_here s → step e s = Some s' → enq_here s'.
Proof.
  intros Hs Hq (Hlt & s1 & Hcore & ->)%step_Some.
  change (enq_here s1). apply step_core_shape in Hcore. destruct Hcore; try exact Hq.
  - unfold enq_here; cbn [s_ghost set_ghost].
    apply (upd_ghost_enq name _ _ (λ n l, ∀ t, t ∈ l → Queue t = n)); [exact Hq|].
    intros t. destruct (mem_exec_Some name p (s_mem s) r m) as (_ & Hspec & _);
      [apply Hs|by apply sys_room|by eapply call_op_ok|done|].
    destruct p; simpl in *; try done.
    + injection Hspec as -> _. simpl. intros [->|Hin]%elem_of_cons; [done|by apply Hq].
    + apply Hq.
    + destruct r as [| | | |[]]; simpl; try apply Hq.
    + destruct r as [| | | |[]]; simpl; try apply Hq.
      destruct (find_dead _ _) as [[? ?]|]; apply Hq.
  - unfold enq_here; cbn [s_ghost set_ghost].
    by apply (upd_ghost_enq (w_queue w) _ _ (λ n l, ∀ t, t ∈ l → Queue t = n)); [exact Hq|apply Hq].
  - unfold enq_here; cbn [s_ghost set_ghost].
    by apply (upd_ghost_enq (w_queue w) _ _ (λ n l, ∀ t, t ∈ l → Queue t = n)); [exact Hq|apply Hq].
Qed.

Lemma reachable_enq_here s : reachable step sys_init s → enq_here s.
Proof.
  intros Hr. apply (reachable_invariant step (λ s, sys_ok s ∧ enq_here s)) in Hr as [_ H]; [done|..].
  - intros e s1 s2 [Hs Hq] Hstep. split; [by eapply sys_ok_step|by eapply enq_here_step].
  - split; [apply sys_init_ok|]. intros n t Ht. by apply not_elem_of_nil in Ht.
Qed.

(** ** No wakeup is lost *)

(** The sleeper's channel is closed, or it is the channel of the queue and no
    pending task is due before the sleeper looks again. *)
Definition sleeper_ok (m : MemoryWorkQueue) (name : string) (since : time) (wait : duration)
    (ch : chan) : Prop :=
  0 < wait ∧ made ch (mem_chans m) ∧
  (¬ is_closed ch (mem_chans m) → ∃ q, queues m !! name = Some q ∧ notify q = ch ∧
     ∀ i, i ∈ pending q → since + wait ≤ RunAt (task i)).

Definition wake_ok (s : sys) : Prop := ∀ w, w ∈ s_workers s →
  match w_pc w with
  | Arming since wait ch | Waiting since wait _ ch =>
      sleeper_ok (s_mem s) (w_queue w) since wait ch
  | _ => True
  end.

Lemma claim_idle now name m wait ch m' :
  memory_ok m → claim now name m = Some ((None, wait, Some ch), m') →
  memory_ok m' ∧ sleeper_ok m' name now wait ch.
Proof.
  intros Hm. unfold claim.
  destruct (queue_spec name m Hm) as (q & m1 & -> & Hm1 & Hq & Hok & _).
  assert (made (notify q) (mem_chans m1)) as Hmade by apply Hok.
  destruct (pending q !! 0%nat) as [first|] eqn:Hfirst.
  - unfold time_After. case_bool_decide as Hlt.
    + intros [= <- <- <-]. split; [done|]. split_and!; [by apply time_Sub_pos|done|].
      intros _. exists q. split_and!; [done|done|]. intros i [k Hi]%list_elem_of_lookup.
      pose proof (heap_root_min (contents := λ h, h) (pending q) first (ok_heap _ _ Hok)
        Hfirst k i Hi) as Hle.
      pose proof (proj1 (item_le_key first i) Hle).
      pose proof (time_Sub_le (RunAt (task first)) now). lia.
    + intros H. inv_opt. by destruct x.
  - intros [= <- <- <-]. split; [done|]. split_and!; [done|done|].
    intros _. exists q. split_and!; [done|done|]. intros i [k Hi]%list_elem_of_lookup.
    by destruct (pending q).
Qed.

(** A step on one queue keeps every sleeper in order. *)
Lemma sleeper_evolves name m m' n since wait ch :
  evolves name m m' → sleeper_ok m n since wait ch → sleeper_ok m' n since wait ch.
Proof.
  intros [Hle Hothers Hex Hclosed Hnotify] (Hpos & Hmade & Hopen).
  split_and!; [done|by eapply chans_le_made|]. intros Hncl.
  destruct Hopen as (q & Hq & <- & Hdue).
  { intros Hcl. apply Hncl. by eapply chans_le_closed. }
  destruct (decide (n = name)) as [->|Hne].
  - destruct (Hex (ex_intro _ q Hq)) as [q' Hq'].
    destruct (Hnotify q' Hq') as [(q0 & Hq0 & Hn & Hsub)|[_ Hcl]].
    + simplify_eq. exists q'. split_and!; [done|done|]. intros i Hi. by apply Hdue, Hsub.
    + by destruct Hncl; apply Hcl.
  - exists q. rewrite Hothers by done. done.
Qed.

Lemma sleeper_chans c m n since wait ch :
  chans_le (mem_chans m) c → sleeper_ok m n since wait ch →
  sleeper_ok (set_chans c m) n since wait ch.
Proof.
  intros Hle (Hpos & Hmade & Hopen). split_and!; [done|by eapply chans_le_made|].
  intros Hncl. apply Hopen. intros Hcl. apply Hncl. by eapply chans_le_closed.
Qed.

(** Moving one program counter while the memory moves on. *)
Lemma wake_ok_set i w pc m s s' :
  wake_ok s → s_workers s !! i = Some w → s_mem s' = m →
  s_workers s' = <[i:=set_pc pc w]> (s_workers s) →
  (∀ n since wait ch, sleeper_ok (s_mem s) n since wait ch → sleeper_ok m n since wait ch) →
  match pc with
  | Arming since wait ch | Waiting since wait _ ch => sleeper_ok m (w_queue w) since wait ch
  | _ => True
  end → wake_ok s'.
Proof.
  intros Hs Hi Hm Hw Hmono Hpc w' Hin. rewrite Hw in Hin. rewrite Hm.
  apply elem_of_insert_inv in Hin as [->|Hin]; [exact Hpc|].
  specialize (Hs w' Hin). destruct (w_pc w'); auto.
Qed.

Lemma wake_ok_mono s s' :
  wake_ok s → s_workers s' = s_workers s →
  (∀ n since wait ch, sleeper_ok (s_mem s) n since wait ch →
    sleeper_ok (s_mem s') n since wait ch) → wake_ok s'.
Proof.
  intros Hs Hw Hmono w Hin. rewrite Hw in Hin. specialize (Hs w Hin).
  destruct (w_pc w); auto.
Qed.

Lemma evolves_exec name p r m s :
  sys_ok s → s_steps s < max_int64 → op_ok p → mem_exec name p (s_mem s) = Some (r, m) →
  evolves name (s_mem s) m.
Proof.
  intros Hs Hlt Hop He.
  by destruct (mem_exec_Some name p (s_mem s) r m (sk_mem s Hs) (sys_room s name Hs Hlt) Hop He)
    as (_ & _ & _ & _ & Hev).
Qed.

Lemma Stop_once_le sub c sub' c' : Stop_once sub c = Some (sub', c') → chans_le c c'.
Proof.
  unfold Stop_once. destruct (stopOnce sub); [by intros [= _ <-]|].
  intros (c1 & Hc & [= _ <-])%bind_Some. by eapply close_chan_le.
Qed.

Lemma newSubscription_le c sub c' : newSubscription c = (sub, c') → chans_le c c'.
Proof. intros [= _ <-]. split; simpl; [lia|done]. Qed.

Lemma wake_ok_step e s s' : sys_ok s → wake_ok s → step e s = Some s' → wake_ok s'.
Proof.
  intros Hs Hw (Hlt & s1 & Hcore & ->)%step_Some. change (wake_ok s1).
  assert (∀ i w, s_workers s !! i = Some w → opts_ok (w_opts w)) as Hopts.
  { intros i w Hi. eapply sk_opts; eauto using list_elem_of_lookup_2. }
  apply step_core_shape in Hcore as
    [d Hd|name p r m Hcall He|name opts Ho|k sub sub' c Hk Ho|k sub c Hk Hall Hc
    |i w t wait ch m Hi Hpc Hc|i w wait ch m Hi Hpc Hc|i w h t m Hi Hpc Herr Hc
    |i w h t err m Hi Hpc Herr Hc|i w pc e' Hi Hnw Hnot Hmove].
  - exact Hw.
  - eapply wake_ok_mono; [exact Hw|done|]. intros. eapply sleeper_evolves; [|done].
    eapply evolves_exec; eauto using call_op_ok.
  - unfold subscribe. destruct (newSubscription _) as [sub c] eqn:Hnew.
    intros w. simpl. intros [Hin|Hin]%elem_of_app.
    + specialize (Hw w Hin). apply newSubscription_le in Hnew.
      destruct (w_pc w); eauto using sleeper_chans.
    + by apply elem_of_replicate in Hin as [-> _].
  - eapply wake_ok_mono; [exact Hw|done|]. intros. apply sleeper_chans; [|done].
    by eapply Stop_once_le.
  - eapply wake_ok_mono; [exact Hw|done|]. intros. apply sleeper_chans; [|done].
    by eapply close_chan_le.
  - eapply (wake_ok_set i w (Handling t)); eauto. intros. eapply sleeper_evolves; [|done].
    eapply (evolves_exec _ (OpClaim _)); eauto using claim_exec. done.
  - eapply (wake_ok_set i w (Arming _ _ _)); eauto.
    + intros. eapply sleeper_evolves; [|done].
      eapply (evolves_exec _ (OpClaim _)); eauto using claim_exec. done.
    + exact (proj2 (claim_idle _ _ _ _ _ _ (sk_mem s Hs) Hc)).
  - eapply (wake_ok_set i w AtTop); eauto. intros. eapply sleeper_evolves; [|done].
    eapply (evolves_exec _ (OpComplete _ _ _ _)); eauto using complete_exec. by eapply Hopts.
  - eapply (wake_ok_set i w AtTop); eauto. intros. eapply sleeper_evolves; [|done].
    eapply (evolves_exec _ (OpComplete _ _ _ _)); eauto using complete_exec. by eapply Hopts.
  - eapply (wake_ok_set i w pc); eauto.
    destruct Hmove as [w pc sub ??? ->|w sub ???|w since wait ch Harm|w since wait armed ch ??];
      try done.
    specialize (Hw w (list_elem_of_lookup_2 _ _ _ Hi)). by rewrite Harm in Hw.
Qed.

(** Channels are never unmade nor reopened. *)
Lemma shape_chans_le e s s1 :
  sys_ok s → s_steps s < max_int64 → step_shape s e s1 →
  chans_le (mem_chans (s_mem s)) (mem_chans (s_mem s1)).
Proof.
  intros Hs Hlt.
  assert (∀ i w, s_workers s !! i = Some w → opts_ok (w_opts w)) as Hopts.
  { intros i w Hi. eapply sk_opts; eauto using list_elem_of_lookup_2. }
  intros [d _|name p r m Hcall He|name opts Ho|j t t' c Hj Ho|j t c Hj Hall Hc
    |i w t wait ch m Hi Hpc Hc|i w wait ch m Hi Hpc Hc|i w h t m Hi Hpc Herr Hc
    |i w h t err m Hi Hpc Herr Hc|i w pc e' Hi Hnw Hnot Hmove]; simpl; try done.
  - eapply ev_le, (evolves_exec name p); eauto using call_op_ok.
  - by eapply newSubscription_le.
  - by eapply Stop_once_le.
  - by eapply close_chan_le.
  - by eapply ev_le, (evolves_exec _ (OpClaim _)); [| | |apply (claim_exec _ _ _ _ _ _ _ Hc)].
  - by eapply ev_le, (evolves_exec _ (OpClaim _)); [| | |apply (claim_exec _ _ _ _ _ _ _ Hc)].
  - eapply ev_le, (evolves_exec _ (OpComplete _ _ _ _));
      [done|done|by eapply Hopts|by apply (complete_exec _ _ _ _ _ _ _ Hc)].
  - eapply ev_le, (evolves_exec _ (OpComplete _ _ _ _));
      [done|done|by eapply Hopts|by apply (complete_exec _ _ _ _ _ _ _ Hc)].
Qed.
