(* ===== verification/MemoryShutdown.v ===== *)
(** * Stopping the pools of the in-memory backend

    The done channel of a subscription is closed only when all its workers
    have returned; a stopped pool drains; no operation of the backend panics. *)

From stdpp Require Import base tactics list numbers option gmap strings.
From S2P Require Import Prelude GoRuntime GoHeap Contract Options Memory MemorySpec Lifecycle Subscription MemorySystem.

(** ** Done means returned *)

Definition done_ok (s : sys) : Prop := ∀ k sub,
  s_subs s !! k = Some sub → is_closed (done_ sub) (mem_chans (s_mem s)) →
  all_exited k (s_workers s).

Lemma all_exitedb_spec k l : all_exitedb k l = true → all_exited k l.
Proof.
  unfold all_exitedb, all_exited. rewrite forallb_forall, Forall_forall.
  intros H w Hw%list_elem_of_In Hk. specialize (H w Hw).
  rewrite bool_decide_true in H by done. simpl in H. by destruct (w_pc w).
Qed.

Lemma all_exited_spec k l : all_exited k l → all_exitedb k l = true.
Proof.
  unfold all_exitedb, all_exited. rewrite forallb_forall, Forall_forall.
  intros H w Hw%list_elem_of_In. specialize (H w Hw).
  case_bool_decide as Hk; simpl; [|done]. by rewrite H.
Qed.

(** A worker that has not returned moves: its pool was not done. *)
Lemma all_exited_set k i w pc l :
  l !! i = Some w → w_pc w ≠ Exited → all_exited k l → all_exited k (<[i:=set_pc pc w]> l).
Proof.
  unfold all_exited. rewrite !Forall_forall. intros Hi Hne Hall w' Hin.
  apply elem_of_insert_inv in Hin as [->|Hin]; [|by apply Hall].
  intros Hk. destruct Hne. apply Hall; [by eapply list_elem_of_lookup_2|done].
Qed.

(** An operation of the backend closes no done channel. *)
Lemma evolves_done name m s sub :
  sys_ok s → evolves name (s_mem s) m → sub ∈ s_subs s →
  is_closed (done_ sub) (mem_chans m) → is_closed (done_ sub) (mem_chans (s_mem s)).
Proof.
  intros Hs Hev Hin Hcl.
  assert (done_ sub ∈ s_subs s ≫= sub_chans) as Hch
    by (eapply elem_of_sub_chans; [done|right; by left]).
  destruct (ev_closed _ _ _ Hev _ Hcl) as [?|[Hm|(q & Hq & Heq)]]; [done| |].
  - destruct Hm. by eapply subs_made; [apply Hs|].
  - by destruct (sk_notify s Hs _ _ _ Hq Hch).
Qed.

Lemma done_ok_evolves name m s s1 :
  sys_ok s → done_ok s → evolves name (s_mem s) m → s_mem s1 = m → s_subs s1 = s_subs s →
  (∀ k, all_exited k (s_workers s) → all_exited k (s_workers s1)) → done_ok s1.
Proof.
  intros Hs Hd Hev <- Hsub Hw k sub Hk Hcl. rewrite Hsub in Hk. apply Hw, (Hd k sub Hk).
  eapply evolves_done; eauto using list_elem_of_lookup_2.
Qed.

Lemma done_ok_stop k sub sub' c s :
  sys_ok s → done_ok s → s_subs s !! k = Some sub →
  Stop_once sub (mem_chans (s_mem s)) = Some (sub', c) →
  done_ok (set_subs (<[k:=sub']> (s_subs s)) (set_mem (set_chans c (s_mem s)) s)).
Proof.
  intros Hs Hd Hk Ho j t Hj Hcl. simpl in *.
  assert (∃ t0, s_subs s !! j = Some t0 ∧ done_ t0 = done_ t) as (t0 & Ht0 & Hdone).
  { apply list_lookup_insert_Some in Hj as [(<- & <- & _)|[_ Hj]]; [|by exists t].
    exists sub. split; [done|]. unfold Stop_once in Ho.
    destruct (stopOnce sub); [by simplify_eq|].
    by apply bind_Some in Ho as (? & _ & [= <- _]). }
  apply (Hd j t0 Ht0). rewrite Hdone. unfold Stop_once in Ho.
  destruct (stopOnce sub); [by simplify_eq|].
  apply bind_Some in Ho as (c1 & Hc1 & [= _ <-]).
  rewrite (close_chan_is_closed _ _ _ _ Hc1) in Hcl. destruct Hcl as [Heq|?]; [|done].
  exfalso. rewrite <- Hdone in Heq. symmetry in Heq. revert Heq.
  eapply stop_done_disjoint; [apply Hs|by eapply list_elem_of_lookup_2..].
Qed.

Lemma done_ok_step e s s' : sys_ok s → done_ok s → step e s = Some s' → done_ok s'.
Proof.
  intros Hs Hd (Hlt & s1 & Hcore & ->)%step_Some. change (done_ok s1).
  assert (∀ i w, s_workers s !! i = Some w → opts_ok (w_opts w)) as Hopts.
  { intros i w Hi. eapply sk_opts; eauto using list_elem_of_lookup_2. }
  apply step_core_shape in Hcore as
    [d _|name p r m Hcall He|name opts Ho|k sub sub' c Hk Ho|k sub c Hk Hall Hc
    |i w t wait ch m Hi Hpc Hc|i w wait ch m Hi Hpc Hc|i w h t m Hi Hpc Herr Hc
    |i w h t err m Hi Hpc Herr Hc|i w pc e' Hi Hnw Hnot Hmove].
  - exact Hd.
  - eapply done_ok_evolves; eauto. eapply evolves_exec; eauto using call_op_ok.
  - unfold subscribe. destruct (newSubscription _) as [sub c] eqn:Hnew.
    destruct (newSubscription_ok _ _ _ _ (ok_chans _ (sk_mem s Hs)) (sk_subs s Hs) Hnew)
      as (_ & _ & _ & Hcl & Hfresh).
    intros j t. simpl. rewrite Hcl. intros Hj Ht.
    apply lookup_app_Some in Hj as [Hj|[Hj Hlast]].
    + specialize (Hd j t Hj Ht). apply lookup_lt_Some in Hj.
      unfold all_exited. apply Forall_app. split; [exact Hd|].
      apply Forall_forall. intros w (-> & _)%elem_of_replicate. simpl. lia.
    + apply list_lookup_singleton_Some in Hlast as [_ <-].
      destruct (Hfresh (done_ sub)) as [_ Hn]; [right; by left|done].
  - by eapply done_ok_stop.
  - intros j t Hj. simpl. rewrite (close_chan_is_closed _ _ _ _ Hc).
    intros [Heq|Hcl]; [|by apply (Hd j t Hj)].
    assert (j = k) as -> by (eapply done_inj; [apply Hs|..]; done).
    by apply all_exitedb_spec.
  - eapply (done_ok_evolves (w_queue w)); eauto.
    + eapply (evolves_exec _ (OpClaim _)); eauto using claim_exec. done.
    + intros k. apply all_exited_set; [done|congruence].
  - eapply (done_ok_evolves (w_queue w)); eauto.
    + eapply (evolves_exec _ (OpClaim _)); eauto using claim_exec. done.
    + intros k. apply all_exited_set; [done|congruence].
  - eapply (done_ok_evolves (w_queue w)); eauto.
    + eapply (evolves_exec _ (OpComplete _ _ _ _)); eauto using complete_exec.
      by eapply Hopts.
    + intros k. apply all_exited_set; [done|congruence].
  - eapply (done_ok_evolves (w_queue w)); eauto.
    + eapply (evolves_exec _ (OpComplete _ _ _ _)); eauto using complete_exec.
      by eapply Hopts.
    + intros k. apply all_exited_set; [done|congruence].
  - eapply (done_ok_evolves (w_queue w)); eauto; [done|].
    intros k. apply all_exited_set; [done|]. by destruct Hmove; congruence.
Qed.

(** ** Nothing panics *)

Lemma exec_total name p s :
  sys_ok s → s_steps s < max_int64 → op_ok p → is_Some (mem_exec name p (s_mem s)).
Proof.
  intros Hs Hlt Hop.
  destruct (mem_exec_refines name p (s_mem s) (sk_mem s Hs) (sys_room s name Hs Hlt) Hop)
    as (r & m & -> & _). eauto.
Qed.

Lemma claim_total s w :
  sys_ok s → s_steps s < max_int64 →
  ∃ t wait ch m, claim (s_now s) (w_queue w) (s_mem s) = Some ((t, wait, ch), m) ∧
    (t = None → is_Some ch).
Proof.
  intros Hs Hlt. destruct (exec_total (w_queue w) (OpClaim (s_now s)) s Hs Hlt I) as [[r m] He].
  apply bind_Some in He as ([[[t wait] ch] m'] & Hc & [= <- <-]).
  exists t, wait, ch, m'. split; [done|]. intros ->. by eapply claim_None_chan.
Qed.

Lemma complete_total s w t err :
  sys_ok s → s_steps s < max_int64 → w ∈ s_workers s →
  is_Some (complete (s_now s) (w_queue w) t err (w_opts w) (s_mem s)).
Proof.
  intros Hs Hlt Hw.
  destruct (exec_total (w_queue w) (OpComplete (s_now s) t err (w_opts w)) s Hs Hlt
    (sk_opts s Hs w Hw)) as [[r m] He].
  apply bind_Some in He as (m' & Hc & _). eauto.
Qed.

(** ** A stopped pool drains *)

(** How many steps a worker takes before it has returned, at most, once its
    stop channel is closed. *)
Definition rank (pc : wpc) : nat :=
  match pc with
  | Exited => 0 | AtTop => 1 | Handling _ => 2 | Waiting _ _ _ _ => 2
  | Arming _ _ _ => 3 | AtClaim => 4
  end.

(** The steps a worker takes itself. *)
Definition own (i : nat) (e : event) : bool :=
  match e with
  | Run j | Finish j _ | Woken j | TimedOut j | Stopped j => bool_decide (j = i)
  | _ => false
  end.

Definition own_steps (i : nat) (es : list event) : nat := length (filter (λ e, own i e = true) es).

Definition stopping (k : nat) (s : sys) : Prop :=
  ∃ sub, s_subs s !! k = Some sub ∧ is_closed (stopCh sub) (mem_chans (s_mem s)).

(** A worker that has not returned can make a step, whatever its handler
    returns when it is in one. *)
Definition can_go_on (i : nat) (w : worker) (s : sys) : Prop :=
  match w_pc w with
  | Exited => True
  | Handling _ => ∀ h, is_Some (step (Finish i h) s)
  | Waiting _ _ _ _ => is_Some (step (Stopped i) s)
  | AtTop | AtClaim | Arming _ _ _ => is_Some (step (Run i) s)
  end.

(** The handler that returns nil. *)
Definition nil_handler : Handler := λ t, (t, Returned None).

Lemma memory_stopping_step k e s s' : sys_ok s → stopping k s → step e s = Some s' → stopping k s'.
Proof.
  intros Hs (sub & Hsub & Hcl) (Hlt & s1 & Hcore%step_core_shape & ->)%step_Some.
  pose proof (shape_chans_le e s s1 Hs Hlt Hcore) as Hle.
  assert (∃ sub', s_subs s1 !! k = Some sub' ∧ stopCh sub' = stopCh sub) as (sub' & Hsub' & Hch).
  { destruct Hcore as [| |name opts Ho|j t t' c Hj Ho| | | | | |]; simpl; eauto.
    - unfold subscribe. destruct (newSubscription (mem_chans (s_mem s))). simpl. exists sub. split; [|done].
      by rewrite lookup_app_l by (by eapply lookup_lt_Some).
    - destruct (decide (j = k)) as [->|Hne]; [|exists sub; by rewrite list_lookup_insert_ne].
      exists t'. rewrite list_lookup_insert_eq by (by eapply lookup_lt_Some). split; [done|].
      simplify_eq. unfold Stop_once in Ho. destruct (stopOnce sub); [by simplify_eq|].
      by apply bind_Some in Ho as (? & _ & [= <- _]). }
  exists sub'. split; [done|]. rewrite Hch. by eapply chans_le_closed.
Qed.

(** A worker of a stopped pool that makes a step comes closer to returning. *)
Lemma own_step i w e s s1 :
  s_workers s !! i = Some w → stopping (w_sub w) s → own i e = true → step_core e s = Some s1 →
  ∃ pc, s_workers s1 !! i = Some (set_pc pc w) ∧ (rank pc < rank (w_pc w))%nat.
Proof.
  intros Hi (sub & Hsub & Hcl) Hown Hcore. pose proof (lookup_lt_Some _ _ _ Hi) as Hlt.
  assert (∀ pc s2, s_workers s2 = <[i:=set_pc pc w]> (s_workers s) → (rank pc < rank (w_pc w))%nat →
    ∃ pc, s_workers s2 !! i = Some (set_pc pc w) ∧ (rank pc < rank (w_pc w))%nat) as Hgo.
  { intros pc s2 -> Hr. exists pc. by rewrite list_lookup_insert_eq. }
  destruct e as [| | | | |j|j h|j|j|j]; simpl in Hown; try discriminate;
    apply bool_decide_eq_true in Hown as ->; simpl in Hcore; rewrite Hi in Hcore; simpl in Hcore.
  - unfold run_worker in Hcore. destruct (w_pc w) eqn:Hpc; try discriminate; simpl in Hgo.
    + rewrite Hsub in Hcore. simpl in Hcore. rewrite decide_True in Hcore by done.
      simplify_eq. by eapply (Hgo Exited); [|simpl; lia].
    + apply bind_Some in Hcore as ([[[[t|] wait] [ch|]] m] & _ & Hcore); simplify_eq.
      * by eapply (Hgo (Handling t)); [|simpl; lia].
      * by eapply (Hgo (Handling t)); [|simpl; lia].
      * by eapply (Hgo (Arming _ _ _)); [|simpl; lia].
    + simplify_eq. by eapply (Hgo (Waiting _ _ _ _)); [|simpl; lia].
  - unfold finish_worker in Hcore. destruct (w_pc w) eqn:Hpc; try discriminate.
    inv_opt. by eapply (Hgo AtTop); [case_match|simpl; lia].
  - destruct (w_pc w) eqn:Hpc; try discriminate. case_decide; simplify_eq.
    by eapply (Hgo AtTop); [|simpl; lia].
  - destruct (w_pc w) eqn:Hpc; try discriminate. case_decide; simplify_eq.
    by eapply (Hgo AtTop); [|simpl; lia].
  - rewrite Hsub in Hcore. simpl in Hcore. destruct (w_pc w) eqn:Hpc; try discriminate.
    case_decide; simplify_eq. by eapply (Hgo Exited); [|simpl; lia].
Qed.

(** The workers of a pool are those there were when it was stopped: the others'
    steps do not touch them, and a new subscription has its own. *)
Definition workers_kept (k i : nat) (kept : bool) (l l' : list worker) : Prop :=
  (∀ w, l !! i = Some w → ∃ w', l' !! i = Some w' ∧ w_sub w' = w_sub w ∧ (kept = true → w' = w)) ∧
  (∀ w', l' !! i = Some w' → w_sub w' = k → is_Some (l !! i)).

Lemma workers_kept_refl k i b l : workers_kept k i b l l.
Proof. split; [|by eauto]. intros w Hw. by exists w. Qed.

Lemma workers_kept_set k i j u pc l :
  l !! j = Some u → workers_kept k i (negb (bool_decide (j = i))) l (<[j:=set_pc pc u]> l).
Proof.
  intros Hj. split.
  - intros w Hw. destruct (decide (j = i)) as [->|Hne].
    + rewrite list_lookup_insert_eq by (by eapply lookup_lt_Some). simplify_eq.
      rewrite bool_decide_true by done. by eexists.
    + rewrite list_lookup_insert_ne by done. by exists w.
  - intros w' Hw' _. apply lookup_lt_is_Some. apply lookup_lt_Some in Hw'. by rewrite length_insert in Hw'.
Qed.

Lemma pool_step k i e s s1 :
  stopping k s → step_core e s = Some s1 →
  workers_kept k i (negb (own i e)) (s_workers s) (s_workers s1).
Proof.
  intros (sub & Hsub & _) Hcore.
  destruct e as [| |name opts| | |j|j h|j|j|j]; simpl in Hcore;
    try (apply bind_Some in Hcore as (u & Hj & Hcore)).
  - case_decide; simplify_eq. apply workers_kept_refl.
  - case_decide; [|done]. apply bind_Some in Hcore as ([r m] & _ & [= <-]). apply workers_kept_refl.
  - case_decide; simplify_eq. unfold subscribe. destruct (newSubscription _) as [sub' c]. simpl. split.
    + intros w Hw. exists w. rewrite lookup_app_l; [done|]. by eapply lookup_lt_Some.
    + intros w' [Hw'|[_ Hw']]%lookup_app_Some Hk; [by eauto|].
      apply lookup_replicate in Hw' as [-> _]. simpl in Hk. apply lookup_lt_Some in Hsub. lia.
  - apply bind_Some in Hcore as ([? ?] & _ & [= <-]). apply workers_kept_refl.
  - apply bind_Some in Hcore as (? & _ & [= <-]). apply workers_kept_refl.
  - unfold run_worker in Hcore. destruct (w_pc u); try discriminate.
    + apply bind_Some in Hcore as (t & _ & Hcore). case_decide; simplify_eq; by apply workers_kept_set.
    + apply bind_Some in Hcore as ([[[[t|] wait] [ch|]] m] & _ & Hcore); simplify_eq;
        by apply workers_kept_set.
    + simplify_eq. by apply workers_kept_set.
  - unfold finish_worker in Hcore. destruct (w_pc u); try discriminate.
    apply bind_Some in Hcore as (m & _ & [= <-]). case_match; by apply workers_kept_set.
  - destruct (w_pc u); try discriminate. case_decide; simplify_eq. by apply workers_kept_set.
  - destruct (w_pc u); try discriminate. case_decide; simplify_eq. by apply workers_kept_set.
  - apply bind_Some in Hcore as (t & _ & Hcore).
    destruct (w_pc u); try discriminate. case_decide; simplify_eq. by apply workers_kept_set.
Qed.

Lemma rank_le pc : (rank pc ≤ 4)%nat.
Proof. destruct pc; simpl; lia. Qed.

Lemma rank_0 pc : rank pc = O → pc = Exited.
Proof. by destruct pc; simpl; try lia. Qed.

(** In every execution a worker of a stopped pool takes at most as many steps
    as its rank says. *)
Lemma pool_run k i es s s' w' :
  sys_ok s → stopping k s → run step es s = Some s' → s_workers s' !! i = Some w' → w_sub w' = k →
  ∃ w, s_workers s !! i = Some w ∧ w_sub w = k ∧
    (own_steps i es + rank (w_pc w') ≤ rank (w_pc w))%nat.
Proof.
  revert s. induction es as [|e es IH]; intros s Hs Hstop Hrun Hi Hk.
  { simpl in Hrun. simplify_eq. exists w'. by split_and!. }
  simpl in Hrun. apply bind_Some in Hrun as (s1 & Hstep & Hrun).
  destruct (IH s1) as (w1 & Hi1 & Hk1 & Hle);
    [by eapply sys_ok_step|by eapply memory_stopping_step|done..|].
  apply step_Some in Hstep as (_ & s2 & Hcore & ->). simpl in Hi1.
  destruct (pool_step k i e s s2 Hstop Hcore) as [Hkept Hold].
  destruct (Hold w1 Hi1 Hk1) as [w Hw]. destruct (Hkept w Hw) as (w0 & Hw0 & Hsub & Heq).
  assert (w0 = w1) as -> by congruence. unfold own_steps. rewrite filter_cons.
  assert (w_sub w = k) as Hwk by congruence. exists w. split_and!; [done|done|].
  destruct (own i e) eqn:Hown; fold (own_steps i es); [|by rewrite <- Heq].
  destruct (own_step i w e s s2) as (pc & Hpc & Hlt); [done|by rewrite Hwk|done|done|].
  simpl. fold (own_steps i es). simplify_eq. simpl in Hle. lia.
Qed.

(** A worker of a stopped pool that has not returned can go on. *)
Lemma pool_progress i w s :
  sys_ok s → s_steps s < max_int64 → s_workers s !! i = Some w → stopping (w_sub w) s →
  can_go_on i w s.
Proof.
  intros Hs Hlt Hi (sub & Hsub & Hcl). assert (w ∈ s_workers s) as Hw by (by eapply list_elem_of_lookup_2).
  unfold can_go_on. destruct (w_pc w) as [| |t| | |] eqn:Hpc; try done;
    try (intros h); apply step_core_step; try done; simpl; rewrite Hi; simpl.
  - unfold run_worker. rewrite Hpc, Hsub. simpl. by rewrite decide_True.
  - destruct (claim_total s w Hs Hlt) as (t & wait & ch & m & Hc & Hch).
    unfold run_worker. rewrite Hpc, Hc. simpl. destruct t; [done|]. by destruct Hch as [c ->].
  - destruct (complete_total s w t (invokeHandler h (cloneTask t)).2 Hs Hlt Hw) as [m Hc].
    unfold finish_worker. rewrite Hpc, Hc. by eexists.
  - unfold run_worker. by rewrite Hpc.
  - rewrite Hsub. simpl. rewrite Hpc. by rewrite decide_True.
Qed.

(** When its workers have returned the done channel is closed or can be. *)
Lemma pool_closes k sub s :
  sys_ok s → s_steps s < max_int64 → s_subs s !! k = Some sub → all_exited k (s_workers s) →
  is_closed (done_ sub) (mem_chans (s_mem s)) ∨
  ∃ s', step (CloseDone k) s = Some s' ∧ is_closed (done_ sub) (mem_chans (s_mem s')).
Proof.
  intros Hs Hlt Hsub Hex.
  destruct (decide (is_closed (done_ sub) (mem_chans (s_mem s)))) as [Hcl|Hcl]; [by left|right].
  destruct (close_chan_open (done_ sub) (mem_chans (s_mem s))) as [c Hc].
  { split; [|done]. eapply subs_made; [apply Hs|].
    eapply elem_of_sub_chans; [by eapply list_elem_of_lookup_2|right; by left]. }
  exists (count_step (set_mem (set_chans c (s_mem s)) s)). split.
  - unfold step. rewrite decide_True by lia. simpl.
    rewrite Hsub; simpl. rewrite all_exited_spec by done. simpl. by rewrite Hc.
  - simpl. apply (close_chan_is_closed _ _ _ _ Hc). by left.
Qed.
