(* ===== verification/MemoryProps.v ===== *)
(** * Properties of the in-memory backend

    The theorems about src/memory_workqueue/workqueue.go, each with a witness
    on a concrete execution where it has hypotheses. *)

From stdpp Require Import base tactics list numbers option gmap strings sorting.
From S2P Require Import Prelude GoRuntime GoHeap Contract Options Memory MemorySpec Lifecycle Subscription MemorySystem MemoryShutdown.

(** ** A concrete execution

    Two tasks on one queue, one worker: the first task fails once and waits
    for its retry, the second is being handled, and a second worker sleeps. *)

Definition demo_opts : list ConsumeOption := [WithConcurrency 2].

Definition failing (e : string) : Handler := λ t, (set_Attempts 0 t, Returned (Some e)).
Definition panicking (r : string) : Handler := λ t, (t, Panicked r).

Definition demo_events : list event := [
  Tick 1000; Call "q" (OpEnqueue 1000 "a" None [WithMaxRetries 1]);
  Subscribe "q" demo_opts; Run 0; Run 0; Tick 5; Finish 0 (failing "boom");
  Run 1; Run 1; Run 1;
  Call "q" (OpEnqueue 1005 "b" None []); Run 0; Run 0
].

Definition demo : sys := default sys_init (run step demo_events sys_init).

(** The second worker went to sleep when the queue was empty and the timer of
    the retry runs. *)
Definition demo_worker : worker :=
  mkWorker "q" 0 (NewConsumeOptions demo_opts) (Waiting 1005 (10 * Second) 1005 4).

(** The first worker handles the second task. *)
Definition demo_busy : worker :=
  mkWorker "q" 0 (NewConsumeOptions demo_opts)
    (Handling (incr_Attempts (new_task 1005 "b" "q" None []))).

(** ** Witness helpers *)

Lemma demo_reachable : reachable step sys_init demo.
Proof. apply runs_reachable. vm_compute. reflexivity. Defined.

Example demo_handles : ID <$> handling "q" (s_workers demo) = ["b"].
Proof. vm_compute. reflexivity. Qed.

Example demo_sleeps : s_workers demo !! 1%nat = Some demo_worker.
Proof. vm_compute. reflexivity. Qed.

Example demo_pending : (λ t, (ID t, Attempts t, RunAt t)) <$> a_pending (abs (s_mem demo) "q") =
  [("a", 1, 10000001005)].
Proof. vm_compute. reflexivity. Qed.

(** ** Histories of client and worker operations *)

(** C1. Any history of operations on any queues, run on a new backend, answers
    what the abstract queues answer and leaves what they leave: tasks come out
    by RunAt and first-in first-out among equal times; pages, retries and dead
    letters are those of the specification. It panics exactly where the
    specification says so: at a call of ListDeadTasks for a page that starts
    inside the list of dead letters and whose end, offset plus limit, is past
    the largest int. The integer arguments are 64-bit integers and the history
    is shorter than 2^63 operations. *)
Theorem memory_refines_abstract_queues c ps :
  chans_ok c → Forall (λ p, op_args p.2) ps → Z.of_nat (length ps) ≤ max_int64 →
  match spec_run ps (λ _, a_empty) with
  | Some (rs, A) => ∃ m', mem_run ps (New c) = Some (rs, m') ∧ ∀ n, abs m' n = A n
  | None => mem_run ps (New c) = None
  end.
Proof.
  intros Hc Hps Hlen. pose proof (mem_run_refines ps (New c) (λ _, a_empty) 0) as Hx.
  unfold run_refines in Hx. destruct (spec_run ps _) as [[rs A]|].
  - destruct Hx as (m' & Hrun & _ & Habs); [by apply New_ok|done|done|lia| |lia|by exists m'].
    apply New_seqs.
  - apply Hx; [by apply New_ok|done|done|lia|apply New_seqs|lia].
Qed.

Definition demo_ops : list (string * op) := [
  ("q", OpEnqueue 10 "a" None [WithDelay 100]); ("q", OpEnqueue 20 "b" None []);
  ("r", OpEnqueue 20 "c" None [WithMaxRetries 0]); ("q", OpEnqueue 20 "d" None []);
  ("q", OpClaim 20); ("q", OpClaim 30); ("q", OpClaim 40); ("r", OpClaim 40)
].

Lemma demo_chans_ok : chans_ok no_chans.
Proof. intros ch Hch. unfold is_closed in Hch. simpl in Hch. set_solver. Defined.

(** One task dies, and its dead letter is listed: an ordinary page, and, from an
    offset inside the list, one whose end overflows. *)
Definition demo_dying_ops (limit offset : Z) : list (string * op) :=
  (λ p, ("r", p)) <$> [OpEnqueue 20 "c" None [WithMaxRetries 0]; OpEnqueue 20 "d" None [WithMaxRetries 0];
    OpClaim 30; OpComplete 31 (incr_Attempts (new_task 20 "c" "r" None [WithMaxRetries 0])) (Some "boom")
      (NewConsumeOptions []);
    OpClaim 32; OpComplete 33 (incr_Attempts (new_task 20 "d" "r" None [WithMaxRetries 0])) (Some "boom")
      (NewConsumeOptions []);
    OpList limit offset].

Lemma demo_dying_args limit offset :
  in_int64 limit → in_int64 offset → Forall (λ p, op_args p.2) (demo_dying_ops limit offset).
Proof.
  intros Hl Ho. repeat (apply Forall_cons; split); [..|by apply Forall_nil];
    first [exact I|by split|split; vm_compute; split; discriminate].
Qed.

Lemma memory_refines_abstract_queues_witness :
  (∃ m', (rs ← fst <$> mem_run demo_ops (New no_chans); last rs) =
       Some (RClaim (Some (incr_Attempts (new_task 20 "c" "r" None [WithMaxRetries 0]))) 0) ∧
     snd <$> mem_run demo_ops (New no_chans) = Some m') ∧
  mem_run (demo_dying_ops max_int64 1) (New no_chans) = None.
Proof.
  split.
  - pose proof (memory_refines_abstract_queues no_chans demo_ops demo_chans_ok) as H.
    destruct H as (m' & H & _); [repeat constructor|simpl; lia|].
    exists m'. rewrite H. by split; [vm_compute|].
  - apply (memory_refines_abstract_queues no_chans (demo_dying_ops max_int64 1) demo_chans_ok);
      [|simpl; lia].
    by apply demo_dying_args.
Defined.

(** Claiming from a backend in order gives the first task of the queue when it
    is due, with one more attempt, and nothing is claimed before it or due
    earlier; otherwise the queue is left alone, no task is due, and the worker
    is told how long to wait and the channel to wait on. *)
Theorem claim_takes_first_due now name m :
  memory_ok m →
  ∃ t wait ch m', claim now name m = Some ((t, wait, ch), m') ∧
    let pend := a_pending (abs m name) in
    let pend' := a_pending (abs m' name) in
    match t with
    | Some t => ∃ u, t = incr_Attempts u ∧ pend = u :: pend' ∧ RunAt u ≤ now ∧
                     Forall (λ v, RunAt u ≤ RunAt v) pend
    | None => pend' = pend ∧ Forall (λ v, now < RunAt v) pend ∧ 0 < wait ∧ is_Some ch
    end.
Proof.
  intros Hm. destruct (claim_refines name now m Hm) as (r & m' & He & _ & Hs & _).
  pose proof (abs_sorted name m) as Hsort.
  apply bind_Some in He as ([[[t wait] ch] m1] & Hc & [= <- <-]).
  exists t, wait, ch, m1. split; [done|]. simpl in *.
  destruct t as [t|].
  - destruct (a_pending (abs m name)) as [|u rest] eqn:Hp; [discriminate|].
    case_decide; [discriminate|]. injection Hs as -> _ Ha. exists u. rewrite Ha; simpl.
    split_and!; [done|done|lia|]. apply Sorted.StronglySorted_inv in Hsort as [_ Hall].
    constructor; [lia|done].
  - destruct (claim_None_chan _ _ _ _ _ _ Hc) as [k ->].
    destruct (claim_idle _ _ _ _ _ _ Hm Hc) as [_ (Hpos & _)].
    destruct (a_pending (abs m name)) as [|u rest] eqn:Hp.
    + injection Hs as _ Ha. rewrite Ha, Hp. by split_and!.
    + case_decide as Hlt; [|discriminate]. injection Hs as _ Ha. rewrite Ha, Hp.
      apply Sorted.StronglySorted_inv in Hsort as [_ Hall]. split_and!; [done| |done|done].
      constructor; [done|]. eapply Forall_impl; [exact Hall|]. simpl. lia.
Qed.

Definition demo_mem : MemoryWorkQueue := default (New no_chans) (snd <$> mem_run (take 4 demo_ops) (New no_chans)).

Lemma demo_mem_ok : memory_ok demo_mem.
Proof.
  pose proof (mem_run_refines (take 4 demo_ops) (New no_chans) (λ _, a_empty) 0) as H.
  destruct H as (m' & Hrun & Hm & _);
    [apply New_ok, demo_chans_ok|done|repeat constructor|lia|apply New_seqs|simpl; lia|].
  unfold demo_mem. by rewrite Hrun.
Qed.

Lemma claim_takes_first_due_witness :
  ∃ t wait ch m', claim 40 "q" demo_mem = Some ((t, wait, ch), m') ∧
    ID <$> a_pending (abs demo_mem "q") = ["b"; "d"; "a"].
Proof.
  destruct (claim_takes_first_due 40 "q" demo_mem demo_mem_ok) as (t & wait & ch & m' & H & _).
  exists t, wait, ch, m'. split; [exact H|]. vm_compute. reflexivity.
Defined.

(** ** What every execution of the backend keeps *)

Section reachable.
Context (s : sys) (n : string) (Hreach : reachable step sys_init s).

Let pending_ : list Task := a_pending (abs (s_mem s) n).
Let running : list Task := handling n (s_workers s).
Let dead_ : list Task := a_dead (abs (s_mem s) n).
Let history : ghost := s_ghost s n.

(** C5. No task is lost and none is duplicated: in every execution with any
    workers, clients and stops, each enqueued task is in exactly one place:
    pending, in the hands of a handler, dead, acknowledged, or deleted. *)
Theorem memory_tasks_conserved :
  NoDup (ID <$> g_enq history) ∧
  ID <$> (pending_ ++ running ++ dead_ ++ g_fin history ++ g_del history) ≡ₚ
    ID <$> g_enq history.
Proof using Hreach.
  destruct (reachable_life s n Hreach) as [_ Hl].
  split; [apply (life_nodup _ Hl)|apply (life_conserved _ Hl)].
Qed.

(** C7. Attempts are exact: the handlers were invoked with the attempt numbers
    1, 2, ..., [Attempts t] since the task was enqueued or last requeued,
    each once and in this order; a pending task has used at most its retries,
    a dead one exactly all of them, and no task is ever handled more than
    MaxRetries + 1 times. *)
Theorem memory_attempts_exact :
  (∀ t, t ∈ pending_ → 0 ≤ Attempts t ≤ MaxRetries t) ∧
  (∀ t, t ∈ running → 1 ≤ Attempts t ≤ MaxRetries t + 1) ∧
  (∀ t, t ∈ dead_ → Attempts t = MaxRetries t + 1) ∧
  (∀ t, t ∈ pending_ ++ running ++ dead_ →
    attempts_of (ID t) (g_log history) = countdown (Z.to_nat (Attempts t))) ∧
  (∀ t, t ∈ g_enq history →
    Z.of_nat (length (attempts_of (ID t) (g_log history))) ≤ MaxRetries t + 1).
Proof using Hreach.
  destruct (reachable_life s n Hreach) as [_ Hl]. split_and!.
  - intros t Ht. apply (life_pend _ Hl t Ht).
  - intros t Ht. apply (life_runn _ Hl t Ht).
  - intros t Ht. apply (life_deadl _ Hl t Ht).
  - intros t. rewrite !elem_of_app. intros [Ht|[Ht|Ht]].
    + apply (life_pend _ Hl t Ht).
    + apply (life_runn _ Hl t Ht).
    + apply (life_deadl _ Hl t Ht).
  - intros t Ht. destruct (life_log _ Hl t Ht) as (k & Hk & Hle).
    simpl in Hk. subst history. rewrite Hk, length_countdown. done.
Qed.

(** A task keeps its identity: what is pending, handled or dead on a queue
    was enqueued on this queue, with the same identifier, payload, metadata,
    retry budget and enqueue time; what a handler writes into the task it is
    given is never seen. *)
Theorem memory_tasks_keep_identity :
  ∀ t, t ∈ pending_ ++ running ++ dead_ →
    Queue t = n ∧ ∃ t0, t0 ∈ g_enq history ∧ same_identity t0 t.
Proof using Hreach.
  destruct (reachable_life s n Hreach) as [_ Hl].
  intros t Ht. assert (∃ t0, t0 ∈ g_enq history ∧ same_identity t0 t) as (t0 & Ht0 & Hid).
  { rewrite !elem_of_app in Ht. destruct Ht as [Ht|[Ht|Ht]].
    - apply (life_pend _ Hl t Ht).
    - apply (life_runn _ Hl t Ht).
    - apply (life_deadl _ Hl t Ht). }
  split; [|by exists t0]. destruct Hid as (_ & <- & _).
  by apply (reachable_enq_here s Hreach n).
Qed.
End reachable.

Lemma memory_tasks_conserved_witness :
  ID <$> (a_pending (abs (s_mem demo) "q") ++ handling "q" (s_workers demo) ++
    a_dead (abs (s_mem demo) "q") ++ g_fin (s_ghost demo "q") ++ g_del (s_ghost demo "q")) ≡ₚ
  ["b"; "a"].
Proof. exact (proj2 (memory_tasks_conserved demo "q" demo_reachable)). Defined.

Lemma memory_attempts_exact_witness :
  Forall (λ t, 0 ≤ Attempts t ≤ MaxRetries t) (a_pending (abs (s_mem demo) "q")).
Proof. apply Forall_forall. exact (proj1 (memory_attempts_exact demo "q" demo_reachable)). Defined.

Lemma memory_tasks_keep_identity_witness :
  Forall (λ t, Queue t = "q" ∧ ∃ t0, t0 ∈ g_enq (s_ghost demo "q") ∧ same_identity t0 t)
    (a_pending (abs (s_mem demo) "q") ++ handling "q" (s_workers demo) ++
       a_dead (abs (s_mem demo) "q")).
Proof. apply Forall_forall. exact (memory_tasks_keep_identity demo "q" demo_reachable). Defined.

(** ** Wakeups *)

Lemma reachable_wake s : reachable step sys_init s → sys_ok s ∧ wake_ok s.
Proof.
  apply (reachable_invariant step (λ s, sys_ok s ∧ wake_ok s)).
  - intros e s1 s2 [Hs Hw] Hstep. split; [by eapply sys_ok_step|by eapply wake_ok_step].
  - split; [apply sys_init_ok|]. intros w Hw. by apply not_elem_of_nil in Hw.
Qed.

(** C14. No wakeup is lost: while a worker sleeps and a task of its queue is
    pending, either its channel was closed, and it can go on at once; or the
    task was not due when the worker read the clock in [claim], and its timer
    has fired once the task is due and as much time again has passed as the
    worker spent between that reading, [since], and the start of the timer,
    [armed]. *)
Theorem memory_no_lost_wakeup s i w since wait armed ch t :
  reachable step sys_init s → s_steps s < max_int64 →
  s_workers s !! i = Some w → w_pc w = Waiting since wait armed ch →
  t ∈ a_pending (abs (s_mem s) (w_queue w)) →
  is_Some (step (Woken i) s) ∨
  (since < RunAt t ∧ (RunAt t + (armed - since) ≤ s_now s → is_Some (step (TimedOut i) s))).
Proof.
  intros Hr Hlt Hi Hpc Ht. destruct (reachable_wake s Hr) as [Hs Hw].
  specialize (Hw w (list_elem_of_lookup_2 _ _ _ Hi)). rewrite Hpc in Hw.
  destruct Hw as (Hpos & _ & Hopen). unfold step. rewrite !decide_True by done. simpl.
  rewrite Hi; simpl. rewrite Hpc.
  destruct (decide (is_closed ch (mem_chans (s_mem s)))) as [Hcl|Hcl]; [left; simpl; eauto|right].
  destruct (Hopen Hcl) as (q & Hq & _ & Hall).
  unfold abs in Ht. rewrite Hq in Ht. simpl in Ht.
  apply list_elem_of_fmap in Ht as (item & -> & Hin). rewrite delivery_order_Permutation in Hin.
  specialize (Hall item Hin). split; [lia|]. intros Hdue.
  rewrite decide_True by (unfold timer_deadline; lia). simpl; eauto.
Qed.

(** The retry of "a" is due while the second worker sleeps. *)
Definition demo_late : sys := default sys_init (run step (demo_events ++ [Tick (10 * Second)]) sys_init).

Lemma demo_late_reachable : reachable step sys_init demo_late.
Proof. apply runs_reachable. vm_compute. reflexivity. Defined.

Definition demo_retry : Task := default (set_Attempts 0 (new_task 0 "" "" None []))
  (head (a_pending (abs (s_mem demo_late) "q"))).

Lemma memory_no_lost_wakeup_witness :
  is_Some (step (Woken 1) demo_late) ∨
  (1005 < RunAt demo_retry ∧
    (RunAt demo_retry + (1005 - 1005) ≤ s_now demo_late → is_Some (step (TimedOut 1) demo_late))).
Proof.
  apply (memory_no_lost_wakeup demo_late 1 demo_worker 1005 (10 * Second) 1005 4 demo_retry).
  - exact demo_late_reachable.
  - vm_compute. reflexivity.
  - vm_compute. reflexivity.
  - reflexivity.
  - apply list_elem_of_lookup_2 with 0%nat. vm_compute. reflexivity.
Defined.

(** ** Stopping *)

Lemma reachable_done s : reachable step sys_init s → sys_ok s ∧ done_ok s.
Proof.
  apply (reachable_invariant step (λ s, sys_ok s ∧ done_ok s)).
  - intros e s1 s2 [Hs Hd] Hstep. split; [by eapply sys_ok_step|by eapply done_ok_step].
  - split; [apply sys_init_ok|]. intros k sub Hk. simpl in Hk. by rewrite lookup_nil in Hk.
Qed.

(** C20. When [Stop] returns nil every worker of the subscription has returned: no
    handler of it is running and none will run. *)
Theorem memory_stop_waits s k sub :
  reachable step sys_init s → s_subs s !! k = Some sub →
  (∃ ctxErr, Stop_select sub (mem_chans (s_mem s)) ctxErr None) →
  ∀ w, w ∈ s_workers s → w_sub w = k → w_pc w = Exited.
Proof.
  intros Hr Hk [ctxErr Hsel] w Hw Hwk. destruct (reachable_done s Hr) as [_ Hd].
  inversion Hsel as [Hcl|]; subst. specialize (Hd _ sub Hk Hcl).
  unfold all_exited in Hd. rewrite Forall_forall in Hd. by apply Hd.
Qed.

(** C18. A stopped pool drains. In every execution that starts once the stop
    channel is closed, whatever clients, other pools and handlers do meanwhile:
    each worker of the pool takes at most four steps of its own, and has
    returned when it has taken four; as long as it has not returned it can make
    a step, in a handler whatever the handler returns; and when all have
    returned, the done channel is closed or its goroutine can close it.
    Executions are shorter than 2^63 - 1 events. *)
Theorem memory_stopped_pool_drains s k es s' :
  reachable step sys_init s → stopping k s → run step es s = Some s' → s_steps s' < max_int64 →
  (∀ i w', s_workers s' !! i = Some w' → w_sub w' = k →
     (own_steps i es ≤ 4)%nat ∧ (own_steps i es = 4%nat → w_pc w' = Exited) ∧ can_go_on i w' s') ∧
  (all_exited k (s_workers s') → ∃ sub, s_subs s' !! k = Some sub ∧
     (is_closed (done_ sub) (mem_chans (s_mem s')) ∨
      ∃ s'', step (CloseDone k) s' = Some s'' ∧ is_closed (done_ sub) (mem_chans (s_mem s'')))).
Proof.
  intros Hr Hstop Hrun Hlt. destruct (reachable_done s Hr) as [Hs _].
  assert (sys_ok s' ∧ stopping k s') as [Hs' Hstop'].
  { apply (run_invariant step (λ s, sys_ok s ∧ stopping k s) es s); [|done|done].
    intros e s1 s2 [H1 H2] He. split; [by eapply sys_ok_step|by eapply memory_stopping_step]. }
  split.
  - intros i w' Hi Hk. destruct (pool_run k i es s s' w' Hs Hstop Hrun Hi Hk) as (w & _ & _ & Hle).
    pose proof (rank_le (w_pc w)). split_and!; [lia|intros; apply rank_0; lia|].
    apply pool_progress; [done..|by rewrite Hk].
  - intros Hex. destruct Hstop' as (sub & Hsub & _). exists sub. split; [done|]. by apply pool_closes.
Qed.

(** The subscription is stopped while one worker handles "b". *)
Definition demo_stopping : sys := default sys_init (run step (demo_events ++ [Stop 0]) sys_init).

Lemma demo_stopping_reachable : reachable step sys_init demo_stopping.
Proof. apply runs_reachable. vm_compute. reflexivity. Defined.

Definition demo_sub : subscription := mkSub 2 3 true.

Definition demo_drain : list event :=
  [Finish 0 nil_handler; Stopped 1; Run 0; CloseDone 0].

(** Both workers return, one after its handler has failed, and the channel is
    closed. *)
Definition demo_draining (n : nat) : sys := default sys_init (run step (take n demo_drain) demo_stopping).

Lemma memory_stopped_pool_drains_witness :
  (∀ h, is_Some (step (Finish 0 h) demo_stopping)) ∧
  ∃ s'', step (CloseDone 0) (demo_draining 3) = Some s'' ∧ is_closed (done_ demo_sub) (mem_chans (s_mem s'')).
Proof.
  assert (stopping 0 demo_stopping) as Hstop.
  { exists demo_sub. split; [vm_compute; reflexivity|].
    apply (bool_decide_unpack _). vm_compute. exact I. }
  split.
  - destruct (memory_stopped_pool_drains demo_stopping 0 [] demo_stopping demo_stopping_reachable Hstop)
      as [Hw _]; [reflexivity|vm_compute; reflexivity|].
    apply (Hw 0%nat demo_busy); vm_compute; reflexivity.
  - destruct (memory_stopped_pool_drains demo_stopping 0 (take 3 demo_drain) (demo_draining 3)
      demo_stopping_reachable Hstop) as [_ Hc]; [vm_compute; reflexivity..|].
    destruct Hc as (sub & Hsub & Hclosed).
    { apply all_exitedb_spec. vm_compute. reflexivity. }
    assert (sub = demo_sub) as ->.
    { vm_compute in Hsub. injection Hsub as <-. reflexivity. }
    destruct Hclosed as [Hcl|Hcl]; [|exact Hcl].
    apply (bool_decide_pack _) in Hcl. vm_compute in Hcl. destruct Hcl.
Defined.

Definition demo_stopped : sys := default sys_init (run step (demo_events ++ Stop 0 :: demo_drain) sys_init).

Lemma demo_stopped_reachable : reachable step sys_init demo_stopped.
Proof. apply runs_reachable. vm_compute. reflexivity. Defined.

Lemma memory_stop_waits_witness :
  all_exited 0 (s_workers demo_stopped).
Proof.
  unfold all_exited. apply Forall_forall. apply (memory_stop_waits demo_stopped 0 demo_sub demo_stopped_reachable).
  - vm_compute. reflexivity.
  - exists None. constructor. apply (bool_decide_unpack _). vm_compute. exact I.
Defined.

(** ** Panics *)

(** C25. Nothing panics: in every reachable state every legal client call, every
    step of a worker and every [Stop], called any number of times, goes
    through; closing a channel twice or indexing out of range never happens. *)
Theorem memory_never_panics s :
  reachable step sys_init s → s_steps s < max_int64 →
  (∀ name p, call_ok s name p → is_Some (step (Call name p) s)) ∧
  (∀ i w, s_workers s !! i = Some w →
     match w_pc w with
     | AtTop | AtClaim | Arming _ _ _ => is_Some (step (Run i) s)
     | Handling _ => ∀ h, is_Some (step (Finish i h) s)
     | Waiting _ _ _ _ | Exited => True
     end) ∧
  (∀ k sub, s_subs s !! k = Some sub → is_Some (step (Stop k) s)).
Proof.
  intros Hr Hlt. destruct (reachable_done s Hr) as [Hs _]. split_and!.
  - intros name p Hp. apply step_core_step; [done|]. simpl. rewrite decide_True by done.
    destruct (exec_total name p s Hs Hlt (call_op_ok _ _ _ Hp)) as [[r m] ->]. simpl; eauto.
  - intros i w Hi. assert (w ∈ s_workers s) as Hw by (by eapply list_elem_of_lookup_2).
    destruct (w_pc w) as [| |t|since wait ch| |] eqn:Hpc; try done;
      try (apply step_core_step; [done|]).
    + destruct (lookup_lt_is_Some_2 (s_subs s) (w_sub w)) as [sub Hsub]; [by apply Hs|].
      simpl. rewrite Hi; simpl. unfold run_worker. rewrite Hpc, Hsub; simpl.
      case_decide; simpl; eauto.
    + destruct (claim_total s w Hs Hlt) as (t & wait & ch & m & Hc & Hch).
      simpl. rewrite Hi; simpl. unfold run_worker. rewrite Hpc, Hc; simpl.
      destruct t as [t|]; [simpl; eauto|]. destruct Hch as [k ->]; simpl; eauto.
    + intros h. apply step_core_step; [done|].
      destruct (complete_total s w t (invokeHandler h (cloneTask t)).2 Hs Hlt Hw)
        as [m Hc].
      simpl. rewrite Hi; simpl. unfold finish_worker. rewrite Hpc, Hc. simpl; eauto.
    + simpl. rewrite Hi; simpl. unfold run_worker. rewrite Hpc. simpl; eauto.
  - intros k sub Hk. apply step_core_step; [done|]. simpl. rewrite Hk; simpl.
    destruct (Stop_once_total _ _ k sub (sk_subs s Hs) Hk) as [[sub' c] ->]. simpl; eauto.
Qed.

Lemma memory_never_panics_witness :
  is_Some (step (Finish 0 (panicking "nil map")) demo) ∧ is_Some (step (Stop 0) demo_stopped).
Proof.
  split.
  - apply (proj1 (proj2 (memory_never_panics demo demo_reachable eq_refl)) 0%nat demo_busy).
    vm_compute. reflexivity.
  - apply (proj2 (proj2 (memory_never_panics demo_stopped demo_stopped_reachable eq_refl)) 0%nat
      demo_sub). vm_compute. reflexivity.
Defined.

(** ** Errors and panics of handlers *)

(** A handler that panics counts as a failed attempt: the task it was given
    stays in the queue, with the next attempt after the backoff, or joins the
    dead letters with the panic as its last error. *)
Theorem memory_panic_is_a_failure now name h o t task' r m :
  memory_ok m → has_room name m → opts_ok o → h (cloneTask t) = (task', Panicked r) →
  ∃ m', complete now name t (invokeHandler h (cloneTask t)).2 o m = Some m' ∧
    let e := "workqueue handler panic: " +:+ r in
    abs m' name =
      if decide (MaxRetries t < Attempts t)
      then mkAQueue (a_pending (abs m name))
             (a_dead (abs m name) ++ [set_DiedAt now (set_LastError e t)])
      else mkAQueue (a_insert (set_RunAt (now + retry_delay o (Attempts t)) t)
                       (a_pending (abs m name))) (a_dead (abs m name)).
Proof.
  intros Hm Hroom Ho Hh. unfold invokeHandler. rewrite Hh; simpl.
  destruct (complete_refines name now t (Some ("workqueue handler panic: " +:+ r)) o m
    Hm Hroom Ho) as (rs & m1 & He & _ & Hs & _).
  apply bind_Some in He as (m' & Hc & [= <- <-]). exists m'. split; [done|].
  simpl in Hs. by case_decide; injection Hs.
Qed.

Lemma demo_mem_room name : has_room name demo_mem.
Proof.
  intros q Hq.
  assert (map_Forall (λ _ q, seq q < max_int64) (queues demo_mem)) as Hall.
  { apply (bool_decide_unpack _). vm_compute. exact I. }
  by apply (Hall name).
Qed.

Lemma memory_panic_is_a_failure_witness :
  ∃ m', complete 50 "q" (new_task 10 "a" "q" None [WithMaxRetries 0]) (Some "workqueue handler panic: x")
    (NewConsumeOptions []) demo_mem = Some m'.
Proof.
  destruct (memory_panic_is_a_failure 50 "q" (panicking "x") (NewConsumeOptions [])
    (new_task 10 "a" "q" None [WithMaxRetries 0]) (cloneTask (new_task 10 "a" "q" None [WithMaxRetries 0]))
    "x" demo_mem demo_mem_ok (demo_mem_room "q")) as (m' & H & _).
  - split; vm_compute; split; discriminate.
  - reflexivity.
  - exists m'. exact H.
Defined.

(** ** A page whose end overflows *)

(** [ListDeadTasks] adds the offset and the limit as ints: when the sum passes
    the largest int it wraps to a negative end and the slice panics, although
    the page is an ordinary one, the rest of the dead letters. *)
Theorem ListDeadTasks_overflow_panics name limit offset m q :
  queues m !! name = Some q → Z.of_nat (length (dead q)) ≤ max_int64 →
  0 < offset < Z.of_nat (length (dead q)) →
  in_int64 limit → in_int64 offset → max_int64 < offset + limit →
  ListDeadTasks name limit offset m = None ∧
  page limit offset (a_dead (abs m name)) = drop (Z.to_nat offset) (dead q).
Proof.
  unfold in_int64. intros Hq Hlen Hoff Hlim Hoff' Hsum.
  assert (wrap64 (offset + limit) = offset + limit - two64) as Hwrap.
  { unfold wrap64. replace ((offset + limit - min_int64) mod two64)
      with (offset + limit - min_int64 - two64); [lia|]. apply (Z.mod_unique _ _ 1); lia. }
  split.
  - unfold ListDeadTasks, queue. rewrite Hq. cbv zeta.
    rewrite (decide_False (P := offset < 0)) by lia.
    rewrite (decide_False (P := _ ≤ offset)) by lia. rewrite Hwrap.
    rewrite (decide_True (P := 0 < limit ∧ _)) by lia.
    unfold slice. by rewrite (decide_False (P := 0 ≤ offset ≤ _ ∧ _)) by lia.
  - unfold abs, page. rewrite Hq; simpl. rewrite decide_True by lia.
    apply take_ge. rewrite length_drop. lia.
Qed.

Definition demo_dead : MemoryWorkQueue :=
  put_queue "q" (mkQueue [] 0 [new_task 1 "a" "q" None []; new_task 2 "b" "q" None []] 0)
    no_chans (New no_chans).

Lemma ListDeadTasks_overflow_panics_witness :
  ListDeadTasks "q" max_int64 1 demo_dead = None.
Proof.
  destruct (ListDeadTasks_overflow_panics "q" max_int64 1 demo_dead
    (mkQueue [] 0 [new_task 1 "a" "q" None []; new_task 2 "b" "q" None []] 0)) as [H _].
  - reflexivity.
  - simpl. lia.
  - simpl. lia.
  - vm_compute. split; discriminate.
  - vm_compute. split; discriminate.
  - lia.
  - exact H.
Defined.
