(* ===== verification/MemoryOrder.v ===== *)
(** * The order of the dead letters of the in-memory backend

    ListDeadTasks promises dead letters oldest first. The dead list of a queue
    is only appended to, at the time of the append, and elements are cut out
    of it, so in every execution it stays sorted by DiedAt. *)

From stdpp Require Import base tactics list numbers option gmap sorting strings.
From S2P Require Import Prelude GoRuntime Contract Options Memory MemorySpec Lifecycle Subscription MemorySystem MemoryShutdown MemoryProps.

Definition died_before (t u : Task) : Prop := DiedAt t ≤ DiedAt u.

(** Sorted by the time of death, and nobody died in the future. *)
Definition dead_ordered (now : time) (l : list Task) : Prop :=
  StronglySorted died_before l ∧ Forall (λ t, DiedAt t ≤ now) l.

Lemma dead_ordered_mono now now' l : now ≤ now' → dead_ordered now l → dead_ordered now' l.
Proof. intros Hle [Hs Hf]. split; [done|]. eapply Forall_impl; [exact Hf|]. simpl. lia. Qed.

Lemma sublist_Forall {A} (P : A → Prop) l k : l `sublist_of` k → Forall P k → Forall P l.
Proof. intros Hsub. rewrite !Forall_forall. intros Hk x Hx. apply Hk. by eapply elem_of_sublist. Qed.

(** A sublist of an ordered list is ordered. *)
Lemma dead_ordered_sublist now l k : l `sublist_of` k → dead_ordered now k → dead_ordered now l.
Proof.
  intros Hsub [Hs Hf]. split; [|by eapply sublist_Forall].
  clear Hf. induction Hsub as [|t l k Hsub IH|t l k Hsub IH]; [done|..];
    apply StronglySorted_inv in Hs as [Hs Hall]; [|by apply IH].
  constructor; [by apply IH|by eapply sublist_Forall].
Qed.

Lemma dead_ordered_snoc now l t :
  DiedAt t = now → dead_ordered now l → dead_ordered now (l ++ [t]).
Proof.
  intros Ht [Hs Hf]. split; [|by apply Forall_app; split; [|constructor; [lia|]]].
  induction Hs as [|u l Hs IH Hall]; simpl; [by repeat constructor|].
  apply Forall_cons in Hf as [Hu Hf]. constructor; [by apply IH|].
  apply Forall_app. split; [done|]. constructor; [|done]. unfold died_before. lia.
Qed.

Lemma died_before_clones l :
  StronglySorted died_before l → StronglySorted (λ t u, DiedAt t ≤ DiedAt u) (map cloneTask l).
Proof.
  induction 1 as [|t l Hs IH Hall]; simpl; constructor; [done|]. by apply Forall_fmap.
Qed.

Lemma remove_at_sublist {A} i (l : list A) : remove_at i l `sublist_of` l.
Proof.
  unfold remove_at. rewrite <- (take_drop i l) at 3.
  apply sublist_app; [done|]. rewrite <- (Nat.add_1_r i), <- drop_drop. apply sublist_drop.
Qed.

Lemma page_sublist {A} limit offset (l : list A) : page limit offset l `sublist_of` l.
Proof.
  unfold page. case_decide; [etrans; [apply sublist_take|]|]; apply sublist_drop.
Qed.

(** ** One operation *)

(** The clock readings of an operation are those of the system. *)
Definition op_at (now : time) (p : op) : Prop :=
  match p with OpComplete now' _ _ _ => now' = now | _ => True end.

Lemma spec_exec_ordered name p now a :
  op_at now p → dead_ordered now (a_dead a) → dead_ordered now (a_dead (spec_exec name p a).2).
Proof.
  intros Hp Ha. destruct p as [n' uuid payload opts|n'|n' t [err|] o|lim off|n' id|id]; simpl in *.
  - done.
  - destruct (a_pending a) as [|t rest]; [done|]. by case_decide.
  - case_decide; [|done]. by apply dead_ordered_snoc.
  - done.
  - done.
  - destruct (find_dead id (a_dead a)) as [[i t]|]; [|done].
    eapply dead_ordered_sublist; [apply remove_at_sublist|done].
  - destruct (find_dead id (a_dead a)) as [[i t]|]; [|done].
    eapply dead_ordered_sublist; [apply remove_at_sublist|done].
Qed.

(** ** Every execution *)

Definition ordered (s : sys) : Prop := ∀ n, dead_ordered (s_now s) (a_dead (abs (s_mem s) n)).

Lemma ordered_exec s name p r m :
  sys_ok s → s_steps s < max_int64 → op_ok p → op_at (s_now s) p →
  mem_exec name p (s_mem s) = Some (r, m) → ordered s →
  ∀ n, dead_ordered (s_now s) (a_dead (abs m n)).
Proof.
  intros Hs Hlt Hok Hat He Hord n.
  destruct (mem_exec_Some name p (s_mem s) r m) as (_ & Hspec & Hoth & _);
    [apply Hs|by apply sys_room|done|done|].
  destruct (decide (n = name)) as [->|Hne]; [|rewrite Hoth by done; apply Hord].
  replace (abs m name) with ((r, abs m name).2) by done. rewrite Hspec.
  by apply spec_exec_ordered.
Qed.

Lemma call_op_at s name p : call_ok s name p → op_at (s_now s) p.
Proof. by destruct p. Qed.

Lemma ordered_shape e s s1 :
  sys_ok s → s_steps s < max_int64 → step_shape s e s1 → ordered s → ordered s1.
Proof.
  intros Hs Hlt Hstep Hord.
  assert (∀ i w, s_workers s !! i = Some w → opts_ok (w_opts w)) as Hopts
    by (intros i w Hi; apply (sk_opts s Hs w); by eapply list_elem_of_lookup_2).
  destruct Hstep as [d Hd|name p r m Hcall He|name opts Ho|k sub sub' c Hk Hst|k sub c Hk Hall Hc
    |i w t wait ch m Hi Hpc Hc|i w wait ch m Hi Hpc Hc|i w h t m Hi Hpc Herr Hc
    |i w h t err m Hi Hpc Herr Hc|i w pc e Hi Hn Hn' Hm]; try done.
  - intros n. eapply dead_ordered_mono; [|apply Hord]. simpl. lia.
  - exact (ordered_exec s name p r m Hs Hlt (call_op_ok _ _ _ Hcall) (call_op_at _ _ _ Hcall) He Hord).
  - exact (ordered_exec s _ (OpClaim _) _ _ Hs Hlt I I (claim_exec _ _ _ _ _ _ _ Hc) Hord).
  - exact (ordered_exec s _ (OpClaim _) _ _ Hs Hlt I I (claim_exec _ _ _ _ _ _ _ Hc) Hord).
  - exact (ordered_exec s _ (OpComplete _ _ _ _) _ _ Hs Hlt (Hopts i w Hi) eq_refl
             (complete_exec _ _ _ _ _ _ _ Hc) Hord).
  - exact (ordered_exec s _ (OpComplete _ _ _ _) _ _ Hs Hlt (Hopts i w Hi) eq_refl
             (complete_exec _ _ _ _ _ _ _ Hc) Hord).
Qed.

Lemma reachable_ordered s : reachable step sys_init s → sys_ok s ∧ ordered s.
Proof.
  apply (reachable_invariant step (λ s, sys_ok s ∧ ordered s)).
  - intros e s1 s2 [Hs Ho] Hstep. split; [by eapply sys_ok_step|].
    apply step_Some in Hstep as (Hlt & s' & Hcore & ->).
    exact (ordered_shape e s1 s' Hs Hlt (step_core_shape _ _ _ Hcore) Ho).
  - split; [apply sys_init_ok|]. intros n. split; constructor.
Qed.

(** C27. Dead letters are listed oldest first: in every reachable state
    [ListDeadTasks] answers with the page of the queue's dead tasks, sorted by
    the time of death, each of this queue, with its whole retry budget used and
    dead no later than now, and the queues stay as they are. The one exception
    is a page that starts inside the list and whose end, offset plus limit, is
    past the largest int: there it panics. *)
Theorem memory_dead_oldest_first s name limit offset :
  reachable step sys_init s → s_steps s < max_int64 → in_int64 limit → in_int64 offset →
  if page_overflows limit offset (Z.of_nat (length (a_dead (abs (s_mem s) name))))
  then ListDeadTasks name limit offset (s_mem s) = None
  else ∃ l m, ListDeadTasks name limit offset (s_mem s) = Some (l, m) ∧
    l = map cloneTask (page limit offset (a_dead (abs (s_mem s) name))) ∧
    StronglySorted (λ t u, DiedAt t ≤ DiedAt u) l ∧
    Forall (λ t, Queue t = name ∧ Attempts t = MaxRetries t + 1 ∧ DiedAt t ≤ s_now s) l ∧
    ∀ n, abs m n = abs (s_mem s) n.
Proof.
  intros Hr Hlt Hlim Hoff. destruct (reachable_ordered s Hr) as [Hs Ho].
  destruct (page_overflows _ _ _) eqn:Hov; [by apply ListDeadTasks_panics; [apply Hs|..]|].
  destruct (ListDeadTasks_refines name limit offset (s_mem s)) as (r & m & He & _ & Hspec & Hoth & _);
    [apply Hs|done|done|].
  simpl in He, Hspec. apply bind_Some in He as ([l m1] & Hl & [= <- <-]).
  injection Hspec as -> Habs. exists (map cloneTask (page limit offset (a_dead (abs (s_mem s) name)))), m1.
  pose proof (dead_ordered_sublist _ _ _ (page_sublist limit offset _) (Ho name)) as [Hsort Hnow].
  split_and!; [done|done| | |].
  - by apply died_before_clones.
  - apply Forall_forall. intros t (u & -> & Hu)%list_elem_of_fmap.
    rewrite Forall_forall in Hnow. specialize (Hnow u Hu).
    eapply elem_of_sublist in Hu; [|apply page_sublist].
    destruct (reachable_life s name Hr) as [_ Hlife].
    split_and!; [|exact (proj2 (life_deadl _ Hlife u Hu))|done].
    apply (memory_tasks_keep_identity s name Hr u). rewrite !elem_of_app. by right; right.
  - intros n. destruct (decide (n = name)) as [->|Hne]; [done|by apply Hoth].
Qed.

(** ** An execution in which two tasks die *)

Definition dying_events : list event := [
  Tick 1000; Call "q" (OpEnqueue 1000 "a" None [WithMaxRetries 0]);
  Call "q" (OpEnqueue 1000 "b" None [WithMaxRetries 0]);
  Subscribe "q" demo_opts; Run 0; Run 0; Run 1; Run 1;
  Tick 5; Finish 1 (failing "late"); Tick 5; Finish 0 (failing "later")
].

Definition dying : sys := default sys_init (run step dying_events sys_init).

Lemma dying_reachable : reachable step sys_init dying.
Proof. apply runs_reachable. vm_compute. reflexivity. Defined.

(** The task that was claimed last died first. *)
Example dying_order :
  (λ t, (ID t, DiedAt t)) <$> a_dead (abs (s_mem dying) "q") = [("b", 1005); ("a", 1010)].
Proof. vm_compute. reflexivity. Qed.

Lemma memory_dead_oldest_first_witness :
  (∃ l m, ListDeadTasks "q" 10 0 (s_mem dying) = Some (l, m) ∧ length l = 2%nat ∧
    StronglySorted (λ t u, DiedAt t ≤ DiedAt u) l) ∧
  ListDeadTasks "q" max_int64 1 (s_mem dying) = None.
Proof.
  assert (s_steps dying < max_int64) as Hlt by (vm_compute; reflexivity).
  assert (∀ z, bool_decide (in_int64 z) = true → in_int64 z) as Hz by (intros z; apply bool_decide_eq_true).
  split.
  - pose proof (memory_dead_oldest_first dying "q" 10 0 dying_reachable Hlt) as H.
    replace (page_overflows _ _ _) with false in H by (vm_compute; reflexivity).
    destruct H as (l & m & Hl & Heq & Hs & _); [apply Hz; vm_compute; reflexivity..|].
    exists l, m. split; [exact Hl|]. split; [|exact Hs]. rewrite Heq. vm_compute. reflexivity.
  - pose proof (memory_dead_oldest_first dying "q" max_int64 1 dying_reachable Hlt) as H.
    replace (page_overflows _ _ _) with true in H by (vm_compute; reflexivity).
    apply H; apply Hz; vm_compute; reflexivity.
Defined.
