(* ===== verification/MemoryFailing.v ===== *)
(** * A task whose handler always fails

    The contract promises that a handler is invoked at most MaxRetries + 1
    times for a task, and that the task then is a dead letter. Here a task is
    followed through executions of the whole in-memory backend, with other
    tasks, workers and clients around it: it can only be where its attempts
    say, and a worker of its queue can always bring it to its end. *)

From stdpp Require Import base tactics list numbers option gmap sorting strings.
From S2P Require Import Prelude GoRuntime Contract Options Memory MemorySpec Lifecycle Subscription MemorySystem MemoryShutdown MemoryProps.

(** ** Handlers that fail *)

(** The handler returns an error for this task, or panics; with other tasks it
    does what it likes. *)
Definition fails_on (id : string) (h : Handler) : Prop :=
  ∀ t, ID t = id → is_Some (invokeHandler h t).2.

(** The events that end a task's life otherwise, or start a new one, do not
    happen. *)
Definition keeps_failing (name id : string) (e : event) : Prop :=
  match e with
  | Finish _ h => fails_on id h
  | Call n (OpRequeue _ i) | Call n (OpDelete i) => ¬ (n = name ∧ i = id)
  | _ => True
  end.

(** The invocations of handlers for a task since it was enqueued or requeued. *)
Definition invocations (name id : string) (s : sys) : Z :=
  Z.of_nat (length (attempts_of id (g_log (s_ghost s name)))).

(** Acknowledged, or deleted from the dead letters. *)
Definition gone (name id : string) (s : sys) : Prop :=
  id ∈ ID <$> g_fin (s_ghost s name) ++ g_del (s_ghost s name).

(** ** It stays where its attempts say *)

Lemma upd_ghost_cases (P : ghost → Prop) name f g n :
  P (g n) → (n = name → P (g n) → P (f (g n))) → P (upd_ghost name f g n).
Proof. intros Hg Hf. unfold upd_ghost. case_decide as Hn; [subst; auto|done]. Qed.

(** No event but a return of nil and a deletion ends the life of a task. *)
Lemma not_gone_step name id e s s' :
  sys_ok s → keeps_failing name id e → step e s = Some s' → ¬ gone name id s → ¬ gone name id s'.
Proof.
  intros Hs Hk (Hlt & s1 & Hcore%step_core_shape & ->)%step_Some Hn. unfold gone in *. simpl.
  destruct Hcore as [d Hd|n p r m Hcall He|n opts Ho|k sub sub' c Hk' Ho|k sub c Hk' Hall Hc
    |i w t wait ch m Hi Hpc Hc|i w wait ch m Hi Hpc Hc|i w h t m Hi Hpc Herr Hc
    |i w h t err m Hi Hpc Herr Hc|i w pc e' Hi Hnw Hnot Hmove]; try exact Hn; simpl.
  - apply (upd_ghost_cases (λ g, id ∉ ID <$> g_fin g ++ g_del g)); [exact Hn|]. intros Hname Hg.
    destruct p as [| | | |now i|i], r as [| | | |[]]; simpl in *; try exact Hg.
    destruct (find_dead i _) as [[j u]|] eqn:Hf; [|exact Hg]. simpl.
    apply find_dead_Some in Hf as [_ Hu]. rewrite fmap_app in Hg |- *. csimpl.
    rewrite elem_of_app in Hg. rewrite elem_of_app, elem_of_cons. intros [?|[?|?]]; [tauto| |tauto].
    apply Hk. split; congruence.
  - by apply (upd_ghost_cases (λ g, id ∉ ID <$> g_fin g ++ g_del g)).
  - apply (upd_ghost_cases (λ g, id ∉ ID <$> g_fin g ++ g_del g)); [exact Hn|]. intros Hname Hg.
    csimpl. intros [Heq|?]%elem_of_cons; [|done].
    destruct (Hk (cloneTask t)) as [x Hx]; [done|]. congruence.
Qed.

(** What was enqueued stays in the history. *)
Lemma enqueued_step name t e s s' :
  step e s = Some s' → t ∈ g_enq (s_ghost s name) → t ∈ g_enq (s_ghost s' name).
Proof.
  intros (Hlt & s1 & Hcore%step_core_shape & ->)%step_Some Ht. simpl.
  destruct Hcore as [| n p r m Hcall He|n opts Ho| | | | | | |]; try exact Ht; simpl.
  - apply (upd_ghost_cases (λ g, t ∈ g_enq g)); [exact Ht|]. intros Hname Hg.
    destruct p, r as [| | | |[]]; simpl; try exact Hg; [by right|]. by case_match; [destruct p|].
  - by apply (upd_ghost_cases (λ g, t ∈ g_enq g)).
  - by apply (upd_ghost_cases (λ g, t ∈ g_enq g)).
Qed.

(** Where a task of [invocations] handler calls is. *)
Definition placed (name : string) (t : Task) (s : sys) : Prop :=
  ∃ t', same_identity t t' ∧ Attempts t' = invocations name (ID t) s ∧
    ((t' ∈ a_pending (abs (s_mem s) name) ∧ Attempts t' ≤ MaxRetries t) ∨
     (t' ∈ handling name (s_workers s) ∧ 1 ≤ Attempts t' ≤ MaxRetries t + 1) ∨
     (t' ∈ a_dead (abs (s_mem s) name) ∧ Attempts t' = MaxRetries t + 1)).

(** A task with the identifier of an enqueued one is that one. *)
Lemma enqueued_identity l t t' :
  life_ok l → t ∈ enq l → task_ok (enq l) (log l) t' → ID t' = ID t → 0 ≤ Attempts t' →
  same_identity t t' ∧ Attempts t' = Z.of_nat (length (attempts_of (ID t) (log l))).
Proof.
  intros Hl Ht [(t0 & Ht0 & Hid0) Hatt] Hid Hpos. split.
  - replace t with t0; [done|]. pose proof (life_nodup _ Hl) as Hnd.
    apply list_elem_of_lookup in Ht as [i Hi], Ht0 as [j Hj].
    assert (i = j) as ->; [|congruence]. eapply (NoDup_lookup _ i j (ID t) Hnd); rewrite list_lookup_fmap.
    + by rewrite Hi.
    + rewrite Hj; csimpl. f_equal. rewrite <- Hid. apply Hid0.
  - rewrite <- Hid, Hatt, length_countdown. lia.
Qed.

Lemma task_placed name t s :
  reachable step sys_init s → t ∈ g_enq (s_ghost s name) → ¬ gone name (ID t) s → placed name t s.
Proof.
  intros Hr Ht Hn. destruct (reachable_life s name Hr) as [_ Hl].
  assert (ID t ∈ ID <$> holders (life_of name s)) as Hin.
  { rewrite (life_conserved _ Hl). by apply list_elem_of_fmap_2. }
  assert (∀ t', task_ok (g_enq (s_ghost s name)) (g_log (s_ghost s name)) t' → ID t' = ID t →
    0 ≤ Attempts t' → same_identity t t' ∧ Attempts t' = invocations name (ID t) s) as Hok.
  { intros t' Hto. by apply (enqueued_identity (life_of name s) t t' Hl Ht Hto). }
  unfold holders, life_of in Hin; simpl in Hin. unfold gone in Hn.
  rewrite !fmap_app, !elem_of_app in Hin. rewrite fmap_app, elem_of_app in Hn.
  destruct Hin as [Hin|[Hin|[Hin|Hin]]]; [..|by destruct Hn];
    apply list_elem_of_fmap in Hin as (t' & Hid & Hin); exists t'.
  - destruct (life_pend _ Hl t' Hin) as [Hto Hb]. destruct (Hok t') as [Hsame Ha]; [done..|lia|].
    split_and!; [done|done|left]. split; [done|]. destruct Hsame as (_ & _ & _ & _ & -> & _). lia.
  - destruct (life_runn _ Hl t' Hin) as [Hto Hb]. destruct (Hok t') as [Hsame Ha]; [done..|lia|].
    split_and!; [done|done|right; left]. split; [done|]. destruct Hsame as (_ & _ & _ & _ & -> & _). lia.
  - destruct (life_deadl _ Hl t' Hin) as [Hto Hb].
    destruct (Hok t') as [Hsame Ha]; [done..| |].
    { destruct Hto as [(t0 & Ht0 & Hid0) _]. pose proof (life_budget _ Hl t0 Ht0).
      destruct Hid0 as (_ & _ & _ & _ & Hm & _). lia. }
    split_and!; [done|done|right; right]. split; [done|]. destruct Hsame as (_ & _ & _ & _ & -> & _). lia.
Qed.

(** ** A worker can bring it to its end *)

(** Worker [i] is at the top of its loop, and its pool was not stopped. *)
Record serving (i : nat) (w : worker) (s : sys) : Prop := {
  sv_ok : sys_ok s;
  sv_worker : s_workers s !! i = Some w;
  sv_top : w_pc w = AtTop;
  sv_open : ∃ sub, s_subs s !! w_sub w = Some sub ∧ ¬ is_closed (stopCh sub) (mem_chans (s_mem s))
}.

(** Nothing but Stop closes a stop channel. *)
Lemma evolves_stop name m s sub :
  sys_ok s → evolves name (s_mem s) m → sub ∈ s_subs s →
  ¬ is_closed (stopCh sub) (mem_chans (s_mem s)) → ¬ is_closed (stopCh sub) (mem_chans m).
Proof.
  intros Hs Hev Hin Hn Hcl.
  assert (stopCh sub ∈ s_subs s ≫= sub_chans) as Hch by (eapply elem_of_sub_chans; [done|by left]).
  destruct (ev_closed _ _ _ Hev _ Hcl) as [?|[Hm|(q & Hq & Heq)]]; [done| |].
  - destruct Hm. by eapply subs_made; [apply Hs|].
  - by destruct (sk_notify s Hs _ _ _ Hq Hch).
Qed.

(** What the queue becomes when its first task is handled by [h] at [now]. *)
Definition served (h : Handler) (o : ConsumeOptions) (now : time) (u : Task) (rest dead : list Task) :
    AQueue :=
  let u := incr_Attempts u in
  match (invokeHandler h (cloneTask u)).2 with
  | None => mkAQueue rest dead
  | Some e =>
      if decide (MaxRetries u < Attempts u)
      then mkAQueue rest (dead ++ [set_DiedAt now (set_LastError e u)])
      else mkAQueue (a_insert (set_RunAt (now + retry_delay o (Attempts u)) u) rest) dead
  end.

(** The events of one delivery by worker [i], after a wait. *)
Definition serve (i : nat) (h : Handler) (d : duration) : list event := [Tick d; Run i; Run i; Finish i h].

Lemma step_of e s s1 : s_steps s < max_int64 → step_core e s = Some s1 → step e s = Some (count_step s1).
Proof. intros Hlt Hc. unfold step. rewrite decide_True by done. by rewrite Hc. Qed.

(** The worker after the first [n] of them: [pc] is where it is, and its pool is
    not stopped. *)
Record at_pc (i : nat) (w : worker) (pc : wpc) (sub : subscription) (s : sys) : Prop := {
  ap_ok : sys_ok s;
  ap_worker : s_workers s !! i = Some (set_pc pc w);
  ap_sub : s_subs s !! w_sub w = Some sub;
  ap_open : ¬ is_closed (stopCh sub) (mem_chans (s_mem s))
}.

Lemma serving_at i w s : serving i w s ↔ w_pc w = AtTop ∧ ∃ sub, at_pc i w AtTop sub s.
Proof.
  assert (w_pc w = AtTop → set_pc AtTop w = w) as Hw by (destruct w; simpl; intros ->; done).
  split.
  - intros [Hs Hi Htop (sub & Hsub & Ho)]. split; [done|]. exists sub. split; [done| |done..]. by rewrite Hw.
  - intros (Htop & sub & [Hs Hi Hsub Ho]). split; [done| |done|by exists sub]. by rewrite Hi, Hw.
Qed.

(** An operation of the queue leaves the pool running. *)
Lemma at_pc_exec i w pc pc' sub name p r m s s' :
  at_pc i w pc sub s → s_steps s < max_int64 → op_ok p → mem_exec name p (s_mem s) = Some (r, m) →
  sys_ok s' → s_mem s' = m → s_subs s' = s_subs s →
  s_workers s' = <[i:=set_pc pc' (set_pc pc w)]> (s_workers s) → at_pc i w pc' sub s'.
Proof.
  intros [Hs Hi Hsub Ho] Hlt Hp He Hs' Hm Hsubs Hw. split; [done| |by rewrite Hsubs|].
  - by rewrite Hw, list_lookup_insert_eq by (by eapply lookup_lt_Some).
  - rewrite Hm. apply (evolves_stop name m s sub); [done| |by eapply list_elem_of_lookup_2|done].
    by eapply evolves_exec.
Qed.

(** The worker goes through the top of its loop. *)
Lemma serve_top i w sub d s :
  at_pc i w AtTop sub s → 0 ≤ d → s_steps s + 2 < max_int64 →
  ∃ s2, run step [Tick d; Run i] s = Some s2 ∧ at_pc i w AtClaim sub s2 ∧
    s_mem s2 = s_mem s ∧ s_now s2 = s_now s + d ∧ s_steps s2 = s_steps s + 2.
Proof.
  intros [Hs Hi Hsub Hopen] Hd Hlt. pose proof (sk_steps s Hs).
  set (s1 := count_step (mkSys (s_mem s) (s_now s + d) (s_subs s) (s_workers s) (s_ghost s) (s_steps s))).
  assert (step (Tick d) s = Some s1) as H1.
  { apply step_of; [lia|]. simpl. by rewrite decide_True. }
  assert (step (Run i) s1 = Some (count_step (set_worker i (set_pc AtClaim w) s1))) as H2.
  { apply step_of; [simpl; lia|]. simpl. rewrite Hi. simpl. unfold run_worker. simpl.
    rewrite Hsub. simpl. by rewrite decide_False. }
  eexists. simpl. rewrite H1. simpl. rewrite H2. simpl. split; [done|].
  split_and!; [|done..|simpl; lia]. split; [by eapply sys_ok_step; [eapply sys_ok_step|]| |done..].
  simpl. by rewrite list_lookup_insert_eq by (by eapply lookup_lt_Some).
Qed.

(** It claims the first task, which is due. *)
Lemma serve_claim i w sub u rest s :
  at_pc i w AtClaim sub s → s_steps s < max_int64 →
  a_pending (abs (s_mem s) (w_queue w)) = u :: rest → RunAt u ≤ s_now s →
  ∃ s', step (Run i) s = Some s' ∧ at_pc i w (Handling (incr_Attempts u)) sub s' ∧
    s_now s' = s_now s ∧ s_steps s' = s_steps s + 1 ∧
    abs (s_mem s') (w_queue w) = mkAQueue rest (a_dead (abs (s_mem s) (w_queue w))).
Proof.
  intros Hat Hlt Hp Hdue. pose proof Hat as [Hs Hi Hsub Ho].
  destruct (mem_exec_refines (w_queue w) (OpClaim (s_now s)) (s_mem s)) as (r & m & He & _ & Hspec & _);
    [apply Hs|by apply sys_room|done|].
  pose proof He as Hclaim. simpl in Hclaim.
  apply bind_Some in Hclaim as ([[[t wait] ch] m'] & Hc & [= <- <-]).
  simpl in Hspec. rewrite Hp, decide_False in Hspec by lia. injection Hspec as -> -> Habs.
  assert (step (Run i) s = Some (count_step (set_ghost
    (upd_ghost (w_queue w) (g_invoke (ID (incr_Attempts u)) (Attempts (incr_Attempts u))) (s_ghost s))
    (set_worker i (set_pc (Handling (incr_Attempts u)) (set_pc AtClaim w)) (set_mem m' s))))) as Hstep.
  { apply step_of; [done|]. unfold step_core. rewrite Hi. simpl. unfold run_worker. simpl. by rewrite Hc. }
  eexists. split; [exact Hstep|]. split_and!; [|done|done|done].
  eapply (at_pc_exec _ _ _ _ _ _ (OpClaim _)); [exact Hat|done|exact I|exact He| |done..].
  by eapply sys_ok_step.
Qed.

(** Its handler returns. *)
Lemma serve_finish i w sub h u s :
  at_pc i w (Handling u) sub s → s_steps s < max_int64 →
  ∃ s', step (Finish i h) s = Some s' ∧ at_pc i w AtTop sub s' ∧
    s_now s' = s_now s ∧ s_steps s' = s_steps s + 1 ∧
    abs (s_mem s') (w_queue w) = (spec_exec (w_queue w)
      (OpComplete (s_now s) u (invokeHandler h (cloneTask u)).2 (w_opts w)) (abs (s_mem s) (w_queue w))).2.
Proof.
  intros Hat Hlt. pose proof Hat as [Hs Hi Hsub Ho].
  assert (opts_ok (w_opts w)) as Hopts.
  { apply (sk_opts _ Hs (set_pc (Handling u) w)). by eapply list_elem_of_lookup_2. }
  set (err := (invokeHandler h (cloneTask u)).2).
  destruct (mem_exec_refines (w_queue w) (OpComplete (s_now s) u err (w_opts w)) (s_mem s))
    as (r & m & He & _ & Hspec & _); [apply Hs|by apply sys_room|done|].
  pose proof He as Hcomp. simpl in Hcomp. apply bind_Some in Hcomp as (m' & Hc & [= <- <-]).
  eexists. split.
  { apply step_of; [done|]. unfold step_core. rewrite Hi. simpl. unfold finish_worker. simpl.
    fold err. by rewrite Hc. }
  rewrite <- Hspec.
  split_and!; [|by destruct err..].
  eapply (at_pc_exec _ _ _ _ _ _ (OpComplete _ _ _ _)); [exact Hat|done|exact Hopts|exact He|
    |by destruct err..].
  eapply (sys_ok_step (Finish i h) s); [done|]. apply step_of; [done|]. unfold step_core. rewrite Hi. simpl.
  unfold finish_worker. simpl. fold err. by rewrite Hc.
Qed.

Lemma serve_first i w h d u rest s :
  serving i w s → 0 ≤ d → s_steps s + 4 < max_int64 →
  a_pending (abs (s_mem s) (w_queue w)) = u :: rest → RunAt u ≤ s_now s + d →
  ∃ s', run step (serve i h d) s = Some s' ∧ serving i w s' ∧
    s_now s' = s_now s + d ∧ s_steps s' = s_steps s + 4 ∧
    abs (s_mem s') (w_queue w) =
      served h (w_opts w) (s_now s + d) u rest (a_dead (abs (s_mem s) (w_queue w))).
Proof.
  intros [Htop [sub Hat]]%serving_at Hd Hlt Hp Hdue.
  destruct (serve_top i w sub d s Hat Hd) as (s2 & Hr2 & Hat2 & Hm2 & Hn2 & Hst2); [lia|].
  destruct (serve_claim i w sub u rest s2 Hat2) as (s3 & Hr3 & Hat3 & Hn3 & Hst3 & Ha3);
    [lia|by rewrite Hm2|lia|].
  destruct (serve_finish i w sub h (incr_Attempts u) s3 Hat3) as (s4 & Hr4 & Hat4 & Hn4 & Hst4 & Ha4); [lia|].
  exists s4. split_and!; [|apply serving_at; by eauto|lia|lia|].
  - change (run step ([Tick d; Run i] ++ [Run i; Finish i h]) s = Some s4).
    rewrite run_app, Hr2. simpl. rewrite Hr3. simpl. by rewrite Hr4.
  - rewrite Ha4, Ha3, Hm2, Hn3, Hn2. unfold served. cbn [spec_exec].
    destruct (invokeHandler h _).2; [by case_decide|done].
Qed.

(** *** From delivery to delivery *)

Lemma a_insert_behind x pre t post :
  Forall (λ v, RunAt v ≤ RunAt x) (pre ++ [t]) → a_insert x (pre ++ t :: post) = pre ++ t :: a_insert x post.
Proof.
  induction pre as [|u pre IH]; csimpl; intros [Hu Hall]%Forall_cons; rewrite decide_False by lia; [done|].
  by rewrite IH.
Qed.

Lemma a_insert_split x l :
  ∃ pre post, a_insert x l = pre ++ x :: post ∧ (length pre + length post)%nat = length l.
Proof.
  induction l as [|u l (pre & post & Heq & Hlen)]; simpl; [by exists [], []|]. case_decide.
  - by exists [], (u :: l).
  - exists (u :: pre), post. rewrite Heq. simpl. by rewrite Hlen.
Qed.

Lemma retry_delay_nonneg o n : opts_ok o → 0 ≤ retry_delay o n.
Proof.
  intros [Hb Hm]. destruct (backoff_bounds (BackoffBase o) (BackoffMax o) Hb Hm) as [[Hpos Hle] _].
  unfold retry_delay. pose proof (backoff_attempt_pos n).
  apply Z.min_glb; [|lia]. apply Z.mul_nonneg_nonneg; [lia|]. apply Z.pow_nonneg. lia.
Qed.

(** In a queue sorted by RunAt nothing in front of a task is due after it. *)
Lemma front_due (t : Task) pre post :
  StronglySorted (λ u v, RunAt u ≤ RunAt v) (pre ++ t :: post) →
  Forall (λ v, RunAt v ≤ RunAt t) (pre ++ [t]).
Proof.
  induction pre as [|u pre IH]; csimpl; intros Hs; [by repeat constructor|].
  apply StronglySorted_inv in Hs as [Hs Hu]. constructor; [|by apply IH].
  apply Forall_app in Hu as [_ Hu]. by apply Forall_cons in Hu as [? _].
Qed.

(** A task in front of [t] that is handled once [t] is due leaves, or comes back
    behind [t]. *)
Lemma served_in_front h o now u pre t post dead :
  opts_ok o → RunAt t ≤ now → Forall (λ v, RunAt v ≤ RunAt t) (pre ++ [t]) →
  ∃ post', a_pending (served h o now u (pre ++ t :: post) dead) = pre ++ t :: post' ∧
    (length post' ≤ S (length post))%nat.
Proof.
  intros Ho Hnow Hall. unfold served.
  destruct (invokeHandler h _).2 as [e|]; [|by exists post; auto].
  case_decide; simpl; [by exists post; auto|].
  pose proof (retry_delay_nonneg o (wrap64 (Attempts u + 1)) Ho).
  set (x := set_RunAt _ _). rewrite a_insert_behind.
  - destruct (a_insert_split x post) as (p1 & p2 & Heq & Hlen). exists (a_insert x post).
    split; [done|]. rewrite Heq, length_app. simpl. lia.
  - eapply Forall_impl; [exact Hall|]. subst x. simpl. lia.
Qed.

(** Time passes, worker [i] goes on, or its handler [h] returns. *)
Definition by_worker (i : nat) (h : Handler) (e : event) : Prop :=
  match e with
  | Tick _ => True
  | Run j => j = i
  | Finish j h' => j = i ∧ h' = h
  | _ => False
  end.

Lemma serve_by_worker i h d : Forall (by_worker i h) (serve i h d).
Proof. by repeat constructor. Qed.

Section dying.
Context (i : nat) (w : worker) (h : Handler).

Let pend_of (s : sys) : list Task := a_pending (abs (s_mem s) (w_queue w)).
Let dead_of (s : sys) : list Task := a_dead (abs (s_mem s) (w_queue w)).

(** The deliveries of the tasks in front: each of them leaves, or comes back
    behind. *)
Lemma reach_front t pre : ∀ s post,
  serving i w s → s_steps s + 4 * Z.of_nat (length pre) < max_int64 → pend_of s = pre ++ t :: post →
  ∃ es s' post', run step es s = Some s' ∧ Forall (by_worker i h) es ∧ serving i w s' ∧
    length es = (4 * length pre)%nat ∧ s_steps s' = s_steps s + 4 * Z.of_nat (length pre) ∧
    pend_of s' = t :: post' ∧ (length post' ≤ length pre + length post)%nat.
Proof.
  induction pre as [|u pre IH]; intros s post Hsv Hlt Hp.
  { exists [], s, post. split_and!; try done; simpl; lia. }
  cbn [length app] in Hlt, Hp. pose proof (abs_sorted (w_queue w) (s_mem s)) as Hsort.
  fold (pend_of s) in Hsort. rewrite Hp in Hsort.
  pose proof (front_due t (u :: pre) post Hsort) as Hfront. csimpl in Hfront.
  apply Forall_cons in Hfront as [Hut Hfront].
  set (d := Z.max 0 (RunAt t - s_now s)).
  destruct (serve_first i w h d u (pre ++ t :: post) s Hsv) as (s1 & Hr1 & Hsv1 & _ & Hst1 & Ha1);
    [lia|lia|exact Hp|lia|].
  destruct (served_in_front h (w_opts w) (s_now s + d) u pre t post (dead_of s))
    as (post1 & Hp1 & Hl1); [|lia|done|].
  { apply (sk_opts s (sv_ok _ _ _ Hsv)). eapply list_elem_of_lookup_2, Hsv. }
  unfold dead_of in Hp1. rewrite <- Ha1 in Hp1.
  destruct (IH s1 post1 Hsv1) as (es & s' & post' & Hr & Hby & Hsv' & Hlen & Hst & Hp' & Hl'); [lia|done|].
  exists (serve i h d ++ es), s', post'. split_and!; try done.
  - by rewrite run_app, Hr1.
  - apply Forall_app. split; [apply serve_by_worker|done].
  - rewrite length_app, Hlen. simpl. lia.
  - simpl. lia.
  - simpl. lia.
Qed.

(** A delivery of the task, which is in front: it is dead, or pending again. *)
Lemma serve_failing t post s :
  serving i w s → s_steps s + 4 < max_int64 → pend_of s = t :: post → fails_on (ID t) h →
  0 ≤ Attempts t ≤ MaxRetries t → MaxRetries t < max_int64 →
  ∃ es s', run step es s = Some s' ∧ Forall (by_worker i h) es ∧ serving i w s' ∧ length es = 4%nat ∧
    s_steps s' = s_steps s + 4 ∧
    if decide (Attempts t = MaxRetries t)
    then ∃ t', t' ∈ dead_of s' ∧ same_identity t t' ∧ Attempts t' = MaxRetries t + 1 ∧ DiedAt t' = s_now s'
    else ∃ t' pre post', pend_of s' = pre ++ t' :: post' ∧ (length pre + length post')%nat = length post ∧
           same_identity t t' ∧ Attempts t' = Attempts t + 1.
Proof.
  intros Hsv Hlt Hp Hf Hatt Hmax. set (d := Z.max 0 (RunAt t - s_now s)).
  destruct (serve_first i w h d t post s Hsv) as (s1 & Hr1 & Hsv1 & Hn1 & Hst1 & Ha1);
    [lia|lia|exact Hp|lia|].
  exists (serve i h d), s1. split_and!; try done; [apply serve_by_worker|].
  assert (Attempts (incr_Attempts t) = Attempts t + 1) as Hinc.
  { simpl. apply wrap64_id. unfold in_int64. lia. }
  unfold pend_of, dead_of. rewrite Ha1. unfold served.
  destruct (Hf (cloneTask (incr_Attempts t)) eq_refl) as [e ->]. rewrite Hinc. simpl MaxRetries.
  case_decide as Hlast; [rewrite decide_True by lia|rewrite decide_False by lia].
  - eexists. split; [apply elem_of_app; right; by apply list_elem_of_singleton|].
    split_and!; [done|simpl in Hinc |- *; lia|simpl; lia].
  - simpl a_pending. set (x := set_RunAt _ _). destruct (a_insert_split x post) as (p1 & p2 & Heq & Hlen).
    by exists x, p1, p2.
Qed.

Lemma dies_within b : ∀ t pre post s N,
  serving i w s → fails_on (ID t) h → pend_of s = pre ++ t :: post →
  0 ≤ Attempts t → MaxRetries t < max_int64 → Z.of_nat b = MaxRetries t - Attempts t →
  (length (pre ++ t :: post) ≤ N)%nat → s_steps s + 4 * Z.of_nat (S b * N) < max_int64 →
  ∃ es s' t', run step es s = Some s' ∧ Forall (by_worker i h) es ∧ (length es ≤ 4 * (S b * N))%nat ∧
    t' ∈ dead_of s' ∧ same_identity t t' ∧ Attempts t' = MaxRetries t + 1 ∧ DiedAt t' = s_now s'.
Proof.
  induction b as [|b IH]; intros t pre post s N Hsv Hf Hp Hatt Hmax Hb HN Hlt;
    rewrite length_app in HN; simpl in HN, Hlt;
    (destruct (reach_front t pre s post Hsv) as (es1 & s1 & post1 & Hr1 & Hby1 & Hsv1 & Hl1 & Hst1 & Hp1 & Hpl1);
      [lia|done|]);
    (destruct (serve_failing t post1 s1 Hsv1) as (es2 & s2 & Hr2 & Hby2 & Hsv2 & Hl2 & Hst2 & Hend);
      [lia|done|done|lia|done|]).
  - rewrite decide_True in Hend by lia. destruct Hend as (t' & Hin & Hid & Ha & Hd).
    exists (es1 ++ es2), s2, t'. split_and!; try done; [by rewrite run_app, Hr1|by apply Forall_app|].
    rewrite length_app. lia.
  - rewrite decide_False in Hend by lia. destruct Hend as (t1 & pre2 & post2 & Hp2 & Hl & Hid & Ha).
    assert (MaxRetries t1 = MaxRetries t ∧ ID t1 = ID t) as [Hm Hi1].
    { destruct Hid as (-> & _ & _ & _ & -> & _). done. }
    destruct (IH t1 pre2 post2 s2 N) as (es & s' & t' & Hr & Hby & Hlen & Hin & Hid' & Ha' & Hd'); try done;
      [by rewrite Hi1|lia|lia|lia|rewrite length_app; simpl; lia|simpl in *; lia|].
    exists (es1 ++ es2 ++ es), s', t'. split_and!; try done.
    + by rewrite run_app, Hr1; simpl; rewrite run_app, Hr2.
    + by rewrite !Forall_app.
    + rewrite !length_app. simpl in *. lia.
    + by etrans.
    + lia.
Qed.
End dying.

(** A worker of a pool that is not stopped. *)
Lemma running_serving i w s :
  reachable step sys_init s → s_workers s !! i = Some w → w_pc w = AtTop → ¬ stopping (w_sub w) s →
  serving i w s.
Proof.
  intros Hr Hi Htop Hn. destruct (reachable_done s Hr) as [Hs _].
  destruct (lookup_lt_is_Some_2 (s_subs s) (w_sub w)) as [sub Hsub].
  { apply (sk_wsub s Hs). by eapply list_elem_of_lookup_2. }
  split; [done..|]. exists sub. split; [done|]. intros Hcl. apply Hn. by exists sub.
Qed.

(** C26. The end of a task whose handler always fails. In every execution in
    which the handlers fail on it and nobody requeues or deletes it, the task
    is where the invocations say: pending after at most MaxRetries of them, in
    a handler for one that is at most the (MaxRetries + 1)-th, or dead after
    exactly MaxRetries + 1. And it does die: from every reachable state a
    worker that is at the top of its loop, in a pool that is not stopped,
    brings it to the dead letters by its own steps and the passing of time,
    whatever other tasks are in front of it and whatever the handler does with
    them, within four events for each delivery of each task then pending; it
    then has MaxRetries + 1 attempts and died at the last failure. Executions
    are shorter than 2^63 - 1 events. *)
Theorem always_failing_task_dies name s t :
  reachable step sys_init s → t ∈ g_enq (s_ghost s name) → ¬ gone name (ID t) s →
  (∀ es s', run step es s = Some s' → Forall (keeps_failing name (ID t)) es → placed name t s') ∧
  (∀ i w h, ID t ∈ ID <$> a_pending (abs (s_mem s) name) →
     s_workers s !! i = Some w → w_pc w = AtTop → w_queue w = name → ¬ stopping (w_sub w) s →
     fails_on (ID t) h →
     let bound := (Z.to_nat (MaxRetries t + 1) * length (a_pending (abs (s_mem s) name)))%nat in
     s_steps s + 4 * Z.of_nat bound < max_int64 →
     ∃ es s' d, run step es s = Some s' ∧ Forall (by_worker i h) es ∧ (length es ≤ 4 * bound)%nat ∧
       d ∈ a_dead (abs (s_mem s') name) ∧ same_identity t d ∧
       Attempts d = MaxRetries t + 1 ∧ invocations name (ID t) s' = MaxRetries t + 1 ∧
       DiedAt d = s_now s').
Proof.
  intros Hr Ht Hn.
  assert (∀ es s', run step es s = Some s' → reachable step sys_init s') as Hreach.
  { intros es s' Hrun. destruct Hr as [es0 Hr0]. exists (es0 ++ es). by rewrite run_app, Hr0. }
  split.
  - intros es s' Hrun Hes.
    assert (sys_ok s' ∧ t ∈ g_enq (s_ghost s' name) ∧ ¬ gone name (ID t) s') as (_ & Ht' & Hn').
    { destruct (reachable_done s Hr) as [Hs _]. clear Hreach Hr. revert s Hs Ht Hn Hrun Hes.
      induction es as [|e es IH]; intros s Hs Ht Hn Hrun Hes; simpl in Hrun; simplify_eq; [done|].
      apply bind_Some in Hrun as (s1 & Hstep & Hrun). apply Forall_cons in Hes as [He Hes].
      apply (IH s1); [by eapply sys_ok_step|by eapply enqueued_step|by eapply not_gone_step|done|done]. }
    apply task_placed; [by eapply Hreach|done|done].
  - intros i w h (t' & HID & Hin)%list_elem_of_fmap Hi Htop <- Hopen Hf bound Hlt.
    assert (serving i w s) as Hsv by (by apply running_serving).
    destruct (reachable_life s (w_queue w) Hr) as [_ Hl].
    destruct (life_pend _ Hl t' Hin) as [Hto Hb]. pose proof (life_budget _ Hl t Ht) as Hbud.
    destruct (enqueued_identity _ t t' Hl Ht Hto) as [Hid _]; [done|lia|].
    assert (MaxRetries t' = MaxRetries t) as Hm by (symmetry; apply Hid).
    apply list_elem_of_split in Hin as (pre & post & Hp).
    set (b := Z.to_nat (MaxRetries t' - Attempts t')).
    assert (S b * length (a_pending (abs (s_mem s) (w_queue w))) ≤ bound)%nat as Hbound.
    { subst bound b. apply Nat.mul_le_mono_r. lia. }
    destruct (dies_within i w h b t' pre post s (length (a_pending (abs (s_mem s) (w_queue w)))) Hsv)
      as (es & s' & d & Hrun & Hby & Hlen & Hd & Hid' & Ha & Hdied);
      [by rewrite <- HID|done|lia|lia|subst b; lia|by rewrite <- Hp|lia|].
    exists es, s', d. assert (same_identity t d) as Htd by (by etrans).
    destruct (reachable_life s' (w_queue w) (Hreach es s' Hrun)) as [_ Hl'].
    destruct (life_deadl _ Hl' d Hd) as [[_ Hatt] _].
    split_and!; try done; [lia|lia|].
    unfold invocations. replace (ID t) with (ID d) by (symmetry; apply Htd). simpl in Hatt. rewrite Hatt.
    rewrite length_countdown. lia.
Qed.

(** ** An execution

    A task with one retry waits behind another one; both workers are idle, and
    every handler fails. *)

Definition failing_events : list event := [
  Tick 1000; Call "q" (OpEnqueue 1000 "b" None []); Call "q" (OpEnqueue 1000 "a" None [WithMaxRetries 1]);
  Subscribe "q" demo_opts
].

Definition failing_start : sys := default sys_init (run step failing_events sys_init).

Definition failing_task : Task := new_task 1000 "a" "q" None [WithMaxRetries 1].

Definition failing_worker : worker := mkWorker "q" 0 (NewConsumeOptions demo_opts) AtTop.

Lemma failing_reachable : reachable step sys_init failing_start.
Proof. apply runs_reachable. vm_compute. reflexivity. Defined.

Lemma failing_running : ¬ stopping 0 failing_start.
Proof.
  intros (sub & Hsub & Hcl). vm_compute in Hsub. injection Hsub as <-.
  apply (bool_decide_pack _) in Hcl. vm_compute in Hcl. destruct Hcl.
Qed.

Lemma always_failing_task_dies_witness :
  placed "q" failing_task failing_start ∧
  ∃ es s' d, run step es failing_start = Some s' ∧ (length es ≤ 16)%nat ∧
    d ∈ a_dead (abs (s_mem s') "q") ∧ ID d = "a" ∧ Attempts d = 2.
Proof.
  destruct (always_failing_task_dies "q" failing_start failing_task failing_reachable) as [Hplaced Hdies].
  - apply list_elem_of_lookup_2 with 0%nat. vm_compute. reflexivity.
  - unfold gone. apply (bool_decide_unpack _). vm_compute. exact I.
  - split; [by apply (Hplaced [])|].
    destruct (Hdies 0%nat failing_worker (failing "boom")) as (es & s' & d & Hrun & _ & Hlen & Hd & Hid & Ha & _).
    + apply (bool_decide_unpack _). vm_compute. exact I.
    + vm_compute. reflexivity.
    + reflexivity.
    + reflexivity.
    + exact failing_running.
    + intros u _. simpl. eauto.
    + vm_compute. reflexivity.
    + exists es, s', d. split_and!; [exact Hrun|exact Hlen|exact Hd|by destruct Hid as [<- _]|exact Ha].
Defined.
