(* ===== verification/Effects.v ===== *)
(** * Programs over effects

    The backends on a storage server are programs: between two calls of the
    server, of the clock, of a handler or of a critical section nothing is
    shared. [prog] is the tree of those calls; an execution of one program, or
    of many interleaved ones, takes one call at a time. *)

From stdpp Require Import base tactics list option.
From S2P Require Import Prelude.

Inductive prog (E : Type → Type) (A : Type) : Type :=
  | Ret (a : A)
  | Do {X : Type} (e : E X) (k : X → prog E A).

Arguments Ret {E A} a.
Arguments Do {E A X} e k.

Definition trigger {E : Type → Type} {X : Type} (e : E X) : prog E X := Do e Ret.

Fixpoint bind {E A B} (f : A → prog E B) (p : prog E A) : prog E B :=
  match p with
  | Ret a => f a
  | Do e k => Do e (λ x, bind f (k x))
  end.

#[export] Instance prog_ret E : MRet (prog E) := λ A a, Ret a.
#[export] Instance prog_bind E : MBind (prog E) := λ A B f p, bind f p.

(** ** One program alone *)

Section interp.
Context {E : Type → Type} {S : Type} (exec : ∀ X, E X → S → option (X * S)).

Fixpoint interp {A} (p : prog E A) (s : S) : option (A * S) :=
  match p with
  | Ret a => Some (a, s)
  | Do e k => match exec _ e s with
              | Some (x, s) => interp (k x) s
              | None => None
              end
  end.

Lemma interp_bind {A B} (f : A → prog E B) p s :
  interp (bind f p) s =
    match interp p s with Some (a, s) => interp (f a) s | None => None end.
Proof.
  revert s; induction p as [a|X e k IH]; intros s; simpl; [done|].
  destruct (exec X e s) as [[x s']|]; [apply IH|done].
Qed.
End interp.
