(* ===== verification/TaskTable.v ===== *)
(** * The task table: src/gorm_workqueue/model.go and the database under it

    [TaskRecord] is the row both SQL backends store; the database is code this
    repository only calls, so it is a parameter: [Database] gives the functions
    that run a statement or a transaction, and [DatabaseLaws] states what SQL
    documents of them. A statement that reports an error may or may not have
    been executed, as when the connection breaks. Clock readings are taken at
    the precision of the time columns. *)

From stdpp Require Import base tactics list numbers option gmap strings sorting.
From Stdlib Require Import Strings.Byte.
From S2P Require Import Prelude GoRuntime Contract.

(** ** Rows *)

Definition StatusPending : string := "pending".
Definition StatusRunning : string := "running".
Definition StatusDead : string := "dead".

(** Rows with two statuses do not exist. *)
Ltac status_clash :=
  exfalso; unfold StatusPending, StatusRunning, StatusDead in *; congruence.

Record TaskRecord := mkRecord {
  r_ID : string;
  r_Queue : string;
  r_Status : string;
  r_RunAt : time;
  r_Payload : bytes;
  r_Metadata : bytes;        (** JSON-encoded *)
  r_Attempts : Z;
  r_MaxRetries : Z;
  r_EnqueuedAt : time;
  r_LastError : string;
  r_DiedAt : option time;
  r_LeaseExpiresAt : option time
}.

#[export] Instance TaskRecord_eq_dec : EqDecision TaskRecord.
Proof. solve_decision. Defined.

(** [encoding/json] on a [map[string]string]: the error or the result. *)
Class Json := {
  Marshal : gmap string string → string + list byte;
  Unmarshal : list byte → string + metadata
}.

(** What is marshalled is read back; the package replaces what is not valid
    UTF-8, so this is for the maps with [json_valid]. *)
Class JsonLaws `{Json} := {
  json_valid : gmap string string → Prop;
  Unmarshal_Marshal m : json_valid m → ∃ b l, Marshal m = inr (b :: l) ∧
    Unmarshal (b :: l) = inr (Some m)
}.

Definition toTask `{Json} (r : TaskRecord) : string + Task :=
  let decoded :=
    match r_Metadata r with
    | Some (b :: l) => Unmarshal (b :: l)
    | _ => inr None
    end in
  match decoded with
  | inl e => inl e
  | inr md =>
      inr (mkTask (r_ID r) (r_Queue r) (r_Payload r) md (r_Attempts r) (r_MaxRetries r)
             (r_EnqueuedAt r) (r_RunAt r) (r_LastError r) (default zeroTime (r_DiedAt r)))
  end.

(** ** Statements *)

Inductive column := run_at | enqueued_at | died_at | id.

Record query := mkQuery {
  q_where : TaskRecord → bool;
  q_order : list column;
  q_offset : Z;
  q_limit : option Z
}.

(** The statements the backends send, with the type of their answer: an error,
    or the number of affected rows, or the rows. *)
Inductive stmt : Type → Type :=
  | Create (r : TaskRecord) : stmt (option string)
  | Updates (w : TaskRecord → bool) (f : TaskRecord → TaskRecord) : stmt (string + Z)
  | Delete (w : TaskRecord → bool) : stmt (string + Z)
  | Find (q : query) : stmt (string + list TaskRecord)
  (** UPDATE ... SET f WHERE id = (SELECT id ... WHERE w ORDER BY o LIMIT 1
      FOR UPDATE SKIP LOCKED) RETURNING * *)
  | UpdateFirst (w : TaskRecord → bool) (o : list column) (f : TaskRecord → TaskRecord) :
      stmt (string + option TaskRecord)
  (** SELECT pg_notify(channel, payload) *)
  | PgNotify (channel payload : string) : stmt (option string).

(** The body of a transaction: nil commits, an error rolls back. *)
Inductive tx :=
  | TxReturn (e : option Err)
  | TxDo {X : Type} (s : stmt X) (k : X → tx).

(** ** What SQL documents of them *)

(** The rows by primary key, and the notifications committed so far, newest
    first. *)
Record store := mkStore {
  rows : gmap string TaskRecord;
  sent : list (string * string)
}.

Definition set_rows (t : gmap string TaskRecord) (σ : store) : store := mkStore t (sent σ).

Definition update_rows (w : TaskRecord → bool) (f : TaskRecord → TaskRecord)
    (t : gmap string TaskRecord) : gmap string TaskRecord :=
  (λ r, if w r then f r else r) <$> t.

Definition matching (w : TaskRecord → bool) (t : gmap string TaskRecord) : gmap string TaskRecord :=
  filter (λ p, w p.2 = true) t.

Definition delete_rows (w : TaskRecord → bool) (t : gmap string TaskRecord) :
    gmap string TaskRecord :=
  filter (λ p, w p.2 = false) t.

Definition table_rows (t : gmap string TaskRecord) : list TaskRecord := (map_to_list t).*2.

(** What differs between engines: where NULLs sort, and the collation. *)
Class Engine := {
  nulls_first : bool;
  str_le : string → string → bool;
  str_le_total a b : str_le a b = true ∨ str_le b a = true;
  str_le_trans a b c : str_le a b = true → str_le b c = true → str_le a c = true
}.

Section semantics.
Context `{Engine}.

Definition opt_le (x y : option time) : bool :=
  match x, y with
  | Some a, Some b => bool_decide (a ≤ b)
  | None, None => true
  | None, Some _ => nulls_first
  | Some _, None => negb nulls_first
  end.

Definition col_le (c : column) (x y : TaskRecord) : bool :=
  match c with
  | run_at => bool_decide (r_RunAt x ≤ r_RunAt y)
  | enqueued_at => bool_decide (r_EnqueuedAt x ≤ r_EnqueuedAt y)
  | died_at => opt_le (r_DiedAt x) (r_DiedAt y)
  | id => str_le (r_ID x) (r_ID y)
  end.

(** ORDER BY: the first column that tells the rows apart decides. *)
Fixpoint order_le (cols : list column) (x y : TaskRecord) : bool :=
  match cols with
  | [] => true
  | c :: cols => col_le c x y && (negb (col_le c y x) || order_le cols x y)
  end.

(** The rows a query can answer: the matching ones in some order that agrees
    with ORDER BY, without the first OFFSET, at most LIMIT of them. *)
Definition answers (q : query) (t : gmap string TaskRecord) (l : list TaskRecord) : Prop :=
  ∃ all, all ≡ₚ table_rows (matching (q_where q) t) ∧
    Sorted.StronglySorted (λ x y, order_le (q_order q) x y = true) all ∧
    l = match q_limit q with
        | Some n => take (Z.to_nat n) (drop (Z.to_nat (q_offset q)) all)
        | None => drop (Z.to_nat (q_offset q)) all
        end.

Definition updated_first (locked : gset string) (w : TaskRecord → bool) (o : list column)
    (f : TaskRecord → TaskRecord) (t : gmap string TaskRecord) (res : option TaskRecord)
    (t' : gmap string TaskRecord) : Prop :=
  match res with
  | Some r' => ∃ i r, t !! i = Some r ∧ w r = true ∧ r' = f r ∧ t' = <[i:=r']> t ∧
      ∀ j u, t !! j = Some u → w u = true → j ∉ locked → order_le o r u = true
  | None => t' = t ∧ ∀ j u, t !! j = Some u → w u = true → j ∈ locked
  end.

Definition or_unknown (done unchanged : Prop) : Prop := done ∨ unchanged.

(** [stmt_sem locked s σ x σ']: the statement may answer [x] and leave [σ'],
    while other transactions hold row locks on [locked]. *)
Definition stmt_sem (locked : gset string) {X} (s : stmt X) (σ : store) :
    X → store → Prop :=
  match s in stmt X return X → store → Prop with
  | Create r => λ e σ',
      let done := rows σ !! r_ID r = None ∧ σ' = set_rows (<[r_ID r:=r]> (rows σ)) σ in
      match e with None => done | Some _ => or_unknown done (σ' = σ) end
  | Updates w f => λ x σ',
      let done := σ' = set_rows (update_rows w f (rows σ)) σ in
      match x with
      | inr n => done ∧ n = Z.of_nat (size (matching w (rows σ)))
      | inl _ => or_unknown done (σ' = σ)
      end
  | Delete w => λ x σ',
      let done := σ' = set_rows (delete_rows w (rows σ)) σ in
      match x with
      | inr n => done ∧ n = Z.of_nat (size (matching w (rows σ)))
      | inl _ => or_unknown done (σ' = σ)
      end
  | Find q => λ x σ', σ' = σ ∧ match x with inr l => answers q (rows σ) l | inl _ => True end
  | UpdateFirst w o f => λ x σ',
      match x with
      | inr res => sent σ' = sent σ ∧ updated_first locked w o f (rows σ) res (rows σ')
      | inl _ => or_unknown (sent σ' = sent σ ∧
                   ∃ res, updated_first locked w o f (rows σ) res (rows σ')) (σ' = σ)
      end
  | PgNotify ch p => λ e σ',
      let done := σ' = mkStore (rows σ) ((ch, p) :: sent σ) in
      match e with None => done | Some _ => or_unknown done (σ' = σ) end
  end.

(** A body run to its return, statement by statement. *)
Fixpoint tx_run (locked : gset string) (b : tx) (σ : store) (e : option Err) (σ2 : store) : Prop :=
  match b with
  | TxReturn r => e = r ∧ σ2 = σ
  | TxDo s k => ∃ x σ1, stmt_sem locked s σ x σ1 ∧ tx_run locked (k x) σ1 e σ2
  end.

(** All or nothing: nil commits the body's effects, the body's error rolls
    back, and an error of the commit leaves the outcome unknown. *)
Definition tx_sem (locked : gset string) (b : tx) (σ : store) (e : option Err) (σ' : store) : Prop :=
  match e with
  | None => tx_run locked b σ None σ'
  | Some e => (σ' = σ ∧ ∃ σ1, tx_run locked b σ (Some e) σ1) ∨
              (∃ msg, e = ErrStorage msg) ∧ (σ' = σ ∨ tx_run locked b σ None σ')
  end.
End semantics.

(** ** The database *)

Class Database (DB : Type) := {
  db_store : DB → store;
  db_locked : DB → gset string;   (** rows locked by transactions in progress *)
  db_exec {X} : stmt X → DB → X * DB;
  db_tx : tx → DB → option Err * DB
}.

Class DatabaseLaws (DB : Type) `{Engine, Database DB} := {
  db_exec_ok {X} (s : stmt X) d :
    stmt_sem (db_locked d) s (db_store d) (db_exec s d).1 (db_store (db_exec s d).2);
  db_tx_ok b d :
    tx_sem (db_locked d) b (db_store d) (db_tx b d).1 (db_store (db_tx b d).2)
}.

(** ** A database that does not fail *)

(** The statement answers without an error, unless it breaks the primary key. *)
Definition answered {X} (s : stmt X) (σ : store) : X → Prop :=
  match s in stmt X return X → Prop with
  | Create r => λ e, rows σ !! r_ID r = None → e = None
  | Updates _ _ => λ x, ∃ n, x = inr n
  | Delete _ => λ x, ∃ n, x = inr n
  | Find _ => λ x, ∃ l, x = inr l
  | UpdateFirst _ _ _ => λ x, ∃ r, x = inr r
  | PgNotify _ _ => λ e, e = None
  end.

(** No statement fails and no other transaction holds row locks: one process
    alone on a healthy server. *)
Class Reliable (DB : Type) `{Database DB} := {
  reliable_exec {X} (s : stmt X) d : answered s (db_store d) (db_exec s d).1;
  reliable_locked d : db_locked d = ∅
}.

(** A transaction on such a server: no statement of its body fails, and the
    commit gives what the body returns. *)
Fixpoint tx_answered `{Engine} (locked : gset string) (b : tx) (σ : store) (e : option Err) (σ2 : store) : Prop :=
  match b with
  | TxReturn r => e = r ∧ σ2 = σ
  | TxDo s k => ∃ x σ1, stmt_sem locked s σ x σ1 ∧ answered s σ x ∧ tx_answered locked (k x) σ1 e σ2
  end.

Class ReliableTx (DB : Type) `{Engine, Database DB} := {
  reliable_tx b d : ∃ σ, tx_answered (db_locked d) b (db_store d) (db_tx b d).1 σ ∧
    db_store (db_tx b d).2 = match (db_tx b d).1 with None => σ | Some _ => db_store d end
}.
