(* ===== verification/SqlEffects.v ===== *)
(** * The calls of the SQL backends

    What the programs of [Gorm] and [Postgres] call between their own lines:
    the clock, the database, a handler, and a critical section on the wake
    channels of the process, which the mutex makes atomic. *)

From stdpp Require Import base tactics list numbers option gmap strings.
From Stdlib Require Import Strings.Byte.
From S2P Require Import Prelude GoRuntime Contract Effects TaskTable.

(** The state of a process: the wake channel of each queue, and its channels. *)
Record local := mkLocal {
  notifies : gmap string chan;
  l_chans : chans
}.

Definition local_init : local := mkLocal ∅ no_chans.

Inductive eff : Type → Type :=
  | Now : eff time
  | Exec {X} (s : stmt X) : eff X
  | Transaction (b : tx) : eff (option Err)
  | Locked {X} (f : local → option (X * local)) : eff X   (** [None] is a panic *)
  | Invoke (t : Task) : eff (option string).

Abbreviation program := (prog eff).

Definition now : program time := trigger Now.
Definition exec {X} (s : stmt X) : program X := trigger (Exec s).
Definition transaction (b : tx) : program (option Err) := trigger (Transaction b).
Definition locked_do {X} (f : local → option (X * local)) : program X := trigger (Locked f).
Definition invoke (t : Task) : program (option string) := trigger (Invoke t).

(** ** One process alone

    [eff_exec] executes one call with the clock at [t]; the answer of a handler
    is the handler's. *)

Record world (DB : Type) := mkWorld { w_db : DB; w_local : local; w_clock : list time }.

Arguments mkWorld {DB} _ _ _.
Arguments w_db {DB} _.
Arguments w_local {DB} _.
Arguments w_clock {DB} _.

(** The clock readings are given in advance; [None] is a panic or a reading
    that is missing. *)
Definition eff_exec {DB} `{Database DB} (h : Handler) (X : Type) (e : eff X) (w : world DB) :
    option (X * world DB) :=
  match e in eff X return option (X * world DB) with
  | Now => match w_clock w with
           | t :: ts => Some (t, mkWorld (w_db w) (w_local w) ts)
           | [] => None
           end
  | Exec s => let '(x, d) := db_exec s (w_db w) in Some (x, mkWorld d (w_local w) (w_clock w))
  | Transaction b => let '(x, d) := db_tx b (w_db w) in Some (x, mkWorld d (w_local w) (w_clock w))
  | Locked f => match f (w_local w) with
                | Some (x, l) => Some (x, mkWorld (w_db w) l (w_clock w))
                | None => None
                end
  | Invoke t => Some ((invokeHandler h t).2, w)
  end.

Definition run_program {DB} `{Database DB} (h : Handler) {A} (p : program A) (w : world DB) :
    option (A * world DB) := interp (eff_exec h) p w.

(** What one round of a worker's loop ends with: it goes round again, or sleeps
    until woken on [notify] or [wait] has passed. *)
Inductive round := Again | Sleep (notify : chan) (wait : duration).
