(* ===== verification/Gorm.v ===== *)
(** * The database backend: src/gorm_workqueue/workqueue.go

    Each method as a program over the database, the clock, the handler and the
    wake channels of its process. Rows are changed only by the statements
    below; several processes run these programs on one table, interleaved at
    the statements. *)

From stdpp Require Import base tactics list numbers option gmap strings.
From Stdlib Require Import Strings.Byte.
From S2P Require Import Prelude GoRuntime Contract Options Effects TaskTable SqlEffects.

Module Gorm.

(** ** Configuration *)

Definition DefaultTableName : string := "workqueue_tasks".
Definition DefaultPollInterval : duration := Second.
Definition DefaultLeaseDuration : duration := 5 * Minute.

Record Config := mkConfig {
  TableName : string;
  PollInterval : duration;
  LeaseDuration : duration
}.

Definition withDefaults (c : Config) : Config :=
  let c := if decide (TableName c = "")
           then mkConfig DefaultTableName (PollInterval c) (LeaseDuration c) else c in
  let c := if decide (PollInterval c ≤ 0)
           then mkConfig (TableName c) DefaultPollInterval (LeaseDuration c) else c in
  if decide (LeaseDuration c ≤ 0)
  then mkConfig (TableName c) (PollInterval c) DefaultLeaseDuration else c.

(** [started] is [q.db != nil]. *)
Record GormWorkQueue := mkQueue { started : bool; config : Config }.

Definition New (db : bool) (c : Config) : GormWorkQueue := mkQueue db (withDefaults c).

Definition ready (q : GormWorkQueue) : option Err :=
  if started q then None else Some errNotStarted.

(** ** Wake channels *)

Definition notify (queue : string) (l : local) : option (chan * local) :=
  match notifies l !! queue with
  | Some ch => Some (ch, l)
  | None =>
      let '(ch, c) := make_chan (l_chans l) in
      Some (ch, mkLocal (<[queue:=ch]> (notifies l)) c)
  end.

Definition broadcastLocal (queue : string) (l : local) : option (unit * local) :=
  c ← match notifies l !! queue with
      | Some ch => close_chan ch (l_chans l)
      | None => Some (l_chans l)
      end;
  let '(ch, c) := make_chan c in
  Some (tt, mkLocal (<[queue:=ch]> (notifies l)) c).

(** ** Conditions and assignments of the statements *)

Definition is_pending (queue : string) (r : TaskRecord) : bool :=
  bool_decide (r_Queue r = queue) && bool_decide (r_Status r = StatusPending).

Definition is_ready (queue : string) (t : time) (r : TaskRecord) : bool :=
  is_pending queue r && bool_decide (r_RunAt r ≤ t).

Definition lease_expired (queue : string) (t : time) (r : TaskRecord) : bool :=
  bool_decide (r_Queue r = queue) && bool_decide (r_Status r = StatusRunning) &&
  match r_LeaseExpiresAt r with Some l => bool_decide (l < t) | None => false end.

(** [id = ? AND status = ? AND attempts = ?] *)
Definition guarded (i status : string) (n : Z) (r : TaskRecord) : bool :=
  bool_decide (r_ID r = i) && bool_decide (r_Status r = status) && bool_decide (r_Attempts r = n).

Definition has_id (i : string) (r : TaskRecord) : bool := bool_decide (r_ID r = i).

(** [id = ? AND queue = ? AND status = dead] *)
Definition is_dead_task (i queue : string) (r : TaskRecord) : bool :=
  bool_decide (r_ID r = i) && bool_decide (r_Queue r = queue) && bool_decide (r_Status r = StatusDead).

Definition is_dead (queue : string) (r : TaskRecord) : bool :=
  bool_decide (r_Queue r = queue) && bool_decide (r_Status r = StatusDead).

Definition reap (r : TaskRecord) : TaskRecord :=
  mkRecord (r_ID r) (r_Queue r) StatusPending (r_RunAt r) (r_Payload r) (r_Metadata r)
    (r_Attempts r) (r_MaxRetries r) (r_EnqueuedAt r) (r_LastError r) (r_DiedAt r) None.

Definition start (lease : time) (r : TaskRecord) : TaskRecord :=
  mkRecord (r_ID r) (r_Queue r) StatusRunning (r_RunAt r) (r_Payload r) (r_Metadata r)
    (r_Attempts r + 1) (r_MaxRetries r) (r_EnqueuedAt r) (r_LastError r) (r_DiedAt r) (Some lease).

Definition bury (e : string) (t : time) (r : TaskRecord) : TaskRecord :=
  mkRecord (r_ID r) (r_Queue r) StatusDead (r_RunAt r) (r_Payload r) (r_Metadata r)
    (r_Attempts r) (r_MaxRetries r) (r_EnqueuedAt r) e (Some t) None.

Definition reschedule (e : string) (t : time) (r : TaskRecord) : TaskRecord :=
  mkRecord (r_ID r) (r_Queue r) StatusPending t (r_Payload r) (r_Metadata r)
    (r_Attempts r) (r_MaxRetries r) (r_EnqueuedAt r) e (r_DiedAt r) None.

Definition revive (t : time) (r : TaskRecord) : TaskRecord :=
  mkRecord (r_ID r) (r_Queue r) StatusPending t (r_Payload r) (r_Metadata r)
    0 (r_MaxRetries r) (r_EnqueuedAt r) "" None (r_LeaseExpiresAt r).

(** ** Enqueue *)

(** [nil] without metadata, else its JSON. *)
Definition encode_metadata `{Json} (md : metadata) : string + bytes :=
  match md with
  | None => inr None
  | Some m => if decide (m = ∅) then inr None
              else match Marshal m with inl e => inl e | inr b => inr (Some b) end
  end.

Definition new_record (now : time) (uuid queue : string) (payload md : bytes)
    (o : EnqueueOptions) : TaskRecord :=
  mkRecord uuid queue StatusPending (ResolveRunAt o now) payload md 0 (eo_MaxRetries o)
    now "" None None.

Definition decoded `{Json} (r : TaskRecord) : Err + Task :=
  match toTask r with inl e => inl (ErrStorage e) | inr t => inr t end.

Definition Enqueue `{Json} (q : GormWorkQueue) (uuid queue : string) (payload : bytes)
    (opts : list EnqueueOption) : program (Err + Task) :=
  match ready q with
  | Some e => mret (inl e)
  | None =>
      let o := NewEnqueueOptions opts in
      t ← now;
      match encode_metadata (eo_Metadata o) with
      | inl e => mret (inl (ErrStorage e))
      | inr md =>
          let record := new_record t uuid queue payload md o in
          err ← exec (Create record);
          match err with
          | Some e => mret (inl (ErrStorage e))
          | None =>
              _ ← locked_do (broadcastLocal queue);
              mret (decoded record)
          end
      end
  end.

(** ** Claim *)

Definition reapExpiredLeases (queue : string) : program unit :=
  t ← now;
  _ ← exec (Updates (lease_expired queue t) reap);
  mret tt.

(** What [claim] answers: the record, the wait, the error. *)
Abbreviation claimed := (option TaskRecord * duration * option string)%type.

(** [c.Status = StatusRunning; c.Attempts++; c.LeaseExpiresAt = &lease] *)
Definition mark_claimed (lease : time) (c : TaskRecord) : TaskRecord :=
  mkRecord (r_ID c) (r_Queue c) StatusRunning (r_RunAt c) (r_Payload c) (r_Metadata c)
    (wrap64 (r_Attempts c + 1)) (r_MaxRetries c) (r_EnqueuedAt c) (r_LastError c) (r_DiedAt c)
    (Some lease).

(** The query for the next scheduled task, and the wait it gives. *)
Definition claim_wait (q : GormWorkQueue) (queue : string) : program claimed :=
  let poll := PollInterval (config q) in
  next ← exec (Find (mkQuery (is_pending queue) [run_at] 0 (Some 1)));
  match next with
  | inl e => mret (None, poll, Some e)
  | inr [] => mret (None, poll, None)
  | inr (next :: _) =>
      t ← now;
      let wait := time_Until t (r_RunAt next) in
      if decide (wait < poll) then mret (None, Z.max wait Millisecond, None)
      else mret (None, poll, None)
  end.

(** [for i := range candidates]: the first candidate that is still there. *)
Fixpoint claim_loop (q : GormWorkQueue) (queue : string) (t : time) (candidates : list TaskRecord) :
    program claimed :=
  match candidates with
  | [] => claim_wait q queue
  | c :: candidates =>
      let lease := time_Add t (LeaseDuration (config q)) in
      res ← exec (Updates (guarded (r_ID c) StatusPending (r_Attempts c)) (start lease));
      match res with
      | inl e => mret (None, PollInterval (config q), Some e)
      | inr affected =>
          if decide (affected = 0) then claim_loop q queue t candidates
          else mret (Some (mark_claimed lease c), 0, None)
      end
  end.

Definition claim (q : GormWorkQueue) (queue : string) : program claimed :=
  t ← now;
  candidates ← exec (Find (mkQuery (is_ready queue t) [run_at; enqueued_at] 0 (Some 5)));
  match candidates with
  | inl e => mret (None, PollInterval (config q), Some e)
  | inr candidates => claim_loop q queue t candidates
  end.

(** ** Complete *)

Definition complete (record : TaskRecord) (handlerErr : option string) (o : ConsumeOptions) :
    program unit :=
  match handlerErr with
  | None => _ ← exec (Delete (has_id (r_ID record))); mret tt
  | Some e =>
      let guard := guarded (r_ID record) StatusRunning (r_Attempts record) in
      if decide (r_MaxRetries record < r_Attempts record) then
        t ← now;
        _ ← exec (Updates guard (bury e t));
        mret tt
      else
        t ← now;
        let d := default 0 (RetryBackoff (BackoffBase o) (BackoffMax o) (r_Attempts record)) in
        res ← exec (Updates guard (reschedule e (time_Add t d)));
        match res with
        | inl _ => mret tt
        | inr _ => locked_do (broadcastLocal (r_Queue record))
        end
  end.

(** ** The worker *)

(** One round of the loop of [worker], from [q.notify] to the second [select]. *)
Definition worker `{Json} (q : GormWorkQueue) (queue : string) (o : ConsumeOptions) :
    program round :=
  ch ← locked_do (notify queue);
  '(record, wait, _) ← claim q queue;
  match record with
  | Some record =>
      match toTask record with
      | inl e => _ ← complete record (Some ("decode task: " +:+ e)) o; mret Again
      | inr task =>
          err ← invoke task;
          _ ← complete record err o;
          mret Again
      end
  | None => _ ← reapExpiredLeases queue; mret (Sleep ch wait)
  end.

(** ** Dead letters *)

Fixpoint decode_all `{Json} (l : list TaskRecord) : Err + list Task :=
  match l with
  | [] => inr []
  | r :: l =>
      match toTask r with
      | inl e => inl (ErrStorage e)
      | inr t => match decode_all l with inl e => inl e | inr ts => inr (t :: ts) end
      end
  end.

Definition ListDeadTasks `{Json} (q : GormWorkQueue) (queue : string) (limit offset : Z) :
    program (Err + list Task) :=
  match ready q with
  | Some e => mret (inl e)
  | None =>
      let offset := if decide (offset < 0) then 0 else offset in
      let lim := if decide (0 < limit) then Some limit else None in
      res ← exec (Find (mkQuery (is_dead queue) [died_at; id] offset lim));
      match res with
      | inl e => mret (inl (ErrStorage e))
      | inr records => mret (decode_all records)
      end
  end.

Definition RequeueDeadTask (q : GormWorkQueue) (queue taskID : string) : program (option Err) :=
  match ready q with
  | Some e => mret (Some e)
  | None =>
      t ← now;
      res ← exec (Updates (is_dead_task taskID queue) (revive t));
      match res with
      | inl e => mret (Some (ErrStorage e))
      | inr affected =>
          if decide (affected = 0) then mret (Some ErrTaskNotFound)
          else _ ← locked_do (broadcastLocal queue); mret None
      end
  end.

Definition DeleteDeadTask (q : GormWorkQueue) (queue taskID : string) : program (option Err) :=
  match ready q with
  | Some e => mret (Some e)
  | None =>
      res ← exec (Delete (is_dead_task taskID queue));
      match res with
      | inl e => mret (Some (ErrStorage e))
      | inr affected => mret (if decide (affected = 0) then Some ErrTaskNotFound else None)
      end
  end.

End Gorm.
