(* ===== verification/Leases.v ===== *)
(** * The contract of a shared task table

    What the SQL backends promise each other when their processes share one
    table: every statement moves every row by a step of the machine
    [row_step] (claim, retry, bury, reap, revive, delete, finish), a row
    disappears only when it is dead or when a handler has returned nil for its
    task, and a handler is entered only right after its row was claimed.
    [legal] says this of a program, whatever the other processes do meanwhile;
    the theorems on interleaved executions are proved from it. *)

From stdpp Require Import base tactics list numbers option gmap strings sorting.
From Stdlib Require Import Strings.Byte.
From S2P Require Import Prelude GoRuntime Contract Effects TaskTable SqlEffects.

(** ** Rows *)

(** The columns no statement writes. *)
Definition same_task (r r' : TaskRecord) : Prop :=
  r_ID r = r_ID r' ∧ r_Queue r = r_Queue r' ∧ r_Payload r = r_Payload r' ∧
  r_Metadata r = r_Metadata r' ∧ r_MaxRetries r = r_MaxRetries r' ∧
  r_EnqueuedAt r = r_EnqueuedAt r'.

#[export] Instance same_task_equiv : Equivalence same_task.
Proof.
  split; unfold same_task.
  - done.
  - intros r r' (?&?&?&?&?&?). by split_and!.
  - intros r r' r'' (?&?&?&?&?&?) (?&?&?&?&?&?). split_and!; congruence.
Qed.

(** The shapes of a row, by status. *)
Inductive row_ok (r : TaskRecord) : Prop :=
  | row_pending : r_Status r = StatusPending → r_LeaseExpiresAt r = None →
      r_DiedAt r = None → 0 ≤ r_Attempts r → row_ok r
  | row_running : r_Status r = StatusRunning → is_Some (r_LeaseExpiresAt r) →
      r_DiedAt r = None → 1 ≤ r_Attempts r → row_ok r
  | row_dead : r_Status r = StatusDead → r_LeaseExpiresAt r = None →
      is_Some (r_DiedAt r) → 1 ≤ r_Attempts r → r_MaxRetries r < r_Attempts r → row_ok r.

(** What the running program may do to rows: create one with a fresh
    identifier, and finish the one whose handler returned nil. *)
Record perm := mkPerm { may_create : option string; may_finish : option string }.

Definition no_perm : perm := mkPerm None None.

Inductive row_step (π : perm) (i : string) : option TaskRecord → option TaskRecord → Prop :=
  | step_same o : row_step π i o o
  | step_create r : may_create π = Some i → r_ID r = i → r_Status r = StatusPending →
      r_Attempts r = 0 → 0 ≤ r_MaxRetries r → r_LeaseExpiresAt r = None → r_DiedAt r = None →
      row_step π i None (Some r)
  | step_claim r r' : same_task r r' → r_Status r = StatusPending → r_Status r' = StatusRunning →
      r_Attempts r' = r_Attempts r + 1 → is_Some (r_LeaseExpiresAt r') →
      r_DiedAt r' = r_DiedAt r → r_RunAt r' = r_RunAt r → row_step π i (Some r) (Some r')
  | step_retry r r' : same_task r r' → r_Status r = StatusRunning → r_Status r' = StatusPending →
      r_Attempts r ≤ r_MaxRetries r → r_Attempts r' = r_Attempts r →
      r_LeaseExpiresAt r' = None → r_DiedAt r' = r_DiedAt r → row_step π i (Some r) (Some r')
  | step_reap r r' : same_task r r' → r_Status r = StatusRunning → r_Status r' = StatusPending →
      r_Attempts r' = r_Attempts r → r_LeaseExpiresAt r' = None → r_DiedAt r' = r_DiedAt r →
      r_RunAt r' = r_RunAt r → r_LastError r' = r_LastError r → row_step π i (Some r) (Some r')
  | step_bury r r' : same_task r r' → r_Status r = StatusRunning → r_Status r' = StatusDead →
      r_MaxRetries r < r_Attempts r → r_Attempts r' = r_Attempts r →
      r_LeaseExpiresAt r' = None → is_Some (r_DiedAt r') → row_step π i (Some r) (Some r')
  | step_revive r r' : same_task r r' → r_Status r = StatusDead → r_Status r' = StatusPending →
      r_Attempts r' = 0 → r_LeaseExpiresAt r' = None → r_DiedAt r' = None →
      row_step π i (Some r) (Some r')
  | step_delete r : r_Status r = StatusDead → row_step π i (Some r) None
  | step_finish r : may_finish π = Some i → row_step π i (Some r) None.

Lemma row_step_ok π i r r' :
  row_ok r → row_step π i (Some r) (Some r') → row_ok r'.
Proof.
  intros Hr Hs. inversion Hs; subst; [done|..];
    match goal with H : same_task _ _ |- _ => destruct H as (_ & _ & _ & _ & Hmax & _) end;
    destruct Hr; try status_clash.
  - apply row_running; [done..|congruence|lia].
  - apply row_pending; [done..|congruence|lia].
  - apply row_pending; [done..|congruence|lia].
  - apply row_dead; [done..|lia|lia].
  - apply row_pending; [done..|lia].
Qed.

Lemma row_step_create_ok π i r : row_step π i None (Some r) → row_ok r ∧ r_ID r = i.
Proof. intros Hs. inversion Hs; subst. split; [|done]. apply row_pending; [done..|lia]. Qed.

Lemma row_step_same_task π i r r' : row_step π i (Some r) (Some r') → same_task r r'.
Proof. intros Hs. by inversion Hs. Qed.

(** ** Tables *)

(** [K]: the rows as they were enqueued. *)
Definition store_ok (K : gmap string TaskRecord) (σ : store) : Prop :=
  ∀ i r, rows σ !! i = Some r →
    r_ID r = i ∧ row_ok r ∧ ∃ r0, K !! i = Some r0 ∧ same_task r0 r.

Definition steps_ok (π : perm) (σ σ' : store) : Prop :=
  ∀ i, row_step π i (rows σ !! i) (rows σ' !! i).

Lemma steps_ok_refl π σ : steps_ok π σ σ.
Proof. intros i. apply step_same. Qed.

Lemma steps_ok_rows π σ σ' : rows σ' = rows σ → steps_ok π σ σ'.
Proof. intros Heq i. rewrite Heq. apply step_same. Qed.

Lemma steps_update π w f σ :
  (∀ i r, rows σ !! i = Some r → w r = true → row_step π i (Some r) (Some (f r))) →
  steps_ok π σ (set_rows (update_rows w f (rows σ)) σ).
Proof.
  intros Hw i. simpl. unfold update_rows. rewrite lookup_fmap.
  destruct (rows σ !! i) as [r|] eqn:Hr; simpl; [|apply step_same].
  destruct (w r) eqn:E; [by apply Hw|apply step_same].
Qed.

Lemma delete_rows_lookup w t i :
  delete_rows w t !! i = r ← t !! i; if w r then None else Some r.
Proof.
  unfold delete_rows. rewrite map_lookup_filter.
  destruct (t !! i) as [r|]; simpl; [|done]. by destruct (w r).
Qed.

Lemma steps_delete π w σ :
  (∀ i r, rows σ !! i = Some r → w r = true → row_step π i (Some r) None) →
  steps_ok π σ (set_rows (delete_rows w (rows σ)) σ).
Proof.
  intros Hw i. simpl. rewrite delete_rows_lookup.
  destruct (rows σ !! i) as [r|] eqn:Hr; simpl; [|apply step_same].
  destruct (w r) eqn:E; [by apply Hw|apply step_same].
Qed.

Lemma steps_insert π i o r σ :
  rows σ !! i = o → row_step π i o (Some r) →
  steps_ok π σ (set_rows (<[i:=r]> (rows σ)) σ).
Proof.
  intros Ho Hs j. simpl. destruct (decide (j = i)) as [->|Hne].
  - by rewrite lookup_insert_eq, Ho.
  - rewrite lookup_insert_ne by done. apply step_same.
Qed.

(** A statement that affected rows has one that matches. *)
Lemma matching_nonempty w t :
  Z.of_nat (size (matching w t)) ≠ 0 → ∃ i r, t !! i = Some r ∧ w r = true.
Proof.
  intros Hne. assert (matching w t ≠ ∅) as Hm by (intros E; rewrite E, map_size_empty in Hne; lia).
  apply map_choose in Hm as (i & r & Hir). exists i, r.
  unfold matching in Hir. by apply map_lookup_filter_Some in Hir.
Qed.

(** The rows a query answers are rows of the table. *)
Lemma answers_in `{Engine} q t l r :
  answers q t l → r ∈ l → ∃ i, t !! i = Some r ∧ q_where q r = true.
Proof.
  intros (all & Hperm & _ & Hl) Hr.
  assert (r ∈ all) as Hall.
  { apply list_elem_of_lookup in Hr as [k Hk]. subst l.
    destruct (q_limit q); [apply lookup_take_Some in Hk as [Hk _]|];
      rewrite lookup_drop in Hk; by eapply list_elem_of_lookup_2. }
  rewrite Hperm in Hall. unfold table_rows in Hall.
  apply list_elem_of_fmap in Hall as ([i r'] & -> & Hin).
  apply elem_of_map_to_list in Hin. unfold matching in Hin.
  exists i. by apply map_lookup_filter_Some in Hin.
Qed.

(** ** Legal programs *)

Section legal.
Context `{Engine}.

(** The answers a call can have, and what it does to the table, while other
    transactions lock the rows [L]. *)
Definition eff_sem (L : gset string) {X} (e : eff X) (σ : store) : X → store → Prop :=
  match e in eff X return X → store → Prop with
  | Now => λ _ σ', σ' = σ
  | Exec s => λ x σ', stmt_sem L s σ x σ'
  | Transaction b => λ x σ', tx_sem L b σ x σ'
  | Locked f => λ _ σ', σ' = σ
  | Invoke t => λ _ σ', σ' = σ
  end.

(** A creation uses up its permission; a nil from the handler gives the one
    to finish its task. *)
Definition next_perm (π : perm) {X} (e : eff X) : X → perm :=
  match e in eff X return X → perm with
  | Exec (Create _) | Transaction _ => λ _, mkPerm None (may_finish π)
  | Invoke t => λ err, match err with
                       | None => mkPerm (may_create π) (Some (ID t))
                       | Some _ => π
                       end
  | _ => λ _, π
  end.

(** The task whose handler is running. *)
Definition in_handler {A} (p : program A) : option Task :=
  match p with
  | Do (Invoke t) _ => Some t
  | _ => None
  end.

(** The row of [i] was claimed, for attempt [n]. *)
Definition claimed_row (σ σ' : store) (i : string) (n : Z) : Prop :=
  ∃ r r', rows σ !! i = Some r ∧ rows σ' !! i = Some r' ∧
    r_Status r = StatusPending ∧ r_Status r' = StatusRunning ∧ r_Attempts r' = n.

Fixpoint legal {A} (K : gmap string TaskRecord) (π : perm) (p : program A) : Prop :=
  match p with
  | Ret _ => True
  | Do e k => ∀ L K' σ x σ', K ⊆ K' → store_ok K' σ → eff_sem L e σ x σ' →
      steps_ok π σ σ' ∧
      (∀ t, in_handler (k x) = Some t →
         ∃ n, claimed_row σ σ' (ID t) n ∧ wrap64 (Attempts t) = wrap64 n) ∧
      legal K' (next_perm π e x) (k x)
  end.

Lemma legal_mono {A} K K' π (p : program A) : K ⊆ K' → legal K π p → legal K' π p.
Proof.
  destruct p as [a|X e k]; simpl; [done|]. intros Hle Hl L K2 σ x σ' Hle2 Hok Hsem.
  apply (Hl L K2 σ x σ'); [by etrans|done|done].
Qed.

Lemma legal_ret {A} K π (a : A) : legal K π (mret a).
Proof. done. Qed.

(** Calls that leave the table alone. *)
Lemma legal_quiet {A X} K π (e : eff X) (k : X → program A) :
  (∀ L σ x σ', eff_sem L e σ x σ' → rows σ' = rows σ) → (∀ x, next_perm π e x = π) →
  (∀ x, in_handler (k x) = None) → (∀ x, legal K π (k x)) → legal K π (Do e k).
Proof.
  intros Hrows Hπ Hin Hk L K' σ x σ' Hle Hok Hsem. split_and!.
  - apply steps_ok_rows. by eapply Hrows.
  - intros t. by rewrite Hin.
  - rewrite Hπ. by eapply legal_mono.
Qed.

Lemma legal_now {A} K π (k : time → program A) :
  (∀ t, in_handler (k t) = None) → (∀ t, legal K π (k t)) → legal K π (Do Now k).
Proof. intros. apply legal_quiet; auto. simpl. by intros ???? ->. Qed.

Lemma legal_locked {A X} K π f (k : X → program A) :
  (∀ t, in_handler (k t) = None) → (∀ t, legal K π (k t)) → legal K π (Do (Locked f) k).
Proof. intros. apply legal_quiet; auto. simpl. by intros ???? ->. Qed.

(** A statement that is a step whatever it answers. *)
Lemma legal_exec {A X} K π (s : stmt X) (k : X → program A) :
  (∀ r, next_perm π (Exec s) r = π) →
  (∀ L K' σ x σ', K ⊆ K' → store_ok K' σ → stmt_sem L s σ x σ' → steps_ok π σ σ') →
  (∀ x, in_handler (k x) = None) → (∀ x, legal K π (k x)) → legal K π (Do (Exec s) k).
Proof.
  intros Hπ Hs Hin Hk L K' σ x σ' Hle Hok Hsem. split_and!.
  - by eapply Hs.
  - intros t. by rewrite Hin.
  - rewrite Hπ. by eapply legal_mono.
Qed.

Lemma updates_steps π L w f σ x σ' :
  (∀ i r, rows σ !! i = Some r → w r = true → row_step π i (Some r) (Some (f r))) →
  stmt_sem L (Updates w f) σ x σ' → steps_ok π σ σ'.
Proof.
  intros Hw. destruct x as [e|n]; simpl; [intros [->| ->]|intros [-> _]];
    auto using steps_update, steps_ok_refl.
Qed.

Lemma delete_steps π L w σ x σ' :
  (∀ i r, rows σ !! i = Some r → w r = true → row_step π i (Some r) None) →
  stmt_sem L (Delete w) σ x σ' → steps_ok π σ σ'.
Proof.
  intros Hw. destruct x as [e|n]; simpl; [intros [->| ->]|intros [-> _]];
    auto using steps_delete, steps_ok_refl.
Qed.

Lemma create_steps π L r σ x σ' :
  row_step π (r_ID r) None (Some r) →
  stmt_sem L (Create r) σ x σ' → steps_ok π σ σ'.
Proof.
  intros Hr. destruct x as [e|]; simpl; [intros [[Hn ->]| ->]|intros [Hn ->]];
    eauto using steps_insert, steps_ok_refl.
Qed.
End legal.
