(* ===== verification/GormLegal.v ===== *)
(** * The database backend keeps the contract of the table

    Every program of [Gorm] is [legal]: whatever the other processes and
    backends do to the table between its statements, each of its statements is
    a step of the row machine, and it enters the handler only right after it
    claimed the row. *)

From stdpp Require Import base tactics list numbers option gmap strings sorting.
From S2P Require Import Prelude GoRuntime Contract Options Effects TaskTable SqlEffects Leases Gorm.
Import Gorm.

(** ** Conditions *)

Lemma guarded_spec i s n r :
  guarded i s n r = true ↔ r_ID r = i ∧ r_Status r = s ∧ r_Attempts r = n.
Proof. unfold guarded. rewrite !andb_true_iff, !bool_decide_eq_true. tauto. Qed.

Lemma is_pending_spec queue r :
  is_pending queue r = true ↔ r_Queue r = queue ∧ r_Status r = StatusPending.
Proof. unfold is_pending. by rewrite andb_true_iff, !bool_decide_eq_true. Qed.

Lemma is_ready_spec queue t r :
  is_ready queue t r = true ↔ (r_Queue r = queue ∧ r_Status r = StatusPending) ∧ r_RunAt r ≤ t.
Proof. unfold is_ready. by rewrite andb_true_iff, is_pending_spec, bool_decide_eq_true. Qed.

Lemma lease_expired_running queue t r :
  lease_expired queue t r = true → r_Status r = StatusRunning.
Proof. unfold lease_expired. rewrite !andb_true_iff, !bool_decide_eq_true. tauto. Qed.

Lemma is_dead_task_spec i queue r :
  is_dead_task i queue r = true ↔ r_ID r = i ∧ r_Queue r = queue ∧ r_Status r = StatusDead.
Proof. unfold is_dead_task. rewrite !andb_true_iff, !bool_decide_eq_true. tauto. Qed.

(** ** Programs *)

Section legal.
Context `{Engine, Json}.

Lemma broadcast_legal {A} K π queue (k : unit → program A) :
  in_handler (k tt) = None → legal K π (k tt) → legal K π (bind k (locked_do (broadcastLocal queue))).
Proof. intros ??. apply legal_locked; by intros []. Qed.

Lemma Enqueue_legal K q uuid queue payload opts :
  legal K (mkPerm (Some uuid) None) (Enqueue q uuid queue payload opts).
Proof.
  unfold Enqueue. destruct (ready q); [done|]. apply legal_now.
  - intros t. by destruct (encode_metadata _).
  - intros t. destruct (encode_metadata _) as [e|md]; [done|].
    intros L K' σ x σ' Hle Hok Hsem. split_and!.
    + eapply create_steps; [|exact Hsem]. apply step_create; simpl; try done.
      apply NewEnqueueOptions_nonneg.
    + by destruct x.
    + destruct x; [done|]. by apply legal_locked.
Qed.

Lemma reap_legal {A} K π queue (k : unit → program A) :
  in_handler (k tt) = None → legal K π (k tt) → legal K π (bind k (reapExpiredLeases queue)).
Proof.
  intros Hin Hk. apply legal_now; [done|]. intros t. apply legal_exec; [done| |done|done].
  intros L K' σ x σ' _ Hok. apply updates_steps. intros i r Hr Hw%lease_expired_running.
  destruct (Hok i r Hr) as (_ & _ & _). by apply step_reap.
Qed.

(** What is known of a record in the hands of a worker. *)
Definition held (K : gmap string TaskRecord) (r : TaskRecord) : Prop :=
  ∃ r0, K !! r_ID r = Some r0 ∧ same_task r0 r.

Lemma held_mono K K' r : K ⊆ K' → held K r → held K' r.
Proof. intros Hle (r0 & Hr0 & ?). exists r0. split; [by eapply lookup_weaken|done]. Qed.

Lemma held_row K σ r r' :
  store_ok K σ → held K r → rows σ !! r_ID r = Some r' → same_task r r'.
Proof.
  intros Hok (r0 & Hr0 & Hsame) Hr'. destruct (Hok _ _ Hr') as (_ & _ & r1 & Hr1 & Hsame').
  simplify_eq. by rewrite <- Hsame.
Qed.

Lemma complete_fail_legal {A} K π r e o (k : unit → program A) :
  held K r → in_handler (k tt) = None → legal K π (k tt) →
  legal K π (bind k (complete r (Some e) o)).
Proof.
  intros Hheld Hin Hk. unfold complete.
  assert (∀ K' σ i u, K ⊆ K' → store_ok K' σ → rows σ !! i = Some u →
    guarded (r_ID r) StatusRunning (r_Attempts r) u = true →
    r_Status u = StatusRunning ∧ r_MaxRetries u = r_MaxRetries r ∧ r_Attempts u = r_Attempts r)
    as Hguard.
  { intros K' σ i u Hle Hok Hu (Hid & Hst & Hatt)%guarded_spec. split_and!; [done| |done].
    destruct Hheld as (r0 & Hr0 & Hs0). destruct (Hok i u Hu) as (Hi & _ & r1 & Hr1 & Hs1).
    assert (r0 = r1) as <-.
    { apply (lookup_weaken _ _ _ _ Hr0) in Hle. rewrite <- Hid, Hi in Hle. congruence. }
    destruct Hs0 as (_&_&_&_&<-&_). by destruct Hs1 as (_&_&_&_&<-&_). }
  case_decide as Hmax; (apply legal_now; [done|]); intros t.
  - apply legal_exec; [done| |done|done]. intros L K' σ x σ' Hle Hok. apply updates_steps.
    intros i u Hu Hw. destruct (Hguard K' σ i u Hle Hok Hu Hw) as (Hst & Hm & Ha).
    apply step_bury; simpl; try done. lia.
  - apply legal_exec; [done| | |].
    + intros L K' σ x σ' Hle Hok. apply updates_steps.
      intros i u Hu Hw. destruct (Hguard K' σ i u Hle Hok Hu Hw) as (Hst & Hm & Ha).
      apply step_retry; simpl; try done. lia.
    + by intros [].
    + intros [e'|n]; [done|]. by apply broadcast_legal.
Qed.

Lemma complete_done_legal {A} K π r o (k : unit → program A) :
  may_finish π = Some (r_ID r) → in_handler (k tt) = None → legal K π (k tt) →
  legal K π (bind k (complete r None o)).
Proof.
  intros Hπ Hin Hk. apply legal_exec; [done| |done|done].
  intros L K' σ x σ' Hle Hok. apply delete_steps. intros i u Hu Hw.
  apply bool_decide_eq_true in Hw. destruct (Hok i u Hu) as (<- & _).
  apply step_finish. by rewrite Hw.
Qed.

Lemma claim_wait_legal {A} K π q queue (f : claimed → program A) :
  (∀ wait e, in_handler (f (None, wait, e)) = None ∧ legal K π (f (None, wait, e))) →
  legal K π (bind f (claim_wait q queue)).
Proof.
  intros Hnone. unfold claim_wait. apply legal_exec; [done| | |].
  - intros L K' σ x σ' _ _ [-> _]. apply steps_ok_refl.
  - intros [e|[|next l]]; [apply Hnone|apply Hnone|done].
  - intros [e|[|next l]]; [apply Hnone|apply Hnone|]. apply legal_now.
    + intros t. simpl. case_decide; apply Hnone.
    + intros t. simpl. case_decide; apply Hnone.
Qed.

(** A successful guarded update is the claim of the candidate. *)
Lemma claim_loop_legal {A} K π q queue t cs (f : claimed → program A) :
  Forall (held K) cs →
  (∀ wait e, in_handler (f (None, wait, e)) = None ∧ legal K π (f (None, wait, e))) →
  (∀ K' r, K ⊆ K' → held K' r → legal K' π (f (Some r, 0, None)) ∧
     ∀ u, in_handler (f (Some r, 0, None)) = Some u → ID u = r_ID r ∧ Attempts u = r_Attempts r) →
  legal K π (bind f (claim_loop q queue t cs)).
Proof.
  revert K; induction cs as [|c cs IH]; intros K Hcs Hnone Hsome; [by apply claim_wait_legal|].
  apply Forall_cons in Hcs as [Hc Hcs].
  simpl. intros L K' σ x σ' Hle Hok Hsem.
  assert (∀ wait e, in_handler (f (None, wait, e)) = None ∧ legal K' π (f (None, wait, e)))
    as Hnone' by (intros wait e; split; [apply Hnone|by eapply legal_mono, Hnone]).
  split.
  { eapply (updates_steps π L); [|exact Hsem]. intros i r Hr (Hid & Hst & Hatt)%guarded_spec.
    by apply step_claim; simpl; eauto. }
  destruct x as [e|n]; simpl; [split; [intros u; by rewrite (proj1 (Hnone' _ _))|apply Hnone']|].
  destruct Hsem as [-> Hn]. case_decide as Haff; simpl.
  - split; [intros u Hu; destruct cs; discriminate|].
    apply IH; [by eapply Forall_impl; [exact Hcs|]; intros; eapply held_mono|done|].
    intros K2 r Hle2. apply Hsome. by etrans.
  - destruct (Hsome K' (mark_claimed (time_Add t (LeaseDuration (config q))) c) Hle
      (held_mono _ _ _ Hle Hc)) as [Hleg Hin].
    split; [|done]. intros u Hu. destruct (Hin u Hu) as [Hid Hatt]. simpl in Hid, Hatt.
    rewrite Hn in Haff. destruct (matching_nonempty _ _ Haff) as (i & r & Hr & Hw).
    pose proof (proj1 (guarded_spec _ _ _ _) Hw) as (Hidr & Hst & Ha).
    destruct (Hok i r Hr) as (Hi & _ & _).
    exists (r_Attempts c + 1). split; [|by rewrite Hatt, wrap64_idemp].
    exists r, (start (time_Add t (LeaseDuration (config q))) r).
    assert (ID u = i) as -> by congruence. split_and!; [done| |done|done|simpl; lia].
    simpl. unfold update_rows. rewrite lookup_fmap, Hr; simpl. by rewrite Hw.
Qed.

Lemma claim_legal {A} K π q queue (f : claimed → program A) :
  (∀ wait e, in_handler (f (None, wait, e)) = None ∧ legal K π (f (None, wait, e))) →
  (∀ K' r, K ⊆ K' → held K' r → legal K' π (f (Some r, 0, None)) ∧
     ∀ u, in_handler (f (Some r, 0, None)) = Some u → ID u = r_ID r ∧ Attempts u = r_Attempts r) →
  legal K π (bind f (claim q queue)).
Proof.
  intros Hnone Hsome. apply legal_now; [done|]. intros t.
  intros L K' σ x σ' Hle Hok [-> Hans].
  assert (∀ wait e, in_handler (f (None, wait, e)) = None ∧ legal K' π (f (None, wait, e)))
    as Hnone' by (intros wait e; split; [apply Hnone|by eapply legal_mono, Hnone]).
  split; [apply steps_ok_refl|]. destruct x as [e|cs].
  { simpl. split; [intros u; by rewrite (proj1 (Hnone' _ _))|apply Hnone']. }
  split; [intros u Hu; destruct cs; discriminate|].
  apply claim_loop_legal; [|done|].
  - apply Forall_forall. intros c Hc. destruct (answers_in _ _ _ _ Hans Hc) as (i & Hi & _).
    destruct (Hok i c Hi) as (<- & _ & Hheld). exact Hheld.
  - intros K2 r Hle2. apply Hsome. by etrans.
Qed.

Lemma worker_legal K q queue o : legal K no_perm (worker q queue o).
Proof.
  apply legal_locked; [done|]. intros ch. simpl. apply claim_legal.
  - intros wait e. split; [done|]. by apply (reap_legal _ _ queue (λ _, mret (Sleep ch wait))).
  - intros K' r Hle Hheld. simpl. unfold toTask.
    destruct (match r_Metadata r with Some (b :: l) => _ | _ => _ end) as [e|md].
    + split; [by apply (complete_fail_legal _ _ r _ o (λ _, mret Again))|].
      intros u. unfold complete. by destruct (decide _).
    + split; [|by intros u [= <-]].
      intros L K2 σ err σ' Hle2 Hok ->. split; [apply steps_ok_refl|].
      destruct err as [e|].
      * split; [intros u; simpl; by destruct (decide _)|].
        apply (complete_fail_legal _ _ r _ o (λ _, mret Again)); [by eapply held_mono|done|done].
      * split; [done|]. by apply (complete_done_legal _ _ r o (λ _, mret Again)).
Qed.

Lemma ListDeadTasks_legal K q queue limit offset : legal K no_perm (ListDeadTasks q queue limit offset).
Proof.
  unfold ListDeadTasks. destruct (ready q); [done|].
  apply legal_exec; [done| |by intros []|by intros []].
  intros L K' σ x σ' _ _ [-> _]. apply steps_ok_refl.
Qed.

Lemma RequeueDeadTask_legal K q queue i : legal K no_perm (RequeueDeadTask q queue i).
Proof.
  unfold RequeueDeadTask. destruct (ready q); [done|]. apply legal_now; [done|]. intros t.
  apply legal_exec; [done| | |].
  - intros L K' σ x σ' _ Hok. apply updates_steps. intros j r Hr (Hi & _ & Hst)%is_dead_task_spec.
    destruct (Hok j r Hr) as (_ & Hrow & _). apply step_revive; simpl; try done.
    by destruct Hrow; try status_clash.
  - intros [e|n]; [done|]. simpl. by case_decide.
  - intros [e|n]; [done|]. simpl. case_decide; [done|]. by apply broadcast_legal.
Qed.

Lemma DeleteDeadTask_legal K q queue i : legal K no_perm (DeleteDeadTask q queue i).
Proof.
  unfold DeleteDeadTask. destruct (ready q); [done|].
  apply legal_exec; [done| |by intros []|by intros []].
  intros L K' σ x σ' _ Hok. apply delete_steps. intros j r Hr (Hi & _ & Hst)%is_dead_task_spec.
  by apply step_delete.
Qed.
End legal.
