(* ===== verification/Postgres.v ===== *)
(** * The PostgreSQL backend: src/postgres_workqueue/workqueue.go

    The programs of the backend that claims with one FOR UPDATE SKIP LOCKED
    statement and notifies other processes. The methods the package copies from
    gorm_workqueue are written out again; [Postgres_copies] says which agree. *)

From stdpp Require Import base tactics list numbers option gmap strings.
From Stdlib Require Import Strings.Byte Ascii.
From S2P Require Import Prelude GoRuntime Contract Options Effects TaskTable SqlEffects Gorm.

Module Postgres.

(** ** Configuration *)

Definition DefaultTableName : string := "workqueue_tasks".
Definition DefaultPollInterval : duration := 30 * Second.
Definition DefaultLeaseDuration : duration := 5 * Minute.

Record Config := mkConfig {
  TableName : string;
  PollInterval : duration;
  LeaseDuration : duration;
  NotifyChannel : string;
  ListenDSN : string
}.

Definition withDefaults (c : Config) : Config :=
  let c := if decide (TableName c = "")
           then mkConfig DefaultTableName (PollInterval c) (LeaseDuration c) (NotifyChannel c)
                  (ListenDSN c) else c in
  let c := if decide (PollInterval c ≤ 0)
           then mkConfig (TableName c) DefaultPollInterval (LeaseDuration c) (NotifyChannel c)
                  (ListenDSN c) else c in
  let c := if decide (LeaseDuration c ≤ 0)
           then mkConfig (TableName c) (PollInterval c) DefaultLeaseDuration (NotifyChannel c)
                  (ListenDSN c) else c in
  if decide (NotifyChannel c = "")
  then mkConfig (TableName c) (PollInterval c) (LeaseDuration c) (TableName c +:+ "_wakeup")
         (ListenDSN c) else c.

Record PostgresWorkQueue := mkQueue { started : bool; config : Config }.

Definition New (db : bool) (c : Config) : PostgresWorkQueue := mkQueue db (withDefaults c).

Definition ready (q : PostgresWorkQueue) : option Err :=
  if started q then None else Some errNotStarted.

(** The connection string [startListener] uses, if any; [dialector] is the one
    of the database handle when it is a postgres dialector. *)
Definition listen_dsn (q : PostgresWorkQueue) (dialector : option string) : option string :=
  let dsn := ListenDSN (config q) in
  let dsn := if decide (dsn = "") then default "" dialector else dsn in
  if decide (dsn = "") then None else Some dsn.

(** ** Rows: src/postgres_workqueue/model.go

    The columns are those of [TaskRecord]; the conversion is written out again
    there. *)

Definition toTask `{Json} (r : TaskRecord) : string + Task :=
  let metadata :=
    match r_Metadata r with
    | Some (b :: l) => Unmarshal (b :: l)
    | _ => inr None
    end in
  match metadata with
  | inl e => inl e
  | inr metadata =>
      let DiedAt := match r_DiedAt r with Some t => t | None => zeroTime end in
      inr (mkTask (r_ID r) (r_Queue r) (r_Payload r) metadata (r_Attempts r) (r_MaxRetries r)
             (r_EnqueuedAt r) (r_RunAt r) (r_LastError r) DiedAt)
  end.

(** Both backends read the same task out of a row of a shared table. *)
Lemma toTask_same `{Json} r : toTask r = TaskTable.toTask r.
Proof. unfold toTask, TaskTable.toTask, default. by destruct (r_DiedAt r). Qed.

(** ** The table name in raw SQL *)

Definition dquote : ascii := ascii_of_nat 34.

(** [strings.ReplaceAll(s, quote, quote+quote)] *)
Fixpoint double_quotes (s : string) : string :=
  match s with
  | EmptyString => EmptyString
  | String c s => if decide (c = dquote) then String dquote (String dquote (double_quotes s))
                  else String c (double_quotes s)
  end.

Definition quotedTable (q : PostgresWorkQueue) : string :=
  String dquote (double_quotes (TableName (config q)) +:+ String dquote EmptyString).

(** ** Wake channels *)

Definition notify (queue : string) (l : local) : option (chan * local) :=
  match notifies l !! queue with
  | Some ch => Some (ch, l)
  | None =>
      let '(ch, c) := make_chan (l_chans l) in
      Some (ch, mkLocal (<[queue:=ch]> (notifies l)) c)
  end.

Definition broadcastLocal (queue : string) (l : local) : option (unit * local) :=
  c ← match notifies l !! queue with
      | Some ch => close_chan ch (l_chans l)
      | None => Some (l_chans l)
      end;
  let '(ch, c) := make_chan c in
  Some (tt, mkLocal (<[queue:=ch]> (notifies l)) c).

(** The entries of the map in the order the range takes them. *)
Fixpoint broadcast_each (entries : list (string * chan)) (l : local) : option (unit * local) :=
  match entries with
  | [] => Some (tt, l)
  | (queue, ch) :: entries =>
      c ← close_chan ch (l_chans l);
      let '(ch', c) := make_chan c in
      broadcast_each entries (mkLocal (<[queue:=ch']> (notifies l)) c)
  end.

Definition broadcastAll (l : local) : option (unit * local) :=
  broadcast_each (map_to_list (notifies l)) l.

(** The listener's [onWake]. *)
Definition onWake (queue : string) (l : local) : option (unit * local) :=
  if decide (queue = "") then broadcastAll l else broadcastLocal queue l.

(** ** Conditions and assignments of the statements *)

Definition is_pending (queue : string) (r : TaskRecord) : bool :=
  bool_decide (r_Queue r = queue) && bool_decide (r_Status r = StatusPending).

Definition is_ready (queue : string) (t : time) (r : TaskRecord) : bool :=
  is_pending queue r && bool_decide (r_RunAt r ≤ t).

Definition lease_expired (queue : string) (t : time) (r : TaskRecord) : bool :=
  bool_decide (r_Queue r = queue) && bool_decide (r_Status r = StatusRunning) &&
  match r_LeaseExpiresAt r with Some l => bool_decide (l < t) | None => false end.

Definition guarded (i status : string) (n : Z) (r : TaskRecord) : bool :=
  bool_decide (r_ID r = i) && bool_decide (r_Status r = status) && bool_decide (r_Attempts r = n).

Definition has_id (i : string) (r : TaskRecord) : bool := bool_decide (r_ID r = i).

Definition is_dead_task (i queue : string) (r : TaskRecord) : bool :=
  bool_decide (r_ID r = i) && bool_decide (r_Queue r = queue) && bool_decide (r_Status r = StatusDead).

Definition is_dead (queue : string) (r : TaskRecord) : bool :=
  bool_decide (r_Queue r = queue) && bool_decide (r_Status r = StatusDead).

Definition reap (r : TaskRecord) : TaskRecord :=
  mkRecord (r_ID r) (r_Queue r) StatusPending (r_RunAt r) (r_Payload r) (r_Metadata r)
    (r_Attempts r) (r_MaxRetries r) (r_EnqueuedAt r) (r_LastError r) (r_DiedAt r) None.

Definition start (lease : time) (r : TaskRecord) : TaskRecord :=
  mkRecord (r_ID r) (r_Queue r) StatusRunning (r_RunAt r) (r_Payload r) (r_Metadata r)
    (r_Attempts r + 1) (r_MaxRetries r) (r_EnqueuedAt r) (r_LastError r) (r_DiedAt r) (Some lease).

Definition bury (e : string) (t : time) (r : TaskRecord) : TaskRecord :=
  mkRecord (r_ID r) (r_Queue r) StatusDead (r_RunAt r) (r_Payload r) (r_Metadata r)
    (r_Attempts r) (r_MaxRetries r) (r_EnqueuedAt r) e (Some t) None.

Definition reschedule (e : string) (t : time) (r : TaskRecord) : TaskRecord :=
  mkRecord (r_ID r) (r_Queue r) StatusPending t (r_Payload r) (r_Metadata r)
    (r_Attempts r) (r_MaxRetries r) (r_EnqueuedAt r) e (r_DiedAt r) None.

Definition revive (t : time) (r : TaskRecord) : TaskRecord :=
  mkRecord (r_ID r) (r_Queue r) StatusPending t (r_Payload r) (r_Metadata r)
    0 (r_MaxRetries r) (r_EnqueuedAt r) "" None (r_LeaseExpiresAt r).

(** ** Enqueue *)

Definition encode_metadata `{Json} (md : metadata) : string + bytes :=
  match md with
  | None => inr None
  | Some m => if decide (m = ∅) then inr None
              else match Marshal m with inl e => inl e | inr b => inr (Some b) end
  end.

Definition new_record (now : time) (uuid queue : string) (payload md : bytes)
    (o : EnqueueOptions) : TaskRecord :=
  mkRecord uuid queue StatusPending (ResolveRunAt o now) payload md 0 (eo_MaxRetries o)
    now "" None None.

Definition decoded `{Json} (r : TaskRecord) : Err + Task :=
  match toTask r with inl e => inl (ErrStorage e) | inr t => inr t end.

(** [return tx.Exec("SELECT pg_notify(?, ?)", ...).Error] *)
Definition tx_notify (channel queue : string) : tx :=
  TxDo (PgNotify channel queue) (λ e, TxReturn (option_map ErrStorage e)).

(** The INSERT and the NOTIFY in one transaction. *)
Definition enqueue_tx (channel : string) (record : TaskRecord) : tx :=
  TxDo (Create record) (λ e,
    match e with
    | Some e => TxReturn (Some (ErrStorage e))
    | None => tx_notify channel (r_Queue record)
    end).

Definition Enqueue `{Json} (q : PostgresWorkQueue) (uuid queue : string) (payload : bytes)
    (opts : list EnqueueOption) : program (Err + Task) :=
  match ready q with
  | Some e => mret (inl e)
  | None =>
      let o := NewEnqueueOptions opts in
      t ← now;
      match encode_metadata (eo_Metadata o) with
      | inl e => mret (inl (ErrStorage e))
      | inr md =>
          let record := new_record t uuid queue payload md o in
          err ← transaction (enqueue_tx (NotifyChannel (config q)) record);
          match err with
          | Some e => mret (inl e)
          | None =>
              _ ← locked_do (broadcastLocal queue);
              mret (decoded record)
          end
      end
  end.

(** ** Claim *)

Abbreviation claimed := (option TaskRecord * duration * option string)%type.

Definition claim_wait (q : PostgresWorkQueue) (queue : string) : program claimed :=
  let poll := PollInterval (config q) in
  next ← exec (Find (mkQuery (is_pending queue) [run_at] 0 (Some 1)));
  match next with
  | inl e => mret (None, poll, Some e)
  | inr [] => mret (None, poll, None)
  | inr (next :: _) =>
      t ← now;
      let wait := time_Until t (r_RunAt next) in
      if decide (wait < poll) then mret (None, Z.max wait Millisecond, None)
      else mret (None, poll, None)
  end.

Definition claim (q : PostgresWorkQueue) (queue : string) : program claimed :=
  t ← now;
  let lease := time_Add t (LeaseDuration (config q)) in
  res ← exec (UpdateFirst (is_ready queue t) [run_at; enqueued_at] (start lease));
  match res with
  | inl e => mret (None, PollInterval (config q), Some e)
  | inr (Some record) => mret (Some record, 0, None)
  | inr None => claim_wait q queue
  end.

Definition reapExpiredLeases (q : PostgresWorkQueue) (queue : string) : program unit :=
  t ← now;
  res ← exec (Updates (lease_expired queue t) reap);
  match res with
  | inl _ => mret tt
  | inr affected =>
      if decide (0 < affected)
      then _ ← exec (PgNotify (NotifyChannel (config q)) queue); mret tt
      else mret tt
  end.

(** ** Complete *)

Definition complete (record : TaskRecord) (handlerErr : option string) (o : ConsumeOptions) :
    program unit :=
  match handlerErr with
  | None => _ ← exec (Delete (has_id (r_ID record))); mret tt
  | Some e =>
      let guard := guarded (r_ID record) StatusRunning (r_Attempts record) in
      if decide (r_MaxRetries record < r_Attempts record) then
        t ← now;
        _ ← exec (Updates guard (bury e t));
        mret tt
      else
        t ← now;
        let d := default 0 (RetryBackoff (BackoffBase o) (BackoffMax o) (r_Attempts record)) in
        res ← exec (Updates guard (reschedule e (time_Add t d)));
        match res with
        | inl _ => mret tt
        | inr _ => locked_do (broadcastLocal (r_Queue record))
        end
  end.

(** ** The worker *)

Definition worker `{Json} (q : PostgresWorkQueue) (queue : string) (o : ConsumeOptions) :
    program round :=
  ch ← locked_do (notify queue);
  '(record, wait, _) ← claim q queue;
  match record with
  | Some record =>
      match toTask record with
      | inl e => _ ← complete record (Some ("decode task: " +:+ e)) o; mret Again
      | inr task =>
          err ← invoke task;
          _ ← complete record err o;
          mret Again
      end
  | None => _ ← reapExpiredLeases q queue; mret (Sleep ch wait)
  end.

(** ** Dead letters *)

Fixpoint decode_all `{Json} (l : list TaskRecord) : Err + list Task :=
  match l with
  | [] => inr []
  | r :: l =>
      match toTask r with
      | inl e => inl (ErrStorage e)
      | inr t => match decode_all l with inl e => inl e | inr ts => inr (t :: ts) end
      end
  end.

Definition ListDeadTasks `{Json} (q : PostgresWorkQueue) (queue : string) (limit offset : Z) :
    program (Err + list Task) :=
  match ready q with
  | Some e => mret (inl e)
  | None =>
      let offset := if decide (offset < 0) then 0 else offset in
      let lim := if decide (0 < limit) then Some limit else None in
      res ← exec (Find (mkQuery (is_dead queue) [died_at; id] offset lim));
      match res with
      | inl e => mret (inl (ErrStorage e))
      | inr records => mret (decode_all records)
      end
  end.

(** The UPDATE and the NOTIFY in one transaction. *)
Definition requeue_tx (channel queue taskID : string) (t : time) : tx :=
  TxDo (Updates (is_dead_task taskID queue) (revive t)) (λ res,
    match res with
    | inl e => TxReturn (Some (ErrStorage e))
    | inr affected =>
        if decide (affected = 0) then TxReturn (Some ErrTaskNotFound)
        else tx_notify channel queue
    end).

Definition RequeueDeadTask (q : PostgresWorkQueue) (queue taskID : string) : program (option Err) :=
  match ready q with
  | Some e => mret (Some e)
  | None =>
      t ← now;
      err ← transaction (requeue_tx (NotifyChannel (config q)) queue taskID t);
      match err with
      | Some e => mret (Some e)
      | None => _ ← locked_do (broadcastLocal queue); mret None
      end
  end.

Definition DeleteDeadTask (q : PostgresWorkQueue) (queue taskID : string) : program (option Err) :=
  match ready q with
  | Some e => mret (Some e)
  | None =>
      res ← exec (Delete (is_dead_task taskID queue));
      match res with
      | inl e => mret (Some (ErrStorage e))
      | inr affected => mret (if decide (affected = 0) then Some ErrTaskNotFound else None)
      end
  end.

End Postgres.

(** ** The copies agree

    The methods the package shares with gorm_workqueue do the same, so that
    what is proved of them there holds here. *)
Lemma Postgres_copies `{Json} :
  Postgres.complete = Gorm.complete ∧ Postgres.broadcastLocal = Gorm.broadcastLocal ∧
  Postgres.notify = Gorm.notify ∧ Postgres.new_record = Gorm.new_record ∧
  (∀ db c queue limit offset, Postgres.ListDeadTasks (Postgres.New db c) queue limit offset =
     Gorm.ListDeadTasks (Gorm.New db (Gorm.mkConfig (Postgres.TableName c)
       (Postgres.PollInterval c) (Postgres.LeaseDuration c))) queue limit offset) ∧
  (∀ db c queue i, Postgres.DeleteDeadTask (Postgres.New db c) queue i =
     Gorm.DeleteDeadTask (Gorm.New db (Gorm.mkConfig (Postgres.TableName c)
       (Postgres.PollInterval c) (Postgres.LeaseDuration c))) queue i).
Proof. split_and!; reflexivity. Qed.
