(* ===== verification/WakeChannels.v ===== *)
(** * The wake channels of a process of the SQL backends

    [notifies] gives each queue the channel its sleeping workers wait on;
    [notify], [broadcastLocal] and the listener's [onWake] change it under the
    mutex. No channel is closed twice, a channel handed out stays the queue's
    until it is closed, and nothing else is closed. *)

From stdpp Require Import base tactics list numbers option gmap strings.
From S2P Require Import Prelude GoRuntime Contract Effects TaskTable SqlEffects Gorm Postgres.

(** ** Wake channels *)

(** The channels of the map are open and each belongs to one queue. *)
Record local_ok (l : local) : Prop := {
  lk_chans : chans_ok (l_chans l);
  lk_open queue ch : notifies l !! queue = Some ch → is_open ch (l_chans l);
  lk_inj queue queue' ch :
    notifies l !! queue = Some ch → notifies l !! queue' = Some ch → queue = queue'
}.

Lemma local_init_ok : local_ok local_init.
Proof.
  split; simpl.
  - intros ch Hch. unfold is_closed in Hch. simpl in Hch. by apply not_elem_of_empty in Hch.
  - intros queue ch. by rewrite lookup_empty.
  - intros queue queue' ch. by rewrite lookup_empty.
Qed.

(** The channel a broadcast makes is new and open. *)
Lemma fresh_channel_ok queue c l :
  chans_ok c → (∀ queue' ch, queue' ≠ queue → notifies l !! queue' = Some ch → is_open ch c) →
  (∀ q1 q2 ch, notifies l !! q1 = Some ch → notifies l !! q2 = Some ch → q1 = q2) →
  local_ok (mkLocal (<[queue:=(make_chan c).1]> (notifies l)) (make_chan c).2).
Proof.
  intros Hc Hopen Hinj. split; simpl.
  - by apply make_chan_ok.
  - intros q ch. rewrite lookup_insert_Some. intros [[<- <-]|[Hne Hq]]; [by apply make_chan_open|].
    apply make_chan_other. by eapply Hopen.
  - intros q1 q2 ch. rewrite !lookup_insert_Some.
    intros [[<- <-]|[Hn1 H1]] [[<- Heq]|[Hn2 H2]]; try done; [| |by eapply Hinj].
    + destruct (Hopen q2 _ (not_eq_sym Hn2) H2) as [Hm _]. unfold made in Hm. simpl in Hm. lia.
    + subst ch. destruct (Hopen q1 _ (not_eq_sym Hn1) H1) as [Hm _]. unfold made in Hm. simpl in Hm. lia.
Qed.

Lemma close_open_other ch ch' c c' :
  close_chan ch c = Some c' → ch' ≠ ch → is_open ch' c → is_open ch' c'.
Proof.
  intros Hc Hne [Hm Ho]. split.
  - by apply (close_chan_made _ _ _ _ Hc).
  - rewrite (close_chan_is_closed _ _ _ _ Hc). tauto.
Qed.

Lemma broadcastLocal_ok queue l :
  local_ok l → ∃ l', Gorm.broadcastLocal queue l = Some (tt, l') ∧ local_ok l' ∧
    chans_le (l_chans l) (l_chans l') ∧
    (∀ ch, notifies l !! queue = Some ch → is_closed ch (l_chans l')) ∧
    (∀ queue' ch, queue' ≠ queue → notifies l !! queue' = Some ch →
       notifies l' !! queue' = Some ch).
Proof.
  intros Hl. unfold Gorm.broadcastLocal. destruct (notifies l !! queue) as [ch|] eqn:Hch; simpl.
  - destruct (close_chan_open ch (l_chans l)) as [c Hc]; [by eapply lk_open|].
    rewrite Hc; simpl. eexists. split; [done|].
    assert (chans_ok c) as Hok.
    { eapply close_chan_ok; [apply Hl| |exact Hc]. apply (lk_open l Hl queue ch Hch). }
    split_and!.
    + apply (fresh_channel_ok queue c l); [done| |apply Hl].
      intros q ch' Hne Hq. eapply close_open_other; [exact Hc| |by eapply lk_open].
      intros ->. apply Hne. by eapply (lk_inj l Hl).
    + simpl. etrans; [by eapply close_chan_le|apply make_chan_le].
    + intros ch' [= <-]. simpl. apply make_chan_is_closed.
      apply (close_chan_is_closed _ _ _ _ Hc). by left.
    + intros q ch' Hne Hq. simpl. by rewrite lookup_insert_ne.
  - eexists. split; [done|]. split_and!.
    + apply (fresh_channel_ok queue (l_chans l) l); [apply Hl| |apply Hl].
      intros q ch' Hne Hq. by eapply lk_open.
    + apply make_chan_le.
    + done.
    + intros q ch' Hne Hq. simpl. by rewrite lookup_insert_ne.
Qed.

(** ** Critical sections *)

(** What a critical section on the channels does. *)
Record local_step (l l' : local) : Prop := {
  ls_ok : local_ok l';
  ls_le : chans_le (l_chans l) (l_chans l');
  ls_kept q ch : notifies l !! q = Some ch → notifies l' !! q = Some ch ∨ is_closed ch (l_chans l');
  ls_closed ch : is_closed ch (l_chans l') →
    is_closed ch (l_chans l) ∨ (∃ q, notifies l !! q = Some ch) ∨ ¬ made ch (l_chans l);
  ls_new q ch : notifies l' !! q = Some ch → notifies l !! q = Some ch ∨ ¬ made ch (l_chans l)
}.

Lemma local_step_refl l : local_ok l → local_step l l.
Proof. intros Hl. by split; auto. Qed.

Lemma local_step_trans l1 l2 l3 : local_step l1 l2 → local_step l2 l3 → local_step l1 l3.
Proof.
  intros [Hok1 Hle1 Hk1 Hc1 Hn1] [Hok2 Hle2 Hk2 Hc2 Hn2].
  assert (∀ ch, ¬ made ch (l_chans l2) → ¬ made ch (l_chans l1)) as Hmade.
  { intros ch Hch Hm. by eapply Hch, chans_le_made. }
  split; [done|by etrans| | |].
  - intros q ch [Hq|Hcl]%Hk1; [by apply Hk2|right]. by eapply chans_le_closed.
  - intros ch [Hcl|[[q Hq]|Hm]]%Hc2; [by apply Hc1| |by auto].
    destruct (Hn1 q ch Hq); [right; left; by exists q|by auto].
  - intros q ch [Hq|Hm]%Hn2; [by apply Hn1|by auto].
Qed.

Lemma notify_step queue l :
  local_ok l → ∃ ch l', Gorm.notify queue l = Some (ch, l') ∧ local_step l l' ∧
    notifies l' !! queue = Some ch.
Proof.
  intros Hl. unfold Gorm.notify. destruct (notifies l !! queue) as [ch|] eqn:Hch.
  { exists ch, l. split_and!; [done|by apply local_step_refl|done]. }
  eexists _, _. split; [done|]. simpl. split; [|by rewrite lookup_insert_eq].
  split; simpl.
  - apply (fresh_channel_ok queue (l_chans l) l); [apply Hl| |apply Hl].
    intros q ch' _ Hq. by eapply lk_open.
  - apply make_chan_le.
  - intros q ch' Hq. left. rewrite lookup_insert_ne; [done|]. by intros ->; rewrite Hch in Hq.
  - intros ch' Hcl. left. by apply make_chan_is_closed in Hcl.
  - intros q ch'. rewrite lookup_insert_Some. intros [[<- <-]|[_ Hq]]; [right|by left].
    unfold made. lia.
Qed.

(** A broadcast closes the channel its queue had. *)
Definition closes (queue : string) (l l' : local) : Prop :=
  ∀ ch, notifies l !! queue = Some ch → is_closed ch (l_chans l').

Lemma broadcastLocal_step queue l :
  local_ok l → ∃ l', Gorm.broadcastLocal queue l = Some (tt, l') ∧ local_step l l' ∧ closes queue l l'.
Proof.
  intros Hl. destruct (broadcastLocal_ok queue l Hl) as (l' & Hb & Hok & Hle & Hcl & Hother).
  exists l'. split_and!; [done| |exact Hcl]. split; [done|done| | |].
  - intros q ch Hq. destruct (decide (q = queue)) as [->|Hne]; [right|left]; auto.
  - intros ch Hch. unfold Gorm.broadcastLocal in Hb. destruct (notifies l !! queue) as [c|] eqn:Hc; simpl in Hb.
    + apply bind_Some in Hb as (c1 & Hc1 & [= <-]). simpl in Hch. apply make_chan_is_closed in Hch.
      apply (close_chan_is_closed _ _ _ _ Hc1) in Hch as [->|?]; [right; left; by exists queue|by left].
    + injection Hb as <-. simpl in Hch. left. by apply make_chan_is_closed in Hch.
  - intros q ch Hq. destruct (decide (q = queue)) as [->|Hne].
    + right. intros Hm. unfold Gorm.broadcastLocal in Hb. apply bind_Some in Hb as (c1 & Hc1 & [= <-]).
      simpl in Hq. rewrite lookup_insert_eq in Hq. injection Hq as <-.
      destruct (notifies l !! queue) as [c|]; [|injection Hc1 as <-; unfold made in Hm; lia].
      unfold made in Hm. unfold close_chan in Hc1. case_decide; [done|]. injection Hc1 as <-. simpl in Hm. lia.
    + left. unfold Gorm.broadcastLocal in Hb. apply bind_Some in Hb as (c1 & _ & [= <-]).
      simpl in Hq. by rewrite lookup_insert_ne in Hq.
Qed.

Lemma broadcast_each_step entries : ∀ l, NoDup entries.*1 → local_ok l →
  (∀ queue ch, (queue, ch) ∈ entries → notifies l !! queue = Some ch) →
  ∃ l', Postgres.broadcast_each entries l = Some (tt, l') ∧ local_step l l' ∧
    (∀ queue ch, (queue, ch) ∈ entries → is_closed ch (l_chans l')).
Proof.
  induction entries as [|[queue ch] entries IH]; intros l Hnd Hl Hin.
  { exists l. split_and!; [done|by apply local_step_refl|]. by intros ?? ?%elem_of_nil. }
  csimpl in Hnd. apply NoDup_cons in Hnd as [Hnotin Hnd].
  assert (notifies l !! queue = Some ch) as Hch by (apply Hin; left).
  destruct (broadcastLocal_ok queue l Hl) as (l1' & Hb' & _ & _ & _ & Hother).
  destruct (broadcastLocal_step queue l Hl) as (l1 & Hb & Hs1 & Hclosed).
  assert (l1' = l1) as -> by congruence.
  assert (Postgres.broadcast_each ((queue, ch) :: entries) l = Postgres.broadcast_each entries l1) as ->.
  { unfold Gorm.broadcastLocal in Hb. rewrite Hch in Hb. simpl in Hb |- *.
    destruct (close_chan ch (l_chans l)); simpl in *; by simplify_eq. }
  destruct (IH l1 Hnd (ls_ok _ _ Hs1)) as (l' & Hrun & Hs' & Hall).
  { intros q c Hqc. apply Hother; [|by apply Hin; right].
    intros ->. apply Hnotin, list_elem_of_fmap. by exists (queue, c). }
  exists l'. split_and!; [done|by eapply local_step_trans|].
  intros q c [[= -> ->]|Hqc]%elem_of_cons; [|by eapply Hall].
  eapply chans_le_closed; [apply Hs'|by apply Hclosed].
Qed.

(** The listener wakes the queue it is told of, or every queue. *)
Lemma onWake_step payload l :
  local_ok l → ∃ l', Postgres.onWake payload l = Some (tt, l') ∧ local_step l l' ∧
    ∀ queue ch, payload = "" ∨ payload = queue → notifies l !! queue = Some ch → is_closed ch (l_chans l').
Proof.
  intros Hl. unfold Postgres.onWake. case_decide as Hp.
  - destruct (broadcast_each_step (map_to_list (notifies l)) l) as (l' & Hrun & Hs & Hall).
    + apply NoDup_fst_map_to_list.
    + done.
    + intros queue ch. by rewrite elem_of_map_to_list.
    + exists l'. split_and!; [exact Hrun|done|].
      intros queue ch _ Hch. by apply (Hall queue), elem_of_map_to_list.
  - destruct (broadcastLocal_step payload l Hl) as (l' & Hrun & Hs & Hcl).
    exists l'. split_and!; [exact Hrun|done|]. intros queue ch [?|<-] Hch; [done|by apply Hcl].
Qed.
