(* ===== verification/PgListener.v ===== *)
(** * The listener of the PostgreSQL backend: src/postgres_workqueue/listener.go

    The goroutine [run]: it connects, listens and forwards notifications until
    the connection breaks, waits and connects again, until it is cancelled.
    The connection is a library's; its answers are the events. *)

From stdpp Require Import base tactics list numbers option gmap strings.
From S2P Require Import Prelude GoRuntime.

Definition minBackoff : duration := Second.
Definition maxBackoff : duration := 30 * Second.

(** Where the goroutine is, with the value of [backoff]. *)
Inductive lpc :=
  | Top (backoff : duration)          (** before [l.ctx.Err() == nil] *)
  | Connecting (backoff : duration)   (** in [pgx.Connect] *)
  | Subscribing (backoff : duration)  (** in [conn.Exec("LISTEN ...")] *)
  | Receiving (backoff : duration)    (** in [conn.WaitForNotification] *)
  | Backing (backoff : duration)      (** in the [select] on [time.After(backoff)] *)
  | Done.                             (** returned, [l.done] closed *)

Inductive levent :=
  | Enter                       (** the loop condition is evaluated *)
  | Answer (err : option string) (** the connect or the LISTEN answers *)
  | Notified (payload : string) (** a notification arrives *)
  | Broken (err : string)       (** the wait for one fails *)
  | Elapsed                     (** [time.After(backoff)] *)
  | Cancelled                   (** [<-l.ctx.Done()] in the [select] *)
  | Cancel.                     (** [Close] calls [l.cancel()] *)

Record listener := mkListener {
  l_pc : lpc;
  l_cancelled : bool;
  l_woken : list string         (** the calls of [onWake], newest first *)
}.

(** [go l.run()] *)
Definition newPGListener : listener := mkListener (Top minBackoff) false [].

Definition goto (pc : lpc) (l : listener) : listener :=
  mkListener pc (l_cancelled l) (l_woken l).

Definition wake (payload : string) (l : listener) : listener :=
  mkListener (l_pc l) (l_cancelled l) (payload :: l_woken l).

(** [listenOnce] returned an error. *)
Definition failed (backoff : duration) (l : listener) : listener :=
  if l_cancelled l then goto (Top minBackoff) l else goto (Backing backoff) l.

Definition run_step (e : levent) (l : listener) : option listener :=
  match e, l_pc l with
  | Enter, Top b => Some (goto (if l_cancelled l then Done else Connecting b) l)
  | Answer (Some _), (Connecting b | Subscribing b) => Some (failed b l)
  | Answer None, Connecting b => Some (goto (Subscribing b) l)
  | Answer None, Subscribing b => Some (goto (Receiving b) (wake "" l))
  | Notified payload, Receiving b => Some (wake payload l)
  | Broken _, Receiving b => Some (failed b l)
  | Elapsed, Backing b => Some (goto (Top (Z.min (wrap64 (b * 2)) maxBackoff)) l)
  | Cancelled, Backing b =>
      if l_cancelled l then Some (goto (Top (Z.min (wrap64 (b * 2)) maxBackoff)) l) else None
  | Cancel, _ => Some (mkListener (l_pc l) true (l_woken l))
  | _, _ => None
  end.

(** Runs of the goroutine, with the events of each. *)
Inductive listens : list levent → listener → listener → Prop :=
  | listens_nil l : listens [] l l
  | listens_cons e tr l l1 l' : run_step e l = Some l1 → listens tr l1 l' → listens (e :: tr) l l'.

Definition backoff_of (l : listener) : option duration :=
  match l_pc l with
  | Top b | Connecting b | Subscribing b | Receiving b | Backing b => Some b
  | Done => None
  end.

(** The steps left at most once the goroutine is cancelled, notifications aside. *)
Definition steps_left (l : listener) : nat :=
  match l_pc l with
  | Top _ => 1 | Backing _ => 2 | Receiving _ => 2 | Subscribing _ => 3 | Connecting _ => 4 | Done => 0
  end.

Ltac step_cases H :=
  match type of H with
  | run_step ?e ?l = Some _ =>
      destruct l as [pc cancelled woken]; destruct e as [|[]| | | | |], pc, cancelled;
      unfold run_step, failed, goto, wake, backoff_of, steps_left in *; simplify_eq/=
  end.

Definition ladder (b : duration) : Prop := b ∈ map (λ n, n * Second) [1; 2; 4; 8; 16; 30].

Lemma ladder_next b : ladder b → ladder (Z.min (wrap64 (b * 2)) maxBackoff).
Proof.
  unfold ladder. simpl. rewrite !elem_of_cons, elem_of_nil.
  intros [->|[->|[->|[->|[->|[->|[]]]]]]]; vm_compute; tauto.
Qed.

Lemma ladder_grows b : ladder b → b ≤ Z.min (wrap64 (b * 2)) maxBackoff.
Proof.
  unfold ladder. simpl. rewrite !elem_of_cons, elem_of_nil.
  intros [->|[->|[->|[->|[->|[->|[]]]]]]]; vm_compute; congruence.
Qed.

Lemma ladder_min : ladder minBackoff.
Proof. unfold ladder, minBackoff. simpl. set_solver. Qed.

Definition on_ladder (l : listener) : Prop := ∀ b, backoff_of l = Some b → ladder b.

Lemma on_ladder_step e l l' : run_step e l = Some l' → on_ladder l → on_ladder l'.
Proof.
  intros Hstep Hl b Hb. pose proof ladder_min. unfold on_ladder in Hl.
  step_cases Hstep; auto using ladder_next.
Qed.

Lemma on_ladder_listens tr l l' : listens tr l l' → on_ladder l → on_ladder l'.
Proof. induction 1; eauto using on_ladder_step. Qed.

Lemma listens_app tr1 tr2 l l1 l' : listens tr1 l l1 → listens tr2 l1 l' → listens (tr1 ++ tr2) l l'.
Proof. induction 1; simpl; [done|econstructor; eauto]. Qed.

(** ** Properties *)

(** Wherever the goroutine is, its backoff is one of 1, 2, 4, 8, 16 and 30
    seconds: it neither overflows nor passes the maximum, and it never spins. *)
Theorem listener_backoff_bounded tr l b :
  listens tr newPGListener l → backoff_of l = Some b →
  b ∈ map (λ n, n * Second) [1; 2; 4; 8; 16; 30] ∧ minBackoff ≤ b ≤ maxBackoff.
Proof.
  intros Htr Hb. assert (ladder b) as Hlad.
  { eapply on_ladder_listens; [exact Htr| |exact Hb]. intros b' [= <-]. apply ladder_min. }
  split; [exact Hlad|]. unfold ladder in Hlad. simpl in Hlad.
  rewrite !elem_of_cons, elem_of_nil in Hlad.
  destruct Hlad as [->|[->|[->|[->|[->|[->|[]]]]]]]; by vm_compute.
Qed.

(** Two failed connections. *)
Definition two_failures : list levent :=
  [Enter; Answer (Some "refused"); Elapsed; Enter; Answer (Some "refused"); Elapsed].

Lemma listener_backoff_bounded_witness :
  4 * Second ∈ map (λ n, n * Second) [1; 2; 4; 8; 16; 30] ∧ minBackoff ≤ 4 * Second ≤ maxBackoff.
Proof.
  apply (listener_backoff_bounded two_failures (mkListener (Top (4 * Second)) false [])).
  - unfold two_failures. repeat (eapply listens_cons; [reflexivity|]). apply listens_nil.
  - reflexivity.
Defined.

(** The backoff never comes down while the listener lives: [listenOnce] only
    returns with an error, so the reset after a good connection is reached by a
    cancelled listener alone, and a connection lost after months is retried
    after the delay the last outage reached. *)
Theorem listener_backoff_never_resets tr0 tr l l' b b' :
  listens tr0 newPGListener l → listens tr l l' → l_cancelled l' = false →
  backoff_of l = Some b → backoff_of l' = Some b' → b ≤ b'.
Proof.
  intros Htr0 Htr Hlive Hb Hb'. assert (on_ladder l) as Hlad.
  { eapply on_ladder_listens; [exact Htr0|]. intros b0 [= <-]. apply ladder_min. }
  clear Htr0 tr0. revert b Hb. induction Htr as [l|e tr l l1 l' Hstep Htr IH]; intros b Hb.
  { by simplify_eq. }
  specialize (IH Hlive Hb' (on_ladder_step _ _ _ Hstep Hlad)).
  assert (l_cancelled l1 = false) as Hlive1.
  { clear - Htr Hlive. induction Htr as [|e tr l l1 l' Hs Htr IH]; [done|].
    specialize (IH Hlive). clear - Hs IH. by step_cases Hs. }
  assert (∃ b1, backoff_of l1 = Some b1 ∧ b ≤ b1) as (b1 & Hb1 & Hle).
  { pose proof (ladder_grows b (Hlad b Hb)). clear IH Htr Hb' Hlad.
    step_cases Hstep; try done; eexists; (split; [reflexivity|lia]). }
  specialize (IH b1 Hb1). lia.
Qed.

(** After two failures the third connection holds, delivers, and breaks: the
    next attempt waits four seconds. *)
Lemma listener_backoff_never_resets_witness : 4 * Second ≤ 4 * Second.
Proof.
  apply (listener_backoff_never_resets two_failures
    [Enter; Answer None; Answer None; Notified "q"; Broken "closed"]
    (mkListener (Top (4 * Second)) false []) (mkListener (Backing (4 * Second)) false ["q"; ""]));
    try reflexivity.
  - unfold two_failures. repeat (eapply listens_cons; [reflexivity|]). apply listens_nil.
  - repeat (eapply listens_cons; [reflexivity|]). apply listens_nil.
Defined.

Lemma woken_grows tr l l' : listens tr l l' → ∃ new, l_woken l' = new ++ l_woken l.
Proof.
  induction 1 as [l|e tr l l1 l' Hstep _ [new Hnew]]; [by exists []|].
  assert (l_woken l1 = l_woken l ∨ ∃ p, l_woken l1 = p :: l_woken l) as [<-|[p Hp]].
  { clear Hnew. step_cases Hstep; eauto. }
  - eauto.
  - exists (new ++ [p]). by rewrite Hnew, Hp, <- app_assoc.
Qed.

(** C37. Whatever was notified while the goroutine was not receiving, all queues are
    woken before it receives again; and every notification it receives wakes
    the queue of its payload. *)
Theorem listener_catches_up tr l l' :
  listens tr l l' → (∀ b, l_pc l ≠ Receiving b) → (∃ b, l_pc l' = Receiving b) →
  ∃ new, l_woken l' = new ++ l_woken l ∧ "" ∈ new ∧ ∀ p, Notified p ∈ tr → p ∈ new.
Proof.
  intros Htr Hout [b Hin].
  enough (∃ new, l_woken l' = new ++ l_woken l ∧
    ((∀ b, l_pc l ≠ Receiving b) → "" ∈ new) ∧ ∀ p, Notified p ∈ tr → p ∈ new) as (new & ? & ? & ?) by eauto.
  clear Hout. induction Htr as [l|e tr l l1 l' Hstep Htr IH].
  { exists []. split_and!; [done|intros Hl; by destruct (Hl b)|by intros p ?%elem_of_nil]. }
  destruct (IH Hin) as (new & Hnew & Hcatch & Hall). clear IH Htr Hin.
  assert ((l_woken l1 = l_woken l ∧ (∀ p, e ≠ Notified p) ∧
           ((∀ b, l_pc l ≠ Receiving b) → ∀ b, l_pc l1 ≠ Receiving b)) ∨
          ∃ p, l_woken l1 = p :: l_woken l ∧ (∀ p', e = Notified p' → p' = p) ∧
           ((∀ b, l_pc l ≠ Receiving b) → p = "")) as [(Hw & He & Hpc)|(p & Hw & He & Hpc)].
  { clear Hnew Hcatch Hall.
    step_cases Hstep; try (left; split_and!; [done|done|intros Hno b' Heq; (discriminate || exact (Hno _ Heq))]);
      right; eexists; (split; [reflexivity|]); split; try congruence; intros Hno;
      exact (False_ind _ (Hno _ eq_refl)) || reflexivity. }
  - exists new. rewrite Hnew, Hw. split_and!; [done|auto|].
    intros p [Hp|Hp]%elem_of_cons; [by destruct (He p)|auto].
  - exists (new ++ [p]). rewrite Hnew, Hw, <- app_assoc. split_and!; [done| |].
    + intros Hno. rewrite (Hpc Hno). set_solver.
    + intros p' [Hp|Hp]%elem_of_cons; [rewrite (He p' (eq_sym Hp)); set_solver|].
      apply elem_of_app. left. auto.
Qed.

Lemma listener_catches_up_witness :
  ∃ new, ["q"; ""; "old"] = new ++ ["old"] ∧ "" ∈ new ∧
    ∀ p, Notified p ∈ [Elapsed; Enter; Answer None; Answer None; Notified "q"] → p ∈ new.
Proof.
  apply (listener_catches_up [Elapsed; Enter; Answer None; Answer None; Notified "q"]
    (mkListener (Backing Second) false ["old"]) (mkListener (Receiving (2 * Second)) false ["q"; ""; "old"])).
  - repeat (eapply listens_cons; [reflexivity|]). apply listens_nil.
  - done.
  - eexists. reflexivity.
Defined.

(** [Close] returns: a cancelled goroutine that gets no more notifications
    reaches its end in at most four steps, and until then it has a step. *)
Theorem listener_close_terminates tr l l' :
  l_cancelled l = true → listens tr l l' → (∀ e, e ∈ tr → e ≠ Cancel ∧ ∀ p, e ≠ Notified p) →
  (length tr ≤ 4)%nat ∧
  (l_pc l' = Done ∨ ∃ e l2, run_step e l' = Some l2 ∧ e ≠ Cancel ∧ ∀ p, e ≠ Notified p).
Proof.
  intros Hc Htr Hev. split.
  - enough (length tr + steps_left l' ≤ steps_left l)%nat as Hle.
    { assert (steps_left l ≤ 4)%nat; [unfold steps_left; case_match; lia|lia]. }
    induction Htr as [l|e tr l l1 l' Hstep Htr IH]; [simpl; lia|].
    pose proof (Hev e ltac:(by left)) as [Hne Hnn].
    assert (l_cancelled l1 = true ∧ S (steps_left l1) ≤ steps_left l)%nat as [Hc1 Hlt].
    { clear IH Htr. step_cases Hstep; try done; try (by destruct (Hnn payload)); split; auto; lia. }
    specialize (IH Hc1 (λ e' He', Hev e' (list_elem_of_further _ _ _ He'))). simpl. lia.
  - destruct l' as [pc c woken]. destruct pc; [| | | | |by left]; right.
    + exists Enter. by eexists.
    + exists (Answer (Some "")). by eexists.
    + exists (Answer (Some "")). by eexists.
    + exists (Broken ""). by eexists.
    + exists Elapsed. by eexists.
Qed.

Lemma listener_close_terminates_witness :
  let l' := mkListener Done true ["x"] in
  (length [Answer (Some "cancelled"); Enter] ≤ 4)%nat ∧
  (l_pc l' = Done ∨ ∃ e l2, run_step e l' = Some l2 ∧ e ≠ Cancel ∧ ∀ p, e ≠ Notified p).
Proof.
  apply (listener_close_terminates _ (mkListener (Subscribing Second) true ["x"])).
  - reflexivity.
  - repeat (eapply listens_cons; [reflexivity|]). apply listens_nil.
  - intros e [->|[->|[]%elem_of_nil]%elem_of_cons]%elem_of_cons; done.
Defined.
