(* ===== verification/PostgresLegal.v ===== *)
(** * The PostgreSQL backend keeps the contract of the table

    As [GormLegal], for the programs of [Postgres]: the single-statement claim
    and the transactions of Enqueue and RequeueDeadTask. *)

From stdpp Require Import base tactics list numbers option gmap strings sorting.
From S2P Require Import Prelude GoRuntime Contract Options Effects TaskTable SqlEffects Leases Gorm GormLegal Postgres.
Import Postgres.

Section legal.
Context `{Engine, Json}.

(** A transaction whose body is a step of the machine when it commits. *)
Lemma tx_steps π L b σ e σ' :
  (∀ σ', tx_run L b σ None σ' → steps_ok π σ σ') → tx_sem L b σ e σ' → steps_ok π σ σ'.
Proof.
  intros Hrun. destruct e as [e|]; simpl; [|auto].
  intros [[-> _]|[_ [->|Hr]]]; auto using steps_ok_refl.
Qed.

Lemma tx_notify_rows L channel queue σ e σ' :
  tx_run L (tx_notify channel queue) σ e σ' → rows σ' = rows σ.
Proof.
  intros (x & σ1 & Hs & _ & ->). destruct x; simpl in Hs; [by destruct Hs as [->| ->]|by subst].
Qed.

(** The rows a transaction leaves: those of its data statement. *)
Lemma enqueue_tx_rows L channel r σ σ' :
  tx_run L (enqueue_tx channel r) σ None σ' →
  rows σ !! r_ID r = None ∧ rows σ' = <[r_ID r:=r]> (rows σ).
Proof.
  intros (x & σ1 & Hs & Hrun). destruct x as [e|]; [by destruct Hrun|].
  destruct Hs as [Hn ->]. apply tx_notify_rows in Hrun. by rewrite Hrun.
Qed.

Lemma requeue_tx_rows L channel queue i t σ σ' :
  tx_run L (requeue_tx channel queue i t) σ None σ' →
  rows σ' = update_rows (is_dead_task i queue) (revive t) (rows σ).
Proof.
  intros (x & σ1 & Hs & Hrun). destruct x as [e|n]; [by destruct Hrun|].
  destruct Hs as [-> Hn]. simpl in Hrun. case_decide; [by destruct Hrun|].
  apply tx_notify_rows in Hrun. by rewrite Hrun.
Qed.

Lemma pg_broadcast_legal {A} K π queue (k : unit → program A) :
  in_handler (k tt) = None → legal K π (k tt) →
  legal K π (bind k (locked_do (broadcastLocal queue))).
Proof. intros ??. apply legal_locked; by intros []. Qed.

Lemma pg_Enqueue_legal K q uuid queue payload opts :
  legal K (mkPerm (Some uuid) None) (Enqueue q uuid queue payload opts).
Proof.
  unfold Enqueue. destruct (ready q); [done|]. apply legal_now.
  - intros t. by destruct (encode_metadata _).
  - intros t. destruct (encode_metadata _) as [e|md]; [done|].
    intros L K' σ x σ' Hle Hok Hsem. split_and!.
    + eapply tx_steps; [|exact Hsem]. intros σ2 [Hn Hrows]%enqueue_tx_rows.
      intros i. rewrite Hrows. destruct (decide (i = uuid)) as [->|Hne].
      * simpl in *. rewrite Hn, lookup_insert_eq. apply step_create; simpl; try done.
        apply NewEnqueueOptions_nonneg.
      * rewrite lookup_insert_ne by done. apply step_same.
    + by destruct x.
    + destruct x; [done|]. by apply legal_locked.
Qed.

Lemma notify_legal {A} K π channel queue (k : option string → program A) :
  (∀ x, in_handler (k x) = None) → (∀ x, legal K π (k x)) →
  legal K π (Do (Exec (PgNotify channel queue)) k).
Proof.
  intros Hin Hk. apply legal_exec; [done| |done|done].
  intros L K' σ x σ' _ _ Hs. apply steps_ok_rows.
  destruct x; simpl in Hs; [by destruct Hs as [->| ->]|by subst].
Qed.

Lemma pg_reap_legal {A} K π q queue (k : unit → program A) :
  in_handler (k tt) = None → legal K π (k tt) → legal K π (bind k (reapExpiredLeases q queue)).
Proof.
  intros Hin Hk. apply legal_now; [done|]. intros t. apply legal_exec; [done| | |].
  - intros L K' σ x σ' _ Hok. apply updates_steps. intros i r Hr Hw.
    apply (lease_expired_running queue t r) in Hw. by apply step_reap.
  - intros [e|n]; [done|]. simpl. by case_decide.
  - intros [e|n]; [done|]. simpl. case_decide; [|done]. by apply notify_legal.
Qed.

Lemma pg_claim_wait_legal {A} K π q queue (f : claimed → program A) :
  (∀ wait e, in_handler (f (None, wait, e)) = None ∧ legal K π (f (None, wait, e))) →
  legal K π (bind f (claim_wait q queue)).
Proof.
  intros Hnone. unfold claim_wait. apply legal_exec; [done| | |].
  - intros L K' σ x σ' _ _ [-> _]. apply steps_ok_refl.
  - intros [e|[|next l]]; [apply Hnone|apply Hnone|done].
  - intros [e|[|next l]]; [apply Hnone|apply Hnone|]. apply legal_now.
    + intros t. simpl. case_decide; apply Hnone.
    + intros t. simpl. case_decide; apply Hnone.
Qed.

(** The claim statement moves at most the row it returns. *)
Lemma updated_first_steps π L queue t lease σ σ' res :
  updated_first L (is_ready queue t) [run_at; enqueued_at] (start lease) (rows σ) res (rows σ') →
  steps_ok π σ σ'.
Proof.
  destruct res as [r'|]; simpl.
  - intros (i & r & Hr & Hw & -> & Hrows & _) j. rewrite Hrows.
    destruct (decide (j = i)) as [->|Hne].
    + rewrite lookup_insert_eq, Hr. apply (is_ready_spec queue t r) in Hw as [[_ Hst] _].
      apply step_claim; simpl; eauto; done.
    + rewrite lookup_insert_ne by done. apply step_same.
  - intros [Hrows _]. by apply steps_ok_rows.
Qed.

Lemma pg_claim_legal {A} K π q queue (f : claimed → program A) :
  (∀ wait e, in_handler (f (None, wait, e)) = None ∧ legal K π (f (None, wait, e))) →
  (∀ K' r, K ⊆ K' → held K' r → legal K' π (f (Some r, 0, None)) ∧
     ∀ u, in_handler (f (Some r, 0, None)) = Some u → ID u = r_ID r ∧ Attempts u = r_Attempts r) →
  legal K π (bind f (claim q queue)).
Proof.
  intros Hnone Hsome. apply legal_now; [done|]. intros t.
  intros L K' σ x σ' Hle Hok Hsem.
  assert (∀ wait e, in_handler (f (None, wait, e)) = None ∧ legal K' π (f (None, wait, e)))
    as Hnone' by (intros wait e; split; [apply Hnone|by eapply legal_mono, Hnone]).
  destruct x as [e|[r'|]].
  - split; [|simpl; split; [intros u; by rewrite (proj1 (Hnone' _ _))|apply Hnone']].
    destruct Hsem as [(_ & res & Hu)| ->]; [by eapply updated_first_steps|apply steps_ok_refl].
  - destruct Hsem as [_ Hu]. split; [by eapply updated_first_steps|].
    destruct Hu as (i & r & Hr & Hw & -> & Hrows & _).
    destruct (Hok i r Hr) as (Hi & _ & r0 & Hr0 & Hsame).
    assert (held K' (start (time_Add t (LeaseDuration (config q))) r)) as Hheld.
    { exists r0. simpl. rewrite Hi. by split. }
    destruct (Hsome K' _ Hle Hheld) as [Hleg Hin]. split; [|done].
    intros u Hu. destruct (Hin u Hu) as [Hid Hatt]. simpl in Hid, Hatt.
    exists (r_Attempts r + 1). split; [|by rewrite Hatt].
    apply (is_ready_spec queue t r) in Hw as [[_ Hst] _].
    exists r, (start (time_Add t (LeaseDuration (config q))) r).
    rewrite Hid, Hi, Hrows, lookup_insert_eq. by split_and!.
  - destruct Hsem as [_ Hu]. split; [by eapply updated_first_steps|].
    split; [|by apply pg_claim_wait_legal]. by intros u.
Qed.

Lemma pg_worker_legal K q queue o : legal K no_perm (worker q queue o).
Proof.
  apply legal_locked; [done|]. intros ch. simpl. apply pg_claim_legal.
  - intros wait e. split; [done|]. by apply (pg_reap_legal _ _ q queue (λ _, mret (Sleep ch wait))).
  - intros K' r Hle Hheld. simpl. unfold Postgres.toTask.
    destruct (match r_Metadata r with Some (b :: l) => _ | _ => _ end) as [e|md].
    + split; [by apply (complete_fail_legal _ _ r _ o (λ _, mret Again))|].
      intros u. unfold complete. by destruct (decide _).
    + split; [|by intros u [= <-]].
      intros L K2 σ err σ' Hle2 Hok ->. split; [apply steps_ok_refl|].
      destruct err as [e|].
      * split; [intros u; simpl; by destruct (decide _)|].
        apply (complete_fail_legal _ _ r _ o (λ _, mret Again));
          [by eapply held_mono|done|done].
      * split; [done|]. by apply (complete_done_legal _ _ r o (λ _, mret Again)).
Qed.

Lemma pg_RequeueDeadTask_legal K q queue i : legal K no_perm (RequeueDeadTask q queue i).
Proof.
  unfold RequeueDeadTask. destruct (ready q); [done|]. apply legal_now; [done|]. intros t.
  intros L K' σ x σ' Hle Hok Hsem. split_and!.
  - eapply tx_steps; [|exact Hsem]. intros σ2 Hrows%requeue_tx_rows.
    intros j. rewrite Hrows. apply (steps_update no_perm _ _ σ).
    clear j. intros j r Hr (Hi & _ & Hst)%(is_dead_task_spec i queue r).
    destruct (Hok j r Hr) as (_ & Hrow & _). apply step_revive; simpl; try done.
    by destruct Hrow; try status_clash.
  - by destruct x.
  - destruct x; [done|]. by apply pg_broadcast_legal.
Qed.

Lemma pg_DeleteDeadTask_legal K q queue i : legal K no_perm (DeleteDeadTask q queue i).
Proof. exact (GormLegal.DeleteDeadTask_legal K (Gorm.mkQueue (started q)
  (Gorm.mkConfig "" 0 0)) queue i). Qed.

Lemma pg_ListDeadTasks_legal K q queue limit offset :
  legal K no_perm (ListDeadTasks q queue limit offset).
Proof. exact (GormLegal.ListDeadTasks_legal K (Gorm.mkQueue (started q)
  (Gorm.mkConfig "" 0 0)) queue limit offset). Qed.
End legal.
