(* ===== verification/SqlSystem.v ===== *)
(** * The SQL backends at work on one table

    Processes of either backend, each with its clients, worker pools and wake
    channels, share one table. A thread runs one of the programs of [Gorm] or
    [Postgres]; an event takes one call of one thread, or lets time pass, or
    kills a process. Between two calls of a thread anything else can happen. *)

From stdpp Require Import base tactics list numbers option gmap strings.
From S2P Require Import Prelude GoRuntime Contract Options Subscription Effects TaskTable SqlEffects Leases Gorm Postgres.

(** ** Backends *)

Inductive backend :=
  | GormNode (q : Gorm.GormWorkQueue)
  | PostgresNode (q : Postgres.PostgresWorkQueue).

Inductive answer :=
  | AnswerTask (r : Err + Task)
  | AnswerList (r : Err + list Task)
  | AnswerErr (e : option Err).

(** The methods of [workqueue.WorkQueue] a client calls. *)
Inductive call :=
  | CallEnqueue (uuid queue : string) (payload : bytes) (opts : list EnqueueOption)
  | CallList (queue : string) (limit offset : Z)
  | CallRequeue (queue taskID : string)
  | CallDelete (queue taskID : string).

Definition method `{Json} (b : backend) (c : call) : program answer :=
  match b, c with
  | GormNode q, CallEnqueue u n p opts => r ← Gorm.Enqueue q u n p opts; mret (AnswerTask r)
  | GormNode q, CallList n limit offset => r ← Gorm.ListDeadTasks q n limit offset; mret (AnswerList r)
  | GormNode q, CallRequeue n i => r ← Gorm.RequeueDeadTask q n i; mret (AnswerErr r)
  | GormNode q, CallDelete n i => r ← Gorm.DeleteDeadTask q n i; mret (AnswerErr r)
  | PostgresNode q, CallEnqueue u n p opts => r ← Postgres.Enqueue q u n p opts; mret (AnswerTask r)
  | PostgresNode q, CallList n limit offset =>
      r ← Postgres.ListDeadTasks q n limit offset; mret (AnswerList r)
  | PostgresNode q, CallRequeue n i => r ← Postgres.RequeueDeadTask q n i; mret (AnswerErr r)
  | PostgresNode q, CallDelete n i => r ← Postgres.DeleteDeadTask q n i; mret (AnswerErr r)
  end.

Definition worker_round `{Json} (b : backend) (queue : string) (o : ConsumeOptions) : program round :=
  match b with
  | GormNode q => Gorm.worker q queue o
  | PostgresNode q => Postgres.worker q queue o
  end.

Definition node_started (b : backend) : bool :=
  match b with GormNode q => Gorm.started q | PostgresNode q => Postgres.started q end.

(** The listener exists in the PostgreSQL backend only. *)
Definition wake_node (b : backend) (payload : string) (l : local) : option local :=
  match b with
  | GormNode _ => None
  | PostgresNode _ => '(_, l) ← Postgres.onWake payload l; Some l
  end.

(** ** State *)

Inductive tpc :=
  | Serving (p : program answer)     (** a client's call *)
  | Answered (a : answer)
  | AtTop                            (** a worker, before the first [select] *)
  | InRound (p : program round)
  | Arming (ch : chan) (wait : duration)
  | Sleeping (ch : chan) (deadline : time)
  | Exited.

Record thread := mkThread {
  th_node : nat;
  th_queue : string;
  th_opts : ConsumeOptions;
  th_sub : nat;
  th_pc : tpc;
  th_perm : perm;                         (** ghost *)
  th_token : option (string * (Z * Z))    (** ghost: the claim being handled *)
}.

Record node := mkNode {
  n_backend : backend;
  n_local : local;
  n_subs : list subscription
}.

(** The history of one task: how often it was revived, and its claims as pairs
    of this number and the attempt, newest first. *)
Record hist := mkHist { h_epoch : Z; h_claims : list (Z * Z) }.

Record ghost := mkGhost {
  g_enqueued : gmap string TaskRecord;   (** rows as they were inserted *)
  g_used : gset string;                  (** identifiers given by uuid *)
  g_acked : gset string;                 (** tasks a handler returned nil for *)
  g_deleted : gset string;               (** tasks whose dead row was deleted *)
  g_hist : string → hist
}.

Record sys (DB : Type) := mkSys {
  s_db : DB;
  s_now : time;
  s_nodes : list node;
  s_threads : list thread;
  s_ghost : ghost
}.

Arguments mkSys {DB} _ _ _ _ _.
Arguments s_db {DB} _.
Arguments s_now {DB} _.
Arguments s_nodes {DB} _.
Arguments s_threads {DB} _.
Arguments s_ghost {DB} _.

(** ** Ghost history *)

Definition was_claimed (o o' : option TaskRecord) : option Z :=
  match o, o' with
  | Some r, Some r' =>
      if decide (r_Status r = StatusPending ∧ r_Status r' = StatusRunning)
      then Some (r_Attempts r') else None
  | _, _ => None
  end.

Definition was_revived (o o' : option TaskRecord) : bool :=
  match o, o' with
  | Some r, Some r' => bool_decide (r_Status r = StatusDead ∧ r_Status r' = StatusPending)
  | _, _ => false
  end.

Definition hist_step (o o' : option TaskRecord) (h : hist) : hist :=
  match was_claimed o o' with
  | Some n => mkHist (h_epoch h) ((h_epoch h, n) :: h_claims h)
  | None => if was_revived o o' then mkHist (h_epoch h + 1) (h_claims h) else h
  end.

(** Dead rows that are gone. *)
Definition gone_dead (t t' : gmap string TaskRecord) : gset string :=
  dom (filter (λ p, r_Status p.2 = StatusDead) (t ∖ t')).

Definition ghost_step (σ σ' : store) (g : ghost) : ghost :=
  mkGhost ((rows σ' ∖ rows σ) ∪ g_enqueued g) (g_used g) (g_acked g)
    (gone_dead (rows σ) (rows σ') ∪ g_deleted g)
    (λ i, hist_step (rows σ !! i) (rows σ' !! i) (g_hist g i)).

Definition ghost_ack (i : string) (g : ghost) : ghost :=
  mkGhost (g_enqueued g) (g_used g) ({[i]} ∪ g_acked g) (g_deleted g) (g_hist g).

Definition ghost_use (i : string) (g : ghost) : ghost :=
  mkGhost (g_enqueued g) ({[i]} ∪ g_used g) (g_acked g) (g_deleted g) (g_hist g).

(** ** Events *)

Inductive event :=
  | Tick (d : duration)
  | Call (n : nat) (c : call)                                    (** a client calls node [n] *)
  | Consume (n : nat) (queue : string) (opts : list ConsumeOption)
  | Stop (n k : nat)
  | CloseDone (n k : nat)                                        (** its goroutine closes done *)
  | Step (i : nat)                                               (** thread [i] makes a call *)
  | Handled (i : nat) (h : Handler)                              (** its handler returns *)
  | Next (i : nat)                                               (** worker [i] goes on *)
  | Woken (i : nat) | TimedOut (i : nat) | Stopped (i : nat)     (** its [select] fires *)
  | Wake (n : nat) (payload : string)                            (** the listener of node [n] *)
  | Crash (n : nat).                                             (** the process dies *)

Section system.
Context `{Json} {DB : Type} `{Database DB}.

(** One call of a program, but for the handler. *)
Definition exec_eff {X} (e : eff X) (d : DB) (l : local) (t : time) : option (X * DB * local) :=
  match e in eff X return option (X * DB * local) with
  | Now => Some (t, d, l)
  | Exec s => let '(x, d) := db_exec s d in Some (x, d, l)
  | Transaction b => let '(x, d) := db_tx b d in Some (x, d, l)
  | Locked f => '(x, l) ← f l; Some (x, d, l)
  | Invoke t => None
  end.

Definition advance {A} (p : program A) (π : perm) (d : DB) (l : local) (t : time) :
    option (program A * perm * DB * local) :=
  match p with
  | Ret _ => None
  | Do e k => '(x, d, l) ← exec_eff e d l t; Some (k x, next_perm π e x, d, l)
  end.

(** The handler returns [err]. *)
Definition handled {A} (p : program A) (π : perm) (err : option string) :
    option (program A * perm) :=
  match p with
  | Ret _ => None
  | Do e k =>
      match e in eff X return (X → program A) → option (program A * perm) with
      | Invoke t => λ k, Some (k err, next_perm π (Invoke t) err)
      | _ => λ _, None
      end k
  end.

Definition set_pc (pc : tpc) (th : thread) : thread :=
  mkThread (th_node th) (th_queue th) (th_opts th) (th_sub th) pc (th_perm th) (th_token th).

Definition set_thread (i : nat) (th : thread) (s : sys DB) : sys DB :=
  mkSys (s_db s) (s_now s) (s_nodes s) (<[i:=th]> (s_threads s)) (s_ghost s).

Definition set_node (n : nat) (nd : node) (s : sys DB) : sys DB :=
  mkSys (s_db s) (s_now s) (<[n:=nd]> (s_nodes s)) (s_threads s) (s_ghost s).

Definition add_threads (ths : list thread) (s : sys DB) : sys DB :=
  mkSys (s_db s) (s_now s) (s_nodes s) (s_threads s ++ ths) (s_ghost s).

(** The claim a program enters its handler with: the newest of the task. *)
Definition handler_token {A} (g : ghost) (p : program A) : option (string * (Z * Z)) :=
  match in_handler p with
  | Some t => c ← head (h_claims (g_hist g (ID t))); Some (ID t, c)
  | None => None
  end.

(** What a call does to the rest of the state, [p] being the rest of the
    program. *)
Definition commit {A} (i : nat) (th : thread) (pc : program A → tpc) (nd : node)
    (p : program A) (π : perm) (d : DB) (l : local) (s : sys DB) : sys DB :=
  let g := ghost_step (db_store (s_db s)) (db_store d) (s_ghost s) in
  mkSys d (s_now s) (<[th_node th := mkNode (n_backend nd) l (n_subs nd)]> (s_nodes s))
    (<[i := mkThread (th_node th) (th_queue th) (th_opts th) (th_sub th) (pc p) π (handler_token g p)]>
       (s_threads s)) g.

(** A call; a program that has returned gives its answer. *)
Definition step_thread (i : nat) (th : thread) (s : sys DB) : option (sys DB) :=
  nd ← s_nodes s !! th_node th;
  match th_pc th with
  | Serving (Ret a) => Some (set_thread i (set_pc (Answered a) th) s)
  | Serving p =>
      '(p, π, d, l) ← advance p (th_perm th) (s_db s) (n_local nd) (s_now s);
      Some (commit i th Serving nd p π d l s)
  | InRound (Ret Again) => Some (set_thread i (set_pc AtTop th) s)
  | InRound (Ret (Sleep ch wait)) => Some (set_thread i (set_pc (Arming ch wait) th) s)
  | InRound p =>
      '(p, π, d, l) ← advance p (th_perm th) (s_db s) (n_local nd) (s_now s);
      Some (commit i th InRound nd p π d l s)
  | _ => None
  end.

Definition finish_handler (i : nat) (th : thread) (h : Handler) (s : sys DB) : option (sys DB) :=
  match th_pc th with
  | InRound p =>
      t ← in_handler p;
      let err := (invokeHandler h t).2 in
      '(p, π) ← handled p (th_perm th) err;
      let g := match err with
               | None => ghost_ack (ID t) (s_ghost s)
               | Some _ => s_ghost s
               end in
      Some (set_thread i (mkThread (th_node th) (th_queue th) (th_opts th) (th_sub th)
                            (InRound p) π None)
              (mkSys (s_db s) (s_now s) (s_nodes s) (s_threads s) g))
  | _ => None
  end.

(** The worker goes on: [select { case <-stopCh: ... default: }], or it starts
    the timer of its sleep. *)
Definition next_worker (i : nat) (th : thread) (s : sys DB) : option (sys DB) :=
  nd ← s_nodes s !! th_node th;
  sub ← n_subs nd !! th_sub th;
  match th_pc th with
  | AtTop =>
      if decide (is_closed (stopCh sub) (l_chans (n_local nd)))
      then Some (set_thread i (set_pc Exited th) s)
      else Some (set_thread i (mkThread (th_node th) (th_queue th) (th_opts th) (th_sub th)
                  (InRound (worker_round (n_backend nd) (th_queue th) (th_opts th)))
                  no_perm None) s)
  | Arming ch wait => Some (set_thread i (set_pc (Sleeping ch (timer_deadline (s_now s) wait)) th) s)
  | _ => None
  end.

(** The [select] of a sleeping worker fires. *)
Definition wake_worker (i : nat) (th : thread) (fires : chan → time → subscription → node → bool)
    (pc : tpc) (s : sys DB) : option (sys DB) :=
  nd ← s_nodes s !! th_node th;
  sub ← n_subs nd !! th_sub th;
  match th_pc th with
  | Sleeping ch deadline =>
      if fires ch deadline sub nd then Some (set_thread i (set_pc pc th) s) else None
  | _ => None
  end.

Definition call_perm (c : call) : perm :=
  match c with CallEnqueue u _ _ _ => mkPerm (Some u) None | _ => no_perm end.

(** [uuid.NewString()] gives an identifier no one has seen. *)
Definition call_ok (c : call) (g : ghost) : Prop :=
  match c with CallEnqueue u _ _ _ => u ∉ g_used g | _ => True end.

#[export] Instance call_ok_dec c g : Decision (call_ok c g).
Proof. destruct c; simpl; apply _. Defined.

Definition call_use (c : call) (g : ghost) : ghost :=
  match c with CallEnqueue u _ _ _ => ghost_use u g | _ => g end.

(** Thread [th] is no running worker of subscription [k] of node [n]. *)
Definition gone_from (n k : nat) (th : thread) : bool :=
  match th_pc th with
  | Serving _ | Answered _ | Exited => true
  | _ => negb (bool_decide (th_node th = n ∧ th_sub th = k))
  end.

Definition client (n : nat) (b : backend) (c : call) : thread :=
  mkThread n "" (NewConsumeOptions []) 0 (Serving (method b c)) (call_perm c) None.

Definition new_worker (n : nat) (queue : string) (o : ConsumeOptions) (k : nat) : thread :=
  mkThread n queue o k AtTop no_perm None.

Definition crash (n : nat) (th : thread) : thread :=
  if decide (th_node th = n)
  then mkThread (th_node th) (th_queue th) (th_opts th) (th_sub th) Exited no_perm None
  else th.

Definition step (e : event) (s : sys DB) : option (sys DB) :=
  match e with
  | Tick d =>
      if decide (0 ≤ d)
      then Some (mkSys (s_db s) (s_now s + d) (s_nodes s) (s_threads s) (s_ghost s)) else None
  | Call n c =>
      nd ← s_nodes s !! n;
      if decide (call_ok c (s_ghost s))
      then Some (mkSys (s_db s) (s_now s) (s_nodes s) (s_threads s ++ [client n (n_backend nd) c])
                   (call_use c (s_ghost s))) else None
  | Consume n queue opts =>
      nd ← s_nodes s !! n;
      if node_started (n_backend nd) then
        let o := NewConsumeOptions opts in
        let '(sub, c) := newSubscription (l_chans (n_local nd)) in
        Some (add_threads (replicate (Z.to_nat (Concurrency o))
                             (new_worker n queue o (length (n_subs nd))))
                (set_node n (mkNode (n_backend nd) (mkLocal (notifies (n_local nd)) c)
                               (n_subs nd ++ [sub])) s))
      else None
  | Stop n k =>
      nd ← s_nodes s !! n;
      sub ← n_subs nd !! k;
      '(sub, c) ← Stop_once sub (l_chans (n_local nd));
      Some (set_node n (mkNode (n_backend nd) (mkLocal (notifies (n_local nd)) c)
                          (<[k:=sub]> (n_subs nd))) s)
  | CloseDone n k =>
      nd ← s_nodes s !! n;
      sub ← n_subs nd !! k;
      c ← close_done (forallb (gone_from n k) (s_threads s)) sub (l_chans (n_local nd));
      Some (set_node n (mkNode (n_backend nd) (mkLocal (notifies (n_local nd)) c) (n_subs nd)) s)
  | Step i => th ← s_threads s !! i; step_thread i th s
  | Handled i h => th ← s_threads s !! i; finish_handler i th h s
  | Next i => th ← s_threads s !! i; next_worker i th s
  | Woken i =>
      th ← s_threads s !! i;
      wake_worker i th (λ ch _ _ nd, bool_decide (is_closed ch (l_chans (n_local nd)))) AtTop s
  | TimedOut i =>
      th ← s_threads s !! i;
      wake_worker i th (λ _ deadline _ _, bool_decide (deadline ≤ s_now s)) AtTop s
  | Stopped i =>
      th ← s_threads s !! i;
      wake_worker i th (λ _ _ sub nd, bool_decide (is_closed (stopCh sub) (l_chans (n_local nd))))
        Exited s
  | Wake n payload =>
      nd ← s_nodes s !! n;
      l ← wake_node (n_backend nd) payload (n_local nd);
      Some (set_node n (mkNode (n_backend nd) l (n_subs nd)) s)
  | Crash n =>
      Some (mkSys (s_db s) (s_now s) (s_nodes s) (crash n <$> s_threads s) (s_ghost s))
  end.

Definition ghost_init : ghost := mkGhost ∅ ∅ ∅ ∅ (λ _, mkHist 0 []).

(** Processes with an empty table. *)
Definition sys_init (d : DB) (t : time) (bs : list backend) : sys DB :=
  mkSys d t ((λ b, mkNode b local_init []) <$> bs) [] ghost_init.
End system.
