(* ===== verification/SqlPools.v ===== *)
(** * The worker pools of the SQL backends

    What every execution of [SqlSystem] keeps of the channels: each worker that
    sleeps waits on the wake channel its queue has, or on one that is closed;
    no critical section panics; a done channel is closed only when the workers
    of its pool have returned. *)

From stdpp Require Import base tactics list numbers option gmap strings.
From S2P Require Import Prelude GoRuntime Contract Options Subscription Effects TaskTable SqlEffects Gorm Postgres WakeChannels SqlSystem.

(** ** Programs and the channels *)

Definition eff_local {X} (e : eff X) : Prop :=
  match e with
  | Locked f => ∀ l, local_ok l → ∃ x l', f l = Some (x, l') ∧ local_step l l'
  | _ => True
  end.

#[global] Arguments eff_local : simpl never.

(** A program whose critical sections neither panic nor touch other channels,
    and whose result satisfies [post]. *)
Fixpoint safe {A} (post : A → Prop) (p : program A) : Prop :=
  match p with
  | Ret a => post a
  | Do e k => eff_local e ∧ ∀ x, safe post (k x)
  end.

Lemma safe_bind {A B} (Q : A → Prop) (P : B → Prop) (f : A → program B) p :
  safe Q p → (∀ a, Q a → safe P (f a)) → safe P (p ≫= f).
Proof.
  induction p as [a|X e k IH]; simpl; [auto|]. intros [He Hk] Hf. split; [done|].
  intros x. by apply IH.
Qed.

Lemma safe_true {A} (P : A → Prop) (p : program A) : safe P p → safe (λ _, True) p.
Proof. induction p as [a|X e k IH]; simpl; [done|]. intros [He Hk]. split; [done|]. intros x. by apply IH. Qed.

Lemma eff_local_broadcast queue : eff_local (Locked (Gorm.broadcastLocal queue)).
Proof.
  intros l Hl. destruct (broadcastLocal_step queue l Hl) as (l' & Hb & Hs & _). by exists tt, l'.
Qed.

Lemma eff_local_notify queue : eff_local (Locked (Gorm.notify queue)).
Proof.
  intros l Hl. destruct (notify_step queue l Hl) as (ch & l' & Hn & Hs & _). by exists ch, l'.
Qed.

#[export] Hint Resolve eff_local_broadcast eff_local_notify : wq.

(** [safe_calls] goes through the calls of a program. *)
Ltac safe_calls :=
  repeat first
    [ progress simpl
    | match goal with
      | |- safe _ (match ?x with _ => _ end) => destruct x
      | |- safe _ (if ?x then _ else _) => destruct x
      | |- _ ∧ _ => split
      | |- ∀ _, _ => intros ?
      end
    | done
    | exact I
    | solve [auto with wq] ].

Section programs.
Context `{Json}.

Lemma gorm_complete_safe r e o : safe (λ _, True) (Gorm.complete r e o).
Proof. unfold Gorm.complete, locked_do, exec, now, trigger. safe_calls. Qed.

Lemma gorm_claim_wait_safe q queue : safe (λ _, True) (Gorm.claim_wait q queue).
Proof. unfold Gorm.claim_wait, exec, now, trigger. safe_calls. Qed.

Lemma gorm_claim_safe q queue : safe (λ _, True) (Gorm.claim q queue).
Proof.
  unfold Gorm.claim, exec, now, trigger. simpl. split; [done|]. intros t. split; [done|].
  intros [e|l]; [done|]. induction l as [|r l IH]; [apply gorm_claim_wait_safe|].
  simpl. split; [done|]. intros [e|n]; simpl; [done|]. by case_decide.
Qed.

Lemma postgres_claim_safe q queue : safe (λ _, True) (Postgres.claim q queue).
Proof. unfold Postgres.claim, Postgres.claim_wait, exec, now, trigger. safe_calls. Qed.

(** The rest of a worker's round, after it has taken its wake channel. *)
Definition sleeps_on (ch : chan) (r : round) : Prop := ∀ c w, r = Sleep c w → c = ch.

Lemma worker_round_starts b queue o :
  ∃ k, worker_round b queue o = Do (Locked (Gorm.notify queue)) k ∧ ∀ ch, safe (sleeps_on ch) (k ch).
Proof.
  destruct b as [q|q]; (eexists; split; [reflexivity|]); intros ch.
  - eapply safe_bind; [apply gorm_claim_safe|]. intros [[[r|] wait] e] _.
    + destruct (toTask r) as [er|t].
      * eapply safe_bind; [apply gorm_complete_safe|]. by intros _ _ ??.
      * split; [done|]. intros err. eapply safe_bind; [apply gorm_complete_safe|]. by intros _ _ ??.
    + unfold Gorm.reapExpiredLeases, now, exec, trigger. simpl. split_and!; [done|]. intros t.
      split; [done|]. intros _ c w [= ->]. done.
  - eapply safe_bind; [apply postgres_claim_safe|]. intros [[[r|] wait] e] _.
    + destruct (Postgres.toTask r) as [er|t].
      * eapply safe_bind; [apply gorm_complete_safe|]. by intros _ _ ??.
      * split; [done|]. intros err. eapply safe_bind; [apply gorm_complete_safe|]. by intros _ _ ??.
    + unfold Postgres.reapExpiredLeases, now, exec, trigger. simpl. split_and!; [done|]. intros t.
      split; [done|]. intros [er|n]; simpl; [by intros c w [= ->]|].
      case_decide; simpl; [|by intros c w [= ->]]. split; [done|]. by intros _ c w [= ->].
Qed.

Lemma method_safe b c : safe (λ _, True) (method b c).
Proof.
  destruct b as [q|q], c as [u n p opts|n limit offset|n i|n i]; simpl;
    (eapply (safe_bind (λ _, True)); [|done]).
  - unfold Gorm.Enqueue, locked_do, exec, now, trigger. safe_calls.
  - unfold Gorm.ListDeadTasks, locked_do, exec, now, trigger. safe_calls.
  - unfold Gorm.RequeueDeadTask, locked_do, exec, now, trigger. safe_calls.
  - unfold Gorm.DeleteDeadTask, locked_do, exec, now, trigger. safe_calls.
  - unfold Postgres.Enqueue, transaction, locked_do, exec, now, trigger. safe_calls.
  - unfold Postgres.ListDeadTasks, locked_do, exec, now, trigger. safe_calls.
  - unfold Postgres.RequeueDeadTask, transaction, locked_do, exec, now, trigger. safe_calls.
  - unfold Postgres.DeleteDeadTask, locked_do, exec, now, trigger. safe_calls.
Qed.

(** A program that answers with success only after a broadcast of the queue. *)
Definition eff_wakes (queue : string) {X} (e : eff X) : Prop :=
  match e with
  | Locked f => ∀ l x l', local_ok l → f l = Some (x, l') → closes queue l l'
  | _ => False
  end.

#[global] Arguments eff_wakes : simpl never.

Fixpoint announces {A} (queue : string) (ok : A → bool) (p : program A) : Prop :=
  match p with
  | Ret a => ok a = false
  | Do e k => eff_wakes queue e ∨ ∀ x, announces queue ok (k x)
  end.

Lemma eff_wakes_broadcast queue : eff_wakes queue (Locked (Gorm.broadcastLocal queue)).
Proof.
  intros l x l' Hl Hf. destruct (broadcastLocal_step queue l Hl) as (l1 & Hb & _ & Hc).
  assert (l' = l1) as -> by congruence. done.
Qed.

Lemma announces_bind {A B} queue ok ok' (f : A → program B) p :
  announces queue ok p → (∀ a, ok a = false → announces queue ok' (f a)) → announces queue ok' (p ≫= f).
Proof.
  induction p as [a|X e k IH]; simpl; [auto|]. intros [He|Hk] Hf; [by left|right].
  intros x. by apply IH.
Qed.

(** The calls that put a task into a queue, and their success. *)
Definition announced (c : call) : option string :=
  match c with
  | CallEnqueue _ queue _ _ | CallRequeue queue _ => Some queue
  | _ => None
  end.

Definition succeeded (a : answer) : bool :=
  match a with AnswerTask (inr _) | AnswerErr None => true | _ => false end.

Lemma method_announces b c queue : announced c = Some queue → announces queue succeeded (method b c).
Proof.
  intros Hc. destruct b as [q|q], c as [u n p opts|n limit offset|n i|n i]; try discriminate Hc;
    injection Hc as ->; simpl.
  - apply (announces_bind _ (λ r, match r with inr _ => true | _ => false end)); [|by intros []].
    unfold Gorm.Enqueue. destruct (Gorm.ready q); [done|]. right. intros t.
    destruct (Gorm.encode_metadata _); [done|]. right. intros [e|]; [done|].
    left. apply eff_wakes_broadcast.
  - apply (announces_bind _ (λ r, match r with None => true | _ => false end)); [|by intros []].
    unfold Gorm.RequeueDeadTask. destruct (Gorm.ready q); [done|]. right. intros t.
    right. intros [e|x]; simpl; [done|]. case_decide; [done|]. left. apply eff_wakes_broadcast.
  - apply (announces_bind _ (λ r, match r with inr _ => true | _ => false end)); [|by intros []].
    unfold Postgres.Enqueue. destruct (Postgres.ready q); [done|]. right. intros t.
    destruct (Postgres.encode_metadata _); [done|]. right. intros [e|]; [done|].
    left. apply eff_wakes_broadcast.
  - apply (announces_bind _ (λ r, match r with None => true | _ => false end)); [|by intros []].
    unfold Postgres.RequeueDeadTask. destruct (Postgres.ready q); [done|]. right. intros t.
    right. intros [e|]; simpl; [done|]. left. apply eff_wakes_broadcast.
Qed.
End programs.

(** ** Invariant *)

(** [ch] is, or was and is closed, the wake channel of the queue. *)
Definition watches (nd : node) (queue : string) (ch : chan) : Prop :=
  is_closed ch (l_chans (n_local nd)) ∨ notifies (n_local nd) !! queue = Some ch.

Record node_ok (nd : node) : Prop := {
  nk_local : local_ok (n_local nd);
  nk_subs : subs_ok (l_chans (n_local nd)) (n_subs nd);
  nk_apart q ch : notifies (n_local nd) !! q = Some ch → ch ∉ n_subs nd ≫= sub_chans
}.

Definition has_sub (nd : node) (th : thread) : Prop := is_Some (n_subs nd !! th_sub th).

Definition thread_runs `{Json} (nd : node) (th : thread) : Prop :=
  match th_pc th with
  | Serving p => safe (λ _, True) p
  | Answered _ | Exited => True
  | AtTop => has_sub nd th
  | InRound p => has_sub nd th ∧
      (p = worker_round (n_backend nd) (th_queue th) (th_opts th) ∨
       ∃ ch, watches nd (th_queue th) ch ∧ safe (sleeps_on ch) p)
  | Arming ch _ | Sleeping ch _ => has_sub nd th ∧ watches nd (th_queue th) ch
  end.

Definition pool_gone (n k : nat) (l : list thread) : bool := forallb (gone_from n k) l.

Record pools_ok `{Json} (nodes : list node) (threads : list thread) : Prop := {
  po_nodes n nd : nodes !! n = Some nd → node_ok nd;
  po_threads i th : threads !! i = Some th →
    ∃ nd, nodes !! th_node th = Some nd ∧ thread_runs nd th;
  po_done n nd k sub : nodes !! n = Some nd → n_subs nd !! k = Some sub →
    is_closed (done_ sub) (l_chans (n_local nd)) → pool_gone n k threads = true
}.

(** What an event does to a node, but for closing done channels. *)
Record node_step (nd nd' : node) : Prop := {
  nst_ok : node_ok nd';
  nst_backend : n_backend nd' = n_backend nd;
  nst_chans : chans_le (l_chans (n_local nd)) (l_chans (n_local nd'));
  nst_watches q ch : watches nd q ch → watches nd' q ch;
  nst_subs k sub : n_subs nd !! k = Some sub →
    ∃ sub', n_subs nd' !! k = Some sub' ∧ done_ sub' = done_ sub ∧ stopCh sub' = stopCh sub
}.

Lemma node_step_refl nd : node_ok nd → node_step nd nd.
Proof. intros Hok. by split; eauto. Qed.

(** What happens to the nodes while the threads go on. *)
Definition nodes_step (nodes nodes' : list node) : Prop :=
  ∀ n nd, nodes !! n = Some nd → ∃ nd', nodes' !! n = Some nd' ∧ node_step nd nd'.

Lemma nodes_step_refl nodes : (∀ n nd, nodes !! n = Some nd → node_ok nd) → nodes_step nodes nodes.
Proof. intros Hok n nd Hn. exists nd. split; [done|]. by eapply node_step_refl, Hok. Qed.

Lemma nodes_step_insert nodes n nd nd' :
  (∀ n nd, nodes !! n = Some nd → node_ok nd) → nodes !! n = Some nd → node_step nd nd' →
  nodes_step nodes (<[n:=nd']> nodes).
Proof.
  intros Hok Hn Hs m ndm Hm. destruct (decide (m = n)) as [->|Hne].
  - exists nd'. rewrite list_lookup_insert_eq by (by eapply lookup_lt_Some). split; [done|]. by simplify_eq.
  - exists ndm. rewrite list_lookup_insert_ne by done. split; [done|]. by eapply node_step_refl, Hok.
Qed.

Lemma running_step `{Json} nd nd' th : node_step nd nd' → thread_runs nd th → thread_runs nd' th.
Proof.
  intros [_ Hb _ Hw Hsub]. assert (has_sub nd th → has_sub nd' th) as Hhas.
  { intros [sub Hs]. destruct (Hsub _ _ Hs) as (sub' & Hs' & _). by exists sub'. }
  unfold thread_runs. destruct (th_pc th) as [p|a| |p|ch w|ch d|]; try tauto.
  - intros [Hs [->|(ch & Hch & Hp)]]; (split; [auto|]); [left; by rewrite Hb|right; eauto].
  - intros [Hs Hch]. auto.
  - intros [Hs Hch]. auto.
Qed.

(** A worker that is not running, or is another pool's, stays so. *)
Definition running (pc : tpc) : bool :=
  match pc with Serving _ | Answered _ | Exited => false | _ => true end.

Lemma pool_gone_insert n k l i th th' :
  l !! i = Some th → th_node th' = th_node th → th_sub th' = th_sub th →
  (running (th_pc th') = true → running (th_pc th) = true) →
  pool_gone n k l = true → pool_gone n k (<[i:=th']> l) = true.
Proof.
  intros Hi Hn Hs Hr. unfold pool_gone. rewrite !forallb_forall. intros Hall x Hx.
  apply list_elem_of_In, elem_of_insert_inv in Hx as [->|Hx]; [|by apply Hall, list_elem_of_In].
  specialize (Hall th). rewrite <- list_elem_of_In in Hall.
  specialize (Hall (list_elem_of_lookup_2 _ _ _ Hi)). unfold gone_from in *. rewrite Hn, Hs.
  destruct (th_pc th'), (th_pc th); simpl in Hr; try done; by specialize (Hr eq_refl).
Qed.

Section steps.
Context `{Json}.

Lemma pools_node nodes threads n nd nd' :
  pools_ok nodes threads → nodes !! n = Some nd → node_step nd nd' →
  (∀ k sub', n_subs nd' !! k = Some sub' → is_closed (done_ sub') (l_chans (n_local nd')) →
     pool_gone n k threads = true) →
  pools_ok (<[n:=nd']> nodes) threads.
Proof.
  intros [Hn Ht Hd] Hi Hs Hdone. split.
  - intros m ndm [(<- & <- & _)|[_ Hm]]%list_lookup_insert_Some; [apply Hs|by eapply Hn].
  - intros i th Hth. destruct (Ht i th Hth) as (ndt & Hndt & Hr).
    destruct (decide (th_node th = n)) as [Heq|Hne].
    + exists nd'. rewrite Heq in *. rewrite list_lookup_insert_eq by (by eapply lookup_lt_Some).
      split; [done|]. assert (ndt = nd) as -> by congruence. by eapply running_step.
    + exists ndt. by rewrite list_lookup_insert_ne.
  - intros m ndm k sub [(<- & <- & _)|[_ Hm]]%list_lookup_insert_Some; [apply Hdone|by apply Hd].
Qed.

Lemma pools_thread nodes threads i th th' nd :
  pools_ok nodes threads → threads !! i = Some th → nodes !! th_node th = Some nd →
  th_node th' = th_node th → th_sub th' = th_sub th →
  (running (th_pc th') = true → running (th_pc th) = true) → thread_runs nd th' →
  pools_ok nodes (<[i:=th']> threads).
Proof.
  intros [Hn Ht Hd] Hi Hnd Heq Hsub Hrun Hr. split; [done| |].
  - intros j thj [(<- & <- & _)|[_ Hj]]%list_lookup_insert_Some; [|by eapply Ht].
    exists nd. by rewrite Heq.
  - intros n ndn k sub Hnn Hk Hcl. eapply pool_gone_insert; [done..|]. by eapply Hd.
Qed.

Lemma pools_app nodes threads new :
  pools_ok nodes threads →
  (∀ th, th ∈ new → ∃ nd, nodes !! th_node th = Some nd ∧ thread_runs nd th) →
  (∀ n nd k sub th, th ∈ new → nodes !! n = Some nd → n_subs nd !! k = Some sub →
     is_closed (done_ sub) (l_chans (n_local nd)) → gone_from n k th = true) →
  pools_ok nodes (threads ++ new).
Proof.
  intros [Hn Ht Hd] Hr Hg. split; [done| |].
  - intros i th [Hi|[_ Hi]]%lookup_app_Some; [by eapply Ht|]. apply Hr. by eapply list_elem_of_lookup_2.
  - intros n nd k sub Hnd Hk Hcl. pose proof (Hd n nd k sub Hnd Hk Hcl) as Hold. unfold pool_gone in *.
    rewrite forallb_app, Hold. apply forallb_forall. intros th Hth. apply list_elem_of_In in Hth. by eapply Hg.
Qed.

(** A critical section leaves the channels of the subscriptions alone. *)
Lemma local_subs nd l' sub ch :
  node_ok nd → local_step (n_local nd) l' → sub ∈ n_subs nd → ch ∈ sub_chans sub →
  is_closed ch (l_chans l') → is_closed ch (l_chans (n_local nd)).
Proof.
  intros Hok Hl Hin Hch Hcl. pose proof (elem_of_sub_chans _ _ _ Hin Hch) as Hbind.
  destruct (ls_closed _ _ Hl ch Hcl) as [?|[[q Hq]|Hm]]; [done| |].
  - by destruct (nk_apart nd Hok q ch Hq).
  - destruct Hm. by apply (subs_made _ _ (nk_subs nd Hok)).
Qed.

Lemma local_node_step nd l' :
  node_ok nd → local_step (n_local nd) l' → node_step nd (mkNode (n_backend nd) l' (n_subs nd)).
Proof.
  intros Hok Hl. split; simpl; [|done|apply Hl| |eauto].
  - split; simpl; [apply Hl| |].
    + eapply subs_ok_mono; [apply Hl| |apply Hok]. intros s Hs Hcl.
      eapply local_subs; [done..| |done]. by left.
    + intros q ch Hq Hin. destruct (ls_new _ _ Hl q ch Hq) as [Hold|Hm]; [by eapply (nk_apart nd Hok)|].
      apply Hm. by apply (subs_made _ _ (nk_subs nd Hok)).
  - intros q ch [Hcl|Hq]; [left; eapply chans_le_closed; [apply Hl|done]|].
    destruct (ls_kept _ _ Hl q ch Hq); [by right|by left].
Qed.

Lemma pools_local nodes threads n nd l' :
  pools_ok nodes threads → nodes !! n = Some nd → local_step (n_local nd) l' →
  pools_ok (<[n:=mkNode (n_backend nd) l' (n_subs nd)]> nodes) threads.
Proof.
  intros Hp Hn Hl. pose proof (po_nodes _ _ Hp n nd Hn) as Hok.
  eapply pools_node; [done..|by apply local_node_step|]. simpl. intros k sub Hk Hcl.
  eapply (po_done _ _ Hp n nd k sub Hn Hk).
  apply (local_subs nd l' sub); [done|done|by eapply list_elem_of_lookup_2| |done]. right. by left.
Qed.

(** One call of a safe program. *)
Lemma advance_safe {DB} `{Database DB} {A} (post : A → Prop) (p p' : program A) π π' d d' l l' t :
  safe post p → local_ok l → advance p π d l t = Some (p', π', d', l') →
  safe post p' ∧ local_step l l'.
Proof.
  intros Hp Hl Ha. destruct p as [a|X e k]; [done|]. destruct Hp as [He Hk]. simpl in Ha.
  apply bind_Some in Ha as ([[x d1] l1] & Hx & [= <- <- <- <-]). split; [done|].
  destruct e as [|Y st|b|Y f|u]; simpl in Hx; [by simplify_eq; apply local_step_refl| | | |done].
  - destruct (db_exec st d). simplify_eq. by apply local_step_refl.
  - destruct (db_tx b d). simplify_eq. by apply local_step_refl.
  - apply bind_Some in Hx as ([y l2] & Hf & [= <- <- <-]). destruct (He l Hl) as (x & l3 & Hf' & Hs).
    by simplify_eq.
Qed.

(** *** The events of the subscriptions *)

Lemma stop_step nd k sub sub' c :
  node_ok nd → n_subs nd !! k = Some sub → Stop_once sub (l_chans (n_local nd)) = Some (sub', c) →
  node_step nd (mkNode (n_backend nd) (mkLocal (notifies (n_local nd)) c) (<[k:=sub']> (n_subs nd))) ∧
  ∀ j subj, <[k:=sub']> (n_subs nd) !! j = Some subj → is_closed (done_ subj) c →
    ∃ s, n_subs nd !! j = Some s ∧ is_closed (done_ s) (l_chans (n_local nd)).
Proof.
  intros [Hl Hs Ha] Hk Honce.
  destruct (Stop_once_ok _ _ k sub sub' c Hs Hk Honce) as (Hs' & Hle & Hd & Hb & Hcl).
  assert (sub ∈ n_subs nd) as Hin by (by eapply list_elem_of_lookup_2).
  split; [split; simpl; [|done|done| |]|].
  - split; simpl; [|done|by rewrite Hb]. destruct Hl as [Hc Ho Hi]. split; simpl; [|intros q ch Hq|done].
    + intros ch [Hch| ->]%Hcl; (eapply chans_le_made; [exact Hle|]); [by apply Hc|].
      apply (subs_made _ _ Hs). eapply elem_of_sub_chans; [done|by left].
    + destruct (Ho q ch Hq) as [Hm Hn]. split; [by eapply chans_le_made|].
      intros [Hx| ->]%Hcl; [done|]. apply (Ha q _ Hq). eapply elem_of_sub_chans; [done|by left].
  - intros q ch [Hch|Hq]; [left; by eapply chans_le_closed|by right].
  - intros j s Hj. destruct (decide (j = k)) as [->|Hne].
    + exists sub'. rewrite list_lookup_insert_eq by (by eapply lookup_lt_Some).
      split; [done|]. simplify_eq. split; [done|].
      unfold Stop_once in Honce. destruct (stopOnce sub); [by simplify_eq|].
      by apply bind_Some in Honce as (c1 & _ & [= <- _]).
    + exists s. by rewrite list_lookup_insert_ne.
  - intros j s [(<- & <- & _)|[_ Hj]]%list_lookup_insert_Some Hc.
    + exists sub. split; [done|]. rewrite Hd in Hc. apply Hcl in Hc as [?|Heq]; [done|].
      by destruct (stop_done_disjoint _ _ sub sub Hs Hin Hin).
    + exists s. split; [done|]. apply Hcl in Hc as [?|Heq]; [done|].
      destruct (stop_done_disjoint _ _ sub s Hs Hin); [by eapply list_elem_of_lookup_2|done].
Qed.

Lemma close_step nd k sub c :
  node_ok nd → n_subs nd !! k = Some sub → close_chan (done_ sub) (l_chans (n_local nd)) = Some c →
  node_step nd (mkNode (n_backend nd) (mkLocal (notifies (n_local nd)) c) (n_subs nd)) ∧
  ∀ j s, n_subs nd !! j = Some s → is_closed (done_ s) c →
    j = k ∨ is_closed (done_ s) (l_chans (n_local nd)).
Proof.
  intros [Hl Hs Ha] Hk Hclose. pose proof (λ ch, close_chan_is_closed _ _ _ ch Hclose) as Hcl.
  pose proof (close_chan_le _ _ _ Hclose) as Hle.
  assert (sub ∈ n_subs nd) as Hin by (by eapply list_elem_of_lookup_2).
  assert (done_ sub ∈ n_subs nd ≫= sub_chans) as Hch
    by (eapply elem_of_sub_chans; [done|right; by left]).
  split; [split; simpl; [|done|done| |eauto]|].
  - split; simpl; [|by eapply close_done_ok|done]. destruct Hl as [Hc Ho Hi]. split; simpl; [|intros q ch Hq|done].
    + eapply close_chan_ok; [done| |done]. by apply (subs_made _ _ Hs).
    + eapply close_open_other; [done| |by eapply Ho]. intros ->. by apply (Ha q _ Hq).
  - intros q ch [Hq|Hq]; [left; by eapply chans_le_closed|by right].
  - intros j s Hj [Heq|?]%Hcl; [left|by right]. by eapply done_inj.
Qed.

Lemma consume_step nd sub c :
  node_ok nd → newSubscription (l_chans (n_local nd)) = (sub, c) →
  node_step nd (mkNode (n_backend nd) (mkLocal (notifies (n_local nd)) c) (n_subs nd ++ [sub])) ∧
  ¬ is_closed (done_ sub) c ∧ ∀ ch, is_closed ch c → is_closed ch (l_chans (n_local nd)).
Proof.
  intros [Hl Hs Ha] Hnew.
  destruct (newSubscription_ok _ _ _ _ (lk_chans _ Hl) Hs Hnew) as (Hc & Hs' & Hle & Hcl & Hfresh).
  split_and!; [|rewrite Hcl; apply Hfresh; right; by left|by intros ch ?%Hcl].
  split; simpl; [|done|done| |].
  - split; simpl; [|done|].
    + destruct Hl as [_ Ho Hi]. split; simpl; [done| |done]. intros q ch Hq. destruct (Ho q ch Hq).
      split; [by eapply chans_le_made|by rewrite Hcl].
    + intros q ch Hq. rewrite bind_app, elem_of_app. intros [Hch|Hch]; [by eapply Ha|].
      simpl in Hch. destruct (Hfresh ch Hch) as [Hm _]. apply Hm.
      by apply (lk_open _ Hl q ch).
  - intros q ch [Hch|Hq]; [left; by eapply chans_le_closed|by right].
  - intros k s Hk. exists s. split; [|done]. by apply lookup_app_l_Some.
Qed.
End steps.

(** ** Every event keeps the invariant *)

Section invariant.
Context `{Json} {DB : Type} `{Database DB}.

Abbreviation spools s := (pools_ok (s_nodes s) (s_threads s)).

Lemma spools_set i th th' nd (s : sys DB) :
  spools s → s_threads s !! i = Some th → s_nodes s !! th_node th = Some nd →
  th_node th' = th_node th → th_sub th' = th_sub th →
  (running (th_pc th') = true → running (th_pc th) = true) → thread_runs nd th' →
  spools (set_thread i th' s).
Proof. intros Hs Hi Hnd Hn Hsub Hr Ht. by eapply pools_thread. Qed.

Lemma step_thread_pools i th (s s' : sys DB) :
  spools s → s_threads s !! i = Some th → step_thread i th s = Some s' → spools s'.
Proof.
  intros Hs Hi Hst. destruct (po_threads _ _ Hs i th Hi) as (nd & Hnd & Hr).
  pose proof (po_nodes _ _ Hs _ _ Hnd) as Hok. unfold step_thread in Hst. rewrite Hnd in Hst. simpl in Hst.
  assert (∀ A (pc : program A → tpc) p π d l, local_step (n_local nd) l →
    (running (pc p) = true → running (th_pc th) = true) →
    thread_runs (mkNode (n_backend nd) l (n_subs nd)) (set_pc (pc p) th) →
    spools (commit i th pc nd p π d l s)) as Hcommit.
  { intros A pc p π d l Hl Hrun Hth. unfold commit. simpl.
    eapply pools_thread; [by apply pools_local|done| |done|done|exact Hrun|].
    - simpl. rewrite list_lookup_insert_eq; [done|]. by eapply lookup_lt_Some.
    - exact Hth. }
  unfold thread_runs in Hr.
  destruct (th_pc th) as [p|a| |p|ch w|ch d|] eqn:Hpc; try discriminate Hst.
  - destruct p as [a|X e k].
    { injection Hst as <-. eapply spools_set; [done..|]. done. }
    apply bind_Some in Hst as ([[[p' π] d] l] & Ha & [= <-]).
    destruct (advance_safe _ _ _ _ _ _ _ _ _ _ Hr (nk_local nd Hok) Ha) as [Hp' Hl].
    by apply (Hcommit _ Serving).
  - destruct Hr as [Hsub Hr]. destruct p as [r|X e k].
    { destruct Hr as [Hr|(ch & Hw & Hp)].
      { destruct (worker_round_starts (n_backend nd) (th_queue th) (th_opts th)) as (k & Hk & _). congruence. }
      destruct r as [|c w]; injection Hst as <-; (eapply spools_set; [done..| |]); try (by intros _; rewrite Hpc).
      - done.
      - split; [done|]. by rewrite (Hp c w eq_refl). }
    apply bind_Some in Hst as ([[[p' π] d] l] & Ha & [= <-]).
    destruct Hr as [Hr|(ch & Hw & Hp)].
    + destruct (worker_round_starts (n_backend nd) (th_queue th) (th_opts th)) as (k' & Hk & Hsafe).
      rewrite Hk in Hr. rewrite Hr in Ha. simpl in Ha.
      destruct (notify_step (th_queue th) (n_local nd) (nk_local nd Hok)) as (ch & l' & Hn & Hl & Hch).
      rewrite Hn in Ha. simpl in Ha. injection Ha as <- <- <- <-.
      apply (Hcommit _ InRound); [done|done|]. split; [done|]. right. exists ch.
      split; [by right|apply Hsafe].
    + destruct (advance_safe _ _ _ _ _ _ _ _ _ _ Hp (nk_local nd Hok) Ha) as [Hp' Hl].
      apply (Hcommit _ InRound); [done|done|]. split; [done|]. right. exists ch.
      split; [|done]. by apply (nst_watches _ _ (local_node_step nd l Hok Hl)).
Qed.

(** A handler is called in the middle of a round. *)
Lemma handled_safe {A} (post : A → Prop) (p p' : program A) π π' err :
  safe post p → handled p π err = Some (p', π') → safe post p'.
Proof.
  intros Hp Hh. destruct p as [a|X e k]; [done|]. destruct Hp as [_ Hk]. simpl in Hh.
  destruct e; try discriminate Hh. injection Hh as <- <-. apply Hk.
Qed.

Lemma finish_pools i th h (s s' : sys DB) :
  spools s → s_threads s !! i = Some th → finish_handler i th h s = Some s' → spools s'.
Proof.
  intros Hs Hi Hf. destruct (po_threads _ _ Hs i th Hi) as (nd & Hnd & Hr). unfold finish_handler in Hf.
  unfold thread_runs in Hr. destruct (th_pc th) as [p|a| |p|ch w|ch d|] eqn:Hpc; try discriminate Hf.
  apply bind_Some in Hf as (t & Ht & Hf). apply bind_Some in Hf as ([p' π] & Hh & [= <-]).
  destruct Hr as [Hsub Hr]. eapply (pools_thread _ _ _ _ _ nd); [exact Hs|done|done|done|done|by rewrite Hpc|].
  split; [done|]. right. destruct Hr as [Hr|(ch & Hw & Hp)].
  - destruct (worker_round_starts (n_backend nd) (th_queue th) (th_opts th)) as (k & Hk & _).
    rewrite Hk in Hr. rewrite Hr in Hh. done.
  - exists ch. split; [done|]. by eapply handled_safe.
Qed.

Lemma next_pools i th (s s' : sys DB) :
  spools s → s_threads s !! i = Some th → next_worker i th s = Some s' → spools s'.
Proof.
  intros Hs Hi Hf. destruct (po_threads _ _ Hs i th Hi) as (nd & Hnd & Hr). unfold next_worker in Hf.
  rewrite Hnd in Hf. simpl in Hf. apply bind_Some in Hf as (sub & Hsub & Hf).
  unfold thread_runs in Hr. destruct (th_pc th) as [p|a| |p|ch w|ch d|] eqn:Hpc; try discriminate Hf.
  - case_decide; injection Hf as <-.
    + eapply spools_set; [done..|]. done.
    + eapply spools_set; [done..|by rewrite Hpc|]. split; [by exists sub|by left].
  - injection Hf as <-. eapply spools_set; [done..|by rewrite Hpc|exact Hr].
Qed.

Lemma wake_pools i th fires pc (s s' : sys DB) :
  spools s → s_threads s !! i = Some th → pc = AtTop ∨ pc = Exited →
  wake_worker i th fires pc s = Some s' → spools s'.
Proof.
  intros Hs Hi Hpc' Hf. destruct (po_threads _ _ Hs i th Hi) as (nd & Hnd & Hr). unfold wake_worker in Hf.
  rewrite Hnd in Hf. simpl in Hf. apply bind_Some in Hf as (sub & Hsub & Hf).
  unfold thread_runs in Hr. destruct (th_pc th) as [p|a| |p|ch w|ch d|] eqn:Hpc; try discriminate Hf.
  destruct (fires ch d sub nd); [|done]. injection Hf as <-.
  eapply spools_set; [done..|by rewrite Hpc|]. by destruct Hpc' as [->| ->]; [apply Hr|].
Qed.

Lemma crash_gone n th m k : gone_from m k th = true → gone_from m k (crash n th) = true.
Proof. unfold crash. by case_decide. Qed.

Lemma step_pools e (s s' : sys DB) : spools s → step e s = Some s' → spools s'.
Proof.
  intros Hs. destruct e as [d|n c|n queue opts|n k|n k|i|i h|i|i|i|i|n payload|n]; simpl.
  - by case_decide; [intros [= <-]|].
  - intros (nd & Hnd & Hc)%bind_Some. case_decide; [|done]. injection Hc as <-. simpl.
    apply pools_app; [done| |].
    + intros th ->%list_elem_of_singleton. exists nd. split; [done|]. apply method_safe.
    + by intros m ndm k sub th ->%list_elem_of_singleton.
  - intros (nd & Hnd & Hc)%bind_Some. destruct (node_started _); [|done].
    injection Hc as <-. simpl.
    destruct (consume_step nd _ _ (po_nodes _ _ Hs _ _ Hnd) eq_refl) as (Hst & Hopen & Hcl). apply pools_app.
    + apply (pools_node _ _ _ nd _ Hs Hnd Hst). simpl. intros k s1 [Hk|[_ Hk]]%lookup_app_Some Hc.
      * eapply (po_done _ _ Hs n nd k s1 Hnd Hk). by apply Hcl.
      * apply list_lookup_singleton_Some in Hk as [_ <-]. done.
    + intros th [-> _]%elem_of_replicate. eexists. split.
      * simpl. rewrite list_lookup_insert_eq; [done|]. by eapply lookup_lt_Some.
      * unfold thread_runs, has_sub. simpl. by rewrite lookup_app_r, Nat.sub_diag.
    + intros m ndm k s1 th [-> _]%elem_of_replicate Hm Hk Hc. unfold gone_from. simpl.
      apply negb_true_iff, bool_decide_eq_false. intros [<- <-].
      rewrite list_lookup_insert_eq in Hm by (by eapply lookup_lt_Some). simplify_eq/=.
      rewrite lookup_app_r, Nat.sub_diag in Hk by done. by simplify_eq/=.
  - intros (nd & Hnd & (sub & Hk & ([sub' c] & Ho & [= <-])%bind_Some)%bind_Some)%bind_Some. simpl.
    destruct (stop_step nd k sub sub' c (po_nodes _ _ Hs _ _ Hnd) Hk Ho) as [Hst Hd].
    apply (pools_node _ _ _ nd _ Hs Hnd Hst). simpl. intros j s1 Hj Hc. destruct (Hd j s1 Hj Hc) as (s2 & Hs2 & Hc2).
    by eapply (po_done _ _ Hs).
  - intros (nd & Hnd & (sub & Hk & (c & Hc & [= <-])%bind_Some)%bind_Some)%bind_Some. simpl.
    unfold close_done in Hc. destruct (forallb _ _) eqn:Hgone; [|done].
    destruct (close_step nd k sub c (po_nodes _ _ Hs _ _ Hnd) Hk Hc) as [Hst Hd].
    apply (pools_node _ _ _ nd _ Hs Hnd Hst). simpl. intros j s1 Hj Hc1. destruct (Hd j s1 Hj Hc1) as [->|Hc2]; [done|].
    by eapply (po_done _ _ Hs).
  - intros (th & Hi & Hst)%bind_Some. by eapply step_thread_pools.
  - intros (th & Hi & Hst)%bind_Some. by eapply finish_pools.
  - intros (th & Hi & Hst)%bind_Some. by eapply next_pools.
  - intros (th & Hi & Hst)%bind_Some. eapply wake_pools; [done..|by left|done].
  - intros (th & Hi & Hst)%bind_Some. eapply wake_pools; [done..|by left|done].
  - intros (th & Hi & Hst)%bind_Some. eapply wake_pools; [done..|by right|done].
  - intros (nd & Hnd & (l & Hl & [= <-])%bind_Some)%bind_Some. simpl.
    apply pools_local; [done|done|]. unfold wake_node in Hl. destruct (n_backend nd); [done|].
    destruct (onWake_step payload (n_local nd) (nk_local nd (po_nodes _ _ Hs _ _ Hnd))) as (l' & Hw & Hls & _).
    rewrite Hw in Hl. by injection Hl as <-.
  - intros [= <-]. simpl. destruct Hs as [Hn Ht Hd]. split; [done| |].
    + intros i th Hi. rewrite list_lookup_fmap in Hi. apply fmap_Some in Hi as (u & Hu & ->).
      destruct (Ht i u Hu) as (nd & Hnd & Hr). unfold crash. case_decide; [|by exists nd]. by exists nd.
    + intros m ndm k sub Hm Hk Hc. specialize (Hd m ndm k sub Hm Hk Hc). revert Hd. unfold pool_gone.
      rewrite !forallb_forall. intros Hall th Hth. apply list_elem_of_In, list_elem_of_fmap in Hth as (u & -> & Hu).
      apply crash_gone, Hall. by apply list_elem_of_In.
Qed.

Lemma init_pools (d : DB) t bs : spools (sys_init d t bs).
Proof.
  split; simpl.
  - intros n nd. rewrite list_lookup_fmap. intros (b & _ & ->)%fmap_Some. split; simpl.
    + apply local_init_ok.
    + split; simpl; [by intros ch ?%elem_of_nil|constructor|by intros s ?%elem_of_nil].
    + intros q ch. by rewrite lookup_empty.
  - by intros i th.
  - intros n nd k sub. rewrite list_lookup_fmap. intros (b & _ & ->)%fmap_Some. done.
Qed.

Lemma reachable_pools (d : DB) t bs s : reachable step (sys_init d t bs) s → spools s.
Proof.
  apply (reachable_invariant step (λ s, spools s)); [intros; by eapply step_pools|apply init_pools].
Qed.

(** ** What an event does to the nodes and to a thread *)

Lemma round_safe nd th p : thread_runs nd th → th_pc th = InRound p → safe (λ _, True) p.
Proof.
  unfold thread_runs. intros Hr Hpc. rewrite Hpc in Hr. destruct Hr as [_ [->|(ch & _ & Hp)]].
  - destruct (worker_round_starts (n_backend nd) (th_queue th) (th_opts th)) as (k & -> & Hk).
    split; [apply eff_local_notify|]. intros ch. by eapply safe_true.
  - by eapply safe_true.
Qed.

Lemma step_thread_nodes i th (s s' : sys DB) :
  spools s → s_threads s !! i = Some th → step_thread i th s = Some s' →
  nodes_step (s_nodes s) (s_nodes s').
Proof.
  intros Hs Hi Hst. destruct (po_threads _ _ Hs i th Hi) as (nd & Hnd & Hr).
  pose proof (po_nodes _ _ Hs _ _ Hnd) as Hok. unfold step_thread in Hst. rewrite Hnd in Hst. simpl in Hst.
  assert (∀ l, local_step (n_local nd) l →
    nodes_step (s_nodes s) (<[th_node th := mkNode (n_backend nd) l (n_subs nd)]> (s_nodes s))) as Hcommit.
  { intros l Hl. eapply nodes_step_insert; [apply Hs|done|by apply local_node_step]. }
  pose proof (nodes_step_refl _ (po_nodes _ _ Hs)) as Hrefl.
  pose proof (round_safe nd th) as Hsafe. unfold thread_runs in Hr.
  destruct (th_pc th) as [p|a| |p|ch w|ch d|] eqn:Hpc; try discriminate Hst.
  - destruct p as [a|X e k]; [by injection Hst as <-|].
    apply bind_Some in Hst as ([[[p' π] d] l] & Ha & [= <-]). apply Hcommit.
    by destruct (advance_safe _ _ _ _ _ _ _ _ _ _ Hr (nk_local nd Hok) Ha).
  - destruct p as [[|c w]|X e k]; [by injection Hst as <-..|].
    apply bind_Some in Hst as ([[[p' π] d] l] & Ha & [= <-]). apply Hcommit.
    specialize (Hsafe _ ltac:(unfold thread_runs; rewrite Hpc; exact Hr) eq_refl).
    by destruct (advance_safe _ _ _ _ _ _ _ _ _ _ Hsafe (nk_local nd Hok) Ha).
Qed.

Lemma step_nodes e (s s' : sys DB) :
  spools s → step e s = Some s' → nodes_step (s_nodes s) (s_nodes s').
Proof.
  intros Hs. pose proof (nodes_step_refl _ (po_nodes _ _ Hs)) as Hrefl.
  pose proof (nodes_step_insert (s_nodes s)) as Hins. specialize (λ n nd nd', Hins n nd nd' (po_nodes _ _ Hs)).
  destruct e as [d|n c|n queue opts|n k|n k|i|i h|i|i|i|i|n payload|n]; simpl.
  - by case_decide; [intros [= <-]|].
  - intros (nd & Hnd & Hc)%bind_Some. case_decide; [|done]. by injection Hc as <-.
  - intros (nd & Hnd & Hc)%bind_Some. destruct (node_started _); [|done]. injection Hc as <-. simpl.
    eapply Hins; [exact Hnd|]. by destruct (consume_step nd _ _ (po_nodes _ _ Hs _ _ Hnd) eq_refl).
  - intros (nd & Hnd & (sub & Hk & ([sub' c] & Ho & [= <-])%bind_Some)%bind_Some)%bind_Some. simpl.
    eapply Hins; [exact Hnd|]. by destruct (stop_step nd k sub sub' c (po_nodes _ _ Hs _ _ Hnd) Hk Ho).
  - intros (nd & Hnd & (sub & Hk & (c & Hc & [= <-])%bind_Some)%bind_Some)%bind_Some. simpl.
    unfold close_done in Hc. destruct (forallb _ _); [|done].
    eapply Hins; [exact Hnd|]. by destruct (close_step nd k sub c (po_nodes _ _ Hs _ _ Hnd) Hk Hc).
  - intros (th & Hi & Hst)%bind_Some. by eapply step_thread_nodes.
  - intros (th & Hi & Hst)%bind_Some. unfold finish_handler in Hst. destruct (th_pc th); try done.
    apply bind_Some in Hst as (t & _ & Hst). by apply bind_Some in Hst as ([p' π] & _ & [= <-]).
  - intros (th & Hi & Hst)%bind_Some. unfold next_worker in Hst.
    apply bind_Some in Hst as (nd & _ & Hst). apply bind_Some in Hst as (sub & _ & Hst).
    destruct (th_pc th); try done; [case_decide|]; by injection Hst as <-.
  - intros (th & _ & (nd & _ & (sub & _ & Hst)%bind_Some)%bind_Some)%bind_Some.
    destruct (th_pc th); try done. case_match; by simplify_eq.
  - intros (th & _ & (nd & _ & (sub & _ & Hst)%bind_Some)%bind_Some)%bind_Some.
    destruct (th_pc th); try done. case_match; by simplify_eq.
  - intros (th & _ & (nd & _ & (sub & _ & Hst)%bind_Some)%bind_Some)%bind_Some.
    destruct (th_pc th); try done. case_match; by simplify_eq.
  - intros (nd & Hnd & (l & Hl & [= <-])%bind_Some)%bind_Some. simpl. eapply Hins; [exact Hnd|].
    apply local_node_step; [by eapply (po_nodes _ _ Hs)|]. unfold wake_node in Hl. destruct (n_backend nd); [done|].
    destruct (onWake_step payload (n_local nd) (nk_local nd (po_nodes _ _ Hs _ _ Hnd))) as (l' & Hw & Hls & _).
    rewrite Hw in Hl. by injection Hl as <-.
  - by intros [= <-].
Qed.
End invariant.
