(* ===== verification/SqlInv.v ===== *)
(** * What every execution of the SQL backends keeps

    The invariant of [SqlSystem]: the rows are well formed and descend from an
    insertion, the claims of each task since its last revival are the attempts
    1, 2, ..., each once, no two handlers run on one claim, and a task is gone
    only when it was acknowledged or deleted while dead. *)

From stdpp Require Import base tactics list numbers option gmap strings sorting.
From S2P Require Import Prelude GoRuntime Contract Options Subscription Lifecycle Effects TaskTable SqlEffects Leases Gorm GormLegal Postgres PostgresLegal SqlSystem.

(** ** The history of one task *)

(** The attempts claimed since the last revival, newest first. *)
Definition current (h : hist) : list Z :=
  (filter (λ c, c.1 = h_epoch h) (h_claims h)).*2.

Record hist_ok (o : option TaskRecord) (h : hist) : Prop := {
  hist_nodup : NoDup (h_claims h);
  hist_epoch c : c ∈ h_claims h → c.1 ≤ h_epoch h;
  hist_row r : o = Some r →
    0 ≤ r_Attempts r ∧ current h = countdown (Z.to_nat (r_Attempts r))
}.

Lemma hist_empty_ok o : (∀ r, o = Some r → r_Attempts r = 0) → hist_ok o (mkHist 0 []).
Proof.
  intros Ho. split; simpl; [constructor| |].
  - intros c Hc. by apply not_elem_of_nil in Hc.
  - intros r ->. by rewrite (Ho r).
Qed.

Lemma elem_of_countdown n x : x ∈ countdown n ↔ 1 ≤ x ≤ Z.of_nat n.
Proof.
  induction n as [|n IH]; cbn [countdown].
  - rewrite elem_of_nil. lia.
  - rewrite elem_of_cons, IH. lia.
Qed.

(** The next attempt of the row has not been claimed yet. *)
Lemma next_claim_fresh r h :
  hist_ok (Some r) h → (h_epoch h, r_Attempts r + 1) ∉ h_claims h.
Proof.
  intros [_ _ Hrow] Hin. destruct (Hrow r eq_refl) as [Hpos Hcur].
  assert (r_Attempts r + 1 ∈ current h) as Hc.
  { unfold current. apply list_elem_of_fmap. exists (h_epoch h, r_Attempts r + 1).
    split; [done|]. by apply list_elem_of_filter. }
  rewrite Hcur, elem_of_countdown in Hc. lia.
Qed.

Lemma hist_claim_ok r r' h :
  hist_ok (Some r) h → r_Attempts r' = r_Attempts r + 1 →
  hist_ok (Some r') (mkHist (h_epoch h) ((h_epoch h, r_Attempts r') :: h_claims h)).
Proof.
  intros Hok Ha. pose proof (next_claim_fresh r h Hok) as Hfresh. destruct Hok as [Hnd Hep Hrow].
  destruct (Hrow r eq_refl) as [Hpos Hcur]. split; simpl.
  - constructor; [by rewrite Ha|done].
  - intros c [->|Hc]%elem_of_cons; [simpl; lia|auto].
  - intros u [= <-]. split; [lia|]. unfold current; simpl. rewrite filter_cons_True by done.
    csimpl. fold (current h). by rewrite Hcur, Ha, countdown_S.
Qed.

Lemma hist_revive_ok o r' h :
  hist_ok o h → r_Attempts r' = 0 → hist_ok (Some r') (mkHist (h_epoch h + 1) (h_claims h)).
Proof.
  intros [Hnd Hep _] Ha. split; simpl; [done| |].
  - intros c Hc. specialize (Hep c Hc). lia.
  - intros u [= <-]. split; [lia|]. rewrite Ha. unfold current; simpl.
    rewrite filter_none; [done|]. apply Forall_forall. intros c Hc Heq. specialize (Hep c Hc). lia.
Qed.

Lemma hist_same_ok r o' h :
  hist_ok (Some r) h → (∀ r', o' = Some r' → r_Attempts r' = r_Attempts r) → hist_ok o' h.
Proof. intros [Hnd Hep Hrow] Ha. split; [done..|]. intros u Hu. rewrite (Ha u Hu). by apply Hrow. Qed.

Lemma hist_step_ok π i o o' h :
  row_step π i o o' → (∀ r, o = Some r → row_ok r) → hist_ok o h →
  (o = None → ∀ r, o' = Some r → h = mkHist 0 []) → hist_ok o' (hist_step o o' h).
Proof.
  intros Hs Hrow Hh Hfresh. unfold hist_step, was_claimed, was_revived.
  destruct Hs as [o|r Hc Hid Hst Ha Hm Hl Hd|r r' Hsame Hst Hst' Ha Hl Hd Hr
    |r r' Hsame Hst Hst' Hle Ha Hl Hd|r r' Hsame Hst Hst' Ha Hl Hd Hr He
    |r r' Hsame Hst Hst' Hle Ha Hl Hd|r r' Hsame Hst Hst' Ha Hl Hd|r Hst|r Hf].
  - destruct o as [r|]; [|done].
    rewrite decide_False, bool_decide_false; [done|intros [??]; status_clash..].
  - rewrite (Hfresh eq_refl r eq_refl). apply hist_empty_ok. by intros u [= <-].
  - rewrite decide_True by done. by eapply hist_claim_ok.
  - rewrite decide_False, bool_decide_false; [|intros [??]; status_clash..].
    eapply hist_same_ok; [done|]. by intros u [= <-].
  - rewrite decide_False, bool_decide_false; [|intros [??]; status_clash..].
    eapply hist_same_ok; [done|]. by intros u [= <-].
  - rewrite decide_False, bool_decide_false; [|intros [??]; status_clash..].
    eapply hist_same_ok; [done|]. by intros u [= <-].
  - rewrite decide_False, bool_decide_true; [|done|intros [??]; status_clash].
    by eapply hist_revive_ok.
  - by eapply hist_same_ok.
  - by eapply hist_same_ok.
Qed.

Lemma hist_step_claims o o' h c : c ∈ h_claims h → c ∈ h_claims (hist_step o o' h).
Proof.
  intros Hc. unfold hist_step. destruct (was_claimed o o'); [by right|].
  by destruct (was_revived o o').
Qed.

(** ** Rows that appear and disappear *)

Section table_step.
Context (π : perm) (σ σ' : store) (g : ghost).
Let K := g_enqueued g.
Let K' := g_enqueued (ghost_step σ σ' g).
Context (Hok : store_ok K σ) (Hs : steps_ok π σ σ')
  (Hfresh : ∀ u, may_create π = Some u → u ∉ dom K).

Lemma appears i r : rows σ !! i = None → rows σ' !! i = Some r → may_create π = Some i.
Proof using Hs. intros H1 H2. specialize (Hs i). rewrite H1, H2 in Hs. by inversion Hs. Qed.

Lemma enqueued_lookup i : K' !! i =
  match rows σ !! i, rows σ' !! i with None, Some r => Some r | _, _ => K !! i end.
Proof using.
  unfold K', ghost_step; simpl. fold K. rewrite lookup_union.
  destruct (rows σ !! i) as [r0|] eqn:E0, (rows σ' !! i) as [r1|] eqn:E1.
  - rewrite (proj2 (lookup_difference_None _ _ _)) by (right; eauto). by destruct (K !! i).
  - rewrite (proj2 (lookup_difference_None _ _ _)) by (by left). by destruct (K !! i).
  - rewrite (proj2 (lookup_difference_Some _ _ _ _) (conj E1 E0)). by destruct (K !! i).
  - rewrite (proj2 (lookup_difference_None _ _ _)) by (by left). by destruct (K !! i).
Qed.

Lemma enqueued_mono : K ⊆ K'.
Proof using Hs Hfresh.
  apply map_subseteq_spec. intros i r Hi. rewrite enqueued_lookup.
  destruct (rows σ !! i) as [r0|] eqn:E0; [done|].
  destruct (rows σ' !! i) as [r1|] eqn:E1; [|done].
  destruct (Hfresh i (appears i r1 E0 E1)). by apply elem_of_dom_2 in Hi.
Qed.

Lemma step_store_ok : store_ok K' σ'.
Proof using Hok Hs.
  intros i r' Hr'. rewrite enqueued_lookup. pose proof (Hs i) as Hi. rewrite Hr' in Hi.
  destruct (rows σ !! i) as [r|] eqn:Hr.
  - destruct (Hok i r Hr) as (Hid & Hrow & r0 & Hr0 & Hsame).
    pose proof (row_step_same_task _ _ _ _ Hi) as Hsame'.
    split_and!; [by rewrite <- Hid; destruct Hsame' as [-> _]|by eapply row_step_ok|].
    exists r0. split; [done|by etrans].
  - destruct (row_step_create_ok _ _ _ Hi). rewrite Hr'. split_and!; [done|done|by exists r'].
Qed.

Lemma new_enqueued i : i ∈ dom K' → i ∉ dom K → may_create π = Some i.
Proof using Hs.
  rewrite !elem_of_dom, <- eq_None_not_Some. intros [r Hr] HK. rewrite enqueued_lookup in Hr.
  destruct (rows σ !! i) as [r0|] eqn:E0; [congruence|].
  destruct (rows σ' !! i) as [r1|] eqn:E1; [|congruence]. by eapply appears.
Qed.

Lemma step_hist_ok i :
  hist_ok (rows σ !! i) (g_hist g i) → (i ∉ dom K → g_hist g i = mkHist 0 []) →
  hist_ok (rows σ' !! i) (g_hist (ghost_step σ σ' g) i).
Proof using Hok Hs Hfresh.
  intros Hh Hnew. simpl. eapply hist_step_ok; [apply Hs| |done|].
  - intros r Hr. by destruct (Hok i r Hr) as (_ & ? & _).
  - intros Hn r Hr. apply Hnew, Hfresh. by eapply appears.
Qed.

Lemma step_gone i :
  rows σ !! i ≠ None → rows σ' !! i = None →
  may_finish π = Some i ∨ i ∈ g_deleted (ghost_step σ σ' g).
Proof using Hs.
  intros Hne Hn. specialize (Hs i). rewrite Hn in Hs.
  destruct (rows σ !! i) as [r|] eqn:Hr; [|done].
  inversion Hs as [| | | | | | |r' Hst|r' Hf]; subst; [right|by left].
  simpl. apply elem_of_union_l. unfold gone_dead. apply elem_of_dom. exists r.
  apply map_lookup_filter_Some. split; [|done]. by apply lookup_difference_Some.
Qed.

(** A claim is a new one, at the head of the history. *)
Lemma claimed_token i n :
  claimed_row σ σ' i n → hist_ok (rows σ !! i) (g_hist g i) →
  ∃ c, head (h_claims (g_hist (ghost_step σ σ' g) i)) = Some c ∧ c.2 = n ∧
    c ∉ h_claims (g_hist g i).
Proof using Hs.
  intros (r & r' & Hr & Hr' & Hst & Hst' & Hn) Hh. simpl. rewrite Hr in Hh. rewrite Hr, Hr'.
  unfold hist_step, was_claimed. rewrite decide_True by done. simpl.
  exists (h_epoch (g_hist g i), r_Attempts r'). split_and!; [done|done|].
  specialize (Hs i). rewrite Hr, Hr' in Hs.
  assert (r_Attempts r' = r_Attempts r + 1) as ->.
  { inversion Hs; subst; try status_clash; done. }
  by apply next_claim_fresh.
Qed.
End table_step.

(** ** The invariant *)

(** The legality of the program a thread runs, and the handler it is in. *)
Definition pc_legal `{Engine} (K : gmap string TaskRecord) (π : perm) (pc : tpc) : Prop :=
  match pc with
  | Serving p => legal K π p
  | InRound p => legal K π p
  | _ => True
  end.

Definition pc_handler (pc : tpc) : option Task :=
  match pc with
  | Serving p => in_handler p
  | InRound p => in_handler p
  | _ => None
  end.

Record thread_ok `{Engine} (g : ghost) (th : thread) : Prop := {
  th_legal : pc_legal (g_enqueued g) (th_perm th) (th_pc th);
  th_create u : may_create (th_perm th) = Some u → u ∈ g_used g ∧ u ∉ dom (g_enqueued g);
  th_finish u : may_finish (th_perm th) = Some u → u ∈ g_acked g;
  th_claim i c : th_token th = Some (i, c) → c ∈ h_claims (g_hist g i);
  th_handler t : pc_handler (th_pc th) = Some t →
    ∃ c, th_token th = Some (ID t, c) ∧ wrap64 (Attempts t) = wrap64 c.2
}.

Definition distinct {A} (f : thread → option A) (l : list thread) : Prop :=
  ∀ j k thj thk x, l !! j = Some thj → l !! k = Some thk →
    f thj = Some x → f thk = Some x → j = k.

Record sys_inv `{Engine} {DB} `{Database DB} (s : sys DB) : Prop := {
  inv_store : store_ok (g_enqueued (s_ghost s)) (db_store (s_db s));
  inv_hist i : hist_ok (rows (db_store (s_db s)) !! i) (g_hist (s_ghost s) i);
  inv_fresh i : i ∉ dom (g_enqueued (s_ghost s)) → g_hist (s_ghost s) i = mkHist 0 [];
  inv_used i : i ∈ dom (g_enqueued (s_ghost s)) → i ∈ g_used (s_ghost s);
  inv_gone i : i ∈ dom (g_enqueued (s_ghost s)) → rows (db_store (s_db s)) !! i = None →
    i ∈ g_acked (s_ghost s) ∨ i ∈ g_deleted (s_ghost s);
  inv_threads th : th ∈ s_threads s → thread_ok (s_ghost s) th;
  inv_create : distinct (λ th, may_create (th_perm th)) (s_threads s);
  inv_tokens : distinct th_token (s_threads s)
}.

(** Replacing the value of one thread by none, or by one no other thread has. *)
Lemma distinct_insert {A} (f : thread → option A) l i th th' :
  l !! i = Some th → distinct f l →
  (∀ x, f th' = Some x → f th = Some x ∨ ∀ u, u ∈ l → f u ≠ Some x) →
  distinct f (<[i:=th']> l).
Proof.
  intros Hi Hd Hx j k thj thk x Hj Hk Hfj Hfk.
  apply list_lookup_insert_Some in Hj as [(<- & <- & _)|[Hnj Hj]],
    Hk as [(<- & <- & _)|[Hnk Hk]]; [done| | |by eapply Hd].
  - destruct (Hx x Hfj) as [Hold|Hnew]; [by eapply Hd|].
    destruct (Hnew thk); [by eapply list_elem_of_lookup_2|done].
  - destruct (Hx x Hfk) as [Hold|Hnew]; [by eapply Hd|].
    destruct (Hnew thj); [by eapply list_elem_of_lookup_2|done].
Qed.

Lemma distinct_app {A} (f : thread → option A) l l' :
  distinct f l → distinct f l' →
  (∀ th th' x, th ∈ l → th' ∈ l' → f th = Some x → f th' ≠ Some x) → distinct f (l ++ l').
Proof.
  intros Hl Hl' Hx j k thj thk x Hj Hk Hfj Hfk.
  apply lookup_app_Some in Hj as [Hj|[Hlj Hj]], Hk as [Hk|[Hlk Hk]].
  - by eapply Hl.
  - by destruct (Hx thj thk x); eauto using list_elem_of_lookup_2.
  - by destruct (Hx thk thj x); eauto using list_elem_of_lookup_2.
  - assert (j - length l = k - length l)%nat by (by eapply Hl'). lia.
Qed.

Lemma distinct_none {A} (f : thread → option A) l : (∀ th, th ∈ l → f th = None) → distinct f l.
Proof.
  intros Hl j k thj thk x Hj Hk Hfj Hfk.
  rewrite (Hl thj) in Hfj; [done|by eapply list_elem_of_lookup_2].
Qed.

Section invariant.
Context `{Engine, Json} {DB : Type} `{Database DB} {laws : DatabaseLaws DB}.

(** Other threads while the ghost grows. *)
Lemma thread_ok_mono g g' th :
  g_enqueued g ⊆ g_enqueued g' → g_used g ⊆ g_used g' → g_acked g ⊆ g_acked g' →
  (∀ i c, c ∈ h_claims (g_hist g i) → c ∈ h_claims (g_hist g' i)) →
  (∀ u, may_create (th_perm th) = Some u → u ∉ dom (g_enqueued g) → u ∉ dom (g_enqueued g')) →
  thread_ok g th → thread_ok g' th.
Proof.
  intros HK Hu Ha Hh Hc [Hl Hcr Hf Hcl Hh']. split; auto.
  - destruct (th_pc th); simpl in *; eauto using legal_mono.
  - intros u Hu'. destruct (Hcr u Hu'). split; [by apply Hu|auto].
Qed.

(** A thread whose program counter moves to a place without a program. *)
Lemma thread_ok_pc g th pc :
  pc_legal (g_enqueued g) (th_perm th) pc → pc_handler pc = None →
  thread_ok g th → thread_ok g (set_pc pc th).
Proof. intros Hl Hn [Hl' Hc Hf Hcl Hh]. split; simpl; auto. intros t. by rewrite Hn. Qed.

Lemma threads_insert g (l : list thread) i th th' :
  l !! i = Some th → (∀ u, u ∈ l → thread_ok g u) → thread_ok g th' →
  ∀ u, u ∈ <[i:=th']> l → thread_ok g u.
Proof. intros Hi Hl Hth u [->|Hu]%elem_of_insert_inv; auto. Qed.

(** A step that moves one program counter. *)
Lemma inv_set_pc i th pc s :
  sys_inv s → s_threads s !! i = Some th → pc_handler pc = None →
  (∀ K π, K = g_enqueued (s_ghost s) → π = th_perm th → pc_legal K π pc) →
  sys_inv (set_thread i (set_pc pc th) s).
Proof.
  intros Hs Hi Hn Hl. destruct Hs as [Hst Hh Hfr Hu Hg Ht Hc Htk]. split; simpl; auto.
  - eapply threads_insert; [done|done|]. apply thread_ok_pc; auto.
    apply Ht. by eapply list_elem_of_lookup_2.
  - eapply distinct_insert; eauto.
  - eapply distinct_insert; eauto.
Qed.

(** No call but an insertion adds a row. *)
Lemma eff_no_insert L π X (e : eff X) σ x σ' :
  eff_sem L e σ x σ' →
  may_create (next_perm π e x) = None ∨ ∀ i, rows σ !! i = None → rows σ' !! i = None.
Proof.
  destruct e as [|X s|b|X f|t]; simpl.
  - intros ->. by right.
  - destruct s as [r|w f|w|q|w o f|ch p]; simpl.
    + by left.
    + intros Hs. right. intros i Hi.
      assert (σ' = set_rows (update_rows w f (rows σ)) σ ∨ σ' = σ) as [->| ->]; [|simpl|done].
      { destruct x; [by destruct Hs as [->| ->]; [left|right]|by left; destruct Hs]. }
      unfold update_rows. by rewrite lookup_fmap, Hi.
    + intros Hs. right. intros i Hi.
      assert (σ' = set_rows (delete_rows w (rows σ)) σ ∨ σ' = σ) as [->| ->]; [|simpl|done].
      { destruct x; [by destruct Hs as [->| ->]; [left|right]|by left; destruct Hs]. }
      by rewrite delete_rows_lookup, Hi.
    + intros [-> _]. by right.
    + intros Hs. right. intros i Hi.
      assert (σ' = σ ∨ ∃ res, updated_first L w o f (rows σ) res (rows σ')) as [->|[res Hu]];
        [|done|].
      { destruct x as [err|res]; [destruct Hs as [(_ & Hs)| ->]; eauto|]. destruct Hs; eauto. }
      destruct res as [r'|]; simpl in Hu.
      * destruct Hu as (j & r & Hr & _ & _ & -> & _). rewrite lookup_insert_ne; congruence.
      * by destruct Hu as [-> _].
    + intros Hs. right. by destruct x; [destruct Hs as [->| ->]|subst].
  - by left.
  - intros ->. by right.
  - intros ->. by right.
Qed.

Lemma exec_eff_sem X (e : eff X) d l t x d' l' :
  exec_eff e d l t = Some (x, d', l') → eff_sem (db_locked d) e (db_store d) x (db_store d').
Proof using laws.
  destruct e as [|X s|b|X f|u]; simpl.
  - by intros [= <- <- <-].
  - pose proof (db_exec_ok s d) as Hok. destruct (db_exec s d) as [y d1].
    by intros [= <- <- <-].
  - pose proof (db_tx_ok b d) as Hok. destruct (db_tx b d) as [y d1].
    by intros [= <- <- <-].
  - intros ([y l1] & _ & [= <- <- <-])%bind_Some. done.
  - done.
Qed.

(** What one call of a legal program does. *)
Lemma advance_legal {A} K π (p p' : program A) π' d l t d' l' :
  legal K π p → store_ok K (db_store d) → advance p π d l t = Some (p', π', d', l') →
  steps_ok π (db_store d) (db_store d') ∧
  (∀ u, in_handler p' = Some u → ∃ n,
     claimed_row (db_store d) (db_store d') (ID u) n ∧ wrap64 (Attempts u) = wrap64 n) ∧
  legal K π' p' ∧
  (may_create π' = None ∨ may_create π' = may_create π ∧
     ∀ i, rows (db_store d) !! i = None → rows (db_store d') !! i = None) ∧
  may_finish π' = may_finish π.
Proof using laws.
  destruct p as [a|X e k]; simpl; [done|]. intros Hl Hok.
  intros ([[x d1] l1] & Hx & [= <- <- <- <-])%bind_Some.
  pose proof (exec_eff_sem X e d l t x d1 l1 Hx) as Hsem.
  destruct (Hl (db_locked d) K (db_store d) x (db_store d1)) as (Hs & Hh & Hl'); auto.
  split_and!; [done|done|done| |].
  - destruct (eff_no_insert _ π _ e _ x _ Hsem) as [Hn|Hn]; [by left|].
    destruct e as [|X s|b|X f|u]; simpl in *; auto; [|done]. destruct s; auto.
  - destruct e as [|X s|b|X f|u]; simpl in *; try done. by destruct s.
Qed.

Section commit.
Context {A : Type} (i : nat) (th : thread) (pc : program A → tpc) (nd : node).
Context (p p' : program A) (π' : perm) (d' : DB) (l l' : local) (s : sys DB).
Context (Hpc : th_pc th = pc p) (Hleg : ∀ K π q, pc_legal K π (pc q) ↔ legal K π q)
  (Hin : ∀ q, pc_handler (pc q) = in_handler q).
Context (Hs : sys_inv s) (Hi : s_threads s !! i = Some th)
  (Hadv : advance p (th_perm th) (s_db s) l (s_now s) = Some (p', π', d', l')).

Let g := s_ghost s.
Let σ := db_store (s_db s).
Let σ' := db_store d'.
Let g' := ghost_step σ σ' g.

Lemma commit_thread : thread_ok g th.
Proof using Hs Hi. apply (inv_threads s Hs). by eapply list_elem_of_lookup_2. Qed.

Lemma commit_facts :
  steps_ok (th_perm th) σ σ' ∧
  (∀ u, in_handler p' = Some u → ∃ n,
     claimed_row σ σ' (ID u) n ∧ wrap64 (Attempts u) = wrap64 n) ∧
  legal (g_enqueued g) π' p' ∧
  (may_create π' = None ∨ may_create π' = may_create (th_perm th) ∧
     ∀ i, rows σ !! i = None → rows σ' !! i = None) ∧
  may_finish π' = may_finish (th_perm th).
Proof using laws Hpc Hleg Hs Hi Hadv.
  eapply advance_legal; [|apply Hs|exact Hadv].
  apply Hleg. rewrite <- Hpc. apply commit_thread.
Qed.

Lemma commit_fresh u : may_create (th_perm th) = Some u → u ∉ dom (g_enqueued g).
Proof using Hs Hi. intros Hu. by destruct (th_create g th commit_thread u Hu). Qed.

Lemma commit_mono : g_enqueued g ⊆ g_enqueued g'.
Proof using laws Hpc Hleg Hs Hi Hadv.
  destruct commit_facts as (Hst & _).
  eapply enqueued_mono; [exact Hst|apply commit_fresh].
Qed.

Lemma commit_new u : u ∈ dom (g_enqueued g') → u ∉ dom (g_enqueued g) →
  may_create (th_perm th) = Some u ∧ may_create π' = None.
Proof using laws Hpc Hleg Hs Hi Hadv.
  intros Hu Hn. destruct commit_facts as (Hst & _ & _ & Hcr & _).
  split; [by eapply new_enqueued|]. destruct Hcr as [Hcr|[_ Hno]]; [done|]. exfalso.
  apply Hn. rewrite elem_of_dom in Hu |- *. destruct Hu as [r Hr].
  unfold g' in Hr. rewrite enqueued_lookup in Hr. fold g in Hr.
  destruct (rows σ !! u) eqn:E; [eauto|]. rewrite (Hno u E) in Hr. eauto.
Qed.

(** The other threads keep their permissions: they insert other rows. *)
Lemma commit_others th' :
  th' ∈ s_threads s → (∀ u, may_create (th_perm th') = Some u →
    may_create (th_perm th) ≠ Some u ∨ may_create π' ≠ None) → thread_ok g' th'.
Proof using laws Hpc Hleg Hs Hi Hadv.
  intros Hth' Hne. eapply (thread_ok_mono g); [apply commit_mono|done|done| | |].
  - intros j c. apply hist_step_claims.
  - intros u Hu Hn Hin'. destruct (commit_new u Hin' Hn) as [Hc1 Hc2].
    by destruct (Hne u Hu).
  - by apply (inv_threads s Hs).
Qed.

Lemma commit_token t :
  in_handler p' = Some t → ∃ c, handler_token g' p' = Some (ID t, c) ∧
    wrap64 (Attempts t) = wrap64 c.2 ∧ c ∈ h_claims (g_hist g' (ID t)) ∧
    c ∉ h_claims (g_hist g (ID t)).
Proof using laws Hpc Hleg Hs Hi Hadv.
  intros Ht. destruct commit_facts as (Hst & Hh & _).
  destruct (Hh t Ht) as (n & Hcl & Hn).
  destruct (claimed_token (th_perm th) σ σ' g Hst (ID t) n Hcl (inv_hist s Hs (ID t)))
    as (c & Hhead & <- & Hfresh).
  exists c. unfold handler_token. rewrite Ht. unfold g'. rewrite Hhead. split_and!; [done|done| |done].
  apply head_Some in Hhead as [rest ->]. by left.
Qed.

Lemma commit_self :
  thread_ok g' (mkThread (th_node th) (th_queue th) (th_opts th) (th_sub th) (pc p') π'
    (handler_token g' p')).
Proof using laws Hpc Hleg Hin Hs Hi Hadv.
  destruct commit_facts as (Hst & Hh & Hl & Hcr & Hf). split; simpl.
  - apply Hleg. by eapply legal_mono; [apply commit_mono|].
  - intros u Hu. destruct Hcr as [Hcr|[Hcr Hno]]; [congruence|].
    rewrite Hcr in Hu. destruct (th_create g th commit_thread u Hu) as [Hused Hn].
    split; [done|]. intros Hd. destruct (commit_new u Hd Hn). congruence.
  - intros u. rewrite Hf. apply (th_finish g th commit_thread).
  - intros j c Htok. destruct (in_handler p') as [t|] eqn:Ht.
    + destruct (commit_token t Ht) as (c' & Heq & _ & Hc & _).
      rewrite Heq in Htok. by simplify_eq.
    + unfold handler_token in Htok. by rewrite Ht in Htok.
  - intros t. rewrite Hin. intros Ht. destruct (commit_token t Ht) as (c & Heq & Hn & _).
    by exists c.
Qed.

Lemma inv_commit : sys_inv (commit i th pc nd p' π' d' l' s).
Proof using laws Hpc Hleg Hin Hs Hi Hadv.
  destruct commit_facts as (Hst & Hh & Hl & Hcr & Hf).
  pose proof commit_fresh as Hfresh. split; simpl; fold g σ σ'; fold g'.
  - eapply step_store_ok; [apply Hs|exact Hst].
  - intros j. eapply step_hist_ok; [apply Hs|exact Hst|exact Hfresh|apply Hs|apply Hs].
  - intros j Hj. unfold hist_step, was_claimed, was_revived.
    assert (rows σ !! j = None) as Hn.
    { destruct (rows σ !! j) as [r|] eqn:E; [|done]. destruct Hj.
      eapply elem_of_weaken; [|apply subseteq_dom, commit_mono].
      destruct (inv_store s Hs j r E) as (_ & _ & r0 & Hr0 & _). by eapply elem_of_dom_2. }
    rewrite Hn. apply (inv_fresh s Hs). intros Hin'. apply Hj.
    eapply elem_of_weaken; [exact Hin'|apply subseteq_dom, commit_mono].
  - intros j Hj. destruct (decide (j ∈ dom (g_enqueued g))) as [Hold|Hnew].
    + by apply (inv_used s Hs).
    + destruct (commit_new j Hj Hnew) as [Hc1 _].
      by destruct (th_create g th commit_thread j Hc1).
  - intros j Hj Hn. destruct (rows σ !! j) as [r|] eqn:E.
    + destruct (step_gone (th_perm th) σ σ' g Hst j) as [Hfin|Hdel]; [congruence|done| |].
      * left. by apply (th_finish g th commit_thread).
      * by right.
    + destruct (inv_gone s Hs j) as [?|?]; [|done|by left|right; by apply elem_of_union_r].
      destruct (decide (j ∈ dom (g_enqueued g))) as [Hold|Hnew]; [done|]. exfalso.
      change (j ∈ dom (g_enqueued g')) in Hj.
      rewrite elem_of_dom in Hj. destruct Hj as [r Hr].
      unfold g' in Hr. rewrite enqueued_lookup in Hr. fold g in Hr. rewrite E, Hn in Hr.
      apply Hnew. by eapply elem_of_dom_2.
  - intros u [k Hk]%list_elem_of_lookup.
    apply list_lookup_insert_Some in Hk as [(_ & <- & _)|[Hne Hk]]; [apply commit_self|].
    apply commit_others; [by eapply list_elem_of_lookup_2|]. intros v Hv.
    left. intros Hv'. apply Hne. by eapply (inv_create s Hs).
  - eapply distinct_insert; [exact Hi|apply Hs|]. simpl. intros u Hu. left.
    destruct Hcr as [Hcr|[Hcr _]]; congruence.
  - eapply distinct_insert; [exact Hi|apply Hs|]. simpl. intros [j c] Hu. right.
    intros th' Hth' Heq. destruct (in_handler p') as [t|] eqn:Ht.
    + destruct (commit_token t Ht) as (c' & Heq' & _ & _ & Hc). simplify_eq.
      apply Hc. by apply (th_claim g th' (inv_threads s Hs th' Hth')).
    + unfold handler_token in Hu. by rewrite Ht in Hu.
Qed.
  End commit.

(** ** The programs that are started *)

Lemma in_handler_map {A B} (f : A → B) (p : program A) :
  in_handler (bind (λ a, mret (f a)) p) = in_handler p.
Proof. destruct p as [a|X e k]; [done|]. by destruct e. Qed.

Lemma legal_map {A B} (f : A → B) K π (p : program A) :
  legal K π p → legal K π (bind (λ a, mret (f a)) p).
Proof.
  revert K π; induction p as [a|X e k IH]; intros K π; [done|].
  intros Hl L K' σ x σ' Hle Hok Hsem. destruct (Hl L K' σ x σ' Hle Hok Hsem) as (Hs & Hh & Hk).
  split_and!; [done| |by apply IH]. intros t. rewrite in_handler_map. apply Hh.
Qed.

Lemma method_legal K b c : legal K (call_perm c) (method b c).
Proof.
  destruct b, c; simpl; apply legal_map;
    auto using GormLegal.Enqueue_legal, GormLegal.ListDeadTasks_legal,
      GormLegal.RequeueDeadTask_legal, GormLegal.DeleteDeadTask_legal,
      PostgresLegal.pg_Enqueue_legal, PostgresLegal.pg_ListDeadTasks_legal,
      PostgresLegal.pg_RequeueDeadTask_legal, PostgresLegal.pg_DeleteDeadTask_legal.
Qed.

Lemma method_not_in_handler b c : in_handler (method b c) = None.
Proof.
  destruct b as [[[] ?]|[[] ?]], c; reflexivity.
Qed.

Lemma worker_round_legal K b queue o : legal K no_perm (worker_round b queue o).
Proof. destruct b; [apply GormLegal.worker_legal|apply PostgresLegal.pg_worker_legal]. Qed.

Lemma worker_round_not_in_handler b queue o : in_handler (worker_round b queue o) = None.
Proof. by destruct b. Qed.

(** ** Steps *)

(** A thread is replaced by one that holds no more than it did. *)
Lemma inv_replace i th th' g' s :
  sys_inv s → s_threads s !! i = Some th →
  g' = s_ghost s ∨ (∃ u, g' = ghost_ack u (s_ghost s)) →
  thread_ok g' th' →
  may_create (th_perm th') = None ∨ may_create (th_perm th') = may_create (th_perm th) →
  th_token th' = None ∨ th_token th' = th_token th →
  sys_inv (set_thread i th' (mkSys (s_db s) (s_now s) (s_nodes s) (s_threads s) g')).
Proof using All.
  intros Hs Hi Hg Hth Hc Ht. destruct Hs as [Hst Hh Hfr Hu Hgo Hts Hcr Htk].
  assert (g_enqueued g' = g_enqueued (s_ghost s) ∧ g_used g' = g_used (s_ghost s) ∧
    g_acked (s_ghost s) ⊆ g_acked g' ∧ g_deleted g' = g_deleted (s_ghost s) ∧
    g_hist g' = g_hist (s_ghost s)) as (HK & HU & HA & HD & HH).
  { destruct Hg as [->|[u ->]]; [done|]. split_and!; try done. apply union_subseteq_r. }
  split; simpl; rewrite ?HK, ?HU, ?HD, ?HH; auto.
  - intros j Hj Hn. destruct (Hgo j Hj Hn); [left; by apply HA|by right].
  - eapply threads_insert; [exact Hi| |done]. intros u Hu'.
    eapply (thread_ok_mono (s_ghost s)); [by rewrite HK|by rewrite HU|done|by rewrite HH| |auto].
    by rewrite HK.
  - eapply distinct_insert; [exact Hi|done|]. intros x Hx. left. destruct Hc as [Hc|Hc]; congruence.
  - eapply distinct_insert; [exact Hi|done|]. intros x Hx. left. destruct Ht as [Ht|Ht]; congruence.
Qed.

Lemma inv_finish i th h s s' :
  sys_inv s → s_threads s !! i = Some th → finish_handler i th h s = Some s' → sys_inv s'.
Proof using All.
  intros Hs Hi. unfold finish_handler. destruct (th_pc th) as [| | |p| | |] eqn:Hpc; try done.
  assert (thread_ok (s_ghost s) th) as [Hl Hc Hf Hcl Hh]
    by (apply (inv_threads s Hs); by eapply list_elem_of_lookup_2).
  rewrite Hpc in Hl, Hh. simpl in Hl, Hh.
  intros (t & Ht & Hrun)%bind_Some. specialize (Hh t Ht).
  destruct p as [a|X e k]; [done|]. destruct e as [| | | |u]; try done. simpl in Ht.
  injection Ht as ->. simpl in Hrun.
  set (err := (invokeHandler h t).2) in *.
  destruct (Hl ∅ (g_enqueued (s_ghost s)) (db_store (s_db s)) err (db_store (s_db s)))
    as (_ & Hin & Hk); [done|apply Hs|done|].
  assert (in_handler (k err) = None) as Hnone.
  { destruct (in_handler (k err)) as [t'|] eqn:Ht'; [|done].
    destruct (Hin t' eq_refl) as (n & (r & r' & Hr & Hr' & ? & ? & _) & _).
    rewrite Hr in Hr'. injection Hr' as ->. status_clash. }
  assert (∀ g', g' = (match err with None => ghost_ack (ID t) (s_ghost s) | _ => s_ghost s end) →
    thread_ok g' (mkThread (th_node th) (th_queue th) (th_opts th) (th_sub th) (InRound (k err))
      (next_perm (th_perm th) (Invoke t) err) None)) as Hth.
  { intros g' ->. split; simpl.
    - by destruct err.
    - destruct err; simpl; apply Hc.
    - intros u. destruct err; simpl; [apply Hf|]. intros [= <-]. by apply elem_of_union_l, elem_of_singleton.
    - done.
    - intros u. by rewrite Hnone. }
  injection Hrun as <-. eapply inv_replace; [done|exact Hi| |by apply Hth| |by left].
  - destruct err; [by left|right; eauto].
  - right. by destruct err.
Qed.

Lemma inv_step_thread i th s s' :
  sys_inv s → s_threads s !! i = Some th → step_thread i th s = Some s' → sys_inv s'.
Proof using laws.
  intros Hs Hi. unfold step_thread. intros (nd & Hnd & Hstep)%bind_Some.
  destruct (th_pc th) as [p| | |p| | |] eqn:Hpc; try done.
  - destruct p as [a|X e k]; [injection Hstep as <-; by apply inv_set_pc|].
    apply bind_Some in Hstep as ([[[p' π'] d'] l'] & Hadv & [= <-]).
    by eapply (inv_commit i th Serving).
  - destruct p as [[|ch wait]|X e k].
    + injection Hstep as <-. by apply inv_set_pc.
    + injection Hstep as <-. by apply inv_set_pc.
    + apply bind_Some in Hstep as ([[[p' π'] d'] l'] & Hadv & [= <-]).
      by eapply (inv_commit i th InRound).
Qed.

Lemma inv_next i th s s' :
  sys_inv s → s_threads s !! i = Some th → next_worker i th s = Some s' → sys_inv s'.
Proof using laws.
  intros Hs Hi. unfold next_worker.
  intros (nd & Hnd & (sub & Hsub & Hstep)%bind_Some)%bind_Some.
  destruct (th_pc th) eqn:Hpc; try done.
  - case_decide; injection Hstep as <-; [by apply inv_set_pc|].
    assert (sys_inv (set_thread i (mkThread (th_node th) (th_queue th) (th_opts th) (th_sub th)
      (InRound (worker_round (n_backend nd) (th_queue th) (th_opts th))) no_perm None)
      (mkSys (s_db s) (s_now s) (s_nodes s) (s_threads s) (s_ghost s)))) as Hgoal; [|exact Hgoal].
    eapply inv_replace; [done|exact Hi|by left| |by left|by left].
    split; simpl; try done; [apply worker_round_legal|].
    intros t. by rewrite worker_round_not_in_handler.
  - injection Hstep as <-. by apply inv_set_pc.
Qed.

Lemma inv_wake i th fires pc s s' :
  sys_inv s → s_threads s !! i = Some th → pc = AtTop ∨ pc = Exited →
  wake_worker i th fires pc s = Some s' → sys_inv s'.
Proof using laws.
  intros Hs Hi Hpc. unfold wake_worker.
  intros (nd & Hnd & (sub & Hsub & Hstep)%bind_Some)%bind_Some.
  destruct (th_pc th); try done. destruct (fires _ _ _ _); [|done]. injection Hstep as <-.
  apply inv_set_pc; [done|done|by destruct Hpc as [->| ->]|by destruct Hpc as [->| ->]].
Qed.

(** A step that leaves the database, the threads and the ghost alone. *)
Lemma inv_quiet s d t nds :
  sys_inv s → d = s_db s → sys_inv (mkSys d t nds (s_threads s) (s_ghost s)).
Proof. intros [] ->. by split. Qed.

Lemma inv_call n nd c s :
  sys_inv s → call_ok c (s_ghost s) →
  sys_inv (mkSys (s_db s) (s_now s) (s_nodes s) (s_threads s ++ [client n (n_backend nd) c])
    (call_use c (s_ghost s))).
Proof using laws.
  intros Hs Hcall. pose proof Hs as [Hst Hh Hfr Hu Hgo Hts Hcr Htk].
  assert (g_enqueued (call_use c (s_ghost s)) = g_enqueued (s_ghost s) ∧
    g_used (s_ghost s) ⊆ g_used (call_use c (s_ghost s)) ∧
    g_acked (call_use c (s_ghost s)) = g_acked (s_ghost s) ∧
    g_deleted (call_use c (s_ghost s)) = g_deleted (s_ghost s) ∧
    g_hist (call_use c (s_ghost s)) = g_hist (s_ghost s)) as (HK & HU & HA & HD & HH).
  { destruct c; simpl; split_and!; try done; apply union_subseteq_r. }
  split; simpl; rewrite ?HK, ?HA, ?HD, ?HH; auto.
  - intros th [Hth| ->%list_elem_of_singleton]%elem_of_app.
    + eapply (thread_ok_mono (s_ghost s));
        [by rewrite HK|done|by rewrite HA|by rewrite HH|by rewrite HK|by apply Hts].
    + split; simpl; try done.
      * apply method_legal.
      * intros u Hc. destruct c; simpl in *; try done. injection Hc as ->.
        split; [set_solver|]. intros Hin. by apply Hcall, Hu.
      * by destruct c.
      * intros t. by rewrite method_not_in_handler.
  - apply distinct_app; [done| |].
    + intros [|j] [|k] thj thk x Hj Hk; simplify_eq/=; done.
    + intros th th' x Hth ->%list_elem_of_singleton Hx Hx'. simpl in Hx'.
      destruct c; simpl in *; try done. injection Hx' as ->. apply Hcall.
      by destruct (th_create _ _ (Hts th Hth) x Hx).
  - apply distinct_app; [done| |].
    + apply distinct_none. by intros th ->%list_elem_of_singleton.
    + by intros th th' x Hth ->%list_elem_of_singleton Hx.
Qed.

Lemma inv_add n q o k nds m s :
  sys_inv s → sys_inv (mkSys (s_db s) (s_now s) nds
    (s_threads s ++ replicate m (new_worker n q o k)) (s_ghost s)).
Proof using laws.
  intros [Hst Hh Hfr Hu Hgo Hts Hcr Htk]. split; simpl; auto.
  - intros th [Hth|[-> _]%elem_of_replicate]%elem_of_app; [by apply Hts|]. by split.
  - apply distinct_app; [done| |].
    + apply distinct_none. by intros th [-> _]%elem_of_replicate.
    + by intros th th' x Hth [-> _]%elem_of_replicate Hx.
  - apply distinct_app; [done| |].
    + apply distinct_none. by intros th [-> _]%elem_of_replicate.
    + by intros th th' x Hth [-> _]%elem_of_replicate Hx.
Qed.

Lemma distinct_crash {A} (f : thread → option A) n l :
  (∀ th, f (crash n th) = None ∨ f (crash n th) = f th) → distinct f l → distinct f (crash n <$> l).
Proof.
  intros Hf Hd j k thj thk x. rewrite !list_lookup_fmap.
  intros (uj & Hj & ->)%fmap_Some (uk & Hk & ->)%fmap_Some Hfj Hfk.
  destruct (Hf uj) as [E|E]; [congruence|]. destruct (Hf uk) as [E'|E']; [congruence|].
  eapply Hd; [exact Hj|exact Hk|by rewrite <- E|by rewrite <- E'].
Qed.

Lemma inv_crash n s :
  sys_inv s → sys_inv (mkSys (s_db s) (s_now s) (s_nodes s) (crash n <$> s_threads s) (s_ghost s)).
Proof using laws.
  intros [Hst Hh Hfr Hu Hgo Hts Hcr Htk]. split; simpl; auto.
  - intros th (u & -> & Hin)%list_elem_of_fmap. unfold crash.
    case_decide; [by split|by apply Hts].
  - apply distinct_crash; [|done]. intros th. unfold crash. case_decide; auto.
  - apply distinct_crash; [|done]. intros th. unfold crash. case_decide; auto.
Qed.

Lemma sys_inv_step e s s' : sys_inv s → step e s = Some s' → sys_inv s'.
Proof using laws.
  intros Hs. destruct e; simpl.
  - case_decide; [|done]. intros [= <-]. by apply inv_quiet.
  - intros (nd & Hnd & Hc)%bind_Some. case_decide; [|done]. injection Hc as <-. by apply inv_call.
  - intros (nd & Hnd & Hc)%bind_Some. destruct (node_started _); [|done].
    injection Hc as <-. by apply (inv_add n queue _ _ _ _ s).
  - intros (nd & _ & (sub & _ & ([sub' c] & _ & [= <-])%bind_Some)%bind_Some)%bind_Some.
    by apply inv_quiet.
  - intros (nd & _ & (sub & _ & (c & _ & [= <-])%bind_Some)%bind_Some)%bind_Some. by apply inv_quiet.
  - intros (th & Hi & Hst)%bind_Some. by eapply inv_step_thread.
  - intros (th & Hi & Hst)%bind_Some. by eapply inv_finish.
  - intros (th & Hi & Hst)%bind_Some. by eapply inv_next.
  - intros (th & Hi & Hst)%bind_Some. eapply inv_wake; [exact Hs|exact Hi| |exact Hst]; auto.
  - intros (th & Hi & Hst)%bind_Some. eapply inv_wake; [exact Hs|exact Hi| |exact Hst]; auto.
  - intros (th & Hi & Hst)%bind_Some. eapply inv_wake; [exact Hs|exact Hi| |exact Hst]; auto.
  - intros (nd & _ & (l & _ & [= <-])%bind_Some)%bind_Some. by apply inv_quiet.
  - intros [= <-]. by apply inv_crash.
Qed.

Lemma sys_init_inv d t bs : rows (db_store d) = ∅ → sys_inv (sys_init d t bs).
Proof using laws.
  intros Hd. assert (∀ A (f : thread → option A), distinct f []) as Hnone.
  { intros A f. apply distinct_none. intros th Hth. by apply not_elem_of_nil in Hth. }
  split; simpl; auto.
  - intros i r. by rewrite Hd, lookup_empty.
  - intros i. apply hist_empty_ok. intros r. by rewrite Hd, lookup_empty.
  - intros th Hth. by apply not_elem_of_nil in Hth.
Qed.

Lemma reachable_inv d t bs s :
  rows (db_store d) = ∅ → reachable step (sys_init d t bs) s → sys_inv s.
Proof using laws.
  intros Hd. apply (reachable_invariant step sys_inv); [by apply sys_inv_step|by apply sys_init_inv].
Qed.
End invariant.
