(* ===== verification/ScriptDB.v ===== *)
(** * A database that keeps the laws

    A concrete [Database]: a table in memory whose statements can be told to
    fail, before or after they are executed. It shows that the laws the
    theorems assume of a database can hold, and runs their examples. *)

From stdpp Require Import base tactics list numbers option gmap strings sorting countable.
From Stdlib Require Import Strings.Byte.
From S2P Require Import Prelude GoRuntime Contract TaskTable.

(** ** ORDER BY is a total preorder *)

Section order.
Context `{Engine}.

Lemma col_le_total c x y : col_le c x y = true ∨ col_le c y x = true.
Proof.
  destruct c; simpl; rewrite ?bool_decide_eq_true; [lia|lia| |apply str_le_total].
  unfold opt_le. destruct (r_DiedAt x), (r_DiedAt y), nulls_first; simpl;
    rewrite ?bool_decide_eq_true; try tauto; lia.
Qed.

Lemma col_le_trans c x y z : col_le c x y = true → col_le c y z = true → col_le c x z = true.
Proof.
  destruct c; simpl; rewrite ?bool_decide_eq_true; [lia|lia| |apply str_le_trans].
  unfold opt_le. destruct (r_DiedAt x), (r_DiedAt y), (r_DiedAt z), nulls_first; simpl;
    rewrite ?bool_decide_eq_true; try done; lia.
Qed.

Lemma order_le_cons c cols x y :
  order_le (c :: cols) x y = true ↔
    col_le c x y = true ∧ (col_le c y x = true → order_le cols x y = true).
Proof. simpl. destruct (col_le c x y), (col_le c y x), (order_le cols x y); simpl; intuition congruence. Qed.

Lemma order_le_total cols x y : order_le cols x y = true ∨ order_le cols y x = true.
Proof.
  induction cols as [|c cols IH]; [by left|]. rewrite !order_le_cons.
  pose proof (col_le_total c x y).
  destruct (col_le c x y), (col_le c y x); intuition congruence.
Qed.

Lemma order_le_trans cols x y z :
  order_le cols x y = true → order_le cols y z = true → order_le cols x z = true.
Proof.
  induction cols as [|c cols IH]; [done|]. rewrite !order_le_cons.
  intros [Hxy Hxy'] [Hyz Hyz']. split; [by eapply col_le_trans|]. intros Hzx.
  apply IH; [apply Hxy'|apply Hyz']; eapply col_le_trans; eauto.
Qed.

Definition ordered (cols : list column) (x y : string * TaskRecord) : Prop :=
  order_le cols x.2 y.2 = true.

#[export] Instance ordered_dec cols : RelDecision (ordered cols).
Proof. intros x y. unfold ordered. apply _. Defined.

#[export] Instance ordered_total cols : Total (ordered cols).
Proof. intros x y. apply order_le_total. Qed.

#[export] Instance ordered_trans cols : Transitive (ordered cols).
Proof. intros x y z. apply order_le_trans. Qed.

(** The matching rows with their keys, in order. *)
Definition selected (w : TaskRecord → bool) (cols : list column) (t : gmap string TaskRecord) :
    list (string * TaskRecord) :=
  merge_sort (ordered cols) (map_to_list (matching w t)).

Lemma selected_sorted w cols t : Sorted.StronglySorted (ordered cols) (selected w cols t).
Proof. apply (StronglySorted_merge_sort (ordered cols)); apply _. Qed.

Lemma elem_of_selected w cols t i r :
  (i, r) ∈ selected w cols t ↔ t !! i = Some r ∧ w r = true.
Proof.
  unfold selected, matching. rewrite merge_sort_Permutation, elem_of_map_to_list.
  by rewrite map_lookup_filter_Some.
Qed.
End order.

(** ** Statements *)

Inductive fault := NoFault | Refused | Unknown.

Record script_db := mkScript { sd_store : store; sd_faults : list fault }.

Definition next_fault (l : list fault) : fault := default NoFault (head l).

#[export] Instance script_engine : Engine.
Proof.
  refine {| nulls_first := true;
            str_le a b := bool_decide (encode a ≤ encode b)%positive |}.
  - intros a b. rewrite !bool_decide_eq_true. lia.
  - intros a b c. rewrite !bool_decide_eq_true. lia.
Defined.

Definition do_stmt {X} (s : stmt X) (σ : store) : X * store :=
  match s in stmt X return X * store with
  | Create r =>
      match rows σ !! r_ID r with
      | None => (None, set_rows (<[r_ID r:=r]> (rows σ)) σ)
      | Some _ => (Some "duplicate key", σ)
      end
  | Updates w f => (inr (Z.of_nat (size (matching w (rows σ)))),
                    set_rows (update_rows w f (rows σ)) σ)
  | Delete w => (inr (Z.of_nat (size (matching w (rows σ)))),
                 set_rows (delete_rows w (rows σ)) σ)
  | Find q =>
      let l := (selected (q_where q) (q_order q) (rows σ)).*2 in
      let l := drop (Z.to_nat (q_offset q)) l in
      (inr (match q_limit q with Some n => take (Z.to_nat n) l | None => l end), σ)
  | UpdateFirst w o f =>
      match selected w o (rows σ) with
      | [] => (inr None, σ)
      | (i, r) :: _ => (inr (Some (f r)), set_rows (<[i:=f r]> (rows σ)) σ)
      end
  | PgNotify ch p => (None, mkStore (rows σ) ((ch, p) :: sent σ))
  end.

Definition stmt_error {X} (s : stmt X) : X :=
  match s in stmt X return X with
  | Create _ => Some "broken"
  | Updates _ _ => inl "broken"
  | Delete _ => inl "broken"
  | Find _ => inl "broken"
  | UpdateFirst _ _ _ => inl "broken"
  | PgNotify _ _ => Some "broken"
  end.

Fixpoint do_tx (b : tx) (σ : store) : option Err * store :=
  match b with
  | TxReturn e => (e, σ)
  | TxDo s k => let '(x, σ1) := do_stmt s σ in do_tx (k x) σ1
  end.

#[export] Instance script_database : Database script_db := {
  db_store := sd_store;
  db_locked _ := ∅;
  db_exec X s d :=
    let '(x, σ) := do_stmt s (sd_store d) in
    let l := tail (sd_faults d) in
    match next_fault (sd_faults d) with
    | NoFault => (x, mkScript σ l)
    | Refused => (stmt_error s, mkScript (sd_store d) l)
    | Unknown => (stmt_error s, mkScript σ l)
    end;
  db_tx b d :=
    let '(e, σ) := do_tx b (sd_store d) in
    let l := tail (sd_faults d) in
    match next_fault (sd_faults d), e with
    | NoFault, None => (None, mkScript σ l)
    | NoFault, Some e => (Some e, mkScript (sd_store d) l)
    | Unknown, None => (Some (ErrStorage "broken"), mkScript σ l)
    | _, _ => (Some (ErrStorage "broken"), mkScript (sd_store d) l)
    end
}.

(** ** Laws *)

Lemma do_stmt_ok {X} (s : stmt X) σ : stmt_sem ∅ s σ (do_stmt s σ).1 (do_stmt s σ).2.
Proof.
  destruct s as [r|w f|w|q|w o f|ch p]; simpl; try done.
  - destruct (rows σ !! r_ID r) eqn:E; simpl; [by right|done].
  - split; [done|]. eexists _. split_and!; [| |done].
    + unfold table_rows, selected. by rewrite merge_sort_Permutation.
    + pose proof (selected_sorted (q_where q) (q_order q) (rows σ)) as Hs.
      induction Hs as [|x l Hl IH Hall]; csimpl; constructor; [done|].
      by apply Forall_fmap.
  - pose proof (selected_sorted w o (rows σ)) as Hs.
    pose proof (elem_of_selected w o (rows σ)) as Hin.
    destruct (selected w o (rows σ)) as [|[i r] l]; simpl.
    + split_and!; [done|done|]. intros j u Hu Hw. exfalso.
      by apply (not_elem_of_nil (j, u)), Hin.
    + split; [done|]. destruct (proj1 (Hin i r)) as [Hr Hw]; [by left|].
      exists i, r. split_and!; [done|done|done|done|]. intros j u Hu Hwu _.
      apply Sorted.StronglySorted_inv in Hs as [_ Hall]. rewrite (list.Forall_forall _ l) in Hall.
      assert ((j, u) ∈ (i, r) :: l) as [[= -> ->]|Hj]%elem_of_cons by (by apply Hin).
      * destruct (order_le_total o r r); done.
      * exact (Hall (j, u) Hj).
Qed.

Lemma do_tx_ok b σ : tx_run ∅ b σ (do_tx b σ).1 (do_tx b σ).2.
Proof.
  revert σ; induction b as [e|X s k IH]; intros σ; simpl; [done|].
  pose proof (do_stmt_ok s σ) as Hs. destruct (do_stmt s σ) as [x σ1].
  exists x, σ1. split; [exact Hs|apply IH].
Qed.

(** A failed statement changes nothing or does all it does. *)
Lemma stmt_error_ok {X} (s : stmt X) σ σ' :
  σ' = σ ∨ σ' = (do_stmt s σ).2 → stmt_sem ∅ s σ (stmt_error s) σ'.
Proof.
  pose proof (do_stmt_ok s σ) as Hs. intros Hσ. destruct s as [r|w f|w|q|w o f|ch p]; simpl in *;
    destruct Hσ as [->| ->]; try (by right); try (by left); try (by split).
  - destruct (rows σ !! r_ID r) eqn:E; [by right|by left].
  - left. destruct (selected w o (rows σ)) as [|[i r] l]; simpl in *; destruct Hs as [Hs Hu];
      (split; [done|]); [by exists None|by exists (Some (f r))].
Qed.

#[export] Instance script_laws : DatabaseLaws script_db.
Proof.
  split.
  - intros X s d. simpl. pose proof (do_stmt_ok s (sd_store d)) as Hs.
    pose proof (stmt_error_ok s (sd_store d)) as He.
    destruct (do_stmt s (sd_store d)) as [x σ]. simpl in *.
    destruct (next_fault (sd_faults d)); simpl; auto.
  - intros b d. simpl. pose proof (do_tx_ok b (sd_store d)) as Hb.
    destruct (do_tx b (sd_store d)) as [e σ]. simpl in Hb.
    destruct (next_fault (sd_faults d)), e; simpl; eauto 10.
Qed.

(** ** Metadata *)

(** A codec that keeps the law of [Json]: it numbers the map and writes the
    bits of the number. *)
Fixpoint to_bits (p : positive) : list byte :=
  match p with
  | xH => [Byte.x02]
  | xO p => Byte.x00 :: to_bits p
  | xI p => Byte.x01 :: to_bits p
  end.

Fixpoint of_bits (l : list byte) : positive :=
  match l with
  | Byte.x00 :: l => xO (of_bits l)
  | Byte.x01 :: l => xI (of_bits l)
  | _ => xH
  end.

Lemma of_to_bits p : of_bits (to_bits p) = p.
Proof. induction p as [p IH|p IH|]; simpl; congruence. Qed.

#[export] Instance script_json : Json := {
  Marshal m := inr (to_bits (encode (map_to_list m)));
  Unmarshal l :=
    match decode (A := list (string * string)) (of_bits l) with
    | Some kvs => inr (Some (list_to_map kvs))
    | None => inl "invalid"
    end
}.

#[export] Instance script_json_laws : JsonLaws.
Proof.
  refine {| json_valid _ := True |}. intros m _.
  destruct (to_bits (encode (map_to_list m))) as [|b l] eqn:E.
  - by destruct (encode (map_to_list m)).
  - exists b, l. rewrite <- E. split; [done|]. unfold Unmarshal, script_json.
    by rewrite of_to_bits, decode_encode, list_to_map_to_list.
Defined.

(** ** A database that never fails *)

Record plain_db := mkPlain { pl_store : store }.

#[export] Instance plain_database : Database plain_db := {
  db_store := pl_store;
  db_locked _ := ∅;
  db_exec X s d := let '(x, σ) := do_stmt s (pl_store d) in (x, mkPlain σ);
  db_tx b d := let '(e, σ) := do_tx b (pl_store d) in
               (e, mkPlain (match e with None => σ | Some _ => pl_store d end))
}.

#[export] Instance plain_laws : DatabaseLaws plain_db.
Proof.
  split.
  - intros X s d. simpl. pose proof (do_stmt_ok s (pl_store d)) as Hs.
    by destruct (do_stmt s (pl_store d)) as [x σ].
  - intros b d. simpl. pose proof (do_tx_ok b (pl_store d)) as Hb.
    destruct (do_tx b (pl_store d)) as [e σ]. simpl in Hb. destruct e; simpl; eauto.
Qed.

Lemma do_stmt_answered {X} (s : stmt X) σ : answered s σ (do_stmt s σ).1.
Proof.
  destruct s as [r|w f|w|q|w o f|ch p]; simpl; eauto.
  - intros Hn. by rewrite Hn.
  - destruct (selected w o (rows σ)) as [|[i r] l]; simpl; eauto.
Qed.

#[export] Instance plain_reliable : Reliable plain_db.
Proof.
  split; [|done]. intros X s d. simpl. pose proof (do_stmt_answered s (pl_store d)) as Hs.
  by destruct (do_stmt s (pl_store d)).
Qed.

Lemma do_tx_answered b σ : tx_answered ∅ b σ (do_tx b σ).1 (do_tx b σ).2.
Proof.
  revert σ; induction b as [e|X s k IH]; intros σ; simpl; [done|].
  pose proof (do_stmt_ok s σ) as Hs. pose proof (do_stmt_answered s σ) as Ha.
  destruct (do_stmt s σ) as [x σ1]. exists x, σ1. split_and!; [exact Hs|exact Ha|apply IH].
Qed.

#[export] Instance plain_reliable_tx : ReliableTx plain_db.
Proof.
  split. intros b d. simpl. pose proof (do_tx_answered b (pl_store d)) as Hb.
  destruct (do_tx b (pl_store d)) as [e σ]. simpl in *. exists σ. by destruct e.
Qed.
