(* ===== verification/SqlProps.v ===== *)
(** * Properties of the SQL backends on a shared table

    What holds in every execution of any number of processes of either backend
    on one table, with their crashes, and what does not: three executions in
    which the attempts guard does not protect what its comment says. *)

From stdpp Require Import base tactics list numbers option gmap strings.
From S2P Require Import Prelude GoRuntime Contract Options Subscription Lifecycle Effects TaskTable SqlEffects Leases Gorm Postgres SqlSystem SqlInv ScriptDB.

(** ** Concrete executions *)

Definition empty_db : script_db := mkScript (mkStore ∅ []) [].

Lemma empty_db_rows : rows (db_store empty_db) = ∅.
Proof. reflexivity. Defined.

(** A gorm process and a PostgreSQL process. *)
Definition two_nodes : list backend :=
  [GormNode (Gorm.New true (Gorm.mkConfig "" 0 0));
   PostgresNode (Postgres.New true (Postgres.mkConfig "" 0 0 "" ""))].

Definition start_state : sys script_db := sys_init empty_db 1000 two_nodes.

Definition steps (n i : nat) : list event := replicate n (Step i).

(** One client call on node [n], run to its answer as thread [i]. *)
Definition run_call (n i k : nat) (c : call) : list event := Call n c :: steps k i.

Definition after (es : list event) : sys script_db := default start_state (run step es start_state).

Definition row (i : string) (s : sys script_db) : option (string * Z) :=
  r ← rows (db_store (s_db s)) !! i; Some (r_Status r, r_Attempts r).

Definition handling (i : nat) (s : sys script_db) : option (string * Z) :=
  th ← s_threads s !! i; t ← pc_handler (th_pc th); Some (ID t, Attempts t).

Lemma after_reachable es :
  runs step es start_state = true → reachable step start_state (after es).
Proof. apply runs_reachable. Qed.

(** "a" is enqueued through gorm and claimed by a gorm worker; the lease
    expires, a PostgreSQL worker reaps it and the next one claims it again. *)
Definition redelivery : list event :=
  run_call 0 0 4 (CallEnqueue "a" "q" None [WithMaxRetries 0]) ++
  [Consume 0 "q" [WithConcurrency 1]; Consume 1 "q" [WithConcurrency 2]] ++
  Next 1 :: steps 4 1 ++           (* the gorm worker: notify, now, Find, UPDATE *)
  [Tick (10 * Minute)] ++
  Next 2 :: steps 8 2 ++           (* a postgres worker finds nothing, reaps, and notifies *)
  Next 3 :: steps 3 3.             (* the other claims "a" again *)

Definition redelivered : sys script_db := after redelivery.

Example redelivered_row : row "a" redelivered = Some (StatusRunning, 2).
Proof. vm_compute. reflexivity. Qed.

Example redelivered_handlers :
  handling 1 redelivered = Some ("a", 1) ∧ handling 3 redelivered = Some ("a", 2).
Proof. vm_compute. split; reflexivity. Qed.

(** ** Every execution *)

Section reachable.
Context `{Engine, Json} {DB : Type} `{Database DB} {laws : DatabaseLaws DB}.
Context (d : DB) (t : time) (bs : list backend) (s : sys DB).
Context (Hempty : rows (db_store d) = ∅) (Hreach : reachable step (sys_init d t bs) s).

(** C8. No delivery attempt is claimed twice: whatever processes of either
    backend compete, crash or see their statements fail half-way, the claims
    of a task since it was enqueued or last requeued are the attempts 1, 2,
    ..., up to the counter of its row, each once and in this order. *)
Theorem sql_attempts_claimed_once i r :
  rows (db_store (s_db s)) !! i = Some r →
  current (g_hist (s_ghost s) i) = countdown (Z.to_nat (r_Attempts r)) ∧
  NoDup (h_claims (g_hist (s_ghost s) i)).
Proof using laws Hempty Hreach.
  intros Hr. pose proof (reachable_inv d t bs s Hempty Hreach) as Hs.
  pose proof (inv_hist s Hs i) as Hh. split; [|apply Hh].
  by destruct (hist_row _ _ Hh r Hr).
Qed.

(** C6. No double delivery: two handlers that run on one task at the same time
    run on different claims of it, so on different attempts unless the task
    was requeued from the dead letters between the two claims. *)
Theorem sql_no_double_delivery j k thj thk tj tk :
  s_threads s !! j = Some thj → s_threads s !! k = Some thk → j ≠ k →
  pc_handler (th_pc thj) = Some tj → pc_handler (th_pc thk) = Some tk → ID tj = ID tk →
  ∃ cj ck, cj ≠ ck ∧ cj ∈ h_claims (g_hist (s_ghost s) (ID tj)) ∧
    ck ∈ h_claims (g_hist (s_ghost s) (ID tj)) ∧
    wrap64 (Attempts tj) = wrap64 cj.2 ∧ wrap64 (Attempts tk) = wrap64 ck.2.
Proof using laws Hempty Hreach.
  intros Hj Hk Hne Htj Htk Hid. pose proof (reachable_inv d t bs s Hempty Hreach) as Hs.
  assert (thread_ok (s_ghost s) thj) as Hokj by (eapply inv_threads; eauto using list_elem_of_lookup_2).
  assert (thread_ok (s_ghost s) thk) as Hokk by (eapply inv_threads; eauto using list_elem_of_lookup_2).
  destruct (th_handler _ _ Hokj tj Htj) as (cj & Hcj & Hnj).
  destruct (th_handler _ _ Hokk tk Htk) as (ck & Hck & Hnk).
  exists cj, ck. split_and!; [|exact (th_claim _ _ Hokj _ _ Hcj)| |done|done].
  - intros ->. apply Hne. rewrite Hid in Hcj. exact (inv_tokens s Hs j k thj thk _ Hj Hk Hcj Hck).
  - rewrite Hid. exact (th_claim _ _ Hokk _ _ Hck).
Qed.

(** C2. No task is lost: the row of every task that was enqueued is still in the
    table, with its queue, payload, metadata and retry budget, unless some
    handler returned nil for the task or its row was deleted while dead. *)
Theorem sql_no_task_lost i r0 :
  g_enqueued (s_ghost s) !! i = Some r0 →
  (∃ r, rows (db_store (s_db s)) !! i = Some r ∧ same_task r0 r) ∨
  i ∈ g_acked (s_ghost s) ∨ i ∈ g_deleted (s_ghost s).
Proof using laws Hempty Hreach.
  intros Hr0. pose proof (reachable_inv d t bs s Hempty Hreach) as Hs.
  destruct (rows (db_store (s_db s)) !! i) as [r|] eqn:Hr.
  - left. exists r. split; [done|].
    destruct (inv_store s Hs i r Hr) as (_ & _ & r1 & Hr1 & Hsame). by simplify_eq.
  - right. by apply (inv_gone s Hs); [eapply elem_of_dom_2|].
Qed.

(** C30. Every row is in one of three shapes: pending without a lease, running
    with a lease after at least one attempt, or dead with the time it died
    and more attempts than its retries. *)
Theorem sql_rows_well_formed i r :
  rows (db_store (s_db s)) !! i = Some r →
  r_ID r = i ∧ row_ok r ∧ ∃ r0, g_enqueued (s_ghost s) !! i = Some r0 ∧ same_task r0 r.
Proof using laws Hempty Hreach.
  intros Hr. pose proof (reachable_inv d t bs s Hempty Hreach) as Hs. by apply (inv_store s Hs).
Qed.
End reachable.

Lemma redelivered_reachable : reachable step (sys_init empty_db 1000 two_nodes) redelivered.
Proof. apply after_reachable. vm_compute. reflexivity. Defined.

(** The row of "a" while its second attempt runs. *)
Definition redelivered_a : TaskRecord :=
  mkRecord "a" "q" StatusRunning 1000 None None 2 0 1000 "" None
    (Some (1000 + 10 * Minute + 5 * Minute)).

Lemma sql_attempts_claimed_once_witness :
  current (g_hist (s_ghost redelivered) "a") = [2; 1] ∧ NoDup (h_claims (g_hist (s_ghost redelivered) "a")).
Proof.
  apply (sql_attempts_claimed_once empty_db 1000 two_nodes redelivered empty_db_rows
    redelivered_reachable "a" redelivered_a). vm_compute. reflexivity.
Defined.

Definition attempt (n : Z) : Task := mkTask "a" "q" None None n 0 1000 1000 "" zeroTime.

Definition get_thread (i : nat) (s : sys script_db) : thread :=
  default (client 0 (GormNode (Gorm.New false (Gorm.mkConfig "" 0 0))) (CallDelete "" ""))
    (s_threads s !! i).

Definition has_thread (i : nat) (s : sys script_db) : bool :=
  match s_threads s !! i with Some _ => true | None => false end.

Lemma get_thread_lookup i s : has_thread i s = true → s_threads s !! i = Some (get_thread i s).
Proof. unfold has_thread, get_thread. by destruct (s_threads s !! i). Qed.

Lemma sql_no_double_delivery_witness :
  ∃ cj ck, cj ≠ ck ∧ cj ∈ h_claims (g_hist (s_ghost redelivered) "a") ∧
    ck ∈ h_claims (g_hist (s_ghost redelivered) "a") ∧ wrap64 1 = wrap64 cj.2 ∧ wrap64 2 = wrap64 ck.2.
Proof.
  apply (sql_no_double_delivery empty_db 1000 two_nodes redelivered empty_db_rows
    redelivered_reachable 1 3 (get_thread 1 redelivered) (get_thread 3 redelivered)
    (attempt 1) (attempt 2)).
  - apply get_thread_lookup. vm_compute. reflexivity.
  - apply get_thread_lookup. vm_compute. reflexivity.
  - discriminate.
  - vm_compute. reflexivity.
  - vm_compute. reflexivity.
  - reflexivity.
Defined.

Lemma sql_no_task_lost_witness :
  (∃ r, rows (db_store (s_db redelivered)) !! "a" = Some r ∧
     same_task (mkRecord "a" "q" StatusPending 1000 None None 0 0 1000 "" None None) r) ∨
  "a" ∈ g_acked (s_ghost redelivered) ∨ "a" ∈ g_deleted (s_ghost redelivered).
Proof.
  apply (sql_no_task_lost empty_db 1000 two_nodes redelivered empty_db_rows redelivered_reachable).
  vm_compute. reflexivity.
Defined.

Lemma sql_rows_well_formed_witness : row_ok redelivered_a.
Proof.
  apply (sql_rows_well_formed empty_db 1000 two_nodes redelivered empty_db_rows
    redelivered_reachable "a" redelivered_a). vm_compute. reflexivity.
Defined.

(** ** What the attempts guard does not protect *)

Definition nil_handler : Handler := λ t, (t, Returned None).
Definition failing (e : string) : Handler := λ t, (t, Returned (Some e)).

(** The retry budget can be exceeded: a task enqueued with no retries whose
    handler outlives its lease is handed out again, as attempt 2, although it
    is to be invoked at most [MaxRetries + 1] times. *)
Theorem sql_lease_exceeds_retry_budget :
  ∃ (s : sys script_db) i r th t, reachable step start_state s ∧
    rows (db_store (s_db s)) !! i = Some r ∧ r_MaxRetries r + 1 < r_Attempts r ∧
    th ∈ s_threads s ∧ pc_handler (th_pc th) = Some t ∧ ID t = i ∧ MaxRetries t + 1 < Attempts t.
Proof.
  exists redelivered, "a", redelivered_a, (get_thread 3 redelivered), (attempt 2).
  split_and!; [exact redelivered_reachable|vm_compute; reflexivity|done| | |done|done].
  - apply list_elem_of_lookup_2 with 3%nat. apply get_thread_lookup. vm_compute. reflexivity.
  - vm_compute. reflexivity.
Qed.

(** The state after one more event. *)
Definition continue (e : event) (s : sys script_db) : sys script_db := default s (step e s).

Definition goes_on (e : event) (s : sys script_db) : bool :=
  match step e s with Some _ => true | None => false end.

Lemma step_continue e s : goes_on e s = true → step e s = Some (continue e s).
Proof. unfold goes_on, continue. by destruct (step e s). Qed.

(** The first handler returns nil long after its lease. *)
Definition stale_nil : sys script_db := after (redelivery ++ [Handled 1 nil_handler]).

(** A worker whose lease expired deletes the row another worker is running: the
    handler of the first claim returns nil and its DELETE has no attempts
    guard. *)
Theorem sql_stale_success_deletes_running :
  ∃ (s s' : sys script_db) i r th t, reachable step start_state s ∧
    step (Step 1) s = Some s' ∧
    rows (db_store (s_db s)) !! i = Some r ∧ r_Status r = StatusRunning ∧
    rows (db_store (s_db s')) !! i = None ∧
    s_threads s' !! 3%nat = Some th ∧ pc_handler (th_pc th) = Some t ∧ ID t = i.
Proof.
  exists stale_nil, (continue (Step 1) stale_nil), "a", redelivered_a,
    (get_thread 3 (continue (Step 1) stale_nil)), (attempt 2).
  split_and!.
  - apply after_reachable. vm_compute. reflexivity.
  - apply step_continue. vm_compute. reflexivity.
  - vm_compute. reflexivity.
  - reflexivity.
  - vm_compute. reflexivity.
  - apply get_thread_lookup. vm_compute. reflexivity.
  - vm_compute. reflexivity.
  - reflexivity.
Qed.

(** The second attempt fails and buries the task, a client requeues it and a
    worker claims it again as attempt 1; then the handler of the first claim,
    also attempt 1, fails. *)
Definition stale_error : sys script_db := after (
  redelivery ++ Handled 3 (failing "boom") :: steps 3 3 ++
  run_call 0 4 4 (CallRequeue "q" "a") ++ Next 3 :: steps 3 3 ++
  [Handled 1 (failing "late"); Step 1]).

(** The row of "a" under the newer claim, and what is left of it. *)
Definition reclaimed_a : TaskRecord :=
  mkRecord "a" "q" StatusRunning (1000 + 10 * Minute) None None 1 0 1000 "" None
    (Some (1000 + 15 * Minute)).
Definition buried_a : TaskRecord :=
  mkRecord "a" "q" StatusDead (1000 + 10 * Minute) None None 1 0 1000 "late"
    (Some (1000 + 10 * Minute)) None.

(** A requeue resets the attempts that the guard compares: the failure of a
    claim from before it buries the task under a newer claim of the same
    number, while the handler of the newer claim is running. *)
Theorem sql_stale_failure_after_requeue :
  ∃ (s s' : sys script_db) i r r' th t, reachable step start_state s ∧
    step (Step 1) s = Some s' ∧
    rows (db_store (s_db s)) !! i = Some r ∧ r_Status r = StatusRunning ∧
    rows (db_store (s_db s')) !! i = Some r' ∧ r_Status r' = StatusDead ∧
    s_threads s' !! 3%nat = Some th ∧ pc_handler (th_pc th) = Some t ∧ ID t = i.
Proof.
  exists stale_error, (continue (Step 1) stale_error), "a", reclaimed_a, buried_a,
    (get_thread 3 (continue (Step 1) stale_error)),
    (mkTask "a" "q" None None 1 0 1000 (1000 + 10 * Minute) "" zeroTime).
  split_and!.
  - apply after_reachable. vm_compute. reflexivity.
  - apply step_continue. vm_compute. reflexivity.
  - vm_compute. reflexivity.
  - reflexivity.
  - vm_compute. reflexivity.
  - reflexivity.
  - apply get_thread_lookup. vm_compute. reflexivity.
  - vm_compute. reflexivity.
  - reflexivity.
Qed.
