(* ===== verification/SqlShutdown.v ===== *)
(** * Waking and stopping the worker pools of the SQL backends

    A task put into a queue wakes the sleeping workers of its process; a
    stopped pool drains and only then closes its done channel. *)

From stdpp Require Import base tactics list numbers option gmap strings.
From S2P Require Import Prelude GoRuntime Contract Options Subscription Effects TaskTable SqlEffects Leases Gorm Postgres WakeChannels SqlSystem SqlInv SqlPools ScriptDB SqlProps.

Section shutdown.
Context `{Json} {DB : Type} `{Database DB}.

Abbreviation spools s := (pools_ok (s_nodes s) (s_threads s)).

(** ** No lost wakeup *)

(** A client's thread is moved by its own steps and by a crash only. *)
Lemma client_step j th e (s s' : sys DB) :
  s_threads s !! j = Some th → running (th_pc th) = false → step e s = Some s' →
  (∃ th', s_threads s' !! j = Some th' ∧ th_node th' = th_node th ∧
     (th_pc th' = th_pc th ∨ th_pc th' = Exited)) ∨
  (e = Step j ∧ step_thread j th s = Some s').
Proof.
  intros Hj Hrun He.
  assert (∀ i thi th' (s1 : sys DB), s_threads s !! i = Some thi → running (th_pc thi) = true →
    s_threads s1 = <[i:=th']> (s_threads s) →
    ∃ th', s_threads s1 !! j = Some th' ∧ th_node th' = th_node th ∧
      (th_pc th' = th_pc th ∨ th_pc th' = Exited)) as Hother.
  { intros i thi th' s1 Hi Hr ->. exists th. rewrite list_lookup_insert_ne; [by eauto|].
    intros ->. congruence. }
  assert (∀ i thi fires pc, s_threads s !! i = Some thi → wake_worker i thi fires pc s = Some s' →
    ∃ th', s_threads s' !! j = Some th' ∧ th_node th' = th_node th ∧
      (th_pc th' = th_pc th ∨ th_pc th' = Exited)) as Hwake.
  { intros i thi fires pc Hi Hw. unfold wake_worker in Hw.
    apply bind_Some in Hw as (nd & _ & Hw). apply bind_Some in Hw as (sub & _ & Hw).
    destruct (th_pc thi) eqn:Hpc; try discriminate Hw. case_match; [|done]. injection Hw as <-.
    eapply Hother; [done|by rewrite Hpc|done]. }
  destruct e as [d|n c|n queue opts|n k|n k|i|i h|i|i|i|i|n payload|n]; simpl in He.
  - case_decide; [|done]. injection He as <-. left. by exists th; auto.
  - apply bind_Some in He as (nd & _ & He). case_decide; [|done]. injection He as <-. left. exists th.
    split_and!; [by apply lookup_app_l_Some|done|by left].
  - apply bind_Some in He as (nd & _ & He). destruct (node_started _); [|done].
    injection He as <-. left. exists th. split_and!; [by apply lookup_app_l_Some|done|by left].
  - apply bind_Some in He as (nd & _ & He). apply bind_Some in He as (sub & _ & He).
    apply bind_Some in He as ([sub' c] & _ & [= <-]). left. by exists th; auto.
  - apply bind_Some in He as (nd & _ & He). apply bind_Some in He as (sub & _ & He).
    apply bind_Some in He as (c & _ & [= <-]). left. by exists th; auto.
  - apply bind_Some in He as (thi & Hi & He). destruct (decide (i = j)) as [->|Hne]; [right; by simplify_eq|].
    left. exists th. split; [|by auto]. unfold step_thread in He. apply bind_Some in He as (nd & _ & He).
    destruct (th_pc thi) as [[a|X e k]|a| |[[|c w]|X e k]|ch w|ch d|]; try discriminate He;
      try (injection He as <-; simpl; by rewrite list_lookup_insert_ne);
      apply bind_Some in He as ([[[p π] d] l] & _ & [= <-]); simpl; by rewrite list_lookup_insert_ne.
  - apply bind_Some in He as (thi & Hi & He). left. unfold finish_handler in He.
    destruct (th_pc thi) eqn:Hpc; try discriminate He. apply bind_Some in He as (t & _ & He).
    apply bind_Some in He as ([p' π] & _ & [= <-]). eapply Hother; [done|by rewrite Hpc|done].
  - apply bind_Some in He as (thi & Hi & He). left. unfold next_worker in He.
    apply bind_Some in He as (nd & _ & He). apply bind_Some in He as (sub & _ & He).
    destruct (th_pc thi) eqn:Hpc; try discriminate He; [case_decide|]; injection He as <-;
      (eapply Hother; [done|by rewrite Hpc|done]).
  - apply bind_Some in He as (thi & Hi & He). left. by eapply Hwake.
  - apply bind_Some in He as (thi & Hi & He). left. by eapply Hwake.
  - apply bind_Some in He as (thi & Hi & He). left. by eapply Hwake.
  - apply bind_Some in He as (nd & _ & He). apply bind_Some in He as (l & _ & [= <-]). left. by exists th; auto.
  - injection He as <-. left. exists (crash n th). simpl. rewrite list_lookup_fmap, Hj. split; [done|].
    unfold crash. case_decide; simpl; auto.
Qed.

(** The call of thread [j] is not over with success, or its broadcast has
    closed the channel. *)
Definition announcing (n j : nat) (queue : string) (ch : chan) (s : sys DB) : Prop :=
  ∃ nd, s_nodes s !! n = Some nd ∧ watches nd queue ch ∧
    (is_closed ch (l_chans (n_local nd)) ∨
     ∃ th, s_threads s !! j = Some th ∧ th_node th = n ∧
       match th_pc th with
       | Serving p => announces queue succeeded p
       | Answered a => succeeded a = false
       | Exited => True
       | _ => False
       end).

Lemma announcing_step n j queue ch e (s s' : sys DB) :
  spools s → announcing n j queue ch s → step e s = Some s' → announcing n j queue ch s'.
Proof.
  intros Hs (nd & Hnd & Hw & Hor) He.
  destruct (step_nodes e s s' Hs He n nd Hnd) as (nd' & Hnd' & Hns).
  exists nd'. split_and!; [done|by apply (nst_watches _ _ Hns)|].
  destruct Hor as [Hcl|(th & Hj & Hn & Hpc)].
  { left. eapply chans_le_closed; [by apply (nst_chans _ _ Hns)|done]. }
  assert (running (th_pc th) = false) as Hrun by (by destruct (th_pc th)).
  destruct (client_step j th e s s' Hj Hrun He) as [(th' & Hj' & Hn' & Hpc')|[-> Hst]].
  { right. exists th'. split_and!; [done|congruence|]. by destruct Hpc' as [->| ->]. }
  unfold step_thread in Hst. rewrite Hn, Hnd in Hst. simpl in Hst.
  destruct (th_pc th) as [[a|X e k]|a| |p|c w|c d|] eqn:Hp; try discriminate Hst; try done.
  { injection Hst as <-. right. exists (set_pc (Answered a) th). simpl.
    rewrite list_lookup_insert_eq by (by eapply lookup_lt_Some). done. }
  apply bind_Some in Hst as ([[[p' π] d] l] & Ha & [= <-]). simpl in Hnd', Ha.
  assert (nd' = mkNode (n_backend nd) l (n_subs nd)) as ->.
  { rewrite Hn, list_lookup_insert_eq in Hnd' by (by eapply lookup_lt_Some). by injection Hnd'. }
  apply bind_Some in Ha as ([[x d1] l1] & Hx & [= <- <- <- <-]).
  destruct Hpc as [Hwake|Hk].
  - left. simpl. destruct e as [|Y st|b|Y f|u]; try done. simpl in Hx.
    apply bind_Some in Hx as ([y l2] & Hf & [= <- <- <-]).
    destruct Hw as [Hcl|Hq].
    + eapply chans_le_closed; [by apply (nst_chans _ _ Hns)|done].
    + eapply (Hwake _ _ _ (nk_local nd (po_nodes _ _ Hs _ _ Hnd)) Hf). done.
  - right. eexists. simpl. rewrite list_lookup_insert_eq by (by eapply lookup_lt_Some).
    split_and!; [done|done|apply Hk].
Qed.

(** C17. A client puts a task into a queue, by Enqueue or RequeueDeadTask, and has
    the answer that it succeeded. Then every worker of the process that still
    sleeps on the wake channel the queue had before the call can go on: no
    worker that looked at the table before the task was there sleeps through
    it. *)
Theorem sql_no_lost_wakeup (d : DB) t bs s0 s1 s2 es1 es2 n nd queue ch c caller a i th deadline :
  reachable step (sys_init d t bs) s0 →
  s_nodes s0 !! n = Some nd → notifies (n_local nd) !! queue = Some ch →
  run step es1 s0 = Some s1 → announced c = Some queue → run step (Call n c :: es2) s1 = Some s2 →
  s_threads s2 !! length (s_threads s1) = Some caller → th_pc caller = Answered a → succeeded a = true →
  s_threads s2 !! i = Some th → th_node th = n → th_pc th = Sleeping ch deadline →
  is_Some (step (Woken i) s2).
Proof.
  intros Hr0 Hnd Hch Hrun1 Hc Hrun2 Hcaller Ha Hok Hi Hn Hpc.
  pose proof (reachable_pools d t bs s0 Hr0) as Hs0.
  assert (∀ es (s s' : sys DB), spools s → run step es s = Some s' → spools s') as Hrun.
  { intros es s s' Hs. apply (run_invariant step (λ s, spools s)); [intros; by eapply step_pools|done]. }
  pose proof (Hrun _ _ _ Hs0 Hrun1) as Hs1. pose proof (Hrun _ _ _ Hs1 Hrun2) as Hs2.
  assert (∃ nd1, s_nodes s1 !! n = Some nd1 ∧ watches nd1 queue ch) as (nd1 & Hnd1 & Hw1).
  { apply (run_invariant step (λ s, spools s ∧ ∃ nd1, s_nodes s !! n = Some nd1 ∧ watches nd1 queue ch) es1 s0);
      [|split; [done|]; exists nd; split; [done|by right]|done].
    intros e s s' [Hs (nds & Hnds & Hw)] He. split; [by eapply step_pools|].
    destruct (step_nodes e s s' Hs He n nds Hnds) as (nd' & Hnd' & Hns).
    exists nd'. split; [done|]. by apply (nst_watches _ _ Hns). }
  simpl in Hrun2. rewrite Hnd1 in Hrun2. simpl in Hrun2. case_decide as Hcok; [|done].
  set (s1' := mkSys _ _ _ _ _) in Hrun2.
  assert (spools s1') as Hs1'.
  { eapply (step_pools (Call n c) s1); [done|]. simpl. rewrite Hnd1. simpl. by rewrite decide_True. }
  assert (announcing n (length (s_threads s1)) queue ch s1') as Hann.
  { exists nd1. split_and!; [done|done|right]. exists (client n (n_backend nd1) c). split_and!; [|done|].
    - simpl. by rewrite lookup_app_r, Nat.sub_diag.
    - by apply method_announces. }
  assert (spools s2 ∧ announcing n (length (s_threads s1)) queue ch s2) as [_ (nd2 & Hnd2 & _ & Hor)].
  { revert Hrun2. apply (run_invariant step (λ s, spools s ∧ announcing n (length (s_threads s1)) queue ch s)); [|done].
    intros e s s' [Hs Hx] He. split; [by eapply step_pools|by eapply announcing_step]. }
  destruct Hor as [Hcl|(th' & Hth' & _ & Hx)].
  2: { assert (th' = caller) as -> by congruence. rewrite Ha, Hok in Hx. done. }
  destruct (po_threads _ _ Hs2 i th Hi) as (nd' & Hnd' & Hrun').
  assert (nd' = nd2) as -> by congruence. unfold thread_runs in Hrun'. rewrite Hpc in Hrun'.
  destruct Hrun' as [[sub Hsub] _]. simpl. rewrite Hi. simpl. unfold wake_worker. rewrite Hn, Hnd2. simpl.
  rewrite Hsub. simpl. rewrite Hpc, bool_decide_true by done. eauto.
Qed.

(** ** A stopped pool drains *)

(** Subscription [k] of node [n] was stopped. *)
Definition stopping (n k : nat) (s : sys DB) : Prop :=
  ∃ nd sub, s_nodes s !! n = Some nd ∧ n_subs nd !! k = Some sub ∧
    is_closed (stopCh sub) (l_chans (n_local nd)).

Lemma stopping_step n k e (s s' : sys DB) :
  spools s → stopping n k s → step e s = Some s' → stopping n k s'.
Proof.
  intros Hs (nd & sub & Hnd & Hk & Hcl) He. destruct (step_nodes e s s' Hs He n nd Hnd) as (nd' & Hnd' & Hns).
  destruct (nst_subs _ _ Hns k sub Hk) as (sub' & Hk' & _ & Hstop). exists nd', sub'.
  split_and!; [done|done|]. rewrite Hstop. eapply chans_le_closed; [by apply (nst_chans _ _ Hns)|done].
Qed.

(** What a worker does by itself, its handler returning nil. *)
Definition nil_handler : Handler := λ t, (t, Returned None).

Definition own_event (i : nat) (e : event) : Prop :=
  e = Step i ∨ e = Handled i nil_handler ∨ e = Next i ∨ e = Stopped i.

(** One call of a program that is not a handler's goes through. *)
Lemma advance_total {A X} (e : eff X) (k : X → program A) π d l t :
  safe (λ _, True) (Do e k) → local_ok l → (∃ u, in_handler (Do e k) = Some u) ∨
  ∃ x π' d' l', advance (Do e k) π d l t = Some (k x, π', d', l').
Proof.
  intros [He _] Hl. destruct e as [|Y st|b|Y f|u]; [right|right|right|right|left; eexists; reflexivity].
  - eexists _, _, _, _. reflexivity.
  - destruct (db_exec st d) as [x d'] eqn:E. eexists _, _, _, _. simpl. rewrite E. reflexivity.
  - destruct (db_tx b d) as [x d'] eqn:E. eexists _, _, _, _. simpl. rewrite E. reflexivity.
  - destruct (He l Hl) as (x & l' & Hf & _). eexists _, _, _, _. simpl. rewrite Hf. reflexivity.
Qed.

(** Worker [i] goes by itself from [th] to [th'], and no other thread moves. *)
Definition moved (i : nat) (th' : thread) (s s' : sys DB) : Prop :=
  ∃ es th, Forall (own_event i) es ∧ run step es s = Some s' ∧ s_threads s !! i = Some th ∧
    s_threads s' = <[i:=th']> (s_threads s) ∧ th_node th' = th_node th ∧ th_sub th' = th_sub th.

Lemma moved_event i e th th' (s s' : sys DB) :
  own_event i e → step e s = Some s' → s_threads s !! i = Some th →
  s_threads s' = <[i:=th']> (s_threads s) → th_node th' = th_node th → th_sub th' = th_sub th →
  moved i th' s s'.
Proof. intros He Hs Hi Ht Hn Hk. exists [e], th. split_and!; try done; [by constructor|]. simpl. by rewrite Hs. Qed.

Lemma moved_lookup i th' s s' : moved i th' s s' → s_threads s' !! i = Some th'.
Proof.
  intros (es & th & _ & _ & Hi & -> & _). rewrite list_lookup_insert_eq; [done|]. by eapply lookup_lt_Some.
Qed.

Lemma moved_trans i th1 th2 s s1 s2 : moved i th1 s s1 → moved i th2 s1 s2 → moved i th2 s s2.
Proof.
  intros Hm1 (es2 & th & He2 & Hr2 & Hi2 & Ht2 & Hn2 & Hk2). pose proof (moved_lookup _ _ _ _ Hm1) as Hl.
  destruct Hm1 as (es1 & th0 & He1 & Hr1 & Hi1 & Ht1 & Hn1 & Hk1). assert (th = th1) as -> by congruence.
  exists (es1 ++ es2), th0. split_and!; [by apply Forall_app| |done| |congruence..].
  - rewrite run_app, Hr1. done.
  - by rewrite Ht2, Ht1, list_insert_insert_eq.
Qed.

Lemma moved_pools i th' (s s' : sys DB) n k :
  moved i th' s s' → spools s → stopping n k s → spools s' ∧ stopping n k s'.
Proof.
  intros (es & th & _ & Hr & _) Hs Hst.
  apply (run_invariant step (λ s, spools s ∧ stopping n k s) es s); [|done..].
  intros e s1 s2 [Hp1 Hst1] He. split; [by eapply step_pools|by eapply stopping_step].
Qed.

Lemma round_ends i p : ∀ th (s : sys DB),
  spools s → s_threads s !! i = Some th → th_pc th = InRound p →
  ∃ th' s', moved i th' s s' ∧ (th_pc th' = AtTop ∨ ∃ ch w, th_pc th' = Arming ch w).
Proof.
  induction p as [r|X e k IH]; intros th s Hs Hi Hpc;
    destruct (po_threads _ _ Hs i th Hi) as (nd & Hnd & Hr).
  - set (th' := set_pc (match r with Again => AtTop | Sleep ch w => Arming ch w end) th).
    exists th', (set_thread i th' s). split.
    + eapply (moved_event i (Step i)); [by left| |done|reflexivity|done|done].
      simpl. rewrite Hi. simpl. unfold step_thread. rewrite Hnd. simpl. rewrite Hpc. by destruct r.
    + unfold th'. destruct r; simpl; eauto.
  - pose proof (round_safe nd th _ Hr Hpc) as Hsafe.
    assert (∀ ev x th1 s1, own_event i ev → step ev s = Some s1 →
      s_threads s1 = <[i:=th1]> (s_threads s) → th_node th1 = th_node th → th_sub th1 = th_sub th →
      th_pc th1 = InRound (k x) →
      ∃ th' s', moved i th' s s' ∧ (th_pc th' = AtTop ∨ ∃ ch w, th_pc th' = Arming ch w)) as Hgo.
    { intros ev x th1 s1 Hev Hst Ht Hn Hk Hp. pose proof (moved_event _ _ _ _ _ _ Hev Hst Hi Ht Hn Hk) as Hm.
      destruct (IH x th1 s1) as (th' & s' & Hm' & Hor); [by eapply step_pools|by eapply moved_lookup|done|].
      exists th', s'. split; [by eapply moved_trans|done]. }
    destruct (advance_total e k (th_perm th) (s_db s) (n_local nd) (s_now s) Hsafe
      (nk_local nd (po_nodes _ _ Hs _ _ Hnd))) as [[u Hu]|(x & π & d & l & Ha)].
    + destruct e as [|Y st|b|Y f|t]; try discriminate Hu.
      eapply (Hgo (Handled i nil_handler) None); [right; by left
        |simpl; rewrite Hi; simpl; unfold finish_handler; rewrite Hpc; reflexivity
        |reflexivity|done..].
    + eapply (Hgo (Step i) x); [by left
        |simpl; rewrite Hi; simpl; unfold step_thread; rewrite Hnd; cbn [mbind option_bind];
         rewrite Hpc, Ha; reflexivity
        |reflexivity|done..].
Qed.

(** A worker of a stopped pool returns: at the top of its loop it finds the
    stop channel closed, in its [select] as well, and it gets to one of the
    two from the middle of a round. *)
Lemma worker_exits n k i th (s : sys DB) :
  spools s → stopping n k s → s_threads s !! i = Some th → th_node th = n → th_sub th = k →
  running (th_pc th) = true → ∃ th' s', moved i th' s s' ∧ th_pc th' = Exited.
Proof.
  intros Hs Hst Hi <- <- Hrun.
  assert (∀ th1 s1, moved i th1 s s1 → th_pc th1 = AtTop ∨ (∃ ch w, th_pc th1 = Sleeping ch w) →
    ∃ th' s', moved i th' s s' ∧ th_pc th' = Exited) as Hlast.
  { intros th1 s1 Hm Hpc. pose proof (moved_lookup _ _ _ _ Hm) as Hi1.
    destruct (moved_pools _ _ _ _ _ _ Hm Hs Hst) as [_ (nd & sub & Hnd & Hk & Hcl)].
    assert (th_node th1 = th_node th ∧ th_sub th1 = th_sub th) as [Hn Hsub].
    { destruct Hm as (es & th0 & _ & _ & Hi0 & _ & ? & ?). assert (th0 = th) as -> by congruence. done. }
    exists (set_pc Exited th1), (set_thread i (set_pc Exited th1) s1). split; [|done].
    eapply moved_trans; [exact Hm|]. rewrite <- Hn in Hnd. rewrite <- Hsub in Hk.
    destruct Hpc as [Hpc|(ch & w & Hpc)].
    - eapply (moved_event i (Next i)); [unfold own_event; tauto| |done|reflexivity|done|done].
      simpl. rewrite Hi1. simpl. unfold next_worker. rewrite Hnd. simpl. rewrite Hk. simpl.
      by rewrite Hpc, decide_True.
    - eapply (moved_event i (Stopped i)); [unfold own_event; tauto| |done|reflexivity|done|done].
      simpl. rewrite Hi1. simpl. unfold wake_worker. rewrite Hnd. simpl. rewrite Hk. simpl.
      by rewrite Hpc, bool_decide_true. }
  assert (moved i th s s) as Hrefl.
  { exists [], th. split_and!; try done. by rewrite list_insert_id. }
  assert (∀ th1 s1 ch w, moved i th1 s s1 → th_pc th1 = Arming ch w →
    ∃ th' s', moved i th' s s' ∧ th_pc th' = Exited) as Harm.
  { intros th1 s1 ch w Hm Hpc. pose proof (moved_lookup _ _ _ _ Hm) as Hi1.
    destruct (moved_pools _ _ _ _ _ _ Hm Hs Hst) as [Hs1 _].
    destruct (po_threads _ _ Hs1 i th1 Hi1) as (nd & Hnd & Hr). unfold thread_runs in Hr. rewrite Hpc in Hr.
    destruct Hr as [[sub Hk] _].
    apply (Hlast (set_pc (Sleeping ch (timer_deadline (s_now s1) w)) th1)
      (set_thread i (set_pc (Sleeping ch (timer_deadline (s_now s1) w)) th1) s1)); [|right; simpl; eauto].
    eapply moved_trans; [exact Hm|].
    eapply (moved_event i (Next i)); [unfold own_event; tauto| |done|reflexivity|done|done].
    simpl. rewrite Hi1. simpl. unfold next_worker. rewrite Hnd. simpl. rewrite Hk. simpl. by rewrite Hpc. }
  destruct (th_pc th) as [p|a| |p|ch w|ch d|] eqn:Hpc; try discriminate Hrun.
  - apply (Hlast th s); auto.
  - destruct (round_ends i p th s Hs Hi Hpc) as (th1 & s1 & Hm & [Htop|(ch & w & Ha)]); eauto.
  - by apply (Harm th s ch w).
  - apply (Hlast th s); eauto.
Qed.

(** The events of the workers of subscription [k] of node [n], and of the
    goroutine that waits for them. *)
Definition pool_event (n k : nat) (s : sys DB) (e : event) : Prop :=
  e = CloseDone n k ∨
  ∃ i th, s_threads s !! i = Some th ∧ th_node th = n ∧ th_sub th = k ∧ own_event i e.

(** The pool each thread is of. *)
Definition pools (s : sys DB) : list (nat * nat) := (λ th, (th_node th, th_sub th)) <$> s_threads s.

Lemma moved_same i th' (s s' : sys DB) : moved i th' s s' → pools s' = pools s.
Proof.
  intros (es & th & _ & _ & Hi & Ht & Hn & Hk). unfold pools. rewrite Ht, list_fmap_insert, Hn, Hk.
  apply list_insert_id. by rewrite list_lookup_fmap, Hi.
Qed.

Lemma pools_lookup i th' (s s' : sys DB) :
  pools s' = pools s → s_threads s' !! i = Some th' →
  ∃ th, s_threads s !! i = Some th ∧ th_node th' = th_node th ∧ th_sub th' = th_sub th.
Proof.
  intros Hp Hi. assert (pools s !! i = Some (th_node th', th_sub th')) as Hl.
  { rewrite <- Hp. unfold pools. by rewrite list_lookup_fmap, Hi. }
  unfold pools in Hl. rewrite list_lookup_fmap in Hl. apply fmap_Some in Hl as (th & Hth & [= -> ->]).
  by exists th.
Qed.

(** The first [m] threads that are of the pool return, one after the other. *)
Lemma pool_drains n k m : ∀ s : sys DB,
  spools s → stopping n k s →
  ∃ es s', Forall (pool_event n k s) es ∧ run step es s = Some s' ∧ spools s' ∧ stopping n k s' ∧
    pools s' = pools s ∧ ∀ i th, (i < m)%nat → s_threads s' !! i = Some th → gone_from n k th = true.
Proof.
  induction m as [|m IH]; intros s Hs Hst.
  { exists [], s. split_and!; try done. intros i th Hi. lia. }
  destruct (IH s Hs Hst) as (es & s1 & He & Hr & Hs1 & Hst1 & Hp & Hg).
  assert (∀ th, s_threads s1 !! m = Some th → gone_from n k th = true → ∀ i thi,
    (i < S m)%nat → s_threads s1 !! i = Some thi → gone_from n k thi = true) as Hall.
  { intros th Hm Hgm i thi Hi Hl. destruct (decide (i = m)) as [->|]; [congruence|].
    apply (Hg i); [lia|done]. }
  destruct (s_threads s1 !! m) as [th|] eqn:Hm.
  2: { exists es, s1. split_and!; try done. intros i thi Hi Hl.
       destruct (decide (i = m)) as [->|]; [congruence|]. apply (Hg i); [lia|done]. }
  destruct (gone_from n k th) eqn:Hgone; [exists es, s1; split_and!; [done..|by eapply Hall]|].
  assert (running (th_pc th) = true ∧ th_node th = n ∧ th_sub th = k) as (Hrun & Hn & Hk).
  { unfold gone_from in Hgone. destruct (th_pc th); try discriminate Hgone; (split; [done|]);
      by apply negb_false_iff, bool_decide_eq_true in Hgone. }
  destruct (worker_exits n k m th s1 Hs1 Hst1 Hm Hn Hk Hrun) as (th' & s2 & Hmv & Hex).
  pose proof (moved_pools _ _ _ _ _ _ Hmv Hs1 Hst1) as [Hs2 Hst2].
  pose proof (moved_same _ _ _ _ Hmv) as Hp2.
  destruct Hmv as (es2 & th0 & He2 & Hr2 & Hi2 & Ht2 & _). exists (es ++ es2), s2.
  split_and!; [|by rewrite run_app, Hr|done|done|congruence|].
  - apply Forall_app. split; [done|]. eapply Forall_impl; [exact He2|]. intros e Hoe. right.
    destruct (pools_lookup m th s s1 Hp Hm) as (ths & Hms & Hns & Hks). exists m, ths.
    split_and!; congruence.
  - intros i thi Hi Hl. rewrite Ht2 in Hl. apply list_lookup_insert_Some in Hl as [(<- & <- & _)|[Hne Hl]].
    + unfold gone_from. by rewrite Hex.
    + apply (Hg i); [lia|done].
Qed.

(** C19. A pool whose subscription was stopped can always drain: its workers'
    own steps, with handlers that return nil, and the step of the goroutine
    that waits for them lead to a state in which the done channel that [Stop]
    waits for is closed. And in every state that channel is closed only when
    all the workers of the pool have returned. *)
Theorem sql_pool_shutdown (d : DB) t bs s n nd k sub :
  reachable step (sys_init d t bs) s → s_nodes s !! n = Some nd → n_subs nd !! k = Some sub →
  (is_closed (done_ sub) (l_chans (n_local nd)) → pool_gone n k (s_threads s) = true) ∧
  (stopOnce sub = true →
     ∃ es s' nd', Forall (pool_event n k s) es ∧ run step es s = Some s' ∧
       s_nodes s' !! n = Some nd' ∧ is_closed (done_ sub) (l_chans (n_local nd'))).
Proof.
  intros Hr Hnd Hk. pose proof (reachable_pools d t bs s Hr) as Hs. split; [by eapply (po_done _ _ Hs)|].
  intros Hstop. assert (stopping n k s) as Hst.
  { exists nd, sub. split_and!; [done|done|]. pose proof (po_nodes _ _ Hs n nd Hnd) as Hok.
    apply (subs_once _ _ (nk_subs nd Hok)); [by eapply list_elem_of_lookup_2|done]. }
  destruct (pool_drains n k (length (s_threads s)) s Hs Hst) as (es & s1 & He & Hrun & Hs1 & _ & Hp & Hg).
  assert (∃ nd1 sub1, s_nodes s1 !! n = Some nd1 ∧ n_subs nd1 !! k = Some sub1 ∧ done_ sub1 = done_ sub)
    as (nd1 & sub1 & Hnd1 & Hk1 & Hd).
  { apply (run_invariant step (λ s, spools s ∧ ∃ nd1 sub1, s_nodes s !! n = Some nd1 ∧
      n_subs nd1 !! k = Some sub1 ∧ done_ sub1 = done_ sub) es s); [|eauto 10|done].
    intros e u u' [Hu (ndu & subu & Hndu & Hku & Hdu)] Hstep. split; [by eapply step_pools|].
    destruct (step_nodes e u u' Hu Hstep n ndu Hndu) as (ndu' & Hndu' & Hns).
    destruct (nst_subs _ _ Hns k subu Hku) as (subu' & Hku' & Hdd & _). exists ndu', subu'.
    split_and!; congruence. }
  pose proof (po_nodes _ _ Hs1 n nd1 Hnd1) as Hok1.
  destruct (decide (is_closed (done_ sub) (l_chans (n_local nd1)))) as [Hc|Hc]; [exists es, s1, nd1; done|].
  assert (is_open (done_ sub1) (l_chans (n_local nd1))) as Hopen.
  { split; [|by rewrite Hd]. apply (subs_made _ _ (nk_subs nd1 Hok1)). eapply elem_of_sub_chans.
    - by eapply list_elem_of_lookup_2.
    - right. by left. }
  destruct (close_chan_open _ _ Hopen) as [c Hclose].
  assert (pool_gone n k (s_threads s1) = true) as Hgone.
  { apply forallb_forall. intros th Hth%list_elem_of_In. apply list_elem_of_lookup in Hth as [i Hi].
    apply (Hg i th); [|done]. destruct (pools_lookup i th s s1 Hp Hi) as (th0 & Hl%lookup_lt_Some & _). done. }
  set (nd2 := mkNode (n_backend nd1) (mkLocal (notifies (n_local nd1)) c) (n_subs nd1)).
  exists (es ++ [CloseDone n k]), (set_node n nd2 s1), nd2. split_and!.
  - apply Forall_app. split; [done|]. constructor; [by left|done].
  - rewrite run_app, Hrun. simpl. rewrite Hnd1. simpl. rewrite Hk1. simpl. unfold close_done.
    unfold pool_gone in Hgone. by rewrite Hgone, Hclose.
  - simpl. rewrite list_lookup_insert_eq; [done|]. by eapply lookup_lt_Some.
  - simpl. apply (close_chan_is_closed _ _ _ _ Hclose). by left.
Qed.
End shutdown.

(** ** A worker sleeps, a task arrives, the subscription is stopped *)

Definition start_worker : list event := Consume 0 "q" [WithConcurrency 1] :: Next 0 :: steps 2 0.

(** The worker finds no task and sleeps. *)
Definition asleep : sys script_db := after (start_worker ++ steps 5 0 ++ [Next 0]).

Definition put : call := CallEnqueue "a" "q" None [].

(** A client has put a task into the queue. *)
Definition awake : sys script_db := default start_state (run step (Call 0 put :: steps 4 1) asleep).

Definition get_node (n : nat) (s : sys script_db) : node :=
  default (mkNode (GormNode (Gorm.New false (Gorm.mkConfig "" 0 0))) local_init []) (s_nodes s !! n).

Definition put_task : Task := mkTask "a" "q" None None 0 3 1000 1000 "" zeroTime.

Lemma sql_no_lost_wakeup_witness : is_Some (step (Woken 0) awake).
Proof.
  assert (reachable step (sys_init empty_db 1000 two_nodes) asleep) as Hr
    by (apply after_reachable; vm_compute; reflexivity).
  refine (sql_no_lost_wakeup empty_db 1000 two_nodes asleep asleep awake [] (steps 4 1) 0
    (get_node 0 asleep) "q" 2%nat put (get_thread 1 awake) (AnswerTask (inr put_task)) 0
    (get_thread 0 awake) (1000 + Second) Hr _ _ eq_refl eq_refl _ _ _ eq_refl _ _ _).
  all: vm_compute; reflexivity.
Defined.

(** The worker is in the middle of its round when Stop is called. *)
Definition stop_called : sys script_db := after (start_worker ++ [Stop 0 0]).

Lemma sql_pool_shutdown_witness :
  ∃ es s' nd', Forall (pool_event 0 0 stop_called) es ∧ run step es stop_called = Some s' ∧
    s_nodes s' !! 0%nat = Some nd' ∧ is_closed 1%nat (l_chans (n_local nd')).
Proof.
  assert (reachable step (sys_init empty_db 1000 two_nodes) stop_called) as Hr
    by (apply after_reachable; vm_compute; reflexivity).
  assert (s_nodes stop_called !! 0%nat = Some (get_node 0 stop_called)) as Hn by (vm_compute; reflexivity).
  assert (n_subs (get_node 0 stop_called) !! 0%nat = Some (mkSub 0 1 true)) as Hk
    by (vm_compute; reflexivity).
  exact (proj2 (sql_pool_shutdown empty_db 1000 two_nodes stop_called 0 _ 0 _ Hr Hn Hk) eq_refl).
Defined.
