(* ===== verification/ClaimSpec.v ===== *)
(** * What a claim promises

    The abstract claim both SQL backends implement: take the first task that is
    due, in the order of run_at and then enqueued_at, and mark it running under
    a lease; when no task is due, leave the table alone and say how long to
    wait. [GormProps] and [PostgresProps] show that the optimistic loop and the
    single statement refine it. *)

From stdpp Require Import base tactics list numbers option gmap strings sorting.
From S2P Require Import Prelude GoRuntime Contract Options Effects TaskTable SqlEffects Leases Gorm GormLegal ScriptDB.

Section spec.
Context `{Engine}.

Definition first_due (T : gmap string TaskRecord) (queue : string) (t : time) (u : TaskRecord) : Prop :=
  T !! r_ID u = Some u ∧ Gorm.is_ready queue t u = true ∧
  ∀ j v, T !! j = Some v → Gorm.is_ready queue t v = true →
    order_le [run_at; enqueued_at] u v = true.

(** [claim] reads the clock at [t], and at [t'] to compute a wait. *)
Definition claim_spec (queue : string) (poll lease : duration) (t t' : time)
    (T : gmap string TaskRecord) (res : option TaskRecord) (wait : duration)
    (T' : gmap string TaskRecord) : Prop :=
  match res with
  | Some c => ∃ u, first_due T queue t u ∧ c = Gorm.start (t + lease) u ∧
      T' = <[r_ID u := c]> T ∧ wait = 0
  | None => T' = T ∧ (∀ j v, T !! j = Some v → Gorm.is_ready queue t v = false) ∧
      0 < wait ≤ Z.max poll Millisecond ∧
      ∀ j v, T !! j = Some v → Gorm.is_pending queue v = true →
        wait ≤ Z.max (time_Until t' (r_RunAt v)) Millisecond
  end.

Lemma order_le_refl cols x : order_le cols x x = true.
Proof. by destruct (order_le_total cols x x). Qed.

(** The first row of an answer comes before every matching row. *)
Lemma answers_head w cols n T l :
  0 < n → answers (mkQuery w cols 0 (Some n)) T l →
  match l with
  | [] => ∀ j v, T !! j = Some v → w v = false
  | c :: _ => (∃ i, T !! i = Some c ∧ w c = true) ∧
      ∀ j v, T !! j = Some v → w v = true → order_le cols c v = true
  end.
Proof.
  intros Hn Ha. pose proof Ha as (all & Hperm & Hsort & Hl). simpl in Hl, Hperm, Hsort.
  assert (∀ j v, T !! j = Some v → w v = true → v ∈ all) as Hin.
  { intros j v Hv Hw. rewrite Hperm. unfold table_rows. apply list_elem_of_fmap.
    exists (j, v). split; [done|]. apply elem_of_map_to_list.
    by apply map_lookup_filter_Some. }
  rewrite drop_0 in Hl. destruct all as [|c all].
  - rewrite take_nil in Hl. subst l. intros j v Hv. apply not_true_iff_false. intros Hw.
    by apply (not_elem_of_nil v), (Hin j).
  - destruct (Z.to_nat n) as [|k] eqn:Hk; [lia|]. simpl in Hl. subst l. split.
    + eapply (answers_in _ _ _ c) in Ha; [exact Ha|by left].
    + intros j v Hv Hw. apply Sorted.StronglySorted_inv in Hsort as [_ Hall].
      pose proof (Hin j v Hv Hw) as [->|Hv']%elem_of_cons; [apply order_le_refl|].
      rewrite (list.Forall_forall _ all) in Hall. by apply Hall.
Qed.

Lemma order_run_at x y : order_le [run_at] x y = true → r_RunAt x ≤ r_RunAt y.
Proof. simpl. rewrite andb_true_iff, bool_decide_eq_true. tauto. Qed.

Lemma time_Sub_mono t u v : u ≤ v → time_Sub u t ≤ time_Sub v t.
Proof. unfold time_Sub. lia. Qed.

(** The wait both backends compute from the next pending row. *)
Lemma wait_spec queue poll t' (T : gmap string TaskRecord) next :
  0 < poll →
  (∀ j v, T !! j = Some v → Gorm.is_pending queue v = true → r_RunAt next ≤ r_RunAt v) →
  let w := time_Until t' (r_RunAt next) in
  let wait := if decide (w < poll) then Z.max w Millisecond else poll in
  0 < wait ≤ Z.max poll Millisecond ∧
  ∀ j v, T !! j = Some v → Gorm.is_pending queue v = true →
    wait ≤ Z.max (time_Until t' (r_RunAt v)) Millisecond.
Proof.
  intros Hpoll Hmin w wait. assert (0 < Millisecond) by done. split.
  - unfold wait. case_decide; lia.
  - intros j v Hv Hp. specialize (Hmin j v Hv Hp).
    pose proof (time_Sub_mono t' _ _ Hmin) as Hm. unfold wait, w, time_Until in *.
    case_decide; lia.
Qed.
End spec.
