(* ===== verification/GormProps.v ===== *)
(** * Properties of the database backend, one process at a time

    What each method of [Gorm] does to the table, on every branch, when no
    other process interferes: on any database for the statements that must not
    have an effect, on one that does not fail for those that must. *)

From stdpp Require Import base tactics list numbers option gmap strings sorting.
From S2P Require Import Prelude GoRuntime Contract Options MemorySpec MemorySystem Effects TaskTable SqlEffects Leases Gorm WakeChannels GormLegal ScriptDB ClaimSpec.

(** ** Tables *)

Definition keyed (t : gmap string TaskRecord) : Prop := ∀ i r, t !! i = Some r → r_ID r = i.

Lemma update_rows_none w f t : (∀ i r, t !! i = Some r → w r = false) → update_rows w f t = t.
Proof.
  intros Hw. apply map_eq. intros i. unfold update_rows. rewrite lookup_fmap.
  destruct (t !! i) as [r|] eqn:Hr; simpl; [|done]. by rewrite (Hw i r Hr).
Qed.

Lemma update_rows_one w f t i r :
  t !! i = Some r → w r = true → (∀ j u, t !! j = Some u → w u = true → j = i) →
  update_rows w f t = <[i:=f r]> t.
Proof.
  intros Hr Hw Honly. apply map_eq. intros j. unfold update_rows. rewrite lookup_fmap.
  destruct (decide (j = i)) as [->|Hne]; [by rewrite lookup_insert_eq, Hr; simpl; rewrite Hw|].
  rewrite lookup_insert_ne by done. destruct (t !! j) as [u|] eqn:Hu; simpl; [|done].
  destruct (w u) eqn:E; [|done]. by destruct Hne; eapply Honly.
Qed.

Lemma delete_rows_one w t i r :
  t !! i = Some r → w r = true → (∀ j u, t !! j = Some u → w u = true → j = i) →
  delete_rows w t = delete i t.
Proof.
  intros Hr Hw Honly. apply map_eq. intros j. rewrite delete_rows_lookup.
  destruct (decide (j = i)) as [->|Hne]; [by rewrite lookup_delete_eq, Hr; simpl; rewrite Hw|].
  rewrite lookup_delete_ne by done. destruct (t !! j) as [u|] eqn:Hu; simpl; [|done].
  destruct (w u) eqn:E; [|done]. by destruct Hne; eapply Honly.
Qed.

Lemma delete_rows_none w t : (∀ i r, t !! i = Some r → w r = false) → delete_rows w t = t.
Proof.
  intros Hw. apply map_eq. intros i. rewrite delete_rows_lookup.
  destruct (t !! i) as [r|] eqn:Hr; simpl; [|done]. by rewrite (Hw i r Hr).
Qed.

Lemma matching_size w t i r :
  t !! i = Some r → w r = true → Z.of_nat (size (matching w t)) ≠ 0.
Proof.
  intros Hr Hw H0. assert (matching w t = ∅) as He by (apply map_size_empty_inv; lia).
  assert (matching w t !! i = Some r) as Hi by (by apply map_lookup_filter_Some).
  by rewrite He, lookup_empty in Hi.
Qed.

Lemma matching_size_none w t :
  (∀ i r, t !! i = Some r → w r = false) → Z.of_nat (size (matching w t)) = 0.
Proof.
  intros Hw. destruct (decide (Z.of_nat (size (matching w t)) = 0)) as [|Hne]; [done|].
  destruct (matching_nonempty w t Hne) as (i & r & Hr & Hwr). by rewrite (Hw i r Hr) in Hwr.
Qed.

(** ** Running a program *)

Section run.
Context {DB : Type} `{Database DB} (h : Handler).

Lemma run_now {A} (k : time → program A) d l t ts :
  run_program h (now ≫= k) (mkWorld d l (t :: ts)) = run_program h (k t) (mkWorld d l ts).
Proof. done. Qed.

Lemma run_exec {A X} (s : stmt X) (k : X → program A) d l ts :
  run_program h (exec s ≫= k) (mkWorld d l ts) =
    run_program h (k (db_exec s d).1) (mkWorld (db_exec s d).2 l ts).
Proof. unfold run_program. simpl. by destruct (db_exec s d). Qed.

Lemma run_tx {A} b (k : option Err → program A) d l ts :
  run_program h (transaction b ≫= k) (mkWorld d l ts) =
    run_program h (k (db_tx b d).1) (mkWorld (db_tx b d).2 l ts).
Proof. unfold run_program. simpl. by destruct (db_tx b d). Qed.

Lemma run_locked {A X} f (k : X → program A) d l ts x l' :
  f l = Some (x, l') →
  run_program h (locked_do f ≫= k) (mkWorld d l ts) = run_program h (k x) (mkWorld d l' ts).
Proof. intros Hf. unfold run_program. simpl. by rewrite Hf. Qed.

Lemma run_locked_end {X} f d l ts (x : X) l' :
  f l = Some (x, l') → run_program h (locked_do f) (mkWorld d l ts) = Some (x, mkWorld d l' ts).
Proof. intros Hf. unfold run_program. simpl. by rewrite Hf. Qed.
End run.

(** ** Statements that do not fail *)

Section reliable.
Context `{Engine} {DB : Type} `{Database DB} {laws : DatabaseLaws DB} {rel : Reliable DB}.

Lemma exec_updates w f d : ∃ d', db_exec (Updates w f) d =
    (inr (Z.of_nat (size (matching w (rows (db_store d))))), d') ∧
  db_store d' = set_rows (update_rows w f (rows (db_store d))) (db_store d).
Proof using laws rel.
  pose proof (db_exec_ok (Updates w f) d) as Hs. destruct (reliable_exec (Updates w f) d) as [n Hn].
  destruct (db_exec (Updates w f) d) as [x d']. simpl in *. subst x. destruct Hs as [Hd ->]. by exists d'.
Qed.

Lemma exec_delete w d : ∃ d', db_exec (Delete w) d =
    (inr (Z.of_nat (size (matching w (rows (db_store d))))), d') ∧
  db_store d' = set_rows (delete_rows w (rows (db_store d))) (db_store d).
Proof using laws rel.
  pose proof (db_exec_ok (Delete w) d) as Hs. destruct (reliable_exec (Delete w) d) as [n Hn].
  destruct (db_exec (Delete w) d) as [x d']. simpl in *. subst x. destruct Hs as [Hd ->]. by exists d'.
Qed.

Lemma exec_find q d : ∃ l d', db_exec (Find q) d = (inr l, d') ∧ db_store d' = db_store d ∧
  answers q (rows (db_store d)) l.
Proof using laws rel.
  pose proof (db_exec_ok (Find q) d) as Hs. destruct (reliable_exec (Find q) d) as [l Hl].
  destruct (db_exec (Find q) d) as [x d']. simpl in *. subst x. destruct Hs as [Hd Ha]. by exists l, d'.
Qed.

Lemma exec_create r d : rows (db_store d) !! r_ID r = None →
  ∃ d', db_exec (Create r) d = (None, d') ∧
    db_store d' = set_rows (<[r_ID r:=r]> (rows (db_store d))) (db_store d).
Proof using laws rel.
  intros Hn. pose proof (db_exec_ok (Create r) d) as Hs.
  pose proof (reliable_exec (Create r) d Hn) as He.
  destruct (db_exec (Create r) d) as [x d']. simpl in *. subst x. destruct Hs as [_ Hd]. by exists d'.
Qed.
End reliable.

(** ** Completing a delivery *)

Lemma guarded_only t r s n : keyed t →
  ∀ j u, t !! j = Some u → Gorm.guarded (r_ID r) s n u = true → j = r_ID r.
Proof. intros Hk j u Hu (<- & _)%guarded_spec. symmetry. by apply Hk. Qed.

(** The row a delivery of [r] leaves: none when the handler returned nil, else
    dead once the retries are spent, else pending again after the backoff. *)
Definition completed (r u : TaskRecord) (handlerErr : option string) (o : ConsumeOptions)
    (t : time) : option TaskRecord :=
  match handlerErr with
  | None => None
  | Some e =>
      Some (if decide (r_MaxRetries r < r_Attempts r) then Gorm.bury e t u
            else Gorm.reschedule e (t + retry_delay o (r_Attempts r)) u)
  end.

Section complete.
Context `{Engine} {DB : Type} `{Database DB} {laws : DatabaseLaws DB}.

(** A failure reported late is ignored: when the row of the record is gone,
    or is not running, or is at another attempt, [complete] leaves the table
    as it is, whether its statement fails or not. *)
Theorem gorm_stale_failure_ignored h r e o t ts l (d : DB) :
  keyed (rows (db_store d)) → local_ok l →
  (∀ u, rows (db_store d) !! r_ID r = Some u →
     r_Status u ≠ StatusRunning ∨ r_Attempts u ≠ r_Attempts r) →
  ∃ w', run_program h (Gorm.complete r (Some e) o) (mkWorld d l (t :: ts)) = Some (tt, w') ∧
    rows (db_store (w_db w')) = rows (db_store d).
Proof using laws.
  intros Hkey Hl Hstale.
  assert (∀ i u, rows (db_store d) !! i = Some u →
    Gorm.guarded (r_ID r) StatusRunning (r_Attempts r) u = false) as Hnone.
  { intros i u Hu. apply not_true_iff_false. intros (Hi & Hst & Ha)%guarded_spec.
    rewrite <- (Hkey i u Hu), Hi in Hu. by destruct (Hstale u Hu). }
  assert (∀ f, rows (db_store (db_exec (Updates (Gorm.guarded (r_ID r) StatusRunning (r_Attempts r)) f) d).2)
    = rows (db_store d)) as Hrows.
  { intros f. pose proof (db_exec_ok (Updates (Gorm.guarded (r_ID r) StatusRunning (r_Attempts r)) f) d) as Hs.
    destruct (db_exec (Updates (Gorm.guarded (r_ID r) StatusRunning (r_Attempts r)) f) d) as [x d'].
    simpl in *. assert (db_store d' = set_rows (update_rows
      (Gorm.guarded (r_ID r) StatusRunning (r_Attempts r)) f (rows (db_store d))) (db_store d) ∨
      db_store d' = db_store d) as [->| ->]; [|simpl; by rewrite update_rows_none|done].
    destruct x; [done|left; by destruct Hs]. }
  unfold Gorm.complete. case_decide.
  - eexists (mkWorld _ _ _). split; [|apply (Hrows (Gorm.bury e t))].
    by rewrite run_now, run_exec.
  - destruct (broadcastLocal_ok (r_Queue r) l Hl) as (l' & Hb & _).
    set (f := Gorm.reschedule e (time_Add t
      (default 0 (RetryBackoff (BackoffBase o) (BackoffMax o) (r_Attempts r))))).
    destruct (db_exec (Updates (Gorm.guarded (r_ID r) StatusRunning (r_Attempts r)) f) d).1 eqn:Ex;
      eexists (mkWorld _ _ _); (split; [|apply (Hrows f)]);
      rewrite run_now; cbv zeta; rewrite run_exec; fold f; rewrite Ex; [done|].
    by apply run_locked_end.
Qed.
End complete.

(** ** A small table *)

Definition demo_row (i status : string) (at_ n : Z) : TaskRecord :=
  mkRecord i "q" status at_ None None n 1 at_ ""
    (if decide (status = StatusDead) then Some at_ else None)
    (if decide (status = StatusRunning) then Some (at_ + Minute) else None).

Definition demo_rows : list TaskRecord :=
  [demo_row "a" StatusRunning 10 2; demo_row "b" StatusPending 30 0; demo_row "c" StatusPending 20 1;
   demo_row "d" StatusDead 40 2; demo_row "e" StatusDead 35 2; demo_row "f" StatusPending 5000000000 0].

Definition demo_table : gmap string TaskRecord :=
  list_to_map ((λ r, (r_ID r, r)) <$> demo_rows).

Definition demo_db : plain_db := mkPlain (mkStore demo_table []).

Lemma demo_keyed : keyed (rows (db_store demo_db)).
Proof.
  assert (map_Forall (λ i r, r_ID r = i) demo_table) as H; [|exact H].
  apply (bool_decide_unpack _). vm_compute. exact I.
Defined.

Definition demo_opts : ConsumeOptions := NewConsumeOptions [].

(** The worker that claimed attempt 1 of "a", whose row is at attempt 2. *)
Lemma gorm_stale_failure_ignored_witness :
  ∃ w', run_program (λ t, (t, Returned None)) (Gorm.complete (demo_row "a" StatusRunning 10 1) (Some "late") demo_opts)
      (mkWorld demo_db local_init [50]) = Some (tt, w') ∧
    rows (db_store (w_db w')) = rows (db_store demo_db).
Proof.
  apply (gorm_stale_failure_ignored _ (demo_row "a" StatusRunning 10 1) "late" demo_opts 50 []
    local_init demo_db).
  - exact demo_keyed.
  - exact local_init_ok.
  - intros u Hu. assert (demo_table !! "a" = Some (demo_row "a" StatusRunning 10 2)) as Ha
      by (vm_compute; reflexivity).
    change (demo_table !! "a" = Some u) in Hu. rewrite Ha in Hu. injection Hu as <-.
    right. vm_compute. discriminate.
Defined.

Section exact.
Context `{Engine, Json} {DB : Type} `{Database DB} {laws : DatabaseLaws DB} {rel : Reliable DB}.

(** C15. Completing the delivery that the row is at does exactly what the contract
    says: nil removes the task; an error buries it, with the error and the
    time, when its attempts exceed its retries, and else makes it pending
    again after min(base * 2^(n-1), max), with the attempt counter kept. *)
Theorem gorm_complete_exact h r u err o t ts l (d : DB) :
  keyed (rows (db_store d)) → local_ok l → opts_ok o →
  rows (db_store d) !! r_ID r = Some u → r_Status u = StatusRunning →
  r_Attempts u = r_Attempts r →
  ∃ w', run_program h (Gorm.complete r err o) (mkWorld d l (t :: ts)) = Some (tt, w') ∧
    rows (db_store (w_db w')) =
      match completed r u err o t with
      | None => delete (r_ID r) (rows (db_store d))
      | Some u' => <[r_ID r := u']> (rows (db_store d))
      end.
Proof using laws rel.
  intros Hkey Hl [Hb Hm] Hu Hst Ha. unfold Gorm.complete, completed.
  assert (Gorm.guarded (r_ID r) StatusRunning (r_Attempts r) u = true) as Hg.
  { apply guarded_spec. split_and!; [by apply Hkey|done|done]. }
  destruct err as [e|].
  - assert (∀ f, update_rows (Gorm.guarded (r_ID r) StatusRunning (r_Attempts r)) f
      (rows (db_store d)) = <[r_ID r:=f u]> (rows (db_store d))) as Hup.
    { intros f. apply update_rows_one; [done|done|by apply guarded_only]. }
    case_decide.
    + destruct (exec_updates (Gorm.guarded (r_ID r) StatusRunning (r_Attempts r)) (Gorm.bury e t) d)
        as (d' & Hd & Hs).
      exists (mkWorld d' l ts). split; [by rewrite run_now, run_exec, Hd|].
      simpl. by rewrite Hs; simpl; rewrite Hup.
    + assert (default 0 (RetryBackoff (BackoffBase o) (BackoffMax o) (r_Attempts r)) =
        retry_delay o (r_Attempts r)) as Hdelay by (by rewrite RetryBackoff_eq).
      destruct (broadcastLocal_ok (r_Queue r) l Hl) as (l' & Hbr & _).
      destruct (exec_updates (Gorm.guarded (r_ID r) StatusRunning (r_Attempts r))
        (Gorm.reschedule e (time_Add t (retry_delay o (r_Attempts r)))) d) as (d' & Hd & Hs).
      exists (mkWorld d' l' ts). split.
      * rewrite run_now. cbv zeta. rewrite Hdelay, run_exec, Hd. by apply run_locked_end.
      * simpl. by rewrite Hs; simpl; rewrite Hup.
  - destruct (exec_delete (Gorm.has_id (r_ID r)) d) as (d' & Hd & Hs).
    exists (mkWorld d' l (t :: ts)). split; [by rewrite run_exec, Hd|].
    simpl. rewrite Hs; simpl. eapply delete_rows_one; [exact Hu| |].
    + apply bool_decide_eq_true. by apply Hkey.
    + intros j v Hv Hid%bool_decide_eq_true. rewrite <- Hid. symmetry. by apply Hkey.
Qed.

(** ** Dead letters *)

Lemma dead_task_match queue i (d : DB) :
  keyed (rows (db_store d)) →
  match rows (db_store d) !! i with
  | Some r => r_Queue r = queue ∧ r_Status r = StatusDead
  | None => False
  end ∨
  (∀ j u, rows (db_store d) !! j = Some u → Gorm.is_dead_task i queue u = false).
Proof.
  intros Hkey. destruct (rows (db_store d) !! i) as [r|] eqn:Hr.
  - destruct (decide (r_Queue r = queue ∧ r_Status r = StatusDead)) as [Hd|Hd]; [by left|right].
    intros j u Hu. apply not_true_iff_false. intros (Hi & Hq)%is_dead_task_spec.
    assert (j = i) as -> by (rewrite <- (Hkey j u Hu); done). rewrite Hr in Hu. by simplify_eq.
  - right. intros j u Hu. apply not_true_iff_false. intros (Hi & Hq)%is_dead_task_spec.
    assert (j = i) as -> by (rewrite <- (Hkey j u Hu); done). congruence.
Qed.

Lemma dead_task_only queue i (d : DB) :
  keyed (rows (db_store d)) →
  ∀ j u, rows (db_store d) !! j = Some u → Gorm.is_dead_task i queue u = true → j = i.
Proof. intros Hkey j u Hu (Hi & _)%is_dead_task_spec. rewrite <- Hi. symmetry. by apply Hkey. Qed.

(** The queue has a dead task of the identifier. *)
Definition has_dead (queue i : string) (T : gmap string TaskRecord) : bool :=
  match T !! i with
  | Some r => bool_decide (r_Queue r = queue ∧ r_Status r = StatusDead)
  | None => false
  end.

(** One statement on the dead task of an identifier matches its row alone. *)
Lemma has_dead_match queue i (d : DB) :
  keyed (rows (db_store d)) →
  if has_dead queue i (rows (db_store d))
  then Z.of_nat (size (matching (Gorm.is_dead_task i queue) (rows (db_store d)))) ≠ 0 ∧
       (∀ f, update_rows (Gorm.is_dead_task i queue) f (rows (db_store d)) = alter f i (rows (db_store d))) ∧
       delete_rows (Gorm.is_dead_task i queue) (rows (db_store d)) = delete i (rows (db_store d))
  else Z.of_nat (size (matching (Gorm.is_dead_task i queue) (rows (db_store d)))) = 0 ∧
       (∀ f, update_rows (Gorm.is_dead_task i queue) f (rows (db_store d)) = rows (db_store d)) ∧
       delete_rows (Gorm.is_dead_task i queue) (rows (db_store d)) = rows (db_store d).
Proof using.
  intros Hkey. unfold has_dead. destruct (dead_task_match queue i d Hkey) as [Hm|Hnone].
  - destruct (rows (db_store d) !! i) as [r|] eqn:Hr; [|done]. rewrite bool_decide_true by done.
    assert (Gorm.is_dead_task i queue r = true) as Hw.
    { apply is_dead_task_spec. split; [by apply Hkey|done]. }
    split_and!.
    + pose proof (matching_size _ _ _ _ Hr Hw). lia.
    + intros f. rewrite (update_rows_one _ _ _ i r Hr Hw) by (by apply dead_task_only).
      apply map_eq. intros j. destruct (decide (j = i)) as [->|Hne].
      * by rewrite lookup_insert_eq, lookup_alter_eq, Hr.
      * by rewrite lookup_insert_ne, lookup_alter_ne.
    + eapply delete_rows_one; [exact Hr|exact Hw|by apply dead_task_only].
  - assert (match rows (db_store d) !! i with
      | Some r => bool_decide (r_Queue r = queue ∧ r_Status r = StatusDead) | None => false end = false) as ->.
    { destruct (rows (db_store d) !! i) as [r|] eqn:Hr; [|done]. apply bool_decide_false.
      intros [Hq Hst]. specialize (Hnone i r Hr). apply not_true_iff_false in Hnone.
      apply Hnone, is_dead_task_spec. split; [by apply Hkey|done]. }
    split_and!; [by rewrite (matching_size_none _ _ Hnone)|intros f; by apply update_rows_none|].
    by apply delete_rows_none.
Qed.

Lemma gorm_requeue_run h c queue i t ts l (d : DB) :
  keyed (rows (db_store d)) → local_ok l →
  let T := rows (db_store d) in
  ∃ d' l', run_program h (Gorm.RequeueDeadTask (Gorm.New true c) queue i) (mkWorld d l (t :: ts)) =
      Some (if has_dead queue i T then None else Some ErrTaskNotFound, mkWorld d' l' ts) ∧ local_ok l' ∧
    rows (db_store d') = if has_dead queue i T then alter (Gorm.revive t) i T else T.
Proof using laws rel.
  intros Hkey Hl T. pose proof (has_dead_match queue i d Hkey) as Hm. fold T in Hm.
  destruct (exec_updates (Gorm.is_dead_task i queue) (Gorm.revive t) d) as (du & Hdu & Hsu).
  fold T in Hdu, Hsu. unfold Gorm.RequeueDeadTask. cbn [Gorm.ready Gorm.started Gorm.New].
  rewrite run_now, run_exec, Hdu. cbn [fst snd].
  destruct (has_dead queue i T); destruct Hm as (Hsz & Hup & _).
  - rewrite decide_False by done. destruct (broadcastLocal_ok queue l Hl) as (l' & Hb & Hl' & _).
    exists du, l'. rewrite (run_locked h _ _ _ _ _ tt l') by done. split_and!; [done|done|].
    rewrite Hsu; simpl. apply Hup.
  - rewrite decide_True by done. exists du, l. split_and!; [done|done|]. rewrite Hsu; simpl. apply Hup.
Qed.

Lemma gorm_delete_run h c queue i ts l (d : DB) :
  keyed (rows (db_store d)) →
  let T := rows (db_store d) in
  ∃ d', run_program h (Gorm.DeleteDeadTask (Gorm.New true c) queue i) (mkWorld d l ts) =
      Some (if has_dead queue i T then None else Some ErrTaskNotFound, mkWorld d' l ts) ∧
    rows (db_store d') = if has_dead queue i T then delete i T else T.
Proof using laws rel.
  intros Hkey T. pose proof (has_dead_match queue i d Hkey) as Hm. fold T in Hm.
  destruct (exec_delete (Gorm.is_dead_task i queue) d) as (dd & Hdd & Hsd).
  fold T in Hdd, Hsd. unfold Gorm.DeleteDeadTask. cbn [Gorm.ready Gorm.started Gorm.New].
  rewrite run_exec, Hdd. cbn [fst snd]. exists dd.
  destruct (has_dead queue i T); destruct Hm as (Hsz & _ & Hdel).
  - rewrite decide_False by done. split; [done|]. rewrite Hsd; simpl. apply Hdel.
  - rewrite decide_True by done. split; [done|]. rewrite Hsd; simpl. apply Hdel.
Qed.

(** C28. A dead task of the queue is requeued with its counter, error and time of
    death reset and due now; RequeueDeadTask answers ErrTaskNotFound, and
    changes nothing, exactly when the queue has no dead task of this
    identifier. DeleteDeadTask removes it under the same condition. *)
Theorem gorm_dead_task_exact h c queue i t ts l (d : DB) :
  keyed (rows (db_store d)) → local_ok l →
  let q := Gorm.New true c in
  let T := rows (db_store d) in
  let dead := match T !! i with
              | Some r => bool_decide (r_Queue r = queue ∧ r_Status r = StatusDead)
              | None => false
              end in
  (∃ w', run_program h (Gorm.RequeueDeadTask q queue i) (mkWorld d l (t :: ts)) =
       Some (if dead then None else Some ErrTaskNotFound, w') ∧
     rows (db_store (w_db w')) = if dead then alter (Gorm.revive t) i T else T) ∧
  (∃ w', run_program h (Gorm.DeleteDeadTask q queue i) (mkWorld d l ts) =
       Some (if dead then None else Some ErrTaskNotFound, w') ∧
     rows (db_store (w_db w')) = if dead then delete i T else T).
Proof using laws rel.
  intros Hkey Hl q T dead.
  destruct (gorm_requeue_run h c queue i t ts l d Hkey Hl) as (d1 & l1 & Hr1 & _ & Hs1).
  destruct (gorm_delete_run h c queue i ts l d Hkey) as (d2 & Hr2 & Hs2).
  split; [by exists (mkWorld d1 l1 ts)|by exists (mkWorld d2 l ts)].
Qed.
End exact.

(** Witnesses on the small table. *)

Lemma gorm_complete_exact_witness :
  ∃ w', run_program (λ t, (t, Returned None)) (Gorm.complete (demo_row "a" StatusRunning 10 2) (Some "boom") demo_opts)
      (mkWorld demo_db local_init [50]) = Some (tt, w') ∧
    rows (db_store (w_db w')) !! "a" =
      Some (Gorm.bury "boom" 50 (demo_row "a" StatusRunning 10 2)).
Proof.
  destruct (gorm_complete_exact (λ t, (t, Returned None)) (demo_row "a" StatusRunning 10 2)
    (demo_row "a" StatusRunning 10 2) (Some "boom") demo_opts 50 [] local_init demo_db)
    as (w' & Hrun & Hrows).
  - exact demo_keyed.
  - exact local_init_ok.
  - split; vm_compute; split; discriminate.
  - vm_compute. reflexivity.
  - reflexivity.
  - reflexivity.
  - exists w'. split; [exact Hrun|]. rewrite Hrows. vm_compute. reflexivity.
Defined.

Lemma gorm_dead_task_exact_witness :
  ∃ w', run_program (λ t, (t, Returned None)) (Gorm.RequeueDeadTask (Gorm.New true (Gorm.mkConfig "" 0 0)) "q" "d")
      (mkWorld demo_db local_init [50]) = Some (None, w') ∧
    rows (db_store (w_db w')) !! "d" = Some (Gorm.revive 50 (demo_row "d" StatusDead 40 2)).
Proof.
  destruct (gorm_dead_task_exact (λ t, (t, Returned None)) (Gorm.mkConfig "" 0 0) "q" "d" 50 []
    local_init demo_db demo_keyed local_init_ok) as [(w' & Hrun & Hrows) _].
  exists w'. split.
  - exact Hrun.
  - rewrite Hrows. vm_compute. reflexivity.
Defined.

(** ** Claim *)

Section claim.
Context `{Engine} {DB : Type} `{Database DB} {laws : DatabaseLaws DB} {rel : Reliable DB}.

(** The query for the next task and the wait it gives. *)
Lemma claim_wait_run h q queue t t' ts l (d : DB) :
  0 < Gorm.PollInterval (Gorm.config q) →
  (∀ j v, rows (db_store d) !! j = Some v → Gorm.is_ready queue t v = false) →
  ∃ wait w', run_program h (Gorm.claim_wait q queue) (mkWorld d l (t' :: ts)) =
      Some ((None, wait, None), w') ∧
    claim_spec queue (Gorm.PollInterval (Gorm.config q)) (Gorm.LeaseDuration (Gorm.config q)) t t'
      (rows (db_store d)) None wait (rows (db_store (w_db w'))).
Proof using laws rel.
  intros Hpoll Hnone. unfold Gorm.claim_wait.
  destruct (exec_find (mkQuery (Gorm.is_pending queue) [run_at] 0 (Some 1)) d)
    as (next & d' & Hd & Hs & Ha).
  apply answers_head in Ha; [|done]. rewrite run_exec, Hd. cbn [fst snd].
  destruct next as [|next rest].
  - exists (Gorm.PollInterval (Gorm.config q)), (mkWorld d' l (t' :: ts)). split; [done|].
    simpl. rewrite Hs. split_and!; [done|done|lia|lia|].
    intros j v Hv Hp. by rewrite (Ha j v Hv) in Hp.
  - destruct Ha as [_ Hmin].
    destruct (wait_spec queue (Gorm.PollInterval (Gorm.config q)) t' (rows (db_store d)) next Hpoll)
      as [Hb Hw].
    { intros j v Hv Hp. by eapply order_run_at, Hmin. }
    exists (if decide (time_Until t' (r_RunAt next) < Gorm.PollInterval (Gorm.config q))
      then Z.max (time_Until t' (r_RunAt next)) Millisecond
      else Gorm.PollInterval (Gorm.config q)), (mkWorld d' l ts). rewrite run_now. cbv zeta. split.
    + case_decide; reflexivity.
    + simpl. rewrite Hs. split_and!; [done|done|apply Hb|apply Hb|exact Hw].
Qed.

(** C9. The claim of the database backend takes the first due task: the loop over
    candidates with its guarded UPDATE, and the second query when there is
    none, implement the abstract claim. *)
Theorem gorm_claim_refines h q queue t t' ts l (d : DB) :
  keyed (rows (db_store d)) → 0 < Gorm.PollInterval (Gorm.config q) →
  (∀ i r, rows (db_store d) !! i = Some r → 0 ≤ r_Attempts r < max_int64) →
  ∃ res wait w', run_program h (Gorm.claim q queue) (mkWorld d l (t :: t' :: ts)) =
      Some ((res, wait, None), w') ∧
    claim_spec queue (Gorm.PollInterval (Gorm.config q)) (Gorm.LeaseDuration (Gorm.config q)) t t'
      (rows (db_store d)) res wait (rows (db_store (w_db w'))).
Proof using laws rel.
  intros Hkey Hpoll Hatt. unfold Gorm.claim. rewrite run_now.
  destruct (exec_find (mkQuery (Gorm.is_ready queue t) [run_at; enqueued_at] 0 (Some 5)) d)
    as (cs & d1 & Hd & Hs & Ha).
  apply answers_head in Ha; [|done]. rewrite run_exec, Hd. cbn [fst snd].
  destruct cs as [|c cs].
  - destruct (claim_wait_run h q queue t t' ts l d1 Hpoll) as (wait & w' & Hrun & Hspec);
      rewrite ?Hs in *; [done|]. by exists None, wait, w'.
  - destruct Ha as [(i & Hi & Hw) Hmin]. pose proof (Hkey i c Hi) as Hid. subst i.
    pose proof (Hatt _ _ Hi) as Hac. cbn [Gorm.claim_loop]. cbv zeta.
    set (lease := time_Add t (Gorm.LeaseDuration (Gorm.config q))).
    destruct (exec_updates (Gorm.guarded (r_ID c) StatusPending (r_Attempts c))
      (Gorm.start lease) d1) as (d2 & Hd2 & Hs2). rewrite Hs in Hd2, Hs2.
    assert (Gorm.guarded (r_ID c) StatusPending (r_Attempts c) c = true) as Hg.
    { apply guarded_spec. apply is_ready_spec in Hw as [[_ Hst] _]. done. }
    exists (Some (Gorm.start lease c)), 0, (mkWorld d2 l (t' :: ts)). split.
    + rewrite run_exec, Hd2. cbn [fst snd].
      rewrite decide_False by (by eapply matching_size).
      unfold Gorm.mark_claimed. rewrite wrap64_id by (unfold in_int64; lia). done.
    + exists c. split_and!; [done|done| |done].
      simpl. rewrite Hs2; simpl. by apply update_rows_one; [|done|apply guarded_only].
Qed.
End claim.

Lemma gorm_claim_refines_witness :
  ∃ w', run_program (λ t, (t, Returned None))
      (Gorm.claim (Gorm.New true (Gorm.mkConfig "" 0 0)) "q") (mkWorld demo_db local_init [100; 100]) =
    Some ((Some (Gorm.start (100 + 5 * Minute) (demo_row "c" StatusPending 20 1)), 0, None), w').
Proof.
  destruct (gorm_claim_refines (λ t, (t, Returned None)) (Gorm.New true (Gorm.mkConfig "" 0 0)) "q" 100 100 []
    local_init demo_db) as (res & wait & w' & Hrun & _).
  - exact demo_keyed.
  - vm_compute. reflexivity.
  - assert (map_Forall (λ _ r, 0 ≤ r_Attempts r < max_int64) demo_table) as Hall; [|exact Hall].
    apply (bool_decide_unpack _). vm_compute. exact I.
  - exists w'. rewrite Hrun. vm_compute in Hrun. injection Hrun as <- <- _. vm_compute. reflexivity.
Defined.

(** ** Enqueue and the listing of the dead letters *)

Lemma toTask_metadata `{Json} r :
  r_Metadata r = None ∨ r_Metadata r = Some [] →
  toTask r = inr (mkTask (r_ID r) (r_Queue r) (r_Payload r) None (r_Attempts r) (r_MaxRetries r)
    (r_EnqueuedAt r) (r_RunAt r) (r_LastError r) (default zeroTime (r_DiedAt r))).
Proof. unfold toTask. by intros [->| ->]. Qed.

Section enqueue.
Context `{Engine, Json} {jl : JsonLaws} {DB : Type} `{Database DB} {laws : DatabaseLaws DB}
  {rel : Reliable DB}.

(** The options' metadata as a task read back from the table has it: an empty
    map is stored as NULL and comes back nil. *)
Definition stored_metadata (md : metadata) : metadata :=
  match md with Some m => if decide (m = ∅) then None else Some m | None => None end.

Lemma encode_metadata_roundtrip md :
  (∀ m, md = Some m → json_valid m) →
  ∃ b, Gorm.encode_metadata md = inr b ∧ ∀ r, r_Metadata r = b →
    toTask r = inr (mkTask (r_ID r) (r_Queue r) (r_Payload r) (stored_metadata md) (r_Attempts r)
      (r_MaxRetries r) (r_EnqueuedAt r) (r_RunAt r) (r_LastError r) (default zeroTime (r_DiedAt r))).
Proof using Type*.
  intros Hv. unfold Gorm.encode_metadata, stored_metadata. destruct md as [m|].
  - case_decide as Hm.
    + exists None. split; [done|]. intros r Hr. apply toTask_metadata. by left.
    + destruct (Unmarshal_Marshal m (Hv m eq_refl)) as (b & l & HM & HU).
      exists (Some (b :: l)). rewrite HM. split; [done|]. intros r Hr.
      unfold toTask. by rewrite Hr, HU.
  - exists None. split; [done|]. intros r Hr. apply toTask_metadata. by left.
Qed.

(** C29. What is enqueued is what is read back: Enqueue inserts one pending row
    that is due when the options say, and answers the task that [toTask] reads
    from it, with the payload, the metadata and the retry budget given. *)
Theorem gorm_enqueue_roundtrip h c uuid queue payload opts t ts l (d : DB) :
  local_ok l → rows (db_store d) !! uuid = None →
  (∀ m, eo_Metadata (NewEnqueueOptions opts) = Some m → json_valid m) →
  let o := NewEnqueueOptions opts in
  ∃ r w', run_program h (Gorm.Enqueue (Gorm.New true c) uuid queue payload opts)
      (mkWorld d l (t :: ts)) = Some (Gorm.decoded r, w') ∧
    rows (db_store (w_db w')) = <[uuid := r]> (rows (db_store d)) ∧
    r_Status r = StatusPending ∧ row_ok r ∧
    toTask r = inr (mkTask uuid queue payload (stored_metadata (eo_Metadata o)) 0 (eo_MaxRetries o) t
      (ResolveRunAt o t) "" zeroTime).
Proof using jl laws rel.
  intros Hl Hn Hv o. destruct (encode_metadata_roundtrip (eo_Metadata o) Hv) as (b & Hb & Hback).
  set (r := Gorm.new_record t uuid queue payload b o).
  destruct (exec_create r d Hn) as (d' & Hd & Hs).
  destruct (broadcastLocal_ok queue l Hl) as (l' & Hbr & _).
  exists r, (mkWorld d' l' ts). split_and!.
  - unfold Gorm.Enqueue. cbn [Gorm.ready Gorm.started Gorm.New]. cbv zeta.
    fold o. rewrite run_now, Hb. fold r. rewrite run_exec, Hd. cbn [fst snd].
    by rewrite (run_locked h _ _ _ _ _ tt l').
  - simpl. by rewrite Hs.
  - done.
  - apply row_pending; done.
  - by rewrite Hback.
Qed.

Lemma gorm_list_run h c queue limit offset ts l (d : DB) :
  ∃ all d', all ≡ₚ table_rows (matching (Gorm.is_dead queue) (rows (db_store d))) ∧
    Sorted.StronglySorted (λ x y, order_le [died_at; id] x y = true) all ∧
    run_program h (Gorm.ListDeadTasks (Gorm.New true c) queue limit offset) (mkWorld d l ts) =
      Some (Gorm.decode_all (page limit offset all), mkWorld d' l ts) ∧
    db_store d' = db_store d.
Proof using laws rel.
  unfold Gorm.ListDeadTasks. cbn [Gorm.ready Gorm.started Gorm.New]. cbv zeta.
  destruct (exec_find (mkQuery (Gorm.is_dead queue) [died_at; id]
    (if decide (offset < 0) then 0 else offset)
    (if decide (0 < limit) then Some limit else None)) d) as (rs & d' & Hd & Hs & Ha).
  destruct Ha as (all & Hperm & Hsort & Hrs). simpl in Hperm, Hsort, Hrs.
  exists all, d'. split_and!; [done|done| |done].
  rewrite run_exec, Hd. cbn [fst snd].
  assert (rs = page limit offset all) as ->; [|done]. rewrite Hrs. unfold page.
  assert (Z.to_nat (if decide (offset < 0) then 0 else offset) = Z.to_nat offset) as ->
    by (destruct (decide (offset < 0)); lia).
  by destruct (decide (0 < limit)).
Qed.

(** ListDeadTasks answers the page of the queue's dead tasks ordered by the
    time they died and then by identifier: a negative offset counts as 0, a
    limit that is not positive as no limit, nothing is left out or repeated,
    and an undecodable row among them makes the whole listing fail. *)
Theorem gorm_dead_page h c queue limit offset ts l (d : DB) :
  ∃ all w', all ≡ₚ table_rows (matching (Gorm.is_dead queue) (rows (db_store d))) ∧
    Sorted.StronglySorted (λ x y, order_le [died_at; id] x y = true) all ∧
    run_program h (Gorm.ListDeadTasks (Gorm.New true c) queue limit offset) (mkWorld d l ts) =
      Some (Gorm.decode_all (page limit offset all), w') ∧
    db_store (w_db w') = db_store d.
Proof using laws rel.
  destruct (gorm_list_run h c queue limit offset ts l d) as (all & d' & Hp & Hs & Hr & Hd).
  by exists all, (mkWorld d' l ts).
Qed.
End enqueue.

Lemma gorm_enqueue_roundtrip_witness :
  ∃ r w', run_program (λ t, (t, Returned None)) (Gorm.Enqueue (Gorm.New true (Gorm.mkConfig "" 0 0)) "n" "q" None
      [WithMetadata (Some {["k" := "v"]}); WithDelay 5]) (mkWorld demo_db local_init [100]) =
      Some (Gorm.decoded r, w') ∧
    toTask r = inr (mkTask "n" "q" None (Some {["k" := "v"]}) 0 3 100 105 "" zeroTime).
Proof.
  destruct (gorm_enqueue_roundtrip (λ t, (t, Returned None)) (Gorm.mkConfig "" 0 0) "n" "q" None
    [WithMetadata (Some {["k" := "v"]}); WithDelay 5] 100 [] local_init demo_db)
    as (r & w' & Hrun & _ & _ & _ & Hback).
  - exact local_init_ok.
  - vm_compute. reflexivity.
  - intros m _. exact I.
  - exists r, w'. split; [exact Hrun|]. rewrite Hback. vm_compute. reflexivity.
Defined.

Lemma gorm_dead_page_witness :
  ∃ all w', run_program (λ t, (t, Returned None))
      (Gorm.ListDeadTasks (Gorm.New true (Gorm.mkConfig "" 0 0)) "q" 1 (-7)) (mkWorld demo_db local_init []) =
    Some (Gorm.decode_all (page 1 (-7) all), w').
Proof.
  destruct (gorm_dead_page (λ t, (t, Returned None)) (Gorm.mkConfig "" 0 0) "q" 1 (-7) [] local_init demo_db)
    as (all & w' & _ & _ & Hrun & _).
  exists all, w'. exact Hrun.
Defined.

(** ** Before the start *)

(** Until the database handle is resolved every method answers errNotStarted
    and makes no call at all: no statement, no clock reading, no wakeup. *)
Theorem gorm_not_started `{Json} c uuid queue payload opts limit offset i :
  let q := Gorm.New false c in
  Gorm.Enqueue q uuid queue payload opts = Ret (inl errNotStarted) ∧
  Gorm.ListDeadTasks q queue limit offset = Ret (inl errNotStarted) ∧
  Gorm.RequeueDeadTask q queue i = Ret (Some errNotStarted) ∧
  Gorm.DeleteDeadTask q queue i = Ret (Some errNotStarted).
Proof. by split_and!. Qed.
