(* ===== verification/PostgresProps.v ===== *)
(** * Properties of the PostgreSQL backend, one process at a time

    The single-statement claim refines the same abstract claim as the loop of
    gorm_workqueue, an insertion or a requeue and its notification commit
    together, a wakeup reaches every queue, and the table name is quoted so
    that no name escapes its quotes. *)

From stdpp Require Import base tactics list numbers option gmap strings sorting.
From Stdlib Require Import Strings.Byte Ascii.
From S2P Require Import Prelude GoRuntime Contract Options Effects TaskTable SqlEffects Leases Gorm WakeChannels GormLegal Postgres PostgresLegal ScriptDB ClaimSpec GormProps.

(** ** Claim *)

Section claim.
Context `{Engine} {DB : Type} `{Database DB} {laws : DatabaseLaws DB} {rel : Reliable DB}.

(** C10. The single UPDATE with FOR UPDATE SKIP LOCKED takes the first due task,
    like the optimistic loop of the database backend: both refine one
    abstract claim. *)
Theorem postgres_claim_refines h q queue t t' ts l (d : DB) :
  keyed (rows (db_store d)) → 0 < Postgres.PollInterval (Postgres.config q) →
  ∃ res wait w', run_program h (Postgres.claim q queue) (mkWorld d l (t :: t' :: ts)) =
      Some ((res, wait, None), w') ∧
    claim_spec queue (Postgres.PollInterval (Postgres.config q))
      (Postgres.LeaseDuration (Postgres.config q)) t t'
      (rows (db_store d)) res wait (rows (db_store (w_db w'))).
Proof using laws rel.
  intros Hkey Hpoll. unfold Postgres.claim. rewrite run_now. cbv zeta.
  set (lease := time_Add t (Postgres.LeaseDuration (Postgres.config q))).
  set (s := UpdateFirst (Postgres.is_ready queue t) [run_at; enqueued_at] (Postgres.start lease)).
  pose proof (db_exec_ok s d) as Hs. destruct (reliable_exec s d) as [res Hres].
  rewrite run_exec. destruct (db_exec s d) as [x d']. simpl in Hres, Hs. subst x.
  destruct Hs as [_ Hs]. cbn [fst snd]. rewrite reliable_locked in Hs. destruct res as [c|].
  - destruct Hs as (i & r & Hr & Hw & -> & Hrows & Hmin).
    pose proof (Hkey i r Hr) as <-.
    exists (Some (Postgres.start lease r)), 0, (mkWorld d' l (t' :: ts)). split; [done|].
    exists r. split_and!; [split_and!; [done|done|]|done|done|done].
    intros j v Hv Hwv. eapply Hmin; [exact Hv|exact Hwv|]. apply not_elem_of_empty.
  - destruct Hs as [Hrows Hnone].
    assert (∀ j v, rows (db_store d') !! j = Some v → Gorm.is_ready queue t v = false) as Hno.
    { intros j v Hv. rewrite Hrows in Hv. apply not_true_iff_false. intros Hw.
      by apply (not_elem_of_empty (C := gset string) j), (Hnone j v). }
    destruct (claim_wait_run h (Gorm.mkQueue true (Gorm.mkConfig ""
      (Postgres.PollInterval (Postgres.config q)) (Postgres.LeaseDuration (Postgres.config q))))
      queue t t' ts l d' Hpoll Hno) as (wait & w' & Hrun & Hspec).
    rewrite Hrows in Hspec. exists None, wait, w'. split; [exact Hrun|exact Hspec].
Qed.
End claim.

Lemma postgres_claim_refines_witness :
  ∃ w', run_program (λ t, (t, Returned None))
      (Postgres.claim (Postgres.New true (Postgres.mkConfig "" 0 0 "" "")) "q") (mkWorld demo_db local_init [100; 100]) =
    Some ((Some (Postgres.start (100 + 5 * Minute) (demo_row "c" StatusPending 20 1)), 0, None), w').
Proof.
  destruct (postgres_claim_refines (λ t, (t, Returned None))
    (Postgres.New true (Postgres.mkConfig "" 0 0 "" "")) "q" 100 100 [] local_init demo_db)
    as (res & wait & w' & Hrun & _).
  - exact demo_keyed.
  - vm_compute. reflexivity.
  - exists w'. rewrite Hrun. vm_compute in Hrun. injection Hrun as <- <- _. vm_compute. reflexivity.
Defined.

(** ** Notifications commit with their data *)

Section notify.
Context `{Engine, Json} {DB : Type} `{Database DB} {laws : DatabaseLaws DB}.

Lemma tx_notify_sent L channel queue σ σ' :
  tx_run L (Postgres.tx_notify channel queue) σ None σ' →
  rows σ' = rows σ ∧ sent σ' = (channel, queue) :: sent σ.
Proof.
  intros (x & σ1 & Hs & He & ->). destruct x; [done|]. simpl in Hs. by subst.
Qed.

(** C16. A requeued dead task and the wakeup of the listeners are one transaction:
    whatever the database answers, either the row was revived and the queue
    was notified once, or neither happened; nil means it happened. *)
Theorem postgres_requeue_atomic h c queue i t ts l (d : DB) :
  local_ok l → let q := Postgres.New true c in
  ∃ e w', run_program h (Postgres.RequeueDeadTask q queue i) (mkWorld d l (t :: ts)) = Some (e, w') ∧
    let σ := db_store d in
    let σ' := db_store (w_db w') in
    (rows σ' = update_rows (Gorm.is_dead_task i queue) (Gorm.revive t) (rows σ) ∧
     sent σ' = (Postgres.NotifyChannel (Postgres.config q), queue) :: sent σ ∧
     (∃ j u, rows σ !! j = Some u ∧ Gorm.is_dead_task i queue u = true)) ∨
    (e ≠ None ∧ σ' = σ).
Proof using laws.
  intros Hl q; subst q. unfold Postgres.RequeueDeadTask. cbn [Postgres.ready Postgres.started Postgres.New].
  set (b := Postgres.requeue_tx (Postgres.NotifyChannel (Postgres.config (Postgres.New true c))) queue i t).
  pose proof (db_tx_ok b d) as Hb.
  assert (∀ σ', tx_run (db_locked d) b (db_store d) None σ' →
    rows σ' = update_rows (Gorm.is_dead_task i queue) (Gorm.revive t) (rows (db_store d)) ∧
    sent σ' = (Postgres.NotifyChannel (Postgres.config (Postgres.New true c)), queue) :: sent (db_store d) ∧
    ∃ j u, rows (db_store d) !! j = Some u ∧ Gorm.is_dead_task i queue u = true) as Hrun.
  { intros σ' (x & σ1 & Hs & Hr). destruct x as [e|n]; [by destruct Hr|].
    destruct Hs as [-> ->]. simpl in Hr. case_decide as Hn; [by destruct Hr|].
    apply tx_notify_sent in Hr as [-> ->]. split_and!; [done|done|by apply matching_nonempty]. }
  rewrite run_now, run_tx. fold b. destruct (db_tx b d) as [e d']. simpl in Hb. cbn [fst snd].
  destruct e as [e|].
  - exists (Some e), (mkWorld d' l ts). split; [done|]. simpl.
    destruct Hb as [[Hd' _]|[_ [Hd'|Hd']]]; [by right|by right|left; by apply Hrun].
  - destruct (broadcastLocal_ok queue l Hl) as (l' & Hbr & _).
    exists None, (mkWorld d' l' ts). split; [by rewrite (run_locked h _ _ _ _ _ tt l')|].
    left. by apply Hrun.
Qed.

(** The INSERT of a task and its notification are one transaction too. *)
Theorem postgres_enqueue_atomic h c uuid queue payload opts t ts l (d : DB) md :
  local_ok l → Postgres.encode_metadata (eo_Metadata (NewEnqueueOptions opts)) = inr md →
  let q := Postgres.New true c in
  let r := Postgres.new_record t uuid queue payload md (NewEnqueueOptions opts) in
  ∃ a w', run_program h (Postgres.Enqueue q uuid queue payload opts) (mkWorld d l (t :: ts)) = Some (a, w') ∧
    let σ := db_store d in
    let σ' := db_store (w_db w') in
    (rows σ !! uuid = None ∧ rows σ' = <[uuid := r]> (rows σ) ∧
     sent σ' = (Postgres.NotifyChannel (Postgres.config q), queue) :: sent σ) ∨
    ((∃ e, a = inl e) ∧ σ' = σ).
Proof using laws.
  intros Hl Hmd q r; subst q. unfold Postgres.Enqueue. cbn [Postgres.ready Postgres.started Postgres.New].
  cbv zeta. rewrite run_now, Hmd. fold r.
  set (b := Postgres.enqueue_tx (Postgres.NotifyChannel (Postgres.config (Postgres.New true c))) r).
  pose proof (db_tx_ok b d) as Hb.
  assert (∀ σ', tx_run (db_locked d) b (db_store d) None σ' →
    rows (db_store d) !! uuid = None ∧ rows σ' = <[uuid := r]> (rows (db_store d)) ∧
    sent σ' = (Postgres.NotifyChannel (Postgres.config (Postgres.New true c)), queue) :: sent (db_store d)) as Hrun.
  { intros σ' (x & σ1 & Hs & Hr). destruct x as [e|]; [by destruct Hr|].
    destruct Hs as [Hn ->]. by apply tx_notify_sent in Hr as [-> ->]. }
  rewrite run_tx. destruct (db_tx b d) as [e d']. simpl in Hb. cbn [fst snd].
  destruct e as [e|].
  - exists (inl e), (mkWorld d' l ts). split; [done|]. simpl.
    destruct Hb as [[Hd' _]|[_ [Hd'|Hd']]]; [right; eauto|right; eauto|left; by apply Hrun].
  - destruct (broadcastLocal_ok queue l Hl) as (l' & Hbr & _).
    exists (Postgres.decoded r), (mkWorld d' l' ts).
    split; [by rewrite (run_locked h _ _ _ _ _ tt l')|]. left. by apply Hrun.
Qed.
End notify.

(** The commit of the requeue is lost after it took effect. *)
Lemma postgres_requeue_atomic_witness :
  ∃ e w', run_program (λ t, (t, Returned None))
      (Postgres.RequeueDeadTask (Postgres.New true (Postgres.mkConfig "" 0 0 "" "")) "q" "d")
      (mkWorld (mkScript (mkStore demo_table []) [Unknown]) local_init [50]) = Some (e, w').
Proof.
  destruct (postgres_requeue_atomic (λ t, (t, Returned None)) (Postgres.mkConfig "" 0 0 "" "") "q" "d" 50 []
    local_init (mkScript (mkStore demo_table []) [Unknown]) local_init_ok) as (e & w' & Hrun & _).
  exists e, w'. exact Hrun.
Defined.

Lemma postgres_enqueue_atomic_witness :
  ∃ a w', run_program (λ t, (t, Returned None))
      (Postgres.Enqueue (Postgres.New true (Postgres.mkConfig "" 0 0 "" "")) "n" "q" None [])
      (mkWorld (mkScript (mkStore demo_table []) [Refused]) local_init [50]) = Some (a, w').
Proof.
  destruct (postgres_enqueue_atomic (λ t, (t, Returned None)) (Postgres.mkConfig "" 0 0 "" "") "n" "q" None []
    50 [] local_init (mkScript (mkStore demo_table []) [Refused]) None local_init_ok) as (a & w' & Hrun & _).
  - reflexivity.
  - exists a, w'. exact Hrun.
Defined.

(** ** Waking every queue *)

(** The wakeup of a reconnected listener reaches every queue a worker waits
    on: each channel handed out is closed, none is closed twice, and the maps'
    channels are open again for the next round. *)
Theorem broadcastAll_wakes l :
  local_ok l →
  ∃ l', Postgres.onWake "" l = Some (tt, l') ∧ local_ok l' ∧
    ∀ queue ch, notifies l !! queue = Some ch → is_closed ch (l_chans l').
Proof.
  intros Hl. destruct (onWake_step "" l Hl) as (l' & Hrun & Hl' & Hall). exists l'.
  split_and!; [exact Hrun|apply Hl'|]. intros queue ch Hch. by apply (Hall queue ch); [left|].
Qed.

(** Two queues have handed out channels. *)
Definition two_queues : local := mkLocal (<["a" := 0%nat]> {["b" := 1%nat]}) (Chans 2 ∅).

Lemma broadcastAll_wakes_witness :
  ∃ l', Postgres.onWake "" two_queues = Some (tt, l') ∧ local_ok l' ∧
    ∀ queue ch, notifies two_queues !! queue = Some ch → is_closed ch (l_chans l').
Proof.
  apply (broadcastAll_wakes two_queues).
  assert (∀ q ch, notifies two_queues !! q = Some ch → q = "a" ∧ ch = 0%nat ∨ q = "b" ∧ ch = 1%nat) as Hcase.
  { intros q ch. unfold two_queues. simpl. rewrite lookup_insert_Some, lookup_singleton_Some.
    clear. intros [[-> ->]|[_ [-> ->]]]; auto. }
  split.
  - intros ch Hch. unfold is_closed in Hch; simpl in Hch; by apply not_elem_of_empty in Hch.
  - intros q ch [[_ ->]|[_ ->]]%Hcase; (split; [unfold made; simpl; lia|unfold is_closed; simpl; apply not_elem_of_empty]).
  - intros q q' ch [[-> Hc]|[-> Hc]]%Hcase [[-> Hc']|[-> Hc']]%Hcase; congruence.
Defined.

(** ** The table name in raw SQL *)

(** A quoted identifier of SQL, read after its opening quote: a doubled quote
    stands for one, a single one ends it. *)
Fixpoint identifier_rest (s : string) : option (string * string) :=
  match s with
  | EmptyString => None
  | String c s =>
      if decide (c = Postgres.dquote) then
        match s with
        | String c' s' =>
            if decide (c' = Postgres.dquote)
            then '(name, rest) ← identifier_rest s'; Some (String Postgres.dquote name, rest)
            else Some (EmptyString, s)
        | EmptyString => Some (EmptyString, s)
        end
      else '(name, rest) ← identifier_rest s; Some (String c name, rest)
  end.

Definition quoted_identifier (s : string) : option (string * string) :=
  match s with
  | String c s => if decide (c = Postgres.dquote) then identifier_rest s else None
  | EmptyString => None
  end.

Definition starts_with_quote (s : string) : bool :=
  match s with String c _ => bool_decide (c = Postgres.dquote) | EmptyString => false end.

Lemma identifier_rest_quoted name rest :
  starts_with_quote rest = false →
  identifier_rest (Postgres.double_quotes name +:+ String Postgres.dquote rest) = Some (name, rest).
Proof.
  intros Hrest. induction name as [|c name IH].
  - simpl. destruct rest as [|c rest]; [done|]. simpl in Hrest.
    apply bool_decide_eq_false in Hrest. by rewrite decide_False.
  - cbn [Postgres.double_quotes]. case_decide as Hc; simpl.
    + rewrite IH. simpl. by subst.
    + rewrite decide_False by done. by rewrite IH.
Qed.

(** Whatever the configured table name, the raw UPDATE reads back exactly that
    name and then the rest of the statement: no name ends its quotes early,
    and the empty name, which SQL refuses, does not occur. *)
Theorem quotedTable_safe db c rest :
  starts_with_quote rest = false →
  quoted_identifier (Postgres.quotedTable (Postgres.New db c) +:+ rest) =
    Some (Postgres.TableName (Postgres.config (Postgres.New db c)), rest) ∧
  Postgres.TableName (Postgres.config (Postgres.New db c)) ≠ "".
Proof.
  intros Hrest. split.
  - unfold Postgres.quotedTable.
    set (name := Postgres.TableName (Postgres.config (Postgres.New db c))). simpl.
    rewrite string_append_assoc. by apply identifier_rest_quoted.
  - simpl. unfold Postgres.withDefaults. repeat case_decide; done.
Qed.

(** A name that tries to end the identifier and start a statement. *)
Lemma quotedTable_safe_witness :
  let evil := "t" +:+ String Postgres.dquote "; DROP TABLE users; --" in
  let q := Postgres.New true (Postgres.mkConfig evil 0 0 "" "") in
  quoted_identifier (Postgres.quotedTable q +:+ " SET status = $1") =
    Some (Postgres.TableName (Postgres.config q), " SET status = $1") ∧
  Postgres.TableName (Postgres.config q) ≠ "".
Proof. intros evil q. apply quotedTable_safe. reflexivity. Defined.
