(* ===== verification/JetStream.v ===== *)
(** * JetStream as src/nats_workqueue relies on it

    The server and its client are code this repository only calls, so they are
    a parameter: [JetStream] gives the function that makes a call, and
    [JetStreamLaws] states what is documented of the calls. A call that reports
    an error may or may not have taken effect. An acknowledgement is not
    confirmed, so it may be lost even when no error is reported. The effects of
    the programs of [Nats] and their execution are here too. *)

From stdpp Require Import base tactics list numbers option gmap strings.
From Stdlib Require Import Strings.Byte.
From S2P Require Import Prelude GoRuntime Contract Effects.

(** ** Streams *)

(** A stream with one subject: its messages by sequence number, the last
    number given, and the message IDs in its duplicate window. *)
Record stream := mkStream {
  st_subject : string;
  st_msgs : gmap Z (list byte);
  st_last : Z;
  st_ids : gset string
}.

Abbreviation jstore := (gmap string stream).

Definition new_stream (subject : string) : stream := mkStream subject ∅ 0 ∅.

Definition store_msg (data : list byte) (msgID : string) (st : stream) : stream :=
  mkStream (st_subject st) (<[st_last st + 1 := data]> (st_msgs st)) (st_last st + 1)
    (if decide (msgID = "") then st_ids st else {[msgID]} ∪ st_ids st).

Definition drop_msg (seq : Z) (st : stream) : stream :=
  mkStream (st_subject st) (delete seq (st_msgs st)) (st_last st) (st_ids st).

(** ** Calls *)

Inductive jerr := ErrMsgNotFound | ErrMsgDeleteUnsuccessful | ErrServer (msg : string).

(** What a delivered message is answered through. *)
Record delivery := mkDelivery { d_stream : string; d_seq : Z }.

Inductive jcall : Type → Type :=
  | EnsureStream (name subject : string) : jcall (option string)
  | EnsureConsumer (stream durable subject : string) (ackWait : duration) (maxAckPending : Z) :
      jcall (option string)
  | Publish (subject : string) (data : list byte) (msgID : string) : jcall (option string)
  | OpenStream (name : string) : jcall (option string)
  | Info (name : string) : jcall (string + (Z * Z))       (** first and last number *)
  | GetMsg (name : string) (seq : Z) : jcall (jerr + list byte)
  | DeleteMsg (name : string) (seq : Z) : jcall (option jerr)
  | Ack (d : delivery) : jcall (option string)
  | Nak (d : delivery) : jcall (option string)
  | NakWithDelay (d : delivery) (delay : duration) : jcall (option string)
  | Term (d : delivery) : jcall (option string).

(** A stream that is not there is made; one that has the subject is left as it
    is; of one that has another subject nothing is known but that it exists. *)
Definition ensured (name subject : string) (σ σ' : jstore) : Prop :=
  match σ !! name with
  | None => σ' = <[name := new_stream subject]> σ
  | Some st => (st_subject st = subject → σ' = σ) ∧ is_Some (σ' !! name) ∧
               ∀ n, n ≠ name → σ' !! n = σ !! n
  end.

(** The stream of the subject stores the message, unless it has stored one
    with the same message ID within its duplicate window. *)
Definition published (subject : string) (data : list byte) (msgID : string) (σ σ' : jstore) : Prop :=
  ∃ name st, σ !! name = Some st ∧ st_subject st = subject ∧
    ((msgID ≠ "" ∧ msgID ∈ st_ids st ∧ σ' = σ) ∨
     ((msgID = "" ∨ msgID ∉ st_ids st) ∧ σ' = <[name := store_msg data msgID st]> σ)).

Definition dropped (name : string) (seq : Z) (σ σ' : jstore) : Prop :=
  ∃ st, σ !! name = Some st ∧ σ' = <[name := drop_msg seq st]> σ.

(** [call_sem c σ x σ']: the call may answer [x] and leave [σ']. *)
Definition call_sem {X} (c : jcall X) (σ : jstore) : X → jstore → Prop :=
  match c in jcall X return X → jstore → Prop with
  | EnsureStream name subject => λ e σ',
      ensured name subject σ σ' ∨ (e ≠ None ∧ σ' = σ)
  | Publish subject data msgID => λ e σ',
      published subject data msgID σ σ' ∨ (e ≠ None ∧ σ' = σ)
  | OpenStream name => λ e σ', σ' = σ ∧ (e = None → is_Some (σ !! name))
  | Info name => λ x σ', σ' = σ ∧
      match x with
      | inr (first, last) => ∃ st, σ !! name = Some st ∧ last = st_last st ∧
          0 ≤ first < two64 ∧ 0 ≤ last < two64 ∧
          ∀ seq, is_Some (st_msgs st !! seq) → 0 < first ∧ first ≤ seq ≤ last
      | inl _ => True
      end
  | GetMsg name seq => λ x σ', σ' = σ ∧
      match x with
      | inr data => ∃ st, σ !! name = Some st ∧ st_msgs st !! seq = Some data
      | inl ErrMsgNotFound => ∀ st, σ !! name = Some st → st_msgs st !! seq = None
      | inl _ => True
      end
  | DeleteMsg name seq => λ e σ',
      match e with
      | None => dropped name seq σ σ' ∧ ∃ st, σ !! name = Some st ∧ is_Some (st_msgs st !! seq)
      | Some (ErrServer _) => σ' = σ ∨ dropped name seq σ σ'
      | Some _ => σ' = σ
      end
  | Ack d => λ _ σ', σ' = σ ∨ dropped (d_stream d) (d_seq d) σ σ'
  | Term d => λ _ σ', σ' = σ ∨ dropped (d_stream d) (d_seq d) σ σ'
  | Nak _ | NakWithDelay _ _ | EnsureConsumer _ _ _ _ _ => λ _ σ', σ' = σ
  end.

(** As time passes message IDs leave the duplicate window; nothing else
    happens to the streams, which have no limits. *)
Definition elapsed (σ σ' : jstore) : Prop :=
  ∀ n, match σ !! n, σ' !! n with
       | Some st, Some st' => st_subject st' = st_subject st ∧ st_msgs st' = st_msgs st ∧
                              st_last st' = st_last st ∧ st_ids st' ⊆ st_ids st
       | None, None => True
       | _, _ => False
       end.

Class JetStream (J : Type) := {
  js_store : J → jstore;
  js_call {X} : jcall X → J → X * J;
  js_elapse : duration → J → J
}.

Class JetStreamLaws (J : Type) `{JetStream J} := {
  js_call_ok {X} (c : jcall X) (j : J) :
    call_sem c (js_store j) (js_call c j).1 (js_store (js_call c j).2);
  js_elapse_ok d (j : J) : elapsed (js_store j) (js_store (js_elapse d j))
}.

(** Sequence numbers start at 1. *)
Definition numbered (st : stream) : Prop :=
  0 ≤ st_last st < two64 ∧ map_Forall (λ seq _, 1 ≤ seq ≤ st_last st) (st_msgs st).

#[export] Instance numbered_dec st : Decision (numbered st).
Proof. unfold numbered. apply _. Defined.

(** A healthy server: a call is answered without an error where it can be, and
    an acknowledgement is not lost. *)
Definition call_answered {X} (c : jcall X) (σ : jstore) : X → jstore → Prop :=
  match c in jcall X return X → jstore → Prop with
  | EnsureStream _ _ => λ e _, e = None
  | Publish subject _ _ => λ e _, (∃ n st, σ !! n = Some st ∧ st_subject st = subject) → e = None
  | OpenStream name => λ e _, is_Some (σ !! name) → e = None
  | Info name => λ x _, ∀ st, σ !! name = Some st → numbered st → ∃ p, x = inr p
  | GetMsg name seq => λ x _, is_Some (σ !! name) → x = inl ErrMsgNotFound ∨ ∃ data, x = inr data
  | DeleteMsg name seq => λ e _,
      ∀ st, σ !! name = Some st → is_Some (st_msgs st !! seq) → e = None
  | Ack d => λ e σ', is_Some (σ !! d_stream d) → e = None ∧ dropped (d_stream d) (d_seq d) σ σ'
  | Term d => λ e σ', is_Some (σ !! d_stream d) → e = None ∧ dropped (d_stream d) (d_seq d) σ σ'
  | Nak _ | NakWithDelay _ _ | EnsureConsumer _ _ _ _ _ => λ e _, e = None
  end.

Class JetStreamHealthy (J : Type) `{JetStream J} := {
  js_answered {X} (c : jcall X) (j : J) :
    call_answered c (js_store j) (js_call c j).1 (js_store (js_call c j).2)
}.

(** ** Task messages *)

(** [encoding/json] on a [Task]: [wire t] is what a marshalled [t] reads back
    as. The package replaces what is not valid UTF-8 in a string, so the
    identifier comes back when it is [json_string]. *)
Class TaskJson := {
  MarshalTask : Task → string + list byte;
  UnmarshalTask : list byte → string + Task
}.

Class TaskJsonLaws `{TaskJson} := {
  json_string : string → Prop;
  wire : Task → Task;
  Unmarshal_MarshalTask t data : MarshalTask t = inr data → UnmarshalTask data = inr (wire t);
  wire_ID t : json_string (ID t) → ID (wire t) = ID t;
  wire_Attempts t : Attempts (wire t) = Attempts t;
  wire_MaxRetries t : MaxRetries (wire t) = MaxRetries t
}.

(** ** Programs *)

(** The calls of a program: the clock, the server, the process's cache of
    provisioned queues under its mutex, and a handler, which leaves its writes
    in the task it was given. *)
Inductive neff : Type → Type :=
  | NNow : neff time
  | NCall {X} (c : jcall X) : neff X
  | NCache {X} (f : gset string → X * gset string) : neff X
  | NInvoke (t : Task) : neff (Task * option string).

Abbreviation nprogram := (prog neff).

Definition jnow : nprogram time := trigger NNow.
Definition jdo {X} (c : jcall X) : nprogram X := trigger (NCall c).
Definition jcache {X} (f : gset string → X * gset string) : nprogram X := trigger (NCache f).
Definition jinvoke (t : Task) : nprogram (Task * option string) := trigger (NInvoke t).

(** One process alone, with the clock readings given in advance. *)
Record nworld (J : Type) := mkNWorld { nw_js : J; nw_cache : gset string; nw_clock : list time }.

Arguments mkNWorld {J} _ _ _.
Arguments nw_js {J} _.
Arguments nw_cache {J} _.
Arguments nw_clock {J} _.

Definition neff_exec {J} `{JetStream J} (h : Handler) (X : Type) (e : neff X) (w : nworld J) :
    option (X * nworld J) :=
  match e in neff X return option (X * nworld J) with
  | NNow => match nw_clock w with
            | t :: ts => Some (t, mkNWorld (nw_js w) (nw_cache w) ts)
            | [] => None
            end
  | NCall c => let '(x, j) := js_call c (nw_js w) in Some (x, mkNWorld j (nw_cache w) (nw_clock w))
  | NCache f => let '(x, c) := f (nw_cache w) in Some (x, mkNWorld (nw_js w) c (nw_clock w))
  | NInvoke t => Some (invokeHandler h t, w)
  end.

Definition run_nprogram {J} `{JetStream J} (h : Handler) {A} (p : nprogram A) (w : nworld J) :
    option (A * nworld J) := interp (neff_exec h) p w.
