(* ===== verification/Nats.v ===== *)
(** * The JetStream backend: src/nats_workqueue/workqueue.go

    Each queue is a work-queue stream and a dead-letter stream. The methods and
    the processing of one delivery are programs over the calls of [JetStream];
    a failed attempt is published again with its counter incremented before
    the original message is acknowledged. Logging and the in-progress
    heartbeats, which only prolong the server's deadline, are left out. *)

From stdpp Require Import base tactics list numbers option gmap strings pretty.
From Stdlib Require Import Strings.Byte Ascii.
From S2P Require Import Prelude GoRuntime Contract Options Effects JetStream.

Module Nats.

(** ** Configuration *)

Definition DefaultStreamPrefix : string := "WORKQUEUE".
Definition DefaultSubjectPrefix : string := "workqueue".
Definition DefaultAckWait : duration := 30 * Second.

Record Config := mkConfig {
  StreamPrefix : string;
  SubjectPrefix : string;
  Replicas : Z;
  AckWait : duration
}.

Definition withDefaults (c : Config) : Config :=
  let c := if decide (StreamPrefix c = "")
           then mkConfig DefaultStreamPrefix (SubjectPrefix c) (Replicas c) (AckWait c) else c in
  let c := if decide (SubjectPrefix c = "")
           then mkConfig (StreamPrefix c) DefaultSubjectPrefix (Replicas c) (AckWait c) else c in
  if decide (AckWait c ≤ 0)
  then mkConfig (StreamPrefix c) (SubjectPrefix c) (Replicas c) DefaultAckWait else c.

(** [started]: the JetStream handle is resolved. The cache [ensured] is the
    state the programs reach by [jcache]. *)
Record NATSWorkQueue := mkQueue { started : bool; config : Config }.

Definition New (js : bool) (c : Config) : NATSWorkQueue := mkQueue js (withDefaults c).

Definition ready (q : NATSWorkQueue) : option Err :=
  if started q then None else Some errNotStarted.

(** ** Names *)

(** The characters [validateQueue] refuses: . * > space / \ tab newline. *)
Definition forbidden (c : ascii) : bool :=
  bool_decide (nat_of_ascii c ∈ [46; 42; 62; 32; 47; 92; 9; 10]%nat).

Fixpoint ContainsAny (s : string) : bool :=
  match s with
  | EmptyString => false
  | String c s => forbidden c || ContainsAny s
  end.

Definition validateQueue (queue : string) : option Err :=
  if bool_decide (queue = "") || ContainsAny queue then Some (ErrInvalidQueueName queue) else None.

Definition streamName (q : NATSWorkQueue) (queue : string) : string :=
  StreamPrefix (config q) +:+ "_" +:+ queue.

Definition dlqStreamName (q : NATSWorkQueue) (queue : string) : string :=
  StreamPrefix (config q) +:+ "_" +:+ queue +:+ "_DLQ".

Definition tasksSubject (q : NATSWorkQueue) (queue : string) : string :=
  SubjectPrefix (config q) +:+ "." +:+ queue +:+ ".tasks".

Definition deadSubject (q : NATSWorkQueue) (queue : string) : string :=
  SubjectPrefix (config q) +:+ "." +:+ queue +:+ ".dead".

Definition consumerName (q : NATSWorkQueue) (queue : string) : string :=
  StreamPrefix (config q) +:+ "_" +:+ queue +:+ "_workers".

(** ** Provisioning *)

Definition ensureQueue (q : NATSWorkQueue) (queue : string) : nprogram (option Err) :=
  match validateQueue queue with
  | Some e => mret (Some e)
  | None =>
      ok ← jcache (λ c, (bool_decide (queue ∈ c), c));
      if (ok : bool) then mret None
      else
        err ← jdo (EnsureStream (streamName q queue) (tasksSubject q queue));
        match err with
        | Some e => mret (Some (ErrStorage ("ensure tasks stream: " +:+ e)))
        | None =>
            err ← jdo (EnsureStream (dlqStreamName q queue) (deadSubject q queue));
            match err with
            | Some e => mret (Some (ErrStorage ("ensure dead-letter stream: " +:+ e)))
            | None => _ ← jcache (λ c, (tt, {[queue]} ∪ c)); mret None
            end
        end
  end.

(** ** Publishing *)

Definition publishTask `{TaskJson} (subject : string) (task : Task) (msgID : string) :
    nprogram (option string) :=
  match MarshalTask task with
  | inl e => mret (Some e)
  | inr data => jdo (Publish subject data msgID)
  end.

(** [fmt.Sprintf("wq:%s:%d", taskID, attempts)] *)
Definition attemptMsgID (taskID : string) (attempts : Z) : string :=
  "wq:" +:+ taskID +:+ ":" +:+ pretty attempts.

Definition new_task (now : time) (uuid queue : string) (payload : bytes) (o : EnqueueOptions) : Task :=
  mkTask uuid queue payload (eo_Metadata o) 0 (eo_MaxRetries o) now (ResolveRunAt o now) "" zeroTime.

Definition Enqueue `{TaskJson} (q : NATSWorkQueue) (uuid queue : string) (payload : bytes)
    (opts : list EnqueueOption) : nprogram (Err + Task) :=
  match ready q with
  | Some e => mret (inl e)
  | None =>
      err ← ensureQueue q queue;
      match err with
      | Some e => mret (inl e)
      | None =>
          let o := NewEnqueueOptions opts in
          t ← jnow;
          let task := new_task t uuid queue payload o in
          err ← publishTask (tasksSubject q queue) task (attemptMsgID (ID task) 0);
          match err with
          | Some e => mret (inl (ErrStorage e))
          | None => mret (inr task)
          end
      end
  end.

(** ** Consuming *)

(** [Consume] up to the registration of its callback. *)
Definition Consume_setup (q : NATSWorkQueue) (queue : string) (o : ConsumeOptions) :
    nprogram (option Err) :=
  match ready q with
  | Some e => mret (Some e)
  | None =>
      err ← ensureQueue q queue;
      match err with
      | Some e => mret (Some e)
      | None =>
          err ← jdo (EnsureConsumer (streamName q queue) (consumerName q queue)
                       (tasksSubject q queue) (AckWait (config q)) (Concurrency o));
          match err with
          | Some e => mret (Some (ErrStorage ("ensure consumer: " +:+ e)))
          | None => mret None
          end
      end
  end.

(** The message of a task whose handler failed: where it goes, the task, and
    the message ID. *)
Definition handoff `{TaskJson} (q : NATSWorkQueue) (queue : string) (o : ConsumeOptions)
    (e : string) (task : Task) : nprogram (option string) :=
  if decide (MaxRetries task < Attempts task) then
    let task := set_LastError e task in
    t ← jnow;
    publishTask (deadSubject q queue) (set_DiedAt t task) ""
  else
    let task := set_LastError e task in
    t ← jnow;
    let d := default 0 (RetryBackoff (BackoffBase o) (BackoffMax o) (Attempts task)) in
    let task := set_RunAt (time_Add t d) task in
    publishTask (tasksSubject q queue) task (attemptMsgID (ID task) (Attempts task)).

Definition handleMsg `{TaskJson} (q : NATSWorkQueue) (d : delivery) (data : list byte)
    (queue : string) (o : ConsumeOptions) : nprogram unit :=
  match UnmarshalTask data with
  | inl _ => _ ← jdo (Term d); mret tt
  | inr task =>
      t ← jnow;
      let wait := time_Until t (RunAt task) in
      if decide (0 < wait) then _ ← jdo (NakWithDelay d wait); mret tt
      else
        '(task, handlerErr) ← jinvoke (incr_Attempts task);
        match handlerErr with
        | None => _ ← jdo (Ack d); mret tt
        | Some e =>
            err ← handoff q queue o e task;
            match err with
            | Some _ => mret tt
            | None => _ ← jdo (Ack d); mret tt
            end
        end
  end.

(** ** Dead letters *)

Record deadEntry := mkEntry { e_task : Task; e_seq : Z }.

(** [for seq := first; seq <= last && seq > 0; seq++] on [uint64], where [fn]
    says whether to go on; [None] when the fuel does not suffice. *)
Fixpoint scan_loop `{TaskJson} {S} (fuel : nat) (name : string) (fn : deadEntry → S → bool * S)
    (seq last : Z) (s : S) : nprogram (option (Err + S)) :=
  match fuel with
  | O => mret None
  | S fuel =>
      if decide (seq ≤ last ∧ 0 < seq) then
        raw ← jdo (GetMsg name seq);
        match raw with
        | inl ErrMsgNotFound => scan_loop fuel name fn (wrapu64 (seq + 1)) last s
        | inl ErrMsgDeleteUnsuccessful => mret (Some (inl (ErrStorage "message delete unsuccessful")))
        | inl (ErrServer e) => mret (Some (inl (ErrStorage e)))
        | inr data =>
            match UnmarshalTask data with
            | inl _ => scan_loop fuel name fn (wrapu64 (seq + 1)) last s
            | inr task =>
                let '(more, s) := fn (mkEntry task seq) s in
                if (more : bool) then scan_loop fuel name fn (wrapu64 (seq + 1)) last s
                else mret (Some (inr s))
            end
        end
      else mret (Some (inr s))
  end.

Definition scan_fuel (first last : Z) : nat := S (Z.to_nat (last - first + 1)).

#[global] Arguments scan_fuel _ _ : simpl never.

Definition scanDeadTasks `{TaskJson} {S} (q : NATSWorkQueue) (queue : string)
    (fn : deadEntry → S → bool * S) (s : S) : nprogram (option (Err + S)) :=
  err ← ensureQueue q queue;
  match err with
  | Some e => mret (Some (inl e))
  | None =>
      err ← jdo (OpenStream (dlqStreamName q queue));
      match err with
      | Some e => mret (Some (inl (ErrStorage e)))
      | None =>
          info ← jdo (Info (dlqStreamName q queue));
          match info with
          | inl e => mret (Some (inl (ErrStorage e)))
          | inr (first, last) =>
              scan_loop (scan_fuel first last) (dlqStreamName q queue) fn first last s
          end
      end
  end.

(** The closure of [ListDeadTasks] over [skipped] and [out]. *)
Definition list_fn (limit offset : Z) (e : deadEntry) (s : Z * list Task) : bool * (Z * list Task) :=
  let '(skipped, out) := s in
  if decide (skipped < offset) then (true, (skipped + 1, out))
  else let out := out ++ [e_task e] in
       (bool_decide (limit ≤ 0) || bool_decide (Z.of_nat (length out) < limit), (skipped, out)).

Definition ListDeadTasks `{TaskJson} (q : NATSWorkQueue) (queue : string) (limit offset : Z) :
    nprogram (option (Err + list Task)) :=
  match ready q with
  | Some e => mret (Some (inl e))
  | None =>
      let offset := if decide (offset < 0) then 0 else offset in
      res ← scanDeadTasks q queue (list_fn limit offset) (0, []);
      match res with
      | None => mret None
      | Some (inl e) => mret (Some (inl e))
      | Some (inr (_, out)) => mret (Some (inr out))
      end
  end.

Definition find_fn (taskID : string) (e : deadEntry) (s : option deadEntry) :
    bool * option deadEntry :=
  if decide (ID (e_task e) = taskID) then (false, Some e) else (true, s).

Definition findDeadTask `{TaskJson} (q : NATSWorkQueue) (queue taskID : string) :
    nprogram (option (Err + deadEntry)) :=
  res ← scanDeadTasks q queue (find_fn taskID) None;
  match res with
  | None => mret None
  | Some (inl e) => mret (Some (inl e))
  | Some (inr None) => mret (Some (inl ErrTaskNotFound))
  | Some (inr (Some e)) => mret (Some (inr e))
  end.

Definition deleteDeadSeq (q : NATSWorkQueue) (queue : string) (seq : Z) : nprogram (option Err) :=
  err ← jdo (OpenStream (dlqStreamName q queue));
  match err with
  | Some e => mret (Some (ErrStorage e))
  | None =>
      err ← jdo (DeleteMsg (dlqStreamName q queue) seq);
      match err with
      | None => mret None
      | Some (ErrServer e) => mret (Some (ErrStorage e))
      | Some ErrMsgNotFound | Some ErrMsgDeleteUnsuccessful => mret (Some ErrTaskNotFound)
      end
  end.

Definition revived (now : time) (t : Task) : Task :=
  set_RunAt now (set_DiedAt zeroTime (set_LastError "" (set_Attempts 0 t))).

Definition RequeueDeadTask `{TaskJson} (q : NATSWorkQueue) (queue taskID : string) :
    nprogram (option (option Err)) :=
  match ready q with
  | Some e => mret (Some (Some e))
  | None =>
      res ← findDeadTask q queue taskID;
      match res with
      | None => mret None
      | Some (inl e) => mret (Some (Some e))
      | Some (inr entry) =>
          t ← jnow;
          err ← publishTask (tasksSubject q queue) (revived t (e_task entry)) "";
          match err with
          | Some e => mret (Some (Some (ErrStorage e)))
          | None => err ← deleteDeadSeq q queue (e_seq entry); mret (Some err)
          end
      end
  end.

Definition DeleteDeadTask `{TaskJson} (q : NATSWorkQueue) (queue taskID : string) :
    nprogram (option (option Err)) :=
  match ready q with
  | Some e => mret (Some (Some e))
  | None =>
      res ← findDeadTask q queue taskID;
      match res with
      | None => mret None
      | Some (inl e) => mret (Some (Some e))
      | Some (inr entry) => err ← deleteDeadSeq q queue (e_seq entry); mret (Some err)
      end
  end.

End Nats.
