(* ===== verification/NatsNames.v ===== *)
(** * Names of the JetStream backend

    Streams, subjects and message IDs as functions of the queue, the task and
    the attempt: which ones can clash. *)

From stdpp Require Import base tactics list numbers option strings pretty.
From Stdlib Require Import Strings.Byte Ascii.
From S2P Require Import Prelude GoRuntime Contract Options Effects JetStream Nats.

Import Nats.

(** ** Decimal numbers have no colon *)

Fixpoint no_colon (s : string) : bool :=
  match s with
  | EmptyString => true
  | String c s => negb (bool_decide (c = ":"%char)) && no_colon s
  end.

Lemma no_colon_digit x : pretty_N_char x ≠ ":"%char.
Proof. unfold pretty_N_char. by repeat case_match. Qed.

Lemma no_colon_N_go x : ∀ s, no_colon s = true → no_colon (pretty_N_go x s) = true.
Proof.
  induction (N.lt_wf_0 x) as [x _ IH]; intros s Hs.
  assert (x = 0 ∨ 0 < x)%N as [->|Hx] by lia; [by rewrite pretty_N_go_0|].
  rewrite pretty_N_go_step by done. apply IH; [by apply N.div_lt|].
  simpl. by rewrite bool_decide_eq_false_2 by apply no_colon_digit.
Qed.

Lemma no_colon_N (x : N) : no_colon (pretty x) = true.
Proof. unfold pretty, pretty_N. case_decide; [done|]. by apply no_colon_N_go. Qed.

Lemma no_colon_Z (z : Z) : no_colon (pretty z) = true.
Proof.
  destruct z as [|p|p]; [done|apply (no_colon_N (Npos p))|].
  change (pretty (Zneg p)) with (String "-"%char (pretty (Npos p))). simpl. apply no_colon_N.
Qed.

(** The part after the last colon. *)
Lemma split_last_colon a b s t :
  no_colon s = true → no_colon t = true →
  a +:+ String ":" s = b +:+ String ":" t → a = b ∧ s = t.
Proof.
  revert b. induction a as [|c a IH]; intros [|c' b] Hs Ht Heq.
  - by injection Heq as ->.
  - injection Heq as <- ->. exfalso. clear -Hs. induction b as [|c b IH]; simpl in Hs; [done|].
    apply andb_true_iff in Hs as [_ Hs]. auto.
  - injection Heq as -> <-. exfalso. clear -Ht. induction a as [|c a IH]; simpl in Ht; [done|].
    apply andb_true_iff in Ht as [_ Ht]. auto.
  - injection Heq as -> Heq. by destruct (IH b Hs Ht Heq) as [-> ->].
Qed.

Lemma attemptMsgID_inj i j n m : attemptMsgID i n = attemptMsgID j m → i = j ∧ n = m.
Proof.
  unfold attemptMsgID. intros Heq. apply string_append_inj_l in Heq.
  apply split_last_colon in Heq as [-> Hn]; auto using no_colon_Z. split; [done|].
  by apply (inj pretty).
Qed.

Lemma attemptMsgID_nonempty i n : attemptMsgID i n ≠ "".
Proof. done. Qed.

(** ** Streams and subjects *)

Section names.
Context (q : NATSWorkQueue).

Lemma streamName_inj a b : streamName q a = streamName q b → a = b.
Proof. unfold streamName. intros Heq. by do 2 apply string_append_inj_l in Heq. Qed.

Lemma dlqStreamName_streamName a : dlqStreamName q a = streamName q (a +:+ "_DLQ").
Proof. done. Qed.

Lemma dlqStreamName_inj a b : dlqStreamName q a = dlqStreamName q b → a = b.
Proof. rewrite !dlqStreamName_streamName. intros Heq%streamName_inj. by eapply string_append_inj_r. Qed.

Lemma tasksSubject_inj a b : tasksSubject q a = tasksSubject q b → a = b.
Proof.
  unfold tasksSubject. intros Heq. do 2 apply string_append_inj_l in Heq.
  by eapply string_append_inj_r.
Qed.

Lemma deadSubject_inj a b : deadSubject q a = deadSubject q b → a = b.
Proof.
  unfold deadSubject. intros Heq. do 2 apply string_append_inj_l in Heq.
  by eapply string_append_inj_r.
Qed.

(** ".tasks" and ".dead" do not end alike. *)
Lemma suffix_differ a b s t c d :
  a +:+ s = b +:+ t → (∀ u, String.get (String.length u + String.length s - 1) (u +:+ s) = Some c) →
  (∀ u, String.get (String.length u + String.length t - 1) (u +:+ t) = Some d) → c = d.
Proof.
  intros Heq Hs Ht. pose proof (f_equal String.length Heq) as Hlen.
  rewrite !string_length_append in Hlen. specialize (Hs a). specialize (Ht b).
  rewrite Hlen, Heq in Hs. congruence.
Qed.

Lemma get_last u s c n :
  String.length s = S n → String.get n s = Some c →
  String.get (String.length u + String.length s - 1) (u +:+ s) = Some c.
Proof.
  intros Hlen Hget. rewrite Hlen. induction u as [|x u IH]; simpl.
  - by rewrite Nat.sub_0_r.
  - rewrite Nat.sub_0_r. replace (String.length u + S n)%nat with (S (String.length u + S n - 1))%nat by lia.
    exact IH.
Qed.

Lemma tasksSubject_deadSubject a b : tasksSubject q a ≠ deadSubject q b.
Proof.
  intros Heq. unfold tasksSubject, deadSubject in Heq. do 2 apply string_append_inj_l in Heq.
  assert ("s"%char = "d"%char) as Hc; [|done].
  eapply (suffix_differ a b ".tasks" ".dead"); [exact Heq| |]; intros u; by eapply get_last.
Qed.

(** C35. Subjects of different queues, and the two subjects of one, never clash, nor
    do the message IDs of different attempts or tasks; but the stream of one
    queue can be the dead-letter stream of another: exactly when its name is
    the other's with _DLQ appended, and such a name is valid. *)
Theorem nats_names a b i j n m :
  (tasksSubject q a = tasksSubject q b ↔ a = b) ∧ (deadSubject q a = deadSubject q b ↔ a = b) ∧
  tasksSubject q a ≠ deadSubject q b ∧
  (streamName q a = streamName q b ↔ a = b) ∧ (dlqStreamName q a = dlqStreamName q b ↔ a = b) ∧
  (attemptMsgID i n = attemptMsgID j m ↔ i = j ∧ n = m) ∧
  (streamName q a = dlqStreamName q b ↔ a = b +:+ "_DLQ") ∧
  (validateQueue b = None → validateQueue (b +:+ "_DLQ") = None).
Proof.
  split_and!.
  - split; [apply tasksSubject_inj|by intros ->].
  - split; [apply deadSubject_inj|by intros ->].
  - apply tasksSubject_deadSubject.
  - split; [apply streamName_inj|by intros ->].
  - split; [apply dlqStreamName_inj|by intros ->].
  - split; [apply attemptMsgID_inj|by intros [-> ->]].
  - rewrite dlqStreamName_streamName. split; [apply streamName_inj|by intros ->].
  - unfold validateQueue. destruct (bool_decide (b = "") || ContainsAny b) eqn:E; [done|]. intros _.
    apply orb_false_iff in E as [_ E].
    assert (ContainsAny (b +:+ "_DLQ") = false) as ->.
    { clear -E. induction b as [|c b IH]; simpl; [by vm_compute|].
      simpl in E. apply orb_false_iff in E as [-> E]. simpl. auto. }
    rewrite bool_decide_eq_false_2; [done|]. by destruct b.
Qed.
End names.

Lemma nats_names_witness :
  let q := New true (mkConfig "" "" 0 0) in
  tasksSubject q "a" ≠ deadSubject q "b" ∧ streamName q "a_DLQ" = dlqStreamName q "a" ∧
  validateQueue "a_DLQ" = None.
Proof.
  destruct (nats_names (New true (mkConfig "" "" 0 0)) "a" "b" "" "" 0 0) as (_ & _ & Hs & _).
  destruct (nats_names (New true (mkConfig "" "" 0 0)) "a_DLQ" "a" "" "" 0 0)
    as (_ & _ & _ & _ & _ & _ & Hn & Hv).
  split_and!; [exact Hs|by apply Hn|]. apply Hv. by vm_compute.
Defined.
