(* ===== verification/NatsLegal.v ===== *)
(** * What a program of the JetStream backend may do

    The discipline that keeps tasks from being lost, as a predicate on
    programs: a message is acknowledged or deleted only once its successor was
    published or its handler returned nil, and the successor is the same task
    with a later attempt, a dead letter, or, from a dead letter, the task with
    its attempts reset. [nlegal] says this of a program whatever it is
    answered; every program of [Nats] is legal. *)

From stdpp Require Import base tactics list numbers option gmap strings pretty.
From Stdlib Require Import Strings.Byte Ascii.
From S2P Require Import Prelude GoRuntime Contract Options Effects JetStream Nats.

Import Nats.

(** ** Permissions *)

(** What a program holds: the identifier it may create a task with, the message
    it was delivered or read last, with its task, and whether it may drop it. *)
Record nperm := mkNPerm {
  np_create : option string;
  np_source : option (string * Z * Task);
  np_free : bool
}.

(** The tasks the streams hold. *)
Definition task_ok (t : Task) : Prop := 0 ≤ MaxRetries t < max_int64.

Definition live_task (t : Task) : Prop := task_ok t ∧ 0 ≤ Attempts t ≤ MaxRetries t.

(** A handler is given the very task that is published again when it fails. What
    it writes there keeps the task when it is still the same one, its counter
    has not gone back, and its budget is one. *)
Definition keeps_key (t t' : Task) : Prop := ID t' = ID t ∧ Attempts t ≤ Attempts t' ∧ task_ok t'.

#[export] Instance keeps_key_dec t t' : Decision (keeps_key t t').
Proof. unfold keeps_key, task_ok. apply _. Defined.

Section legal.
Context `{TaskJsonLaws} (q : NATSWorkQueue) (queue : string).

(** The successor [t], with message ID [msgID], of the message [t0] of stream
    [name]. *)
Inductive successor (name : string) (t0 t : Task) : string → string → Prop :=
  | succ_retry : name = streamName q queue → Attempts t0 < Attempts t →
      Attempts t ≤ MaxRetries t →
      successor name t0 t (tasksSubject q queue) (attemptMsgID (ID t) (Attempts t))
  | succ_dead : name = streamName q queue → successor name t0 t (deadSubject q queue) ""
  | succ_requeue : name = dlqStreamName q queue → Attempts t = 0 →
      successor name t0 t (tasksSubject q queue) "".

Definition publish_ok (π : nperm) (subject : string) (data : list byte) (msgID : string) : Prop :=
  ∃ t, MarshalTask t = inr data ∧ json_string (ID t) ∧ task_ok t ∧
    match np_source π with
    | None => np_create π = Some (ID t) ∧ subject = tasksSubject q queue ∧ Attempts t = 0 ∧
              msgID = attemptMsgID (ID t) 0
    | Some (name, _, t0) => ID t = ID t0 ∧ successor name t0 t subject msgID
    end.

Definition call_legal (may_delete : bool) (π : nperm) {X} (c : jcall X) : Prop :=
  match c with
  | EnsureStream n s => (n = streamName q queue ∧ s = tasksSubject q queue) ∨
                        (n = dlqStreamName q queue ∧ s = deadSubject q queue)
  | Publish subject data msgID => publish_ok π subject data msgID
  | GetMsg n _ => n = dlqStreamName q queue
  | DeleteMsg n seq => ∃ t, np_source π = Some (n, seq, t) ∧ (np_free π = true ∨ may_delete = true)
  | Ack d => ∃ t, np_source π = Some (d_stream d, d_seq d, t) ∧ np_free π = true
  | Term _ => False
  | _ => True
  end.

Definition eff_legal (may_delete : bool) (π : nperm) {X} (e : neff X) : Prop :=
  match e with
  | NCall c => call_legal may_delete π c
  | NInvoke t => ∃ n seq t0, np_source π = Some (n, seq, t0) ∧ ID t = ID t0
  | _ => True
  end.

(** What is known of an answer: the messages are tasks of the backend, and a
    handler that fails leaves the task it was given. *)
Definition call_answer_ok {X} (c : jcall X) : X → Prop :=
  match c in jcall X return X → Prop with
  | GetMsg _ _ => λ x,
      match x with
      | inr data => ∀ t, UnmarshalTask data = inr t → json_string (ID t) ∧ task_ok t
      | inl _ => True
      end
  | _ => λ _, True
  end.

Definition answer_ok {X} (e : neff X) : X → Prop :=
  match e in neff X return X → Prop with
  | NCall c => call_answer_ok c
  | NInvoke t => λ x, is_Some x.2 → keeps_key t x.1
  | _ => λ _, True
  end.

Definition call_perm (π : nperm) {X} (c : jcall X) : X → nperm :=
  match c in jcall X return X → nperm with
  | GetMsg n seq => λ x,
      match x with
      | inr data => match UnmarshalTask data with
                    | inr t => mkNPerm (np_create π) (Some (n, seq, t)) false
                    | inl _ => π
                    end
      | inl _ => π
      end
  | Publish _ _ _ => λ e,
      match e with
      | None => mkNPerm None (np_source π) true
      | Some _ => mkNPerm None (np_source π) (np_free π)
      end
  | _ => λ _, π
  end.

Definition next_perm (π : nperm) {X} (e : neff X) : X → nperm :=
  match e in neff X return X → nperm with
  | NCall c => call_perm π c
  | NInvoke _ => λ x, match x.2 with
                      | None => mkNPerm (np_create π) (np_source π) true
                      | Some _ => π
                      end
  | _ => λ _, π
  end.

Fixpoint nlegal {A} (may_delete : bool) (π : nperm) (p : nprogram A) : Prop :=
  match p with
  | Ret _ => True
  | Do e k => eff_legal may_delete π e ∧
              ∀ x, answer_ok e x → nlegal may_delete (next_perm π e x) (k x)
  end.

Lemma nlegal_assoc {A B C} b (p : nprogram A) (f : A → nprogram B) (k : B → nprogram C) : ∀ π,
  nlegal b π (p ≫= λ a, f a ≫= k) → nlegal b π ((p ≫= f) ≫= k).
Proof.
  induction p as [a|X e g IH]; intros π; simpl; [done|].
  intros [He Hk]. split; [done|]. intros x Hx. apply IH. by apply Hk.
Qed.

Lemma nlegal_bind_ret {A} b (p : nprogram A) : ∀ π, nlegal b π (p ≫= mret) → nlegal b π p.
Proof.
  induction p as [a|X e k IH]; intros π; simpl; [done|].
  intros [He Hk]. split; [done|]. intros x Hx. apply IH. by apply Hk.
Qed.

Lemma nlegal_now {A} b π (k : time → nprogram A) :
  (∀ t, nlegal b π (k t)) → nlegal b π (jnow ≫= k).
Proof. split; simpl; auto. Qed.

Lemma nlegal_cache {A X} b π (f : gset string → X * gset string) (k : X → nprogram A) :
  (∀ x, nlegal b π (k x)) → nlegal b π (jcache f ≫= k).
Proof. split; simpl; auto. Qed.

(** A call that needs no permission and changes none. *)
Lemma nlegal_do {A X} b π (c : jcall X) (k : X → nprogram A) :
  call_legal b π c → (∀ x, call_perm π c x = π) → (∀ x, nlegal b π (k x)) →
  nlegal b π (jdo c ≫= k).
Proof. intros Hc Hπ Hk. split; [done|]. intros x _. simpl. rewrite Hπ. apply Hk. Qed.

(** ** The parts of the programs *)

Lemma ensureQueue_legal {A} b π (k : option Err → nprogram A) :
  (∀ e, nlegal b π (k e)) → nlegal b π (ensureQueue q queue ≫= k).
Proof.
  intros Hk. unfold ensureQueue. destruct (validateQueue queue); [apply Hk|].
  apply nlegal_cache. intros ok. simpl. destruct ok; [apply Hk|].
  split; [by left|]. intros [e|] _; simpl; [apply Hk|].
  split; [by right|]. intros [e|] _; simpl; [apply Hk|].
  split; [done|]. intros [] _. simpl. apply Hk.
Qed.

Lemma publishTask_legal {A} b π subject t msgID (k : option string → nprogram A) :
  (∀ data, MarshalTask t = inr data → publish_ok π subject data msgID) →
  (∀ e free, (free = true → np_free π = true) →
     nlegal b (mkNPerm None (np_source π) free) (k (Some e))) →
  (∀ e, nlegal b π (k (Some e))) →
  nlegal b (mkNPerm None (np_source π) true) (k None) →
  nlegal b π (publishTask subject t msgID ≫= k).
Proof.
  intros Hp Herr Hmarshal Hok. unfold publishTask. destruct (MarshalTask t) as [e|data]; [apply Hmarshal|].
  split; [by apply Hp|]. intros [e|] _; simpl; [|done]. by apply Herr.
Qed.

(** The loop over the dead letters: [P] holds of the state while it goes on,
    [Q] when the callback stopped it. *)
Lemma scan_loop_legal {A S} b fn last (k : option (Err + S) → nprogram A)
    (P Q : S → nperm → Prop) fuel :
  (∀ s π seq t more s', P s π → json_string (ID t) → task_ok t → fn (mkEntry t seq) s = (more, s') →
     let π' := mkNPerm (np_create π) (Some (dlqStreamName q queue, seq, t)) false in
     if (more : bool) then P s' π' else Q s' π') →
  (∀ s π, P s π ∨ Q s π → nlegal b π (k (Some (inr s)))) →
  (∀ s π e, P s π → nlegal b π (k (Some (inl e)))) →
  (∀ s π, P s π → nlegal b π (k None)) →
  ∀ seq s π, P s π → nlegal b π (scan_loop fuel (dlqStreamName q queue) fn seq last s ≫= k).
Proof.
  intros Hfn Hend Herr Hnone. induction fuel as [|fuel IH]; intros seq s π Hs; simpl; [eauto|].
  case_decide; [|apply Hend; by left]. split; [done|]. intros [[]|data] Hans; simpl in *; eauto.
  destruct (UnmarshalTask data) as [e|t] eqn:Ht; [by apply IH|].
  destruct (Hans t eq_refl) as [Hid Hok]. destruct (fn (mkEntry t seq) s) as [more s'] eqn:Hmore.
  pose proof (Hfn s π seq t more s' Hs Hid Hok Hmore) as Hnext. destruct more; [by apply IH|].
  apply Hend. by right.
Qed.

Lemma scanDeadTasks_legal {A S} b π fn (s : S) (k : option (Err + S) → nprogram A)
    (P Q : S → nperm → Prop) :
  (∀ s π seq t more s', P s π → json_string (ID t) → task_ok t → fn (mkEntry t seq) s = (more, s') →
     let π' := mkNPerm (np_create π) (Some (dlqStreamName q queue, seq, t)) false in
     if (more : bool) then P s' π' else Q s' π') →
  (∀ s π, P s π ∨ Q s π → nlegal b π (k (Some (inr s)))) →
  (∀ s π e, P s π → nlegal b π (k (Some (inl e)))) →
  (∀ s π, P s π → nlegal b π (k None)) →
  P s π → nlegal b π (scanDeadTasks q queue fn s ≫= k).
Proof.
  intros Hfn Hend Herr Hnone Hs. unfold scanDeadTasks. apply nlegal_assoc, ensureQueue_legal.
  intros [e|]; [by eapply Herr|].
  apply nlegal_assoc, nlegal_do; [done|done|]. intros [e|]; [by eapply Herr|].
  apply nlegal_assoc, nlegal_do; [done|done|]. intros [e|[first last]]; [by eapply Herr|].
  by eapply scan_loop_legal.
Qed.

(** ** The methods *)

(** A new task is created with the identifier of the permission. *)
Lemma nats_Enqueue_legal b uuid payload opts :
  json_string uuid → eo_MaxRetries (NewEnqueueOptions opts) < max_int64 →
  nlegal b (mkNPerm (Some uuid) None false) (Enqueue q uuid queue payload opts).
Proof.
  intros Hid Hmax. unfold Enqueue. destruct (ready q); [done|].
  apply ensureQueue_legal. intros [e|]; [done|]. apply nlegal_now. intros t.
  apply publishTask_legal; try done.
  intros data Hdata. eexists. split_and!; [exact Hdata|done| |done..].
  split; [apply NewEnqueueOptions_nonneg|done].
Qed.

Lemma Consume_setup_legal b π o : nlegal b π (Consume_setup q queue o).
Proof.
  unfold Consume_setup. destruct (ready q); [done|].
  apply ensureQueue_legal. intros [e|]; [done|]. split; [done|]. by intros [e|] _.
Qed.

Lemma nats_ListDeadTasks_legal b π limit offset : nlegal b π (ListDeadTasks q queue limit offset).
Proof.
  unfold ListDeadTasks. destruct (ready q); [done|].
  apply (scanDeadTasks_legal _ _ _ _ _ (λ _ _, True) (λ _ _, True)); try done.
  - by intros s π' seq t [] s' _ _ _ _.
  - by intros [skipped out] π' _.
Qed.

(** The entry that was found is the message that was read last. *)
Definition holds_entry (create : option string) (π : nperm) (e : deadEntry) : Prop :=
  np_create π = create ∧ np_source π = Some (dlqStreamName q queue, e_seq e, e_task e) ∧
  json_string (ID (e_task e)) ∧ task_ok (e_task e).

Lemma findDeadTask_legal {A} b π taskID (k : option (Err + deadEntry) → nprogram A) :
  (∀ π' e, holds_entry (np_create π) π' e → nlegal b π' (k (Some (inr e)))) →
  (∀ π' e, nlegal b π' (k (Some (inl e)))) → (∀ π', nlegal b π' (k None)) →
  nlegal b π (findDeadTask q queue taskID ≫= k).
Proof.
  intros Hfound Herr Hnone. unfold findDeadTask. apply nlegal_assoc.
  apply (scanDeadTasks_legal _ _ _ _ _ (λ s π', s = None ∧ np_create π' = np_create π)
    (λ s π', ∃ e, s = Some e ∧ holds_entry (np_create π) π' e)); simpl; try done.
  - intros s π' seq t more s' [-> Hc] Hid Hok. unfold find_fn. simpl.
    case_decide; intros [= <- <-]; [|done]. eexists. split; [done|]. by split_and!.
  - intros s π' [[-> _]|(e & -> & He)]; simpl; auto.
Qed.

Lemma deleteDeadSeq_legal {A} b π seq t (k : option Err → nprogram A) :
  np_source π = Some (dlqStreamName q queue, seq, t) → np_free π = true ∨ b = true →
  (∀ e, nlegal b π (k e)) → nlegal b π (deleteDeadSeq q queue seq ≫= k).
Proof.
  intros Hs Hf Hk. unfold deleteDeadSeq. apply nlegal_assoc.
  split; [done|]. intros [e|] _; simpl; [apply Hk|].
  split; [by exists t|]. intros [[]|] _; simpl; apply Hk.
Qed.

Lemma nats_RequeueDeadTask_legal b π taskID : nlegal b π (RequeueDeadTask q queue taskID).
Proof.
  unfold RequeueDeadTask. destruct (ready q); [done|]. apply findDeadTask_legal; [|done..].
  intros π' e (_ & Hs & Hid & Hok). apply nlegal_now. intros t.
  apply publishTask_legal; [|done|done|].
  - intros data Hdata. exists (revived t (e_task e)). rewrite Hs.
    split_and!; [done|done|done|done|by apply succ_requeue].
  - eapply deleteDeadSeq_legal; [exact Hs|by left|done].
Qed.

Lemma nats_DeleteDeadTask_legal π taskID : nlegal true π (DeleteDeadTask q queue taskID).
Proof.
  unfold DeleteDeadTask. destruct (ready q); [done|]. apply findDeadTask_legal; [|done..].
  intros π' e (_ & Hs & _). eapply deleteDeadSeq_legal; [exact Hs|by right|done].
Qed.

(** ** One delivery *)

Lemma handoff_legal {A} b π seq t0 o e task (k : option string → nprogram A) :
  np_source π = Some (streamName q queue, seq, t0) → ID task = ID t0 → json_string (ID task) →
  Attempts t0 < Attempts task → task_ok task →
  (∀ e π', nlegal b π' (k (Some e))) →
  nlegal b (mkNPerm None (np_source π) true) (k None) →
  nlegal b π (handoff q queue o e task ≫= k).
Proof.
  intros Hs Hid Hjson Hatt Hok Herr Hk. unfold handoff. case_decide; apply nlegal_assoc, nlegal_now;
    intros t; apply publishTask_legal; auto; intros data Hdata;
    (eexists; split_and!; [exact Hdata|done|done|]); rewrite Hs; (split; [done|]).
  - by apply succ_dead.
  - apply succ_retry; [done|done|simpl; lia].
Qed.

(** A message of the queue's tasks stream is delivered. *)
Lemma handleMsg_legal b seq data t0 o :
  UnmarshalTask data = inr t0 → json_string (ID t0) → live_task t0 →
  let name := streamName q queue in
  nlegal b (mkNPerm None (Some (name, seq, t0)) false) (handleMsg q (mkDelivery name seq) data queue o).
Proof.
  intros Hdata Hid [Hok Hatt] name. unfold handleMsg. rewrite Hdata. apply nlegal_now. intros t.
  cbv zeta. case_decide; [by split|].
  split; [by exists name, seq, t0|]. intros [task err] Htask. simpl in Htask.
  destruct err as [e|]; simpl.
  - assert (Attempts (incr_Attempts t0) = Attempts t0 + 1) as Hincr.
    { simpl. apply wrap64_id. unfold in_int64, task_ok in *. lia. }
    destruct Htask as (HID & Hle & Htask); [done|]. simpl in HID.
    eapply handoff_legal; [done|done|by rewrite HID|lia|done|done|].
    split; [by exists t0|done].
  - split; [by exists t0|done].
Qed.
End legal.
