(* ===== verification/NatsSystem.v ===== *)
(** * The JetStream backend at work

    Processes that share one server: clients call the methods, and the server
    delivers the messages of the tasks streams, each as often and to whom it
    likes, so that expired deadlines, negative acknowledgements and competing
    consumers are all covered. A thread runs a program of [Nats]; an event takes
    one call of one thread, lets time pass, or kills a thread. *)

From stdpp Require Import base tactics list numbers option gmap strings.
From Stdlib Require Import Strings.Byte.
From S2P Require Import Prelude GoRuntime Contract Options Effects JetStream Nats NatsLegal.

Import Nats.

(** ** Calls and deliveries *)

Inductive nanswer :=
  | NTask (r : Err + Task)
  | NListed (r : option (Err + list Task))
  | NErr (r : option (option Err))
  | NDelivered.

Inductive ncall :=
  | NEnqueue (uuid queue : string) (payload : bytes) (opts : list EnqueueOption)
  | NConsume (queue : string) (opts : list ConsumeOption)
  | NList (queue : string) (limit offset : Z)
  | NRequeue (queue taskID : string)
  | NDelete (queue taskID : string).

Definition call_queue (c : ncall) : string :=
  match c with
  | NEnqueue _ n _ _ | NConsume n _ | NList n _ _ | NRequeue n _ | NDelete n _ => n
  end.

Definition nmethod `{TaskJson} (q : NATSWorkQueue) (c : ncall) : nprogram nanswer :=
  match c with
  | NEnqueue u n p opts => r ← Enqueue q u n p opts; mret (NTask r)
  | NConsume n opts => r ← Consume_setup q n (NewConsumeOptions opts); mret (NErr (Some r))
  | NList n limit offset => r ← ListDeadTasks q n limit offset; mret (NListed r)
  | NRequeue n i => r ← RequeueDeadTask q n i; mret (NErr r)
  | NDelete n i => r ← DeleteDeadTask q n i; mret (NErr r)
  end.

Definition delivered `{TaskJson} (q : NATSWorkQueue) (queue : string) (o : ConsumeOptions)
    (d : delivery) (data : list byte) : nprogram nanswer :=
  _ ← handleMsg q d data queue o; mret NDelivered.

(** ** State *)

Record nthread := mkNThread {
  nt_node : nat;
  nt_queue : string;
  nt_deleting : bool;                  (** it serves [DeleteDeadTask] *)
  nt_prog : nprogram nanswer;
  nt_perm : nperm                      (** ghost *)
}.

Record nghost := mkNGhost {
  ng_used : gset string;               (** identifiers given by uuid *)
  ng_seen : gset string;               (** tasks a stream has held *)
  ng_done : gset string;               (** a handler returned nil, or deleted while dead *)
  ng_risky : gset string;              (** requeued while the server remembered an attempt *)
  ng_sup : gset (string * Z);          (** messages whose successor was published *)
  ng_rewritten : bool                  (** a handler failed and did not keep its task ([keeps_key]) *)
}.

Record nsys (J : Type) := mkNSys {
  ns_js : J;
  ns_now : time;
  ns_caches : list (gset string);      (** [ensured] of each process *)
  ns_threads : list nthread;
  ns_ghost : nghost
}.

Arguments mkNSys {J} _ _ _ _ _.
Arguments ns_js {J} _.
Arguments ns_now {J} _.
Arguments ns_caches {J} _.
Arguments ns_threads {J} _.
Arguments ns_ghost {J} _.

(** ** Ghost history *)

Section ghost.
Context `{TaskJson}.

Definition msg_at (σ : jstore) (name : string) (seq : Z) : option (list byte) :=
  st ← σ !! name; st_msgs st !! seq.

Definition task_of (data : list byte) : option Task :=
  match UnmarshalTask data with inr t => Some t | inl _ => None end.

(** The tasks the streams hold. *)
Definition stored_ids (σ : jstore) : gset string :=
  list_to_set (ID <$> (omap task_of ((map_to_list σ).*2 ≫= λ st, (map_to_list (st_msgs st)).*2))).

(** The server remembers the message ID of an attempt of the task, other than
    the first one of [Enqueue]. *)
Definition remembers (σ : jstore) (subject i : string) : bool :=
  existsb (λ st, bool_decide (st_subject st = subject) &&
    existsb (λ x, String.prefix ("wq:" +:+ i +:+ ":") x && negb (bool_decide (x = attemptMsgID i 0)))
      (elements (st_ids st))) (map_to_list σ).*2.

(** A requeue publishes to a tasks subject without a message ID. *)
Definition risky (q : NATSWorkQueue) (queue : string) (σ : jstore) {X} (e : neff X) : gset string :=
  match e with
  | NCall (Publish subject data msgID) =>
      match task_of data with
      | Some t => if bool_decide (subject = tasksSubject q queue ∧ msgID = "") &&
                     remembers σ subject (ID t)
                  then {[ID t]} else ∅
      | None => ∅
      end
  | _ => ∅
  end.

(** The message the publisher holds, once its successor is published. *)
Definition call_superseded (π : nperm) {X} (c : jcall X) : X → gset (string * Z) :=
  match c in jcall X return X → gset (string * Z) with
  | Publish _ _ _ => λ err,
      match err, np_source π with
      | None, Some (n, seq, _) => {[(n, seq)]}
      | _, _ => ∅
      end
  | _ => λ _, ∅
  end.

Definition superseded (π : nperm) {X} (e : neff X) : X → gset (string * Z) :=
  match e in neff X return X → gset (string * Z) with
  | NCall c => call_superseded π c
  | _ => λ _, ∅
  end.

(** The dead letter a DeleteMsg removed. *)
Definition removed (σ σ' : jstore) {X} (e : neff X) : gset string :=
  match e with
  | NCall (DeleteMsg n seq) =>
      match msg_at σ n seq, msg_at σ' n seq with
      | Some data, None => match task_of data with Some t => {[ID t]} | None => ∅ end
      | _, _ => ∅
      end
  | _ => ∅
  end.

Definition nghost_step (q : NATSWorkQueue) (th : nthread) {X} (e : neff X) (x : X)
    (σ σ' : jstore) (g : nghost) : nghost :=
  mkNGhost (ng_used g) (stored_ids σ' ∪ ng_seen g)
    ((if nt_deleting th then removed σ σ' e else ∅) ∪ ng_done g)
    (risky q (nt_queue th) σ e ∪ ng_risky g) (superseded (nt_perm th) e x ∪ ng_sup g)
    (ng_rewritten g).

Definition nghost_done (i : string) (g : nghost) : nghost :=
  mkNGhost (ng_used g) (ng_seen g) ({[i]} ∪ ng_done g) (ng_risky g) (ng_sup g)
    (ng_rewritten g).

Definition nghost_use (i : string) (g : nghost) : nghost :=
  mkNGhost ({[i]} ∪ ng_used g) (ng_seen g) (ng_done g) (ng_risky g) (ng_sup g)
    (ng_rewritten g).

Definition nghost_failed (t t' : Task) (g : nghost) : nghost :=
  mkNGhost (ng_used g) (ng_seen g) (ng_done g) (ng_risky g) (ng_sup g)
    (ng_rewritten g || negb (bool_decide (keeps_key t t'))).
End ghost.

(** ** Events *)

Inductive nevent :=
  | NTick (d : duration)
  | NClient (n : nat) (c : ncall)               (** a client calls process [n] *)
  | NDeliver (n : nat) (queue : string) (opts : list ConsumeOption) (seq : Z)
                                                (** a consumer of process [n] gets a message *)
  | NStep (i : nat)                             (** thread [i] makes a call *)
  | NHandled (i : nat) (h : Handler)            (** its handler returns *)
  | NCrash (i : nat).

Section system.
Context `{TaskJsonLaws} {J : Type} `{JetStream J} (q : NATSWorkQueue) (queues : gset string).

Definition nset_thread (i : nat) (th : nthread) (s : nsys J) : nsys J :=
  mkNSys (ns_js s) (ns_now s) (ns_caches s) (<[i:=th]> (ns_threads s)) (ns_ghost s).

Definition nadd_thread (th : nthread) (s : nsys J) : nsys J :=
  mkNSys (ns_js s) (ns_now s) (ns_caches s) (ns_threads s ++ [th]) (ns_ghost s).

Definition with_prog (p : nprogram nanswer) (π : nperm) (th : nthread) : nthread :=
  mkNThread (nt_node th) (nt_queue th) (nt_deleting th) p π.

(** One call of a program, but for the handler. *)
Definition nexec {X} (e : neff X) (j : J) (cache : gset string) (t : time) :
    option (X * J * gset string) :=
  match e in neff X return option (X * J * gset string) with
  | NNow => Some (t, j, cache)
  | NCall c => let '(x, j) := js_call c j in Some (x, j, cache)
  | NCache f => let '(x, cache) := f cache in Some (x, j, cache)
  | NInvoke _ => None
  end.

Definition nstep_thread (i : nat) (th : nthread) (s : nsys J) : option (nsys J) :=
  cache ← ns_caches s !! nt_node th;
  match nt_prog th with
  | Ret _ => None
  | Do e k =>
      '(x, j, cache) ← nexec e (ns_js s) cache (ns_now s);
      Some (mkNSys j (ns_now s) (<[nt_node th := cache]> (ns_caches s))
              (<[i := with_prog (k x) (next_perm (nt_perm th) e x) th]> (ns_threads s))
              (nghost_step q th e x (js_store (ns_js s)) (js_store j) (ns_ghost s)))
  end.

(** The handler of thread [i] returns, with whatever it has written to its task. *)
Definition nhandled (i : nat) (th : nthread) (h : Handler) (s : nsys J) : option (nsys J) :=
  match nt_prog th with
  | Ret _ => None
  | Do e k =>
      match e in neff X return (X → nprogram nanswer) → option (nsys J) with
      | NInvoke t => λ k,
          let x := invokeHandler h t in
          let s := nset_thread i (with_prog (k x) (next_perm (nt_perm th) (NInvoke t) x) th) s in
          Some (mkNSys (ns_js s) (ns_now s) (ns_caches s) (ns_threads s)
                  (match x.2 with
                   | None => nghost_done (ID t) (ns_ghost s)
                   | Some _ => nghost_failed t x.1 (ns_ghost s)
                   end))
      | _ => λ _, None
      end k
  end.

(** [uuid.NewString()] gives an identifier no one has seen; the retry budget is
    not the largest int. *)
Definition ncall_ok (valid : string → bool) (c : ncall) (g : nghost) : Prop :=
  match c with
  | NEnqueue u _ _ opts => (u ∉ ng_used g) ∧ valid u = true ∧
                           eo_MaxRetries (NewEnqueueOptions opts) < max_int64
  | _ => True
  end.

#[export] Instance ncall_ok_dec valid c g : Decision (ncall_ok valid c g).
Proof. destruct c; simpl; apply _. Defined.

Definition ncall_perm (c : ncall) : nperm :=
  match c with
  | NEnqueue u _ _ _ => mkNPerm (Some u) None false
  | _ => mkNPerm None None false
  end.

Definition ncall_use (c : ncall) (g : nghost) : nghost :=
  match c with NEnqueue u _ _ _ => nghost_use u g | _ => g end.

Definition is_delete (c : ncall) : bool := match c with NDelete _ _ => true | _ => false end.

(** The queues in use are [queues]; [valid] tells identifiers that are JSON
    strings, as those of the uuid package. *)
Definition nstep (valid : string → bool) (e : nevent) (s : nsys J) : option (nsys J) :=
  match e with
  | NTick d =>
      if decide (0 ≤ d)
      then Some (mkNSys (js_elapse d (ns_js s)) (ns_now s + d) (ns_caches s) (ns_threads s) (ns_ghost s))
      else None
  | NClient n c =>
      _ ← ns_caches s !! n;
      if decide (call_queue c ∈ queues ∧ ncall_ok valid c (ns_ghost s)) then
        Some (mkNSys (ns_js s) (ns_now s) (ns_caches s)
                (ns_threads s ++ [mkNThread n (call_queue c) (is_delete c) (nmethod q c) (ncall_perm c)])
                (ncall_use c (ns_ghost s)))
      else None
  | NDeliver n queue opts seq =>
      _ ← ns_caches s !! n;
      data ← msg_at (js_store (ns_js s)) (streamName q queue) seq;
      t ← task_of data;
      if decide (queue ∈ queues) then
        Some (nadd_thread (mkNThread n queue false
                (delivered q queue (NewConsumeOptions opts) (mkDelivery (streamName q queue) seq) data)
                (mkNPerm None (Some (streamName q queue, seq, t)) false)) s)
      else None
  | NStep i => th ← ns_threads s !! i; nstep_thread i th s
  | NHandled i h => th ← ns_threads s !! i; nhandled i th h s
  | NCrash i =>
      th ← ns_threads s !! i;
      Some (nset_thread i (with_prog (mret NDelivered) (mkNPerm None None false) th) s)
  end.

(** [n] processes on a server without streams. *)
Definition nsys_init (n : nat) (j : J) (t : time) : nsys J :=
  mkNSys j t (replicate n ∅) [] (mkNGhost ∅ ∅ ∅ ∅ ∅ false).
End system.
