(* ===== verification/NatsInv.v ===== *)
(** * What every execution of the JetStream backend keeps

    Every task a stream has ever held is still in a stream, or a handler
    returned nil for it, or its dead letter was deleted, or it was requeued
    while the server remembered one of its attempts. The invariant says which
    message stands for the task: one whose successor is not published and whose
    attempt is not behind the message IDs the server remembers. *)

From stdpp Require Import base tactics list numbers option gmap strings pretty.
From Stdlib Require Import Strings.Byte Ascii.
From S2P Require Import Prelude GoRuntime Contract Options Effects JetStream Nats NatsNames NatsLegal NatsSystem.

Import Nats.

(** ** The ghost functions *)

Section ghost_facts.
Context `{TaskJson}.

Lemma task_of_Some data t : task_of data = Some t ↔ UnmarshalTask data = inr t.
Proof. unfold task_of. destruct (UnmarshalTask data); naive_solver. Qed.

Lemma elem_of_stored_ids σ i :
  i ∈ stored_ids σ ↔ ∃ n st seq data t, σ !! n = Some st ∧ st_msgs st !! seq = Some data ∧
    UnmarshalTask data = inr t ∧ ID t = i.
Proof.
  unfold stored_ids. rewrite elem_of_list_to_set, list_elem_of_fmap. split.
  - intros (t & -> & Ht). apply list_elem_of_omap in Ht as (data & Hd & Ht).
    apply list_elem_of_bind in Hd as (st & Hd & Hst).
    apply list_elem_of_fmap in Hst as ([n st'] & -> & Hst).
    apply list_elem_of_fmap in Hd as ([seq data'] & -> & Hd).
    apply elem_of_map_to_list in Hst, Hd. apply task_of_Some in Ht. simpl in *. eauto 10.
  - intros (n & st & seq & data & t & Hst & Hd & Ht & <-). exists t. split; [done|].
    apply list_elem_of_omap. exists data. split; [|by apply task_of_Some].
    apply list_elem_of_bind. exists st. split; apply list_elem_of_fmap.
    + exists (seq, data). split; [done|]. by apply elem_of_map_to_list.
    + exists (n, st). split; [done|]. by apply elem_of_map_to_list.
Qed.

Lemma prefix_append (s t : string) : String.prefix s (s +:+ t) = true.
Proof. induction s as [|c s IH]; simpl; [by destruct t|]. by rewrite IH; destruct ascii_dec. Qed.

Lemma remembers_true σ n st i k :
  σ !! n = Some st → attemptMsgID i k ∈ st_ids st → k ≠ 0 → remembers σ (st_subject st) i = true.
Proof.
  intros Hst Hid Hk. unfold remembers. apply existsb_exists. exists st. split.
  - apply list_elem_of_In, list_elem_of_fmap. exists (n, st). split; [done|]. by apply elem_of_map_to_list.
  - rewrite bool_decide_eq_true_2 by done. simpl. apply existsb_exists. exists (attemptMsgID i k). split.
    + apply list_elem_of_In. by apply elem_of_elements.
    + apply andb_true_iff. split.
      * unfold attemptMsgID. replace ("wq:" +:+ i +:+ ":" +:+ pretty k)
          with (("wq:" +:+ i +:+ ":") +:+ pretty k) by (by rewrite !string_append_assoc).
        apply prefix_append.
      * rewrite bool_decide_eq_false_2; [done|]. intros Heq. by apply attemptMsgID_inj in Heq as [_ ?].
Qed.
End ghost_facts.

(** ** The invariant of the streams *)

Section invariant.
Context `{TaskJsonLaws} (q : NATSWorkQueue) (queues : gset string).
Context (Hqueues : ∀ a b, a ∈ queues → b ∈ queues → a ≠ b +:+ "_DLQ").

(** A message that stands for the task [i]. *)
Definition live (σ : jstore) (sup : gset (string * Z)) (i : string) : Prop :=
  ∃ n st seq data t, σ !! n = Some st ∧ st_msgs st !! seq = Some data ∧
    UnmarshalTask data = inr t ∧ ID t = i ∧ ((n, seq) ∉ sup) ∧
    ∀ queue k, queue ∈ queues → n = streamName q queue → 1 ≤ k →
      attemptMsgID i k ∈ st_ids st → k ≤ Attempts t.

Definition stream_shape (n : string) (st : stream) : Prop :=
  ∃ queue, queue ∈ queues ∧
    ((n = streamName q queue ∧ st_subject st = tasksSubject q queue) ∨
     (n = dlqStreamName q queue ∧ st_subject st = deadSubject q queue)).

Definition msg_ok (seen : gset string) (n : string) (data : list byte) : Prop :=
  ∃ t, UnmarshalTask data = inr t ∧ json_string (ID t) ∧ task_ok t ∧ ID t ∈ seen ∧
    ∀ queue, queue ∈ queues → n = streamName q queue → live_task t.

Record store_inv (σ : jstore) (g : nghost) : Prop := {
  ni_shape n st : σ !! n = Some st → stream_shape n st;
  ni_last n st seq data : σ !! n = Some st → st_msgs st !! seq = Some data → seq ≤ st_last st;
  ni_msgs n st seq data : σ !! n = Some st → st_msgs st !! seq = Some data → msg_ok (ng_seen g) n data;
  ni_ids n st i k : σ !! n = Some st → attemptMsgID i k ∈ st_ids st → i ∈ ng_seen g;
  ni_used : ng_seen g ⊆ ng_used g;
  ni_sup n seq : (n, seq) ∈ ng_sup g → ∃ st, σ !! n = Some st ∧ seq ≤ st_last st;
  ni_live i : i ∈ ng_seen g → i ∈ ng_done g ∨ i ∈ ng_risky g ∨ live σ (ng_sup g) i
}.

(** A stream's messages never change, and its numbers are never given again. *)
Definition store_le (σ σ' : jstore) : Prop :=
  ∀ n st, σ !! n = Some st → ∃ st', σ' !! n = Some st' ∧ st_last st ≤ st_last st' ∧
    ∀ seq data, seq ≤ st_last st → st_msgs st' !! seq = Some data → st_msgs st !! seq = Some data.

Lemma store_le_refl σ : store_le σ σ.
Proof. intros n st Hst. by exists st. Qed.

Lemma tasks_not_dlq a b : a ∈ queues → b ∈ queues → streamName q a ≠ dlqStreamName q b.
Proof using Hqueues.
  intros Ha Hb Heq. rewrite dlqStreamName_streamName in Heq. apply streamName_inj in Heq.
  by destruct (Hqueues a b).
Qed.

(** The stream of a subject. *)
Lemma subject_stream n st queue : stream_shape n st → queue ∈ queues →
  (st_subject st = tasksSubject q queue → n = streamName q queue) ∧
  (st_subject st = deadSubject q queue → n = dlqStreamName q queue).
Proof.
  intros (qq & Hqq & [[-> ->]|[-> ->]]) Hin; split; intros Heq.
  - by apply tasksSubject_inj in Heq as ->.
  - by apply tasksSubject_deadSubject in Heq.
  - symmetry in Heq. by apply tasksSubject_deadSubject in Heq.
  - by apply deadSubject_inj in Heq as ->.
Qed.

Lemma stored_seen σ g i : store_inv σ g → i ∈ stored_ids σ → i ∈ ng_seen g.
Proof.
  intros Hi (n & st & seq & data & t & Hst & Hd & Ht & <-)%elem_of_stored_ids.
  destruct (ni_msgs _ _ Hi _ _ _ _ Hst Hd) as (t' & Ht' & _ & _ & Hseen & _). congruence.
Qed.

(** The streams are as they were, and the history only grows. *)
Lemma inv_same σ g g' :
  store_inv σ g → (∀ i, i ∈ ng_seen g' ↔ i ∈ stored_ids σ ∨ i ∈ ng_seen g) →
  ng_used g ⊆ ng_used g' → ng_done g ⊆ ng_done g' → ng_risky g ⊆ ng_risky g' →
  ng_sup g' = ng_sup g → store_inv σ g'.
Proof.
  intros Hi Hseen Hu Hd Hr Hsup.
  assert (∀ i, i ∈ ng_seen g' ↔ i ∈ ng_seen g) as Hs.
  { intros i. rewrite Hseen. split; [|by right]. intros [Hi'|Hi']; [|done]. by eapply stored_seen. }
  destruct Hi as [Hsh Hl Hm Hids Hus Hsp Hlive]. split; auto.
  - intros n st seq data Hst Hd'. destruct (Hm n st seq data Hst Hd') as (t & ? & ? & ? & ? & ?).
    exists t. split_and!; [done|done|done|by apply Hs|done].
  - intros n st i k Hst Hk. apply Hs. eauto.
  - intros i Hi'%Hs. auto.
  - rewrite Hsup. apply Hsp.
  - intros i Hi'%Hs. rewrite Hsup. destruct (Hlive i Hi') as [?|[?|?]]; auto.
Qed.

(** Message IDs are forgotten. *)
Lemma inv_elapsed σ σ' g : elapsed σ σ' → store_inv σ g → store_inv σ' g ∧ store_le σ σ'.
Proof.
  intros He [Hsh Hl Hm Hids Hus Hsp Hlive].
  assert (∀ n st', σ' !! n = Some st' → ∃ st, σ !! n = Some st ∧ st_subject st' = st_subject st ∧
    st_msgs st' = st_msgs st ∧ st_last st' = st_last st ∧ st_ids st' ⊆ st_ids st) as Hback.
  { intros n st' Hst'. specialize (He n). rewrite Hst' in He. destruct (σ !! n); [by eauto 10|done]. }
  assert (∀ n st, σ !! n = Some st → ∃ st', σ' !! n = Some st' ∧ st_subject st' = st_subject st ∧
    st_msgs st' = st_msgs st ∧ st_last st' = st_last st ∧ st_ids st' ⊆ st_ids st) as Hforth.
  { intros n st Hst. specialize (He n). rewrite Hst in He. destruct (σ' !! n); [by eauto 10|done]. }
  split; [split|].
  - intros n st' Hst'. destruct (Hback n st' Hst') as (st & Hst & Hsub & _).
    destruct (Hsh n st Hst) as (queue & Hq & Hs). exists queue. by rewrite Hsub.
  - intros n st' seq data Hst'. destruct (Hback n st' Hst') as (st & Hst & _ & -> & -> & _). eauto.
  - intros n st' seq data Hst'. destruct (Hback n st' Hst') as (st & Hst & _ & -> & _). eauto.
  - intros n st' i k Hst' Hk. destruct (Hback n st' Hst') as (st & Hst & _ & _ & _ & Hsub). eauto.
  - done.
  - intros n seq Hin. destruct (Hsp n seq Hin) as (st & Hst & Hle).
    destruct (Hforth n st Hst) as (st' & Hst' & _ & _ & Hl' & _). exists st'. split; [done|lia].
  - intros i Hi. destruct (Hlive i Hi) as [?|[?|(n & st & seq & data & t & Hst & Hd & Ht & Hid & Hns & Hlev)]];
      auto. right; right. destruct (Hforth n st Hst) as (st' & Hst' & _ & Hm' & _ & Hsub).
    exists n, st', seq, data, t. rewrite Hm'. split_and!; eauto.
  - intros n st Hst. destruct (Hforth n st Hst) as (st' & Hst' & _ & Hm' & Hl' & _).
    exists st'. split_and!; [done|lia|]. intros seq data _. by rewrite Hm'.
Qed.

(** A stream is provisioned. *)
Lemma inv_ensured σ σ' g queue n s :
  store_inv σ g → queue ∈ queues →
  (n = streamName q queue ∧ s = tasksSubject q queue) ∨ (n = dlqStreamName q queue ∧ s = deadSubject q queue) →
  ensured n s σ σ' → store_inv σ' g ∧ store_le σ σ'.
Proof using Hqueues.
  intros Hi Hq Hns He. unfold ensured in He. destruct (σ !! n) as [st|] eqn:Hn.
  { destruct He as [He _]. rewrite He; [split; [done|apply store_le_refl]|].
    destruct (ni_shape _ _ Hi n st Hn) as (qq & Hqq & Hsh).
    destruct Hsh as [[-> ->]|[-> ->]], Hns as [[Heq ->]|[Heq ->]].
    - by apply streamName_inj in Heq as ->.
    - by apply tasks_not_dlq in Heq.
    - symmetry in Heq. by apply tasks_not_dlq in Heq.
    - by apply dlqStreamName_inj in Heq as ->. }
  subst σ'. destruct Hi as [Hsh Hl Hm Hids Hus Hsp Hlive]. split; [split|].
  - intros n' st'. rewrite lookup_insert_Some. intros [[<- <-]|[_ Hst']]; [by exists queue|auto].
  - intros n' st' seq data. rewrite lookup_insert_Some. intros [[<- <-]|[_ Hst']]; [done|eauto].
  - intros n' st' seq data. rewrite lookup_insert_Some. intros [[<- <-]|[_ Hst']]; [done|eauto].
  - intros n' st' i k. rewrite lookup_insert_Some. intros [[<- <-]|[_ Hst']]; [set_solver|eauto].
  - done.
  - intros n' seq Hin. destruct (Hsp n' seq Hin) as (st & Hst & Hle). exists st.
    split; [|done]. rewrite lookup_insert_ne; [done|congruence].
  - intros i Hi. destruct (Hlive i Hi) as [?|[?|(n' & st & seq & data & t & Hst & Hrest)]]; auto.
    right; right. exists n', st, seq, data, t. split; [|done].
    rewrite lookup_insert_ne; [done|congruence].
  - intros n' st Hst. exists st. split_and!; [|done|done]. rewrite lookup_insert_ne; [done|congruence].
Qed.

(** A message is dropped that was superseded, or whose task is done. *)
Lemma inv_dropped σ σ' g g' n seq :
  store_inv σ g → dropped n seq σ σ' →
  (∀ i, i ∈ ng_seen g' ↔ i ∈ stored_ids σ' ∨ i ∈ ng_seen g) →
  ng_used g' = ng_used g → ng_done g ⊆ ng_done g' → ng_risky g ⊆ ng_risky g' → ng_sup g' = ng_sup g →
  ((n, seq) ∈ ng_sup g ∨ ∀ data t, msg_at σ n seq = Some data → UnmarshalTask data = inr t → ID t ∈ ng_done g') →
  store_inv σ' g' ∧ store_le σ σ'.
Proof.
  intros Hi (st & Hst & ->) Hseen Hu Hd Hr Hsup Hwhy.
  assert (∀ n' st' seq' data, <[n:=drop_msg seq st]> σ !! n' = Some st' → st_msgs st' !! seq' = Some data →
    ∃ st0, σ !! n' = Some st0 ∧ st_msgs st0 !! seq' = Some data ∧ st_last st' = st_last st0) as Hback.
  { intros n' st' seq' data. rewrite lookup_insert_Some. intros [[<- <-]|[_ Hst']]; [|by eauto].
    simpl. rewrite lookup_delete_Some. intros [_ Hd']. by eauto. }
  assert (∀ i, i ∈ ng_seen g' ↔ i ∈ ng_seen g) as Hs.
  { intros i. rewrite Hseen. split; [|by right]. intros [Hi'|Hi']; [|done].
    apply elem_of_stored_ids in Hi' as (n' & st' & seq' & data & t & Hst' & Hd' & Ht & <-).
    destruct (Hback n' st' seq' data Hst' Hd') as (st0 & Hst0 & Hd0 & _).
    eapply stored_seen; [exact Hi|]. apply elem_of_stored_ids. by exists n', st0, seq', data, t. }
  destruct Hi as [Hsh Hl Hm Hids Hus Hsp Hlive]. split; [split|].
  - intros n' st'. rewrite lookup_insert_Some. intros [[<- <-]|[_ Hst']]; [apply (Hsh n st Hst)|auto].
  - intros n' st' seq' data Hst' Hd'. destruct (Hback _ _ _ _ Hst' Hd') as (st0 & Hst0 & Hd0 & ->). eauto.
  - intros n' st' seq' data Hst' Hd'. destruct (Hback _ _ _ _ Hst' Hd') as (st0 & Hst0 & Hd0 & _).
    destruct (Hm _ _ _ _ Hst0 Hd0) as (t & ? & ? & ? & ? & ?). exists t. split_and!; [done..|by apply Hs|done].
  - intros n' st' i k. rewrite Hs, lookup_insert_Some. intros [[<- <-]|[_ Hst']]; simpl; eauto.
  - intros i Hi%Hs. rewrite Hu. auto.
  - intros n' seq' Hin. rewrite Hsup in Hin. destruct (Hsp n' seq' Hin) as (st' & Hst' & Hle).
    destruct (decide (n' = n)) as [->|Hnn].
    + exists (drop_msg seq st). rewrite lookup_insert_eq. simplify_eq. done.
    + exists st'. by rewrite lookup_insert_ne.
  - intros i Hi%Hs. rewrite Hsup.
    destruct (Hlive i Hi) as [?|[?|(n' & st' & seq' & data & t & Hst' & Hd' & Ht & Hid & Hns & Hlev)]]; auto.
    destruct (decide ((n', seq') = (n, seq))) as [[= -> ->]|Hne].
    { destruct Hwhy as [Hin|Hdone]; [done|]. left. subst i. apply (Hdone data t); [|done].
      unfold msg_at. rewrite Hst'. done. }
    right; right. destruct (decide (n' = n)) as [->|Hnn].
    + exists n, (drop_msg seq st), seq', data, t. simplify_eq.
      split_and!; [by rewrite lookup_insert_eq| |done..]. simpl. rewrite lookup_delete_ne; [done|congruence].
    + exists n', st', seq', data, t. split_and!; [by rewrite lookup_insert_ne|done..].
  - intros n' st' Hst'. destruct (decide (n' = n)) as [->|Hnn].
    + exists (drop_msg seq st). simplify_eq. split_and!; [by rewrite lookup_insert_eq|done|].
      simpl. intros seq' data _. by rewrite lookup_delete_Some; intros [_ ?].
    + exists st'. split_and!; [by rewrite lookup_insert_ne|done|done].
Qed.
(** ** Publishing *)

(** A stream stores the message of [t]. *)
Section stored.
Context (σ : jstore) (n : string) (st : stream) (data : list byte) (msgID : string) (t : Task).
Context (Hst : σ !! n = Some st) (Ht : UnmarshalTask data = inr t).
Context (Hid : msgID = attemptMsgID (ID t) (Attempts t) ∨ msgID = "").
Context (Hlast : ∀ seq d, st_msgs st !! seq = Some d → seq ≤ st_last st).

Let σ' := <[n := store_msg data msgID st]> σ.

Lemma stored_back n' st' seq d :
  σ' !! n' = Some st' → st_msgs st' !! seq = Some d →
  (n' = n ∧ seq = st_last st + 1 ∧ d = data ∧ st' = store_msg data msgID st) ∨
  ∃ st0, σ !! n' = Some st0 ∧ st_msgs st0 !! seq = Some d ∧ st_last st0 ≤ st_last st'.
Proof using Hst.
  unfold σ'. rewrite lookup_insert_Some. intros [[<- <-]|[_ Hst']] Hd; [|right; by exists st'].
  simpl in Hd. apply lookup_insert_Some in Hd as [[<- <-]|[_ Hd]]; [by left|].
  right. exists st. split_and!; [done|done|simpl; lia].
Qed.

Lemma stored_le : store_le σ σ'.
Proof using Hst.
  intros n' st' Hst'. unfold σ'. destruct (decide (n' = n)) as [->|Hnn].
  - simplify_eq. exists (store_msg data msgID st). rewrite lookup_insert_eq. simpl.
    split_and!; [done|lia|]. intros seq d Hseq. rewrite lookup_insert_ne; [done|lia].
  - exists st'. by rewrite lookup_insert_ne.
Qed.

Lemma stored_ids_id i k : attemptMsgID i k ∈ st_ids (store_msg data msgID st) →
  (i = ID t ∧ k = Attempts t) ∨ attemptMsgID i k ∈ st_ids st.
Proof using Hid.
  simpl. case_decide as Hne; [by right|]. rewrite elem_of_union, elem_of_singleton.
  intros [Heq|?]; [left|by right]. destruct Hid as [Hid'|Hid']; [|done].
  rewrite Hid' in Heq. by apply attemptMsgID_inj.
Qed.

(** The new message stands for its task if it is not behind. *)
Lemma live_stored sup :
  ((n, st_last st + 1) ∉ sup) →
  (∀ queue k, queue ∈ queues → n = streamName q queue → 1 ≤ k →
     attemptMsgID (ID t) k ∈ st_ids st → k ≤ Attempts t) → live σ' sup (ID t).
Proof using Hid Hst Ht.
  intros Hnew Hlev. exists n, (store_msg data msgID st), (st_last st + 1), data, t. unfold σ'.
  rewrite lookup_insert_eq. simpl. rewrite lookup_insert_eq. split_and!; try done.
  intros queue k Hq Hn Hk Hin. apply stored_ids_id in Hin as [[_ ->]|Hin]; [done|by eauto].
Qed.

(** One that stood still stands, unless it is of the same task and behind. *)
Lemma live_kept sup i n1 st1 seq1 d1 t1 :
  σ !! n1 = Some st1 → st_msgs st1 !! seq1 = Some d1 → UnmarshalTask d1 = inr t1 → ID t1 = i →
  ((n1, seq1) ∉ sup) →
  (∀ queue k, queue ∈ queues → n1 = streamName q queue → 1 ≤ k →
     attemptMsgID i k ∈ st_ids st1 → k ≤ Attempts t1) →
  (i = ID t → n1 = n → Attempts t ≤ Attempts t1) → live σ' sup i.
Proof using Hid Hst Hlast.
  intros Hst1 Hd1 Ht1 Hid1 Hns Hlev Hahead. destruct (decide (n1 = n)) as [->|Hnn]; simplify_eq.
  - exists n, (store_msg data msgID st), seq1, d1, t1. unfold σ'. rewrite lookup_insert_eq.
    split_and!; try done.
    + simpl. pose proof (Hlast seq1 d1 Hd1). rewrite lookup_insert_ne; [done|lia].
    + intros queue k Hq Hn Hk Hin. apply stored_ids_id in Hin as [[Heq ->]|Hin]; eauto.
  - exists n1, st1, seq1, d1, t1. unfold σ'. rewrite lookup_insert_ne by done. by split_and!.
Qed.
End stored.

(** The messages [X] may be superseded by one of [t] in stream [n]: they are of
    the same task, and behind when the new one has a message ID. *)
Definition behind (σ : jstore) (n msgID : string) (t : Task) (X : gset (string * Z)) : Prop :=
  ∀ n0 seq0, (n0, seq0) ∈ X → ∃ st0, σ !! n0 = Some st0 ∧ seq0 ≤ st_last st0 ∧
    ∀ d0, st_msgs st0 !! seq0 = Some d0 → ∃ t0, UnmarshalTask d0 = inr t0 ∧ ID t0 = ID t ∧
      (msgID ≠ "" → n0 = n ∧ Attempts t0 < Attempts t).

Lemma behind_other σ n msgID t X n1 st1 seq1 d1 t1 :
  behind σ n msgID t X → σ !! n1 = Some st1 → st_msgs st1 !! seq1 = Some d1 → UnmarshalTask d1 = inr t1 →
  ID t1 ≠ ID t ∨ (msgID ≠ "" ∧ ¬ (n1 = n ∧ Attempts t1 < Attempts t)) → ((n1, seq1) ∉ X).
Proof.
  intros HX Hst1 Hd1 Ht1 Hor Hin. destruct (HX n1 seq1 Hin) as (st0 & Hst0 & _ & Hd0). simplify_eq.
  destruct (Hd0 d1 Hd1) as (t0 & Ht0 & ? & Hcl). rewrite Ht1 in Ht0. injection Ht0 as <-. destruct Hor as [?|[Hne Hnot]]; [congruence|]. by apply Hnot, Hcl.
Qed.

(** Some message stands for the task once its successor is stored. *)
Lemma live_successor σ g n st data msgID t X i (risk : Prop) :
  store_inv σ g → σ !! n = Some st → UnmarshalTask data = inr t → behind σ n msgID t X →
  msgID = attemptMsgID (ID t) (Attempts t) ∨
    msgID = "" ∧ (risk ∨ ∀ queue k, queue ∈ queues → n = streamName q queue → 1 ≤ k →
                    attemptMsgID (ID t) k ∉ st_ids st) →
  i ∈ ng_seen g ∨ i = ID t →
  i ∈ ng_done g ∨ i ∈ ng_risky g ∨ (i = ID t ∧ risk) ∨
    live (<[n := store_msg data msgID st]> σ) (X ∪ ng_sup g) i.
Proof.
  intros Hi Hst Ht HX Hid Hin. destruct Hi as [Hsh Hl Hm Hids Hus Hsp Hlive].
  assert (msgID = attemptMsgID (ID t) (Attempts t) ∨ msgID = "") as Hid' by tauto.
  assert ((n, st_last st + 1) ∉ X ∪ ng_sup g) as Hnew.
  { rewrite elem_of_union. intros [Hin'|Hin'].
    - destruct (HX _ _ Hin') as (st0 & Hst0 & Hle0 & _). simplify_eq. lia.
    - destruct (Hsp _ _ Hin') as (st0 & Hst0 & Hle0). simplify_eq. lia. }
  pose proof (live_stored σ n st data msgID t Hst Ht Hid' _ Hnew) as Hstands.
  pose proof (live_kept σ n st data msgID t Hst Hid' (λ seq d, Hl n st seq d Hst) (X ∪ ng_sup g)) as Hkeep.
  destruct (decide (i ∈ ng_seen g)) as [Hseen|Hnseen].
  2: { destruct Hin as [?|Heq]; [done|]. do 3 right. subst i. apply Hstands.
       intros queue k Hq Hn Hk Hin. destruct Hnseen. by eapply Hids. }
  destruct (Hlive i Hseen) as [?|[?|(n1 & st1 & seq1 & d1 & t1 & Hst1 & Hd1 & Ht1 & Hid1 & Hns & Hlev)]]; auto.
  do 2 right. destruct (decide (i = ID t)) as [Heq|Hne].
  - destruct Hid as [Hid|[-> [?|Hnone]]]; [|by auto|].
    + right. destruct (decide (n1 = n ∧ Attempts t1 < Attempts t)) as [[-> Hlt1]|Hnot].
      * rewrite Heq. apply Hstands. intros queue k Hq Hn Hk Hk'. assert (st1 = st) as -> by congruence.
        pose proof (Hlev queue k Hq Hn Hk) as Hle. rewrite Heq in Hle. specialize (Hle Hk'). lia.
      * eapply Hkeep; eauto; [|intros _ Hn1; apply Z.nlt_ge; intros ?; by apply Hnot].
        rewrite not_elem_of_union. split; [|done]. eapply behind_other; eauto.
        right. rewrite Hid. split; [apply attemptMsgID_nonempty|done].
    + right. rewrite Heq. apply Hstands. intros queue k Hq Hn Hk Hk'. by destruct (Hnone queue k Hq Hn Hk).
  - right. eapply Hkeep; eauto; [|done]. rewrite not_elem_of_union. split; [|done].
    eapply behind_other; eauto. left. congruence.
Qed.

(** The stream stores the successor. *)
Lemma inv_stored σ g g' n st data msgID t X :
  let σ' := <[n := store_msg data msgID st]> σ in
  store_inv σ g → σ !! n = Some st → msg_ok ({[ID t]} ∪ ng_seen g) n data → UnmarshalTask data = inr t →
  ID t ∈ ng_used g → behind σ n msgID t X →
  (∀ i, i ∈ ng_seen g' ↔ i ∈ stored_ids σ' ∨ i ∈ ng_seen g) →
  ng_used g' = ng_used g → ng_done g ⊆ ng_done g' → ng_risky g ⊆ ng_risky g' →
  ng_sup g' = X ∪ ng_sup g →
  msgID = attemptMsgID (ID t) (Attempts t) ∨
    msgID = "" ∧ (ID t ∈ ng_risky g' ∨ ∀ queue k, queue ∈ queues → n = streamName q queue → 1 ≤ k →
                    attemptMsgID (ID t) k ∉ st_ids st) →
  store_inv σ' g' ∧ store_le σ σ' ∧ (∀ i, i ∈ ng_seen g' ↔ i ∈ ng_seen g ∨ i = ID t).
Proof.
  intros σ' Hi Hst Hmsg Ht Hused HX Hseen Hu Hd Hr Hsup Hid.
  assert (msgID = attemptMsgID (ID t) (Attempts t) ∨ msgID = "") as Hid' by tauto.
  assert (∀ i, i ∈ ng_seen g' ↔ i ∈ ng_seen g ∨ i = ID t) as Hs.
  { intros i. rewrite Hseen, elem_of_stored_ids. split.
    - intros [(n' & st' & seq & d & t' & Hst' & Hd' & Ht' & <-)|?]; [|by left].
      destruct (stored_back _ _ _ _ _ Hst _ _ _ _ Hst' Hd') as [(-> & -> & -> & _)|(st0 & Hst0 & Hd0 & _)].
      + right. congruence.
      + left. eapply stored_seen; [exact Hi|]. apply elem_of_stored_ids. by exists n', st0, seq, d, t'.
    - intros [?| ->]; [by right|left]. exists n, (store_msg data msgID st), (st_last st + 1), data, t.
      unfold σ'. rewrite lookup_insert_eq. simpl. by rewrite lookup_insert_eq. }
  pose proof (stored_le σ n st data msgID Hst) as Hle. fold σ' in Hle.
  split_and!; [|exact Hle|exact Hs]. pose proof Hi as [Hsh Hl Hm Hids Hus Hsp _]. split.
  - intros n' st'. unfold σ'. rewrite lookup_insert_Some.
    intros [[<- <-]|[_ Hst']]; [apply (Hsh n st Hst)|auto].
  - intros n' st' seq d Hst' Hd'.
    destruct (stored_back _ _ _ _ _ Hst _ _ _ _ Hst' Hd') as [(-> & -> & -> & ->)|(st0 & Hst0 & Hd0 & Hle0)];
      [simpl; lia|]. etrans; [|exact Hle0]. eauto.
  - assert (∀ n' d, msg_ok ({[ID t]} ∪ ng_seen g) n' d → msg_ok (ng_seen g') n' d) as Hmono.
    { intros n' d (t' & ? & ? & ? & Hin & ?). exists t'. split_and!; [done..| |done].
      apply Hs. apply elem_of_union in Hin as [Hin|Hin]; [right; by apply (elem_of_singleton (C := gset string))|by left]. }
    intros n' st' seq d Hst' Hd'. apply Hmono.
    destruct (stored_back _ _ _ _ _ Hst _ _ _ _ Hst' Hd') as [(-> & -> & -> & ->)|(st0 & Hst0 & Hd0 & _)];
      [done|]. destruct (Hm _ _ _ _ Hst0 Hd0) as (t' & ? & ? & ? & ? & ?).
    exists t'. split_and!; [done..|by apply elem_of_union_r|done].
  - intros n' st' i k. unfold σ'. rewrite Hs, lookup_insert_Some. intros [[<- <-]|[_ Hst']]; [|by eauto].
    intros [[-> _]|Hk]%(stored_ids_id st data msgID t Hid'); eauto.
  - intros i [Hin| ->]%Hs; rewrite Hu; auto.
  - intros n' seq. rewrite Hsup, elem_of_union. intros Hin.
    assert (∃ st0, σ !! n' = Some st0 ∧ seq ≤ st_last st0) as (st0 & Hst0 & Hle0).
    { destruct Hin as [Hin|Hin]; [|by apply Hsp]. destruct (HX n' seq Hin) as (st0 & ? & ? & _). eauto. }
    destruct (Hle n' st0 Hst0) as (st' & Hst' & Hle' & _). exists st'. split; [done|lia].
  - intros i Hin%Hs. rewrite Hsup.
    destruct (live_successor σ g n st data msgID t X i _ Hi Hst Ht HX Hid Hin) as [?|[?|[[-> ?]|?]]]; auto.
Qed.
(** The stream has stored the successor before. *)
Lemma inv_duplicate σ g g' n st t X :
  store_inv σ g → σ !! n = Some st → (∃ queue, queue ∈ queues ∧ n = streamName q queue) →
  attemptMsgID (ID t) (Attempts t) ∈ st_ids st → 1 ≤ Attempts t →
  behind σ n (attemptMsgID (ID t) (Attempts t)) t X →
  (∀ i, i ∈ ng_seen g' ↔ i ∈ stored_ids σ ∨ i ∈ ng_seen g) →
  ng_used g' = ng_used g → ng_done g ⊆ ng_done g' → ng_risky g ⊆ ng_risky g' →
  ng_sup g' = X ∪ ng_sup g → store_inv σ g'.
Proof.
  intros Hi Hst (queue & Hq & Hn) Hid Hpos HX Hseen Hu Hd Hr Hsup.
  set (g1 := mkNGhost (ng_used g') (ng_seen g') (ng_done g') (ng_risky g') (ng_sup g) (ng_rewritten g')).
  assert (store_inv σ g1) as [Hsh Hl Hm Hids Hus Hsp Hlive].
  { apply (inv_same σ g); try done. simpl. by rewrite Hu. }
  split; auto.
  - intros n' seq. rewrite Hsup, elem_of_union. intros [Hin|Hin]; [|by apply Hsp].
    destruct (HX n' seq Hin) as (st0 & ? & ? & _). eauto.
  - intros i Hin. destruct (Hlive i Hin) as [?|[?|(n1 & st1 & seq1 & d1 & t1 & Hst1 & Hd1 & Ht1 & Hid1 & Hns & Hlev)]];
      auto. right; right. exists n1, st1, seq1, d1, t1. split_and!; try done.
    rewrite Hsup, not_elem_of_union. split; [|done]. eapply behind_other; eauto.
    destruct (decide (i = ID t)) as [Heq|Hne]; [|left; congruence].
    right. split; [apply attemptMsgID_nonempty|]. intros [-> Hlt].
    assert (st1 = st) as -> by congruence. specialize (Hlev queue (Attempts t) Hq Hn Hpos).
    rewrite Heq in Hlev. specialize (Hlev Hid). lia.
Qed.
End invariant.
