(* ===== verification/NatsSafety.v ===== *)
(** * No step of the JetStream backend loses a task

    The invariant of [NatsInv] with the threads: each runs a legal program and
    holds a message of its queue, which it is free to drop only when it is
    superseded or its task is done. Every event keeps it. *)

From stdpp Require Import base tactics list numbers option gmap strings pretty.
From Stdlib Require Import Strings.Byte Ascii.
From S2P Require Import Prelude GoRuntime Contract Options Effects JetStream Nats NatsNames NatsLegal NatsSystem NatsInv.

Import Nats.

Section safety.
Context `{TaskJsonLaws} (q : NATSWorkQueue) (queues : gset string).
Context (Hqueues : ∀ a b, a ∈ queues → b ∈ queues → a ≠ b +:+ "_DLQ").

Abbreviation store_inv := (store_inv q queues).

(** ** What a thread holds *)

Record source_ok (σ : jstore) (g : nghost) (queue n : string) (seq : Z) (t : Task) : Prop := {
  so_name : n = streamName q queue ∨ n = dlqStreamName q queue;
  so_seen : ID t ∈ ng_seen g;
  so_json : json_string (ID t);
  so_task : task_ok t;
  so_live : n = streamName q queue → live_task t;
  so_msg : ∃ st, σ !! n = Some st ∧ seq ≤ st_last st ∧
    ∀ data, st_msgs st !! seq = Some data → UnmarshalTask data = inr t
}.

Definition free_ok (g : nghost) (π : nperm) : Prop :=
  np_free π = true → ∀ n seq t, np_source π = Some (n, seq, t) →
    (n, seq) ∈ ng_sup g ∨ ID t ∈ ng_done g.

Definition perm_ok (σ : jstore) (g : nghost) (queue : string) (π : nperm) : Prop :=
  (∀ u, np_create π = Some u → u ∈ ng_used g ∧ u ∉ ng_seen g) ∧
  (∀ n seq t, np_source π = Some (n, seq, t) → source_ok σ g queue n seq t) ∧ free_ok g π.

(** The history grows and the streams go on. *)
Record later (σ σ' : jstore) (g g' : nghost) : Prop := {
  la_store : store_le σ σ';
  la_used : ng_used g ⊆ ng_used g';
  la_seen : ng_seen g ⊆ ng_seen g';
  la_done : ng_done g ⊆ ng_done g';
  la_sup : ng_sup g ⊆ ng_sup g'
}.

Lemma source_later σ σ' g g' queue n seq t :
  later σ σ' g g' → source_ok σ g queue n seq t → source_ok σ' g' queue n seq t.
Proof.
  intros Hla [Hn Hs Hj Ht Hl (st & Hst & Hle & Hm)]. split; auto.
  - by apply (la_seen _ _ _ _ Hla).
  - destruct (la_store _ _ _ _ Hla n st Hst) as (st' & Hst' & Hle' & Hm').
    exists st'. split_and!; [done|lia|]. intros data Hd. apply Hm. by apply Hm'.
Qed.

Lemma perm_later σ σ' g g' queue π :
  later σ σ' g g' → (∀ u, np_create π = Some u → u ∉ ng_seen g') →
  perm_ok σ g queue π → perm_ok σ' g' queue π.
Proof.
  intros Hla Hc (Hcr & Hso & Hfr). split_and!.
  - intros u Hu. split; [|by apply Hc]. apply (la_used _ _ _ _ Hla). by apply Hcr.
  - intros n seq t Hs. eapply source_later; eauto.
  - intros Hf n seq t Hs. destruct (Hfr Hf n seq t Hs); [left; by apply (la_sup _ _ _ _ Hla)|].
    right. by apply (la_done _ _ _ _ Hla).
Qed.

(** What is dropped with a free hand does not matter. *)
Lemma free_why σ g queue π n seq t0 :
  perm_ok σ g queue π → np_free π = true → np_source π = Some (n, seq, t0) →
  (n, seq) ∈ ng_sup g ∨
    ∀ data t, msg_at σ n seq = Some data → UnmarshalTask data = inr t → ID t ∈ ng_done g.
Proof.
  intros (_ & Hso & Hfr) Hf Hs. destruct (Hfr Hf n seq t0 Hs) as [?|Hdone]; [by left|right].
  intros data t Hd Ht. destruct (Hso n seq t0 Hs) as [_ _ _ _ _ (st & Hst & _ & Hm)].
  unfold msg_at in Hd. rewrite Hst in Hd. simpl in Hd. specialize (Hm data Hd). congruence.
Qed.

(** ** One call *)

Section call.
Context (σ σ' : jstore) (g : nghost) (th : nthread) {X : Type} (c : jcall X) (x : X).
Context (Hi : store_inv σ g) (Hq : nt_queue th ∈ queues).
Context (Hperm : perm_ok σ g (nt_queue th) (nt_perm th)).

Let g' := nghost_step q th (NCall c) x σ σ' g.

Lemma call_seen i : i ∈ ng_seen g' ↔ i ∈ stored_ids σ' ∨ i ∈ ng_seen g.
Proof. simpl. apply elem_of_union. Qed.

Lemma call_same : σ' = σ → call_superseded (nt_perm th) c x = ∅ →
  store_inv σ' g' ∧ store_le σ σ' ∧ (∀ i, i ∈ ng_seen g' → i ∈ ng_seen g).
Proof using Hi.
  intros Heq Hsup. subst g'. rewrite Heq. split_and!; [|apply store_le_refl|].
  - eapply inv_same; [exact Hi|..]; simpl; try done.
    + intros i. apply elem_of_union.
    + apply union_subseteq_r.
    + apply union_subseteq_r.
    + by rewrite Hsup, (left_id_L ∅ (∪)).
  - intros i [Hin|Hin]%elem_of_union; [|done]. by eapply stored_seen.
Qed.

Lemma call_dropped n seq : dropped n seq σ σ' → call_superseded (nt_perm th) c x = ∅ →
  ((n, seq) ∈ ng_sup g ∨
     ∀ data t, msg_at σ n seq = Some data → UnmarshalTask data = inr t → ID t ∈ ng_done g') →
  store_inv σ' g' ∧ store_le σ σ' ∧ (∀ i, i ∈ ng_seen g' → i ∈ ng_seen g).
Proof using Hi.
  intros Hd Hsup Hwhy.
  assert (∀ i, i ∈ stored_ids σ' → i ∈ stored_ids σ) as Hst.
  { destruct Hd as (st & Hst & ->). intros i. rewrite !elem_of_stored_ids.
    intros (n' & st' & seq' & d & t & Hst' & Hd' & Ht & <-).
    apply lookup_insert_Some in Hst' as [[<- <-]|[_ Hst']]; [|by exists n', st', seq', d, t].
    simpl in Hd'. apply lookup_delete_Some in Hd' as [_ Hd']. by exists n, st, seq', d, t. }
  destruct (inv_dropped q queues σ σ' g g' n seq Hi Hd) as [Hinv Hle]; simpl; try done.
  - intros i. apply elem_of_union.
  - apply union_subseteq_r.
  - apply union_subseteq_r.
  - by rewrite Hsup, (left_id_L ∅ (∪)).
  - split_and!; [done|done|]. intros i [Hin|Hin]%elem_of_union; [|done].
    eapply stored_seen; [exact Hi|by apply Hst].
Qed.
End call.
(** ** A publication *)

(** The task in the published message, and what it succeeds. *)
Lemma publish_task queue π subject data msgID :
  publish_ok q queue π subject data msgID →
  ∃ t, UnmarshalTask data = inr t ∧ json_string (ID t) ∧ task_ok t ∧
    match np_source π with
    | None => np_create π = Some (ID t) ∧ subject = tasksSubject q queue ∧ Attempts t = 0 ∧
              msgID = attemptMsgID (ID t) 0
    | Some (name, _, t0) => ID t = ID t0 ∧ successor q queue name t0 t subject msgID
    end.
Proof.
  intros (t & Hm & Hj & Hok & Hs). apply Unmarshal_MarshalTask in Hm.
  pose proof (wire_ID t Hj) as Hid. exists (wire t). rewrite Hid. split_and!; [done|done| |].
  - unfold task_ok. by rewrite wire_MaxRetries.
  - destruct (np_source π) as [[[n seq] t0]|]; [|by rewrite wire_Attempts].
    destruct Hs as [Heq Hs]. split; [done|]. inversion Hs; subst.
    + rewrite <- Hid, <- wire_Attempts. apply succ_retry; [done|by rewrite wire_Attempts|].
      by rewrite wire_Attempts, wire_MaxRetries.
    + by apply succ_dead.
    + apply succ_requeue; [done|by rewrite wire_Attempts].
Qed.

(** The stream the message goes to, and what is known of it there. *)
Lemma publish_stream σ g queue π subject msgID t n st :
  store_inv σ g → queue ∈ queues → perm_ok σ g queue π → σ !! n = Some st → st_subject st = subject →
  task_ok t →
  match np_source π with
  | None => np_create π = Some (ID t) ∧ subject = tasksSubject q queue ∧ Attempts t = 0 ∧
            msgID = attemptMsgID (ID t) 0
  | Some (name, _, t0) => ID t = ID t0 ∧ successor q queue name t0 t subject msgID
  end →
  ID t ∈ ng_used g ∧ (∀ qq, qq ∈ queues → n = streamName q qq → live_task t) ∧
  (ID t ∈ ng_seen g ∨ np_create π = Some (ID t)) ∧
  ((msgID = attemptMsgID (ID t) (Attempts t) ∧ n = streamName q queue) ∨
   (msgID = "" ∧ ((n = streamName q queue ∧ subject = tasksSubject q queue) ∨ n = dlqStreamName q queue))).
Proof using Hqueues.
  intros Hi Hq (Hcr & Hso & _) Hst Hsub Hok Hs.
  destruct (subject_stream q queues n st queue (ni_shape _ _ _ _ Hi n st Hst) Hq) as [Htasks Hdead].
  destruct (np_source π) as [[[n0 seq0] t0]|].
  - destruct Hs as [Hid Hs]. destruct (Hso n0 seq0 t0 eq_refl) as [_ Hseen _ _ Hlive _].
    split_and!; [rewrite Hid; by apply (ni_used _ _ _ _ Hi)| |left; by rewrite Hid|].
    + intros qq Hqq Hn. split; [done|].
      inversion Hs as [Hn0 Ha Hmax Hsj Hm|Hn0 Hsj Hm|Hn0 Ha Hsj Hm].
      * destruct (Hlive Hn0) as [_ ?]. lia.
      * rewrite Hdead in Hn by congruence. symmetry in Hn.
        by apply (tasks_not_dlq q queues Hqueues) in Hn.
      * unfold task_ok in Hok. lia.
    + inversion Hs as [Hn0 Ha Hmax Hsj Hm|Hn0 Hsj Hm|Hn0 Ha Hsj Hm].
      * left. split; [done|]. apply Htasks. congruence.
      * right. split; [done|]. right. apply Hdead. congruence.
      * right. split; [done|]. left. split; [apply Htasks; congruence|done].
  - destruct Hs as (Hc & Hsj & Ha & ->). destruct (Hcr _ Hc) as [Hu _]. rewrite Ha.
    split_and!; [done| |by right|left; split; [done|apply Htasks; congruence]].
    intros qq _ _. split; [done|]. unfold task_ok in Hok. lia.
Qed.

(** The source is behind its successor. *)
Lemma publish_behind σ g queue π subject msgID t n err :
  perm_ok σ g queue π → (msgID ≠ "" → n = streamName q queue) →
  match np_source π with
  | None => True
  | Some (name, _, t0) => ID t = ID t0 ∧ successor q queue name t0 t subject msgID
  end →
  behind σ n msgID t (call_superseded π (Publish subject [] msgID) err).
Proof.
  intros (_ & Hso & _) Hn Hs n0 seq0 Hin. simpl in Hin.
  destruct err as [e|]; [by apply not_elem_of_empty in Hin|].
  destruct (np_source π) as [[[n1 seq1] t1]|]; [|by apply not_elem_of_empty in Hin].
  apply elem_of_singleton in Hin as [= -> ->].
  destruct (Hso n1 seq1 t1 eq_refl) as [_ _ _ _ _ (st & Hst & Hle & Hm)].
  exists st. split_and!; [done|done|]. intros d0 Hd0. exists t1. destruct Hs as [Hid Hs].
  split_and!; [by apply Hm|done|]. intros Hne. specialize (Hn Hne). inversion Hs; subst; [|done..].
  split; [done|lia].
Qed.

Lemma publish_step σ σ' g th subject data msgID err :
  store_inv σ g → nt_queue th ∈ queues → perm_ok σ g (nt_queue th) (nt_perm th) →
  publish_ok q (nt_queue th) (nt_perm th) subject data msgID →
  call_sem (Publish subject data msgID) σ err σ' →
  let g' := nghost_step q th (NCall (Publish subject data msgID)) err σ σ' g in
  store_inv σ' g' ∧ store_le σ σ' ∧
    (∀ i, i ∈ ng_seen g' → i ∈ ng_seen g ∨ np_create (nt_perm th) = Some i).
Proof using Hqueues.
  intros Hi Hq Hperm Hpub Hsem g'.
  assert (ng_risky g ⊆ ng_risky g') as Hrisk by (simpl; apply union_subseteq_r).
  assert (ng_done g ⊆ ng_done g') as Hdone by (simpl; apply union_subseteq_r).
  assert (∀ i, i ∈ ng_seen g' ↔ i ∈ stored_ids σ' ∨ i ∈ ng_seen g) as Hseen by (intros i; apply elem_of_union).
  destruct Hsem as [(n & st & Hst & Hsub & Hout)|[Herr ->]].
  2: { destruct (call_same σ σ g th (Publish subject data msgID) err Hi eq_refl) as (? & ? & Hs); [by destruct err|].
       split_and!; [done|done|]. intros i Hin. left. by apply Hs. }
  destruct (publish_task _ _ _ _ _ Hpub) as (t & Ht & Hj & Hok & Hs).
  destruct (publish_stream σ g _ _ subject msgID t n st Hi Hq Hperm Hst Hsub Hok Hs)
    as (Hused & Hlive & Hnew & Hkind).
  assert (behind σ n msgID t (call_superseded (nt_perm th) (Publish subject data msgID) err)) as Hbeh.
  { eapply publish_behind; [exact Hperm| |by destruct (np_source (nt_perm th)) as [[[??]?]|]].
    intros Hne. destruct Hkind as [[_ ?]|[? _]]; done. }
  destruct Hout as [(Hne & Hin & ->)|(Hfresh & ->)].
  - destruct Hkind as [[-> Hn]|[? _]]; [|done].
    split_and!; [|apply store_le_refl|].
    2: { intros i [Hin'|?]%Hseen; [left; by eapply stored_seen|by left]. }
    destruct (decide (1 ≤ Attempts t)) as [Hpos|Hpos].
    + eapply inv_duplicate; [exact Hi|exact Hst|by exists (nt_queue th)|exact Hin|done|exact Hbeh|done..].
    + apply (inv_same q queues σ g g' Hi); try done. simpl.
      destruct (np_source (nt_perm th)) as [[[n0 seq0] t0]|] eqn:Hsrc.
      * exfalso. destruct Hs as [_ Hs]. destruct Hperm as (_ & Hso & _).
        destruct (Hso _ _ _ Hsrc) as [_ _ _ _ Hl0 _].
        inversion Hs; subst; [|done..]. destruct (Hl0 eq_refl) as [_ ?]. lia.
      * destruct err; by rewrite (left_id_L ∅ (∪)).
  - destruct (inv_stored q queues σ g g' n st data msgID t
      (call_superseded (nt_perm th) (Publish subject data msgID) err)) as (Hinv & Hle & Hs'); try done.
    + exists t. split_and!; [done..| |done]. apply elem_of_union_l. by apply elem_of_singleton.
    + destruct Hkind as [[Hid _]|[Hid Hn]]; [by left|right]. split; [done|].
      destruct Hn as [[Hn Hsubj]|Hn].
      * destruct (remembers σ subject (ID t)) eqn:Hrem.
        -- left. simpl. apply elem_of_union_l. unfold task_of. rewrite Ht.
           rewrite bool_decide_eq_true_2 by done. rewrite Hrem. simpl. by apply elem_of_singleton.
        -- right. intros qq k _ _ Hk Hin. rewrite <- Hsub in Hrem.
           rewrite (remembers_true σ n st (ID t) k Hst Hin) in Hrem; [done|lia].
      * right. intros qq k Hqq Hn' _ _. subst n. symmetry in Hn'.
        by apply (tasks_not_dlq q queues Hqueues) in Hn'.
    + split_and!; [done|done|]. intros i [?| ->]%Hs'; [by left|].
      destruct Hnew; [by left|by right].
Qed.
(** ** Any call *)

Lemma removed_done σ g th n seq x :
  nt_deleting th = true → ∀ σ', dropped n seq σ σ' →
  let g' := nghost_step q th (NCall (DeleteMsg n seq)) x σ σ' g in
  ∀ data t, msg_at σ n seq = Some data → UnmarshalTask data = inr t → ID t ∈ ng_done g'.
Proof.
  intros Hdel σ' (st & Hst & ->) g' data t Hd Ht. simpl. rewrite Hdel, Hd.
  assert (msg_at (<[n:=drop_msg seq st]> σ) n seq = None) as ->.
  { unfold msg_at. rewrite lookup_insert_eq. simpl. by rewrite lookup_delete_eq. }
  unfold task_of. rewrite Ht. apply elem_of_union_l. by apply elem_of_singleton.
Qed.

Lemma call_step {X} σ σ' g th (c : jcall X) (x : X) :
  store_inv σ g → nt_queue th ∈ queues → perm_ok σ g (nt_queue th) (nt_perm th) →
  call_legal q (nt_queue th) (nt_deleting th) (nt_perm th) c → call_sem c σ x σ' →
  let g' := nghost_step q th (NCall c) x σ σ' g in
  store_inv σ' g' ∧ store_le σ σ' ∧
    (∀ i, i ∈ ng_seen g' → i ∈ ng_seen g ∨
       (np_create (nt_perm th) = Some i ∧ np_create (call_perm (nt_perm th) c x) = None)).
Proof using Hqueues.
  intros Hi Hq Hperm Hleg Hsem g'.
  enough (store_inv σ' g' ∧ store_le σ σ' ∧ (∀ i, i ∈ ng_seen g' → i ∈ ng_seen g) ∨
    store_inv σ' g' ∧ store_le σ σ' ∧
    (∀ i, i ∈ ng_seen g' → i ∈ ng_seen g ∨ np_create (nt_perm th) = Some i) ∧
    np_create (call_perm (nt_perm th) c x) = None) as [(?&?&?)|(?&?&Hs&Hn)].
  { split_and!; auto. }
  { split_and!; [done|done|]. intros i Hin. destruct (Hs i Hin); auto. }
  assert (∀ d, (∃ t, np_source (nt_perm th) = Some (d_stream d, d_seq d, t)) → np_free (nt_perm th) = true →
    call_superseded (nt_perm th) c x = ∅ → σ' = σ ∨ dropped (d_stream d) (d_seq d) σ σ' →
    store_inv σ' g' ∧ store_le σ σ' ∧ (∀ i, i ∈ ng_seen g' → i ∈ ng_seen g)) as Hdrop.
  { intros d (t & Hsrc) Hf Hsup [->|Hd]; [by apply call_same|].
    eapply call_dropped; [done|exact Hd|done|].
    destruct (free_why σ g _ _ _ _ _ Hperm Hf Hsrc) as [?|Hw]; [by left|right].
    intros data t' ? ?. simpl. apply elem_of_union_r. by eapply Hw. }
  destruct c; simpl in Hleg.
  - left. destruct Hsem as [Hsem|[_ ->]]; [|by apply call_same].
    destruct (inv_ensured q queues Hqueues σ σ' g (nt_queue th) name subject Hi Hq Hleg Hsem) as [Hinv Hle].
    destruct (call_same σ' σ' g th (EnsureStream name subject) x Hinv eq_refl eq_refl) as (Hinv' & _ & Hs).
    assert (nghost_step q th (NCall (EnsureStream name subject)) x σ' σ' g = g') as Heq by done.
    rewrite Heq in Hinv', Hs. by split_and!.
  - left. by apply call_same.
  - right. destruct (publish_step σ σ' g th subject data msgID x Hi Hq Hperm Hleg Hsem) as (?&?&?).
    split_and!; try done. by destruct x.
  - left. destruct Hsem as [-> _]. by apply call_same.
  - left. destruct Hsem as [-> _]. by apply call_same.
  - left. destruct Hsem as [-> _]. by apply call_same.
  - left. destruct Hleg as (t & Hsrc & Hwhy).
    assert (dropped name seq σ σ' → store_inv σ' g' ∧ store_le σ σ' ∧ (∀ i, i ∈ ng_seen g' → i ∈ ng_seen g)) as Hd.
    { intros Hd. destruct Hwhy as [Hf|Hdel].
      - apply (Hdrop (mkDelivery name seq)); [by exists t|done|done|by right].
      - eapply call_dropped; [done|exact Hd|done|]. right. by apply removed_done. }
    destruct x as [[]|]; simpl in Hsem.
    + subst σ'. by apply call_same.
    + subst σ'. by apply call_same.
    + destruct Hsem as [->|?]; [by apply call_same|auto].
    + destruct Hsem as [Hsem _]. by apply Hd.
  - left. destruct Hleg as (t & Hsrc & Hf). apply (Hdrop d); eauto.
  - left. by apply call_same.
  - left. by apply call_same.
  - done.
Qed.

(** The thread's own permission after the call. *)
Lemma perm_step {X} σ σ' g th (c : jcall X) (x : X) :
  store_inv σ g → nt_queue th ∈ queues → perm_ok σ g (nt_queue th) (nt_perm th) →
  call_legal q (nt_queue th) (nt_deleting th) (nt_perm th) c → call_sem c σ x σ' →
  let g' := nghost_step q th (NCall c) x σ σ' g in
  later σ σ' g g' →
  (∀ i, i ∈ ng_seen g' → i ∈ ng_seen g ∨
     (np_create (nt_perm th) = Some i ∧ np_create (call_perm (nt_perm th) c x) = None)) →
  perm_ok σ' g' (nt_queue th) (call_perm (nt_perm th) c x) ∧ answer_ok (NCall c) x.
Proof.
  intros Hi Hq Hperm Hleg Hsem g' Hla Hseen.
  assert (call_perm (nt_perm th) c x = nt_perm th → perm_ok σ' g' (nt_queue th) (nt_perm th)) as Hsame.
  { intros Heq. eapply perm_later; [exact Hla| |exact Hperm]. intros u Hu Hin.
    destruct (Hseen u Hin) as [?|[_ Hn]]; [|by rewrite Heq, Hu in Hn].
    destruct Hperm as (Hcr & _ & _). by destruct (Hcr u Hu). }
  destruct c; try (split; [by apply Hsame|done]).
  - (* Publish *)
    split; [|done]. destruct Hperm as (Hcr & Hso & Hfr). simpl. split_and!.
    + by destruct x.
    + intros n seq t Hs. eapply source_later; [exact Hla|]. apply Hso. by destruct x.
    + intros Hf n seq t Hs. destruct x as [e|]; simpl in Hf, Hs.
      * destruct (Hfr Hf n seq t Hs); [left; by apply (la_sup _ _ _ _ Hla)|].
        right. by apply (la_done _ _ _ _ Hla).
      * left. simpl. rewrite Hs. apply elem_of_union_l. by apply elem_of_singleton.
  - (* GetMsg *)
    destruct Hsem as [-> Hget]. simpl in Hleg. subst name. destruct x as [err|data]; [by split; [apply Hsame|]|].
    destruct Hget as (st & Hst & Hd).
    destruct (ni_msgs _ _ _ _ Hi _ _ _ _ Hst Hd) as (t & Ht & Hj & Hok & Hin & Hlv). split.
    2: { simpl. intros t' Ht'. rewrite Ht in Ht'. by injection Ht' as <-. }
    unfold call_perm in *. rewrite Ht in Hseen |- *. destruct Hperm as (Hcr & Hso & Hfr). split_and!; simpl.
    + intros u Hu. destruct (Hcr u Hu) as [? Hn]. split; [done|]. intros Hin'.
      destruct (Hseen u Hin') as [?|[_ Hn']]; [done|]. simpl in Hn'. congruence.
    + intros n seq' t' [= <- <- <-]. split; auto.
      * simpl. by apply elem_of_union_r.
      * by apply Hlv.
      * exists st. split_and!; [done|by eapply (ni_last _ _ _ _ Hi)|]. intros d Hd'. congruence.
    + by intros ?.
Qed.
(** ** The invariant of the system *)

Record nthread_ok (σ : jstore) (g : nghost) (th : nthread) : Prop := {
  nk_queue : nt_queue th ∈ queues;
  nk_legal : nlegal q (nt_queue th) (nt_deleting th) (nt_perm th) (nt_prog th);
  nk_perm : perm_ok σ g (nt_queue th) (nt_perm th)
}.

Definition creates_apart (l : list nthread) : Prop :=
  ∀ j k thj thk u, l !! j = Some thj → l !! k = Some thk →
    np_create (nt_perm thj) = Some u → np_create (nt_perm thk) = Some u → j = k.

Record nsys_inv {J} `{JetStream J} (s : nsys J) : Prop := {
  nv_store : store_inv (js_store (ns_js s)) (ns_ghost s);
  nv_threads th : th ∈ ns_threads s → nthread_ok (js_store (ns_js s)) (ns_ghost s) th;
  nv_create : creates_apart (ns_threads s)
}.

Lemma thread_later σ σ' g g' th :
  later σ σ' g g' → (∀ u, np_create (nt_perm th) = Some u → u ∉ ng_seen g') →
  nthread_ok σ g th → nthread_ok σ' g' th.
Proof. intros Hla Hc [Hq Hl Hp]. split; [done|done|]. by eapply perm_later. Qed.

(** Replacing a thread whose permission to create does not grow. *)
Lemma creates_insert l i th th' :
  creates_apart l → l !! i = Some th →
  (∀ u, np_create (nt_perm th') = Some u → np_create (nt_perm th) = Some u) →
  creates_apart (<[i:=th']> l).
Proof.
  intros Hl Hi Hc j k thj thk u Hj Hk Hcj Hck.
  apply list_lookup_insert_Some in Hj as [(<- & <- & _)|[Hnj Hj]],
    Hk as [(<- & <- & _)|[Hnk Hk]]; eauto.
Qed.

Lemma creates_app l th :
  creates_apart l →
  (∀ u, np_create (nt_perm th) = Some u → ∀ th', th' ∈ l → np_create (nt_perm th') ≠ Some u) →
  creates_apart (l ++ [th]).
Proof.
  intros Hl Hc j k thj thk u Hj Hk Hcj Hck.
  apply lookup_app_Some in Hj as [Hj|[Hlj Hj]], Hk as [Hk|[Hlk Hk]].
  - by eapply Hl.
  - apply list_lookup_singleton_Some in Hk as [_ <-].
    destruct (Hc u Hck thj); [by eapply list_elem_of_lookup_2|done].
  - apply list_lookup_singleton_Some in Hj as [_ <-].
    destruct (Hc u Hcj thk); [by eapply list_elem_of_lookup_2|done].
  - apply list_lookup_singleton_Some in Hj as [? _], Hk as [? _]. lia.
Qed.

Lemma next_create {X} π (e : neff X) x u :
  np_create (next_perm π e x) = Some u → np_create π = Some u.
Proof.
  destruct e as [|X c|X f|t]; simpl; try done; [|by destruct (x.2)].
  destruct c; simpl; try done; [by destruct x|].
  destruct x as [|data]; [done|]. by destruct (UnmarshalTask data).
Qed.

(** ** Threads *)

Section system.
Context {J : Type} `{JetStream J} {laws : JetStreamLaws J}.

(** What a step of thread [i] has to show. *)
Lemma inv_thread s i th th' j t caches g' :
  nsys_inv s → ns_threads s !! i = Some th →
  let σ := js_store (ns_js s) in
  let σ' := js_store j in
  store_inv σ' g' → later σ σ' (ns_ghost s) g' →
  (∀ u, u ∈ ng_seen g' → u ∈ ng_seen (ns_ghost s) ∨ np_create (nt_perm th) = Some u) →
  nthread_ok σ' g' th' →
  (∀ u, np_create (nt_perm th') = Some u → np_create (nt_perm th) = Some u) →
  nsys_inv (mkNSys j t caches (<[i:=th']> (ns_threads s)) g').
Proof.
  intros [Hst Hths Hcr] Hi σ σ' Hst' Hla Hseen Hth' Hc. split; simpl; [done| |by eapply creates_insert].
  intros th0 Hin. apply list_elem_of_lookup in Hin as [k Hk].
  apply list_lookup_insert_Some in Hk as [(<- & <- & _)|[Hne Hk]]; [done|].
  eapply thread_later; [exact Hla| |by eapply Hths, list_elem_of_lookup_2].
  intros u Hu Hin. destruct (Hseen u Hin) as [Hin'|Hu'].
  - destruct (nk_perm _ _ _ (Hths th0 (list_elem_of_lookup_2 _ _ _ Hk))) as (Hcr0 & _).
    by destruct (Hcr0 u Hu).
  - by apply Hne, (Hcr i k th th0 u).
Qed.

Lemma inv_nstep s i th s' :
  nsys_inv s → ns_threads s !! i = Some th → nstep_thread q i th s = Some s' → nsys_inv s'.
Proof using Hqueues laws.
  intros Hs Hi Hstep. unfold nstep_thread in Hstep.
  destruct (ns_caches s !! nt_node th) as [cache|]; [|done]. simpl in Hstep.
  destruct (nv_threads _ Hs th (list_elem_of_lookup_2 _ _ _ Hi)) as [Hq Hl Hp].
  pose proof (nv_store _ Hs) as Hst.
  destruct (nt_prog th) as [a|X e k] eqn:Hprog; [done|]. simpl in Hl. destruct Hl as [Heff Hk].
  destruct (nexec e (ns_js s) cache (ns_now s)) as [[[x j] cache']|] eqn:Hex; [|done].
  simpl in Hstep. injection Hstep as <-.
  set (σ := js_store (ns_js s)) in *. set (σ' := js_store j) in *.
  set (g' := nghost_step q th e x σ σ' (ns_ghost s)) in *.
  assert (ng_used (ns_ghost s) ⊆ ng_used g' ∧ ng_seen (ns_ghost s) ⊆ ng_seen g' ∧
    ng_done (ns_ghost s) ⊆ ng_done g' ∧ ng_sup (ns_ghost s) ⊆ ng_sup g') as (Hu & Hse & Hd & Hsu).
  { split_and!; [done|apply union_subseteq_r..]. }
  (* calls that leave the server alone *)
  assert (σ' = σ → risky q (nt_queue th) σ e = ∅ → superseded (nt_perm th) e x = ∅ →
    next_perm (nt_perm th) e x = nt_perm th → answer_ok e x →
    nsys_inv (mkNSys j (ns_now s) (<[nt_node th := cache']> (ns_caches s))
      (<[i := with_prog (k x) (next_perm (nt_perm th) e x) th]> (ns_threads s)) g')) as Hquiet.
  { intros Heq Hri Hsup Hnext Hans.
    assert (∀ u, u ∈ ng_seen g' → u ∈ ng_seen (ns_ghost s)) as Hsame.
    { intros u [Hin|?]%elem_of_union; [|done]. rewrite Heq in Hin. by eapply stored_seen. }
    assert (later σ σ' (ns_ghost s) g') as Hla by (split; [rewrite Heq; apply store_le_refl|done..]).
    eapply inv_thread; [done|exact Hi| |exact Hla|by left; auto| |by apply next_create].
    - fold σ'. rewrite Heq. eapply inv_same; [exact Hst| |done|done| |].
      + intros u. simpl. rewrite elem_of_union. by rewrite Heq.
      + apply union_subseteq_r.
      + simpl. by rewrite Hsup, (left_id_L ∅ (∪)).
    - split; simpl; [done|by apply Hk|]. rewrite Hnext. eapply perm_later; [exact Hla| |done].
      intros u Hu' Hin. destruct Hp as (Hcr & _). destruct (Hcr u Hu') as [_ Hn]. by apply Hn, Hsame. }
  destruct e as [|X c|X f|t]; simpl in Hex; simplify_eq.
  - by apply Hquiet.
  - destruct (js_call c (ns_js s)) as [x0 j0] eqn:Hcall. simplify_eq.
    pose proof (js_call_ok c (ns_js s)) as Hsem. rewrite Hcall in Hsem. simpl in Hsem. fold σ σ' in Hsem.
    destruct (call_step σ σ' (ns_ghost s) th c x Hst Hq Hp Heff Hsem) as (Hst' & Hle & Hseen).
    assert (later σ σ' (ns_ghost s) g') as Hla by (split; done).
    destruct (perm_step σ σ' (ns_ghost s) th c x Hst Hq Hp Heff Hsem Hla Hseen) as [Hp' Hans].
    eapply inv_thread; [done|exact Hi|exact Hst'|exact Hla| | |by apply next_create].
    + intros u Hin. destruct (Hseen u Hin) as [?|[? _]]; auto.
    + split; simpl; [done|by apply Hk|done].
  - destruct (f cache) as [x0 c0]. simplify_eq. by apply Hquiet.
Qed.

(** A handler that returns has not rewritten the task, or the history says so. *)
Lemma inv_nhandled s i th h s' :
  nsys_inv s → ns_threads s !! i = Some th → nhandled i th h s = Some s' →
  ng_rewritten (ns_ghost s') = false → nsys_inv s'.
Proof.
  intros Hs Hi Hstep Hkept. unfold nhandled in Hstep.
  destruct (nv_threads _ Hs th (list_elem_of_lookup_2 _ _ _ Hi)) as [Hq Hl Hp].
  pose proof (nv_store _ Hs) as Hst.
  destruct (nt_prog th) as [a|X e k] eqn:Hprog; [done|].
  destruct e as [|X c|X f|t]; try done. simpl in Hl. destruct Hl as [(n & seq & t0 & Hsrc & Hid) Hk].
  injection Hstep as <-. simpl in Hkept.
  set (x := invokeHandler h t) in *.
  set (g' := match x.2 with None => nghost_done (ID t) (ns_ghost s)
             | Some _ => nghost_failed t x.1 (ns_ghost s) end) in *.
  assert (is_Some x.2 → keeps_key t x.1) as Hkeep.
  { intros [e He]. unfold g' in Hkept. rewrite He in Hkept. simpl in Hkept.
    apply orb_false_iff in Hkept as [_ Hkept]. by apply negb_false_iff, bool_decide_eq_true in Hkept. }
  assert (later (js_store (ns_js s)) (js_store (ns_js s)) (ns_ghost s) g') as Hla.
  { unfold g'. destruct x.2; (split; [apply store_le_refl|..]); try done. apply union_subseteq_r. }
  eapply inv_thread; [done|exact Hi| |exact Hla| | |].
  - eapply inv_same; [exact Hst| |..]; unfold g'; destruct x.2; simpl; try done;
      try apply union_subseteq_r; intros u; (split; [by right|intros [?|?]; [by eapply stored_seen|done]]).
  - intros u Hin. left. unfold g' in Hin. by destruct x.2.
  - split; simpl; [done|by apply Hk|]. destruct Hp as (Hcr & Hso & Hfr).
    assert (∀ u, np_create (nt_perm th) = Some u → u ∈ ng_used g' ∧ u ∉ ng_seen g') as Hcr'.
    { unfold g'. by destruct x.2. }
    assert (∀ n seq t, np_source (nt_perm th) = Some (n, seq, t) →
      source_ok (js_store (ns_js s)) g' (nt_queue th) n seq t) as Hso'.
    { intros n1 seq1 t1 Hs1. eapply source_later; [exact Hla|auto]. }
    clear Hkept Hkeep. unfold g' in *. destruct x.2; simpl; [by split_and!|].
    split_and!; simpl; [done|done|]. intros _ n1 seq1 t1 Hs1. simpl in Hs1. right. simpl.
    rewrite Hsrc in Hs1. injection Hs1 as <- <- <-. rewrite Hid. apply elem_of_union_l.
    by apply elem_of_singleton.
  - intros u. simpl. by destruct x.2.
Qed.
(** ** Events *)

Lemma nlegal_map {A B} queue b (p : nprogram A) (f : A → B) : ∀ π,
  nlegal q queue b π p → nlegal q queue b π (p ≫= λ a, mret (f a)).
Proof.
  induction p as [a|X e k IH]; intros π; simpl; [done|].
  intros [He Hk]. split; [done|]. intros x Hx. apply IH. by apply Hk.
Qed.

Lemma nmethod_legal valid c g :
  (∀ u, valid u = true → json_string u) → ncall_ok valid c g →
  nlegal q (call_queue c) (is_delete c) (ncall_perm c) (nmethod q c).
Proof.
  intros Hvalid Hok. destruct c; simpl in Hok |- *; apply nlegal_map.
  - apply nats_Enqueue_legal; [apply Hvalid, Hok|apply Hok].
  - apply Consume_setup_legal.
  - apply nats_ListDeadTasks_legal.
  - apply nats_RequeueDeadTask_legal.
  - apply nats_DeleteDeadTask_legal.
Qed.

(** A new thread; the history may record its identifier. *)
Lemma inv_spawn s th g' :
  nsys_inv s → later (js_store (ns_js s)) (js_store (ns_js s)) (ns_ghost s) g' →
  ng_seen g' = ng_seen (ns_ghost s) → store_inv (js_store (ns_js s)) g' →
  nthread_ok (js_store (ns_js s)) g' th →
  (∀ u, np_create (nt_perm th) = Some u → u ∉ ng_used (ns_ghost s)) →
  nsys_inv (mkNSys (ns_js s) (ns_now s) (ns_caches s) (ns_threads s ++ [th]) g').
Proof.
  intros [Hst Hths Hcr] Hla Hseen Hst' Hth Hc. split; simpl; [done| |].
  - intros th0 [Hin|Hin]%elem_of_app.
    + eapply thread_later; [exact Hla| |by apply Hths]. intros u Hu. rewrite Hseen.
      destruct (nk_perm _ _ _ (Hths th0 Hin)) as (Hcr0 & _). by apply Hcr0.
    + by apply list_elem_of_singleton in Hin as ->.
  - apply creates_app; [done|]. intros u Hu th0 Hin Hu'.
    destruct (nk_perm _ _ _ (Hths th0 Hin)) as (Hcr0 & _). destruct (Hcr0 u Hu'). by apply (Hc u).
Qed.

Lemma inv_client valid s n c s' :
  (∀ u, valid u = true → json_string u) →
  nsys_inv s → nstep q queues valid (NClient n c) s = Some s' → nsys_inv s'.
Proof.
  intros Hvalid Hs Hstep. simpl in Hstep. destruct (ns_caches s !! n); [|done]. simpl in Hstep.
  case_decide as Hc; [|done]. destruct Hc as [Hq Hok]. injection Hstep as <-.
  pose proof (nv_store _ Hs) as Hst.
  assert (later (js_store (ns_js s)) (js_store (ns_js s)) (ns_ghost s) (ncall_use c (ns_ghost s))) as Hla.
  { destruct c; (split; [apply store_le_refl|..]); try done. apply union_subseteq_r. }
  apply inv_spawn; [done|exact Hla|by destruct c| | |].
  - eapply inv_same; [exact Hst|..]; try (by destruct c); [|apply Hla].
    intros u. destruct c; simpl; (split; [by right|intros [?|?]; [by eapply stored_seen|done]]).
  - split; simpl; [done|by eapply nmethod_legal|]. destruct c; simpl; (split_and!; [|done|done]); try done.
    intros u [= <-]. simpl in Hok. destruct Hok as (Hfresh & _).
    split; [apply elem_of_union_l; by apply elem_of_singleton|].
    intros Hin. by apply Hfresh, (ni_used _ _ _ _ Hst).
  - intros u. destruct c; simpl; try done. intros [= <-]. by destruct Hok.
Qed.

Lemma inv_deliver valid s n queue opts seq s' :
  nsys_inv s → nstep q queues valid (NDeliver n queue opts seq) s = Some s' → nsys_inv s'.
Proof.
  intros Hs Hstep. simpl in Hstep. destruct (ns_caches s !! n); [|done]. simpl in Hstep.
  destruct (msg_at (js_store (ns_js s)) (streamName q queue) seq) as [data|] eqn:Hmsg; [|done].
  simpl in Hstep. destruct (task_of data) as [t|] eqn:Ht; [|done]. simpl in Hstep.
  case_decide as Hq; [|done]. injection Hstep as <-. apply task_of_Some in Ht.
  pose proof (nv_store _ Hs) as Hst. unfold msg_at in Hmsg.
  destruct (js_store (ns_js s) !! streamName q queue) as [st|] eqn:Hstr; [|done]. simpl in Hmsg.
  destruct (ni_msgs _ _ _ _ Hst _ _ _ _ Hstr Hmsg) as (t' & Ht' & Hj & Hok & Hin & Hlv).
  assert (t' = t) as -> by congruence. specialize (Hlv queue Hq eq_refl).
  apply inv_spawn; [done|by split; try apply store_le_refl|done|done| |done].
  split; simpl; [done|apply nlegal_map; by eapply handleMsg_legal|]. split_and!; [done| |done].
  intros n1 seq1 t1 [= <- <- <-]. split; auto. exists st. split_and!; [done|by eapply (ni_last _ _ _ _ Hst)|].
  intros d Hd. congruence.
Qed.

Lemma nsys_inv_step valid e s s' :
  (∀ u, valid u = true → json_string u) →
  nsys_inv s → nstep q queues valid e s = Some s' → ng_rewritten (ns_ghost s') = false → nsys_inv s'.
Proof using Hqueues laws.
  intros Hvalid Hs Hstep Hkept. destruct e as [d|n c|n queue opts seq|i|i h|i].
  - simpl in Hstep. case_decide; [|done]. injection Hstep as <-. destruct Hs as [Hst Hths Hcr].
    destruct (inv_elapsed q queues _ _ _ (js_elapse_ok d (ns_js s)) Hst) as [Hst' Hle].
    split; simpl; [done| |done]. intros th Hin. eapply thread_later; [by split|..|by apply Hths].
    intros u Hu. destruct (nk_perm _ _ _ (Hths th Hin)) as (Hcr0 & _). by apply Hcr0.
  - by eapply inv_client.
  - by eapply inv_deliver.
  - simpl in Hstep. destruct (ns_threads s !! i) as [th|] eqn:Hi; [|done]. by eapply inv_nstep.
  - simpl in Hstep. destruct (ns_threads s !! i) as [th|] eqn:Hi; [|done]. by eapply inv_nhandled.
  - simpl in Hstep. destruct (ns_threads s !! i) as [th|] eqn:Hi; [|done]. injection Hstep as <-.
    eapply inv_thread; [done|exact Hi|apply Hs| |by left| |done].
    + split; [apply store_le_refl|done..].
    + destruct (nv_threads _ Hs th (list_elem_of_lookup_2 _ _ _ Hi)) as [Hq _ _].
      split; simpl; [done|done|]. by split_and!.
Qed.

Lemma nsys_init_inv n j t : js_store j = ∅ → nsys_inv (nsys_init n j t).
Proof.
  intros Hj. split; simpl.
  - rewrite Hj. split; simpl; intros *; try (by rewrite lookup_empty); try (by intros ?%not_elem_of_empty).
    done.
  - intros th Hin. by apply elem_of_nil in Hin.
  - intros j0 k thj thk u Hj0. done.
Qed.

(** What a handler has rewritten stays rewritten. *)
Lemma rewritten_step valid e s s' :
  nstep q queues valid e s = Some s' → ng_rewritten (ns_ghost s') = false → ng_rewritten (ns_ghost s) = false.
Proof.
  intros Hstep. destruct e as [d|n c|n queue opts seq|i|i h|i]; simpl in Hstep.
  - case_decide; by simplify_eq.
  - destruct (ns_caches s !! n); [|done]. simpl in Hstep. case_decide; simplify_eq. by destruct c.
  - destruct (ns_caches s !! n); [|done]. simpl in Hstep.
    apply bind_Some in Hstep as (data & _ & Hstep). apply bind_Some in Hstep as (t & _ & Hstep).
    case_decide; by simplify_eq.
  - apply bind_Some in Hstep as (th & _ & Hstep). unfold nstep_thread in Hstep.
    apply bind_Some in Hstep as (cache & _ & Hstep). destruct (nt_prog th); [done|].
    apply bind_Some in Hstep as ([[x j] c'] & _ & [= <-]). done.
  - apply bind_Some in Hstep as (th & _ & Hstep). unfold nhandled in Hstep.
    destruct (nt_prog th) as [a|X e k]; [done|]. destruct e; try done. injection Hstep as <-. simpl.
    destruct (invokeHandler h t).2; simpl; [|done]. by intros [? _]%orb_false_iff.
  - apply bind_Some in Hstep as (th & _ & [= <-]). done.
Qed.

Lemma nreachable_inv valid n j t s :
  (∀ u, valid u = true → json_string u) → js_store j = ∅ →
  reachable (nstep q queues valid) (nsys_init n j t) s → ng_rewritten (ns_ghost s) = false → nsys_inv s.
Proof using Hqueues laws.
  intros Hvalid Hj Hreach.
  apply (reachable_invariant (nstep q queues valid)
    (λ s, ng_rewritten (ns_ghost s) = false → nsys_inv s) (nsys_init n j t) s); [|by intros _; apply nsys_init_inv|done].
  intros e s1 s2 Hs Hstep Hkept. eapply nsys_inv_step; [done| |exact Hstep|done].
  apply Hs. by eapply rewritten_step.
Qed.
End system.
End safety.
