(* ===== verification/NatsSubscription.v ===== *)
(** * The subscription of the JetStream backend

    The callback [Consume] registers, the goroutines it starts and
    [subscription.Stop] of src/nats_workqueue/workqueue.go. The client library
    calls the callback for one message at a time until its consume context is
    closed, which it is after [consCtx.Stop] once no callback is running; both
    are events here. A delivery's goroutine processes its message with
    [Nats.handleMsg], whose calls are those of [NatsSystem]; here it returns by
    an event. *)

From stdpp Require Import base tactics list numbers option gmap strings.
From S2P Require Import Prelude GoRuntime Contract Options Subscription.

(** ** State *)

(** Where the callback is. *)
Inductive callback :=
  | Idle
  | Selecting                     (** at its [select] *)
  | Acquired.                     (** past [sub.sem <- struct{}{}] *)

(** Where the goroutine of a delivery is. *)
Inductive delivering :=
  | Processing                    (** in [q.handleMsg] *)
  | Returned                      (** before [<-sub.sem] *)
  | Released                      (** before [sub.wg.Done()] *)
  | Finished.

(** The consume context of the client library. *)
Inductive consuming := Open | Stopping | Closed.

(** The goroutine [Stop] starts. *)
Inductive closer :=
  | NotStarted
  | AtClosed                      (** [<-s.consCtx.Closed()] *)
  | AtWait                        (** [s.wg.Wait()] *)
  | AtClose                       (** [close(s.done)] *)
  | Gone.

Record nsub := mkNSub {
  chans_ : chans;
  sub : subscription;             (** stopOnce, stopCh and done *)
  capacity : Z;                   (** of [sem] *)
  sem : Z;                        (** what is in [sem] *)
  wg : Z;
  consCtx : consuming;
  cb : callback;
  goroutines : list delivering;
  closing : closer
}.

Definition nsub_init (o : ConsumeOptions) : nsub :=
  let '(s, c) := newSubscription no_chans in
  mkNSub c s (Concurrency o) 0 0 Open Idle [] NotStarted.

(** ** Steps *)

Inductive event :=
  | Deliver                       (** the library calls the callback *)
  | Acquire                       (** [case sub.sem <- struct{}{}:] *)
  | Refuse                        (** [case <-sub.stopCh:], [msg.Nak()] *)
  | Spawn                         (** [sub.wg.Add(1); go func() ...] *)
  | Process (i : nat)             (** [q.handleMsg] returns *)
  | Release (i : nat)             (** [<-sub.sem] *)
  | WgDone (i : nat)              (** [sub.wg.Done()] *)
  | Stop                          (** [s.stopOnce.Do(...)] *)
  | Close_ctx                     (** the library closes the consume context *)
  | Closer.                       (** the goroutine of [Stop] goes on *)

Definition set_cb (x : callback) (s : nsub) : nsub :=
  mkNSub (chans_ s) (sub s) (capacity s) (sem s) (wg s) (consCtx s) x (goroutines s) (closing s).

Definition set_closing (x : closer) (s : nsub) : nsub :=
  mkNSub (chans_ s) (sub s) (capacity s) (sem s) (wg s) (consCtx s) (cb s) (goroutines s) x.

(** Goroutine [i] moves from [x] to [y] with [sem] and [wg] changed. *)
Definition goroutine_moves (i : nat) (x y : delivering) (dsem dwg : Z) (s : nsub) : nsub :=
  mkNSub (chans_ s) (sub s) (capacity s) (sem s + dsem) (wg s + dwg) (consCtx s) (cb s)
    (<[i:=y]> (goroutines s)) (closing s).

#[export] Instance callback_dec : EqDecision callback.
Proof. solve_decision. Defined.
#[export] Instance delivering_dec : EqDecision delivering.
Proof. solve_decision. Defined.
#[export] Instance consuming_dec : EqDecision consuming.
Proof. solve_decision. Defined.
#[export] Instance closer_dec : EqDecision closer.
Proof. solve_decision. Defined.

Definition when (P : Prop) `{Decision P} {A} (x : option A) : option A := if decide P then x else None.

(** [s.stopOnce.Do(func() { close(s.stopCh); s.consCtx.Stop(); go func() ... })] *)
Definition Stop_do (s : nsub) : option nsub :=
  if stopOnce (sub s) then Some s
  else '(sub', c) ← Stop_once (sub s) (chans_ s);
       Some (mkNSub c sub' (capacity s) (sem s) (wg s)
               (match consCtx s with Open => Stopping | x => x end) (cb s) (goroutines s) AtClosed).

(** [<-s.consCtx.Closed(); s.wg.Wait(); close(s.done)] *)
Definition closer_step (s : nsub) : option nsub :=
  match closing s with
  | AtClosed => when (consCtx s = Closed) (Some (set_closing AtWait s))
  | AtWait => when (wg s = 0) (Some (set_closing AtClose s))
  | AtClose =>
      c ← close_chan (done_ (sub s)) (chans_ s);
      Some (mkNSub c (sub s) (capacity s) (sem s) (wg s) (consCtx s) (cb s) (goroutines s) Gone)
  | NotStarted | Gone => None
  end.

(** [None] also for a panic: a channel closed twice. *)
Definition step (e : event) (s : nsub) : option nsub :=
  match e with
  | Deliver => when (cb s = Idle ∧ consCtx s ≠ Closed) (Some (set_cb Selecting s))
  | Acquire =>
      when (cb s = Selecting ∧ sem s < capacity s)
        (Some (mkNSub (chans_ s) (sub s) (capacity s) (sem s + 1) (wg s) (consCtx s) Acquired
                 (goroutines s) (closing s)))
  | Refuse => when (cb s = Selecting ∧ is_closed (stopCh (sub s)) (chans_ s)) (Some (set_cb Idle s))
  | Spawn =>
      when (cb s = Acquired)
        (Some (mkNSub (chans_ s) (sub s) (capacity s) (sem s) (wg s + 1) (consCtx s) Idle
                 (goroutines s ++ [Processing]) (closing s)))
  | Process i =>
      when (goroutines s !! i = Some Processing) (Some (goroutine_moves i Processing Returned 0 0 s))
  | Release i =>
      when (goroutines s !! i = Some Returned ∧ 0 < sem s)
        (Some (goroutine_moves i Returned Released (-1) 0 s))
  | WgDone i =>
      when (goroutines s !! i = Some Released ∧ 0 < wg s)
        (Some (goroutine_moves i Released Finished 0 (-1) s))
  | Stop => Stop_do s
  | Close_ctx =>
      when (consCtx s = Stopping ∧ cb s = Idle)
        (Some (mkNSub (chans_ s) (sub s) (capacity s) (sem s) (wg s) Closed (cb s)
                 (goroutines s) (closing s)))
  | Closer => closer_step s
  end.

(** ** Invariant *)

(** How many goroutines have a property. *)
Fixpoint count (P : delivering → bool) (l : list delivering) : Z :=
  match l with
  | [] => 0
  | x :: l => Z.b2z (P x) + count P l
  end.

Definition holds_token (x : delivering) : bool :=
  match x with Processing | Returned => true | _ => false end.
Definition unfinished (x : delivering) : bool :=
  match x with Finished => false | _ => true end.
Definition is_processing (x : delivering) : bool :=
  match x with Processing => true | _ => false end.

(** How far the goroutine of [Stop] has come. *)
Definition past_closed (x : closer) : bool :=
  match x with AtWait | AtClose | Gone => true | _ => false end.
Definition past_wait (x : closer) : bool :=
  match x with AtClose | Gone => true | _ => false end.

Record nsub_ok (s : nsub) : Prop := {
  no_chans_ok : chans_ok (chans_ s);
  no_made : made (stopCh (sub s)) (chans_ s) ∧ made (done_ (sub s)) (chans_ s);
  no_distinct : stopCh (sub s) ≠ done_ (sub s);
  no_once : is_closed (stopCh (sub s)) (chans_ s) ↔ stopOnce (sub s) = true;
  no_done : is_closed (done_ (sub s)) (chans_ s) ↔ closing s = Gone;
  no_started : stopOnce (sub s) = true ↔ closing s ≠ NotStarted;
  no_stopping : consCtx s = Open ↔ stopOnce (sub s) = false;
  no_sem : sem s = count holds_token (goroutines s) + (if decide (cb s = Acquired) then 1 else 0);
  no_capacity : 0 ≤ sem s ≤ capacity s;
  no_wg : wg s = count unfinished (goroutines s);
  no_idle : consCtx s = Closed → cb s = Idle;
  no_closed : past_closed (closing s) = true → consCtx s = Closed;
  no_waited : past_wait (closing s) = true → wg s = 0
}.

Lemma count_insert P l i x y :
  l !! i = Some x → count P (<[i:=y]> l) = count P l - Z.b2z (P x) + Z.b2z (P y).
Proof.
  revert i; induction l as [|z l IH]; intros [|i] Hi; simplify_eq/=; [lia|].
  rewrite (IH i) by done. lia.
Qed.

Lemma count_snoc P l x : count P (l ++ [x]) = count P l + Z.b2z (P x).
Proof. induction l as [|z l IH]; simpl; [lia|].  lia. Qed.

Lemma count_nonneg P l : 0 ≤ count P l.
Proof. induction l as [|z l IH]; simpl; [lia|].  destruct (P z); simpl; lia. Qed.

Lemma count_pos P l : 0 < count P l → ∃ i x, l !! i = Some x ∧ P x = true.
Proof.
  induction l as [|z l IH]; simpl; [lia|]. intros Hc. destruct (P z) eqn:Hz; [by exists 0%nat, z|].
  destruct IH as (i & x & ? & ?); [done|]. by exists (S i), x.
Qed.

Lemma count_none P l : count P l = 0 → Forall (λ x, P x = false) l.
Proof.
  induction l as [|z l IH]; simpl; intros Hc; [constructor|].
  pose proof (count_nonneg P l) as Hn. 
  destruct (P z) eqn:Hz; simpl in Hc; [lia|]. constructor; [done|]. apply IH. lia.
Qed.

Lemma count_le (P Q : delivering → bool) l : (∀ x, P x = true → Q x = true) → count P l ≤ count Q l.
Proof.
  intros HPQ. induction l as [|z l IH]; simpl; [done|]. 
  specialize (HPQ z). destruct (P z), (Q z); simpl; try lia.
Qed.

Lemma nsub_init_ok opts : nsub_ok (nsub_init (NewConsumeOptions opts)).
Proof.
  destruct (NewConsumeOptions_sound opts) as (Hc & _).
  split; simpl; try done; unfold chans_ok, made, is_closed; simpl; lia.
Qed.

(** A goroutine never takes a token nor a unit of the wait group. *)
Lemma goroutine_moves_ok i x y dsem dwg s :
  nsub_ok s → goroutines s !! i = Some x →
  dsem = Z.b2z (holds_token y) - Z.b2z (holds_token x) → dsem ≤ 0 →
  dwg = Z.b2z (unfinished y) - Z.b2z (unfinished x) → dwg ≤ 0 →
  nsub_ok (goroutine_moves i x y dsem dwg s).
Proof.
  intros [] Hi Hds Hle Hdw Hlw.
  pose proof (count_insert holds_token _ i x y Hi) as Hh.
  pose proof (count_insert unfinished _ i x y Hi) as Hu.
  pose proof (count_nonneg holds_token (<[i:=y]> (goroutines s))).
  pose proof (count_nonneg unfinished (<[i:=y]> (goroutines s))).
  split; simpl; try assumption.
  - lia.
  - case_decide; lia.
  - lia.
  - intros Hcl. specialize (no_waited0 Hcl). lia.
Qed.

Lemma stop_ok s s' : nsub_ok s → step Stop s = Some s' → nsub_ok s'.
Proof.
  intros Hs He. simpl in He. unfold Stop_do in He. destruct (stopOnce (sub s)) eqn:Ho; [by inv_opt|].
  unfold Stop_once in He. rewrite Ho in He. inv_opt.
  match goal with H : close_chan _ _ = Some _ |- _ => rename H into Hcl end.
  destruct Hs. pose proof (close_chan_le _ _ _ Hcl) as Hle.
  assert (closing s = NotStarted) as Hns.
  { destruct (decide (closing s = NotStarted)) as [|Hn]; [done|]. apply no_started0 in Hn. congruence. }
  assert (consCtx s = Open) as Hopen by (by apply no_stopping0).
  split; simpl; try assumption.
  - by eapply close_chan_ok; [..|exact Hcl]; [|apply no_made0].
  - split; (eapply chans_le_made; [exact Hle|]); apply no_made0.
  - rewrite (close_chan_is_closed _ _ _ _ Hcl). split; [done|by left].
  - rewrite (close_chan_is_closed _ _ _ _ Hcl), no_done0, Hns. split; [|done].
    intros [Heq|]; [|done]. by destruct no_distinct0.
  - done.
  - by rewrite Hopen.
  - by rewrite Hopen.
  - done.
  - done.
Qed.

Lemma closer_ok s s' : nsub_ok s → step Closer s = Some s' → nsub_ok s'.
Proof.
  intros Hs He. simpl in He. unfold closer_step, when in He. destruct (closing s) eqn:Hc; [done| | | |done].
  - case_decide as Hcl; inv_opt. destruct Hs; rewrite Hc in *. split; simpl; try assumption; try done.
    + by rewrite no_done0.
    + split; [done|]. intros _. by apply no_started0.
  - case_decide as Hw; inv_opt. destruct Hs; rewrite Hc in *. split; simpl; try assumption; try done.
    + by rewrite no_done0.
    + split; [done|]. intros _. by apply no_started0.
  - inv_opt. match goal with H : close_chan _ _ = Some _ |- _ => rename H into Hcl end.
    pose proof (close_chan_le _ _ _ Hcl) as Hle. destruct Hs; rewrite Hc in *.
    split; simpl; try assumption; try done.
    + by eapply close_chan_ok; [..|exact Hcl]; [|apply no_made0].
    + split; (eapply chans_le_made; [exact Hle|]); apply no_made0.
    + rewrite (close_chan_is_closed _ _ _ _ Hcl), <- no_once0. split; [|by right].
      intros [Heq|]; [by destruct no_distinct0|done].
    + rewrite (close_chan_is_closed _ _ _ _ Hcl). split; [done|by left].
    + split; [done|]. intros _. by apply no_started0.
Qed.

Lemma nsub_step_ok e s s' : nsub_ok s → step e s = Some s' → nsub_ok s'.
Proof.
  intros Hs He. destruct e as [| | | |i|i|i| | |]; [..|by eapply stop_ok| |by eapply closer_ok];
    simpl in He; unfold Stop_do, closer_step, when in He; case_decide as Hc; inv_opt.
  all: try (by eapply goroutine_moves_ok; [exact Hs|first [exact Hc|apply Hc]|simpl; lia..]).
  all: destruct Hs; split; simpl; try assumption.
  - destruct Hc as [Hc _]. rewrite decide_False in no_sem0 by (by rewrite Hc). done.
  - by intros Hcl; destruct Hc.
  - destruct Hc as [Hc _]. rewrite decide_False in no_sem0 by (by rewrite Hc). lia.
  - lia.
  - intros Hcl. destruct Hc as [Hc _]. rewrite no_idle0 in Hc by done. done.
  - destruct Hc as [Hc _]. rewrite decide_False in no_sem0 by (by rewrite Hc). done.
  - done.
  - rewrite count_snoc. simpl. rewrite decide_True in no_sem0 by done. lia.
  - rewrite count_snoc. simpl. lia.
  - done.
  - intros Hw. assert (cb s = Idle) as Hi; [|congruence].
    apply no_idle0, no_closed0. by destruct (closing s).
  - destruct Hc as [Hst _]. rewrite <- no_stopping0, Hst. done.
  - by destruct Hc.
  - done.
Qed.

Lemma nsub_reachable_ok opts s :
  reachable step (nsub_init (NewConsumeOptions opts)) s → nsub_ok s.
Proof. apply reachable_invariant; [intros; by eapply nsub_step_ok|apply nsub_init_ok]. Qed.

(** ** Properties *)

(** The cases of a step, with their guards. *)
Ltac step_cases He :=
  simpl in He; unfold Stop_do, closer_step, when in He;
  repeat (case_match; try discriminate He); inv_opt; repeat case_match; inv_opt.

Lemma step_capacity e s s' : step e s = Some s' → capacity s' = capacity s.
Proof.
  intros He. destruct e; step_cases He; done.
Qed.

(** C23. At most [Concurrency] deliveries of a subscription are processed at any
    time, and a message is handed back unprocessed only after [Stop]. *)
Theorem nats_concurrency_bounded opts s :
  let o := NewConsumeOptions opts in
  reachable step (nsub_init o) s →
  count is_processing (goroutines s) ≤ Concurrency o ∧
  ∀ s', step Refuse s = Some s' → stopOnce (sub s) = true.
Proof.
  intros o Hr. pose proof (nsub_reachable_ok _ _ Hr) as Hs. split.
  - assert (capacity s = Concurrency o) as <-.
    { revert Hr. apply (reachable_invariant step (λ s, capacity s = Concurrency o)); [|done].
      intros e s1 s2 Hc He. by rewrite (step_capacity _ _ _ He). }
    pose proof (no_sem s Hs) as Hsem. pose proof (no_capacity s Hs).
    pose proof (count_le is_processing holds_token (goroutines s) ltac:(by intros [])).
    case_decide; lia.
  - intros s' He. simpl in He. unfold closer_step, when in He. case_decide as Hc; [|done].
    apply (no_once s Hs), Hc.
Qed.

(** C22. When [Stop] returns nil every delivery of the subscription has returned,
    and none will start. *)
Theorem nats_stop_waits opts s err :
  reachable step (nsub_init (NewConsumeOptions opts)) s → Stop_select (sub s) (chans_ s) err None →
  cb s = Idle ∧ Forall (λ x, x = Finished) (goroutines s) ∧
  ∀ es s', run step es s = Some s' → goroutines s' = goroutines s.
Proof.
  intros Hr Hsel. pose proof (nsub_reachable_ok _ _ Hr) as Hs. inversion Hsel as [Hd|]; subst.
  apply (no_done s Hs) in Hd.
  assert (consCtx s = Closed) as Hc by (apply (no_closed s Hs); by rewrite Hd).
  assert (cb s = Idle) as Hi by (by apply (no_idle s Hs)).
  assert (Forall (λ x, x = Finished) (goroutines s)) as Hf.
  { assert (wg s = 0) as Hw by (apply (no_waited s Hs); by rewrite Hd).
    rewrite (no_wg s Hs) in Hw. eapply Forall_impl; [by apply count_none|]. by intros []. }
  split_and!; [done|done|]. intros es s' Hrun.
  enough (consCtx s' = Closed ∧ cb s' = Idle ∧ goroutines s' = goroutines s) by tauto.
  revert Hrun. apply (run_invariant step (λ s', consCtx s' = Closed ∧ cb s' = Idle ∧ goroutines s' = goroutines s)); [|done].
  intros e s1 s2 (Hc1 & Hi1 & Hg1) He.
  assert (∀ i x, goroutines s1 !! i = Some x → x = Finished) as Hfin.
  { intros i x Hx. rewrite Hg1 in Hx. by eapply Forall_lookup_1 in Hf. }
  destruct e; step_cases He; try done; exfalso;
    match goal with
    | a : _ = Some _ |- _ => by pose proof (Hfin _ _ a)
    | a : _ = Some _ ∧ _ |- _ => by pose proof (Hfin _ _ (proj1 a))
    | a : _ ∧ _ |- _ => destruct a; congruence
    | |- _ => congruence
    end.
Qed.

(** *** A stopped subscription drains *)

Definition todo (x : delivering) : nat :=
  match x with Processing => 3 | Returned => 2 | Released => 1 | Finished => 0 end.

(** How far a stopped subscription is from closing its done channel. *)
Definition rank (s : nsub) : nat :=
  match cb s with Idle => 0 | Selecting => 5 | Acquired => 4 end +
  sum_list_with todo (goroutines s) +
  match consCtx s with Open => 2 | Stopping => 1 | Closed => 0 end +
  match closing s with NotStarted => 4 | AtClosed => 3 | AtWait => 2 | AtClose => 1 | Gone => 0 end.

(** What the subscription does by itself: no new message, no call of [Stop]. *)
Definition own (e : event) : bool := match e with Deliver | Stop => false | _ => true end.

Lemma todo_insert l i x y :
  l !! i = Some x → (todo y < todo x)%nat → (sum_list_with todo (<[i:=y]> l) < sum_list_with todo l)%nat.
Proof.
  revert i; induction l as [|z l IH]; intros [|i] Hi Hlt; simplify_eq/=; [lia|].
  specialize (IH i Hi Hlt). lia.
Qed.

Lemma own_rank e s s' : own e = true → step e s = Some s' → (rank s' < rank s)%nat.
Proof.
  intros Ho He. destruct e as [| | | |i|i|i| | |]; try discriminate Ho; simpl in He; unfold Stop_do, closer_step, when in He;
    [case_decide as Hc; inv_opt..|]; unfold rank; simpl.
  - destruct Hc as [-> _]. lia.
  - destruct Hc as [-> _]. lia.
  - rewrite Hc, sum_list_with_app. simpl. lia.
  - pose proof (todo_insert _ i _ Returned Hc ltac:(simpl; lia)). lia.
  - pose proof (todo_insert _ i _ Released (proj1 Hc) ltac:(simpl; lia)). lia.
  - pose proof (todo_insert _ i _ Finished (proj1 Hc) ltac:(simpl; lia)). lia.
  - destruct Hc as [-> ->]. lia.
  - destruct (closing s) eqn:Hcl; try discriminate He; try case_decide; inv_opt; simpl; rewrite ?Hcl; lia.
Qed.

Lemma progress s :
  nsub_ok s → stopOnce (sub s) = true →
  is_closed (done_ (sub s)) (chans_ s) ∨ ∃ e s', own e = true ∧ step e s = Some s'.
Proof.
  intros Hs Hst. pose proof (count_nonneg unfinished (goroutines s)) as Hn.
  destruct (decide (count unfinished (goroutines s) = 0)) as [Hz|Hz].
  2: { right. destruct (count_pos unfinished (goroutines s) ltac:(lia)) as (i & x & Hi & Hx).
       pose proof (no_wg s Hs) as Hw. pose proof (no_sem s Hs) as Hsem.
       pose proof (count_insert unfinished _ i x Finished Hi).
       pose proof (count_nonneg holds_token (<[i:=Finished]> (goroutines s))) as Hh.
       rewrite (count_insert _ _ i x) in Hh by done.
       destruct x; [exists (Process i)|exists (Release i)|exists (WgDone i)|done];
         eexists; (split; [done|]); simpl; unfold when; rewrite decide_True; try done;
         (split; [done|]); simpl in *; case_decide; lia. }
  destruct (cb s) eqn:Hcb.
  2: { right. exists Refuse. eexists. split; [done|]. simpl. unfold when. rewrite decide_True; [done|].
       split; [done|]. by apply (no_once s Hs). }
  2: { right. exists Spawn. eexists. split; [done|]. simpl. unfold when. by rewrite decide_True. }
  destruct (closing s) eqn:Hcl.
  - apply (no_started s Hs) in Hst. done.
  - right. destruct (consCtx s) eqn:Hctx.
    + apply (no_stopping s Hs) in Hctx. congruence.
    + exists Close_ctx. eexists. split; [done|]. simpl. unfold when. by rewrite decide_True.
    + exists Closer. eexists. split; [done|]. simpl. unfold closer_step. rewrite Hcl. unfold when. by rewrite decide_True.
  - right. exists Closer. eexists. split; [done|]. simpl. unfold closer_step. rewrite Hcl. unfold when.
    rewrite decide_True; [done|]. by rewrite (no_wg s Hs).
  - right. destruct (close_chan_open (done_ (sub s)) (chans_ s)) as [c Hc].
    { split; [apply (no_made s Hs)|]. rewrite (no_done s Hs), Hcl. done. }
    exists Closer. eexists. split; [done|]. simpl. unfold closer_step. by rewrite Hcl, Hc.
  - left. by apply (no_done s Hs).
Qed.

Lemma own_stopped e s s' : own e = true → step e s = Some s' → sub s' = sub s.
Proof. intros Ho He. destruct e; try discriminate Ho; step_cases He; done. Qed.

(** C21. After [Stop] the subscription closes its done channel, provided only that
    the handlers return and the library delivers nothing more: it is never
    stuck before, each of its steps brings it closer, none panics, and no more
    than [rank] of them remain. *)
Theorem nats_stop_drains opts s :
  reachable step (nsub_init (NewConsumeOptions opts)) s → stopOnce (sub s) = true →
  (∀ e s', own e = true → step e s = Some s' → (rank s' < rank s)%nat) ∧
  (is_closed (done_ (sub s)) (chans_ s) ∨ ∃ e s', own e = true ∧ step e s = Some s') ∧
  (rank s ≤ 3 * length (goroutines s) + 11)%nat ∧
  ∃ es s', forallb own es = true ∧ (length es ≤ rank s)%nat ∧ run step es s = Some s' ∧
    is_closed (done_ (sub s')) (chans_ s').
Proof.
  intros Hr%nsub_reachable_ok Hst. split_and!.
  - intros e s'. apply own_rank.
  - by apply progress.
  - unfold rank. assert (sum_list_with todo (goroutines s) ≤ 3 * length (goroutines s))%nat.
    { induction (goroutines s) as [|[] l IH]; simpl; lia. }
    destruct (cb s), (consCtx s), (closing s); lia.
  - remember (rank s) as n eqn:Hn. revert s Hn Hr Hst. induction (lt_wf n) as [n _ IH]. intros s -> Hs Hst.
    destruct (progress s Hs Hst) as [Hd|(e & s1 & Ho & He)];
      [exists [], s; split_and!; [done|simpl; lia|done|done]|].
    pose proof (own_rank e s s1 Ho He) as Hlt.
    destruct (IH _ Hlt s1 eq_refl) as (es & s' & Hes & Hlen & Hrun & Hd).
    + by eapply nsub_step_ok.
    + by rewrite (own_stopped e s s1).
    + exists (e :: es), s'. split_and!; [by simpl; rewrite Ho|simpl; lia|by simpl; rewrite He|done].
Qed.

(** ** An execution: two deliveries, one processed when [Stop] is called. *)

Definition demo_options : list ConsumeOption := [WithConcurrency 2].

Definition demo_events : list event :=
  [Deliver; Acquire; Spawn; Deliver; Acquire; Spawn; Process 0; Release 0; WgDone 0].

Definition demo_drain : list event :=
  [Stop; Close_ctx; Process 1; Release 1; WgDone 1; Closer; Closer; Closer].

Definition demo_sub (es : list event) : nsub :=
  default (nsub_init (NewConsumeOptions demo_options)) (run step es (nsub_init (NewConsumeOptions demo_options))).

Lemma demo_sub_reachable es :
  runs step es (nsub_init (NewConsumeOptions demo_options)) = true →
  reachable step (nsub_init (NewConsumeOptions demo_options)) (demo_sub es).
Proof. apply runs_reachable. Qed.

Lemma nats_concurrency_bounded_witness :
  count is_processing (goroutines (demo_sub [Deliver; Acquire; Spawn; Deliver; Acquire; Spawn])) ≤ 2 ∧
  count is_processing (goroutines (demo_sub [Deliver; Acquire; Spawn; Deliver; Acquire; Spawn])) = 2.
Proof.
  split; [|by vm_compute].
  apply (nats_concurrency_bounded demo_options), demo_sub_reachable. by vm_compute.
Defined.

Lemma nats_stop_waits_witness :
  cb (demo_sub (demo_events ++ demo_drain)) = Idle ∧
  Forall (λ x, x = Finished) (goroutines (demo_sub (demo_events ++ demo_drain))).
Proof.
  destruct (nats_stop_waits demo_options (demo_sub (demo_events ++ demo_drain)) None) as (Hi & Hf & _).
  - apply demo_sub_reachable. by vm_compute.
  - constructor. eapply bool_decide_unpack. by vm_compute.
  - by split.
Defined.

Lemma nats_stop_drains_witness :
  let s := demo_sub (demo_events ++ [Stop]) in
  (rank s ≤ 17)%nat ∧
  ∃ es s', forallb own es = true ∧ (length es ≤ rank s)%nat ∧ run step es s = Some s' ∧
    is_closed (done_ (sub s')) (chans_ s').
Proof.
  destruct (nats_stop_drains demo_options (demo_sub (demo_events ++ [Stop]))) as (_ & _ & Hr & He).
  - apply demo_sub_reachable. by vm_compute.
  - by vm_compute.
  - split; [|exact He]. exact Hr.
Defined.

