(* ===== verification/NatsHeartbeat.v ===== *)
(** * Heartbeats of the JetStream backend

    [invokeWithHeartbeat] of src/nats_workqueue/workqueue.go: while a handler
    runs, a goroutine tells the server at every tick that the delivery is in
    progress, which starts the acknowledgement deadline anew; it is told to
    stop and waited for when the handler returns. *)

From stdpp Require Import base tactics list numbers option gmap strings.
From S2P Require Import Prelude GoRuntime Contract Options Nats.

Import Nats.

(** ** The machine *)

(** [max(q.config.AckWait/3, time.Second)] *)
Definition heartbeat_interval (ackWait : duration) : duration := Z.max (Z.quot ackWait 3) Second.

Inductive main_pc :=
  | Handling                      (** in [invokeHandler] *)
  | Joining                       (** past [close(heartbeatDone)], in [heartbeatWG.Wait()] *)
  | Back.                         (** returned *)

Record beating := mkBeating {
  b_now : time;
  b_deadline : time;              (** when the server delivers the message again *)
  b_tick : time;                  (** the next tick of the ticker *)
  b_main : main_pc;
  b_loop : bool                   (** whether the goroutine is still in its loop *)
}.

Definition beat_init (ackWait : duration) (t : time) : beating :=
  mkBeating t (t + ackWait) (t + heartbeat_interval ackWait) Handling true.

Inductive bevent :=
  | Elapse (d : duration)
  | Beat (ok : bool)              (** [case <-ticker.C:], [msg.InProgress()] *)
  | HandlerReturns                (** and [close(heartbeatDone)] *)
  | LoopReturns                   (** [case <-heartbeatDone:] *)
  | Join.                         (** [heartbeatWG.Wait()] returns *)

(** A tick is handled within [late]: the goroutine is scheduled and the call
    made in that time. *)
Definition bstep (ackWait late : duration) (e : bevent) (s : beating) : option beating :=
  match e with
  | Elapse d =>
      if decide (0 ≤ d ∧ (b_loop s = true → b_now s + d ≤ b_tick s + late))
      then Some (mkBeating (b_now s + d) (b_deadline s) (b_tick s) (b_main s) (b_loop s)) else None
  | Beat ok =>
      if decide (b_loop s = true ∧ b_tick s ≤ b_now s)
      then Some (mkBeating (b_now s) (if ok then b_now s + ackWait else b_deadline s)
                   (b_tick s + heartbeat_interval ackWait) (b_main s) (b_loop s)) else None
  | HandlerReturns =>
      match b_main s with
      | Handling => Some (mkBeating (b_now s) (b_deadline s) (b_tick s) Joining (b_loop s))
      | _ => None
      end
  | LoopReturns =>
      match b_main s with
      | Handling => None
      | _ => if b_loop s then Some (mkBeating (b_now s) (b_deadline s) (b_tick s) (b_main s) false)
             else None
      end
  | Join =>
      match b_main s with
      | Joining => if b_loop s then None
                   else Some (mkBeating (b_now s) (b_deadline s) (b_tick s) Back false)
      | _ => None
      end
  end.

Ltac bstep_cases He := simpl in He; repeat (case_match; try discriminate He); inv_opt.

Lemma heartbeat_interval_le ackWait : heartbeat_interval ackWait ≤ ackWait ↔ Second ≤ ackWait.
Proof.
  unfold heartbeat_interval, Second. split; [lia|]. intros Ha.
  rewrite Z.quot_div_nonneg by lia. assert (ackWait / 3 < ackWait) by (apply Z.div_lt; lia). lia.
Qed.

(** ** Properties *)

Definition quiet (e : bevent) : bool := match e with Beat _ => false | _ => true end.

(** The heartbeats the server has not got since the last one it got, and whether
    they were never more than [k] in a row. *)
Definition count_lost (k : nat) (x : nat * bool) (e : bevent) : nat * bool :=
  match e with
  | Beat true => (O, x.2)
  | Beat false => (S x.1, x.2 && bool_decide (S x.1 ≤ k)%nat)
  | _ => x
  end.

Definition lost (k : nat) (es : list bevent) : nat * bool := fold_left (count_lost k) es (O, true).

(** No more than [k] heartbeats in a row are lost. *)
Definition loses_at_most (k : nat) (es : list bevent) : bool := (lost k es).2.

Lemma loses_at_most_snoc k es e :
  loses_at_most k (es ++ [e]) = true → loses_at_most k es = true ∧
    lost k (es ++ [e]) = count_lost k (lost k es) e.
Proof.
  unfold loses_at_most, lost. rewrite fold_left_app. simpl.
  destruct e as [|[]| | |]; simpl; try done. by intros [? _]%andb_true_iff.
Qed.

Lemma heartbeat_keeps_alive ackWait late k t es s :
  0 ≤ late ≤ ackWait - (Z.of_nat k + 1) * heartbeat_interval ackWait →
  loses_at_most k es = true → run (bstep ackWait late) es (beat_init ackWait t) = Some s →
  (b_main s = Handling → b_now s ≤ b_deadline s) ∧
  (b_main s = Back → ∀ ok, bstep ackWait late (Beat ok) s = None).
Proof.
  intros Hlate Hes Hrun. set (I := heartbeat_interval ackWait) in *.
  assert (0 < I) as HI by (unfold I, heartbeat_interval, Second; lia).
  enough ((b_loop s = true → b_tick s + late + (Z.of_nat k - Z.of_nat (lost k es).1) * I ≤ b_deadline s ∧
             b_now s ≤ b_tick s + late ∧ ((lost k es).1 ≤ k)%nat) ∧
          (b_main s = Handling → b_loop s = true) ∧ (b_main s = Back → b_loop s = false)) as (Hl & Hm & Hb).
  { split; [intros Hh; destruct (Hl (Hm Hh)) as (H1 & H2 & H3); nia|].
    intros Hk ok. simpl. rewrite decide_False; [done|]. rewrite (Hb Hk). by intros [? _]. }
  revert s Hes Hrun. induction es as [|e es IH] using rev_ind; intros s Hes Hrun.
  { injection Hrun as <-. simpl. fold I. split_and!; [intros _; split_and!; lia|done|done]. }
  apply loses_at_most_snoc in Hes as Hes'. destruct Hes' as [Hes1 Hlost].
  rewrite run_app in Hrun. apply bind_Some in Hrun as (s1 & Hrun & Hst). simpl in Hst.
  apply bind_Some in Hst as (s2 & Hst & [= ->]). destruct (IH s1 Hes1 Hrun) as (Hl & Hm & Hb).
  unfold loses_at_most in Hes. rewrite Hlost in Hes |- *.
  destruct e as [d|ok| | |]; bstep_cases Hst; simpl in *; fold I; split_and!; try done; intros Hlp;
    destruct (Hl Hlp) as (H1 & H2 & H3).
  - split_and!; [done|by apply (proj2 a)|done].
  - pose proof (proj2 a). split_and!; [nia|nia|lia].
  - apply andb_true_iff in Hes as [_ Hk%bool_decide_eq_true]. pose proof (proj2 a).
    split_and!; [rewrite Nat2Z.inj_succ; nia|nia|done].
Qed.

Lemma heartbeat_too_late ackWait late t es s s' ok :
  ackWait ≤ Second → forallb quiet es = true →
  run (bstep ackWait late) es (beat_init ackWait t) = Some s →
  bstep ackWait late (Beat ok) s = Some s' → b_deadline s ≤ b_now s.
Proof.
  intros Hack Hes Hrun Hbeat.
  assert (b_deadline s = t + ackWait ∧ b_tick s = t + heartbeat_interval ackWait) as [Hd Ht].
  { clear s' Hbeat. revert s Hes Hrun. induction es as [|e es IH] using rev_ind; intros s Hes Hrun.
    { by injection Hrun as <-. }
    rewrite forallb_app in Hes. apply andb_true_iff in Hes as [Hes He].
    rewrite run_app in Hrun. apply bind_Some in Hrun as (s1 & Hrun & Hst). simpl in Hst, He.
    apply bind_Some in Hst as (s2 & Hst & [= ->]). specialize (IH s1 Hes Hrun).
    destruct e as [d|b| | |]; bstep_cases Hst; by simpl. }
  assert (b_tick s ≤ b_now s) as Hnow by (bstep_cases Hbeat; apply (proj2 a)).
  rewrite Hd. rewrite Ht in Hnow. unfold heartbeat_interval in Hnow. lia.
Qed.

(** C24. Suppose that each tick of the ticker is handled within [late], and that
    never more than [k] heartbeats in a row fail to reach the server. When
    [late] is at most AckWait minus [k + 1] intervals, the deadline of a
    delivery does not pass while its handler runs, however long that takes, and
    when [invokeWithHeartbeat] has returned no heartbeat follows. With [k] and
    [late] zero the condition holds just when AckWait is at least a second.
    With an AckWait of a second or less no heartbeat comes in time: when the
    first tick fires the deadline has been reached, so the server may deliver
    the task a second time while its handler runs. *)
Theorem nats_heartbeat_deadline ackWait late k t es s :
  0 ≤ late → run (bstep ackWait late) es (beat_init ackWait t) = Some s →
  (late ≤ ackWait - (Z.of_nat k + 1) * heartbeat_interval ackWait → loses_at_most k es = true →
     (b_main s = Handling → b_now s ≤ b_deadline s) ∧
     (b_main s = Back → ∀ ok, bstep ackWait late (Beat ok) s = None)) ∧
  (heartbeat_interval ackWait ≤ ackWait ↔ Second ≤ ackWait) ∧
  (ackWait ≤ Second → forallb quiet es = true →
     ∀ ok s', bstep ackWait late (Beat ok) s = Some s' → b_deadline s ≤ b_now s).
Proof.
  intros Hlate Hrun. split_and!.
  - intros Hslack Hes. by eapply heartbeat_keeps_alive.
  - apply heartbeat_interval_le.
  - intros Hack Hes ok s'. by eapply heartbeat_too_late.
Qed.

(** ** Executions *)

(** A handler that runs for 30 seconds, while the second heartbeat is lost. *)
Definition lossy_handler : list bevent :=
  [Elapse (10 * Second); Beat true; Elapse (10 * Second); Beat false; Elapse (10 * Second)].

Definition beaten (ackWait late : duration) (es : list bevent) : beating :=
  default (beat_init ackWait 0) (run (bstep ackWait late) es (beat_init ackWait 0)).

(** The heartbeats of the default AckWait of 30 seconds come every 10, so that
    one may be lost. *)
Lemma nats_heartbeat_deadline_witness :
  let s := beaten DefaultAckWait Second lossy_handler in
  let s' := beaten 900000000 0 [Elapse Second] in
  (b_now s = 30 * Second ∧ b_now s ≤ b_deadline s) ∧ (b_main s' = Handling ∧ b_deadline s' ≤ b_now s').
Proof.
  split; (split; [by vm_compute|]).
  - destruct (nats_heartbeat_deadline DefaultAckWait Second 1 0 lossy_handler
      (beaten DefaultAckWait Second lossy_handler)) as [Hk _]; [by vm_compute..|].
    apply Hk; by vm_compute.
  - destruct (nats_heartbeat_deadline 900000000 0 0 0 [Elapse Second] (beaten 900000000 0 [Elapse Second]))
      as (_ & _ & Hk); [by vm_compute..|].
    apply (Hk ltac:(by vm_compute) ltac:(by vm_compute) true (beaten 900000000 0 [Elapse Second; Beat true])).
    by vm_compute.
Defined.
