(* ===== verification/NatsExact.v ===== *)
(** * One method of the JetStream backend on a server that answers

    The lemmas behind the functional properties of [NatsProps]: the answers of
    a healthy server are what [call_sem] leaves possible without an error, and
    the scan of the dead letters visits the entries of the stream in order. *)

From stdpp Require Import base tactics list numbers option gmap strings.
From Stdlib Require Import Strings.Byte.
From S2P Require Import Prelude GoRuntime Contract Options Effects JetStream Nats NatsNames NatsInv NatsSystem.

Import Nats.

(** ** What the methods promise *)

(** The streams of a queue, made when they are not there. *)
Definition provision (name subject : string) (σ : jstore) : jstore :=
  match σ !! name with None => <[name := new_stream subject]> σ | Some _ => σ end.

Definition provisioned (q : NATSWorkQueue) (queue : string) (σ : jstore) : jstore :=
  provision (dlqStreamName q queue) (deadSubject q queue)
    (provision (streamName q queue) (tasksSubject q queue) σ).

(** A queue whose streams, as far as they are there, are its own, and which
    the process remembers only when they are there. *)
Record queue_ready (q : NATSWorkQueue) (queue : string) (σ : jstore) (cache : gset string) : Prop := {
  qr_valid : validateQueue queue = None;
  qr_tasks : ∀ st, σ !! streamName q queue = Some st →
    st_subject st = tasksSubject q queue ∧ numbered st;
  qr_dead : ∀ st, σ !! dlqStreamName q queue = Some st →
    st_subject st = deadSubject q queue ∧ numbered st;
  qr_cache : queue ∈ cache →
    is_Some (σ !! streamName q queue) ∧ is_Some (σ !! dlqStreamName q queue)
}.

Definition stream_is (subject : string) (st : stream) : bool :=
  bool_decide (st_subject st = subject ∧ numbered st).

Definition queue_is_ready (q : NATSWorkQueue) (queue : string) (σ : jstore) (cache : gset string) : bool :=
  bool_decide (validateQueue queue = None) &&
  from_option (stream_is (tasksSubject q queue)) true (σ !! streamName q queue) &&
  from_option (stream_is (deadSubject q queue)) true (σ !! dlqStreamName q queue) &&
  (negb (bool_decide (queue ∈ cache)) ||
   bool_decide (is_Some (σ !! streamName q queue) ∧ is_Some (σ !! dlqStreamName q queue))).

(** The entries of a dead-letter stream from a number on, in their order. *)
Definition entry_at `{TaskJson} (st : stream) (seq : Z) : option deadEntry :=
  data ← st_msgs st !! seq; t ← task_of data; Some (mkEntry t seq).

Definition entries `{TaskJson} (st : stream) (seq : Z) : list deadEntry :=
  omap (entry_at st) (seqZ seq (st_last st + 1 - seq)).

Definition dead_entries `{TaskJson} (q : NATSWorkQueue) (queue : string) (σ : jstore) : list deadEntry :=
  match σ !! dlqStreamName q queue with Some st => entries st 1 | None => [] end.

(** A loop over a list that [fn] may leave. *)
Fixpoint fold_until {S} (fn : deadEntry → S → bool * S) (l : list deadEntry) (s : S) : S :=
  match l with
  | [] => s
  | e :: l => let '(more, s) := fn e s in if more then fold_until fn l s else s
  end.

(** The message that replaces that of a failed attempt. *)
Definition next_message (q : NATSWorkQueue) (queue : string) (o : ConsumeOptions) (e : string)
    (now : time) (t : Task) : string * Task * string :=
  if decide (MaxRetries t < Attempts t)
  then (deadSubject q queue, set_DiedAt now (set_LastError e t), "")
  else (tasksSubject q queue,
        set_RunAt (now + default 0 (RetryBackoff (BackoffBase o) (BackoffMax o) (Attempts t)))
          (set_LastError e t),
        attemptMsgID (ID t) (Attempts t)).

(** The server answers [x] to a call and leaves [σ']; on a server that is
    [healthy] without an error where it can. *)
Definition replies (healthy : Prop) {X} (c : jcall X) (σ : jstore) (x : X) (σ' : jstore) : Prop :=
  call_sem c σ x σ' ∧ (healthy → call_answered c σ x σ').

(** The calls the processing of one delivery makes, one after the other, when
    the handler is [h] and the clock reads [t1] before it and [t2] after it. A
    message whose successor the server reports it could not store is left. *)
Definition handled_by (healthy : Prop) `{TaskJson} (q : NATSWorkQueue) (queue : string) (h : Handler)
    (o : ConsumeOptions) (d : delivery) (data : list byte) (t1 t2 : time) (σ σ' : jstore) : Prop :=
  match UnmarshalTask data with
  | inl _ => ∃ x, replies healthy (Term d) σ x σ'
  | inr t =>
      if decide (0 < time_Until t1 (RunAt t))
      then ∃ x, replies healthy (NakWithDelay d (time_Until t1 (RunAt t))) σ x σ'
      else match invokeHandler h (incr_Attempts t) with
           | (_, None) => ∃ x, replies healthy (Ack d) σ x σ'
           | (t', Some e) =>
               let '(subject, t'', id) := next_message q queue o e t2 t' in
               match MarshalTask t'' with
               | inl _ => σ' = σ
               | inr m => ∃ err σ1, replies healthy (Publish subject m id) σ err σ1 ∧
                            match err with
                            | Some _ => σ' = σ1
                            | None => ∃ x, replies healthy (Ack d) σ1 x σ'
                            end
               end
           end
  end.

(** What they do to the streams when the server answers them all. *)
Definition handled `{TaskJson} (q : NATSWorkQueue) (queue : string) (h : Handler) (o : ConsumeOptions)
    (d : delivery) (data : list byte) (t1 t2 : time) (σ σ' : jstore) : Prop :=
  match UnmarshalTask data with
  | inl _ => dropped (d_stream d) (d_seq d) σ σ'
  | inr t =>
      if decide (0 < time_Until t1 (RunAt t)) then σ' = σ
      else match invokeHandler h (incr_Attempts t) with
           | (_, None) => dropped (d_stream d) (d_seq d) σ σ'
           | (t', Some e) =>
               let '(subject, t'', id) := next_message q queue o e t2 t' in
               match MarshalTask t'' with
               | inl _ => σ' = σ
               | inr m => ∃ σ1, published subject m id σ σ1 ∧
                                dropped (d_stream d) (d_seq d) σ1 σ'
               end
           end
  end.

(** The first dead letter with an identifier. *)
Definition find_dead `{TaskJson} (q : NATSWorkQueue) (queue taskID : string) (σ : jstore) :
    option deadEntry :=
  snd <$> list_find (λ e, ID (e_task e) = taskID) (dead_entries q queue σ).

(** The answers of [RequeueDeadTask] and [DeleteDeadTask] and what they do to
    the streams. *)
Definition requeued `{TaskJson} (q : NATSWorkQueue) (queue taskID : string) (now : time)
    (r : option Err) (σ σ' : jstore) : Prop :=
  match find_dead q queue taskID σ with
  | None => r = Some ErrTaskNotFound ∧ σ' = σ
  | Some e =>
      match MarshalTask (revived now (e_task e)) with
      | inl err => r = Some (ErrStorage err) ∧ σ' = σ
      | inr m => r = None ∧ ∃ σ1, published (tasksSubject q queue) m "" σ σ1 ∧
                                  dropped (dlqStreamName q queue) (e_seq e) σ1 σ'
      end
  end.

Definition deleted_dead `{TaskJson} (q : NATSWorkQueue) (queue taskID : string)
    (r : option Err) (σ σ' : jstore) : Prop :=
  match find_dead q queue taskID σ with
  | None => r = Some ErrTaskNotFound ∧ σ' = σ
  | Some e => r = None ∧ dropped (dlqStreamName q queue) (e_seq e) σ σ'
  end.

(** ** Stores *)

Lemma queue_is_ready_ok q queue σ cache :
  queue_is_ready q queue σ cache = true → queue_ready q queue σ cache.
Proof.
  unfold queue_is_ready. rewrite !andb_true_iff, orb_true_iff, negb_true_iff.
  rewrite bool_decide_eq_false, !bool_decide_eq_true.
  intros [[[Hv Ht] Hd] Hc]. split; [done|intros st Hst..|intros Hin; by destruct Hc].
  - rewrite Hst in Ht. by apply bool_decide_eq_true in Ht.
  - rewrite Hst in Hd. by apply bool_decide_eq_true in Hd.
Qed.

Lemma provisioned_there q queue σ :
  is_Some (σ !! streamName q queue) → is_Some (σ !! dlqStreamName q queue) →
  provisioned q queue σ = σ.
Proof. intros [st Hs] [st' Hs']. unfold provisioned, provision. by rewrite Hs, Hs'. Qed.

Lemma provision_lookup n n' s σ :
  provision n s σ !! n' = if decide (n' = n) then Some (default (new_stream s) (σ !! n)) else σ !! n'.
Proof.
  unfold provision. case_decide as Hn.
  - subst n'. destruct (σ !! n) eqn:E; [done|]. by rewrite lookup_insert_eq.
  - destruct (σ !! n) eqn:E; [done|]. by rewrite lookup_insert_ne.
Qed.

Lemma tasks_dlq_differ q queue : streamName q queue ≠ dlqStreamName q queue.
Proof.
  rewrite dlqStreamName_streamName. intros Heq%streamName_inj.
  apply (f_equal String.length) in Heq. rewrite string_length_append in Heq. simpl in Heq. lia.
Qed.

Lemma provisioned_tasks q queue σ :
  provisioned q queue σ !! streamName q queue =
    Some (default (new_stream (tasksSubject q queue)) (σ !! streamName q queue)).
Proof.
  unfold provisioned. rewrite provision_lookup, decide_False by apply tasks_dlq_differ.
  by rewrite provision_lookup, decide_True.
Qed.

Lemma provisioned_dead q queue σ :
  provisioned q queue σ !! dlqStreamName q queue =
    Some (default (new_stream (deadSubject q queue)) (σ !! dlqStreamName q queue)).
Proof.
  unfold provisioned. rewrite provision_lookup, decide_True by done.
  rewrite provision_lookup, decide_False; [done|]. intros Heq. by apply (tasks_dlq_differ q queue).
Qed.

Lemma provisioned_subject q queue σ cache :
  queue_ready q queue σ cache →
  ∃ n st, provisioned q queue σ !! n = Some st ∧ st_subject st = tasksSubject q queue.
Proof.
  intros Hq. exists (streamName q queue). rewrite provisioned_tasks. eexists. split; [done|].
  destruct (σ !! streamName q queue) as [st|] eqn:E; [|done]. by apply (qr_tasks _ _ _ _ Hq).
Qed.

Lemma published_lookup subject data id σ σ' n st :
  published subject data id σ σ' → σ !! n = Some st →
  ∃ st', σ' !! n = Some st' ∧ (st_subject st ≠ subject → st' = st).
Proof.
  intros (m & st0 & Hm & Hs & [(_ & _ & ->)|(_ & ->)]) Hn; [by exists st|].
  destruct (decide (n = m)) as [->|Hnm].
  - simplify_eq. rewrite lookup_insert_eq. by eexists.
  - exists st. by rewrite lookup_insert_ne.
Qed.

Lemma entries_cons `{TaskJson} st seq :
  seq ≤ st_last st →
  entries st seq = match entry_at st seq with
                   | Some e => e :: entries st (seq + 1)
                   | None => entries st (seq + 1)
                   end.
Proof.
  intros Hle. unfold entries at 1. rewrite seqZ_cons by lia. csimpl.
  replace (Z.pred _) with (st_last st + 1 - (seq + 1)) by lia.
  by replace (Z.succ seq) with (seq + 1) by lia.
Qed.

Lemma entries_nil `{TaskJson} st seq : st_last st < seq → entries st seq = [].
Proof. intros Hlt. unfold entries. by rewrite seqZ_nil by lia. Qed.

(** The closures of [ListDeadTasks] and [findDeadTask] over a listing. *)
Lemma fold_list_fn limit offset l : ∀ skipped out,
  0 ≤ skipped ≤ offset → (limit ≤ 0 ∨ Z.of_nat (length out) < limit) → (out = [] ∨ skipped = offset) →
  (fold_until (list_fn limit offset) l (skipped, out)).2 =
    out ++ (if decide (0 < limit) then take (Z.to_nat limit - length out) else id)
             (drop (Z.to_nat (offset - skipped)) (e_task <$> l)).
Proof.
  induction l as [|e l IH]; intros skipped out Hs Hl Ho.
  { csimpl. rewrite drop_nil. case_decide; simpl; by rewrite ?take_nil, app_nil_r. }
  cbn [fold_until]. unfold list_fn at 1. destruct (decide (skipped < offset)) as [Hskip|Hskip]; cbn beta iota.
  - destruct Ho as [->|]; [|lia]. rewrite IH by first [lia|auto].
    replace (Z.to_nat (offset - skipped)) with (S (Z.to_nat (offset - (skipped + 1)))) by lia. done.
  - assert (skipped = offset) as -> by lia. rewrite Z.sub_diag. simpl drop.
    destruct (decide (0 < limit)) as [Hp|Hp].
    + rewrite bool_decide_false by lia. simpl orb. case_bool_decide as Hlen.
      * rewrite IH by first [lia|auto]. rewrite Z.sub_diag. csimpl.
        rewrite drop_0. rewrite length_app in *. simpl in *.
        replace (Z.to_nat limit - length out)%nat with (S (Z.to_nat limit - (length out + 1))) by lia.
        simpl. by rewrite <- app_assoc.
      * csimpl. rewrite length_app in Hlen. simpl in Hlen.
        replace (Z.to_nat limit - length out)%nat with 1%nat by lia. done.
    + rewrite bool_decide_true by lia. cbn beta iota delta [orb]. rewrite IH by first [lia|auto].
      rewrite Z.sub_diag. csimpl. by rewrite drop_0, <- app_assoc.
Qed.

Lemma fold_list_page limit offset l :
  (fold_until (list_fn limit (Z.max 0 offset)) l (0, [])).2 = page limit offset (e_task <$> l).
Proof.
  rewrite fold_list_fn by (simpl; lia || auto). unfold page. simpl app.
  replace (Z.to_nat (Z.max 0 offset - 0)) with (Z.to_nat offset) by lia.
  case_decide; [|done]. by rewrite Nat.sub_0_r.
Qed.

Lemma fold_find_fn taskID l s :
  fold_until (find_fn taskID) l s =
    from_option (λ p, Some p.2) s (list_find (λ e, ID (e_task e) = taskID) l).
Proof.
  induction l as [|e l IH]; [done|]. cbn [fold_until list_find].
  unfold find_fn at 1. destruct (decide (ID (e_task e) = taskID)); [done|]. rewrite IH.
  by destruct (list_find _ l) as [[i x]|].
Qed.

Lemma find_dead_provisioned `{TaskJson} q queue taskID σ :
  find_dead q queue taskID (provisioned q queue σ) = find_dead q queue taskID σ.
Proof.
  unfold find_dead, dead_entries. rewrite provisioned_dead.
  by destruct (σ !! dlqStreamName q queue).
Qed.

Lemma find_dead_entry `{TaskJson} q queue taskID σ cache e :
  queue_ready q queue σ cache → find_dead q queue taskID σ = Some e →
  ∃ st, provisioned q queue σ !! dlqStreamName q queue = Some st ∧
    st_subject st = deadSubject q queue ∧ is_Some (st_msgs st !! e_seq e).
Proof.
  intros Hq. unfold find_dead. intros ([i x] & Hf & ->)%fmap_Some. simpl.
  apply list_find_Some in Hf as (Hi & _ & _). apply list_elem_of_lookup_2 in Hi.
  rewrite provisioned_dead. unfold dead_entries in Hi.
  destruct (σ !! dlqStreamName q queue) as [st|] eqn:E; [|by apply elem_of_nil in Hi].
  exists st. split_and!; [done|by apply (qr_dead _ _ _ _ Hq)|].
  unfold entries in Hi. apply list_elem_of_omap in Hi as (seq & _ & Hs). unfold entry_at in Hs.
  destruct (st_msgs st !! seq) as [d|] eqn:Hd; [|done]. simpl in Hs.
  destruct (task_of d); [|done]. simpl in Hs. injection Hs as <-. simpl. eauto.
Qed.

(** ** Single calls *)

(** [at_call tac] gives [tac] the handler, the continuation and the world of
    the program the goal runs next. *)
Ltac at_call tac :=
  lazymatch goal with
  | |- context [run_nprogram ?h (?p ≫= ?k) ?w] => tac h k w
  end.

Section exec.
Context {J : Type} `{JetStream J}.

Abbreviation store w := (js_store (nw_js w)).

(** Nothing but the server has changed. *)
Definition nsame (w w' : nworld J) : Prop := nw_cache w' = nw_cache w ∧ nw_clock w' = nw_clock w.

Lemma nsame_trans w1 w2 w3 : nsame w1 w2 → nsame w2 w3 → nsame w1 w3.
Proof. unfold nsame. intros [-> ->] [-> ->]. done. Qed.

Lemma run_bind h {A B} (f : A → nprogram B) (p : nprogram A) w :
  run_nprogram h (p ≫= f) w = match run_nprogram h p w with
                              | Some (a, w) => run_nprogram h (f a) w
                              | None => None
                              end.
Proof. apply interp_bind. Qed.

Lemma run_bind_assoc h {A B C} (g : B → nprogram C) (f : A → nprogram B) (p : nprogram A) w :
  run_nprogram h ((p ≫= f) ≫= g) w = run_nprogram h (p ≫= (λ x, f x ≫= g)) w.
Proof.
  rewrite !run_bind. destruct (run_nprogram h p w) as [[a w']|]; [by rewrite run_bind|done].
Qed.

Lemma run_ret h {A} (a : A) w : run_nprogram h (mret a) w = Some (a, w).
Proof. done. Qed.

Lemma run_cache h {A X} (f : gset string → X * gset string) (k : X → nprogram A) w :
  run_nprogram h (jcache f ≫= k) w =
    run_nprogram h (k (f (nw_cache w)).1) (mkNWorld (nw_js w) (f (nw_cache w)).2 (nw_clock w)).
Proof. rewrite run_bind. unfold jcache, run_nprogram. simpl. by destruct (f (nw_cache w)). Qed.

Lemma run_clock h {A} (k : time → nprogram A) w t ts :
  nw_clock w = t :: ts →
  run_nprogram h (jnow ≫= k) w = run_nprogram h (k t) (mkNWorld (nw_js w) (nw_cache w) ts).
Proof. intros Hc. rewrite run_bind. unfold jnow, run_nprogram. simpl. by rewrite Hc. Qed.

Lemma run_invoke h {A} (k : Task * option string → nprogram A) t w :
  run_nprogram h (jinvoke t ≫= k) w = run_nprogram h (k (invokeHandler h t)) w.
Proof. done. Qed.

Lemma run_call {laws : JetStreamLaws J} h {A X} (c : jcall X) (k : X → nprogram A) w :
  ∃ x w', run_nprogram h (jdo c ≫= k) w = run_nprogram h (k x) w' ∧ nsame w w' ∧
    call_sem c (store w) x (store w').
Proof.
  exists (js_call c (nw_js w)).1, (mkNWorld (js_call c (nw_js w)).2 (nw_cache w) (nw_clock w)).
  rewrite run_bind. split_and!; [|done|apply js_call_ok].
  unfold jdo, run_nprogram. simpl. by destruct (js_call c (nw_js w)).
Qed.

Lemma run_reply {laws : JetStreamLaws J} h {A X} (c : jcall X) (k : X → nprogram A) w :
  ∃ x w', run_nprogram h (jdo c ≫= k) w = run_nprogram h (k x) w' ∧ nsame w w' ∧
    replies (JetStreamHealthy J) c (store w) x (store w').
Proof.
  exists (js_call c (nw_js w)).1, (mkNWorld (js_call c (nw_js w)).2 (nw_cache w) (nw_clock w)).
  rewrite run_bind. split_and!; [|done|split; [apply js_call_ok|by intros ?; apply js_answered]].
  unfold jdo, run_nprogram. simpl. by destruct (js_call c (nw_js w)).
Qed.

(** The last call of a delivery. *)
Lemma run_last {laws : JetStreamLaws J} h {X} (c : jcall X) w :
  ∃ w', run_nprogram h (_ ← jdo c; mret tt) w = Some (tt, w') ∧
    ∃ x, replies (JetStreamHealthy J) c (store w) x (store w').
Proof.
  destruct (run_reply h c (λ _, mret tt) w) as (x & w' & -> & _ & Hr). exists w'. split; [done|by exists x].
Qed.

(** The message of a failed attempt. *)
Lemma run_handoff {laws : JetStreamLaws J} h `{TaskJson} {A} q queue o e t now ts
    (k : option string → nprogram A) w :
  nw_clock w = now :: ts →
  let '(subject, t', id) := next_message q queue o e now t in
  ∃ r w', run_nprogram h (handoff q queue o e t ≫= k) w = run_nprogram h (k r) w' ∧
    match MarshalTask t' with
    | inl _ => is_Some r ∧ store w' = store w
    | inr m => replies (JetStreamHealthy J) (Publish subject m id) (store w) r (store w')
    end.
Proof.
  intros Hc. unfold handoff, next_message.
  assert (∀ subject t' id w1, store w1 = store w →
    ∃ r w', run_nprogram h (publishTask subject t' id ≫= k) w1 = run_nprogram h (k r) w' ∧
      match MarshalTask t' with
      | inl _ => is_Some r ∧ store w' = store w
      | inr m => replies (JetStreamHealthy J) (Publish subject m id) (store w) r (store w')
      end) as Hp.
  { intros subject t' id w1 Hs. unfold publishTask. destruct (MarshalTask t') as [er|m].
    - exists (Some er), w1. by split_and!.
    - destruct (run_reply h (Publish subject m id) k w1) as (r & w' & Hr & _ & Hrep).
      exists r, w'. rewrite <- Hs. by split. }
  case_decide; cbn [fst snd]; rewrite run_bind_assoc, (run_clock _ _ _ _ _ Hc); by apply Hp.
Qed.

End exec.

(** On a healthy server with the streams of the queue. *)
Lemma handled_by_healthy `{TaskJson} (healthy : Prop) q queue h o d data t1 t2 σ σ' :
  healthy → handled_by healthy q queue h o d data t1 t2 σ σ' → is_Some (σ !! d_stream d) →
  (∃ n st, σ !! n = Some st ∧ st_subject st = tasksSubject q queue) →
  (∃ n st, σ !! n = Some st ∧ st_subject st = deadSubject q queue) →
  handled q queue h o d data t1 t2 σ σ'.
Proof.
  intros Hh Hby Hd Htasks Hdead. unfold handled_by, handled in *.
  destruct (UnmarshalTask data) as [e|t]; [destruct Hby as (x & _ & Ha); by apply (Ha Hh)|].
  case_decide; [by destruct Hby as (x & Hs & _)|].
  destruct (invokeHandler h (incr_Attempts t)) as [t' [e|]]; [|destruct Hby as (x & _ & Ha); by apply (Ha Hh)].
  assert (∃ n st, σ !! n = Some st ∧ st_subject st = (next_message q queue o e t2 t').1.1) as Hsub.
  { unfold next_message. by case_decide. }
  destruct (next_message q queue o e t2 t') as [[subject t''] id]. simpl in Hsub.
  destruct (MarshalTask t'') as [er|m]; [done|].
  destruct Hby as (err & σ1 & [Hs Ha] & Hrest). rewrite (Ha Hh Hsub) in Hs, Hrest.
  destruct Hs as [Hp|[? _]]; [|done]. exists σ1. split; [done|].
  destruct Hrest as (x & _ & Hack). apply (Hack Hh).
  destruct Hd as [st Hst]. destruct (published_lookup _ _ _ _ _ _ _ Hp Hst) as (st' & Hst' & _). eauto.
Qed.

Section healthy.
Context {J : Type} `{JetStream J} {laws : JetStreamLaws J} {healthy : JetStreamHealthy J}.
#[local] Set Default Proof Using "All".

Abbreviation store w := (js_store (nw_js w)).

Lemma run_answer h {A X} (c : jcall X) (k : X → nprogram A) w :
  ∃ x w', run_nprogram h (jdo c ≫= k) w = run_nprogram h (k x) w' ∧ nsame w w' ∧
    call_sem c (store w) x (store w') ∧ call_answered c (store w) x (store w').
Proof.
  exists (js_call c (nw_js w)).1, (mkNWorld (js_call c (nw_js w)).2 (nw_cache w) (nw_clock w)).
  rewrite run_bind. split_and!; [|done|apply js_call_ok|apply js_answered].
  unfold jdo, run_nprogram. simpl. by destruct (js_call c (nw_js w)).
Qed.

Lemma run_ensure h {A} name subject (k : option string → nprogram A) w :
  (∀ st, store w !! name = Some st → st_subject st = subject) →
  ∃ w', run_nprogram h (jdo (EnsureStream name subject) ≫= k) w = run_nprogram h (k None) w' ∧
    nsame w w' ∧ store w' = provision name subject (store w).
Proof.
  intros Hs. destruct (run_answer h (EnsureStream name subject) k w) as (x & w' & Hr & Hn & Hc & Ha).
  simpl in Hc, Ha. subst x. exists w'. split_and!; [done|done|]. destruct Hc as [Hc|[? ?]]; [|done].
  unfold ensured in Hc. unfold provision. destruct (store w !! name) as [st|]; [|done].
  apply Hc. by apply Hs.
Qed.

Lemma run_publish h {A} subject data id (k : option string → nprogram A) w :
  (∃ n st, store w !! n = Some st ∧ st_subject st = subject) →
  ∃ w', run_nprogram h (jdo (Publish subject data id) ≫= k) w = run_nprogram h (k None) w' ∧
    nsame w w' ∧ published subject data id (store w) (store w').
Proof.
  intros Hs. destruct (run_answer h (Publish subject data id) k w) as (x & w' & Hr & Hn & Hc & Ha).
  simpl in Hc, Ha. rewrite (Ha Hs) in Hr, Hc. exists w'. split_and!; [done|done|].
  by destruct Hc as [Hc|[? ?]].
Qed.

Lemma run_ack h {A} d (k : option string → nprogram A) w :
  is_Some (store w !! d_stream d) →
  ∃ w', run_nprogram h (jdo (Ack d) ≫= k) w = run_nprogram h (k None) w' ∧
    nsame w w' ∧ dropped (d_stream d) (d_seq d) (store w) (store w').
Proof.
  intros Hs. destruct (run_answer h (Ack d) k w) as (x & w' & Hr & Hn & Hc & Ha).
  simpl in Hc, Ha. destruct (Ha Hs) as [-> Hd]. by exists w'.
Qed.

Lemma run_open h {A} name (k : option string → nprogram A) w :
  is_Some (store w !! name) →
  ∃ w', run_nprogram h (jdo (OpenStream name) ≫= k) w = run_nprogram h (k None) w' ∧
    nsame w w' ∧ store w' = store w.
Proof.
  intros Hs. destruct (run_answer h (OpenStream name) k w) as (x & w' & Hr & Hn & [Hc _] & Ha).
  simpl in Ha. rewrite (Ha Hs) in Hr. by exists w'.
Qed.

Lemma run_delete h {A} name seq (k : option jerr → nprogram A) w st :
  store w !! name = Some st → is_Some (st_msgs st !! seq) →
  ∃ w', run_nprogram h (jdo (DeleteMsg name seq) ≫= k) w = run_nprogram h (k None) w' ∧
    nsame w w' ∧ dropped name seq (store w) (store w').
Proof.
  intros Hs Hm. destruct (run_answer h (DeleteMsg name seq) k w) as (x & w' & Hr & Hn & Hc & Ha).
  simpl in Hc, Ha. rewrite (Ha st Hs Hm) in Hr, Hc. exists w'. by destruct Hc.
Qed.
(** ** Provisioning and publishing *)

Lemma run_ensureQueue h {A} q queue (k : option Err → nprogram A) w :
  queue_ready q queue (store w) (nw_cache w) →
  ∃ w', run_nprogram h (ensureQueue q queue ≫= k) w = run_nprogram h (k None) w' ∧
    nw_clock w' = nw_clock w ∧ store w' = provisioned q queue (store w).
Proof.
  intros [Hv Ht Hd Hc]. unfold ensureQueue. rewrite Hv, run_bind_assoc, run_cache. cbn [fst snd].
  case_bool_decide as Hin.
  - exists w. destruct (Hc Hin) as [Hst Hsd]. rewrite run_bind, run_ret. split_and!; [|done|].
    + by destruct w.
    + by rewrite provisioned_there.
  - rewrite run_bind_assoc.
    at_call ltac:(fun h k w => destruct (run_ensure h (streamName q queue) (tasksSubject q queue) k w) as (w1 & -> & Hn1 & Hs1)).
    { intros st Hst. by apply Ht. }
    simpl in Hs1. cbn beta iota. rewrite run_bind_assoc.
    at_call ltac:(fun h k w => destruct (run_ensure h (dlqStreamName q queue) (deadSubject q queue) k w) as (w2 & -> & Hn2 & Hs2)).
    { intros st Hst. rewrite Hs1, provision_lookup, decide_False in Hst; [by apply Hd|].
      intros Heq. by apply (tasks_dlq_differ q queue). }
    cbn beta iota. rewrite run_bind_assoc, run_cache, run_bind, run_ret.
    eexists. split_and!; [done|..]; simpl; [|by rewrite Hs2, Hs1].
    destruct Hn1 as [_ Hn1], Hn2 as [_ Hn2]. by rewrite Hn2, Hn1.
Qed.

Lemma run_publishTask h `{TaskJson} {A} subject t id (k : option string → nprogram A) w :
  (∃ n st, store w !! n = Some st ∧ st_subject st = subject) →
  match MarshalTask t with
  | inl e => run_nprogram h (publishTask subject t id ≫= k) w = run_nprogram h (k (Some e)) w
  | inr data => ∃ w', run_nprogram h (publishTask subject t id ≫= k) w = run_nprogram h (k None) w' ∧
      nsame w w' ∧ published subject data id (store w) (store w')
  end.
Proof.
  intros Hs. unfold publishTask. destruct (MarshalTask t) as [e|data]; [done|]. by apply run_publish.
Qed.

(** ** The scan of the dead letters *)

Lemma run_scan_loop h `{TaskJson} {S} name (fn : deadEntry → S → bool * S) st fuel : ∀ seq s w,
  store w !! name = Some st → numbered st → 1 ≤ seq ≤ two64 → st_last st + 1 - seq < Z.of_nat fuel →
  (0 < fuel)%nat →
  ∃ w', run_nprogram h (scan_loop fuel name fn (wrapu64 seq) (st_last st) s) w =
      Some (Some (inr (fold_until fn (entries st seq) s)), w') ∧
    nsame w w' ∧ store w' = store w.
Proof.
  induction fuel as [|fuel IH]; intros seq s w Hst Hnum Hseq Hfuel Hpos; [lia|].
  cbn [scan_loop]. pose proof Hnum as [Hlast _]. case_decide as Hc.
  - assert (seq < two64) as Hlt.
    { destruct (decide (seq = two64)) as [->|]; [by destruct Hc|lia]. }
    rewrite (wrapu64_id seq) in Hc |- * by lia.
    rewrite entries_cons by lia.
    assert (∀ (s : S) w1, nsame w w1 → store w1 = store w →
      ∃ w', run_nprogram h (scan_loop fuel name fn (wrapu64 (seq + 1)) (st_last st) s) w1 =
          Some (Some (inr (fold_until fn (entries st (seq + 1)) s)), w') ∧
        nsame w w' ∧ store w' = store w) as Hnext.
    { intros s1 w1 Hn1 Hs1. destruct (IH (seq + 1) s1 w1) as (w' & Hr & Hn & Hs); [congruence|done|lia..|].
      exists w'. split_and!; [done|by eapply nsame_trans|congruence]. }
    at_call ltac:(fun h k w => destruct (run_answer h (GetMsg name seq) k w) as (x & w1 & -> & Hn1 & [Hs1 Hx] & Ha)).
    simpl in Ha. unfold entry_at. destruct (Ha ltac:(eauto)) as [->|[data ->]].
    + rewrite (Hx st Hst). by apply Hnext.
    + destruct Hx as (st' & Hst' & Hd). simplify_eq. rewrite Hd. cbn [option_bind mbind]. unfold task_of.
      destruct (UnmarshalTask data) as [e|t]; cbn [option_bind mbind fold_until]; [by apply Hnext|].
      destruct (fn (mkEntry t seq) s) as [[] s1]; [by apply Hnext|]. exists w1. by rewrite run_ret.
  - exists w. rewrite run_ret. split_and!; [|done..]. do 3 f_equal.
    assert (st_last st + 1 - seq ≤ 0) as Hle.
    { destruct (decide (seq = two64)) as [->|]; [lia|]. rewrite (wrapu64_id seq) in Hc by lia. lia. }
    by rewrite entries_nil by lia.
Qed.

(** Before the first message there are no entries. *)
Lemma entries_first `{TaskJson} st seq :
  numbered st → 1 ≤ seq → (∀ k, is_Some (st_msgs st !! k) → seq ≤ k ≤ st_last st) →
  entries st 1 = entries st seq.
Proof.
  intros Hnum Hseq Hm. unfold entries.
  assert (∀ l, Forall (λ k, st_msgs st !! k = None) l → omap (entry_at st) l = []) as Hnone.
  { induction 1 as [|k l Hk _ IH]; csimpl; [done|]. unfold entry_at at 1. by rewrite Hk. }
  destruct (decide (st_last st + 1 ≤ seq)) as [Hle|Hgt].
  - rewrite (seqZ_nil seq) by lia. csimpl. apply Hnone, Forall_forall. intros k Hk.
    apply elem_of_seqZ in Hk. apply eq_None_not_Some. intros Hs. destruct (Hm k Hs). lia.
  - replace (st_last st + 1 - 1) with ((seq - 1) + (st_last st + 1 - seq)) by lia.
    rewrite seqZ_app, omap_app by lia. replace (1 + (seq - 1)) with seq by lia.
    rewrite Hnone; [done|]. apply Forall_forall. intros k Hk.
    apply elem_of_seqZ in Hk. apply eq_None_not_Some. intros Hs. destruct (Hm k Hs). lia.
Qed.

Lemma run_scan h `{TaskJson} {S A} q queue (fn : deadEntry → S → bool * S) s
    (k : option (Err + S) → nprogram A) w :
  queue_ready q queue (store w) (nw_cache w) →
  ∃ w', run_nprogram h (scanDeadTasks q queue fn s ≫= k) w =
      run_nprogram h (k (Some (inr (fold_until fn (dead_entries q queue (store w)) s)))) w' ∧
    nw_clock w' = nw_clock w ∧ store w' = provisioned q queue (store w).
Proof.
  intros Hq. unfold scanDeadTasks. rewrite run_bind_assoc.
  at_call ltac:(fun h k w => destruct (run_ensureQueue h q queue k w Hq) as (w1 & -> & Hc1 & Hs1)).
  cbn beta iota. rewrite run_bind_assoc.
  pose proof (provisioned_dead q queue (store w)) as Hst. rewrite <- Hs1 in Hst.
  set (st := default _ _) in Hst.
  assert (numbered st) as Hnum.
  { subst st. destruct (store w !! dlqStreamName q queue) as [st|] eqn:E; [by apply (qr_dead _ _ _ _ Hq)|].
    split; [done|]. apply map_Forall_empty. }
  assert (dead_entries q queue (store w) = entries st 1) as ->.
  { unfold dead_entries. subst st. destruct (store w !! dlqStreamName q queue); [done|].
    by rewrite entries_nil. }
  clearbody st.
  at_call ltac:(fun h k w => destruct (run_open h (dlqStreamName q queue) k w) as (w2 & -> & Hn2 & Hs2)); [eauto|].
  cbn beta iota. rewrite run_bind_assoc.
  at_call ltac:(fun h k w => destruct (run_answer h (Info (dlqStreamName q queue)) k w)
    as (x & w3 & -> & Hn3 & [Hs3 Hx] & Ha)).
  rewrite Hs2 in Hx, Ha. destruct (Ha st Hst Hnum) as [[first last] ->].
  destruct Hx as (st' & Hst' & -> & Hf & Hl & Hm). assert (st' = st) as -> by congruence. clear Hst'.
  cbn beta iota. rewrite run_bind.
  assert (nw_clock w3 = nw_clock w ∧ store w3 = provisioned q queue (store w)) as [Hc3 Hs3'].
  { destruct Hn2 as [_ Hn2], Hn3 as [_ Hn3]. split; [by rewrite Hn3, Hn2|by rewrite Hs3, Hs2]. }
  destruct (decide (first = 0)) as [->|Hne].
  - rewrite (entries_first _ (st_last st + 1)), entries_nil; [|lia|done|lia|].
    2: { intros k0 Hk0. destruct (Hm k0 Hk0). lia. }
    exists w3. split; [|done]. unfold scan_fuel. cbn [scan_loop]. rewrite decide_False by lia. done.
  - rewrite (entries_first _ first); [|done|lia|intros k0 Hk0; by apply Hm].
    destruct (run_scan_loop h (dlqStreamName q queue) fn st (scan_fuel first (st_last st)) first s w3)
      as (w4 & Hr & [_ Hn4] & Hs4); [by rewrite Hs3, Hs2|done|lia|unfold scan_fuel; lia..|].
    rewrite wrapu64_id in Hr by lia. rewrite Hr. exists w4. split_and!; [done|by rewrite Hn4|by rewrite Hs4].
Qed.
Lemma run_findDeadTask h `{TaskJson} {A} q queue taskID (k : option (Err + deadEntry) → nprogram A) w :
  queue_ready q queue (store w) (nw_cache w) →
  ∃ w', run_nprogram h (findDeadTask q queue taskID ≫= k) w =
      run_nprogram h (k (Some (from_option inr (inl ErrTaskNotFound) (find_dead q queue taskID (store w))))) w' ∧
    nw_clock w' = nw_clock w ∧ store w' = provisioned q queue (store w).
Proof.
  intros Hq. unfold findDeadTask. rewrite run_bind_assoc.
  at_call ltac:(fun h k w => destruct (run_scan h q queue (find_fn taskID) None k w Hq) as (w' & -> & Hc & Hs)).
  exists w'. split_and!; [|done|done]. rewrite fold_find_fn. unfold find_dead.
  destruct (list_find _ _) as [[i e]|]; cbn [from_option fmap option_fmap option_map snd];
    by rewrite run_bind, run_ret.
Qed.

Lemma run_deleteDeadSeq h q queue seq w st :
  store w !! dlqStreamName q queue = Some st → is_Some (st_msgs st !! seq) →
  ∃ w', run_nprogram h (deleteDeadSeq q queue seq) w = Some (None, w') ∧
    dropped (dlqStreamName q queue) seq (store w) (store w').
Proof.
  intros Hst Hm. unfold deleteDeadSeq.
  at_call ltac:(fun h k w => destruct (run_open h (dlqStreamName q queue) k w) as (w1 & -> & _ & Hs1)); [eauto|].
  cbn beta iota.
  at_call ltac:(fun h k w => destruct (run_delete h (dlqStreamName q queue) seq k w st) as (w2 & -> & _ & Hd));
    [by rewrite Hs1|done|].
  exists w2. split; [done|]. by rewrite <- Hs1.
Qed.
End healthy.

(** ** The scan ends on every server *)

Section ends.
Context {J : Type} `{JetStream J} {laws : JetStreamLaws J}.
#[local] Set Default Proof Using "All".

(** The program answers without asking for the time. *)
Definition answers_in h {A} (P : A → Prop) (p : nprogram A) (w : nworld J) : Prop :=
  ∃ a w', run_nprogram h p w = Some (a, w') ∧ nw_clock w' = nw_clock w ∧ P a.

Lemma answers_ret h {A} (P : A → Prop) a w : P a → answers_in h P (mret a) w.
Proof. intros HP. by exists a, w. Qed.

Lemma answers_bind h {A B} (Q : A → Prop) (P : B → Prop) (p : nprogram A) f w :
  answers_in h Q p w → (∀ a w', Q a → answers_in h P (f a) w') → answers_in h P (p ≫= f) w.
Proof.
  intros (a & w1 & Hr & Hc & HQ) Hf. destruct (Hf a w1 HQ) as (b & w2 & Hr2 & Hc2 & HP).
  exists b, w2. rewrite run_bind, Hr. split_and!; [done|congruence|done].
Qed.

Lemma answers_call h {A X} (P : A → Prop) (c : jcall X) k w :
  (∀ x w', call_sem c (js_store (nw_js w)) x (js_store (nw_js w')) → answers_in h P (k x) w') →
  answers_in h P (jdo c ≫= k) w.
Proof.
  intros Hk. destruct (run_call h c k w) as (x & w1 & Hr & [_ Hc] & Hs).
  destruct (Hk x w1 Hs) as (a & w2 & Hr2 & Hc2 & HP). exists a, w2.
  split_and!; [congruence|congruence|done].
Qed.

Lemma answers_cache h {A X} (P : A → Prop) (f : gset string → X * gset string) k w :
  (∀ x w', answers_in h P (k x) w') → answers_in h P (jcache f ≫= k) w.
Proof.
  intros Hk. unfold answers_in. rewrite run_cache.
  exact (Hk _ (mkNWorld (nw_js w) (f (nw_cache w)).2 (nw_clock w))).
Qed.

Lemma ensureQueue_ends h q queue w : answers_in h (λ _, True) (ensureQueue q queue) w.
Proof.
  unfold ensureQueue. destruct (validateQueue queue); [by apply answers_ret|].
  apply answers_cache. intros [] w1; [by apply answers_ret|].
  apply answers_call. intros [e|] w2 _; [by apply answers_ret|].
  apply answers_call. intros [e|] w3 _; [by apply answers_ret|].
  apply answers_cache. intros x w4. by apply answers_ret.
Qed.

Lemma scan_loop_ends h `{TaskJson} {S} name (fn : deadEntry → S → bool * S) last fuel : ∀ seq s w,
  0 ≤ last < two64 → 1 ≤ seq ≤ two64 → last + 1 - seq < Z.of_nat fuel → (0 < fuel)%nat →
  answers_in h is_Some (scan_loop fuel name fn (wrapu64 seq) last s) w.
Proof.
  induction fuel as [|fuel IH]; intros seq s w Hlast Hseq Hfuel Hpos; [lia|].
  cbn [scan_loop]. case_decide as Hc; [|by apply answers_ret].
  assert (seq < two64) as Hlt.
  { destruct (decide (seq = two64)) as [->|]; [by destruct Hc|lia]. }
  rewrite (wrapu64_id seq) in Hc |- * by lia.
  assert (∀ s w, answers_in h is_Some (scan_loop fuel name fn (wrapu64 (seq + 1)) last s) w) as Hnext.
  { intros s1 w1. apply IH; lia. }
  apply answers_call. intros [[]|data] w1 _; [done|by apply answers_ret..|].
  destruct (UnmarshalTask data); [done|]. destruct (fn _ s) as [[] s1]; [done|by apply answers_ret].
Qed.

Lemma scanDeadTasks_ends h `{TaskJson} {S} q queue (fn : deadEntry → S → bool * S) s w :
  answers_in h is_Some (scanDeadTasks q queue fn s) w.
Proof.
  unfold scanDeadTasks. eapply answers_bind; [apply ensureQueue_ends|].
  intros [e|] w1 _; [by apply answers_ret|].
  apply answers_call. intros [e|] w2 _; [by apply answers_ret|].
  apply answers_call. intros [e|[first last]] w3 Hi; [by apply answers_ret|].
  destruct Hi as (_ & st & _ & _ & Hf & Hl & _). destruct (decide (first = 0)) as [->|Hne].
  - unfold scan_fuel. cbn [scan_loop]. rewrite decide_False by lia. by apply answers_ret.
  - rewrite <- (wrapu64_id first) at 2 by lia. apply scan_loop_ends; unfold scan_fuel; lia.
Qed.

Lemma findDeadTask_ends h `{TaskJson} q queue taskID w :
  answers_in h is_Some (findDeadTask q queue taskID) w.
Proof.
  unfold findDeadTask. eapply answers_bind; [apply scanDeadTasks_ends|].
  intros [[e|[x|]]|] w1 Hr; by apply answers_ret.
Qed.

Lemma deleteDeadSeq_ends h q queue seq w : answers_in h (λ _, True) (deleteDeadSeq q queue seq) w.
Proof.
  unfold deleteDeadSeq. apply answers_call. intros [e|] w1 _; [by apply answers_ret|].
  apply answers_call. intros [[]|] w2 _; by apply answers_ret.
Qed.
End ends.
