(* ===== verification/ScriptJS.v ===== *)
(** * A concrete JetStream server

    A server that satisfies [JetStreamLaws] and never fails, with a duplicate
    window of two minutes, and a codec for tasks: the instances on which the
    witnesses and the executions of [NatsProps] are computed. *)

From stdpp Require Import base tactics list numbers option gmap strings countable.
From Stdlib Require Import Strings.Byte.
From S2P Require Import Prelude GoRuntime Contract Effects JetStream ScriptDB.

(** ** Tasks *)

#[export] Instance byte_countable : Countable byte := inj_countable Byte.to_N Byte.of_N Byte.of_to_N.

Definition task_fields (t : Task) : list positive :=
  [encode (ID t); encode (Queue t); encode (Payload t); encode (Metadata t); encode (Attempts t);
   encode (MaxRetries t); encode (EnqueuedAt t); encode (RunAt t); encode (LastError t); encode (DiedAt t)].

Definition fields_task (l : list positive) : option Task :=
  match l with
  | [i; q; p; m; a; r; e; u; s; d] =>
      i ← decode i; q ← decode q; p ← decode p; m ← decode m; a ← decode a;
      r ← decode r; e ← decode e; u ← decode u; s ← decode s; d ← decode d;
      Some (mkTask i q p m a r e u s d)
  | _ => None
  end.

Lemma fields_task_fields t : fields_task (task_fields t) = Some t.
Proof. unfold fields_task, task_fields. rewrite !decode_encode. by destruct t. Qed.

#[export] Instance script_task_json : TaskJson := {
  MarshalTask t := inr (to_bits (encode (task_fields t)));
  UnmarshalTask l :=
    match decode (A := list positive) (of_bits l) ≫= fields_task with
    | Some t => inr t
    | None => inl "invalid"
    end
}.

#[export] Instance script_task_json_laws : TaskJsonLaws.
Proof.
  refine {| json_string _ := True; wire t := t |}; try done.
  intros t data [= <-]. unfold UnmarshalTask, script_task_json.
  rewrite of_to_bits, decode_encode. cbn [option_bind mbind]. by rewrite fields_task_fields.
Defined.

(** ** The server *)

Definition find_subject (subject : string) (σ : jstore) : option (string * stream) :=
  head (filter (λ p, st_subject p.2 = subject) (map_to_list σ)).

Definition first_seq (st : stream) : Z :=
  foldr Z.min (Z.min (st_last st + 1) (two64 - 1)) (map_to_list (st_msgs st)).*1.

Definition drop_at (name : string) (seq : Z) (σ : jstore) : jstore :=
  match σ !! name with Some st => <[name := drop_msg seq st]> σ | None => σ end.

Definition do_call {X} (c : jcall X) (σ : jstore) : X * jstore :=
  match c in jcall X return X * jstore with
  | EnsureStream name subject =>
      match σ !! name with
      | None => (None, <[name := new_stream subject]> σ)
      | Some _ => (None, σ)
      end
  | Publish subject data msgID =>
      match find_subject subject σ with
      | None => (Some "no stream", σ)
      | Some (name, st) =>
          if decide (msgID ≠ "" ∧ msgID ∈ st_ids st) then (None, σ)
          else (None, <[name := store_msg data msgID st]> σ)
      end
  | OpenStream name => (match σ !! name with Some _ => None | None => Some "stream not found" end, σ)
  | Info name =>
      (match σ !! name with
       | Some st => if decide (numbered st) then inr (first_seq st, st_last st)
                    else inl "bad stream"
       | None => inl "stream not found"
       end, σ)
  | GetMsg name seq =>
      (match σ !! name with
       | Some st => match st_msgs st !! seq with Some data => inr data | None => inl ErrMsgNotFound end
       | None => inl (ErrServer "stream not found")
       end, σ)
  | DeleteMsg name seq =>
      match σ !! name with
      | Some st => match st_msgs st !! seq with
                   | Some _ => (None, <[name := drop_msg seq st]> σ)
                   | None => (Some ErrMsgNotFound, σ)
                   end
      | None => (Some (ErrServer "stream not found"), σ)
      end
  | Ack d => (None, drop_at (d_stream d) (d_seq d) σ)
  | Term d => (None, drop_at (d_stream d) (d_seq d) σ)
  | Nak _ | NakWithDelay _ _ | EnsureConsumer _ _ _ _ _ => (None, σ)
  end.

Lemma find_subject_Some subject σ name st :
  find_subject subject σ = Some (name, st) → σ !! name = Some st ∧ st_subject st = subject.
Proof.
  unfold find_subject. intros Hh.
  assert ((name, st) ∈ filter (λ p, st_subject p.2 = subject) (map_to_list σ)) as Hin.
  { destruct (filter _ (map_to_list σ)); [done|]. injection Hh as ->. by left. }
  apply list_elem_of_filter in Hin as [Hs Hin]. by apply elem_of_map_to_list in Hin.
Qed.

Lemma find_subject_None subject σ name st :
  find_subject subject σ = None → σ !! name = Some st → st_subject st ≠ subject.
Proof.
  unfold find_subject. intros Hh Hst Hs.
  assert ((name, st) ∈ filter (λ p, st_subject p.2 = subject) (map_to_list σ)) as Hin.
  { apply list_elem_of_filter. split; [done|]. by apply elem_of_map_to_list. }
  destruct (filter _ (map_to_list σ)); [by apply elem_of_nil in Hin|done].
Qed.

Lemma first_seq_le st seq data : st_msgs st !! seq = Some data → first_seq st ≤ seq.
Proof.
  intros Hd. unfold first_seq.
  assert (seq ∈ (map_to_list (st_msgs st)).*1) as Hin.
  { apply list_elem_of_fmap. exists (seq, data). split; [done|]. by apply elem_of_map_to_list. }
  induction (map_to_list (st_msgs st)).*1 as [|x l IH]; [by apply elem_of_nil in Hin|].
  simpl. apply elem_of_cons in Hin as [->|Hin]; [lia|]. specialize (IH Hin). lia.
Qed.

Lemma first_seq_bound st : first_seq st < two64.
Proof. unfold first_seq. induction (map_to_list (st_msgs st)).*1 as [|x l IH]; simpl; lia. Qed.

Lemma first_seq_pos st : numbered st → 1 ≤ first_seq st.
Proof.
  intros [Hl Hm]. unfold first_seq. rewrite map_Forall_to_list in Hm.
  induction (map_to_list (st_msgs st)) as [|[x d] l IH]; csimpl; [lia|].
  apply Forall_cons_1 in Hm as [Hx Hm]. simpl in Hx. specialize (IH Hm). lia.
Qed.

Lemma drop_at_sem name seq σ : drop_at name seq σ = σ ∨ dropped name seq σ (drop_at name seq σ).
Proof. unfold drop_at, dropped. destruct (σ !! name) as [st|] eqn:E; eauto. Qed.

Lemma do_call_ok {X} (c : jcall X) σ : call_sem c σ (do_call c σ).1 (do_call c σ).2.
Proof.
  destruct c; simpl; auto using drop_at_sem.
  - unfold ensured. destruct (σ !! name) as [st|] eqn:E; simpl; left; [|done]. split_and!; eauto.
  - destruct (find_subject subject σ) as [[n st]|] eqn:E; [|by right].
    apply find_subject_Some in E as [Hst Hs]. left. exists n, st.
    case_decide as Hd; (split_and!; [done..|]); [left|right]; [by destruct Hd|].
    split; [|done]. destruct (decide (msgID = "")); [by left|right]. intros Hin. by apply Hd.
  - split; [done|]. by destruct (σ !! name).
  - split; [done|]. destruct (σ !! name) as [st|] eqn:E; [|done]. case_decide as Hd; [|done].
    pose proof (first_seq_pos st Hd). pose proof (first_seq_bound st). destruct Hd as [Hl Hm].
    exists st. split_and!; try done; try lia. intros seq [d Hs].
    pose proof (first_seq_le st seq d Hs). pose proof (Hm seq d Hs). simpl in *. lia.
  - split; [done|]. destruct (σ !! name) as [st|] eqn:E; [|done].
    destruct (st_msgs st !! seq) as [d|] eqn:Hd; [by eauto|]. by intros st' [= <-].
  - destruct (σ !! name) as [st|] eqn:E; simpl; [|by left].
    destruct (st_msgs st !! seq) as [d|] eqn:Hd; simpl; [|done]. unfold dropped. eauto 10.
Qed.

Record plain_js := mkPlainJS { pj_store : jstore }.

Definition forget_ids (st : stream) : stream := mkStream (st_subject st) (st_msgs st) (st_last st) ∅.

#[export] Instance plain_jetstream : JetStream plain_js := {
  js_store := pj_store;
  js_call X c j := let '(x, σ) := do_call c (pj_store j) in (x, mkPlainJS σ);
  js_elapse d j := if decide (d < 2 * Minute) then j else mkPlainJS (forget_ids <$> pj_store j)
}.

#[export] Instance plain_js_laws : JetStreamLaws plain_js.
Proof.
  split.
  - intros X c j. simpl. pose proof (do_call_ok c (pj_store j)) as Hc. by destruct (do_call c (pj_store j)).
  - intros d j n. simpl. case_decide; simpl; [by destruct (pj_store j !! n)|].
    rewrite lookup_fmap. destruct (pj_store j !! n); simpl; [|done].
    by split_and!.
Qed.

#[export] Instance plain_js_healthy : JetStreamHealthy plain_js.
Proof.
  split. intros X c j. destruct c; simpl; try done.
  - by destruct (pj_store j !! name).
  - intros (n & st & Hst & Hs). destruct (find_subject subject (pj_store j)) as [[m st']|] eqn:E.
    + by case_decide.
    + by destruct (find_subject_None _ _ _ _ E Hst).
  - by intros [st ->].
  - intros st -> Hn. rewrite decide_True by done. eauto.
  - intros [st ->]. destruct (st_msgs st !! seq); eauto.
  - intros st -> [d ->]. done.
  - intros [st Hst]. unfold drop_at. rewrite Hst. split; [done|]. by exists st.
  - intros [st Hst]. unfold drop_at. rewrite Hst. split; [done|]. by exists st.
Qed.
