(* ===== verification/NatsProps.v ===== *)
(** * Properties of the JetStream backend

    No task is lost, whatever the server and the processes do, unless it is
    requeued while the server remembers one of its attempts, and then it can
    be; and what each method does on a server that answers. *)

From stdpp Require Import base tactics list numbers option gmap strings pretty.
From Stdlib Require Import Strings.Byte Ascii.
From S2P Require Import Prelude GoRuntime Contract Options Effects JetStream Nats NatsNames NatsLegal NatsSystem NatsInv NatsSafety NatsExact ScriptJS.

Import Nats.

(** ** No task is lost *)

Section safety.
Context `{TaskJsonLaws} {J : Type} `{JetStream J} {laws : JetStreamLaws J}.
Context (q : NATSWorkQueue) (queues : gset string) (valid : string → bool) (n : nat) (j : J) (t0 : time).
Context (s : nsys J) (Hqueues : ∀ a b, a ∈ queues → b ∈ queues → a ≠ b +:+ "_DLQ").
Context (Hvalid : ∀ u, valid u = true → json_string u) (Hempty : js_store j = ∅).
Context (Hreach : reachable (nstep q queues valid) (nsys_init n j t0) s).
Context (Hkept : ng_rewritten (ns_ghost s) = false).

(** C11. Whatever the interleaving, the redeliveries, the failures of the server and
    the crashes: a task a stream has held is still in a stream, or a handler
    returned nil for it, or its dead letter was deleted, or it was requeued
    while the message ID of one of its attempts was in the duplicate window.
    The handlers may write to their task as they like, but one that fails has
    kept its identifier, not lowered its attempt counter, and left a retry
    budget that is one ([keeps_key]; see [nats_rewriting_handler_loses_task]).
    No queue has the name of another with _DLQ appended, and the uuid package
    gives identifiers that are new and valid JSON strings; no client asks for
    2^63 - 1 retries. *)
Theorem nats_no_task_lost i :
  i ∈ ng_seen (ns_ghost s) →
  i ∈ stored_ids (js_store (ns_js s)) ∨ i ∈ ng_done (ns_ghost s) ∨ i ∈ ng_risky (ns_ghost s).
Proof using Hqueues Hvalid Hempty Hreach Hkept laws.
  intros Hi. destruct (nreachable_inv q queues Hqueues valid n j t0 s Hvalid Hempty Hreach Hkept) as [Hst _ _].
  destruct (ni_live _ _ _ _ Hst i Hi) as [?|[?|(m & st & seq & data & t & Hs & Hd & Ht & Hid & _)]]; auto.
  left. apply elem_of_stored_ids. by exists m, st, seq, data, t.
Qed.

(** C31. Every message in a stream of the backend is a task; in a tasks stream it
    has used at most [MaxRetries] attempts, so that no delivery is numbered
    past [MaxRetries + 1]. As for [nats_no_task_lost], the handlers that fail
    have kept the identifier, the attempt counter and the budget of their task
    in the sense of [keeps_key], no queue has the name of another with _DLQ
    appended, and no client asks for 2^63 - 1 retries. *)
Theorem nats_messages_ok queue m st seq data :
  queue ∈ queues → js_store (ns_js s) !! m = Some st → st_msgs st !! seq = Some data →
  ∃ t, UnmarshalTask data = inr t ∧ seq ≤ st_last st ∧ 0 ≤ MaxRetries t ∧
    (m = streamName q queue →
       0 ≤ Attempts t ≤ MaxRetries t ∧ 1 ≤ Attempts (incr_Attempts t) ≤ MaxRetries t + 1).
Proof using Hqueues Hvalid Hempty Hreach Hkept laws.
  intros Hq Hs Hd.
  destruct (nreachable_inv q queues Hqueues valid n j t0 s Hvalid Hempty Hreach Hkept) as [Hst _ _].
  destruct (ni_msgs _ _ _ _ Hst _ _ _ _ Hs Hd) as (t & Ht & _ & Hok & _ & Hlv).
  exists t. split_and!; [done|by eapply (ni_last _ _ _ _ Hst)|apply Hok|]. intros Hm.
  destruct (Hlv queue Hq Hm) as [Hok' Ha]. split; [done|]. unfold task_ok in Hok'. simpl.
  rewrite wrap64_id; unfold in_int64; lia.
Qed.
End safety.

(** ** An execution *)

Definition demo_q : NATSWorkQueue := New true (mkConfig "" "" 0 0).
Definition demo_queues : gset string := {["q"]}.
Definition demo_start : nsys plain_js := nsys_init 1 (mkPlainJS ∅) 1000.
Definition demo_step : nevent → nsys plain_js → option (nsys plain_js) :=
  nstep demo_q demo_queues (λ _, true).
Definition demo_run (es : list nevent) : nsys plain_js := default demo_start (run demo_step es demo_start).

Definition steps (n i : nat) : list nevent := replicate n (NStep i).
Definition failing (e : string) : Handler := λ t, (t, Returned (Some e)).

(** One failing delivery of message [seq] by thread [i]: the clock, the
    handler, then the clock, the publication and the acknowledgement. *)
Definition fails_by (h : Handler) (i : nat) (seq : Z) : list nevent :=
  NDeliver 0 "q" [] seq :: NStep i :: NHandled i h :: steps 3 i.

Definition fails : nat → Z → list nevent := fails_by (failing "boom").

(** A task with one retry fails twice, is requeued, and fails once more. *)
Definition requeued_life : list nevent :=
  NClient 0 (NEnqueue "a" "q" None [WithMaxRetries 1]) :: steps 6 0 ++
  fails 1 1 ++ NTick (10 * Second) :: fails 2 2 ++
  NClient 0 (NRequeue "q" "a") :: steps 8 3 ++ fails 4 3.

Lemma demo_run_reachable es : runs demo_step es demo_start = true → reachable demo_step demo_start (demo_run es).
Proof. apply runs_reachable. Qed.

Lemma demo_queues_ok a b : a ∈ demo_queues → b ∈ demo_queues → a ≠ b +:+ "_DLQ".
Proof. unfold demo_queues. intros ->%elem_of_singleton ->%elem_of_singleton. done. Qed.

Lemma demo_json u : true = true → json_string u.
Proof. done. Qed.

Lemma demo_empty : js_store (mkPlainJS ∅) = ∅.
Proof. done. Qed.

Lemma demo_q_in : "q" ∈ demo_queues.
Proof. by apply elem_of_singleton. Qed.

(** A handler that fails and writes to its task: it notes where it got to in
    the payload and grants another retry. *)
Definition noting : Handler := λ t,
  (mkTask (ID t) (Queue t) (Some [x01]) (Metadata t) (Attempts t) (MaxRetries t + 1) (EnqueuedAt t)
     (RunAt t) (LastError t) (DiedAt t), Returned (Some "boom")).

Definition noted_life : list nevent :=
  NClient 0 (NEnqueue "a" "q" None [WithMaxRetries 0]) :: steps 6 0 ++ fails_by noting 1 1.

Lemma nats_no_task_lost_witness :
  (let s := demo_run requeued_life in
   "a" ∈ stored_ids (js_store (ns_js s)) ∨ "a" ∈ ng_done (ns_ghost s) ∨ "a" ∈ ng_risky (ns_ghost s)) ∧
  (let s := demo_run noted_life in
   "a" ∈ stored_ids (js_store (ns_js s)) ∨ "a" ∈ ng_done (ns_ghost s) ∨ "a" ∈ ng_risky (ns_ghost s)).
Proof.
  split; cbv zeta.
  - refine (nats_no_task_lost demo_q demo_queues (λ _, true) 1 (mkPlainJS ∅) 1000
      _ demo_queues_ok _ eq_refl (demo_run_reachable requeued_life _) _ "a" _);
      [done|by vm_compute|by vm_compute|]. eapply bool_decide_unpack. by vm_compute.
  - refine (nats_no_task_lost demo_q demo_queues (λ _, true) 1 (mkPlainJS ∅) 1000
      _ demo_queues_ok _ eq_refl (demo_run_reachable noted_life _) _ "a" _);
      [done|by vm_compute|by vm_compute|]. eapply bool_decide_unpack. by vm_compute.
Defined.

(** Two messages are in the tasks stream when the first attempt of a task has
    failed and its message is not acknowledged yet. *)
Definition half_done : list nevent :=
  NClient 0 (NEnqueue "a" "q" None [WithMaxRetries 1]) :: steps 6 0 ++
  [NDeliver 0 "q" [] 1; NStep 1; NHandled 1 (failing "boom"); NStep 1; NStep 1].

Lemma nats_messages_ok_witness :
  match js_store (ns_js (demo_run half_done)) !! streamName demo_q "q" with
  | Some st => match st_msgs st !! 2 with
               | Some data => ∃ t, UnmarshalTask data = inr t ∧ 2 ≤ st_last st ∧ 0 ≤ MaxRetries t ∧
                   0 ≤ Attempts t ≤ MaxRetries t ∧ 1 ≤ Attempts (incr_Attempts t) ≤ MaxRetries t + 1
               | None => False
               end
  | None => False
  end.
Proof.
  destruct (js_store (ns_js (demo_run half_done)) !! streamName demo_q "q") as [st|] eqn:Hst.
  2: { apply (f_equal (from_option (λ _, true) false)) in Hst. by vm_compute in Hst. }
  destruct (st_msgs st !! 2) as [data|] eqn:Hd.
  2: { assert (msg_at (js_store (ns_js (demo_run half_done))) (streamName demo_q "q") 2 = None) as Hm.
       { unfold msg_at. by rewrite Hst. }
       apply (f_equal (from_option (λ _, true) false)) in Hm. by vm_compute in Hm. }
  assert (reachable demo_step demo_start (demo_run half_done)) as Hr.
  { apply demo_run_reachable. by vm_compute. }
  assert (ng_rewritten (ns_ghost (demo_run half_done)) = false) as Hkept by (by vm_compute).
  revert Hst Hr Hkept. generalize (demo_run half_done) as s. intros s Hst Hr Hkept.
  destruct (nats_messages_ok demo_q demo_queues (λ _, true) 1 (mkPlainJS ∅) 1000 s demo_queues_ok
    demo_json demo_empty Hr Hkept "q" (streamName demo_q "q") st 2 data demo_q_in Hst Hd)
    as (t & Ht & Hseq & Hmax & Hlive).
  exists t. split_and!; [done..| | | |]; by apply Hlive.
Defined.

(** ** A requeued task can be lost *)

(** The answer a thread has returned. *)
Definition answered (th : nthread) : option nanswer :=
  match nt_prog th with Ret a => Some a | Do _ _ => None end.

Definition settled (s : nsys plain_js) : bool :=
  forallb (λ th, from_option (λ _, true) false (answered th)) (ns_threads s).

(** C40. A task is requeued from the dead letters, with success, within two minutes
    of its attempts. Its next failed attempt is published under the message ID
    of its first one, which the server drops as a duplicate, reporting success;
    the message is acknowledged. The task is in no stream and no thread is at
    work, though no handler has returned nil for it and nobody deleted it. *)
Theorem nats_requeue_loses_task :
  ∃ s, reachable (nstep demo_q demo_queues (λ _, true)) (nsys_init 1 (mkPlainJS ∅) 1000) s ∧
    ns_now s ≤ 1000 + 2 * Minute ∧ (ns_threads s !! 3%nat) ≫= answered = Some (NErr (Some None)) ∧
    settled s = true ∧ "a" ∈ ng_seen (ns_ghost s) ∧ ("a" ∉ ng_done (ns_ghost s)) ∧
    stored_ids (js_store (ns_js s)) = ∅.
Proof.
  exists (demo_run requeued_life). split; [apply demo_run_reachable; by vm_compute|].
  split_and!; [by vm_compute|by vm_compute|by vm_compute|..]; by (eapply bool_decide_unpack; vm_compute).
Qed.

(** ** A handler that rewrites its task can lose it *)

(** It fails and sets the attempt counter back. *)
Definition resetting : Handler := λ t, (set_Attempts 0 t, Returned (Some "boom")).

Definition reset_life : list nevent :=
  NClient 0 (NEnqueue "a" "q" None [WithMaxRetries 3]) :: steps 6 0 ++ fails_by resetting 1 1.

(** The handler is given the task that is published again. When it fails and
    has set the counter back, the retry has the message ID of an earlier
    publication: the server drops it as a duplicate, reporting success, and the
    message is acknowledged. The task is in no stream, though no handler has
    returned nil for it, nobody deleted it and it was never requeued. *)
Theorem nats_rewriting_handler_loses_task :
  ∃ s, reachable (nstep demo_q demo_queues (λ _, true)) (nsys_init 1 (mkPlainJS ∅) 1000) s ∧
    settled s = true ∧ "a" ∈ ng_seen (ns_ghost s) ∧ ("a" ∉ ng_done (ns_ghost s)) ∧
    ("a" ∉ ng_risky (ns_ghost s)) ∧ stored_ids (js_store (ns_js s)) = ∅.
Proof.
  exists (demo_run reset_life). split; [apply demo_run_reachable; by vm_compute|].
  split_and!; [by vm_compute|..]; by (eapply bool_decide_unpack; vm_compute).
Qed.

(** ** One method on a server that answers *)

Section exact.
Context `{TaskJson} {J : Type} `{JetStream J} {laws : JetStreamLaws J} {healthy : JetStreamHealthy J}.
Context (q : NATSWorkQueue) (queue : string) (h : Handler).

(** [ListDeadTasks] answers the asked page of the decodable dead letters of
    the queue, oldest first, and changes nothing but to provision the queue. *)
Theorem nats_dead_page limit offset (w : nworld J) :
  let σ := js_store (nw_js w) in
  started q = true → queue_ready q queue σ (nw_cache w) →
  ∃ w', run_nprogram h (ListDeadTasks q queue limit offset) w =
      Some (Some (inr (page limit offset (e_task <$> dead_entries q queue σ))), w') ∧
    js_store (nw_js w') = provisioned q queue σ.
Proof using healthy laws.
  intros σ Hs Hq. unfold ListDeadTasks, ready. rewrite Hs.
  at_call ltac:(fun h k w => destruct (run_scan h q queue (list_fn limit
    (if decide (offset < 0) then 0 else offset)) (0, []) k w Hq) as (w' & -> & _ & Hs')).
  exists w'. split; [|done]. rewrite <- fold_list_page.
  replace (Z.max 0 offset) with (if decide (offset < 0) then 0 else offset) by (case_decide; lia).
  by destruct (fold_until _ _ (0, [])) as [skipped out].
Qed.

Lemma nats_requeue_exact taskID (w : nworld J) now ts :
  let σ := provisioned q queue (js_store (nw_js w)) in
  started q = true → queue_ready q queue (js_store (nw_js w)) (nw_cache w) → nw_clock w = now :: ts →
  ∃ r w', run_nprogram h (RequeueDeadTask q queue taskID) w = Some (Some r, w') ∧
    requeued q queue taskID now r σ (js_store (nw_js w')).
Proof using healthy laws.
  intros σ Hs Hq Hclock. unfold RequeueDeadTask, ready, requeued, σ. rewrite Hs, find_dead_provisioned.
  at_call ltac:(fun h k w => destruct (run_findDeadTask h q queue taskID k w Hq) as (w1 & -> & Hc1 & Hs1)).
  destruct (find_dead q queue taskID (js_store (nw_js w))) as [e|] eqn:Hf; simpl from_option.
  2: { by exists (Some ErrTaskNotFound), w1. }
  destruct (find_dead_entry _ _ _ _ _ _ Hq Hf) as (st & Hst & Hsub & Hm).
  rewrite Hclock in Hc1. rewrite (run_clock _ _ _ _ _ Hc1).
  at_call ltac:(fun h k w => pose proof (run_publishTask h (tasksSubject q queue) (revived now (e_task e)) "" k w) as Hp).
  destruct (MarshalTask _) as [err|m].
  - rewrite Hp; [by eexists _, _|]. simpl. rewrite Hs1. by eapply provisioned_subject.
  - destruct Hp as (w2 & Hr & _ & Hp); [simpl; rewrite Hs1; by eapply provisioned_subject|].
    simpl in Hp. rewrite Hs1 in Hp.
    destruct (published_lookup _ _ _ _ _ _ _ Hp Hst) as (st' & Hst' & Heq).
    rewrite Hr, run_bind. destruct (run_deleteDeadSeq h q queue (e_seq e) w2 st') as (w3 & Hr3 & Hd); [done|..].
    { rewrite Heq; [done|]. rewrite Hsub. intros Hts. by apply (tasksSubject_deadSubject q queue queue). }
    rewrite Hr3. exists None, w3. split_and!; [done|done|]. by eexists.
Qed.

Lemma nats_delete_exact taskID (w : nworld J) :
  let σ := provisioned q queue (js_store (nw_js w)) in
  started q = true → queue_ready q queue (js_store (nw_js w)) (nw_cache w) →
  ∃ r w', run_nprogram h (DeleteDeadTask q queue taskID) w = Some (Some r, w') ∧
    deleted_dead q queue taskID r σ (js_store (nw_js w')).
Proof using healthy laws.
  intros σ Hs Hq. unfold DeleteDeadTask, ready, deleted_dead, σ. rewrite Hs, find_dead_provisioned.
  at_call ltac:(fun h k w => destruct (run_findDeadTask h q queue taskID k w Hq) as (w1 & -> & _ & Hs1)).
  destruct (find_dead q queue taskID (js_store (nw_js w))) as [e|] eqn:Hf; simpl from_option.
  2: { by exists (Some ErrTaskNotFound), w1. }
  destruct (find_dead_entry _ _ _ _ _ _ Hq Hf) as (st & Hst & _ & Hm). rewrite run_bind.
  destruct (run_deleteDeadSeq h q queue (e_seq e) w1 st) as (w2 & -> & Hd); [by rewrite Hs1|done|].
  exists None, w2. split_and!; [done|done|]. rewrite Hs1 in Hd. exact Hd.
Qed.

(** C32. [RequeueDeadTask] and [DeleteDeadTask] act on the first dead letter with
    the identifier: the one publishes that task afresh and then drops the dead
    letter, or reports why the task cannot be encoded and leaves the streams;
    the other only drops it. Without such a dead letter both report
    [ErrTaskNotFound] and leave the streams. *)
Theorem nats_dead_task_exact taskID (w : nworld J) now ts :
  let σ := provisioned q queue (js_store (nw_js w)) in
  started q = true → queue_ready q queue (js_store (nw_js w)) (nw_cache w) → nw_clock w = now :: ts →
  (∃ r w', run_nprogram h (RequeueDeadTask q queue taskID) w = Some (Some r, w') ∧
     requeued q queue taskID now r σ (js_store (nw_js w'))) ∧
  (∃ r w', run_nprogram h (DeleteDeadTask q queue taskID) w = Some (Some r, w') ∧
     deleted_dead q queue taskID r σ (js_store (nw_js w'))).
Proof using healthy laws.
  intros σ Hs Hq Hclock. split; [by eapply nats_requeue_exact|by apply nats_delete_exact].
Qed.

(** C33. On a valid queue [Enqueue] publishes one task message to the queue's
    stream, under the message ID of its first attempt, and returns the task
    the message holds; a task that cannot be encoded and an invalid queue are
    reported and leave nothing behind. *)
Theorem nats_enqueue_exact uuid payload opts (w : nworld J) now ts :
  let σ := provisioned q queue (js_store (nw_js w)) in
  let t := new_task now uuid queue payload (NewEnqueueOptions opts) in
  started q = true → nw_clock w = now :: ts →
  (validateQueue queue = None → queue_ready q queue (js_store (nw_js w)) (nw_cache w)) →
  ∃ r w', run_nprogram h (Enqueue q uuid queue payload opts) w = Some (r, w') ∧
    let σ' := js_store (nw_js w') in
    match validateQueue queue with
    | Some e => r = inl e ∧ w' = w
    | None => match MarshalTask t with
              | inl e => r = inl (ErrStorage e) ∧ σ' = σ
              | inr m => r = inr t ∧ published (tasksSubject q queue) m (attemptMsgID uuid 0) σ σ'
              end
    end.
Proof using healthy laws.
  intros σ t Hs Hclock Hq. unfold Enqueue, ready. rewrite Hs.
  destruct (validateQueue queue) as [e|] eqn:Hv.
  { exists (inl e), w. unfold ensureQueue. by rewrite Hv. }
  at_call ltac:(fun h k w => destruct (run_ensureQueue h q queue k w (Hq eq_refl)) as (w1 & -> & Hc1 & Hs1)).
  rewrite Hclock in Hc1. cbn beta iota zeta. rewrite (run_clock _ _ _ _ _ Hc1). fold t.
  change (ID t) with uuid.
  at_call ltac:(fun h k w => pose proof (run_publishTask h (tasksSubject q queue) t (attemptMsgID uuid 0) k w) as Hp).
  destruct (MarshalTask t) as [err|m].
  - rewrite Hp; [by eexists _, _|]. simpl. rewrite Hs1. by eapply provisioned_subject, Hq.
  - destruct Hp as (w2 & -> & _ & Hp); [simpl; rewrite Hs1; by eapply provisioned_subject, Hq|].
    exists (inr t), w2. simpl in Hp. rewrite Hs1 in Hp. done.
Qed.
End exact.

(** C34. Whatever the server answers, and up to the largest sequence number, the
    scans of the dead letters end: every method that looks for dead letters
    answers, within as many fetches as the stream has had sequence numbers. *)
Theorem nats_scans_terminate `{TaskJson} {J} `{JetStreamLaws J} q queue taskID limit offset h (w : nworld J) t ts :
  nw_clock w = t :: ts →
  (∃ r w', run_nprogram h (ListDeadTasks q queue limit offset) w = Some (Some r, w')) ∧
  (∃ r w', run_nprogram h (RequeueDeadTask q queue taskID) w = Some (Some r, w')) ∧
  (∃ r w', run_nprogram h (DeleteDeadTask q queue taskID) w = Some (Some r, w')).
Proof.
  intros Hclock. unfold ListDeadTasks, RequeueDeadTask, DeleteDeadTask.
  destruct (ready q) as [e|]; [by split_and!; eauto|]. rewrite !run_bind.
  destruct (scanDeadTasks_ends h q queue (list_fn limit (if decide (offset < 0) then 0 else offset)) (0, []) w)
    as (? & w1 & -> & _ & [r ->]).
  destruct (findDeadTask_ends h q queue taskID w) as (? & w2 & Hf & Hc & [r2 ->]). rewrite Hf.
  split_and!; [destruct r as [e|[skipped out]]; eauto|..]; (destruct r2 as [e|entry]; [by eauto|]).
  - rewrite Hclock in Hc. rewrite (run_clock _ _ _ _ _ Hc). unfold publishTask.
    destruct (MarshalTask _) as [err|m]; [by eexists _, _|].
    destruct (run_call h (Publish (tasksSubject q queue) m "") (λ err, match err with
      | Some e => mret (Some (Some (ErrStorage e)))
      | None => err ← deleteDeadSeq q queue (e_seq entry); mret (Some err)
      end) (mkNWorld (nw_js w2) (nw_cache w2) ts)) as ([e|] & w3 & -> & _ & _); [by eexists _, _|].
    rewrite run_bind. destruct (deleteDeadSeq_ends h q queue (e_seq entry) w3) as (r' & w4 & -> & _). by eexists _, _.
  - rewrite run_bind. destruct (deleteDeadSeq_ends h q queue (e_seq entry) w2) as (r' & w4 & -> & _). by eexists _, _.
Qed.

(** ** The functional properties at work *)

Definition demo_world (es : list nevent) (clock : list time) : nworld plain_js :=
  mkNWorld (ns_js (demo_run es)) {["q"]} clock.

(** A task without retries, before and after its only delivery. *)
Definition waiting_life : list nevent := NClient 0 (NEnqueue "a" "q" None [WithMaxRetries 0]) :: steps 6 0.
Definition dead_life : list nevent := waiting_life ++ fails 1 1.





Lemma nats_dead_page_witness :
  let w := demo_world dead_life [] in
  ∃ w', run_nprogram (failing "") (ListDeadTasks demo_q "q" 10 0) w =
      Some (Some (inr (page 10 0 (e_task <$> dead_entries demo_q "q" (js_store (nw_js w))))), w') ∧
    js_store (nw_js w') = provisioned demo_q "q" (js_store (nw_js w)).
Proof.
  apply nats_dead_page; [done|]. apply queue_is_ready_ok. by vm_compute.
Defined.

Lemma nats_dead_task_exact_witness :
  let w := demo_world dead_life [5000] in
  let σ := provisioned demo_q "q" (js_store (nw_js w)) in
  (∃ r w', run_nprogram (failing "") (RequeueDeadTask demo_q "q" "a") w = Some (Some r, w') ∧
     requeued demo_q "q" "a" 5000 r σ (js_store (nw_js w'))) ∧
  (∃ r w', run_nprogram (failing "") (DeleteDeadTask demo_q "q" "b") w = Some (Some r, w') ∧
     deleted_dead demo_q "q" "b" r σ (js_store (nw_js w'))).
Proof.
  assert (queue_ready demo_q "q" (js_store (nw_js (demo_world dead_life [5000])))
    (nw_cache (demo_world dead_life [5000]))) as Hq by (apply queue_is_ready_ok; by vm_compute).
  split.
  - exact (proj1 (nats_dead_task_exact demo_q "q" (failing "") "a" (demo_world dead_life [5000]) 5000 []
      eq_refl Hq eq_refl)).
  - exact (proj2 (nats_dead_task_exact demo_q "q" (failing "") "b" (demo_world dead_life [5000]) 5000 []
      eq_refl Hq eq_refl)).
Defined.

Lemma nats_enqueue_exact_witness :
  let w := mkNWorld (mkPlainJS ∅) ∅ [1000] in
  let t := new_task 1000 "a" "q" None (NewEnqueueOptions []) in
  ∃ r w', run_nprogram (failing "") (Enqueue demo_q "a" "q" None []) w = Some (r, w') ∧
    match MarshalTask t with
    | inl e => r = inl (ErrStorage e) ∧ js_store (nw_js w') = provisioned demo_q "q" ∅
    | inr m => r = inr t ∧ published (tasksSubject demo_q "q") m (attemptMsgID "a" 0)
                 (provisioned demo_q "q" ∅) (js_store (nw_js w'))
    end.
Proof.
  assert (validateQueue "q" = None) as Hv by (by vm_compute).
  destruct (nats_enqueue_exact demo_q "q" (failing "") "a" None [] (mkNWorld (mkPlainJS ∅) ∅ [1000]) 1000 [])
    as (r & w' & Hr & Hm); [done|done| |].
  - intros _. apply queue_is_ready_ok. by vm_compute.
  - exists r, w'. split; [exact Hr|]. by rewrite Hv in Hm.
Defined.

Lemma nats_scans_terminate_witness :
  let w := demo_world dead_life [5000] in
  (∃ r w', run_nprogram (failing "") (ListDeadTasks demo_q "q" 0 0) w = Some (Some r, w')) ∧
  (∃ r w', run_nprogram (failing "") (RequeueDeadTask demo_q "q" "a") w = Some (Some r, w')) ∧
  (∃ r w', run_nprogram (failing "") (DeleteDeadTask demo_q "q" "a") w = Some (Some r, w')).
Proof. by apply nats_scans_terminate with (t := 5000) (ts := []). Defined.
