(* ===== verification/Settings.v ===== *)
(** * Settings: the viper keys the backends read in their fx hooks

    Viper is a library: an interface of the calls the backends make, with what
    its documentation says of them. [time.Duration.String], by which durations
    become default settings, is Go's and written out. *)

From stdpp Require Import base tactics list numbers option strings pretty.
From Stdlib Require Import Strings.Ascii.
From S2P Require Import Prelude GoRuntime.

(** ** [time.Duration.String] *)

Definition dot : string := ".".

(** [fmtFrac]: the [prec] low digits of [v], the zeros at the end left out,
    and the rest of [v]. [digits] is what is printed so far. *)
Fixpoint fmtFrac (prec : nat) (print : bool) (v : Z) (digits : string) : string * Z :=
  match prec with
  | O => ((if print then dot +:+ digits else digits), v)
  | S prec =>
      let digit := v mod 10 in
      let print := print || negb (bool_decide (digit = 0)) in
      fmtFrac prec print (v / 10) (if print then pretty digit +:+ digits else digits)
  end.

Definition fmt_unit (prec : nat) (unit : string) (u : Z) : string :=
  let '(frac, v) := fmtFrac prec false u "" in pretty v +:+ frac +:+ unit.

(** The micro sign, in UTF-8. *)
Definition micro : string := String (ascii_of_nat 194) (String (ascii_of_nat 181) EmptyString).

Definition duration_String (d : duration) : string :=
  let u := Z.abs d in
  let s :=
    if decide (u = 0) then "0s"
    else if decide (u < 1000) then fmt_unit 0 "ns" u
    else if decide (u < 1000000) then fmt_unit 3 (micro +:+ "s") u
    else if decide (u < Second) then fmt_unit 6 "ms" u
    else
      let '(frac, secs) := fmtFrac 9 false u "" in
      let s := pretty (secs mod 60) +:+ frac +:+ "s" in
      let mins := secs / 60 in
      if decide (0 < mins) then
        let s := pretty (mins mod 60) +:+ "m" +:+ s in
        let hours := mins / 60 in
        if decide (0 < hours) then pretty hours +:+ "h" +:+ s else s
      else s in
  if decide (d < 0) then "-" +:+ s else s.

Example duration_String_second : duration_String Second = "1s".
Proof. vm_compute. reflexivity. Qed.

Example duration_String_minutes : duration_String (5 * Minute) = "5m0s".
Proof. vm_compute. reflexivity. Qed.

Example duration_String_frac : duration_String (-(90 * Minute + 1500 * Millisecond)) = "-1h30m1.5s".
Proof. vm_compute. reflexivity. Qed.

(** ** Viper *)

Inductive setting :=
  | SString (s : string)
  | SInt (n : Z)
  | SBool (b : bool).

Class Viper (V : Type) := {
  SetDefault : string → setting → V → V;
  GetString : V → string → string;
  GetDuration : V → string → duration;
  GetInt : V → string → Z;
  GetBool : V → string → bool;
  (** a configuration file, the environment or a flag gives the key a value *)
  configured : V → string → bool
}.

Definition getConfigPath (scope key : string) : string := scope +:+ "." +:+ key.

(** What is read under a key. *)
Definition reads `{Viper V} (v : V) (key : string) : string * duration * Z * bool :=
  (GetString v key, GetDuration v key, GetInt v key, GetBool v key).

(** Keys that are no path of their own: viper splits keys at dots and does not
    tell upper case from lower case. *)
Definition plain_ascii (c : ascii) : bool :=
  let n := nat_of_ascii c in bool_decide (n = 95 ∨ 97 ≤ n ≤ 122)%nat.

Definition plain (s : string) : bool := forallb plain_ascii (String.list_ascii_of_string s).

(** The durations the backends have as defaults. *)
Definition default_durations : list duration := [Second; 30 * Second; 5 * Minute].

(** What the documentation of viper says: a default is read back under its key
    unless the key is configured, where a string is parsed as a duration; a
    configured value is read before a default; other keys are not touched. *)
Class ViperLaws (V : Type) `{Viper V} := {
  default_string v key s :
    configured v key = false → GetString (SetDefault key (SString s) v) key = s;
  default_duration v key d :
    configured v key = false → d ∈ default_durations →
    GetDuration (SetDefault key (SString (duration_String d)) v) key = d;
  default_int v key n : configured v key = false → GetInt (SetDefault key (SInt n) v) key = n;
  default_bool v key b : configured v key = false → GetBool (SetDefault key (SBool b) v) key = b;
  default_configured v key x : configured v key = true → reads (SetDefault key x v) key = reads v key;
  default_other v scope key key' x :
    plain key = true → plain key' = true → key ≠ key' →
    reads (SetDefault (getConfigPath scope key') x v) (getConfigPath scope key) =
    reads v (getConfigPath scope key);
  configured_default v key key' x : configured (SetDefault key' x v) key = configured v key
}.

Lemma reads_inv `{Viper V} (v v' : V) key :
  reads v key = reads v' key →
  GetString v key = GetString v' key ∧ GetDuration v key = GetDuration v' key ∧
  GetInt v key = GetInt v' key ∧ GetBool v key = GetBool v' key.
Proof. by intros [= -> -> -> ->]. Qed.

(** [SetDefault] for each key, in order. *)
Fixpoint set_defaults `{Viper V} (scope : string) (l : list (string * setting)) (v : V) : V :=
  match l with
  | [] => v
  | (key, x) :: l => set_defaults scope l (SetDefault (getConfigPath scope key) x v)
  end.

Lemma set_defaults_app `{Viper V} scope l1 l2 (v : V) :
  set_defaults scope (l1 ++ l2) v = set_defaults scope l2 (set_defaults scope l1 v).
Proof. revert v. induction l1 as [|[k y] l1 IH]; intros v; [done|]. apply IH. Qed.

Section reads.
Context `{ViperLaws V}.
#[local] Set Default Proof Using "All".

Lemma set_defaults_other scope l (v : V) key :
  plain key = true → forallb plain l.*1 = true → key ∉ l.*1 →
  reads (set_defaults scope l v) (getConfigPath scope key) = reads v (getConfigPath scope key).
Proof.
  intros Hkey. revert v. induction l as [|[key' x] l IH]; intros v Hl Hin; [done|]. csimpl in *.
  apply andb_true_iff in Hl as [Hk Hl]. apply not_elem_of_cons in Hin as [Hne Hin].
  rewrite IH by done. by apply default_other.
Qed.

Lemma set_defaults_configured scope l (v : V) key :
  configured (set_defaults scope l v) key = configured v key.
Proof.
  revert v. induction l as [|[key' x] l IH]; intros v; [done|]. simpl. rewrite IH. apply configured_default.
Qed.

(** A key is read as if its default were the only one. *)
Lemma set_defaults_reads scope l1 key x l2 (v : V) :
  forallb plain (l1 ++ (key, x) :: l2).*1 = true → NoDup (l1 ++ (key, x) :: l2).*1 →
  ∃ v', configured v' (getConfigPath scope key) = configured v (getConfigPath scope key) ∧
    reads v' (getConfigPath scope key) = reads v (getConfigPath scope key) ∧
    reads (set_defaults scope (l1 ++ (key, x) :: l2) v) (getConfigPath scope key) =
    reads (SetDefault (getConfigPath scope key) x v') (getConfigPath scope key).
Proof.
  intros Hp Hnd. rewrite fmap_app, forallb_app in Hp. csimpl in Hp.
  apply andb_true_iff in Hp as [Hp1 [Hp Hp2]%andb_true_iff].
  rewrite fmap_app in Hnd. csimpl in Hnd. apply NoDup_app in Hnd as (_ & Hd1 & Hd2).
  apply NoDup_cons in Hd2 as [Hd2 _].
  exists (set_defaults scope l1 v). split_and!.
  - apply set_defaults_configured.
  - apply set_defaults_other; [done..|]. intros Hin. apply (Hd1 _ Hin). by left.
  - rewrite set_defaults_app. simpl. by apply set_defaults_other.
Qed.

(** A default is read back. *)
Lemma default_reads scope l key x (v : V) :
  forallb plain l.*1 = true → NoDup l.*1 → (key, x) ∈ l →
  ∃ v', configured v' (getConfigPath scope key) = configured v (getConfigPath scope key) ∧
    reads (set_defaults scope l v) (getConfigPath scope key) =
    reads (SetDefault (getConfigPath scope key) x v') (getConfigPath scope key).
Proof.
  intros Hp Hnd (l1 & l2 & ->)%list_elem_of_split.
  destruct (set_defaults_reads scope l1 key x l2 v Hp Hnd) as (v' & Hc & _ & Hr). by exists v'.
Qed.

Section unconfigured.
Context (scope : string) (l : list (string * setting)) (v : V).
Context (Hplain : forallb plain l.*1 = true) (Hnodup : NoDup l.*1).
Context (Hfree : ∀ key, key ∈ l.*1 → configured v (getConfigPath scope key) = false).

Lemma free_key key x : (key, x) ∈ l → configured v (getConfigPath scope key) = false.
Proof. intros Hin. apply Hfree. apply list_elem_of_fmap. by exists (key, x). Qed.

Lemma read_string key s :
  (key, SString s) ∈ l → GetString (set_defaults scope l v) (getConfigPath scope key) = s.
Proof.
  intros Hin. destruct (default_reads scope l key _ v Hplain Hnodup Hin) as (v' & Hc & Hr).
  apply reads_inv in Hr as (-> & _). apply default_string. rewrite Hc. by eapply free_key.
Qed.

Lemma read_duration key d :
  (key, SString (duration_String d)) ∈ l → d ∈ default_durations →
  GetDuration (set_defaults scope l v) (getConfigPath scope key) = d.
Proof.
  intros Hin Hd. destruct (default_reads scope l key _ v Hplain Hnodup Hin) as (v' & Hc & Hr).
  apply reads_inv in Hr as (_ & -> & _). apply default_duration; [|done]. rewrite Hc. by eapply free_key.
Qed.

Lemma read_int key n : (key, SInt n) ∈ l → GetInt (set_defaults scope l v) (getConfigPath scope key) = n.
Proof.
  intros Hin. destruct (default_reads scope l key _ v Hplain Hnodup Hin) as (v' & Hc & Hr).
  apply reads_inv in Hr as (_ & _ & -> & _). apply default_int. rewrite Hc. by eapply free_key.
Qed.

Lemma read_bool key b : (key, SBool b) ∈ l → GetBool (set_defaults scope l v) (getConfigPath scope key) = b.
Proof.
  intros Hin. destruct (default_reads scope l key _ v Hplain Hnodup Hin) as (v' & Hc & Hr).
  apply reads_inv in Hr as (_ & _ & _ & ->). apply default_bool. rewrite Hc. by eapply free_key.
Qed.
End unconfigured.
End reads.

(** ** Settings in memory *)

(** A concrete [Viper]: what is configured, and the defaults. *)
Record map_settings := mkSettings {
  ms_explicit : list (string * setting);
  ms_defaults : list (string * setting)
}.

Fixpoint look (key : string) (l : list (string * setting)) : option setting :=
  match l with
  | [] => None
  | (k, x) :: l => if decide (k = key) then Some x else look key l
  end.

Definition value (v : map_settings) (key : string) : option setting :=
  match look key (ms_explicit v) with
  | Some x => Some x
  | None => look key (ms_defaults v)
  end.

Definition parse_default (s : string) : duration :=
  default 0 (head (filter (λ d, duration_String d = s) default_durations)).

#[export] Instance map_viper : Viper map_settings := {|
  SetDefault key x v := mkSettings (ms_explicit v) ((key, x) :: ms_defaults v);
  GetString v key := match value v key with Some (SString s) => s | _ => "" end;
  GetDuration v key := match value v key with Some (SString s) => parse_default s | _ => 0 end;
  GetInt v key := match value v key with Some (SInt n) => n | _ => 0 end;
  GetBool v key := match value v key with Some (SBool b) => b | _ => false end;
  configured v key := match look key (ms_explicit v) with Some _ => true | None => false end
|}.

Lemma map_value_default v key x :
  configured v key = false → value (SetDefault key x v) key = Some x.
Proof. unfold value. simpl. destruct (look key _); [done|]. intros _. by rewrite decide_True. Qed.

Lemma map_value_same (v : map_settings) key key' x :
  key ≠ key' ∨ configured v key = true → value (SetDefault key' x v) key = value v key.
Proof.
  unfold value. simpl. destruct (look key (ms_explicit v)); [done|]. intros [Hne|]; [|done].
  by rewrite decide_False.
Qed.

Lemma getConfigPath_inj scope key key' : getConfigPath scope key = getConfigPath scope key' → key = key'.
Proof. unfold getConfigPath. intros Heq. by apply (inj (String.append scope)), (inj (String.append ".")) in Heq. Qed.

#[export] Instance map_viper_laws : ViperLaws map_settings.
Proof.
  split.
  - intros v key s Hc. pose proof (map_value_default v key (SString s) Hc) as Hv. simpl in *. by rewrite Hv.
  - intros v key d Hc Hd. pose proof (map_value_default v key (SString (duration_String d)) Hc) as Hv.
    cbn -[duration_String] in *. rewrite Hv. clear Hv Hc.
    unfold default_durations in Hd. rewrite !elem_of_cons, elem_of_nil in Hd.
    destruct Hd as [->|[->|[->|[]]]]; vm_compute; reflexivity.
  - intros v key n Hc. pose proof (map_value_default v key (SInt n) Hc) as Hv. simpl in *. by rewrite Hv.
  - intros v key b Hc. pose proof (map_value_default v key (SBool b) Hc) as Hv. simpl in *. by rewrite Hv.
  - intros v key x Hc. pose proof (map_value_same v key key x (or_intror Hc)) as Hv. unfold reads. simpl in *. by rewrite Hv.
  - intros v scope key key' x _ _ Hne. assert (getConfigPath scope key ≠ getConfigPath scope key') as Hp by (by intros ?%getConfigPath_inj).
    pose proof (map_value_same v _ _ x (or_introl Hp)) as Hv. unfold reads. simpl in *. by rewrite Hv.
  - done.
Qed.
