(* ===== verification/Startup.v ===== *)
(** * Starting and stopping the backends: the [Module] and [New] functions

    What the fx hooks of each package and its [New] make of the settings and
    of the handles they are given. The settings are [Settings.Viper]; what
    gorm answers to a migration, the handles of the connectors and the answer
    of [jetstream.New] are arguments. *)

From stdpp Require Import base tactics list numbers option gmap strings.
From S2P Require Import Prelude GoRuntime Contract Effects SqlEffects Gorm Postgres PgListener Memory JetStream Nats Settings.

(** ** The in-memory backend *)

Module MemoryStart.

(** Neither hook changes the queue. *)
Definition Module (c : chans) : MemoryWorkQueue := Memory.New c.

End MemoryStart.

(** ** The database backend *)

Module GormStart.
Import Gorm.

Section gorm.
Context `{Viper V}.

(** [migrate db table]: what gorm answers to [AutoMigrate] on this handle,
    nothing when the call panics. *)
Context (migrate : bool → string → option (option string)).

Definition AutoMigrate (q : GormWorkQueue) : option (option string) :=
  migrate (started q) (TableName (config q)).

(** The keys the package gives a default. *)
Definition defaults : list (string * setting) :=
  [("table_name", SString DefaultTableName);
   ("poll_interval", SString (duration_String DefaultPollInterval));
   ("lease_duration", SString (duration_String DefaultLeaseDuration));
   ("auto_migrate", SBool true)].

(** The constructor: the queue fx gives out before any hook runs. *)
Definition Module (scope : string) (v : V) : V * GormWorkQueue :=
  (set_defaults scope defaults v, mkQueue false (mkConfig "" 0 0)).

Definition read_config (scope : string) (v : V) : Config :=
  withDefaults (mkConfig
    (GetString v (getConfigPath scope "table_name"))
    (GetDuration v (getConfigPath scope "poll_interval"))
    (GetDuration v (getConfigPath scope "lease_duration"))).

(** [db]: [p.Database.GetDB()] is a handle. *)
Definition OnStart (scope : string) (v : V) (db : bool) : option (GormWorkQueue * option string) :=
  let q := mkQueue db (read_config scope v) in
  if GetBool v (getConfigPath scope "auto_migrate")
  then err ← AutoMigrate q; Some (q, err)
  else Some (q, None).
End gorm.
End GormStart.

(** ** The PostgreSQL backend *)

Module PostgresStart.
Import Postgres.

(** A listener with what it was made for. *)
Record listening := mkListening { dsn : string; channel : string; goroutine : listener }.

(** [db] is [None] for a nil handle, else the connection string of its
    dialector when that is a postgres one. *)
Record process := mkProcess {
  p_queue : PostgresWorkQueue;
  p_db : option (option string);
  p_listener : option listening
}.

(** The dialector is looked up only without a configured DSN; on a nil handle
    that panics. *)
Definition startListener (p : process) : option process :=
  let c := config (p_queue p) in
  dialector ← (if decide (ListenDSN c = "") then p_db p else Some None);
  Some (mkProcess (p_queue p) (p_db p)
          (match listen_dsn (p_queue p) dialector with
           | None => p_listener p
           | Some s => Some (mkListening s (NotifyChannel c) newPGListener)
           end)).

Definition New (handle : option (option string)) (c : Config) : option process :=
  startListener (mkProcess (Postgres.New (bool_decide (is_Some handle)) c) handle None).

(** [Close] cancels the goroutine and waits until it has returned. *)
Inductive Close : process → process → Prop :=
  | Close_none q h : Close (mkProcess q h None) (mkProcess q h None)
  | Close_listener q h s ch l l1 tr l2 :
      run_step Cancel l = Some l1 → listens tr l1 l2 → l_pc l2 = Done →
      Close (mkProcess q h (Some (mkListening s ch l))) (mkProcess q h None).

Section postgres.
Context `{Viper V}.
Context (migrate : bool → string → option (option string)).

Definition AutoMigrate (q : PostgresWorkQueue) : option (option string) :=
  migrate (started q) (TableName (config q)).

Definition defaults : list (string * setting) :=
  [("table_name", SString DefaultTableName);
   ("poll_interval", SString (duration_String DefaultPollInterval));
   ("lease_duration", SString (duration_String DefaultLeaseDuration));
   ("auto_migrate", SBool true);
   ("notify_channel", SString "");
   ("listen_dsn", SString "")].

Definition Module (scope : string) (v : V) : V * process :=
  (set_defaults scope defaults v, mkProcess (mkQueue false (mkConfig "" 0 0 "" "")) None None).

Definition read_config (scope : string) (v : V) : Config :=
  withDefaults (mkConfig
    (GetString v (getConfigPath scope "table_name"))
    (GetDuration v (getConfigPath scope "poll_interval"))
    (GetDuration v (getConfigPath scope "lease_duration"))
    (GetString v (getConfigPath scope "notify_channel"))
    (GetString v (getConfigPath scope "listen_dsn"))).

(** The listener is started only when the migration, if any, went well. *)
Definition OnStart (scope : string) (v : V) (handle : option (option string)) (p : process) :
    option (process * option string) :=
  let q := mkQueue (bool_decide (is_Some handle)) (read_config scope v) in
  let p := mkProcess q handle (p_listener p) in
  err ← (if GetBool v (getConfigPath scope "auto_migrate") then AutoMigrate q else Some None);
  match err with
  | Some e => Some (p, Some e)
  | None => p ← startListener p; Some (p, None)
  end.

Definition OnStop : process → process → Prop := Close.
End postgres.
End PostgresStart.

(** ** The JetStream backend *)

Module NatsStart.
Import Nats.

Section nats.
Context `{Viper V}.

Definition defaults : list (string * setting) :=
  [("stream_prefix", SString DefaultStreamPrefix);
   ("subject_prefix", SString DefaultSubjectPrefix);
   ("replicas", SInt 0);
   ("ack_wait", SString (duration_String DefaultAckWait))].

Definition Module (scope : string) (v : V) : V * NATSWorkQueue :=
  (set_defaults scope defaults v, mkQueue false (mkConfig "" "" 0 0)).

Definition read_config (scope : string) (v : V) : Config :=
  withDefaults (mkConfig
    (GetString v (getConfigPath scope "stream_prefix"))
    (GetString v (getConfigPath scope "subject_prefix"))
    (GetInt v (getConfigPath scope "replicas"))
    (GetDuration v (getConfigPath scope "ack_wait"))).

(** [js]: [p.NATS.GetJetStream()] is a handle. *)
Definition OnStart (scope : string) (v : V) (js : bool) : NATSWorkQueue :=
  mkQueue js (read_config scope v).

(** [answer] is that of [jetstream.New(conn)]. *)
Definition New (answer : option string) (c : Config) : string + NATSWorkQueue :=
  match answer with
  | Some e => inl e
  | None => inr (Nats.New true c)
  end.
End nats.
End NatsStart.
