(* ===== verification/StartupProps.v ===== *)
(** * What the backends are after their fx hooks *)

From stdpp Require Import base tactics list numbers option gmap strings.
From S2P Require Import Prelude GoRuntime Contract Options Effects TaskTable SqlEffects Gorm Postgres PgListener SqlSystem JetStream Nats NatsSystem ScriptDB Settings Startup.

(** ** Before the hooks *)

(** The answer of a method that did not get further. *)
Definition refused (c : call) (e : Err) : answer :=
  match c with
  | CallEnqueue _ _ _ _ => AnswerTask (inl e)
  | CallList _ _ _ => AnswerList (inl e)
  | CallRequeue _ _ | CallDelete _ _ => AnswerErr (Some e)
  end.

(** Until OnStart has run, the queue that fx has given out refuses every call
    without touching the table, and gives no subscription. *)
Theorem refuses_before_start `{Json, Viper V} scope (v : V) c :
  let b1 := GormNode (GormStart.Module scope v).2 in
  let b2 := PostgresNode (PostgresStart.p_queue (PostgresStart.Module scope v).2) in
  (method b1 c = Ret (refused c errNotStarted) ∧ node_started b1 = false) ∧
  (method b2 c = Ret (refused c errNotStarted) ∧ node_started b2 = false).
Proof. by destruct c. Qed.

(** ** Settings *)

(** A key among the defaults. *)
Ltac default_at := repeat first [apply list_elem_of_here | apply list_elem_of_further].

Ltac distinct := apply (bool_decide_unpack _); vm_compute; exact I.

(** [read_back Hfree] reads the defaults of the keys in the goal. *)
Ltac read_back Hfree :=
  repeat first
    [ erewrite read_bool; [|vm_compute; reflexivity|distinct|exact Hfree|default_at]
    | erewrite read_string; [|vm_compute; reflexivity|distinct|exact Hfree|default_at]
    | erewrite read_int; [|vm_compute; reflexivity|distinct|exact Hfree|default_at]
    | erewrite read_duration; [|vm_compute; reflexivity|distinct|exact Hfree|default_at|default_at] ].

Section defaults.
Context `{ViperLaws V}.
Context (migrate : bool → string → option (option string)).
Context (scope : string) (v : V).
#[local] Set Default Proof Using "All".

Definition unset (l : list (string * setting)) : Prop :=
  ∀ key, key ∈ l.*1 → configured v (getConfigPath scope key) = false.

Lemma gorm_defaults_read :
  unset GormStart.defaults →
  let v' := (GormStart.Module scope v).1 in
  GormStart.read_config scope v' = Gorm.withDefaults (Gorm.mkConfig "" 0 0) ∧
  GetBool v' (getConfigPath scope "auto_migrate") = true.
Proof.
  intros Hg. unfold GormStart.read_config, GormStart.Module. cbn [fst]. read_back Hg. done.
Qed.

Lemma postgres_defaults_read :
  unset PostgresStart.defaults →
  let v' := (PostgresStart.Module scope v).1 in
  PostgresStart.read_config scope v' = Postgres.withDefaults (Postgres.mkConfig "" 0 0 "" "") ∧
  GetBool v' (getConfigPath scope "auto_migrate") = true.
Proof.
  intros Hg. unfold PostgresStart.read_config, PostgresStart.Module. cbn [fst]. read_back Hg. done.
Qed.

Lemma nats_defaults_read :
  unset NatsStart.defaults →
  NatsStart.read_config scope (NatsStart.Module scope v).1 = Nats.withDefaults (Nats.mkConfig "" "" 0 0).
Proof.
  intros Hg. unfold NatsStart.read_config, NatsStart.Module. cbn [fst]. read_back Hg. done.
Qed.

(** C38. Without settings of its own, OnStart makes of each queue what [New] makes
    with an empty [Config] of the same handle. The PostgreSQL backend listens
    only when the migration went well. *)
Theorem startup_defaults db handle js :
  unset GormStart.defaults → unset PostgresStart.defaults → unset NatsStart.defaults →
  GormStart.OnStart migrate scope (GormStart.Module scope v).1 db =
    (err ← migrate db Gorm.DefaultTableName; Some (Gorm.New db (Gorm.mkConfig "" 0 0), err)) ∧
  PostgresStart.OnStart migrate scope (PostgresStart.Module scope v).1 handle (PostgresStart.Module scope v).2 =
    (err ← migrate (bool_decide (is_Some handle)) Postgres.DefaultTableName;
     match err with
     | Some e =>
         Some (PostgresStart.mkProcess (Postgres.New (bool_decide (is_Some handle))
                 (Postgres.mkConfig "" 0 0 "" "")) handle None, Some e)
     | None => p ← PostgresStart.New handle (Postgres.mkConfig "" 0 0 "" ""); Some (p, None)
     end) ∧
  NatsStart.OnStart scope (NatsStart.Module scope v).1 js = Nats.New js (Nats.mkConfig "" "" 0 0).
Proof.
  intros Hg Hp Hn.
  destruct (gorm_defaults_read Hg) as [Hcg Hmg], (postgres_defaults_read Hp) as [Hcp Hmp]. split_and!.
  - unfold GormStart.OnStart. rewrite Hcg, Hmg. done.
  - unfold PostgresStart.OnStart. rewrite Hcp, Hmp. done.
  - unfold NatsStart.OnStart. rewrite nats_defaults_read by done. done.
Qed.
End defaults.

(** Another application's settings, which configure a queue of their own. *)
Definition demo_settings : map_settings :=
  mkSettings [(getConfigPath "jobs" "poll_interval", SString "5m0s")] [].

(** The migration of the empty process fails. *)
Definition demo_migrate (db : bool) (table : string) : option (option string) :=
  Some (if db then None else Some "no table").

Definition keys_unset (l : list (string * setting)) : bool :=
  forallb (λ key, negb (configured demo_settings (getConfigPath "mail" key))) l.*1.

Lemma keys_unset_ok l : keys_unset l = true → unset "mail" demo_settings l.
Proof.
  unfold keys_unset. rewrite forallb_forall. intros Hl key Hkey%list_elem_of_In.
  by apply negb_true_iff, Hl.
Qed.

Lemma startup_defaults_witness :
  GormStart.OnStart demo_migrate "mail" (GormStart.Module "mail" demo_settings).1 true =
    Some (Gorm.New true (Gorm.mkConfig "" 0 0), None).
Proof.
  exact (proj1 (startup_defaults demo_migrate "mail" demo_settings true (Some None) true
    (keys_unset_ok GormStart.defaults eq_refl) (keys_unset_ok PostgresStart.defaults eq_refl)
    (keys_unset_ok NatsStart.defaults eq_refl))).
Defined.

(** ** The listener of a process *)

(** A cancelled goroutine can return. *)
Lemma listener_finishes l :
  l_cancelled l = true → ∃ tr l', listens tr l l' ∧ l_pc l' = Done.
Proof.
  destruct l as [pc c w]. simpl. intros ->.
  assert (∀ b w, ∃ tr l', listens tr (mkListener (Top b) true w) l' ∧ l_pc l' = Done) as Htop.
  { intros b w'. exists [Enter]. eexists. split; [eapply listens_cons; [done|apply listens_nil]|done]. }
  assert (∀ e l1 b w', run_step e (mkListener pc true w) = Some l1 → l1 = mkListener (Top b) true w' →
    ∃ tr l', listens tr (mkListener pc true w) l' ∧ l_pc l' = Done) as Hstep.
  { intros e l1 b w' He ->. destruct (Htop b w') as (tr & l' & Htr & Hd).
    exists (e :: tr), l'. split; [by eapply listens_cons|done]. }
  destruct pc as [b|b|b|b|b|].
  - apply Htop.
  - by eapply (Hstep (Answer (Some ""))).
  - by eapply (Hstep (Answer (Some ""))).
  - by eapply (Hstep (Broken "")).
  - by eapply (Hstep Elapsed).
  - exists [], (mkListener Done true w). split; [apply listens_nil|done].
Qed.

Lemma Close_total p : ∃ p', PostgresStart.Close p p'.
Proof.
  destruct p as [q h [[s ch l]|]]; [|by eexists; constructor].
  destruct (listener_finishes (mkListener (l_pc l) true (l_woken l)) eq_refl) as (tr & l' & Htr & Hd).
  eexists. eapply PostgresStart.Close_listener; [|done|done]. by destruct l as [[] c w].
Qed.

Lemma Close_result p p' :
  PostgresStart.Close p p' →
  p' = PostgresStart.mkProcess (PostgresStart.p_queue p) (PostgresStart.p_db p) None.
Proof. by destruct 1. Qed.

(** A resolved configuration: what every method and worker relies on. *)
Lemma notify_channel_named c : Postgres.NotifyChannel (Postgres.withDefaults c) ≠ "".
Proof.
  unfold Postgres.withDefaults. set (d := if decide (Postgres.LeaseDuration _ ≤ 0) then _ else _).
  case_decide as Hd; [|done]. simpl. by destruct (Postgres.TableName d).
Qed.

(** What [startListener] starts. *)
Lemma startListener_ok p p' x :
  PostgresStart.p_listener p = None → PostgresStart.startListener p = Some p' →
  PostgresStart.p_queue p' = PostgresStart.p_queue p ∧
  (PostgresStart.p_listener p' = Some x →
   let c := Postgres.config (PostgresStart.p_queue p) in
   PostgresStart.dsn x ≠ "" ∧ PostgresStart.channel x = Postgres.NotifyChannel c ∧
   PostgresStart.goroutine x = newPGListener ∧
   (PostgresStart.dsn x = Postgres.ListenDSN c ∨ PostgresStart.p_db p = Some (Some (PostgresStart.dsn x)))).
Proof.
  intros Hnone Hs. unfold PostgresStart.startListener in Hs.
  apply bind_Some in Hs as (dialector & Hd & [= <-]). split; [done|]. simpl.
  unfold Postgres.listen_dsn. destruct (decide (Postgres.ListenDSN _ = "")) as [Hdsn|Hdsn].
  - case_decide as He; [congruence|]. intros [= <-]. simpl. split_and!; [done..|].
    destruct dialector as [d|]; [by right|done].
  - rewrite decide_False by done. intros [= <-]. simpl. auto.
Qed.

(** The process with its listener's goroutine somewhere else. *)
Definition at_goroutine (l : listener) (p : PostgresStart.process) : PostgresStart.process :=
  PostgresStart.mkProcess (PostgresStart.p_queue p) (PostgresStart.p_db p)
    ((λ x, PostgresStart.mkListening (PostgresStart.dsn x) (PostgresStart.channel x) l) <$>
       PostgresStart.p_listener p).

(** C39. The listener of a PostgreSQL process: OnStart starts one only when the
    migration went well and there is a connection string, and on a channel
    that has a name; wherever its goroutine is, OnStop can wait for it, and
    leaves a process without listener, on which another Close does nothing. *)
Theorem postgres_listener_lifecycle `{Viper V} migrate scope (v : V) handle p0 p err :
  PostgresStart.p_listener p0 = None →
  PostgresStart.OnStart migrate scope v handle p0 = Some (p, err) →
  let c := Postgres.config (PostgresStart.p_queue p) in
  (is_Some err → PostgresStart.p_listener p = None) ∧
  (∀ x, PostgresStart.p_listener p = Some x →
     PostgresStart.dsn x ≠ "" ∧ PostgresStart.channel x = Postgres.NotifyChannel c ∧
     Postgres.NotifyChannel c ≠ "" ∧ PostgresStart.goroutine x = newPGListener ∧
     (PostgresStart.dsn x = Postgres.ListenDSN c ∨ handle = Some (Some (PostgresStart.dsn x)))) ∧
  ∀ tr l, listens tr newPGListener l →
    (∃ p', PostgresStart.OnStop (at_goroutine l p) p') ∧
    ∀ p', PostgresStart.OnStop (at_goroutine l p) p' →
      PostgresStart.p_listener p' = None ∧ PostgresStart.p_queue p' = PostgresStart.p_queue p ∧
      ∀ p'', PostgresStart.Close p' p'' → p'' = p'.
Proof.
  intros Hnone Hstart. split_and!.
  - unfold PostgresStart.OnStart in Hstart. apply bind_Some in Hstart as (e & _ & Hstart).
    destruct e; simplify_eq/=; [done|]. apply bind_Some in Hstart as (p1 & _ & [= -> <-]). by intros [].
  - intros x Hx. unfold PostgresStart.OnStart in Hstart. apply bind_Some in Hstart as (e & _ & Hstart).
    destruct e as [e|]; simplify_eq/=. apply bind_Some in Hstart as (p1 & Hl & [= -> <-]).
    destruct (startListener_ok (PostgresStart.mkProcess _ _ _) _ x Hnone Hl) as [Hq Hrest]. rewrite Hq.
    destruct (Hrest Hx) as (Hd & Hc & Hg & Hor). simpl in Hc, Hor. simpl. split_and!; try done.
    apply notify_channel_named.
  - intros tr l _. split; [apply Close_total|]. intros p' Hc. rewrite (Close_result _ _ Hc).
    split_and!; [done|done|]. by intros p'' ->%Close_result.
Qed.

(** OnStart of a process that is configured to listen elsewhere. *)
Definition listening_settings : map_settings :=
  mkSettings [(getConfigPath "mail" "listen_dsn", SString "host=b")] [].

Definition listening_process : PostgresStart.process :=
  PostgresStart.mkProcess
    (Postgres.mkQueue true (Postgres.withDefaults (Postgres.mkConfig "" 0 0 "" "host=b"))) (Some (Some "host=a"))
    (Some (PostgresStart.mkListening "host=b" "workqueue_tasks_wakeup" newPGListener)).

Lemma postgres_listener_lifecycle_witness :
  ∃ p', PostgresStart.OnStop (at_goroutine (mkListener (Receiving Second) false [""]) listening_process) p'.
Proof.
  refine (proj1 (proj2 (proj2 (postgres_listener_lifecycle demo_migrate "mail"
    (PostgresStart.Module "mail" listening_settings).1 (Some (Some "host=a"))
    (PostgresStart.Module "mail" listening_settings).2 listening_process None eq_refl _))
    [Enter; Answer None; Answer None] _ _)).
  - vm_compute. reflexivity.
  - repeat (eapply listens_cons; [reflexivity|]). apply listens_nil.
Defined.

(** [New] without a handle: the comment of errNotStarted promises an error from
    the methods. The database backend gives a queue that refuses; the
    PostgreSQL backend panics in startListener unless a DSN is configured. *)
Theorem postgres_new_nil_panics `{Json} c :
  Postgres.ListenDSN c = "" →
  PostgresStart.New None c = None ∧
  ∀ c' call, method (GormNode (Gorm.New false c')) call = Ret (refused call errNotStarted).
Proof.
  intros Hdsn. split; [|by intros c' []].
  assert (Postgres.ListenDSN (Postgres.withDefaults c) = "") as Hd.
  { unfold Postgres.withDefaults. repeat case_decide; simpl; done. }
  unfold PostgresStart.New, PostgresStart.startListener. simpl. by rewrite decide_True.
Qed.

Lemma postgres_new_nil_panics_witness : PostgresStart.New None (Postgres.mkConfig "" 0 0 "" "") = None.
Proof. exact (proj1 (postgres_new_nil_panics (H := script_json) (Postgres.mkConfig "" 0 0 "" "") eq_refl)). Defined.
