(* ===== verification/DeadLetters.v ===== *)
(** * Dead letters: what every backend promises of them

    The three dead-letter methods of [workqueue.WorkQueue] as an interface: a
    backend shows a queue's dead letters, oldest first, and answers each call
    as [dead_spec] does on this list. Clients are proved against the interface;
    [MemoryDead], [SqlDead] and [NatsDead] show that the backends implement
    it. *)

From stdpp Require Import base tactics list numbers option strings.
From S2P Require Import Prelude GoRuntime Contract.

(** ** Calls on the dead letters of one queue *)

Inductive dcall :=
  | DList (limit offset : Z)
  | DRequeue (taskID : string)
  | DDelete (taskID : string).

Inductive danswer :=
  | DTasks (l : list Task)
  | DErr (e : option Err).

(** The list without its first task of an identifier, if there is one. *)
Fixpoint remove_dead (taskID : string) (l : list Task) : option (list Task) :=
  match l with
  | [] => None
  | t :: l => if decide (ID t = taskID) then Some l else (λ l', t :: l') <$> remove_dead taskID l
  end.

(** ListDeadTasks answers a page; RequeueDeadTask and DeleteDeadTask take the
    task out, or report that there is none. *)
Definition dead_spec (c : dcall) (l : list Task) : danswer * list Task :=
  match c with
  | DList limit offset => (DTasks (page limit offset l), l)
  | DRequeue taskID | DDelete taskID =>
      match remove_dead taskID l with
      | Some l' => (DErr None, l')
      | None => (DErr (Some ErrTaskNotFound), l)
      end
  end.

(** Calls one after the other, each with the clock reading it makes. *)
Fixpoint dead_run (cs : list (time * dcall)) (l : list Task) : list danswer * list Task :=
  match cs with
  | [] => ([], l)
  | (t, c) :: cs =>
      let '(a, l) := dead_spec c l in let '(r, l) := dead_run cs l in (a :: r, l)
  end.

Lemma remove_dead_find taskID l :
  remove_dead taskID l =
    (λ p, take p.1 l ++ drop (S p.1) l) <$> list_find (λ t, ID t = taskID) l.
Proof.
  induction l as [|t l IH]; [done|]. simpl. destruct (decide (ID t = taskID)); [by simpl; rewrite drop_0|].
  rewrite IH. by destruct (list_find _ l) as [[]|].
Qed.

Lemma remove_dead_fmap (f : Task → Task) taskID (l : list Task) :
  (∀ t, ID (f t) = ID t) → remove_dead taskID (f <$> l) = fmap (M := list) f <$> remove_dead taskID l.
Proof.
  intros Hf. induction l as [|t l IH]; [done|]. csimpl. rewrite Hf, IH. case_decide; [done|].
  by destruct (remove_dead taskID l).
Qed.

(** Where identifiers are not repeated, all tasks with the identifier go. *)
Lemma remove_dead_filter taskID l :
  NoDup (ID <$> l) →
  remove_dead taskID l =
    if decide (taskID ∈ ID <$> l) then Some (filter (λ t, ID t ≠ taskID) l) else None.
Proof.
  induction l as [|t l IH]; intros Hnd; [done|]. csimpl in *. apply NoDup_cons in Hnd as [Hn Hnd].
  destruct (decide (ID t = taskID)) as [Heq|Hne].
  - subst taskID. rewrite decide_True by left. rewrite filter_cons_False by (intros Hx; by apply Hx).
    rewrite filter_all; [done|]. apply Forall_forall. intros u Hu Heq. apply Hn. rewrite <- Heq.
    by apply list_elem_of_fmap_2.
  - rewrite IH by done. rewrite filter_cons_True by done. destruct (decide (taskID ∈ ID <$> l)) as [Hin|Hin].
    + rewrite decide_True by (by right). done.
    + rewrite decide_False; [done|]. intros [?|?]%elem_of_cons; congruence.
Qed.

(** ** The interface *)

Class DeadLetters (W : Type) := {
  (** the state is one the methods work on, good for so many calls more *)
  dl_ok : string → nat → W → Prop;
  (** the dead letters of a queue, oldest first *)
  dl_dead : string → W → list Task;
  (** what a call relies on *)
  dl_allowed : time → dcall → list Task → Prop;
  (** a call: its answer and the state it leaves, nothing when it panics *)
  dl_do : string → time → dcall → W → option (danswer * W)
}.

Class DeadLettersLaws (W : Type) `{DeadLetters W} := {
  dl_refines queue n t c w :
    dl_ok queue (S n) w → dl_allowed t c (dl_dead queue w) →
    ∃ w', dl_do queue t c w = Some ((dead_spec c (dl_dead queue w)).1, w') ∧
      dl_ok queue n w' ∧ dl_dead queue w' = (dead_spec c (dl_dead queue w)).2
}.

(** ** Clients *)

Section clients.
Context {W : Type} `{DeadLetters W}.

Fixpoint dl_run (queue : string) (cs : list (time * dcall)) (w : W) : option (list danswer * W) :=
  match cs with
  | [] => Some ([], w)
  | (t, c) :: cs =>
      '(a, w) ← dl_do queue t c w; '(r, w) ← dl_run queue cs w; Some (a :: r, w)
  end.

(** Each call of a run is allowed when it is made. *)
Fixpoint all_allowed (cs : list (time * dcall)) (l : list Task) : Prop :=
  match cs with
  | [] => True
  | (t, c) :: cs => dl_allowed t c l ∧ all_allowed cs (dead_spec c l).2
  end.

Lemma dl_run_refines `{!DeadLettersLaws W} queue cs : ∀ n (w : W),
  dl_ok queue (length cs + n) w → all_allowed cs (dl_dead queue w) →
  ∃ w', dl_run queue cs w = Some ((dead_run cs (dl_dead queue w)).1, w') ∧
    dl_ok queue n w' ∧ dl_dead queue w' = (dead_run cs (dl_dead queue w)).2.
Proof.
  induction cs as [|[t c] cs IH]; intros n w Hok Hall; [by exists w|]. destruct Hall as [Hc Hall].
  destruct (dl_refines queue (length cs + n) t c w Hok Hc) as (w1 & Hdo & Hok1 & Hd1).
  rewrite <- Hd1 in Hall. destruct (IH n w1 Hok1 Hall) as (w2 & Hrun & Hok2 & Hd2).
  exists w2. simpl. rewrite Hdo. simpl. rewrite Hrun. simpl. rewrite Hd1 in *.
  destruct (dead_spec c (dl_dead queue w)) as [a l]. simpl in *. by destruct (dead_run cs l).
Qed.
End clients.

(** *** The conformance suite: src/workqueuetest/suite.go

    What the suite does with the dead letters once its tasks have died, and
    the answers it fails without. *)

Definition testRequeueDeadTask (id : string) : list dcall :=
  [DRequeue "no-such-task"; DRequeue id; DList 10 0].

Definition testDeleteDeadTask (id : string) : list dcall :=
  [DDelete "no-such-task"; DDelete id; DList 10 0; DDelete id].

Definition testListDeadTasksPagination : list dcall := [DList 10 0; DList 1 1; DList 10 5].

Definition requeue_passes (answers : list danswer) : bool :=
  match answers with
  | [DErr (Some ErrTaskNotFound); DErr None; DTasks []] => true
  | _ => false
  end.

Definition delete_passes (answers : list danswer) : bool :=
  match answers with
  | [DErr (Some ErrTaskNotFound); DErr None; DTasks []; DErr (Some ErrTaskNotFound)] => true
  | _ => false
  end.

Definition pagination_passes (ids : list string) (answers : list danswer) : bool :=
  match answers with
  | [DTasks all; DTasks [t]; DTasks []] =>
      bool_decide (ID <$> all = ids) && bool_decide (ids !! 1%nat = Some (ID t))
  | _ => false
  end.

Section suite.
Context {W : Type} `{DeadLettersLaws W}.
#[local] Set Default Proof Using "All".

(** The calls at one time. *)
Definition at_time (t : time) (cs : list dcall) : list (time * dcall) := (λ c, (t, c)) <$> cs.

(** A backend that keeps the interface passes these parts of the suite: once
    one task has died, respectively three. *)
Theorem suite_dead_letters queue t n (w : W) :
  (∀ u, dl_dead queue w = [u] → ID u ≠ "no-such-task" →
     dl_ok queue (4 + n) w → all_allowed (at_time t (testRequeueDeadTask (ID u))) [u] →
     all_allowed (at_time t (testDeleteDeadTask (ID u))) [u] →
     (∃ a w', dl_run queue (at_time t (testRequeueDeadTask (ID u))) w = Some (a, w') ∧ requeue_passes a = true) ∧
     (∃ a w', dl_run queue (at_time t (testDeleteDeadTask (ID u))) w = Some (a, w') ∧ delete_passes a = true)) ∧
  (∀ u1 u2 u3, dl_dead queue w = [u1; u2; u3] → dl_ok queue (3 + n) w →
     all_allowed (at_time t testListDeadTasksPagination) [u1; u2; u3] →
     ∃ a w', dl_run queue (at_time t testListDeadTasksPagination) w = Some (a, w') ∧
       pagination_passes (ID <$> [u1; u2; u3]) a = true).
Proof.
  split.
  - intros u Hu Hne Hok Hr Hd. rewrite <- Hu in Hr, Hd. split.
    + destruct (dl_run_refines queue (at_time t (testRequeueDeadTask (ID u))) (S n) w Hok Hr) as (w' & Hrun & _).
      eexists _, w'. split; [exact Hrun|]. rewrite Hu. simpl. rewrite decide_False by done. simpl.
      by rewrite decide_True.
    + destruct (dl_run_refines queue (at_time t (testDeleteDeadTask (ID u))) n w Hok Hd) as (w' & Hrun & _).
      eexists _, w'. split; [exact Hrun|]. rewrite Hu. simpl. rewrite decide_False by done. simpl.
      by rewrite decide_True.
  - intros u1 u2 u3 Hu Hok Ha. rewrite <- Hu in Ha.
    destruct (dl_run_refines queue (at_time t testListDeadTasksPagination) n w Hok Ha) as (w' & Hrun & _).
    eexists _, w'. split; [exact Hrun|]. rewrite Hu. unfold page. simpl.
    by rewrite !bool_decide_true.
Qed.
End suite.
