(* ===== verification/MemoryDead.v ===== *)
(** * The dead letters of the in-memory backend *)

From stdpp Require Import base tactics list numbers option gmap strings.
From S2P Require Import Prelude GoRuntime Contract Options Memory MemorySpec DeadLetters.

Definition memory_op (t : time) (c : dcall) : op :=
  match c with
  | DList limit offset => OpList limit offset
  | DRequeue taskID => OpRequeue t taskID
  | DDelete taskID => OpDelete taskID
  end.

Definition memory_answer (r : resp) : danswer :=
  match r with
  | RList l => DTasks l
  | RErr e => DErr e
  | _ => DErr None
  end.

(** The limit and the offset are 64-bit integers. *)
Definition dead_call_args (c : dcall) : Prop := ∀ t, op_args (memory_op t c).

(** A page that starts inside the list and ends past the largest int. *)
Definition dead_overflows (c : dcall) (l : list Task) : bool :=
  match c with
  | DList limit offset => page_overflows limit offset (Z.of_nat (length l))
  | _ => false
  end.

(** A call numbers at most one insertion. *)
#[export] Instance memory_dead_letters : DeadLetters MemoryWorkQueue := {|
  dl_ok queue n m := memory_ok m ∧ seqs_le (max_int64 - Z.of_nat n) m ∧ Z.of_nat n ≤ max_int64;
  dl_dead queue m := cloneTask <$> a_dead (abs m queue);
  dl_allowed t c l := dead_call_args c ∧ dead_overflows c l = false;
  dl_do queue t c m := '(r, m) ← mem_exec queue (memory_op t c) m; Some (memory_answer r, m)
|}.

Lemma cloneTask_ID t : ID (cloneTask t) = ID t.
Proof. done. Qed.

Lemma find_dead_remove taskID l :
  remove_dead taskID (cloneTask <$> l) =
    match find_dead taskID l with
    | Some (i, _) => Some (cloneTask <$> remove_at i l)
    | None => None
    end.
Proof.
  rewrite (remove_dead_fmap _ _ _ cloneTask_ID), remove_dead_find. unfold find_dead.
  by destruct (list_find _ l) as [[i t]|].
Qed.

(** The abstract queue of the backend answers as the interface promises. *)
Lemma spec_exec_dead queue t c a :
  let '(r, a') := spec_exec queue (memory_op t c) a in
  (memory_answer r, cloneTask <$> a_dead a') = dead_spec c (cloneTask <$> a_dead a).
Proof.
  destruct c as [limit offset|i|i]; simpl.
  - by rewrite page_fmap.
  - rewrite find_dead_remove. by destruct (find_dead i (a_dead a)) as [[k u]|].
  - rewrite find_dead_remove. by destruct (find_dead i (a_dead a)) as [[k u]|].
Qed.

Lemma op_panics_dead t c a : op_panics (memory_op t c) a = dead_overflows c (cloneTask <$> a_dead a).
Proof. destruct c; simpl; [|done..]. by rewrite length_fmap. Qed.

#[export] Instance memory_dead_laws : DeadLettersLaws MemoryWorkQueue.
Proof.
  split. intros queue n t c m (Hm & Hseq & Hn) [Hc Hov]. cbn [dl_do dl_dead dl_ok memory_dead_letters] in *.
  pose proof (mem_exec_exact queue (memory_op t c) m Hm) as Hx.
  rewrite op_panics_dead, Hov in Hx. destruct Hx as (r & m' & He & Hm' & Hs & _ & Hk & _).
  { intros q Hq. specialize (Hseq _ _ Hq). lia. }
  { apply Hc. }
  pose proof (spec_exec_dead queue t c (abs m queue)) as Hspec. rewrite <- Hs in Hspec.
  rewrite <- Hspec. exists m'. rewrite He. split_and!; [done|done| |lia|done].
  eapply seqs_le_mono; [apply (Hk (max_int64 - Z.of_nat (S n)))|]; [lia|done|lia].
Qed.

(** ** Runs with pages that overflow *)

(** Some call of the run asks for such a page. *)
Fixpoint run_overflows (cs : list (time * dcall)) (l : list Task) : bool :=
  match cs with
  | [] => false
  | (t, c) :: cs => dead_overflows c l || run_overflows cs (dead_spec c l).2
  end.

Lemma run_overflows_allowed cs : ∀ l,
  Forall (λ p, dead_call_args p.2) cs → run_overflows cs l = false →
  all_allowed (H := memory_dead_letters) cs l.
Proof.
  induction cs as [|[t c] cs IH]; intros l; [done|]. simpl.
  intros [Hc Hcs]%Forall_cons [Hov Hr]%orb_false_iff. split; [done|by apply IH].
Qed.

(** The backend panics at the first of them, and nowhere else. *)
Lemma memory_dl_run queue cs : ∀ m,
  dl_ok (DeadLetters := memory_dead_letters) queue (length cs) m →
  Forall (λ p, dead_call_args p.2) cs →
  let l := dl_dead (DeadLetters := memory_dead_letters) queue m in
  if run_overflows cs l then dl_run queue cs m = None
  else ∃ m', dl_run queue cs m = Some ((dead_run cs l).1, m') ∧
    dl_dead (DeadLetters := memory_dead_letters) queue m' = (dead_run cs l).2.
Proof.
  intros m Hok Hcs l. destruct (run_overflows cs l) eqn:Hov.
  - subst l. revert m Hok Hov. induction cs as [|[t c] cs IH]; intros m Hok Hov; [done|].
    apply Forall_cons in Hcs as [Hc Hcs]. specialize (IH Hcs). cbn [run_overflows dl_run] in *.
    destruct (dead_overflows c _) eqn:Hfirst.
    + destruct Hok as (Hm & Hseq & _). cbn [dl_do memory_dead_letters].
      pose proof (mem_exec_exact queue (memory_op t c) m Hm) as Hx.
      rewrite op_panics_dead in Hx. cbn [dl_dead memory_dead_letters] in Hfirst. rewrite Hfirst in Hx.
      rewrite Hx; [done| |apply Hc]. intros q Hq. specialize (Hseq _ _ Hq). simpl in Hseq. lia.
    + destruct (dl_refines queue (length cs) t c m Hok) as (m1 & -> & Hok1 & Hd1); [by split|].
      cbn [mbind option_bind]. rewrite IH; [done|done|]. by rewrite Hd1.
  - destruct (dl_run_refines queue cs 0 m) as (m' & Hr & _ & Hd);
      [by rewrite Nat.add_0_r|by apply run_overflows_allowed|by exists m'].
Qed.
