(* ===== verification/SqlDead.v ===== *)
(** * The dead letters of the SQL backends

    On a database that does not fail, the dead rows of a queue in the order of
    ListDeadTasks are what [DeadLetters] promises, for both backends. *)

From stdpp Require Import base tactics list numbers option gmap strings sorting.
From S2P Require Import Prelude GoRuntime Contract Options Effects TaskTable SqlEffects Gorm Postgres WakeChannels GormLegal SqlSystem ScriptDB ClaimSpec GormProps DeadLetters.

(** ** The dead rows in order *)

Section rows.
Context `{Engine, Json}.

(** Identifiers that sort equal are equal. *)
Definition ids_ordered : Prop := ∀ a b, str_le a b = true → str_le b a = true → a = b.

Definition dead_rows (queue : string) (T : gmap string TaskRecord) : list TaskRecord :=
  (selected (Gorm.is_dead queue) [died_at; id] T).*2.

Definition dead_order (x y : TaskRecord) : Prop := order_le [died_at; id] x y = true.

Lemma dead_rows_perm queue T : dead_rows queue T ≡ₚ table_rows (matching (Gorm.is_dead queue) T).
Proof. unfold dead_rows, selected, table_rows. by rewrite merge_sort_Permutation. Qed.

Lemma dead_rows_sorted queue T : Sorted.StronglySorted dead_order (dead_rows queue T).
Proof.
  pose proof (selected_sorted (Gorm.is_dead queue) [died_at; id] T) as Hs. unfold dead_rows.
  induction Hs as [|x l Hl IH Hall]; csimpl; constructor; [done|]. by apply Forall_fmap.
Qed.

Lemma elem_of_dead_rows queue T r :
  r ∈ dead_rows queue T ↔ ∃ i, T !! i = Some r ∧ Gorm.is_dead queue r = true.
Proof.
  unfold dead_rows. rewrite list_elem_of_fmap. split.
  - intros ([i u] & -> & Hin%elem_of_selected). by exists i.
  - intros (i & Hi). exists (i, r). split; [done|]. by apply elem_of_selected.
Qed.

(** Two listings of one table agree. *)
Lemma dead_rows_unique queue T l :
  ids_ordered → keyed T → l ≡ₚ table_rows (matching (Gorm.is_dead queue) T) →
  Sorted.StronglySorted dead_order l → l = dead_rows queue T.
Proof.
  intros Hid Hkey Hperm Hsort. apply (StronglySorted_unique_strong dead_order); [|done|apply dead_rows_sorted|].
  - assert (∀ x, x ∈ l → ∃ i, T !! i = Some x) as Hin.
    { intros x. rewrite Hperm, <- (dead_rows_perm queue T), elem_of_dead_rows. intros (i & Hi & _). by exists i. }
    intros x y Hx [j [Hj _]]%elem_of_dead_rows Hxy Hyx. destruct (Hin x Hx) as [i Hi].
    unfold dead_order in Hxy, Hyx. apply order_le_cons in Hxy as [Hd Hxy], Hyx as [Hd' Hyx].
    specialize (Hxy Hd'). specialize (Hyx Hd). apply order_le_cons in Hxy as [Hx1 _], Hyx as [Hy1 _].
    simpl in Hx1, Hy1. pose proof (Hid _ _ Hx1 Hy1) as Heq.
    rewrite (Hkey i x Hi), (Hkey j y Hj) in Heq. congruence.
  - by rewrite dead_rows_perm.
Qed.

Lemma dead_rows_NoDup queue T : keyed T → NoDup (r_ID <$> dead_rows queue T).
Proof.
  intros Hkey. rewrite dead_rows_perm. unfold table_rows.
  assert (r_ID <$> (map_to_list (matching (Gorm.is_dead queue) T)).*2 =
          (map_to_list (matching (Gorm.is_dead queue) T)).*1) as ->; [|apply NoDup_fst_map_to_list].
  rewrite <- list_fmap_compose. apply list_fmap_ext. intros k [i r] Hk%list_elem_of_lookup_2.
  apply elem_of_map_to_list in Hk. unfold matching in Hk. apply map_lookup_filter_Some in Hk as [Hk _].
  simpl. by apply Hkey.
Qed.

(** A table whose dead rows are those of [T] but one. *)
Lemma dead_rows_remove queue T T' i :
  ids_ordered → keyed T → keyed T' →
  matching (Gorm.is_dead queue) T' = delete i (matching (Gorm.is_dead queue) T) →
  dead_rows queue T' = filter (λ r, r_ID r ≠ i) (dead_rows queue T).
Proof.
  intros Hid Hkey Hkey' Hm. symmetry. apply dead_rows_unique; [done|done| |].
  - rewrite dead_rows_perm, Hm. unfold table_rows.
    assert (∀ M : gmap string TaskRecord, (∀ j r, M !! j = Some r → r_ID r = j) →
      filter (λ r, r_ID r ≠ i) (map_to_list M).*2 ≡ₚ (map_to_list (delete i M)).*2) as Hdel.
    { intros M HM. destruct (M !! i) as [r|] eqn:Hr.
      - rewrite <- (map_to_list_delete M i r Hr). csimpl.
        rewrite filter_cons_False by (intros Hx; by apply Hx, HM).
        rewrite filter_all; [done|]. apply Forall_forall. intros u Hu.
        apply list_elem_of_fmap in Hu as ([j v] & -> & Hv%elem_of_map_to_list). simpl.
        apply lookup_delete_Some in Hv as [Hne Hv]. by rewrite (HM j v Hv).
      - rewrite delete_id by done. rewrite filter_all; [done|]. apply Forall_forall. intros u Hu.
        apply list_elem_of_fmap in Hu as ([j v] & -> & Hv%elem_of_map_to_list). simpl.
        rewrite (HM j v Hv). congruence. }
    apply Hdel. intros j r Hj. unfold matching in Hj. apply map_lookup_filter_Some in Hj as [Hj _]. by apply Hkey.
  - pose proof (dead_rows_sorted queue T) as Hs. induction Hs as [|x l Hl IH Hall]; [constructor|].
    destruct (decide (r_ID x ≠ i)); [rewrite filter_cons_True by done|rewrite filter_cons_False by done; done].
    constructor; [done|]. rewrite list.Forall_forall in Hall. apply list.Forall_forall.
    intros y [_ Hy]%list_elem_of_filter. by apply Hall.
Qed.

(** ** The dead tasks *)

Definition row_task (r : TaskRecord) : option Task :=
  match toTask r with inr t => Some t | inl _ => None end.

Definition dead_tasks (queue : string) (T : gmap string TaskRecord) : list Task :=
  omap row_task (dead_rows queue T).

Definition decodable (l : list TaskRecord) : Prop := Forall (λ r, is_Some (row_task r)) l.

Lemma row_task_ID r t : row_task r = Some t → ID t = r_ID r.
Proof.
  unfold row_task, toTask. destruct (match r_Metadata r with Some (b :: l) => _ | _ => _ end); [done|].
  by intros [= <-].
Qed.

Lemma decode_all_omap l : decodable l → Gorm.decode_all l = inr (omap row_task l).
Proof.
  induction 1 as [|r l [t Ht] Hl IH]; [done|]. simpl. rewrite Ht. unfold row_task in Ht.
  destruct (toTask r) as [e|t']; [done|]. injection Ht as ->. by rewrite IH.
Qed.

(** [omap] over decodable rows is a map. *)
Definition task_or_none (r : TaskRecord) : Task :=
  default (mkTask "" "" None None 0 0 0 0 "" 0) (row_task r).

Lemma omap_decodable l : decodable l → omap row_task l = task_or_none <$> l.
Proof.
  induction 1 as [|r l [t Ht] Hl IH]; [done|]. csimpl. rewrite Ht, IH. unfold task_or_none at 2. by rewrite Ht.
Qed.

Lemma decodable_ids l : decodable l → ID <$> omap row_task l = r_ID <$> l.
Proof.
  induction 1 as [|r l [t Ht] Hl IH]; [done|]. csimpl. rewrite Ht. csimpl. by rewrite IH, (row_task_ID r t).
Qed.

Lemma decodable_filter i l :
  decodable l → filter (λ t, ID t ≠ i) (omap row_task l) = omap row_task (filter (λ r, r_ID r ≠ i) l).
Proof.
  induction 1 as [|r l [t Ht] Hl IH]; [done|]. csimpl. rewrite Ht. pose proof (row_task_ID r t Ht) as Hi.
  destruct (decide (r_ID r ≠ i)) as [Hne|Hne].
  - rewrite filter_cons_True by (by rewrite Hi). rewrite filter_cons_True by done. csimpl. by rewrite Ht, IH.
  - rewrite filter_cons_False by (by rewrite Hi). by rewrite filter_cons_False.
Qed.

Lemma page_decodable limit offset l :
  decodable l → Gorm.decode_all (page limit offset l) = inr (page limit offset (omap row_task l)).
Proof.
  intros Hl. rewrite (omap_decodable l Hl), page_fmap. rewrite decode_all_omap.
  - rewrite omap_decodable; [done|]. unfold page, decodable in *. case_decide; auto using Forall_take, Forall_drop.
  - unfold page, decodable in *. case_decide; auto using Forall_take, Forall_drop.
Qed.
End rows.

(** ** The table after a call *)

Section table.
Context `{Engine, Json}.

Lemma keyed_alter f i T : (∀ r, r_ID (f r) = r_ID r) → keyed T → keyed (alter f i T).
Proof.
  intros Hf Hkey j r. rewrite lookup_alter_Some. intros [(-> & u & Hu & ->)|[_ Hr]]; [|by apply Hkey].
  rewrite Hf. by apply Hkey.
Qed.

Lemma keyed_delete i T : keyed T → keyed (delete i T).
Proof. intros Hkey j r [_ Hr]%lookup_delete_Some. by apply Hkey. Qed.

Lemma matching_revived queue i t T :
  matching (Gorm.is_dead queue) (alter (Gorm.revive t) i T) = delete i (matching (Gorm.is_dead queue) T).
Proof.
  apply map_eq. intros j. apply option_eq. intros r. unfold matching.
  rewrite map_lookup_filter_Some, lookup_alter_Some, lookup_delete_Some, map_lookup_filter_Some. simpl.
  split.
  - intros [[(-> & u & Hu & ->)|[Hne Hr]] Hd]; [|done].
    unfold Gorm.is_dead, Gorm.revive in Hd. simpl in Hd. by rewrite andb_false_r in Hd.
  - intros [Hne [Hr Hd]]. split; [by right|done].
Qed.

Lemma matching_deleted w i (T : gmap string TaskRecord) : matching w (delete i T) = delete i (matching w T).
Proof. unfold matching. apply map_filter_delete. Qed.

(** The dead task of an identifier is in the listing. *)
Lemma has_dead_elem queue i T :
  keyed T → decodable (dead_rows queue T) →
  has_dead queue i T = bool_decide (i ∈ ID <$> dead_tasks queue T).
Proof.
  intros Hkey Hdec. apply eq_bool_prop_intro. rewrite bool_decide_spec. unfold dead_tasks.
  rewrite decodable_ids by done. rewrite list_elem_of_fmap. unfold has_dead. split.
  - intros Hd. destruct (T !! i) as [r|] eqn:Hr; [|done]. apply Is_true_true, bool_decide_eq_true in Hd as [Hq Hs].
    exists r. split; [symmetry; by apply Hkey|]. apply elem_of_dead_rows. exists i. split; [done|].
    unfold Gorm.is_dead. by rewrite !bool_decide_true.
  - intros (r & -> & (j & Hj & Hd)%elem_of_dead_rows). rewrite (Hkey j r Hj), Hj.
    unfold Gorm.is_dead in Hd. apply andb_true_iff in Hd as [Hq%bool_decide_eq_true Hs%bool_decide_eq_true].
    apply Is_true_true. by rewrite bool_decide_true.
Qed.

(** A call that takes the dead row of [i] out of the listing. *)
Lemma dead_tasks_removed queue i T T' :
  ids_ordered → keyed T → keyed T' → decodable (dead_rows queue T) →
  (if has_dead queue i T
   then matching (Gorm.is_dead queue) T' = delete i (matching (Gorm.is_dead queue) T) else T' = T) →
  decodable (dead_rows queue T') ∧
  (DErr (if has_dead queue i T then None else Some ErrTaskNotFound), dead_tasks queue T') =
    match remove_dead i (dead_tasks queue T) with
    | Some l => (DErr None, l)
    | None => (DErr (Some ErrTaskNotFound), dead_tasks queue T)
    end.
Proof.
  intros Hid Hkey Hkey' Hdec Hm.
  rewrite remove_dead_filter by (unfold dead_tasks; rewrite decodable_ids by done; by apply dead_rows_NoDup).
  rewrite has_dead_elem in * by done. case_bool_decide as Hin.
  - rewrite decide_True by done. unfold dead_tasks. rewrite (dead_rows_remove queue T T' i) by done.
    rewrite decodable_filter by done. split; [|done]. unfold decodable in *. rewrite list.Forall_forall in *.
    intros r [_ Hr]%list_elem_of_filter. by apply Hdec.
  - rewrite decide_False by done. by subst T'.
Qed.
End table.

(** ** One process on a database that does not fail *)

Definition sql_call (queue : string) (c : dcall) : call :=
  match c with
  | DList limit offset => CallList queue limit offset
  | DRequeue taskID => CallRequeue queue taskID
  | DDelete taskID => CallDelete queue taskID
  end.

Definition sql_answer (a : answer) : danswer :=
  match a with
  | AnswerList (inr l) => DTasks l
  | AnswerList (inl e) => DErr (Some e)
  | AnswerErr e => DErr e
  | AnswerTask _ => DErr None
  end.

(** The queue of a started process. *)
Definition serves (b : backend) : Prop :=
  (∃ c, b = GormNode (Gorm.New true c)) ∨ ∃ c, b = PostgresNode (Postgres.New true c).

(** The table is keyed by identifiers, the wake channels are in order and the
    dead rows of the queue can be decoded. *)
Record sql_ok `{Engine, Json} {DB} `{Database DB} (queue : string) (w : DB * local) : Prop := {
  so_keyed : keyed (rows (db_store w.1));
  so_local : local_ok w.2;
  so_decodable : decodable (dead_rows queue (rows (db_store w.1)))
}.

Section process.
Context `{Engine, Json} {DB : Type} `{Database DB} {laws : DatabaseLaws DB} {rel : Reliable DB}
  {reltx : ReliableTx DB}.
Context (b : backend) (Hb : serves b) (Hid : ids_ordered).

Definition no_handler : Handler := λ t, (t, Returned None).

Definition sql_dead_letters : DeadLetters (DB * local) := {|
  dl_ok queue n w := sql_ok queue w;
  dl_dead queue w := dead_tasks queue (rows (db_store w.1));
  dl_allowed t c l := True;
  dl_do queue t c w :=
    '(a, w') ← run_program no_handler (method b (sql_call queue c)) (mkWorld w.1 w.2 [t]);
    Some (sql_answer a, (w_db w', w_local w'))
|}.

Lemma program_bind {A B} (f : A → program B) p (w : world DB) a w' :
  run_program no_handler p w = Some (a, w') →
  run_program no_handler (p ≫= f) w = run_program no_handler (f a) w'.
Proof using. intros Hr. unfold run_program in *. unfold mbind, prog_bind. by rewrite interp_bind, Hr. Qed.

(** The methods of either backend on the dead letters. *)
Lemma sql_list_run queue limit offset t l (d : DB) :
  sql_ok queue (d, l) →
  ∃ d' ts, run_program no_handler (method b (CallList queue limit offset)) (mkWorld d l [t]) =
      Some (AnswerList (inr (page limit offset (dead_tasks queue (rows (db_store d))))), mkWorld d' l ts) ∧
    db_store d' = db_store d.
Proof using laws rel Hb Hid.
  intros Hok.
  assert (∀ c, ∃ d', run_program no_handler (Gorm.ListDeadTasks (Gorm.New true c) queue limit offset)
      (mkWorld d l [t]) = Some (inr (page limit offset (dead_tasks queue (rows (db_store d)))), mkWorld d' l [t]) ∧
    db_store d' = db_store d) as Hgorm.
  { intros c. destruct (gorm_list_run no_handler c queue limit offset [t] l d) as (all & d' & Hperm & Hsort & Hr & Hd).
    assert (all = dead_rows queue (rows (db_store d))) as ->
      by (apply dead_rows_unique; [done|apply Hok|done|done]).
    exists d'. split; [|done]. rewrite Hr, (page_decodable _ _ _ (so_decodable _ _ Hok)). done. }
  destruct Hb as [[c ->]|[c ->]]; cbn [method].
  - destruct (Hgorm c) as (d' & Hr & Hd). exists d', [t]. split; [|done]. by rewrite (program_bind _ _ _ _ _ Hr).
  - destruct Postgres_copies as (_ & _ & _ & _ & Hc & _). rewrite Hc.
    destruct (Hgorm (Gorm.mkConfig (Postgres.TableName c) (Postgres.PollInterval c) (Postgres.LeaseDuration c)))
      as (d' & Hr & Hd). exists d', [t]. split; [|done]. by rewrite (program_bind _ _ _ _ _ Hr).
Qed.

(** A requeue of the PostgreSQL backend: the row and the notification in one
    transaction, which a database that does not fail commits. *)
Lemma postgres_requeue_run c queue i t ts l (d : DB) :
  keyed (rows (db_store d)) → local_ok l →
  let T := rows (db_store d) in
  ∃ d' l', run_program no_handler (Postgres.RequeueDeadTask (Postgres.New true c) queue i) (mkWorld d l (t :: ts)) =
      Some (if has_dead queue i T then None else Some ErrTaskNotFound, mkWorld d' l' ts) ∧ local_ok l' ∧
    rows (db_store d') = if has_dead queue i T then alter (Gorm.revive t) i T else T.
Proof using laws reltx.
  intros Hkey Hl T. unfold Postgres.RequeueDeadTask. cbn [Postgres.ready Postgres.started Postgres.New].
  set (tb := Postgres.requeue_tx (Postgres.NotifyChannel (Postgres.config (Postgres.New true c))) queue i t). pose proof (reliable_tx tb d) as (σ & Hrun & Hst).
  rewrite run_now, run_tx. fold tb. destruct (db_tx tb d) as [e d']. cbn [fst snd] in *.
  pose proof (has_dead_match queue i d Hkey) as Hm. fold T in Hm.
  destruct Hrun as (x & σ1 & Hs & [n ->] & Hk). destruct Hs as [-> ->].
  change (Postgres.is_dead_task i queue) with (Gorm.is_dead_task i queue) in Hk.
  destruct (has_dead queue i T); destruct Hm as (Hsz & Hup & _); fold T in Hk.
  - rewrite decide_False in Hk by done. destruct Hk as (x & σ2 & Hs & Ha & Hk). simpl in Hs, Ha, Hk. subst x.
    destruct Hk as [-> ->]. destruct (broadcastLocal_ok queue l Hl) as (l' & Hbr & Hl' & _).
    exists d', l'. cbn [option_map] in *. rewrite (run_locked no_handler _ _ _ _ _ tt l') by done.
    split_and!; [done|done|]. rewrite Hst, Hs. simpl. apply (Hup (Gorm.revive t)).
  - rewrite decide_True in Hk by done. destruct Hk as [-> ->]. exists d', l. split_and!; [done|done|]. by rewrite Hst.
Qed.

Lemma sql_requeue_run queue i t l (d : DB) :
  sql_ok queue (d, l) →
  let T := rows (db_store d) in
  ∃ d' l' ts, run_program no_handler (method b (CallRequeue queue i)) (mkWorld d l [t]) =
      Some (AnswerErr (if has_dead queue i T then None else Some ErrTaskNotFound), mkWorld d' l' ts) ∧
    local_ok l' ∧ rows (db_store d') = if has_dead queue i T then alter (Gorm.revive t) i T else T.
Proof using laws rel reltx Hb.
  intros Hok T. destruct Hb as [[c ->]|[c ->]]; cbn [method].
  - destruct (gorm_requeue_run no_handler c queue i t [] l d (so_keyed _ _ Hok) (so_local _ _ Hok)) as (d' & l' & Hr & Hl & Hd).
    exists d', l', []. split; [|done]. by rewrite (program_bind _ _ _ _ _ Hr).
  - destruct (postgres_requeue_run c queue i t [] l d (so_keyed _ _ Hok) (so_local _ _ Hok)) as (d' & l' & Hr & Hl & Hd).
    exists d', l', []. split; [|done]. by rewrite (program_bind _ _ _ _ _ Hr).
Qed.

Lemma sql_delete_run queue i t l (d : DB) :
  sql_ok queue (d, l) →
  let T := rows (db_store d) in
  ∃ d' ts, run_program no_handler (method b (CallDelete queue i)) (mkWorld d l [t]) =
      Some (AnswerErr (if has_dead queue i T then None else Some ErrTaskNotFound), mkWorld d' l ts) ∧
    rows (db_store d') = if has_dead queue i T then delete i T else T.
Proof using laws rel Hb.
  intros Hok T.
  assert (∀ c, ∃ d', run_program no_handler (Gorm.DeleteDeadTask (Gorm.New true c) queue i) (mkWorld d l [t]) =
      Some (if has_dead queue i T then None else Some ErrTaskNotFound, mkWorld d' l [t]) ∧
    rows (db_store d') = if has_dead queue i T then delete i T else T) as Hgorm.
  { intros c. apply gorm_delete_run, Hok. }
  destruct Hb as [[c ->]|[c ->]]; cbn [method].
  - destruct (Hgorm c) as (d' & Hr & Hd). exists d', [t]. split; [|done]. by rewrite (program_bind _ _ _ _ _ Hr).
  - destruct Postgres_copies as (_ & _ & _ & _ & _ & Hc). rewrite Hc.
    destruct (Hgorm (Gorm.mkConfig (Postgres.TableName c) (Postgres.PollInterval c) (Postgres.LeaseDuration c)))
      as (d' & Hr & Hd). exists d', [t]. split; [|done]. by rewrite (program_bind _ _ _ _ _ Hr).
Qed.

Lemma sql_dead_laws : @DeadLettersLaws (DB * local) sql_dead_letters.
Proof using All.
  split. intros queue n t c [d l] Hok _. cbn [dl_do dl_dead dl_ok sql_dead_letters fst snd].
  pose proof Hok as [Hkey Hl Hdec]. cbn [fst snd] in *. set (T := rows (db_store d)) in *.
  destruct c as [limit offset|i|i]; cbn [sql_call dead_spec].
  - destruct (sql_list_run queue limit offset t l d Hok) as (d' & ts & -> & Hd).
    exists (d', l). unfold T. rewrite <- Hd. split_and!; [done| |done]. split; cbn [fst snd]; rewrite ?Hd; done.
  - destruct (sql_requeue_run queue i t l d Hok) as (d' & l' & ts & -> & Hl' & Hd). fold T in Hd |- *. exists (d', l').
    destruct (dead_tasks_removed queue i T (rows (db_store d')) Hid Hkey) as [Hdec' Heq]; [|done| |].
    + rewrite Hd. destruct (has_dead queue i T); [by apply keyed_alter|done].
    + rewrite Hd. destruct (has_dead queue i T); [apply matching_revived|done].
    + rewrite <- Heq. split_and!; [done| |done]. split; [|done..]. cbn [fst]. rewrite Hd.
      destruct (has_dead queue i T); [by apply keyed_alter|done].
  - destruct (sql_delete_run queue i t l d Hok) as (d' & ts & -> & Hd). fold T in Hd |- *. exists (d', l).
    destruct (dead_tasks_removed queue i T (rows (db_store d')) Hid Hkey) as [Hdec' Heq]; [|done| |].
    + rewrite Hd. destruct (has_dead queue i T); [by apply keyed_delete|done].
    + rewrite Hd. destruct (has_dead queue i T); [apply matching_deleted|done].
    + rewrite <- Heq. split_and!; [done| |done]. split; [|done..]. cbn [fst]. rewrite Hd.
      destruct (has_dead queue i T); [by apply keyed_delete|done].
Qed.
End process.
