(* ===== verification/NatsDead.v ===== *)
(** * The dead letters of the JetStream backend

    On a healthy server the decodable messages of a queue's dead-letter stream
    are what [DeadLetters] promises. *)

From stdpp Require Import base tactics list numbers option gmap strings.
From S2P Require Import Prelude GoRuntime Contract Options Effects JetStream Nats NatsNames NatsSystem NatsInv NatsExact NatsProps DeadLetters.

Import Nats.

(** ** The streams after a call *)

Section streams.
Context `{TaskJson} (q : NATSWorkQueue) (queue : string).

(** The number of the last message of the tasks stream. *)
Definition tasks_last (σ : jstore) : Z := from_option st_last 0 (σ !! streamName q queue).

(** Both streams are there, and the tasks stream has room for [n] messages. *)
Record settled (n : nat) (σ : jstore) : Prop := {
  se_valid : validateQueue queue = None;
  se_tasks : ∃ st, σ !! streamName q queue = Some st ∧ st_subject st = tasksSubject q queue ∧ numbered st;
  se_dead : ∃ st, σ !! dlqStreamName q queue = Some st ∧ st_subject st = deadSubject q queue ∧ numbered st;
  se_room : tasks_last σ + Z.of_nat n < two64
}.

Lemma settled_ready n σ cache : settled n σ → queue_ready q queue σ cache.
Proof.
  intros [Hv (st & Hs & Hst) (sd & Hd & Hsd) _]. split; [done|..].
  - intros u Hu. by simplify_eq.
  - intros u Hu. by simplify_eq.
  - intros _. eauto.
Qed.

Lemma settled_weaken n σ : settled (S n) σ → settled n σ.
Proof. intros [Hv Ht Hd Hr]. split; try done. lia. Qed.

Lemma new_stream_numbered s : numbered (new_stream s).
Proof. split; [done|]. apply map_Forall_empty. Qed.

(** Provisioning settles a queue and shows the same dead letters. *)
Lemma provisioned_settled n σ cache :
  queue_ready q queue σ cache → tasks_last σ + Z.of_nat n < two64 →
  settled n (provisioned q queue σ) ∧
  dead_entries q queue (provisioned q queue σ) = dead_entries q queue σ.
Proof.
  intros [Hv Ht Hd _] Hroom. split; [split; [done|..]|].
  - rewrite provisioned_tasks. eexists. split; [done|].
    destruct (σ !! streamName q queue) as [st|] eqn:E; simpl; [by apply Ht|]. split; [done|apply new_stream_numbered].
  - rewrite provisioned_dead. eexists. split; [done|].
    destruct (σ !! dlqStreamName q queue) as [st|] eqn:E; simpl; [by apply Hd|]. split; [done|apply new_stream_numbered].
  - unfold tasks_last in *. rewrite provisioned_tasks. simpl.
    by destruct (σ !! streamName q queue).
  - unfold dead_entries. rewrite provisioned_dead. by destruct (σ !! dlqStreamName q queue).
Qed.

Lemma store_numbered data id st :
  numbered st → st_last st + 1 < two64 → numbered (store_msg data id st).
Proof.
  intros [Hl Hm] Hr. split; simpl; [lia|]. apply map_Forall_insert_2; [lia|].
  eapply map_Forall_impl; [exact Hm|]. intros k d Hk. simpl in Hk. lia.
Qed.

(** A task that is published again. *)
Lemma published_settled n data id σ σ' :
  settled (S n) σ → published (tasksSubject q queue) data id σ σ' →
  settled n σ' ∧ σ' !! dlqStreamName q queue = σ !! dlqStreamName q queue.
Proof.
  intros Hs (name & st & Hname & Hsub & Hor). pose proof Hs as [Hv (stt & Ht & Htok) (sd & Hd & Hdok) Hr].
  destruct Hor as [(_ & _ & ->)|[_ ->]]; [split; [by apply settled_weaken|done]|].
  assert (name ≠ dlqStreamName q queue) as Hne.
  { intros ->. simplify_eq. destruct Hdok as [Hdok _]. rewrite Hdok in Hsub.
    by apply (tasksSubject_deadSubject q queue queue). }
  split; [|by rewrite lookup_insert_ne]. split; [done|..].
  - destruct (decide (name = streamName q queue)) as [->|Hnt].
    + simplify_eq. rewrite lookup_insert_eq. eexists. split_and!; [done|done|].
      apply store_numbered; [apply Htok|]. unfold tasks_last in Hr. rewrite Hname in Hr. simpl in Hr. lia.
    + rewrite lookup_insert_ne by done. by exists stt.
  - rewrite lookup_insert_ne by done. by exists sd.
  - unfold tasks_last in *. destruct (decide (name = streamName q queue)) as [->|Hnt].
    + rewrite lookup_insert_eq. rewrite Hname in Hr. simpl in *. lia.
    + rewrite lookup_insert_ne by done. lia.
Qed.

Lemma entries_drop st seq from :
  entries (drop_msg seq st) from = filter (λ e, e_seq e ≠ seq) (entries st from).
Proof.
  unfold entries. simpl st_last. induction (seqZ from _) as [|k l IH]; [done|]. csimpl.
  assert (entry_at (drop_msg seq st) k = if decide (k = seq) then None else entry_at st k) as ->.
  { unfold entry_at. simpl. case_decide as Hk; [by rewrite Hk, lookup_delete_eq|by rewrite lookup_delete_ne]. }
  assert (∀ e, entry_at st k = Some e → e_seq e = k) as Hseq.
  { unfold entry_at. intros e. destruct (st_msgs st !! k); [|done]. simpl.
    destruct (task_of _); [|done]. by intros [= <-]. }
  destruct (decide (k = seq)) as [Hk|Hk].
  - destruct (entry_at st k) as [e|]; [|done]. rewrite filter_cons_False; [done|].
    intros Hx. apply Hx. by rewrite (Hseq e).
  - destruct (entry_at st k) as [e|]; [|done]. rewrite filter_cons_True; [by rewrite IH|]. by rewrite (Hseq e).
Qed.

Lemma entries_NoDup st from : NoDup (e_seq <$> entries st from).
Proof.
  unfold entries.
  assert (∀ l, NoDup l → NoDup (e_seq <$> omap (entry_at st) l)) as Hl; [|apply Hl, NoDup_seqZ].
  assert (∀ k e, entry_at st k = Some e → e_seq e = k) as Hseq.
  { unfold entry_at. intros k e. destruct (st_msgs st !! k); [|done]. simpl.
    destruct (task_of _); [|done]. by intros [= <-]. }
  induction 1 as [|k l Hk Hnd IH]; csimpl; [constructor|].
  destruct (entry_at st k) as [e|] eqn:He; [|done]. csimpl. constructor; [|done].
  rewrite (Hseq k e He). intros (e' & -> & (k' & Hk' & He')%list_elem_of_omap)%list_elem_of_fmap.
  by rewrite (Hseq k' e' He') in Hk.
Qed.

(** Taking out the first dead letter of an identifier by its number. *)
Lemma remove_dead_entry taskID (l : list deadEntry) e :
  NoDup (e_seq <$> l) → snd <$> list_find (λ e, ID (e_task e) = taskID) l = Some e →
  remove_dead taskID (e_task <$> l) = Some (e_task <$> filter (λ x, e_seq x ≠ e_seq e) l).
Proof.
  induction l as [|x l IH]; intros Hnd Hf; [done|]. csimpl in *. apply NoDup_cons in Hnd as [Hn Hnd].
  destruct (decide (ID (e_task x) = taskID)) as [Hx|Hx].
  - simpl in Hf. injection Hf as <-. rewrite filter_cons_False by (intros Hy; by apply Hy).
    rewrite filter_all; [done|]. apply list.Forall_forall. intros y Hy Heq. apply Hn. rewrite <- Heq.
    by apply list_elem_of_fmap_2.
  - assert (snd <$> list_find (λ e, ID (e_task e) = taskID) l = Some e) as Hf'
      by (destruct (list_find _ l) as [[i y]|]; simpl in *; by simplify_eq).
    rewrite IH by done. rewrite filter_cons_True; [done|]. intros Heq. apply Hn. rewrite Heq.
    apply fmap_Some in Hf' as ([i y] & Hy & ->). apply list_find_Some in Hy as (Hy & _).
    apply list_elem_of_lookup_2 in Hy. by apply list_elem_of_fmap_2.
Qed.

Lemma remove_dead_none taskID (l : list deadEntry) :
  snd <$> list_find (λ e, ID (e_task e) = taskID) l = None → remove_dead taskID (e_task <$> l) = None.
Proof.
  induction l as [|x l IH]; intros Hf; [done|]. csimpl in *. destruct (decide (ID (e_task x) = taskID)); [done|].
  rewrite IH; [done|]. by destruct (list_find _ l) as [[i y]|].
Qed.

(** A dead letter that is dropped. *)
Lemma dropped_settled n seq σ σ' :
  settled n σ → dropped (dlqStreamName q queue) seq σ σ' →
  settled n σ' ∧
  dead_entries q queue σ' = filter (λ e, e_seq e ≠ seq) (dead_entries q queue σ).
Proof.
  intros [Hv Ht (sd & Hd & Hsub & Hnum) Hr] (st & Hst & ->). simplify_eq. split; [split; [done|..]|].
  - rewrite lookup_insert_ne by (intros Heq; by apply (tasks_dlq_differ q queue)). done.
  - rewrite lookup_insert_eq. eexists. split_and!; [done|done|]. destruct Hnum as [Hl Hm].
    split; [done|]. simpl. intros k d [_ Hk]%lookup_delete_Some. by apply (Hm k d).
  - unfold tasks_last in *. by rewrite lookup_insert_ne by (intros Heq; by apply (tasks_dlq_differ q queue)).
  - unfold dead_entries. rewrite lookup_insert_eq, Hd. apply entries_drop.
Qed.

Lemma settled_ok n σ cache :
  settled n σ → queue_ready q queue σ cache ∧ tasks_last σ + Z.of_nat n < two64.
Proof. intros Hs. split; [by eapply settled_ready|apply Hs]. Qed.

(** The dead letter [findDeadTask] finds. *)
Lemma find_dead_in taskID σ e :
  find_dead q queue taskID σ = Some e →
  remove_dead taskID (e_task <$> dead_entries q queue σ) =
    Some (e_task <$> filter (λ x, e_seq x ≠ e_seq e) (dead_entries q queue σ)) ∧
  e_task e ∈ e_task <$> dead_entries q queue σ.
Proof.
  intros Hf. split.
  - apply remove_dead_entry; [|done]. unfold dead_entries.
    destruct (σ !! dlqStreamName q queue); [apply entries_NoDup|constructor].
  - unfold find_dead in Hf. apply fmap_Some in Hf as ([i y] & Hy & ->). apply list_find_Some in Hy as (Hy & _).
    apply list_elem_of_lookup_2 in Hy. by apply list_elem_of_fmap_2.
Qed.
End streams.

(** ** One process on a healthy server *)

Section process.
Context `{TaskJson} {J : Type} `{JetStream J} {laws : JetStreamLaws J} {healthy : JetStreamHealthy J}.
Context (q : NATSWorkQueue) (Hstarted : started q = true).

Definition idle_handler : Handler := λ t, (t, Returned None).

Definition nats_call (queue : string) (c : dcall) : nprogram (option danswer) :=
  match c with
  | DList limit offset =>
      r ← ListDeadTasks q queue limit offset;
      mret (match r with
            | Some (inr l) => Some (DTasks l)
            | Some (inl e) => Some (DErr (Some e))
            | None => None
            end)
  | DRequeue taskID => r ← RequeueDeadTask q queue taskID; mret (option_map DErr r)
  | DDelete taskID => r ← DeleteDeadTask q queue taskID; mret (option_map DErr r)
  end.

Abbreviation streams w := (js_store (nw_js w)).

(** A requeue relies on the task's having an encoding; it publishes one message. *)
Definition nats_dead_letters : DeadLetters (nworld J) := {|
  dl_ok queue n w :=
    queue_ready q queue (streams w) (nw_cache w) ∧ tasks_last q queue (streams w) + Z.of_nat n < two64;
  dl_dead queue w := e_task <$> dead_entries q queue (streams w);
  dl_allowed t c l :=
    match c with
    | DRequeue taskID => Forall (λ u, ∃ m, MarshalTask (revived t u) = inr m) l
    | _ => True
    end;
  dl_do queue t c w :=
    '(a, w) ← run_nprogram idle_handler (nats_call queue c) (mkNWorld (nw_js w) (nw_cache w) [t]);
    a ← a; Some (a, w)
|}.

Lemma nats_dead_laws : @DeadLettersLaws (nworld J) nats_dead_letters.
Proof using All.
  split. intros queue n t c w [Hready Hroom] Hc. cbn [dl_do dl_dead dl_ok dl_allowed nats_dead_letters] in *.
  set (w0 := mkNWorld (nw_js w) (nw_cache w) [t]).
  assert (queue_ready q queue (streams w0) (nw_cache w0)) as Hready0 by done.
  destruct (provisioned_settled q queue (S n) (streams w) (nw_cache w) Hready) as [Hset Hsame]; [lia|].
  set (σ := provisioned q queue (streams w)) in *.
  destruct c as [limit offset|i|i]; cbn [nats_call dead_spec].
  - destruct (nats_dead_page q queue idle_handler limit offset w0 Hstarted Hready0) as (w' & Hr & Hs).
    exists w'. rewrite NatsExact.run_bind, Hr. split; [done|]. rewrite Hs. change (streams w0) with (streams w).
    fold σ. rewrite Hsame. split; [|done]. by apply settled_ok, settled_weaken.
  - destruct (nats_requeue_exact q queue idle_handler i w0 t [] Hstarted Hready0 eq_refl) as (r & w' & Hr & Hs).
    change (streams w0) with (streams w) in Hs. fold σ in Hs. unfold requeued in Hs.
    exists w'. rewrite NatsExact.run_bind, Hr.
    destruct (find_dead q queue i σ) as [e|] eqn:Hf.
    + rewrite <- Hsame in *. destruct (find_dead_in _ _ _ _ _ Hf) as [Hrem Hin].
      rewrite Hrem. rewrite list.Forall_forall in Hc. destruct (Hc (e_task e) Hin) as [m Hm]. rewrite Hm in Hs.
      destruct Hs as (-> & σ1 & Hp & Hd). destruct (published_settled _ _ _ _ _ _ _ Hset Hp) as [Hset1 Hd1].
      destruct (dropped_settled _ _ _ _ _ _ Hset1 Hd) as [Hset2 Hd2]. split; [done|]. split; [by apply settled_ok|].
      rewrite Hd2. unfold dead_entries. by rewrite Hd1.
    + destruct Hs as [-> Hs]. rewrite <- Hsame, (remove_dead_none i _ Hf). rewrite Hs.
      split; [done|]. split; [|done]. by apply settled_ok, settled_weaken.
  - destruct (nats_delete_exact q queue idle_handler i w0 Hstarted Hready0) as (r & w' & Hr & Hs).
    change (streams w0) with (streams w) in Hs. fold σ in Hs. unfold deleted_dead in Hs.
    exists w'. rewrite NatsExact.run_bind, Hr.
    destruct (find_dead q queue i σ) as [e|] eqn:Hf.
    + rewrite <- Hsame in *. destruct (find_dead_in _ _ _ _ _ Hf) as [Hrem Hin]. rewrite Hrem.
      destruct Hs as [-> Hd]. destruct (dropped_settled _ _ _ _ _ _ Hset Hd) as [Hset2 Hd2].
      split; [done|]. split; [by apply settled_ok, settled_weaken|]. by rewrite Hd2.
    + destruct Hs as [-> Hs]. rewrite <- Hsame, (remove_dead_none i _ Hf). rewrite Hs.
      split; [done|]. split; [|done]. by apply settled_ok, settled_weaken.
Qed.
End process.
