(* ===== verification/DeadLettersProps.v ===== *)
(** * All backends answer the dead-letter calls alike

    The refinement of [DeadLetters] by the three kinds of backend, put
    together, and the parts of the conformance suite that follow. *)

From stdpp Require Import base tactics list numbers option gmap strings sorting.
From S2P Require Import Prelude GoRuntime Contract Options Memory MemorySpec Effects TaskTable SqlEffects Gorm Postgres WakeChannels SqlSystem ScriptDB GormProps JetStream Nats NatsExact ScriptJS DeadLetters MemoryDead SqlDead NatsDead.

Section uniform.
Context `{Engine, Json} {DB : Type} `{Database DB} {laws : DatabaseLaws DB} {rel : Reliable DB}
  {reltx : ReliableTx DB}.
Context `{TaskJson} {J : Type} `{JetStream J} {jlaws : JetStreamLaws J} {healthy : JetStreamHealthy J}.

(** C13. Whatever sequence of ListDeadTasks, RequeueDeadTask and DeleteDeadTask a
    client makes on a queue, every backend gives the answers of [dead_run] on
    the queue's dead letters and is left with the same dead letters: a gorm or
    PostgreSQL process on a database that does not fail, a JetStream process on
    a healthy server that can encode the tasks it requeues, and an in-memory
    queue, when they show the same dead letters [l] before. The exception is
    a call for a page that starts inside the list and whose end, offset plus
    limit, is past the largest int: there the in-memory backend panics, and
    nowhere else, while the others answer. The queues have room for the calls
    in their counters. *)
Theorem dead_letters_uniform queue cs l m b (w : DB * local) q (v : nworld J) :
  let M := memory_dead_letters in
  let S := sql_dead_letters b in
  let N := nats_dead_letters q in
  serves b → ids_ordered → Nats.started q = true → Forall (λ p, dead_call_args p.2) cs →
  dl_ok (DeadLetters := M) queue (length cs) m → dl_dead (DeadLetters := M) queue m = l →
  dl_ok (DeadLetters := S) queue (length cs) w → dl_dead (DeadLetters := S) queue w = l →
  dl_ok (DeadLetters := N) queue (length cs) v → dl_dead (DeadLetters := N) queue v = l →
  all_allowed (H := N) cs l →
  (if run_overflows cs l then dl_run (H := M) queue cs m = None
   else ∃ m', dl_run (H := M) queue cs m = Some ((dead_run cs l).1, m') ∧
          dl_dead (DeadLetters := M) queue m' = (dead_run cs l).2) ∧
  ∃ w' v',
    (dl_run (H := S) queue cs w = Some ((dead_run cs l).1, w') ∧
     dl_run (H := N) queue cs v = Some ((dead_run cs l).1, v')) ∧
    dl_dead (DeadLetters := S) queue w' = (dead_run cs l).2 ∧
    dl_dead (DeadLetters := N) queue v' = (dead_run cs l).2.
Proof using laws rel reltx jlaws healthy.
  intros M S N Hb Hid Hq Hcs Hm Hml Hw Hwl Hv Hvl Hva.
  pose proof (memory_dl_run queue cs m Hm Hcs) as Hrm.
  destruct (@dl_run_refines _ S (sql_dead_laws b Hb Hid) queue cs 0 w) as (w' & Hrw & _ & Hdw);
    [by rewrite Nat.add_0_r|clear; generalize (dl_dead (DeadLetters := S) queue w); by induction cs as [|[]]|].
  destruct (@dl_run_refines _ N (nats_dead_laws q Hq) queue cs 0 v) as (v' & Hrv & _ & Hdv);
    [by rewrite Nat.add_0_r|by rewrite Hvl|].
  subst M. cbv zeta in Hrm. rewrite Hml in Hrm. rewrite Hwl in *. rewrite Hvl in *. split; [exact Hrm|].
  exists w', v'. by split_and!.
Qed.
End uniform.

(** ** One dead task in every backend *)

Definition demo_dead : Task := mkTask "d" "q" None None 2 1 10 10 "boom" 40.

Definition demo_calls : list (time * dcall) :=
  at_time 50 (testRequeueDeadTask "d") ++ at_time 60 [DDelete "d"].

Definition demo_mem : MemoryWorkQueue :=
  mkMemory {[ "q" := mkQueue [] 0 [demo_dead] 0%nat ]} (Chans 1 ∅).

Definition demo_sql : plain_db * local :=
  (mkPlain (mkStore {[ "d" := mkRecord "d" "q" StatusDead 10 None None 2 1 10 "boom" (Some 40) None ]} []),
   local_init).

Definition demo_nats_queue : Nats.NATSWorkQueue := Nats.New true (Nats.mkConfig "" "" 0 0).

Definition demo_nats : nworld plain_js :=
  mkNWorld (mkPlainJS {[ Nats.dlqStreamName demo_nats_queue "q" :=
    store_msg (match MarshalTask demo_dead with inr data => data | inl _ => [] end) ""
      (new_stream (Nats.deadSubject demo_nats_queue "q")) ]}) ∅ [].

Definition demo_postgres : backend := PostgresNode (Postgres.New true (Postgres.mkConfig "" 0 0 "" "")).

Lemma demo_serves : serves demo_postgres.
Proof. right. by eexists. Defined.

Lemma script_ids_ordered : ids_ordered.
Proof.
  intros a b Ha%bool_decide_eq_true Hb%bool_decide_eq_true. apply (inj encode). lia.
Qed.

Lemma demo_mem_is_ok : memory_ok demo_mem ∧ seqs_le 0 demo_mem.
Proof.
  assert (∀ name q, queues demo_mem !! name = Some q → name = "q" ∧ q = mkQueue [] 0 [demo_dead] 0%nat) as Hq.
  { intros name q. unfold demo_mem. simpl. by intros [<- <-]%lookup_singleton_Some. }
  split; [split|].
  - intros ch. unfold is_closed. simpl. set_solver.
  - intros name q [_ ->]%Hq. split; simpl; try done; try constructor.
    + unfold made. simpl. lia.
    + unfold is_closed. simpl. set_solver.
  - intros n1 n2 q1 q2 [-> _]%Hq [-> _]%Hq. done.
  - intros name q [_ ->]%Hq. done.
Qed.

Lemma demo_sql_is_ok : sql_ok "q" demo_sql.
Proof.
  split.
  - assert (map_Forall (λ i r, r_ID r = i) (rows (db_store demo_sql.1))) as Hk; [|exact Hk].
    apply (bool_decide_unpack _). vm_compute. exact I.
  - exact local_init_ok.
  - unfold decodable. apply (bool_decide_unpack _). vm_compute. exact I.
Qed.

Lemma demo_nats_is_ok : Nats.started demo_nats_queue = true ∧
  queue_ready demo_nats_queue "q" (js_store (nw_js demo_nats)) (nw_cache demo_nats) ∧
  tasks_last demo_nats_queue "q" (js_store (nw_js demo_nats)) + 4 < two64.
Proof.
  split_and!; [done| |by vm_compute]. apply queue_is_ready_ok. by vm_compute.
Qed.

Lemma demo_encodes t (l : list Task) : Forall (λ u, ∃ m, MarshalTask (Nats.revived t u) = inr m) l.
Proof. apply list.Forall_forall. intros u _. by eexists. Qed.

(** The suite's calls on one dead task. *)
Lemma dead_letters_uniform_witness :
  ((∃ m', dl_run (H := memory_dead_letters) "q" demo_calls demo_mem =
       Some ([DErr (Some ErrTaskNotFound); DErr None; DTasks []; DErr (Some ErrTaskNotFound)], m') ∧
     dl_dead (DeadLetters := memory_dead_letters) "q" m' = []) ∧
   ∃ w' v',
    (dl_run (H := sql_dead_letters demo_postgres) "q" demo_calls demo_sql =
       Some ([DErr (Some ErrTaskNotFound); DErr None; DTasks []; DErr (Some ErrTaskNotFound)], w') ∧
     dl_run (H := nats_dead_letters demo_nats_queue) "q" demo_calls demo_nats =
       Some ([DErr (Some ErrTaskNotFound); DErr None; DTasks []; DErr (Some ErrTaskNotFound)], v')) ∧
    dl_dead (DeadLetters := sql_dead_letters demo_postgres) "q" w' = [] ∧
    dl_dead (DeadLetters := nats_dead_letters demo_nats_queue) "q" v' = []).
Proof.
  refine (dead_letters_uniform "q" demo_calls [demo_dead] demo_mem demo_postgres demo_sql demo_nats_queue demo_nats
    demo_serves script_ids_ordered (proj1 demo_nats_is_ok) _ _ _ demo_sql_is_ok _ (proj2 demo_nats_is_ok) _ _).
  - unfold demo_calls, at_time, testRequeueDeadTask. csimpl.
    repeat (apply Forall_cons; split); [..|by apply Forall_nil]; intros t; first [exact I|split; vm_compute; split; discriminate].
  - destruct demo_mem_is_ok as [Hm Hs]. split_and!; [done| |done]. eapply seqs_le_mono; [exact Hs|by vm_compute].
  - by vm_compute.
  - by vm_compute.
  - by vm_compute.
  - repeat (split; [first [exact I | apply demo_encodes]|]). exact I.
Defined.
