(* ===== verification/WorkQueueSpec.v ===== *)
(** * What a work queue does: the contract its users rely on

    [workqueue.WorkQueue] as an abstract machine. Its state is what can be
    known of a backend ([view]): the tasks of each queue that are pending or
    dead, the deliveries its workers have in hand, the subscriptions. It moves
    by actions, each with a guard and an update, in which a delivery is claimed,
    passed to the handler, returned and settled, and a client's call takes
    effect at one moment between its start and its answer.

    [Backend] is the interface of an implementation, [BackendLaws] that every
    step of it is a sequence of these actions. *)

From stdpp Require Import base tactics list numbers option gmap strings.
From S2P Require Import Prelude GoRuntime Contract Options Memory MemorySpec DeadLetters.

(** ** Calls of a client *)

Inductive call :=
  | CEnqueue (queue : string) (payload : bytes) (opts : list EnqueueOption)
  | CListDeadTasks (queue : string) (limit offset : Z)
  | CRequeueDeadTask (queue taskID : string)
  | CDeleteDeadTask (queue taskID : string).

Inductive answer :=
  | AnsTask (r : Err + Task)
  | AnsTasks (r : Err + list Task)
  | AnsErr (e : option Err).

(** ** What can be known of a backend *)

(** What a worker does with the task it has claimed. *)
Inductive stage :=
  | Fresh                                    (** its handler has not been called *)
  | Busy                                     (** the handler runs *)
  | Back (at_ : time) (err : option string). (** the handler returned [err] at [at_] *)

Record subscription := mkSubscription {
  sub_queue : string; sub_opts : ConsumeOptions; sub_stopped : bool; sub_done : bool
}.

Record view := mkView {
  v_now : time;
  v_pending : string → list Task;                 (** in any order *)
  v_dead : string → list Task;                    (** oldest first *)
  v_running : nat → option (nat * Task * stage);  (** per worker: subscription, task, stage *)
  v_subs : list subscription;
  v_ids : string → list string;                   (** identifiers a queue has given *)
  v_call : option (time * call * option answer)   (** a client's call: since when, its answer *)
}.

(** The same for all but the client: pending tasks and identifiers in another
    order, and the call under way. *)
Record view_eq (v v' : view) : Prop := {
  eq_now : v_now v' = v_now v;
  eq_pending q : v_pending v' q ≡ₚ v_pending v q;
  eq_dead q : v_dead v' q = v_dead v q;
  eq_running i : v_running v' i = v_running v i;
  eq_subs : v_subs v' = v_subs v;
  eq_ids q : v_ids v' q ≡ₚ v_ids v q
}.

Definition upd {K A} `{EqDecision K} (k : K) (a : A) (f : K → A) : K → A :=
  λ k', if decide (k' = k) then a else f k'.

Lemma upd_eq {K A} `{EqDecision K} (k : K) (a : A) f : upd k a f k = a.
Proof. unfold upd. by rewrite decide_True. Qed.
Lemma upd_ne {K A} `{EqDecision K} (k k' : K) (a : A) f : k' ≠ k → upd k a f k' = f k'.
Proof. intros. unfold upd. by rewrite decide_False. Qed.

Definition set_now (t : time) (v : view) : view :=
  mkView t (v_pending v) (v_dead v) (v_running v) (v_subs v) (v_ids v) (v_call v).
Definition set_pending (q : string) (l : list Task) (v : view) : view :=
  mkView (v_now v) (upd q l (v_pending v)) (v_dead v) (v_running v) (v_subs v) (v_ids v) (v_call v).
Definition set_dead (q : string) (l : list Task) (v : view) : view :=
  mkView (v_now v) (v_pending v) (upd q l (v_dead v)) (v_running v) (v_subs v) (v_ids v) (v_call v).
Definition set_running (i : nat) (r : option (nat * Task * stage)) (v : view) : view :=
  mkView (v_now v) (v_pending v) (v_dead v) (upd i r (v_running v)) (v_subs v) (v_ids v) (v_call v).
Definition set_subs (l : list subscription) (v : view) : view :=
  mkView (v_now v) (v_pending v) (v_dead v) (v_running v) l (v_ids v) (v_call v).
Definition set_ids (q : string) (l : list string) (v : view) : view :=
  mkView (v_now v) (v_pending v) (v_dead v) (v_running v) (v_subs v) (upd q l (v_ids v)) (v_call v).

Definition set_call (c : option (time * call * option answer)) (v : view) : view :=
  mkView (v_now v) (v_pending v) (v_dead v) (v_running v) (v_subs v) (v_ids v) c.

Definition stop_sub (s : subscription) : subscription :=
  mkSubscription (sub_queue s) (sub_opts s) true (sub_done s).
Definition close_sub (s : subscription) : subscription :=
  mkSubscription (sub_queue s) (sub_opts s) (sub_stopped s) true.

(** ** Actions *)

Inductive action :=
  | Passed (d : duration)                            (** time passes *)
  | Claimed (i k : nat) (t : Task) (rest : list Task) (** worker [i] of pool [k] takes [t] *)
  | Invoked (i k : nat) (t : Task)                   (** its handler is called with [t] *)
  | Left (i : nat) (o : Outcome)                     (** the handler returns or panics *)
  | Settled (i : nat) (at_ : time)                   (** the outcome is recorded, at [at_] *)
  | Started (c : call)                               (** the client makes a call *)
  | Served (a : answer) (at_ : time) (uuid : string) (** it takes effect *)
  | Answered (a : answer)                            (** it returns *)
  | Subscribed (queue : string) (o : ConsumeOptions)
  | Stopped (k : nat)
  | Closed (k : nat).                                (** the done channel of pool [k] *)

(** [uuid.NewString()] gives 36 characters and never the same ones twice. *)
Definition uuid_fresh (uuid queue : string) (v : view) : Prop :=
  String.length uuid = 36%nat ∧ uuid ∉ v_ids v queue.

(** What a call made at [at_] answers, and the state it leaves. *)
Definition serve (c : call) (at_ : time) (uuid : string) (v : view) : answer * view :=
  match c with
  | CEnqueue q payload opts =>
      let t := new_task at_ uuid q payload opts in
      (AnsTask (inr t), set_ids q (uuid :: v_ids v q) (set_pending q (t :: v_pending v q) v))
  | CListDeadTasks q limit offset => (AnsTasks (inr (page limit offset (v_dead v q))), v)
  | CRequeueDeadTask q id =>
      match find_dead id (v_dead v q) with
      | Some (i, t) => (AnsErr None, set_dead q (remove_at i (v_dead v q))
                                       (set_pending q (revived at_ t :: v_pending v q) v))
      | None => (AnsErr (Some ErrTaskNotFound), v)
      end
  | CDeleteDeadTask q id =>
      match find_dead id (v_dead v q) with
      | Some (i, t) => (AnsErr None, set_dead q (remove_at i (v_dead v q)) v)
      | None => (AnsErr (Some ErrTaskNotFound), v)
      end
  end.

Definition call_queue (c : call) : string :=
  match c with
  | CEnqueue q _ _ | CListDeadTasks q _ _ | CRequeueDeadTask q _ | CDeleteDeadTask q _ => q
  end.

(** A failed delivery is tried again after its backoff, or dies. *)
Definition settle (o : ConsumeOptions) (t : Task) (e : string) (at_ : time) (v : view) : view :=
  let q := Queue t in
  if decide (MaxRetries t < Attempts t)
  then set_dead q (v_dead v q ++ [set_DiedAt at_ (set_LastError e t)]) v
  else set_pending q (set_RunAt (at_ + retry_delay o (Attempts t)) t :: v_pending v q) v.

Definition guard (a : action) (v : view) : Prop :=
  match a with
  | Passed d => 0 ≤ d
  | Claimed i k t rest =>
      v_running v i = None ∧
      ∃ s, v_subs v !! k = Some s ∧ sub_done s = false ∧ Queue t = sub_queue s ∧
        v_pending v (Queue t) ≡ₚ t :: rest ∧ RunAt t ≤ v_now v
  | Invoked i k t => v_running v i = Some (k, t, Fresh)
  | Left i o => ∃ k t, v_running v i = Some (k, t, Busy)
  | Settled i at_ =>
      ∃ k t r err s, v_running v i = Some (k, t, Back r err) ∧ r ≤ at_ ≤ v_now v ∧
        v_subs v !! k = Some s
  | Started c => v_call v = None
  | Served a at_ uuid =>
      ∃ since c, v_call v = Some (since, c, None) ∧ since ≤ at_ ≤ v_now v ∧
        uuid_fresh uuid (call_queue c) v ∧ a = (serve c at_ uuid v).1
  | Answered a => ∃ since c, v_call v = Some (since, c, Some a)
  | Subscribed _ _ => True
  | Stopped k => is_Some (v_subs v !! k)
  | Closed k =>
      (∃ s, v_subs v !! k = Some s ∧ sub_stopped s = true) ∧
      ∀ i t st, v_running v i ≠ Some (k, t, st)
  end.

Definition apply (a : action) (v : view) : view :=
  match a with
  | Passed d => set_now (v_now v + d) v
  | Claimed i k t rest =>
      set_running i (Some (k, incr_Attempts t, Fresh)) (set_pending (Queue t) rest v)
  | Invoked i k t => set_running i (Some (k, t, Busy)) v
  | Left i o =>
      match v_running v i with
      | Some (k, t, _) => set_running i (Some (k, t, Back (v_now v) (recovered o))) v
      | None => v
      end
  | Settled i at_ =>
      match v_running v i with
      | Some (k, t, Back _ (Some e)) =>
          match v_subs v !! k with
          | Some s => settle (sub_opts s) t e at_ (set_running i None v)
          | None => v
          end
      | _ => set_running i None v
      end
  | Started c => set_call (Some (v_now v, c, None)) v
  | Served a at_ uuid =>
      match v_call v with
      | Some (since, c, _) => set_call (Some (since, c, Some a)) (serve c at_ uuid v).2
      | None => v
      end
  | Answered _ => set_call None v
  | Subscribed q o => set_subs (v_subs v ++ [mkSubscription q o false false]) v
  | Stopped k => set_subs (alter stop_sub k (v_subs v)) v
  | Closed k => set_subs (alter close_sub k (v_subs v)) v
  end.

(** The actions are possible one after the other and lead from [v] to [v']. *)
Fixpoint does (l : list action) (v v' : view) : Prop :=
  match l with
  | [] => view_eq v v' ∧ v_call v' = v_call v
  | a :: l => guard a v ∧ does l (apply a v) v'
  end.

(** ** The interface of a backend *)

Class Backend (W : Type) := {
  (** the state is one the operations work on *)
  b_ok : W → Prop;
  b_view : W → view;
  (** what workers, timers and the clock do: an event, and the actions it is *)
  b_event : Type;
  b_internal : b_event → W → option (W * list action);
  (** a client starts a call, subscribes, stops a subscription *)
  b_call : call → W → option W;
  b_consume : string → list ConsumeOption → W → option W;
  b_stop : nat → W → option W;
  (** the handler that worker [i] called returns; what the worker does next *)
  b_return : nat → Outcome → W → option (W * list action)
}.

(** Actions of the workers and the clock, with the service of the client. *)
Definition internal (a : action) : bool :=
  match a with
  | Left _ _ | Started _ | Subscribed _ _ | Stopped _ => false
  | _ => true
  end.

Class BackendLaws (W : Type) `{Backend W} := {
  law_internal e w w' l :
    b_ok w → b_internal e w = Some (w', l) →
    b_ok w' ∧ forallb internal l = true ∧ does l (b_view w) (b_view w');
  law_call c w w' :
    b_ok w → b_call c w = Some w' → b_ok w' ∧ does [Started c] (b_view w) (b_view w');
  law_consume q opts w w' :
    b_ok w → b_consume q opts w = Some w' →
    b_ok w' ∧ does [Subscribed q (NewConsumeOptions opts)] (b_view w) (b_view w');
  law_stop k w w' :
    b_ok w → b_stop k w = Some w' → b_ok w' ∧ does [Stopped k] (b_view w) (b_view w');
  law_return i o w w' l :
    b_ok w → b_return i o w = Some (w', l) →
    b_ok w' ∧ forallb internal l = true ∧ does (Left i o :: l) (b_view w) (b_view w')
}.
