(* ===== verification/Suite.v ===== *)
(** * The conformance suite: src/workqueuetest/suite.go

    Each test is a program over the calls of a work queue, the clock and the
    test's own variables, which its handlers share; [t.Fatalf] ends it with a
    message, of which the format string is kept. [SuiteHarness] runs them. *)

From stdpp Require Import base tactics list numbers option gmap strings pretty.
From S2P Require Import Prelude GoRuntime Contract Options Effects WorkQueueSpec.

(** ** Programs of handlers and tests *)

(** A section of code nothing interferes with, under the test's mutex or on an
    atomic, given the clock; it is blocked while it has no result. *)
Inductive sect (V : Type) : Type → Type :=
  | Sect {X : Type} (f : time → V → option (X * V)) : sect V X.

Arguments Sect {V X} f.

Definition handler (V : Type) : Type := Task → prog (sect V) Outcome.

Inductive teff (V : Type) : Type → Type :=
  | OwnCode {X : Type} (s : sect V X) : teff V X
  | Call (c : call) : teff V answer
  | ConsumeCall (queue : string) (h : handler V) (opts : list ConsumeOption) : teff V (Err + nat)
  | StopOnce (k : nat) : teff V unit                         (** [Stop] up to its select *)
  | StopSelect (k : nat) (deadline : time) : teff V (option string)
  | IsDone (k : nat) : teff V bool                           (** [select] on [Done()] with a default *)
  | SelectAfter (ready : V → bool) (deadline : time) : teff V bool
  | NextSeq : teff V Z.                                      (** [queueSeq.Add(1)] *)

Arguments OwnCode {V X} s.
Arguments Call {V} c.
Arguments ConsumeCall {V} queue h opts.
Arguments StopOnce {V} k.
Arguments StopSelect {V} k deadline.
Arguments IsDone {V} k.
Arguments SelectAfter {V} ready deadline.
Arguments NextSeq {V}.

(** A test ends with a value or with the messages it failed with. *)
Definition test (V A : Type) : Type := prog (teff V) (list string + A).

#[export] Instance test_ret V : MRet (test V) := λ A a, Ret (inr a).
#[export] Instance test_bind V : MBind (test V) := λ A B f p,
  bind (λ r : list string + A, match r with inl ms => Ret (inl ms) | inr a => f a end) p.

Section statements.
Context {V : Type}.

Definition lift {X} (e : teff V X) : test V X := Do e (λ x, Ret (inr x)).

(** [t.Fatalf] runs the deferred calls and ends the test. *)
Definition Fatalf {A} (msg : string) : test V A := Ret (inl [msg]).

Definition fatal_if (b : bool) (msg : string) : test V unit :=
  if b then Fatalf msg else mret tt.

(** [if err != nil { t.Fatalf(msg) }] *)
Definition check_err {A} (msg : string) (r : Err + A) : test V A :=
  match r with inl _ => Fatalf msg | inr a => mret a end.

(** [defer d()] before [body] *)
Definition deferring {A} (d : test V unit) (body : test V A) : test V A :=
  bind (λ r, bind (λ s : list string + unit, Ret (match r, s with
                             | inr a, inr _ => inr a
                             | inr _, inl ms => inl ms
                             | inl ms, inr _ => inl ms
                             | inl ms, inl ms' => inl (ms ++ ms')
                             end)) d) body.

Definition section {X} (f : V → X * V) : test V X :=
  lift (OwnCode (Sect (λ _ v, Some (f v)))).
Definition read {X} (f : V → X) : test V X := section (λ v, (f v, v)).
Definition write (f : V → V) : test V unit := section (λ v, (tt, f v)).
Definition time_Now : test V time := lift (OwnCode (Sect (λ now v, Some (now, v)))).

(** blocks until the time [t] *)
Definition until (t : time) : sect V unit :=
  Sect (λ now v, if decide (t ≤ now) then Some (tt, v) else None).

Definition time_Sleep (d : duration) : test V unit :=
  t ← time_Now; lift (OwnCode (until (t + d))).

(** A call with its answer; the code has no branch for the answer of another
    call. *)
Definition Enqueue (queue : string) (payload : string) (opts : list EnqueueOption) :
    test V (Err + Task) :=
  a ← lift (Call (CEnqueue queue (Some (String.list_byte_of_string payload)) opts));
  match a with AnsTask r => mret r | _ => Fatalf "panic" end.
Definition ListDeadTasks (queue : string) (limit offset : Z) : test V (Err + list Task) :=
  a ← lift (Call (CListDeadTasks queue limit offset));
  match a with AnsTasks r => mret r | _ => Fatalf "panic" end.
Definition RequeueDeadTask (queue taskID : string) : test V (option Err) :=
  a ← lift (Call (CRequeueDeadTask queue taskID));
  match a with AnsErr e => mret e | _ => Fatalf "panic" end.
Definition DeleteDeadTask (queue taskID : string) : test V (option Err) :=
  a ← lift (Call (CDeleteDeadTask queue taskID));
  match a with AnsErr e => mret e | _ => Fatalf "panic" end.
Definition Consume (queue : string) (h : handler V) (opts : list ConsumeOption) : test V (Err + nat) :=
  lift (ConsumeCall queue h opts).

(** A nil pointer or an index out of range. *)
Definition deref {A} (x : option A) : test V A :=
  match x with Some a => mret a | None => Fatalf "panic" end.

(** ** Helpers of the suite *)

Definition waitTimeout : duration := 15 * Second.
Definition pollEvery : duration := 10 * Millisecond.

Definition nextQueue : test V string :=
  n ← lift NextSeq; mret ("q" +:+ pretty n).

Definition fastBackoff : ConsumeOption := WithRetryBackoff (20 * Millisecond) (100 * Millisecond).

(** The loop of [waitFor]. Each round sleeps [pollEvery], so that the deadline
    passes within [wait_fuel] rounds. *)
Fixpoint wait_loop (fuel : nat) (deadline : time) (what : string) (cond : test V bool) : test V unit :=
  match fuel with
  | O => Fatalf "out of fuel"
  | S fuel =>
      now ← time_Now;
      if decide (now < deadline) then
        b ← cond;
        if (b : bool) then mret tt
        else (_ ← time_Sleep pollEvery; wait_loop fuel deadline what cond)
      else Fatalf ("timed out waiting for " +:+ what)
  end.

Definition wait_fuel : nat := Z.to_nat (waitTimeout / pollEvery + 1).

Definition waitFor (what : string) (cond : test V bool) : test V unit :=
  now ← time_Now; wait_loop wait_fuel (now + waitTimeout) what cond.

(** [sub.Stop(ctx)] with a context that expires after [waitTimeout] *)
Definition stop_within (k : nat) : test V (option string) :=
  now ← time_Now;
  _ ← lift (StopOnce k);
  lift (StopSelect k (now + waitTimeout)).

Definition stop (k : nat) : test V unit :=
  err ← stop_within k;
  fatal_if (bool_decide (is_Some err)) "Stop: %v".

(** A section of a handler's code under a mutex or on an atomic, and
    [time.Now()]. *)
Definition atomic {X} (f : V → X * V) : prog (sect V) X := Do (Sect (λ _ v, Some (f v))) Ret.
Definition Now : prog (sect V) time := Do (Sect (λ now v, Some (now, v))) Ret.

(** A handler that is one section of code. *)
Definition simple (g : time → Task → V → Outcome * V) : handler V := λ t,
  Do (Sect (λ now v, Some (g now t v))) Ret.
End statements.

#[global] Arguments wait_fuel : simpl never.

Definition nil_ : Outcome := Returned None.
Definition errors_New (s : string) : Outcome := Returned (Some s).

(** [string(b)] *)
Definition string_of (b : bytes) : string := String.string_of_list_byte (default [] b).

(** [n.Add(1)] on an [atomic.Int64], and [m[k]++] *)
Definition add1 (n : Z) : Z := wrap64 (n + 1).

(** ** The tests, each with its variables *)

Record got_vars := mkGot { got : option Task }.

Definition testEnqueueAndConsume : test got_vars unit :=
  queue ← nextQueue;
  r ← Enqueue queue "hello" [WithMetadata (Some {[ "trace" := "abc" ]})];
  enq ← check_err "Enqueue: %v" r;
  _ ← fatal_if (bool_decide (ID enq = "")) "Enqueue returned task without ID";
  _ ← fatal_if (negb (bool_decide (Queue enq = queue))) "task.Queue = %q, want %q";
  _ ← fatal_if (negb (bool_decide (MaxRetries enq = DefaultMaxRetries)))
        "task.MaxRetries = %d, want default %d";
  r ← Consume queue (simple (λ _ task _, (nil_, mkGot (Some task)))) [];
  sub ← check_err "Consume: %v" r;
  deferring (stop sub) (
    _ ← waitFor "task delivery" (read (λ v, bool_decide (is_Some (got v))));
    g ← read got;
    got ← deref g;
    _ ← fatal_if (negb (bool_decide (ID got = ID enq))) "delivered task ID = %q, want %q";
    _ ← fatal_if (negb (bool_decide (string_of (Payload got) = "hello"))) "payload = %q, want %q";
    _ ← fatal_if (negb (bool_decide (default "" (default ∅ (Metadata got) !! "trace") = "abc")))
          "metadata = %v, want trace=abc";
    fatal_if (negb (bool_decide (Attempts got = 1))) "attempts = %d, want 1").

Record delayed_vars := mkDelayed { delivered : Z; deliveredAt : option time }.

Definition delayed_handler : handler delayed_vars := λ _,
  now ← Now;
  _ ← atomic (λ v, (tt, mkDelayed (delivered v) (Some now)));
  _ ← atomic (λ v, (tt, mkDelayed (add1 (delivered v)) (deliveredAt v)));
  Ret nil_.

Definition testDelayedDelivery : test delayed_vars unit :=
  queue ← nextQueue;
  let delay := Second in
  r ← Consume queue delayed_handler [];
  sub ← check_err "Consume: %v" r;
  deferring (stop sub) (
    start ← time_Now;
    r ← Enqueue queue "later" [WithDelay delay];
    _ ← check_err "Enqueue: %v" r;
    _ ← time_Sleep (delay / 3);
    n ← read delivered;
    _ ← fatal_if (negb (bool_decide (n = 0))) "task delivered %d time(s) before its delay elapsed";
    _ ← waitFor "delayed delivery" (read (λ v, bool_decide (delivered v = 1)));
    a ← read deliveredAt;
    at_ ← deref a;
    fatal_if (bool_decide (time_Sub at_ start < delay - 50 * Millisecond))
      "task delivered after %v, want >= %v").

Record seen_vars := mkSeen { attemptsSeen : list Z }.

Definition count_from_1 (l : list Z) : bool := bool_decide (l = imap (λ i _, Z.of_nat i + 1) l).

Definition testRetryThenSucceed : test seen_vars unit :=
  queue ← nextQueue;
  r ← Consume queue (simple (λ _ task v,
        let v := mkSeen (attemptsSeen v ++ [Attempts task]) in
        let n := length (attemptsSeen v) in
        (if decide (n < 3)%nat then errors_New "transient failure" else nil_, v))) [fastBackoff];
  sub ← check_err "Consume: %v" r;
  deferring (stop sub) (
    r ← Enqueue queue "flaky" [];
    _ ← check_err "Enqueue: %v" r;
    _ ← waitFor "3 handler invocations" (read (λ v, bool_decide (3 ≤ length (attemptsSeen v))%nat));
    _ ← time_Sleep (300 * Millisecond);
    seen ← read attemptsSeen;
    _ ← fatal_if (negb (bool_decide (length seen = 3%nat))) "handler invoked %d times, want exactly 3";
    _ ← fatal_if (negb (count_from_1 seen)) "attemptsSeen = %v, want [1 2 3]";
    r ← ListDeadTasks queue 10 0;
    dead ← check_err "ListDeadTasks: %v" r;
    fatal_if (negb (bool_decide (length dead = 0%nat))) "dead tasks = %d, want 0").

(** The condition that [n] dead tasks are listed. *)
Definition dead_count {V} (queue : string) (n : nat) : test V bool :=
  r ← ListDeadTasks queue 10 0;
  dead ← check_err "ListDeadTasks: %v" r;
  mret (bool_decide (length dead = n)).

Record exhausted_vars := mkExhausted { invocations : Z; dead : list Task }.

Definition testRetriesExhausted : test exhausted_vars unit :=
  queue ← nextQueue;
  r ← Consume queue (simple (λ _ _ v,
        (errors_New "permanent failure", mkExhausted (add1 (invocations v)) (dead v)))) [fastBackoff];
  sub ← check_err "Consume: %v" r;
  deferring (stop sub) (
    r ← Enqueue queue "doomed" [WithMaxRetries 1];
    enq ← check_err "Enqueue: %v" r;
    _ ← waitFor "task in dead-letter queue" (
      r ← ListDeadTasks queue 10 0;
      d ← check_err "ListDeadTasks: %v" r;
      _ ← write (λ v, mkExhausted (invocations v) d);
      mret (bool_decide (length d = 1%nat)));
    _ ← time_Sleep (300 * Millisecond);
    n ← read invocations;
    _ ← fatal_if (negb (bool_decide (n = 2))) "handler invoked %d times, want exactly 2";
    l ← read dead;
    d ← deref (l !! 0%nat);
    _ ← fatal_if (negb (bool_decide (ID d = ID enq))) "dead task ID = %q, want %q";
    _ ← fatal_if (negb (bool_decide (string_of (Payload d) = "doomed"))) "dead payload = %q, want %q";
    _ ← fatal_if (bool_decide (LastError d = "")) "dead task LastError is empty";
    _ ← fatal_if (time_IsZero (DiedAt d)) "dead task DiedAt is zero";
    fatal_if (negb (bool_decide (Attempts d = 2))) "dead task Attempts = %d, want 2").

Record count_vars := mkCount { count : Z }.

Definition testZeroMaxRetries : test count_vars unit :=
  queue ← nextQueue;
  r ← Consume queue (simple (λ _ _ v, (errors_New "fails once", mkCount (add1 (count v))))) [fastBackoff];
  sub ← check_err "Consume: %v" r;
  deferring (stop sub) (
    r ← Enqueue queue "one-shot" [WithMaxRetries 0];
    _ ← check_err "Enqueue: %v" r;
    _ ← waitFor "task in dead-letter queue" (dead_count queue 1);
    _ ← time_Sleep (300 * Millisecond);
    n ← read count;
    fatal_if (negb (bool_decide (n = 1))) "handler invoked %d times, want exactly 1").

Record requeue_vars := mkRequeue { fail : bool; successAttempts : list Z }.

Definition requeue_handler : handler requeue_vars := λ task,
  failing ← atomic (λ v, (fail v, v));
  if (failing : bool) then Ret (errors_New "failing phase")
  else
    _ ← atomic (λ v, (tt, mkRequeue (fail v) (successAttempts v ++ [Attempts task])));
    Ret nil_.

Definition testRequeueDeadTask : test requeue_vars unit :=
  queue ← nextQueue;
  r ← Consume queue requeue_handler [fastBackoff];
  sub ← check_err "Consume: %v" r;
  deferring (stop sub) (
    r ← Enqueue queue "revive-me" [WithMaxRetries 0];
    enq ← check_err "Enqueue: %v" r;
    _ ← waitFor "task in dead-letter queue" (dead_count queue 1);
    e ← RequeueDeadTask queue "no-such-task";
    _ ← fatal_if (negb (bool_decide (e = Some ErrTaskNotFound)))
          "RequeueDeadTask(unknown) = %v, want ErrTaskNotFound";
    _ ← write (λ v, mkRequeue false (successAttempts v));
    e ← RequeueDeadTask queue (ID enq);
    _ ← fatal_if (bool_decide (is_Some e)) "RequeueDeadTask: %v";
    _ ← waitFor "requeued task success" (read (λ v, bool_decide (length (successAttempts v) = 1%nat)));
    l ← read successAttempts;
    n ← deref (l !! 0%nat);
    _ ← fatal_if (negb (bool_decide (n = 1))) "requeued task Attempts = %d, want 1 (counter reset)";
    r ← ListDeadTasks queue 10 0;
    dead ← check_err "ListDeadTasks: %v" r;
    fatal_if (negb (bool_decide (length dead = 0%nat))) "dead tasks after requeue = %d, want 0").

Definition testDeleteDeadTask : test unit unit :=
  queue ← nextQueue;
  r ← Consume queue (simple (λ _ _ v, (errors_New "always fails", v))) [fastBackoff];
  sub ← check_err "Consume: %v" r;
  deferring (stop sub) (
    r ← Enqueue queue "condemned" [WithMaxRetries 0];
    enq ← check_err "Enqueue: %v" r;
    _ ← waitFor "task in dead-letter queue" (dead_count queue 1);
    e ← DeleteDeadTask queue "no-such-task";
    _ ← fatal_if (negb (bool_decide (e = Some ErrTaskNotFound)))
          "DeleteDeadTask(unknown) = %v, want ErrTaskNotFound";
    e ← DeleteDeadTask queue (ID enq);
    _ ← fatal_if (bool_decide (is_Some e)) "DeleteDeadTask: %v";
    r ← ListDeadTasks queue 10 0;
    dead ← check_err "ListDeadTasks: %v" r;
    _ ← fatal_if (negb (bool_decide (length dead = 0%nat))) "dead tasks after delete = %d, want 0";
    e ← DeleteDeadTask queue (ID enq);
    fatal_if (negb (bool_decide (e = Some ErrTaskNotFound)))
      "DeleteDeadTask(again) = %v, want ErrTaskNotFound").

(** The enqueues of the pagination test, from the [i]-th on; the [n] that are
    left. *)
Fixpoint enqueue_dying (queue : string) (n i : nat) (ids : list string) : test unit (list string) :=
  match n with
  | O => mret ids
  | S n =>
      r ← Enqueue queue ("dead-" +:+ pretty i) [WithMaxRetries 0];
      enq ← check_err "Enqueue: %v" r;
      _ ← waitFor (pretty (i + 1)%nat +:+ " dead task(s)") (dead_count queue (i + 1));
      enqueue_dying queue n (i + 1) (ids ++ [ID enq])
  end.

Definition testListDeadTasksPagination : test unit unit :=
  queue ← nextQueue;
  r ← Consume queue (simple (λ _ _ v, (errors_New "always fails", v))) [fastBackoff; WithConcurrency 1];
  sub ← check_err "Consume: %v" r;
  deferring (stop sub) (
    ids ← enqueue_dying queue 3 0 [];
    r ← ListDeadTasks queue 10 0;
    all ← check_err "ListDeadTasks: %v" r;
    _ ← fatal_if (negb (bool_decide (length all = 3%nat))) "dead tasks = %d, want 3";
    _ ← fatal_if (negb (bool_decide (ID <$> all = ids))) "dead[%d].ID = %q, want %q (oldest first)";
    r ← ListDeadTasks queue 1 1;
    page ← check_err "ListDeadTasks(limit=1, offset=1): %v" r;
    _ ← fatal_if (negb (bool_decide (length page = 1%nat)) ||
                  negb (bool_decide (ID <$> page !! 0%nat = ids !! 1%nat)))
          "page = %+v, want single task %q";
    r ← ListDeadTasks queue 10 5;
    empty ← check_err "ListDeadTasks(offset beyond end): %v" r;
    fatal_if (negb (bool_decide (length empty = 0%nat))) "out-of-range page = %d tasks, want 0").

Record competing_vars := mkCompeting { seen : gmap string Z }.

Fixpoint enqueue_jobs (queue : string) (n i : nat) : test competing_vars unit :=
  match n with
  | O => mret tt
  | S n =>
      r ← Enqueue queue ("job-" +:+ pretty i) [];
      _ ← check_err "Enqueue: %v" r;
      enqueue_jobs queue n (i + 1)
  end.

Definition testCompetingConsumers : test competing_vars unit :=
  queue ← nextQueue;
  let total := 20%nat in
  let handler := simple (λ _ task v,
    (nil_, mkCompeting (<[ID task := add1 (default 0 (seen v !! ID task))]> (seen v)))) in
  r ← Consume queue handler [WithConcurrency 4];
  sub1 ← check_err "Consume #1: %v" r;
  deferring (stop sub1) (
    r ← Consume queue handler [WithConcurrency 4];
    sub2 ← check_err "Consume #2: %v" r;
    deferring (stop sub2) (
      _ ← enqueue_jobs queue total 0;
      _ ← waitFor "all tasks processed" (read (λ v, bool_decide (size (seen v) = total)));
      _ ← time_Sleep (300 * Millisecond);
      m ← read seen;
      fatal_if (negb (bool_decide (map_Forall (λ _ n, n = 1) m))) "task %s delivered %d times, want 1")).

Record isolated_vars := mkIsolated { deliveredA : Z; deliveredB : Z }.

Definition testQueuesAreIsolated : test isolated_vars unit :=
  queueA ← nextQueue;
  queueB ← nextQueue;
  r ← Consume queueA (simple (λ _ _ v, (nil_, mkIsolated (add1 (deliveredA v)) (deliveredB v)))) [];
  subA ← check_err "Consume A: %v" r;
  deferring (stop subA) (
    r ← Consume queueB (simple (λ _ _ v, (nil_, mkIsolated (deliveredA v) (add1 (deliveredB v))))) [];
    subB ← check_err "Consume B: %v" r;
    deferring (stop subB) (
      r ← Enqueue queueA "for-A" [];
      _ ← check_err "Enqueue: %v" r;
      _ ← waitFor "delivery on queue A" (read (λ v, bool_decide (deliveredA v = 1)));
      _ ← time_Sleep (300 * Millisecond);
      n ← read deliveredB;
      fatal_if (negb (bool_decide (n = 0))) "queue B received %d task(s), want 0")).

(** [started] is a channel that is closed once. *)
Record stop_vars := mkStop { started : bool; finished : bool }.

Definition slow_handler : handler stop_vars := λ _,
  ok ← atomic (λ v, (negb (started v), mkStop true (finished v)));
  if (ok : bool) then
    t ← Now;
    _ ← Do (until (t + 500 * Millisecond)) Ret;
    _ ← atomic (λ v, (tt, mkStop (started v) true));
    Ret nil_
  else Ret (Panicked "close of closed channel").

Definition testStopWaitsForInFlight : test stop_vars unit :=
  queue ← nextQueue;
  r ← Consume queue slow_handler [];
  sub ← check_err "Consume: %v" r;
  r ← Enqueue queue "slow" [];
  _ ← check_err "Enqueue: %v" r;
  now ← time_Now;
  ok ← lift (SelectAfter started (now + waitTimeout));
  _ ← fatal_if (negb ok) "timed out waiting for handler to start";
  err ← stop_within sub;
  _ ← fatal_if (bool_decide (is_Some err)) "Stop: %v";
  f ← read finished;
  _ ← fatal_if (negb f) "Stop returned before the in-flight handler finished";
  d ← lift (IsDone sub);
  fatal_if (negb d) "Done() not closed after Stop returned".

(** The tests of [Run], with the initial values of their variables. *)
Record testcase := mkTest { tc_name : string; tc_vars : Type; tc_init : tc_vars; tc_body : test tc_vars unit }.

Definition Run : list testcase := [
  mkTest "EnqueueAndConsume" got_vars (mkGot None) testEnqueueAndConsume;
  mkTest "DelayedDelivery" delayed_vars (mkDelayed 0 None) testDelayedDelivery;
  mkTest "RetryThenSucceed" seen_vars (mkSeen []) testRetryThenSucceed;
  mkTest "RetriesExhaustedGoToDeadLetter" exhausted_vars (mkExhausted 0 []) testRetriesExhausted;
  mkTest "ZeroMaxRetriesDiesAfterFirstFailure" count_vars (mkCount 0) testZeroMaxRetries;
  mkTest "RequeueDeadTask" requeue_vars (mkRequeue true []) testRequeueDeadTask;
  mkTest "DeleteDeadTask" unit tt testDeleteDeadTask;
  mkTest "ListDeadTasksPagination" unit tt testListDeadTasksPagination;
  mkTest "CompetingConsumersDeliverOnce" competing_vars (mkCompeting ∅) testCompetingConsumers;
  mkTest "QueuesAreIsolated" isolated_vars (mkIsolated 0 0) testQueuesAreIsolated;
  mkTest "StopWaitsForInFlightHandler" stop_vars (mkStop false false) testStopWaitsForInFlight
].
