(* ===== verification/SuiteHarness.v ===== *)
(** * The harness of the conformance suite

    Runs a test of [Suite] against any [Backend]: an event lets the backend, a
    handler or the test itself go on, so that an execution is an interleaving
    of them. *)

From stdpp Require Import base tactics list numbers option gmap strings.
From S2P Require Import Prelude GoRuntime Contract Options Effects WorkQueueSpec Suite.

(** ** The state of a test *)

(** What handlers and the test share, and the handlers that are running. *)
Record core (V : Type) := mkCore {
  c_vars : V;
  c_seq : Z;                                       (** [queueSeq] *)
  c_handlers : list (handler V);                   (** by subscription *)
  c_insts : gmap nat (prog (sect V) Outcome)       (** by worker *)
}.

Arguments mkCore {V} _ _ _ _.
Arguments c_vars {V} _.
Arguments c_seq {V} _.
Arguments c_handlers {V} _.
Arguments c_insts {V} _.

(** The test's goroutine: about to go on, or in a call. *)
Inductive goroutine (V : Type) :=
  | At (p : test V unit)
  | InCall (k : answer → test V unit).

Arguments At {V} p.
Arguments InCall {V} k.

Section harness.
Context {V : Type}.

Definition set_vars (v : V) (c : core V) : core V :=
  mkCore v (c_seq c) (c_handlers c) (c_insts c).
Definition set_inst (i : nat) (p : prog (sect V) Outcome) (c : core V) : core V :=
  mkCore (c_vars c) (c_seq c) (c_handlers c) (<[i:=p]> (c_insts c)).
Definition del_inst (i : nat) (c : core V) : core V :=
  mkCore (c_vars c) (c_seq c) (c_handlers c) (delete i (c_insts c)).
Definition add_handler (h : handler V) (c : core V) : core V :=
  mkCore (c_vars c) (c_seq c) (c_handlers c ++ [h]) (c_insts c).

Definition handler_of (k : nat) (c : core V) : option (handler V) := c_handlers c !! k.

(** A section of code at a time. *)
Definition do_sect {X} (s : sect V X) : time → V → option (X * V) :=
  match s with Sect f => f end.

(** ** The test goes on *)

(** What it asks of the backend. *)
Inductive request :=
  | Nothing
  | AskConsume (queue : string) (opts : list ConsumeOption)
  | AskStop (k : nat).

(** An effect other than a call, given what is known of the backend; where a
    [select] has two cases that are ready, [b] says which is taken. *)
Definition main_effect (b : bool) {X} (e : teff V X) (v : view) (c : core V) :
    option (X * core V * request) :=
  match e in teff _ X return option (X * core V * request) with
  | OwnCode s =>
      match do_sect s (v_now v) (c_vars c) with
      | Some (x, vars) => Some (x, set_vars vars c, Nothing)
      | None => None
      end
  | Call _ => None
  | ConsumeCall q h opts =>
      Some (inr (length (c_handlers c)), add_handler h c, AskConsume q opts)
  | StopOnce k => Some (tt, c, AskStop k)
  | StopSelect k deadline =>
      if b then
        match v_subs v !! k with
        | Some s => if sub_done s then Some (None, c, Nothing) else None
        | None => None
        end
      else if decide (deadline ≤ v_now v)
           then Some (Some "context deadline exceeded", c, Nothing) else None
  | IsDone k =>
      match v_subs v !! k with
      | Some s => Some (sub_done s, c, Nothing)
      | None => None
      end
  | SelectAfter ready deadline =>
      if b then if ready (c_vars c) then Some (true, c, Nothing) else None
      else if decide (deadline ≤ v_now v) then Some (false, c, Nothing) else None
  | NextSeq =>
      let n := wrap64 (c_seq c + 1) in
      Some (n, mkCore (c_vars c) n (c_handlers c) (c_insts c), Nothing)
  end.

Definition as_call {X} (e : teff V X) : option (call * (answer → X)) :=
  match e in teff _ X return option (call * (answer → X)) with
  | Call cl => Some (cl, λ a, a)
  | _ => None
  end.

(** What an action of the backend is to the test: a handler is called with a
    task, or the call it waits for returns. *)
Definition show_core (a : action) (c : core V) : core V :=
  match a with
  | Invoked i k t =>
      match handler_of k c with Some h => set_inst i (h t) c | None => c end
  | _ => c
  end.

Definition show_main (a : action) (m : goroutine V) : goroutine V :=
  match a, m with Answered ans, InCall k => At (k ans) | _, _ => m end.

(** ** Executions *)

Inductive hevent (E : Type) :=
  | Internal (e : E)          (** the backend goes on *)
  | Handler (i : nat)         (** the handler that worker [i] called goes on *)
  | Return (i : nat)          (** and returns *)
  | Main (b : bool).          (** the test goes on *)

#[global] Arguments Internal {E} e.
#[global] Arguments Handler {E} i.
#[global] Arguments Return {E} i.
#[global] Arguments Main {E} b.

Context {W : Type} `{Backend W}.

Record hstate := mkHState { h_backend : W; h_core : core V; h_main : goroutine V }.

Definition show (l : list action) (w : W) (c : core V) (m : goroutine V) : hstate :=
  mkHState w (foldl (flip show_core) c l) (foldl (flip show_main) m l).

Definition ask (r : request) (w : W) : option W :=
  match r with
  | Nothing => Some w
  | AskConsume q opts => b_consume q opts w
  | AskStop k => b_stop k w
  end.

Definition main_step (b : bool) (s : hstate) : option hstate :=
  let '(mkHState w c m) := s in
  match m with
  | InCall _ => None
  | At (Ret _) => None
  | At (Do e k) =>
      match as_call e with
      | Some (cl, f) => w ← b_call cl w; Some (mkHState w c (InCall (λ a, k (f a))))
      | None =>
          '(x, c, r) ← main_effect b e (b_view w) c;
          w ← ask r w;
          Some (mkHState w c (At (k x)))
      end
  end.

Definition hstep (e : hevent b_event) (s : hstate) : option hstate :=
  let '(mkHState w c m) := s in
  match e with
  | Internal e => '(w, l) ← b_internal e w; Some (show l w c m)
  | Handler i =>
      p ← c_insts c !! i;
      match p with
      | Ret _ => None
      | Do s k =>
          '(x, vars) ← do_sect s (v_now (b_view w)) (c_vars c);
          Some (mkHState w (set_inst i (k x) (set_vars vars c)) m)
      end
  | Return i =>
      p ← c_insts c !! i;
      match p with
      | Ret o => '(w, l) ← b_return i o w; Some (show l w (del_inst i c) m)
      | Do _ _ => None
      end
  | Main b => main_step b s
  end.

(** A test on a fresh backend, when [n] queue names have been given. *)
Definition hstart (w : W) (n : Z) (vars : V) (body : test V unit) : hstate :=
  mkHState w (mkCore vars n [] ∅) (At body).

(** How a test that has ended has ended: the messages it failed with. *)
Definition verdict (s : hstate) : option (list string) :=
  match h_main s with
  | At (Ret (inr _)) => Some []
  | At (Ret (inl ms)) => Some ms
  | _ => None
  end.
End harness.

#[global] Arguments hstate V W : clear implicits.
