(* ===== verification/SuiteLogic.v ===== *)
(** * A program logic for the conformance suite

    What holds between two steps of a test must be stable: kept by everything
    the workers, the clock and the running handlers can do meanwhile. [wp] says
    that a test is safe from a state on, one stable assertion per step, and
    [wp_sound] that then no execution on any backend that keeps [BackendLaws]
    ends in a failure the postcondition excludes. *)

From stdpp Require Import base tactics list numbers option gmap strings.
From S2P Require Import Prelude GoRuntime Contract Options Effects Memory MemorySpec WorkQueueSpec Suite SuiteHarness.

#[local] Set Default Proof Using "Type*".

(** ** Views *)

#[export] Instance view_eq_refl : Reflexive view_eq.
Proof. by intros v. Qed.

Lemma view_eq_set_call x v : view_eq v (set_call x v).
Proof. by split. Qed.

Section logic.
Context {V : Type}.

(** ** What always holds *)

Record wf (v : view) (c : core V) : Prop := {
  wf_now : zeroTime < v_now v;
  wf_len : length (v_subs v) = length (c_handlers c);
  wf_inst i : is_Some (c_insts c !! i) ↔ ∃ k t, v_running v i = Some (k, t, Busy);
  (** a delivery is of its pool's queue, and the pool is not done *)
  wf_open i k t st : v_running v i = Some (k, t, st) →
    ∃ s, v_subs v !! k = Some s ∧ sub_done s = false ∧ Queue t = sub_queue s
}.

(** A step of the workers, the clock or a handler. *)
Inductive other : view → core V → view → core V → Prop :=
  | Other_view v v' c : view_eq v v' → other v c v' c
  | Other_action a v c :
      internal a = true → (∀ x t u, a ≠ Served x t u) → guard a v →
      other v c (apply a v) (show_core a c)
  | Other_sect i X (f : time → V → option (X * V)) k x vars v c :
      c_insts c !! i = Some (Do (Sect f) k) → f (v_now v) (c_vars c) = Some (x, vars) →
      other v c v (set_inst i (k x) (set_vars vars c))
  | Other_return i o v c :
      c_insts c !! i = Some (Ret o) → guard (Left i o) v →
      other v c (apply (Left i o) v) (del_inst i c).

Definition assertion : Type := view → core V → Prop.

Definition stable (P : assertion) : Prop :=
  ∀ v c v' c', wf v c → P v c → other v c v' c' → P v' c'.

(** *** It is kept *)

Lemma wf_view v v' c : view_eq v v' → wf v c → wf v' c.
Proof.
  intros [Hn _ _ Hr Hs _] [Hnow Hlen Hinst Hsub].
  split; rewrite ?Hn, ?Hs; try done.
  - intros i. by rewrite Hr.
  - intros i k t st. rewrite Hr. apply Hsub.
Qed.

(** Only the clock, the deliveries and the subscriptions matter. *)
Lemma wf_fields v v' c :
  v_now v ≤ v_now v' → v_running v' = v_running v → v_subs v' = v_subs v → wf v c → wf v' c.
Proof. intros Hn Hr Hs [Hnow ???]. split; rewrite ?Hr, ?Hs; try done. lia. Qed.

(** A worker goes from one stage to another. *)
Lemma wf_running i r v c c' :
  c_handlers c' = c_handlers c →
  (∀ j, j ≠ i → c_insts c' !! j = c_insts c !! j) →
  (is_Some (c_insts c' !! i) ↔ ∃ k t, r = Some (k, t, Busy)) →
  (∀ k t st, r = Some (k, t, st) →
     ∃ s, v_subs v !! k = Some s ∧ sub_done s = false ∧ Queue t = sub_queue s) →
  wf v c → wf (set_running i r v) c'.
Proof.
  intros Hh Hj Hi Hr [Hnow Hlen Hinst Hsub]. split; simpl.
  - done.
  - by rewrite Hh.
  - intros j. destruct (decide (j = i)) as [->|Hne]; [by rewrite upd_eq|]. by rewrite upd_ne, Hj.
  - intros j k t st. destruct (decide (j = i)) as [->|Hne]; [|rewrite upd_ne by done; by apply Hsub].
    rewrite upd_eq. apply Hr.
Qed.

Lemma wf_idle v c i k t st :
  wf v c → v_running v i = Some (k, t, st) → st ≠ Busy → c_insts c !! i = None.
Proof.
  intros Hwf Hi Hst. apply eq_None_not_Some. rewrite (wf_inst _ _ Hwf). rewrite Hi.
  by intros (? & ? & [= _ _ ->]).
Qed.

Lemma wf_serve v c cl at_ uuid : wf v c → wf (serve cl at_ uuid v).2 c.
Proof.
  apply wf_fields; destruct cl; simpl; try destruct (find_dead _ _) as [[]|]; try done; simpl; lia.
Qed.

Lemma wf_settle o t e at_ v c : wf v c → wf (settle o t e at_ v) c.
Proof. unfold settle. apply wf_fields; case_decide; try done; simpl; lia. Qed.

Lemma wf_settled i at_ v c : guard (Settled i at_) v → wf v c → wf (apply (Settled i at_) v) c.
Proof.
  simpl. intros (k & t & r & err & s & Hi & Hat & Hs) Hwf. rewrite Hi.
  assert (wf (set_running i None v) c) as Hn.
  { apply (wf_running i None v c c); [done|done| |done|done].
    rewrite (wf_inst _ _ Hwf), Hi. split; [by intros (?&?&?)|by intros (?&?&[=])]. }
  destruct err as [e|]; [|done]. rewrite Hs. by apply wf_settle.
Qed.

(** A flag of a subscription. *)
Lemma wf_alter f k v c :
  (∀ s, v_subs v !! k = Some s → sub_done (f s) = true →
     sub_done s = true ∨ ∀ i t st, v_running v i ≠ Some (k, t, st)) →
  (∀ s, sub_queue (f s) = sub_queue s) →
  wf v c → wf (set_subs (alter f k (v_subs v)) v) c.
Proof.
  intros Hf Hq [Hnow Hlen Hinst Hsub]. split; simpl; try done.
  - by rewrite length_alter.
  - intros i k' t st Hi. destruct (Hsub _ _ _ _ Hi) as (s & Hs & Hd & Hqs).
    destruct (decide (k' = k)) as [->|Hne]; [|exists s; by rewrite list_lookup_alter_ne].
    exists (f s). rewrite list_lookup_alter_eq, Hs, Hq. split_and!; [done| |done].
    destruct (sub_done (f s)) eqn:Hf'; [|done]. exfalso.
    destruct (Hf s Hs Hf') as [Hd'|Hno]; [congruence|by eapply Hno].
Qed.

Lemma wf_action a v c : internal a = true → guard a v → wf v c → wf (apply a v) (show_core a c).
Proof.
  intros Ha Hg Hwf. destruct a as [d|i k t rest|i k t|i o|i at_|cl|x at_ u|x|q o|k|k]; try done; simpl in Hg.
  - simpl. eapply wf_fields; [..|exact Hwf]; simpl; [lia|done|done].
  - destruct Hg as (Hi & s & Hs & Hd & Hq & _). simpl.
    apply (wf_running i _ (set_pending (Queue t) rest v) c c); [done|done| | |].
    + rewrite (wf_inst _ _ Hwf), Hi. split; [by intros (?&?&?)|by intros (?&?&[=])].
    + intros ??? [= <- <- <-]. eauto.
    + eapply wf_fields; [..|exact Hwf]; try done; simpl; lia.
  - destruct (wf_open _ _ Hwf _ _ _ _ Hg) as (s & Hs & Hd).
    assert (is_Some (handler_of k c)) as [h Hh].
    { apply lookup_lt_is_Some_2. rewrite <- (wf_len _ _ Hwf). by eapply lookup_lt_Some. }
    unfold show_core, apply. rewrite Hh. apply (wf_running i _ v c); simpl; [done| | | |done].
    + intros j Hj. by rewrite lookup_insert_ne.
    + rewrite lookup_insert_eq. split; eauto.
    + intros ??? [= <- <- <-]. eauto.
  - by apply wf_settled.
  - destruct Hg as (since & cl & Hc & _). simpl. rewrite Hc.
    eapply wf_fields; [..|by apply (wf_serve v c cl at_ u)]; try done; simpl; lia.
  - eapply wf_fields; [..|exact Hwf]; try done; simpl; lia.
  - destruct Hg as [_ Hno]. apply wf_alter; [|done..]. intros s _ _. by right.
Qed.

Lemma wf_left i o v c :
  c_insts c !! i = Some (Ret o) → guard (Left i o) v → wf v c → wf (apply (Left i o) v) (del_inst i c).
Proof.
  intros Hi (k & t & Hr) Hwf. simpl. rewrite Hr. apply (wf_running i _ v c); simpl; [done| | | |done].
  - intros j Hj. by rewrite lookup_delete_ne.
  - rewrite lookup_delete_eq. split; [by intros [??]|by intros (?&?&[=])].
  - intros ??? [= <- <- <-]. by eapply (wf_open _ _ Hwf).
Qed.

Lemma wf_other v c v' c' : wf v c → other v c v' c' → wf v' c'.
Proof.
  intros Hwf Ho. destruct Ho as [v v' c Heq|a v c Ha _ Hg|i X f k x vars v c Hi Hf|i o v c Hi Hg].
  - by eapply wf_view.
  - by apply wf_action.
  - destruct Hwf as [Hnow Hlen Hinst Hsub]. split; try done. intros j. rewrite <- Hinst. simpl.
    destruct (decide (j = i)) as [->|]; [|by rewrite lookup_insert_ne].
    rewrite lookup_insert_eq, Hi. split; eauto.
  - by apply wf_left.
Qed.

(** ** Safe programs *)

(** What a request does to the view. *)
Definition asked (r : request) : list action :=
  match r with
  | Nothing => []
  | AskConsume q opts => [Subscribed q (NewConsumeOptions opts)]
  | AskStop k => [Stopped k]
  end.

Definition after (r : request) (v : view) : view := foldl (flip apply) v (asked r).

Definition possible (r : request) (v : view) : Prop :=
  match r with AskStop k => is_Some (v_subs v !! k) | _ => True end.

(** Wherever an execution of [p] from here stops, [Q] holds of its result and
    the state: before each effect a stable assertion holds that its step takes
    to a safe state. A call takes effect at a moment after it began. *)
Fixpoint wp {A} (p : prog (teff V) A) (Q : A → assertion) (v : view) (c : core V) : Prop :=
  ∃ P : assertion, stable P ∧ P v c ∧
    match p with
    | Ret a => ∀ v c, wf v c → P v c → Q a v c
    | Do e k =>
        match as_call e with
        | Some (cl, f) => ∀ v0 c0 v c at_ uuid,
            wf v0 c0 → P v0 c0 → wf v c → P v c → v_now v0 ≤ at_ ≤ v_now v →
            uuid_fresh uuid (call_queue cl) v →
            wp (k (f (serve cl at_ uuid v).1)) Q (serve cl at_ uuid v).2 c
        | None => ∀ v c b x c' r,
            wf v c → P v c → main_effect b e v c = Some (x, c', r) → possible r v →
            wp (k x) Q (after r v) c'
        end
    end.

Lemma main_effect_core b {X} (e : teff V X) v c x c' r :
  main_effect b e v c = Some (x, c', r) →
  c_insts c' = c_insts c ∧
  length (c_handlers c') =
    (length (c_handlers c) + match r with AskConsume _ _ => 1 | _ => 0 end)%nat.
Proof.
  destruct e; simpl; intros He; repeat case_match; simplify_eq; simpl; rewrite ?length_app; simpl; split; done || lia.
Qed.

Lemma wf_main b {X} (e : teff V X) v c x c' r :
  wf v c → main_effect b e v c = Some (x, c', r) → possible r v → wf (after r v) c'.
Proof.
  intros Hwf (Hi & Hl)%main_effect_core Hr.
  assert (∀ v', wf v' c → length (v_subs v') = length (c_handlers c') → wf v' c') as Hc.
  { intros v' [???] Hlen. split; try done. by rewrite Hi. }
  destruct r as [|q o|k]; cbn.
  - apply Hc; [done|]. rewrite Hl, (wf_len _ _ Hwf). lia.
  - destruct Hwf as [Hnow Hlen Hinst Hsub]. split; simpl; try done.
    + rewrite length_app, Hlen, Hl. done.
    + intros i. by rewrite Hi.
    + intros i k t st Hk. destruct (Hsub _ _ _ _ Hk) as (s & Hs & Hd). exists s. split; [|done].
      by apply lookup_app_l_Some.
  - apply Hc; [|by simpl; rewrite length_alter, Hl, (wf_len _ _ Hwf); lia].
    apply wf_alter; [|done..]. intros s _. by left.
Qed.

Lemma wp_other {A} (p : prog (teff V) A) Q v c v' c' :
  wf v c → wp p Q v c → other v c v' c' → wp p Q v' c'.
Proof.
  intros Hwf Hp Ho. destruct p; destruct Hp as (P & HP & Hv & Hp); exists P; split_and!; try done;
    by eapply HP.
Qed.

Lemma wp_bind {A B} (f : A → prog (teff V) B) p Q v c :
  wf v c → wp p (λ a, wp (f a) Q) v c → wp (bind f p) Q v c.
Proof.
  revert v c. induction p as [a|X e k IH]; intros v c Hwf (P & HP & Hv & Hp); simpl; [by apply Hp|].
  exists P. split_and!; [done..|]. destruct (as_call e) as [[cl g]|].
  - intros v0 c0 v1 c1 at_ uuid H0 H1 H2 H3 H4 H5. apply IH; [by apply wf_serve|].
    exact (Hp v0 c0 v1 c1 at_ uuid H0 H1 H2 H3 H4 H5).
  - intros v1 c1 b x c' r Hwf1 Hv1 He Hr. apply IH; [|by eapply Hp].
    by eapply wf_main.
Qed.

(** ** Soundness *)

Section sound.
Context (Q : list string + unit → assertion).

(** A call that the backend has not served: the premise of [wp]. *)
Definition waiting (since : time) (cl : call) (k : answer → test V unit) : assertion := λ v c,
  ∃ P : assertion, stable P ∧ P v c ∧ (∃ v0 c0, wf v0 c0 ∧ P v0 c0 ∧ v_now v0 = since) ∧
    ∀ v0 c0 v c at_ uuid, wf v0 c0 → P v0 c0 → wf v c → P v c → v_now v0 ≤ at_ ≤ v_now v →
      uuid_fresh uuid (call_queue cl) v →
      wp (k (serve cl at_ uuid v).1) Q (serve cl at_ uuid v).2 c.

Definition safe_at (v : view) (c : core V) (m : goroutine V) : Prop :=
  wf v c ∧
  match m with
  | At p => v_call v = None ∧ wp p Q v c
  | InCall k => ∃ since cl,
      (v_call v = Some (since, cl, None) ∧ waiting since cl k v c) ∨
      (∃ a, v_call v = Some (since, cl, Some a) ∧ wp (k a) Q v c)
  end.

Lemma waiting_other since cl k v c v' c' :
  wf v c → waiting since cl k v c → other v c v' c' → waiting since cl k v' c'.
Proof. intros Hwf (P & HP & Hv & Hrest) Ho. exists P. split_and!; [done|by eapply HP|apply Hrest..]. Qed.

(** A step that is not the client's leaves the test safe. *)
Lemma safe_other v c m v' c' :
  other v c v' c' → v_call v' = v_call v → safe_at v c m → safe_at v' c' m.
Proof.
  intros Ho Hc [Hwf Hm]. split; [by eapply wf_other|]. destruct m as [p|k]; rewrite Hc.
  - destruct Hm. split; [done|by eapply wp_other].
  - destruct Hm as (since & cl & [[Hs Hw]|(a & Hs & Hp)]); exists since, cl; [left|right; exists a].
    + split; [done|by eapply waiting_other].
    + split; [done|by eapply wp_other].
Qed.

Lemma apply_call a v :
  internal a = true → guard a v → (∀ x t u, a ≠ Served x t u) → (∀ x, a ≠ Answered x) →
  v_call (apply a v) = v_call v.
Proof.
  intros Hi Hg Hs Ha. destruct a; try done; simpl.
  - destruct (v_running v i) as [[[k t] [| |r [e|]]]|]; try done.
    destruct (v_subs v !! k); [|done]. unfold settle. by case_decide.
  - by edestruct Hs.
  - by edestruct Ha.
Qed.

Lemma safe_action a v c m :
  internal a = true → guard a v → safe_at v c m →
  safe_at (apply a v) (show_core a c) (show_main a m).
Proof.
  intros Hi Hg Hsafe. destruct a as [d|i k t rest|i k t|i o|i at_|cl|x at_ u|x|q o|k|k] eqn:Ha; try done;
    try (rewrite <- Ha in *; eapply (safe_other v c); [|by apply apply_call; subst|by subst];
         apply Other_action; by subst).
  - (* the call takes effect *)
    simpl in Hg. destruct Hg as (since & cl & Hc & Hat & Hu & Hx). destruct Hsafe as [Hwf Hm]. split.
    { apply (wf_action (Served x at_ u) v c); [done| |done]. simpl. eauto 8. }
    destruct m as [p|k]; simpl in *; rewrite Hc in *; [by destruct Hm|].
    destruct Hm as (since' & cl' & [[[= <- <-] Hw]|(a' & [=] & _)]).
    exists since, cl. right. exists x. split; [done|].
    destruct Hw as (P & HP & Hv & (v0 & c0 & Hwf0 & H0 & Hn0) & Hrule).
    eapply wp_other; [by apply (wf_serve v c cl at_ u)| |apply Other_view, view_eq_set_call].
    subst x. apply (Hrule v0 c0); try done. lia.
  - (* and returns *)
    simpl in Hg. destruct Hg as (since & cl & Hc). destruct Hsafe as [Hwf Hm].
    assert (wf (set_call None v) c) as Hwf'.
    { eapply wf_other; [exact Hwf|]. apply Other_view, view_eq_set_call. }
    split; [done|]. destruct m as [p|k]; simpl in *; rewrite Hc in *; [by destruct Hm|].
    destruct Hm as (since' & cl' & [[[=] _]|(a' & [= <- <- <-] & Hp)]).
    split; [done|]. eapply wp_other; [exact Hwf|exact Hp|]. apply Other_view, view_eq_set_call.
Qed.

Lemma safe_does l v v' c m :
  forallb internal l = true → does l v v' → safe_at v c m →
  safe_at v' (foldl (flip show_core) c l) (foldl (flip show_main) m l).
Proof.
  revert v c m. induction l as [|a l IH]; intros v c m Hl Hd Hs; simpl in *.
  - destruct Hd as [Heq Hc]. eapply safe_other; [by apply Other_view|done|done].
  - apply andb_prop in Hl as [Ha Hl]. destruct Hd as [Hg Hd]. eapply IH; [done|exact Hd|].
    by apply safe_action.
Qed.

Context {W : Type} `{BackendLaws W}.

Definition safe (s : hstate V W) : Prop :=
  b_ok (h_backend s) ∧ safe_at (b_view (h_backend s)) (h_core s) (h_main s).

(** A request of the test. *)
Lemma ask_law r w w' :
  b_ok w → ask r w = Some w' →
  b_ok w' ∧ possible r (b_view w) ∧ view_eq (after r (b_view w)) (b_view w') ∧
  v_call (b_view w') = v_call (b_view w).
Proof.
  intros Hw Ha. destruct r as [|q o|k]; simpl in Ha.
  - injection Ha as <-. done.
  - destruct (law_consume q o w w' Hw Ha) as (Hw' & _ & Hv & Hc). by split_and!.
  - destruct (law_stop k w w' Hw Ha) as (Hw' & Hg & Hv & Hc). by split_and!.
Qed.

Lemma safe_main b w c m s' :
  b_ok w → safe_at (b_view w) c m → main_step b (mkHState w c m) = Some s' → safe s'.
Proof.
  intros Hw [Hwf Hm] Hs. simpl in Hs. destruct m as [[r|X e k]|]; try done.
  destruct Hm as [Hnone (P & HP & Hv & Hp)]. destruct (as_call e) as [[cl f]|].
  - apply bind_Some in Hs as (w' & Hc & [= <-]). destruct (law_call cl w w' Hw Hc) as (Hw' & _ & Heq & Hc').
    split; [done|]. simpl in Heq, Hc'.
    assert (other (b_view w) c (b_view w') c) as Ho.
    { apply Other_view. destruct Heq. by split. }
    split; [by eapply wf_other|]. exists (v_now (b_view w)), cl. left. split; [done|].
    exists P. split_and!; [done|by eapply HP|by exists (b_view w), c|done].
  - apply bind_Some in Hs as ([[x c'] r] & He & Hs). apply bind_Some in Hs as (w' & Ha & [= <-]).
    destruct (ask_law r w w' Hw Ha) as (Hw' & Hr & Heq & Hc).
    assert (wf (after r (b_view w)) c') as Hwf' by (by eapply wf_main).
    split; [done|]. split; [by eapply wf_other; [|by apply Other_view]|].
    split; [simpl; congruence|]. eapply wp_other; [exact Hwf'| |by apply Other_view].
    by eapply Hp.
Qed.

Lemma safe_step e s s' : safe s → hstep e s = Some s' → safe s'.
Proof.
  destruct s as [w c m]. intros [Hw Hs] He. simpl in Hw, Hs. destruct e as [e|i|i|b]; simpl in He.
  - apply bind_Some in He as ([w' l] & He & [= <-]).
    destruct (law_internal e w w' l Hw He) as (Hw' & Hl & Hd). split; [done|]. by eapply safe_does.
  - apply bind_Some in He as (p & Hp & He). destruct p as [o|X [X' f] k]; [done|].
    apply bind_Some in He as ([x vars] & Hf & [= <-]). split; [done|].
    eapply safe_other; [by eapply Other_sect|done|done].
  - apply bind_Some in He as (p & Hp & He). destruct p as [o|X e k]; [|done].
    apply bind_Some in He as ([w' l] & He & [= <-]).
    destruct (law_return i o w w' l Hw He) as (Hw' & Hl & Hg & Hd). split; [done|].
    eapply safe_does; [done|exact Hd|]. eapply safe_other; [by apply Other_return| |done].
    destruct Hg as (k & t & Hk). simpl. by rewrite Hk.
  - by eapply safe_main.
Qed.

(** No execution of a test ends but as the postcondition says. *)
Theorem wp_sound w n vars body s ms :
  b_ok w → zeroTime < v_now (b_view w) → v_subs (b_view w) = [] →
  (∀ i, v_running (b_view w) i = None) → v_call (b_view w) = None →
  wp body Q (b_view w) (mkCore vars n [] ∅) →
  reachable hstep (hstart w n vars body) s → verdict s = Some ms →
  ∃ r, Q r (b_view (h_backend s)) (h_core s) ∧
    ms = match r with inl ms => ms | inr _ => [] end.
Proof.
  intros Hw Hnow Hsubs Hrun Hcall Hwp Hreach Hv.
  assert (safe s) as [_ [Hwf Hm]].
  { eapply (reachable_invariant hstep safe); [| |exact Hreach].
    - intros e s1 s2. apply safe_step.
    - split; [done|]. split; [|done]. split; simpl.
      + done.
      + by rewrite Hsubs.
      + intros i. rewrite lookup_empty, Hrun. split; [by intros [??]|by intros (?&?&?)].
      + intros i k t st. by rewrite Hrun. }
  unfold verdict in Hv. destruct (h_main s) as [[r|X e k]|]; try done.
  destruct Hm as (_ & P & HP & HPs & Hq). exists r. split; [by apply Hq|]. by destruct r; simplify_eq.
Qed.
End sound.
End logic.
