(* ===== verification/SuiteRules.v ===== *)
(** * Rules for the tests of the conformance suite

    One rule per statement of a test, derived from [SuiteLogic.wp]. [F] says
    which messages a test may end with, and when. *)

From stdpp Require Import base tactics list numbers option gmap strings.
From S2P Require Import Prelude GoRuntime Contract Options Effects Memory MemorySpec WorkQueueSpec Suite SuiteHarness SuiteLogic.

#[local] Set Default Proof Using "Type*".

#[global] Arguments wp : simpl never.

(** ** Statements that do not fail *)

Lemma check_ok {V A B} msg (a : A) (k : A → test V B) : check_err msg (inr a) ≫= k = k a.
Proof. done. Qed.

Lemma fatal_ok {V B} (b : bool) msg (k : unit → test V B) : b = false → fatal_if b msg ≫= k = k tt.
Proof. by intros ->. Qed.

Lemma deref_ok {V A B} (x : option A) a (k : A → test V B) : x = Some a → deref x ≫= k = k a.
Proof. by intros ->. Qed.

Lemma negb_decide (φ : Prop) `{Decision φ} : φ → negb (bool_decide φ) = false.
Proof. intros Hφ. by rewrite bool_decide_true. Qed.

Section stable.
Context {V : Type}.
Implicit Types (P Q : assertion (V := V)) (v : view) (c : core V).

Lemma serve_now cl at_ uuid v : v_now (serve cl at_ uuid v).2 = v_now v.
Proof. destruct cl; simpl; repeat case_match; done. Qed.

Lemma other_time v c v' c' : other v c v' c' → v_now v ≤ v_now v'.
Proof.
  intros Ho. destruct Ho as [v v' c Heq|a v c Ha _ Hg|i X f k x vars v c Hi Hf|i o v c Hi Hg].
  - destruct Heq as [-> _ _ _ _ _]. lia.
  - destruct a as [d|i k t rest|i k t|i o|i at_|cl|x at_ u|x|q o|k|k]; simpl in *; try lia.
    + repeat case_match; unfold settle; try case_decide; simpl; lia.
    + destruct (v_call v) as [[[since cl] y]|]; simpl; [|lia]. rewrite serve_now. lia.
  - lia.
  - simpl. repeat case_match; simpl; lia.
Qed.

Lemma stable_mono (R : time → Prop) :
  (∀ t t', t ≤ t' → R t → R t') → stable (V := V) (λ v c, R (v_now v)).
Proof. intros HR v c v' c' _ Ht Ho%other_time. by eapply HR. Qed.

Lemma stable_time t : stable (V := V) (λ v c, t ≤ v_now v).
Proof. apply (stable_mono (λ n, t ≤ n)). lia. Qed.

Lemma stable_and P Q : stable P → stable Q → stable (λ v c, P v c ∧ Q v c).
Proof. intros HP HQ v c v' c' Hwf [Hp Hq] Ho. split; [by eapply HP|by eapply HQ]. Qed.

Lemma stable_pure (φ : Prop) : stable (V := V) (λ _ _, φ).
Proof. by intros v c v' c' _ H _. Qed.

Lemma Forall_mono {A} (R : A → time → Prop) l t t' :
  (∀ a t t', t ≤ t' → R a t → R a t') → t ≤ t' → Forall (λ a, R a t) l → Forall (λ a, R a t') l.
Proof. intros HR Hle Hall. eapply Forall_impl; [exact Hall|]. intros a. by apply HR. Qed.

Lemma stable_Forall {A} (R : A → time → Prop) l :
  (∀ a t t', t ≤ t' → R a t → R a t') → stable (V := V) (λ v c, Forall (λ a, R a (v_now v)) l).
Proof. intros HR. apply (stable_mono (λ t, Forall (λ a, R a t) l)). intros t t'. by apply Forall_mono. Qed.
End stable.

Section rules.
Context {V : Type} (F : string → time → Prop) (HF : ∀ m t t', t ≤ t' → F m t → F m t').

(** A test ends with an allowed message or as [Q] says. *)
Definition ends {A} (Q : A → assertion) (r : list string + A) : assertion (V := V) := λ v c,
  match r with inl ms => Forall (λ m, F m (v_now v)) ms | inr a => Q a v c end.

Definition twp {A} (p : test V A) (Q : A → assertion) : assertion := wp p (ends Q).

Lemma wp_mono {A} (p : prog (teff V) A) Q Q' v c :
  (∀ a v c, wf v c → Q a v c → Q' a v c) → wp p Q v c → wp p Q' v c.
Proof.
  intros HQ. revert v c. induction p as [a|X e k IH]; intros v c (P & HP & Hv & Hp);
    exists P; (split; [done|]); (split; [done|]); [auto|].
  destruct (as_call e) as [[cl f]|]; intros; eauto.
Qed.

(** Time only passes: what it has made true stays. *)
Lemma wp_frame {A} (R : time → Prop) (p : prog (teff V) A) Q v c :
  (∀ t t', t ≤ t' → R t → R t') →
  R (v_now v) → wp p Q v c → wp p (λ a v c, Q a v c ∧ R (v_now v)) v c.
Proof.
  intros HR. revert v c. induction p as [a|X e k IH]; intros v c Ht (P & HP & Hv & Hp);
    exists (λ v c, P v c ∧ R (v_now v));
    (split; [apply stable_and; [done|by apply stable_mono]|]); (split; [done|]).
  - intros v1 c1 Hwf [H1 H2]. auto.
  - destruct (as_call e) as [[cl f]|].
    + intros v0 c0 v1 c1 at_ uuid H0 [H1 _] H2 [H3 H4] H5 H6.
      apply IH; [by rewrite serve_now|exact (Hp v0 c0 v1 c1 at_ uuid H0 H1 H2 H3 H5 H6)].
    + intros v1 c1 b x c' r H1 [H2 H3] He Hr. apply IH; [|by eapply Hp]. by destruct r.
Qed.

Lemma twp_time {A} (p : test V A) Q t v c :
  t ≤ v_now v → twp p Q v c → twp p (λ a v c, Q a v c ∧ t ≤ v_now v) v c.
Proof.
  intros Ht Hp. eapply wp_mono; [|apply (wp_frame (λ n, t ≤ n) p (ends Q)); [lia|exact Ht|exact Hp]].
  intros [ms|a] v1 c1 _ [H1 H2]; simpl in *; done.
Qed.

Lemma rule_ret {A} (P : assertion) (a : A) Q v c :
  stable P → P v c → (∀ v c, wf v c → P v c → Q a v c) → twp (Ret (inr a)) Q v c.
Proof. intros HP Hv HQ. by exists P. Qed.

Lemma rule_done {A} (a : A) v c : twp (Ret (inr a)) (λ _ _ _, True) v c.
Proof. exists (λ _ _, True). split_and!; [apply stable_pure|done|done]. Qed.

Lemma rule_fail {A} msg (Q : A → assertion) v c : F msg (v_now v) → twp (Fatalf msg) Q v c.
Proof.
  intros Hm. exists (λ v c, Forall (λ m, F m (v_now v)) [msg]). split_and!; [by apply stable_Forall| |done].
  by repeat constructor.
Qed.

Lemma rule_bind {A B} (f : A → test V B) (p : test V A) Q v c :
  wf v c → twp p (λ a, twp (f a) Q) v c → twp (p ≫= f) Q v c.
Proof.
  intros Hwf Hp. apply wp_bind; [done|]. eapply wp_mono; [|exact Hp].
  intros [ms|a] v1 c1 _ Hr; simpl in *; [|done].
  exists (λ v c, Forall (λ m, F m (v_now v)) ms). split_and!; [by apply stable_Forall|done|done].
Qed.

Lemma rule_mono {A} (p : test V A) Q Q' v c :
  (∀ a v c, wf v c → Q a v c → Q' a v c) → twp p Q v c → twp p Q' v c.
Proof. intros HQ. apply wp_mono. intros [ms|a] v1 c1 Hwf; simpl; auto. Qed.

Section statement.
Context (P : assertion (V := V)) (HP : stable P) (v : view) (c : core V) (Hv : P v c).
Context {B : Type} (Q : B → assertion (V := V)).

(** An effect other than a call. *)
Lemma rule_effect {X} (e : teff V X) (k : X → test V B) :
  as_call e = None →
  (∀ v c b x c' r, wf v c → P v c → main_effect b e v c = Some (x, c', r) → possible r v →
     twp (k x) Q (after r v) c') →
  twp (lift e ≫= k) Q v c.
Proof. intros He Hk. exists P. split; [done|]. split; [done|]. by rewrite He. Qed.

Lemma rule_call cl (k : answer → test V B) :
  (∀ v0 c0 v c at_ uuid, wf v0 c0 → P v0 c0 → wf v c → P v c → v_now v0 ≤ at_ ≤ v_now v →
     uuid_fresh uuid (call_queue cl) v →
     twp (k (serve cl at_ uuid v).1) Q (serve cl at_ uuid v).2 c) →
  twp (lift (Call cl) ≫= k) Q v c.
Proof. intros Hk. by exists P. Qed.

Lemma rule_section {X} (f : V → X * V) (k : X → test V B) :
  (∀ v c, wf v c → P v c → twp (k (f (c_vars c)).1) Q v (set_vars (f (c_vars c)).2 c)) →
  twp (section f ≫= k) Q v c.
Proof.
  intros Hk. apply rule_effect; [done|]. intros v1 c1 b x c' r Hwf H1 He _. simpl in He.
  specialize (Hk v1 c1 Hwf H1). destruct (f (c_vars c1)) as [y vars]. by simplify_eq.
Qed.

Lemma set_vars_id (c1 : core V) : set_vars (c_vars c1) c1 = c1.
Proof using. by destruct c1. Qed.

Lemma rule_read {X} (f : V → X) (k : X → test V B) :
  (∀ v c, wf v c → P v c → twp (k (f (c_vars c))) Q v c) → twp (read f ≫= k) Q v c.
Proof. intros Hk. apply rule_section. intros v1 c1. simpl. rewrite set_vars_id. auto. Qed.

Lemma rule_now (k : time → test V B) :
  (∀ v c, wf v c → P v c → twp (k (v_now v)) Q v c) → twp (time_Now ≫= k) Q v c.
Proof.
  intros Hk. apply rule_effect; [done|]. intros v1 c1 b x c' r Hwf H1 He _. simpl in He.
  simplify_eq. rewrite set_vars_id. auto.
Qed.

Lemma rule_until t (k : unit → test V B) :
  (∀ v c, wf v c → P v c → t ≤ v_now v → twp (k tt) Q v c) → twp (lift (OwnCode (until t)) ≫= k) Q v c.
Proof.
  intros Hk. apply rule_effect; [done|]. intros v1 c1 b x c' r Hwf H1 He _. simpl in He.
  case_decide; simplify_eq. rewrite set_vars_id. auto.
Qed.

Lemma rule_consume q h opts (k : Err + nat → test V B) :
  (∀ v c, wf v c → P v c →
     twp (k (inr (length (c_handlers c)))) Q
       (apply (Subscribed q (NewConsumeOptions opts)) v) (add_handler h c)) →
  twp (Consume q h opts ≫= k) Q v c.
Proof.
  intros Hk. apply rule_effect; [done|]. intros v1 c1 b x c' r Hwf H1 He _. simpl in He. simplify_eq. by apply Hk.
Qed.

Lemma rule_NextSeq (k : Z → test V B) :
  (∀ v c, wf v c → P v c → let n := wrap64 (c_seq c + 1) in
     twp (k n) Q v (mkCore (c_vars c) n (c_handlers c) (c_insts c))) →
  twp (lift NextSeq ≫= k) Q v c.
Proof.
  intros Hk. apply rule_effect; [done|]. intros v1 c1 b x c' r Hwf H1 He _. simpl in He. simplify_eq. by apply Hk.
Qed.

Lemma rule_StopOnce i (k : unit → test V B) :
  (∀ v c, wf v c → P v c → twp (k tt) Q (apply (Stopped i) v) c) → twp (lift (StopOnce i) ≫= k) Q v c.
Proof.
  intros Hk. apply rule_effect; [done|]. intros v1 c1 b x c' r Hwf H1 He _. simpl in He. simplify_eq. by apply Hk.
Qed.

Lemma rule_StopSelect i deadline (k : option string → test V B) :
  (∀ v c x, wf v c → P v c → (x = None → ∃ s, v_subs v !! i = Some s ∧ sub_done s = true) →
     twp (k x) Q v c) →
  twp (lift (StopSelect i deadline) ≫= k) Q v c.
Proof.
  intros Hk. apply rule_effect; [done|]. intros v1 c1 b x c' r Hwf H1 He _. simpl in He.
  repeat case_match; simplify_eq; apply Hk; eauto. done.
Qed.

Lemma rule_SelectAfter ready deadline (k : bool → test V B) :
  (∀ v c b, wf v c → P v c → (b = true → ready (c_vars c) = true) → twp (k b) Q v c) →
  twp (lift (SelectAfter ready deadline) ≫= k) Q v c.
Proof.
  intros Hk. apply rule_effect; [done|]. intros v1 c1 b x c' r Hwf H1 He _. simpl in He.
  destruct b; [destruct (ready (c_vars c1)) eqn:Hr|case_decide]; simplify_eq; by apply Hk.
Qed.

Lemma rule_IsDone i (k : bool → test V B) :
  (∀ v c s, wf v c → P v c → v_subs v !! i = Some s → twp (k (sub_done s)) Q v c) →
  twp (lift (IsDone i) ≫= k) Q v c.
Proof.
  intros Hk. apply rule_effect; [done|]. intros v1 c1 b x c' r Hwf H1 He _. simpl in He.
  repeat case_match; simplify_eq. by apply Hk.
Qed.

End statement.

Lemma rule_sleep (P : assertion (V := V)) (HP : stable P) v c {B} (Q : B → assertion) d (k : unit → test V B) :
  P v c → (∀ v c, wf v c → P v c → twp (k tt) Q v c) → twp (time_Sleep d ≫= k) Q v c.
Proof.
  intros Hv Hk. change (twp (time_Now ≫= λ t, lift (OwnCode (until (t + d))) ≫= k) Q v c).
  eapply (rule_now P); [done..|]. intros v1 c1 _ H1. eapply (rule_until P); [done..|]. auto.
Qed.

(** [waitFor] with the invariant [P] ends where the condition held. *)
Section waitFor.
Context (P C : assertion (V := V)) (HP : stable P) (HC : stable C) (what : string) (cond : test V bool).
Context (Htimeout : ∀ t, F ("timed out waiting for " +:+ what) t).
Context (Hcond : ∀ v c, wf v c → P v c → twp cond (λ b, if (b : bool) then C else P) v c).

Lemma rule_wait_loop fuel deadline v c :
  wf v c → P v c → deadline ≤ v_now v + (Z.of_nat fuel - 1) * pollEvery → (0 < fuel)%nat →
  twp (wait_loop fuel deadline what cond) (λ _, C) v c.
Proof.
  revert v c. induction fuel as [|fuel IH]; intros v c Hwf Hv Hd Hf; [lia|].
  set (Pt t := λ (v : view) (c : core V), P v c ∧ t ≤ v_now v).
  assert (∀ t, stable (Pt t)) as HPt by (intros t; apply stable_and; [done|apply stable_time]).
  cbn [wait_loop]. apply (rule_now (Pt (v_now v))); [done|by split; [done|lia]|].
  intros v1 c1 Hwf1 [H1 Ht1]. case_decide as Hlt; [|by apply rule_fail].
  assert (0 < fuel)%nat as Hfuel.
  { destruct fuel; [|lia]. unfold pollEvery, Millisecond in Hd. lia. }
  apply rule_bind; [done|].
  eapply rule_mono; [|apply (twp_time cond (λ b, if (b : bool) then C else P) (v_now v1)); [lia|by apply Hcond]].
  intros [] v2 c2 Hwf2 [H2 Ht2]; simpl; [by apply (rule_ret C)|].
  change (twp (time_Now ≫= λ t, lift (OwnCode (until (t + pollEvery))) ≫= λ _,
    wait_loop fuel deadline what cond) (λ _, C) v2 c2).
  apply (rule_now (Pt (v_now v1))); [done|by split|]. intros v3 c3 _ [H3 Ht3].
  apply (rule_until (Pt (v_now v1))); [done|by split|]. intros v4 c4 Hwf4 [H4 _] Ht4.
  apply IH; [done..| |done]. unfold pollEvery, Millisecond in *. lia.
Qed.

Lemma rule_waitFor {B} (k : unit → test V B) Q v c :
  wf v c → P v c → (∀ v c, wf v c → C v c → twp (k tt) Q v c) → twp (waitFor what cond ≫= k) Q v c.
Proof.
  intros Hwf Hv Hk. apply rule_bind; [done|].
  apply (rule_mono _ (λ _, C)); [intros [] v1 c1 Hwf1 H1; exact (Hk v1 c1 Hwf1 H1)|].
  set (Pt := λ (v1 : view) (c1 : core V), P v1 c1 ∧ v_now v ≤ v_now v1).
  apply (rule_now Pt); [apply stable_and; [done|apply stable_time]|by split; [done|lia]|].
  intros v1 c1 Hwf1 [H1 _]. apply rule_wait_loop; [done..| |by apply Nat.ltb_lt; vm_compute].
  replace (Z.of_nat wait_fuel) with 1501 by (by vm_compute). unfold waitTimeout, pollEvery, Millisecond, Second. lia.
Qed.
End waitFor.

Lemma rule_stop k v c :
  (∀ t, F "Stop: %v" t) → wf v c → twp (stop k) (λ _ _ _, True) v c.
Proof.
  intros Hstop Hwf. unfold stop. apply rule_bind; [done|].
  change (twp (time_Now ≫= λ now, lift (StopOnce k) ≫= λ _, lift (StopSelect k (now + waitTimeout)) ≫= mret)
    (λ err, twp (fatal_if (bool_decide (is_Some err)) "Stop: %v") (λ _ _ _, True)) v c).
  apply (rule_now (λ _ _, True)); [apply stable_pure|done|]. intros v1 c1 _ _.
  apply (rule_StopOnce (λ _ _, True)); [apply stable_pure|done|]. intros v2 c2 _ _.
  apply (rule_StopSelect (λ _ _, True)); [apply stable_pure|done|]. intros v3 c3 x _ _ _.
  apply (rule_ret (λ _ _, True)); [apply stable_pure|done|]. intros v4 c4 _ _.
  destruct x; simpl; [by apply rule_fail|apply rule_done].
Qed.

(** [defer stop(t, sub)] at the end of a test *)
Lemma rule_deferring k (body : test V unit) v c :
  (∀ t, F "Stop: %v" t) → wf v c →
  twp body (λ _ _ _, True) v c → twp (deferring (stop k) body) (λ _ _ _, True) v c.
Proof.
  intros Hstop Hwf Hb. apply wp_bind; [done|]. eapply wp_mono; [|exact Hb]. intros r v1 c1 Hwf1 Hr.
  apply wp_bind; [done|].
  set (R t := match r with inl ms => Forall (λ m, F m t) ms | inr _ => True end).
  assert (∀ t t', t ≤ t' → R t → R t') as HR.
  { intros t t' Ht. unfold R. destruct r; [by apply Forall_mono|done]. }
  apply (wp_mono _ (λ s v c, ends (λ _ _ _, True) s v c ∧ R (v_now v))).
  - intros s v2 c2 Hwf2 H2.
    exists (λ v c, match s with inl ms => Forall (λ m, F m (v_now v)) ms | inr _ => True end ∧ R (v_now v)).
    split; [|split].
    + apply stable_and; [|by apply stable_mono]. destruct s; [by apply stable_Forall|apply stable_pure].
    + destruct H2. split; [by destruct s|done].
    + intros v3 c3 _ [H3 H4]. unfold R in H4. destruct r as [ms|[]], s as [ms'|[]]; simpl in *; try done.
      by apply Forall_app.
  - apply wp_frame; [done|by destruct r|]. by apply rule_stop.
Qed.
End rules.
