(* ===== verification/SuiteSingle.v ===== *)
(** * The life of the one task of a test

    Ten tests of the suite have one task at a time. Where it is ([loc]) and
    what the handler has done decide everything the test can observe; each
    step of the backend and the handlers moves it along [loc_step]. [delivery]
    is the invariant of a task that is handed out until an attempt succeeds or
    its retries are used up. *)

From stdpp Require Import base tactics list numbers option gmap strings.
From S2P Require Import Prelude GoRuntime Contract Options Effects Memory MemorySpec Lifecycle WorkQueueSpec Suite SuiteHarness SuiteLogic SuiteRules.

Section single.
Context {V : Type}.

(** What a worker does with the task, and the rest of its handler. *)
Inductive progress :=
  | PFresh
  | PBusy (p : prog (sect V) Outcome)
  | PBack (at_ : time) (err : option string).

Definition stage_of (p : progress) : stage :=
  match p with PFresh => Fresh | PBusy _ => Busy | PBack r e => Back r e end.

Inductive loc :=
  | Nowhere
  | Pend (t : Task)
  | Run (i k : nat) (t : Task) (p : progress)
  | Dead (t : Task).

Definition dead_of (l : loc) : list Task := match l with Dead t => [t] | _ => [] end.

(** The backend holds the task at [l], and the tasks [D] that died before. *)
Record alone (q : string) (D : list Task) (l : loc) (v : view) (c : core V) : Prop := {
  al_pending n : v_pending v n = if decide (n = q) then match l with Pend t => [t] | _ => [] end else [];
  al_dead n : v_dead v n = if decide (n = q) then D ++ match l with Dead t => [t] | _ => [] end else [];
  al_running i : v_running v i =
    match l with Run j k t p => if decide (i = j) then Some (k, t, stage_of p) else None | _ => None end;
  al_inst : match l with Run i _ _ (PBusy p) => c_insts c !! i = Some p | _ => True end;
  al_queue : match l with Pend t | Run _ _ t _ | Dead t => Queue t = q | Nowhere => True end;
  al_back : match l with Run _ _ _ (PBack r _) => zeroTime < r | _ => True end
}.

(** The pools of the queue run the handler [h]. *)
Definition served_by (q : string) (h : handler V) (v : view) (c : core V) : Prop :=
  ∀ k s, v_subs v !! k = Some s → sub_queue s = q → handler_of k c = Some h.

(** The next section of a handler. *)
Definition sect_step (p : prog (sect V) Outcome) (now : time) (x : V) :
    option (prog (sect V) Outcome * V) :=
  match p with
  | Ret _ => None
  | Do s k => '(y, x) ← do_sect s now x; Some (k y, x)
  end.

Inductive loc_step (h : handler V) : time → time → loc → V → loc → V → Prop :=
  | Step_time now now' l x : now ≤ now' → loc_step h now now' l x l x
  | Step_claim now i k t x : RunAt t ≤ now →
      loc_step h now now (Pend t) x (Run i k (incr_Attempts t) PFresh) x
  | Step_invoke now i k t x :
      loc_step h now now (Run i k t PFresh) x (Run i k t (PBusy (h t))) x
  | Step_sect now i k t x p p' x' : sect_step p now x = Some (p', x') →
      loc_step h now now (Run i k t (PBusy p)) x (Run i k t (PBusy p')) x'
  | Step_return now i k t x o :
      loc_step h now now (Run i k t (PBusy (Ret o))) x (Run i k t (PBack now (recovered o))) x
  | Step_ack now i k t x r :
      loc_step h now now (Run i k t (PBack r None)) x Nowhere x
  | Step_retry now i k t x r e at_ : Attempts t ≤ MaxRetries t →
      loc_step h now now (Run i k t (PBack r (Some e))) x (Pend (set_RunAt at_ t)) x
  | Step_bury now i k t x r e at_ : MaxRetries t < Attempts t → zeroTime < at_ ≤ now →
      loc_step h now now (Run i k t (PBack r (Some e))) x (Dead (set_DiedAt at_ (set_LastError e t))) x.

(** *** The steps are these *)

Context (q : string) (h : handler V) (D : list Task).

Lemma served_other v c v' c' : wf v c → served_by q h v c → other v c v' c' → served_by q h v' c'.
Proof.
  intros Hwf Hs Ho. assert (∀ f k0 (l : list subscription), (∀ s, sub_queue (f s) = sub_queue s) →
    ∀ k s, alter f k0 l !! k = Some s → ∃ s0, l !! k = Some s0 ∧ sub_queue s0 = sub_queue s) as Halt.
  { intros f k0 l Hf k s. destruct (decide (k = k0)) as [->|Hne].
    - rewrite list_lookup_alter_eq. intros (s0 & Hs0 & ->)%fmap_Some. eauto.
    - rewrite list_lookup_alter_ne by done. eauto. }
  destruct Ho as [v v' c Heq|a v c Ha _ Hg|i X f k x vars v c Hi Hf|i o v c Hi Hg].
  - intros k s. rewrite (eq_subs _ _ Heq). apply Hs.
  - assert (∀ k, handler_of k (show_core a c) = handler_of k c) as Hh.
    { intros k. unfold handler_of. destruct a; simpl; try done. by destruct (handler_of k0 c). }
    intros k s Hk Hq. rewrite Hh. revert Hk.
    destruct a as [d|i' k' t rest|i' k' t|i' o'|i' at_|cl|x at_ u|x|q' o'|k'|k']; simpl; try done; try by (intros; eapply Hs).
    + unfold settle. repeat case_match; intros; by eapply Hs.
    + destruct (v_call v) as [[[since cl] y]|]; simpl; [|intros; by eapply Hs].
      destruct cl; simpl; repeat case_match; simpl; intros; by eapply Hs.
    + intros (s0 & Hs0 & Hq0)%Halt; [|done]. eapply Hs; [exact Hs0|congruence].
  - intros k0 s Hk Hq. exact (Hs k0 s Hk Hq).
  - intros k0 s. simpl. destruct Hg as (k & t & ->). intros Hk Hq. exact (Hs k0 s Hk Hq).
Qed.

Lemma alone_run l v c i k t st :
  alone q D l v c → v_running v i = Some (k, t, st) →
  ∃ p, l = Run i k t p ∧ stage_of p = st.
Proof.
  intros Ha. rewrite (al_running _ _ _ _ _ Ha). destruct l as [|?|j k' t' p|?]; try done.
  case_decide; [|done]. intros [= <- <- <-]. subst j. eauto.
Qed.

Lemma alone_busy l v c i p :
  wf v c → alone q D l v c → c_insts c !! i = Some p → ∃ k t, l = Run i k t (PBusy p).
Proof.
  intros Hwf Ha Hi. destruct (wf_inst _ _ Hwf i) as [Hb _].
  destruct Hb as (k & t & Hr); [by rewrite Hi|].
  destruct (alone_run _ _ _ _ _ _ _ Ha Hr) as (p' & -> & Hp). destruct p' as [|p'|]; try done.
  pose proof (al_inst _ _ _ _ _ Ha) as Hi'. simpl in Hi'. assert (p' = p) as -> by congruence. eauto.
Qed.

Definition moves (v : view) (c : core V) (l : loc) (v' : view) (c' : core V) : Prop :=
  ∃ l', alone q D l' v' c' ∧ loc_step h (v_now v) (v_now v') l (c_vars c) l' (c_vars c').

Lemma alone_same l v c v' c' :
  v_now v ≤ v_now v' → v_pending v' = v_pending v → v_dead v' = v_dead v →
  v_running v' = v_running v → c_insts c' = c_insts c → c_vars c' = c_vars c →
  alone q D l v c → moves v c l v' c'.
Proof.
  intros Hn Hp Hd Hr Hi Hx [Ap Ad Ar Ai Aq Ab]. exists l. rewrite Hx. split; [|by constructor].
  split; rewrite ?Hp, ?Hd, ?Hr, ?Hi; done.
Qed.

Lemma alone_claim l v c i k t rest :
  guard (Claimed i k t rest) v → alone q D l v c →
  moves v c l (apply (Claimed i k t rest) v) c.
Proof.
  intros (Hi & s & _ & _ & _ & Hperm & Hrun) [Ap Ad Ar Ai Aq Ab]. rewrite Ap in Hperm.
  case_decide as Hq; [|by apply Permutation_nil_cons in Hperm].
  destruct l as [|u|? ? ? ?|?]; try by apply Permutation_nil_cons in Hperm.
  apply Permutation_singleton_l in Hperm. simplify_eq/=.
  exists (Run i k (incr_Attempts t) PFresh). split; [|by constructor].
  split; simpl; try done.
  - intros n. unfold upd. rewrite Hq. case_decide; [done|]. rewrite Ap. by rewrite decide_False.
  - intros j. unfold upd. case_decide; [done|]. by rewrite Ar.
Qed.

(** The worker [i] has the task: another stage. *)
Lemma alone_stage i k t p p' v c c' :
  alone q D (Run i k t p) v c →
  match p' with PBusy x => c_insts c' !! i = Some x | _ => True end →
  match p' with PBack r _ => zeroTime < r | _ => True end →
  alone q D (Run i k t p') (set_running i (Some (k, t, stage_of p')) v) c'.
Proof.
  intros [Ap Ad Ar Ai Aq Ab] Hi Hb. split; simpl; try done.
  intros j. unfold upd. case_decide; [done|]. rewrite Ar. by rewrite decide_False.
Qed.

Lemma alone_settled i at_ l v c :
  guard (Settled i at_) v → wf v c → alone q D l v c → moves v c l (apply (Settled i at_) v) c.
Proof.
  intros (k & t & r & err & s & Hi & [Hat Hnow] & Hs) Hwf Ha.
  destruct (alone_run _ _ _ _ _ _ _ Ha Hi) as (p & -> & Hp). destruct p as [| |r' e']; try done.
  injection Hp as -> ->. simpl. rewrite Hi. destruct Ha as [Ap Ad Ar Ai Aq Ab]; simpl in *.
  assert (∀ j, upd i None (v_running v) j = None) as Hnone.
  { intros j. unfold upd. case_decide; [done|]. rewrite Ar. by rewrite decide_False. }
  destruct err as [e|]; [rewrite Hs; unfold settle; case_decide as Hm; rewrite ?Aq|].
  - exists (Dead (set_DiedAt at_ (set_LastError e t))). split; [|constructor; [done|simpl; lia]].
    split; simpl; try done. intros n. unfold upd. case_decide as Hn; [|by rewrite Ad, decide_False].
    by rewrite Ad, decide_True, app_nil_r.
  - exists (Pend (set_RunAt (at_ + retry_delay (sub_opts s) (Attempts t)) t)). split; [|constructor; lia].
    split; simpl; try done. intros n. unfold upd. case_decide as Hn; [|by rewrite Ap, decide_False].
    by rewrite Ap, decide_True.
  - exists Nowhere. split; [|constructor]. by split.
Qed.

Lemma alone_action a l v c :
  internal a = true → (∀ x t u, a ≠ Served x t u) → guard a v → wf v c → served_by q h v c →
  alone q D l v c → moves v c l (apply a v) (show_core a c).
Proof.
  intros Hi Hns Hg Hwf Hserved Ha.
  destruct a as [d|i k t rest|i k t|i o|i at_|cl|x at_ u|x|q' o|k|k]; try done; try (by eapply alone_same).
  - eapply alone_same; try done. simpl in *. lia.
  - by apply alone_claim.
  - simpl in Hg. destruct (alone_run _ _ _ _ _ _ _ Ha Hg) as (p & -> & Hp). destruct p; try done.
    destruct (wf_open _ _ Hwf _ _ _ _ Hg) as (s & Hs & _ & Hq).
    pose proof (al_queue _ _ _ _ _ Ha) as Hq'. simpl in Hq'.
    exists (Run i k t (PBusy (h t))). unfold show_core. rewrite (Hserved k s Hs) by congruence.
    split; [|constructor]. apply (alone_stage i k t PFresh (PBusy (h t)) v c); [done| |done].
    simpl. by rewrite lookup_insert_eq.
  - by eapply alone_settled.
  - by edestruct Hns.
Qed.

Lemma alone_left i o l v c :
  c_insts c !! i = Some (Ret o) → guard (Left i o) v → wf v c → alone q D l v c →
  moves v c l (apply (Left i o) v) (del_inst i c).
Proof.
  intros Hi (k & t & Hr) Hwf Ha. destruct (alone_busy _ _ _ _ _ Hwf Ha Hi) as (k' & t' & ->).
  pose proof (al_running _ _ _ _ _ Ha i) as Hr'. simpl in Hr'. rewrite decide_True in Hr' by done.
  simpl. rewrite Hr'. exists (Run i k' t' (PBack (v_now v) (recovered o))). split; [|constructor].
  apply (alone_stage i k' t' (PBusy (Ret o)) (PBack (v_now v) (recovered o)) v c); [done|done|].
  apply (wf_now _ _ Hwf).
Qed.

Lemma alone_sect i X (f : time → V → option (X * V)) k x vars l v c :
  c_insts c !! i = Some (Do (Sect f) k) → f (v_now v) (c_vars c) = Some (x, vars) → wf v c →
  alone q D l v c → moves v c l v (set_inst i (k x) (set_vars vars c)).
Proof.
  intros Hi Hf Hwf Ha. destruct (alone_busy _ _ _ _ _ Hwf Ha Hi) as (k' & t' & ->).
  exists (Run i k' t' (PBusy (k x))). split; [|constructor; simpl; by rewrite Hf].
  destruct Ha as [Ap Ad Ar Ai Aq Ab]. split; simpl in *; try done. by rewrite lookup_insert_eq.
Qed.

Lemma alone_other v c v' c' l :
  other v c v' c' → wf v c → served_by q h v c → alone q D l v c → moves v c l v' c'.
Proof.
  intros Ho Hwf Hs Ha. destruct Ho as [v v' c Heq|a v c Hi Hns Hg|i X f k x vars v c Hi Hf|i o v c Hi Hg].
  - destruct Heq as [Hn Hp Hd Hr _ _]. exists l. split; [|rewrite Hn; by constructor].
    destruct Ha as [Ap Ad Ar Ai Aq Ab]. split; try done.
    + intros n. specialize (Hp n). rewrite Ap in Hp. case_decide.
      * destruct l; try by apply Permutation_nil_r in Hp. by apply Permutation_singleton_r in Hp.
      * by apply Permutation_nil_r in Hp.
    + intros n. by rewrite Hd.
    + intros i. by rewrite Hr.
  - by apply alone_action.
  - by eapply alone_sect.
  - by apply alone_left.
Qed.

(** An invariant of the place, the clock and the variables, kept by [loc_step],
    is stable. *)
Lemma stable_alone (I : time → loc → V → Prop) :
  (∀ now now' l x l' x', I now l x → loc_step h now now' l x l' x' → I now' l' x') →
  stable (λ v c, served_by q h v c ∧ ∃ l, alone q D l v c ∧ I (v_now v) l (c_vars c)).
Proof.
  intros HI v c v' c' Hwf (Hs & l & Ha & Hl) Ho. split; [by eapply served_other|].
  destruct (alone_other _ _ _ _ _ Ho Hwf Hs Ha) as (l' & Ha' & Hstep). exists l'. split; [done|].
  by eapply HI.
Qed.
End single.

(** ** Delivered until it succeeds or dies *)

Section delivery.
Context {V : Type} (t0 : Task) (h : handler V).
(** [A now n]: what the variables are after [n] attempts; [out n]: how the
    [n]-th ends; [M now n t p x]: the next one can be about to run [p] *)
Context (M : time → Z → Task → prog (sect V) Outcome → V → Prop).
Context (A : time → Z → V → Prop) (out : Z → Outcome).

(** [n] attempts have been made, and the last one failed. *)
Definition failed (n : Z) : Prop := n = 0 ∨ is_Some (recovered (out n)).

Definition untried (n : Z) (now : time) (t : Task) : Prop :=
  Attempts t = n + 1 ∧ n ≤ MaxRetries t0 ∧ failed n ∧ (n = 0 → RunAt t0 ≤ now).

(** At least [m] attempts have been made. *)
Definition delivery (m : Z) (now : time) (l : loc (V := V)) (x : V) : Prop :=
  ∃ n, A now n x ∧ m ≤ n ∧ 0 ≤ n ≤ MaxRetries t0 + 1 ∧
  match l with
  | Nowhere => 1 ≤ n ∧ recovered (out n) = None
  | Pend t => same_identity t0 t ∧ Attempts t = n ∧ n ≤ MaxRetries t0 ∧ failed n ∧ (n = 0 → RunAt t = RunAt t0)
  | Run i k t p => same_identity t0 t ∧
      match p with
      | PFresh => untried n now t
      | PBusy p => (M now n t p x ∧ untried n now t) ∨ (p = Ret (out n) ∧ Attempts t = n ∧ 1 ≤ n)
      | PBack r e => e = recovered (out n) ∧ Attempts t = n ∧ 1 ≤ n
      end
  | Dead t => same_identity t0 t ∧ n = MaxRetries t0 + 1 ∧ Attempts t = n ∧
      recovered (out n) = Some (LastError t) ∧ zeroTime < DiedAt t
  end.

(** The handler [h] goes from attempt to attempt like this. *)
Record attempts : Prop := {
  at_later now now' n x : now ≤ now' → A now n x → A now' n x;
  at_waits now now' n t p x : now ≤ now' → M now n t p x → M now' n t p x;
  at_begins now n t x : A now n x → same_identity t0 t → 0 ≤ n → untried n now t → M now n t (h t) x;
  at_goes_on now n t p x p' x' :
    A now n x → same_identity t0 t → 0 ≤ n → untried n now t → M now n t p x →
    sect_step p now x = Some (p', x') →
    (A now n x' ∧ M now n t p' x') ∨ (A now (n + 1) x' ∧ p' = Ret (out (n + 1)));
  at_runs now n t o x : ¬ M now n t (Ret o) x
}.

Context (HM : 0 ≤ MaxRetries t0 < max_int64) (Hat : attempts).

Lemma untried_later n now now' t : now ≤ now' → untried n now t → untried n now' t.
Proof using. intros Hle (Ha & Hmr & Hf & Hr). split_and!; [done..|]. intros H0. specialize (Hr H0). lia. Qed.

Lemma delivery_later m now now' l x : now ≤ now' → delivery m now l x → delivery m now' l x.
Proof using Hat.
  intros Hle (n & Hx & Hm & Hn & Hl). exists n. split; [by eapply at_later|]. do 2 (split; [done|]).
  destruct l as [|t|i k t [|p|r e]|t]; try done.
  - destruct Hl. eauto using untried_later.
  - destruct Hl as [? [[]|]]; [|by auto]. split; [done|]. left.
    split; [by eapply at_waits|by eapply untried_later].
Qed.

Lemma delivery_step m now now' l x l' x' :
  delivery m now l x → loc_step h now now' l x l' x' → delivery m now' l' x'.
Proof using HM Hat.
  intros Hd Hs. destruct Hs as [now now' l x Hle|now i k t x Hrun|now i k t x
    |now i k t x p p' x' Hf|now i k t x o|now i k t x r|now i k t x r e at_ Hmr|now i k t x r e at_ Hmr Ht];
    [by eapply delivery_later|destruct Hd as (n & Hx & Hm & Hn & Hl)..].
  - destruct Hl as (Hid & Ha & Hmr & Hfl & Hr). exists n. do 3 (split; [done|]). split; [done|]. split; simpl.
    + rewrite wrap64_succ; [lia|unfold in_int64; lia|lia].
    + split; [done|]. split; [done|]. intros H0. rewrite <- Hr by done. done.
  - exists n. do 3 (split; [done|]). destruct Hl as [Hid Hu]. split; [done|]. left.
    split; [|done]. apply (at_begins Hat); [done|done|lia|done].
  - destruct Hl as [Hid [[Hp Hu]|[-> _]]]; [|done].
    destruct (at_goes_on Hat now n t p x p' x' Hx Hid (proj1 Hn) Hu Hp Hf) as [[Hx' Hp']|[Hx' ->]].
    + exists n. split; [done|]. do 2 (split; [done|]). split; [done|]. by left.
    + destruct Hu as (Ha & Hmr & _). exists (n + 1). split; [done|]. do 2 (split; [lia|]). split; [done|].
      right. split; [done|]. split; [done|lia].
  - destruct Hl as [Hid [[Hp _]|([= ->] & Ha & Hn1)]]; [by destruct (at_runs Hat _ _ _ _ _ Hp)|]. exists n. done.
  - destruct Hl as (Hid & He & Ha & Hn1). exists n. do 3 (split; [done|]). split; [lia|congruence].
  - destruct Hl as (Hid & He & Ha & Hn1). exists n. do 3 (split; [done|]).
    assert (MaxRetries t = MaxRetries t0) as Hmt by (by destruct Hid as (_&_&_&_&<-&_)).
    split; [exact Hid|]. split; [done|]. split; [lia|]. split; [right; rewrite <- He; eauto|lia].
  - destruct Hl as (Hid & He & Ha & Hn1). exists n. do 3 (split; [done|]).
    assert (MaxRetries t = MaxRetries t0) as Hmt by (by destruct Hid as (_&_&_&_&<-&_)).
    split; [exact Hid|]. simpl. split_and!; [lia|done|by rewrite <- He|lia].
Qed.

Lemma delivery_start now x : A now 0 x → Attempts t0 = 0 → delivery 0 now (Pend t0) x.
Proof using HM.
  intros Hx H0. exists 0. split; [done|]. do 2 (split; [lia|]). split_and!; [done|done|lia|by left|done].
Qed.

(** A task whose every attempt ends well never dies. *)
Lemma delivery_alive m now l x : (∀ n, failed n → n = 0) → delivery m now l x → dead_of l = [].
Proof using HM.
  intros Ho (n & _ & _ & Hn & Hl). destruct l as [| | |t]; try done. exfalso.
  destruct Hl as (_ & -> & _ & He & _).
  assert (MaxRetries t0 + 1 = 0); [|lia]. apply Ho. right. rewrite He. eauto.
Qed.
End delivery.

(** A handler of one section is before it or has returned. *)
Definition one_step {V} (g : time → Task → V → Outcome * V) (_ : time) (_ : Z) (t : Task)
    (p : prog (sect V) Outcome) (_ : V) : Prop := p = simple g t.

Lemma simple_attempts {V} t0 (g : time → Task → V → Outcome * V) A out :
  (∀ now now' n x, now ≤ now' → A now n x → A now' n x) →
  (∀ n now t x, A now n x → same_identity t0 t → 0 ≤ n → untried t0 out n now t →
     (g now t x).1 = out (n + 1) ∧ A now (n + 1) (g now t x).2) →
  attempts t0 (simple g) (one_step g) A out.
Proof.
  intros HA Hg. split; try done. intros now n t p x p' x' Hx Hid Hn Hu -> Hf. right. simpl in Hf.
  destruct (Hg n now t x Hx Hid Hn Hu) as [Ho Hx']. destruct (g now t x) as [o x1]. simpl in *. by simplify_eq.
Qed.

(** ** Calls and pools *)

Section calls.
Context {V : Type}.
Implicit Types (v : view) (c : core V).

Lemma alone_any q q' v c : alone q [] Nowhere v c → alone q' [] Nowhere v c.
Proof.
  intros [Ap Ad Ar _ _ _]. split; try done; intros n; [specialize (Ap n)|specialize (Ad n)]; by repeat case_decide.
Qed.

Lemma alone_enqueue q D v c payload opts at_ uuid :
  alone q D Nowhere v c →
  alone q D (Pend (new_task at_ uuid q payload opts)) (serve (CEnqueue q payload opts) at_ uuid v).2 c.
Proof.
  intros [Ap Ad Ar _ _ _]. split; simpl; try done. intros n. unfold upd. rewrite !Ap. by repeat case_decide.
Qed.

Lemma alone_dead q D l v c : alone q D l v c → v_dead v q = D ++ dead_of l.
Proof. intros Ha. rewrite (al_dead _ _ _ _ _ Ha), decide_True by done. by destruct l. Qed.

(** A dead task is one of those that died before. *)
Lemma alone_bury q D t v c : alone q D (Dead t) v c → alone q (D ++ [t]) Nowhere v c.
Proof. intros [Ap Ad Ar _ _ _]. split; try done. intros n. rewrite Ad. by rewrite app_nil_r. Qed.

(** A dead letter that is not there. *)
Lemma find_dead_None id l : id ∉ ID <$> l → find_dead id l = None.
Proof.
  intros Hid. unfold find_dead. apply list_find_None, Forall_forall. intros t Ht Heq. apply Hid.
  rewrite <- Heq. by apply list_elem_of_fmap_2.
Qed.

Lemma find_dead_one t : find_dead (ID t) [t] = Some (0%nat, t).
Proof. unfold find_dead. simpl. by rewrite decide_True. Qed.

Lemma alone_requeue q t v c at_ uuid :
  alone q [] (Dead t) v c →
  serve (CRequeueDeadTask q (ID t)) at_ uuid v =
    (AnsErr None, (serve (CRequeueDeadTask q (ID t)) at_ uuid v).2) ∧
  alone q [] (Pend (revived at_ t)) (serve (CRequeueDeadTask q (ID t)) at_ uuid v).2 c.
Proof.
  intros Ha. cbn [serve]. rewrite (alone_dead _ _ _ _ _ Ha). cbn [app dead_of]. rewrite find_dead_one.
  split; [done|]. destruct Ha as [Ap Ad Ar _ Aq _].
  split; simpl; try done; intros n; unfold upd; rewrite ?Ap, ?Ad; by repeat case_decide.
Qed.

Lemma alone_delete q t v c at_ uuid :
  alone q [] (Dead t) v c →
  serve (CDeleteDeadTask q (ID t)) at_ uuid v =
    (AnsErr None, (serve (CDeleteDeadTask q (ID t)) at_ uuid v).2) ∧
  alone q [] Nowhere (serve (CDeleteDeadTask q (ID t)) at_ uuid v).2 c.
Proof.
  intros Ha. cbn [serve]. rewrite (alone_dead _ _ _ _ _ Ha). cbn [app dead_of]. rewrite find_dead_one.
  split; [done|]. destruct Ha as [Ap Ad Ar _ Aq _].
  split; simpl; try done; intros n; unfold upd; rewrite ?Ap, ?Ad; by repeat case_decide.
Qed.

Lemma serve_unknown_requeue q id v at_ uuid :
  id ∉ ID <$> v_dead v q → serve (CRequeueDeadTask q id) at_ uuid v = (AnsErr (Some ErrTaskNotFound), v).
Proof. intros Hid. cbn [serve]. by rewrite find_dead_None. Qed.

Lemma serve_unknown_delete q id v at_ uuid :
  id ∉ ID <$> v_dead v q → serve (CDeleteDeadTask q id) at_ uuid v = (AnsErr (Some ErrTaskNotFound), v).
Proof. intros Hid. cbn [serve]. by rewrite find_dead_None. Qed.

(** The test has subscribed the handlers [hs] to their queues, in this order. *)
Definition pools (hs : list (string * handler V)) (v : view) (c : core V) : Prop :=
  sub_queue <$> v_subs v = hs.*1 ∧ c_handlers c = hs.*2.

Lemma queues_alter f k (l : list subscription) :
  (∀ s, sub_queue (f s) = sub_queue s) → sub_queue <$> alter f k l = sub_queue <$> l.
Proof.
  intros Hf. revert k. induction l as [|s l IH]; intros [|k]; csimpl; [done..|by rewrite Hf|].
  f_equal. apply IH.
Qed.

Lemma stable_pools hs : stable (pools hs).
Proof.
  intros v c v' c' _ [Hq Hh] Ho.
  destruct Ho as [v v' c Heq|a v c Ha _ Hg|i X f k x vars v c Hi Hf|i o v c Hi Hg].
  - split; [by rewrite (eq_subs _ _ Heq)|done].
  - split.
    + destruct a as [d|i' k' t rest|i' k' t|i' o'|i' at_|cl|x at_ u|x|q' o'|k'|k']; simpl; try done.
      * unfold settle. by repeat case_match.
      * destruct (v_call v) as [[[since cl] y]|]; simpl; [|done]. destruct cl; simpl; by repeat case_match.
      * by rewrite queues_alter.
    + rewrite <- Hh. destruct a; simpl; try done. by destruct (handler_of k c).
  - done.
  - split; [|done]. destruct Hg as (k & t & Hr). simpl. by rewrite Hr.
Qed.

Lemma pools_served hs q h v c :
  (∀ h', (q, h') ∈ hs → h' = h) → pools hs v c → served_by q h v c.
Proof.
  intros Hall [Hq Hh] k s Hk Hs. unfold handler_of. rewrite Hh.
  assert ((sub_queue <$> v_subs v) !! k = Some q) as Hkq by (by rewrite list_lookup_fmap, Hk, <- Hs).
  rewrite Hq, list_lookup_fmap in Hkq. apply fmap_Some in Hkq as ([q' h'] & Hk' & ->). simpl in *.
  rewrite list_lookup_fmap, Hk'. simpl. f_equal. apply Hall. by eapply list_elem_of_lookup_2.
Qed.

Lemma pools_serve hs cl at_ uuid v c : pools hs v c → pools hs (serve cl at_ uuid v).2 c.
Proof. unfold pools. destruct cl; simpl; by repeat case_match. Qed.

Lemma pools_consume hs q h o v c :
  pools hs v c → pools (hs ++ [(q, h)]) (apply (Subscribed q o) v) (add_handler h c).
Proof. intros [Hq Hh]. split; simpl; rewrite !fmap_app; by rewrite ?Hq, ?Hh. Qed.

Lemma pools_stopped hs k v c : pools hs v c → pools hs (apply (Stopped k) v) c.
Proof. intros [Hq Hh]. split; [|done]. simpl. by rewrite queues_alter. Qed.

(** One task at [q], of which [I] holds, and the pools [hs]. *)
Definition single (hs : list (string * handler V)) (q : string) (D : list Task)
    (I : time → loc (V := V) → V → Prop) (v : view) (c : core V) : Prop :=
  pools hs v c ∧ ∃ l, alone q D l v c ∧ I (v_now v) l (c_vars c).

Lemma single_stopped hs q D I k v c : single hs q D I v c → single hs q D I (apply (Stopped k) v) c.
Proof.
  intros (Hp & l & [Ap Ad Ar Ai Aq Ab] & Hl). split; [by apply pools_stopped|]. exists l. by split.
Qed.

Lemma stable_single hs q h D I :
  (∀ h', (q, h') ∈ hs → h' = h) →
  (∀ now now' l x l' x', I now l x → loc_step h now now' l x l' x' → I now' l' x') →
  stable (single hs q D I).
Proof.
  intros Hall HI v c v' c' Hwf [Hp Hl] Ho. split; [by eapply stable_pools|].
  eapply (stable_alone q h D I HI v c v' c' Hwf); [|exact Ho]. split; [|done]. by eapply pools_served.
Qed.
End calls.
