(* ===== verification/SuiteProofs.v ===== *)
(** * The tests of the conformance suite are safe on every work queue

    For each test of [Suite.Run]: on a backend that keeps [BackendLaws] no
    execution ends it in a failure, except that something took longer than the
    test waits. *)

From stdpp Require Import base tactics list numbers option gmap strings pretty.
From S2P Require Import Prelude GoRuntime Contract Options Effects Memory MemorySpec Lifecycle WorkQueueSpec Suite SuiteHarness SuiteLogic SuiteRules SuiteSingle.

#[local] Set Default Proof Using "Type*".

Section statements.
Context {V : Type} (F : string → time → Prop) (HF : ∀ m t t', t ≤ t' → F m t → F m t').

Implicit Types (v : view) (c : core V) (hs : list (string * handler V)) (x : V).

Abbreviation twp := (twp F).

(** ** The statements of the tests *)

Section calls.
Context (P : assertion (V := V)) (HP : stable P) (v : view) (c : core V) (Hv : P v c).
Context {B : Type} (Q : B → assertion (V := V)).

Lemma rule_Enqueue q payload opts (k : Err + Task → test V B) :
  (∀ v0 c0 v c at_ uuid, wf v0 c0 → P v0 c0 → wf v c → P v c → v_now v0 ≤ at_ ≤ v_now v →
     uuid_fresh uuid q v →
     let bytes := Some (String.list_byte_of_string payload) in
     twp (k (inr (new_task at_ uuid q bytes opts))) Q (serve (CEnqueue q bytes opts) at_ uuid v).2 c) →
  twp (Enqueue q payload opts ≫= k) Q v c.
Proof.
  intros Hk. apply (rule_call F HF P HP v c Hv Q). intros v0 c0 v1 c1 at_ uuid H0 H1 H2 H3 H4 H5.
  exact (Hk v0 c0 v1 c1 at_ uuid H0 H1 H2 H3 H4 H5).
Qed.

Lemma rule_List q limit offset (k : Err + list Task → test V B) :
  (∀ v c, wf v c → P v c → twp (k (inr (page limit offset (v_dead v q)))) Q v c) →
  twp (ListDeadTasks q limit offset ≫= k) Q v c.
Proof. intros Hk. apply (rule_call F HF P HP v c Hv Q). intros. by apply Hk. Qed.

Lemma rule_Requeue q id (k : option Err → test V B) :
  (∀ v c at_ uuid, wf v c → P v c → at_ ≤ v_now v →
     ∃ e, (serve (CRequeueDeadTask q id) at_ uuid v).1 = AnsErr e ∧
     twp (k e) Q (serve (CRequeueDeadTask q id) at_ uuid v).2 c) →
  twp (RequeueDeadTask q id ≫= k) Q v c.
Proof.
  intros Hk. apply (rule_call F HF P HP v c Hv Q). intros v0 c0 v1 c1 at_ uuid _ _ H1 H2 [_ H3] _.
  destruct (Hk v1 c1 at_ uuid H1 H2 H3) as (e & -> & He). exact He.
Qed.

Lemma rule_Delete q id (k : option Err → test V B) :
  (∀ v c at_ uuid, wf v c → P v c →
     ∃ e, (serve (CDeleteDeadTask q id) at_ uuid v).1 = AnsErr e ∧
     twp (k e) Q (serve (CDeleteDeadTask q id) at_ uuid v).2 c) →
  twp (DeleteDeadTask q id ≫= k) Q v c.
Proof.
  intros Hk. apply (rule_call F HF P HP v c Hv Q). intros v0 c0 v1 c1 at_ uuid _ _ H1 H2 _ _.
  destruct (Hk v1 c1 at_ uuid H1 H2) as (e & -> & He). exact He.
Qed.
End calls.

(** ** No task is alive *)

(** The tasks [D] have died, and the variables are [x]. *)
Definition resting (hs : list (string * handler V)) (q : string) (D : list Task) (x : V) : assertion :=
  single hs q D (λ _ l x', l = Nowhere ∧ x' = x).

(** Nothing has been enqueued, and [n] queue names have been given. *)
Definition idle (T : time) (n : Z) (hs : list (string * handler V)) (x : V) : assertion := λ v c,
  resting hs "" [] x v c ∧ c_seq c = n ∧ T ≤ v_now v.

Lemma stable_seq n : stable (V := V) (λ _ c, c_seq c = n).
Proof using.
  intros v c v' c' _ Hn Ho. destruct Ho as [|a v c _ _ _| |]; try done.
  destruct a; simpl; try done. by destruct (handler_of k c).
Qed.

Lemma stable_resting hs q h D x : (∀ h', (q, h') ∈ hs → h' = h) → stable (resting hs q D x).
Proof using.
  intros Hh. apply (stable_single hs q h); [done|]. intros now now' l y l' y' [-> ->] Hs. by inversion Hs.
Qed.

Lemma stable_idle T n hs x : (∀ h, ("", h) ∉ hs) → stable (idle T n hs x).
Proof using.
  intros Hh. apply stable_and; [|apply stable_and; [apply stable_seq|apply stable_time]].
  apply (stable_resting hs "" (λ _, Ret nil_)). intros h' Hin. by destruct (Hh h').
Qed.

Lemma idle_resting T n hs x q v c : idle T n hs x v c → resting hs q [] x v c.
Proof using.
  intros [(Hp & l & Ha & -> & Hx) _]. split; [done|]. exists Nowhere. by split; [eapply alone_any|].
Qed.

(** The names [nextQueue] gives are not empty. *)
Lemma rule_nextQueue T n x {B} (k : string → test V B) Q v c :
  idle T n [] x v c →
  (∀ q v c, q ≠ "" → q = "q" +:+ pretty (wrap64 (n + 1)) → wf v c →
     idle T (wrap64 (n + 1)) [] x v c → twp (k q) Q v c) →
  twp (nextQueue ≫= k) Q v c.
Proof.
  intros Hv Hk. assert (stable (idle T n [] x)) as Hst.
  { apply stable_idle. intros h Hh. by apply not_elem_of_nil in Hh. }
  apply (rule_NextSeq F HF (idle T n [] x) Hst v c Hv).
  intros v1 c1 Hwf (Hs & <- & HT) n'. apply (Hk ("q" +:+ pretty n')); [done|done| |].
  - destruct Hwf. by split.
  - split; [|by split]. destruct Hs as (Hp & l & [Ap Ad Ar Ai Aq Ab] & Hl). split; [done|]. exists l. by split.
Qed.

(** Subscribing keeps what is known of one task. *)
Lemma wf_subscribed v (c : core V) q o h : wf v c → wf (apply (Subscribed q o) v) (add_handler h c).
Proof using.
  intros [Hnow Hlen Hinst Hopen]. split; simpl; [done| |done|].
  - by rewrite !length_app, Hlen.
  - intros i k' t st Hi. destruct (Hopen _ _ _ _ Hi) as (s & Hs & Hd). exists s. split; [|done].
    by apply lookup_app_l_Some.
Qed.

Lemma single_subscribed hs q0 D I q h o v c :
  single hs q0 D I v c → single (hs ++ [(q, h)]) q0 D I (apply (Subscribed q o) v) (add_handler h c).
Proof using.
  intros (Hp & l & [Ap Ad Ar Ai Aq Ab] & Hl). split; [by apply pools_consume|]. exists l. by split.
Qed.

(** The test assigns its variables. *)
Lemma wf_set_vars v c x : wf v c → wf v (set_vars x c).
Proof using. intros [????]. by split. Qed.

Lemma single_set_vars hs q D (I I' : time → loc → V → Prop) x v c :
  (∀ l, I (v_now v) l (c_vars c) → I' (v_now v) l x) →
  single hs q D I v c → single hs q D I' v (set_vars x c).
Proof using. intros HI (Hp & l & [Ap Ad Ar Ai Aq Ab] & Hl). split; [done|]. exists l. split; [by split|by apply HI]. Qed.

Lemma rule_subscribe hs q0 D I q h opts {B} (k : Err + nat → test V B) Q v c :
  stable (single hs q0 D I) → single hs q0 D I v c →
  (∀ v c, wf v c → single (hs ++ [(q, h)]) q0 D I v c → twp (k (inr (length hs))) Q v c) →
  twp (Consume q h opts ≫= k) Q v c.
Proof.
  intros Hst Hv Hk. apply (rule_consume F HF _ Hst v c Hv). intros v1 c1 Hwf H1.
  replace (length (c_handlers c1)) with (length hs) by (by destruct H1 as [[_ ->] _]; rewrite length_fmap).
  apply Hk; [by apply wf_subscribed|by apply single_subscribed].
Qed.

(** A new task: what [delivery] starts from. *)
Lemma resting_enqueue hs x q D payload opts at_ uuid M A out v c :
  let t := new_task at_ uuid q payload opts in
  0 ≤ MaxRetries t < max_int64 → A (v_now v) 0 x → resting hs q D x v c →
  single hs q D (delivery t M A out 0) (serve (CEnqueue q payload opts) at_ uuid v).2 c.
Proof using.
  intros t HM HA (Hp & l & Ha & -> & Hx).
  split; [by apply (pools_serve hs (CEnqueue q payload opts))|]. exists (Pend t). split; [by apply alone_enqueue|].
  rewrite Hx. by apply delivery_start.
Qed.

(** ** Waiting for a dead letter *)

Definition is_dead (l : loc (V := V)) : Prop := match l with Dead _ => True | _ => False end.

Lemma stable_dead hs q h D (I : time → loc → V → Prop) (ψ : loc → V → Prop) :
  (∀ h', (q, h') ∈ hs → h' = h) →
  (∀ now now' l x l' x', I now l x → loc_step h now now' l x l' x' → I now' l' x') →
  stable (single hs q D (λ now l x, I now l x ∧ is_dead l ∧ ψ l x)).
Proof using.
  intros Hh HI. apply (stable_single hs q h); [done|]. intros now now' l x l' x' (Hl & Hd & Hψ) Hs.
  split; [by eapply HI|]. destruct l; try done. by inversion Hs; subst.
Qed.

Lemma page_all {A} limit (l : list A) : 0 < limit → (Z.of_nat (length l) ≤ limit) → page limit 0 l = l.
Proof using. intros H0 Hl. unfold page. rewrite decide_True by done. simpl. rewrite drop_0, take_ge; [done|lia]. Qed.

Lemma single_dead hs q D I v c :
  single hs q D I v c → ∃ l : loc (V := V), alone q D l v c ∧ I (v_now v) l (c_vars c) ∧ v_dead v q = D ++ dead_of l.
Proof using. intros (_ & l & Ha & Hl). exists l. split_and!; [done|done|by eapply alone_dead]. Qed.

(** The first ten dead letters are all there are. *)
Lemma single_list hs q D I v c :
  (length D < 10)%nat → single hs q D I v c →
  ∃ l : loc (V := V), alone q D l v c ∧ I (v_now v) l (c_vars c) ∧ page 10 0 (v_dead v q) = D ++ dead_of l.
Proof using.
  intros HD (l & Ha & Hl & Hd)%single_dead. exists l. split_and!; [done..|]. rewrite Hd. apply page_all; [lia|].
  rewrite length_app. destruct l; simpl; lia.
Qed.

Lemma rule_dead_count hs q h D I v c :
  (∀ h', (q, h') ∈ hs → h' = h) →
  (∀ now now' l x l' x', I now l x → loc_step h now now' l x l' x' → I now' l' x') →
  (length D < 10)%nat → single hs q D I v c →
  twp (dead_count q (S (length D)))
    (λ b, if (b : bool) then single hs q D (λ now l x, I now l x ∧ is_dead l ∧ True) else single hs q D I) v c.
Proof.
  intros Hh HI HD Hv. assert (stable (single hs q D I)) as HS by (by eapply stable_single).
  apply (rule_List _ HS v c Hv). intros v1 c1 _ H1. rewrite check_ok.
  destruct (single_list _ _ _ _ _ _ HD H1) as (l & Ha & Hl & Hd). rewrite Hd.
  case_bool_decide as Hlen; [|by apply (rule_ret F HF (single hs q D I))].
  apply (rule_ret F HF (single hs q D (λ now l x, I now l x ∧ is_dead l ∧ True)));
    [by apply (stable_dead hs q h)| |done].
  destruct H1 as [Hp _]. split; [done|]. exists l. split_and!; [done|done| |done].
  rewrite length_app in Hlen. destruct l; simpl in *; lia || done.
Qed.
End statements.

(** ** The tests *)

(** A failure the state excludes. *)
Ltac fatal_false :=
  rewrite fatal_ok by first [done | by apply negb_decide | by apply bool_decide_false | by vm_compute |
    unfold time_IsZero; apply bool_decide_false; lia].

Section tests.
Context (F : string → time → Prop) (HF : ∀ m t t', t ≤ t' → F m t → F m t').
Context (Hwait : ∀ what t, F ("timed out waiting for " +:+ what) t) (Hstop : ∀ t, F "Stop: %v" t).

Abbreviation passes := (λ p v c, twp F p (λ _ _ _, True) v c).

Lemma one_pool {V} (q : string) (h : handler V) h' : (q, h') ∈ [(q, h)] → h' = h.
Proof using. intros Hin%list_elem_of_singleton. congruence. Qed.

(** How most tests begin: a queue and a pool. *)
Lemma rule_preamble {V} (x : V) T n h opts msg (body : string → test V unit) v c :
  idle T n [] x v c →
  (∀ q v c, q ≠ "" → wf v c → idle T (wrap64 (n + 1)) [(q, h)] x v c → passes (body q) v c) →
  passes (queue ← nextQueue; r ← Consume queue h opts; sub ← check_err msg r;
          deferring (stop sub) (body queue)) v c.
Proof using HF Hstop.
  intros Hi Hb. apply (rule_nextQueue F HF T n x); [done|]. clear v c Hi. intros q v c Hq _ Hwf (Hi & Hn & HT).
  apply (rule_consume F HF (idle T (wrap64 (n + 1)) [] x)); [|by split|].
  { apply stable_idle. intros h' Hh. by apply not_elem_of_nil in Hh. }
  clear v c Hi Hn HT Hwf. intros v c Hwf (Hi & Hn & HT). rewrite check_ok.
  apply (rule_deferring F HF); [done|by apply wf_subscribed|].
  apply Hb; [done|by apply wf_subscribed|]. split; [|by split]. by apply (single_subscribed []).
Qed.

Lemma add1_wrap n : add1 (wrap64 n) = wrap64 (n + 1).
Proof using.
  unfold add1, wrap64. f_equal.
  replace ((n - min_int64) mod two64 + min_int64 + 1 - min_int64)
    with ((n - min_int64) mod two64 + 1) by ring.
  rewrite Zplus_mod_idemp_l. f_equal. ring.
Qed.

(** No task is called [no-such-task]. *)
Lemma unknown_id (l : list Task) :
  Forall (λ t, String.length (ID t) = 36%nat) l → "no-such-task" ∉ ID <$> l.
Proof using.
  intros Hl (t & Ht & Hin)%list_elem_of_fmap. rewrite Forall_forall in Hl. specialize (Hl t Hin).
  by rewrite <- Ht in Hl.
Qed.

(** *** Tests of tasks that die *)

Section failing.
Context {V : Type} (h : handler V) (M : time → Z → Task → prog (sect V) Outcome → V → Prop).
Context (A : Z → V → Prop) (msg : string).
Context (Hat : ∀ t0, attempts t0 h M (λ _, A) (λ _, errors_New msg)).

Definition failing (t0 : Task) : time → loc → V → Prop :=
  delivery t0 M (λ _, A) (λ _, errors_New msg) 0.

Lemma failing_step t0 now now' l x l' x' :
  0 ≤ MaxRetries t0 < max_int64 →
  failing t0 now l x → loc_step h now now' l x l' x' → failing t0 now' l' x'.
Proof using Hat. intros HM. by apply (delivery_step t0 h). Qed.

Lemma failing_dead t0 now l x :
  failing t0 now l x → is_dead l →
  ∃ t, l = Dead t ∧ same_identity t0 t ∧ A (MaxRetries t0 + 1) x ∧
    Attempts t = MaxRetries t0 + 1 ∧ LastError t = msg ∧ zeroTime < DiedAt t.
Proof using.
  intros (n & HA & _ & _ & Hl) Hd. destruct l as [| | |t]; try done. exists t.
  destruct Hl as (Hid & -> & Ha & [= He] & Hd'). done.
Qed.

Context (q : string) (D : list Task).

Definition dying (t0 : Task) : assertion := single [(q, h)] q D (failing t0).
(** Where the task is dead. *)
Definition died (t0 : Task) : assertion :=
  single [(q, h)] q D (λ now l x, failing t0 now l x ∧ is_dead l ∧ True).

Lemma stable_dying t0 : 0 ≤ MaxRetries t0 < max_int64 → stable (dying t0).
Proof using Hat. intros HM. eapply stable_single; [apply one_pool|]. intros. by eapply failing_step. Qed.

Lemma stable_died t0 : 0 ≤ MaxRetries t0 < max_int64 → stable (died t0).
Proof using Hat. intros HM. eapply stable_dead; [apply one_pool|]. intros. by eapply failing_step. Qed.

(** A task that will die is enqueued. *)
Lemma rule_enqueue_dying x payload opts {B} (k : Task → test V B) Q v c :
  0 ≤ eo_MaxRetries (NewEnqueueOptions opts) < max_int64 → A 0 x →
  resting [(q, h)] q D x v c →
  (∀ at_ uuid v c, let t0 := new_task at_ uuid q (Some (String.list_byte_of_string payload)) opts in
     String.length uuid = 36%nat → 0 ≤ MaxRetries t0 < max_int64 → wf v c → dying t0 v c → twp F (k t0) Q v c) →
  twp F (Enqueue q payload opts ≫= λ r, check_err "Enqueue: %v" r ≫= k) Q v c.
Proof using HF.
  intros HM HA Hi Hk. apply (rule_Enqueue F HF _ (stable_resting _ q h D x (one_pool q _)) v c Hi).
  clear v c Hi. intros _ _ v c at_ uuid _ _ Hwf Hi _ [Hu _]. cbv zeta. rewrite check_ok.
  apply Hk; [done|done|by apply wf_serve|]. by eapply resting_enqueue.
Qed.

(** The test waits until it has died. *)
Lemma rule_wait_died t0 what {B} (k : unit → test V B) Q v c :
  (length D < 10)%nat → 0 ≤ MaxRetries t0 < max_int64 → wf v c → dying t0 v c →
  (∀ v c, wf v c → died t0 v c → twp F (k tt) Q v c) →
  twp F (waitFor what (dead_count q (S (length D))) ≫= k) Q v c.
Proof using HF Hwait Hat.
  intros HD HM Hwf Hv Hk.
  apply (rule_waitFor F HF (dying t0) (died t0)); [by apply stable_dying|by apply stable_died|done| |done|done|done].
  intros v1 c1 Hwf1 H1. apply (rule_dead_count F HF _ q h D); [apply one_pool| |done|done].
  intros. by eapply failing_step.
Qed.
End failing.

Lemma simple_failing {V} (g : time → Task → V → Outcome * V) (A : Z → V → Prop) msg t0 :
  (∀ n now t x, A n x → 0 ≤ n → (g now t x).1 = errors_New msg ∧ A (n + 1) (g now t x).2) →
  attempts t0 (simple g) (one_step g) (λ _, A) (λ _, errors_New msg).
Proof using. intros Hg. apply simple_attempts; [done|]. intros n now t x Hx _ Hn _. by apply Hg. Qed.

Lemma testZeroMaxRetries_safe T sq v c : idle T sq [] (mkCount 0) v c → passes testZeroMaxRetries v c.
Proof.
  intros Hi. apply (rule_preamble (mkCount 0) T sq); [done|]. clear v c Hi. intros q v c Hq Hwf Hi.
  set (g := λ (_ : time) (_ : Task) (v : count_vars), (errors_New "fails once", mkCount (add1 (count v)))).
  set (A := λ n x, count x = wrap64 n).
  assert (∀ n now t x, A n x → 0 ≤ n → (g now t x).1 = errors_New "fails once" ∧ A (n + 1) (g now t x).2) as Hg.
  { intros n now t x Hn _. split; [done|]. unfold A. simpl. by rewrite Hn, add1_wrap. }
  assert (∀ t0, attempts t0 (simple g) (one_step g) (λ _, A) (λ _, errors_New "fails once")) as Hat
    by (intros t0; by apply simple_failing).
  apply (rule_enqueue_dying (simple g) (one_step g) A "fails once" q [] (mkCount 0)); [by vm_compute|done|by eapply idle_resting|].
  clear v c Hwf Hi. intros at_ uuid v c t0 _ HM Hwf Hs.
  apply (rule_wait_died (simple g) (one_step g) A "fails once" Hat q [] t0); [simpl; lia|done..|].
  clear v c Hwf Hs. intros v c _ Hs. pose proof (stable_died (simple g) (one_step g) A "fails once" Hat q [] t0 HM) as Hst.
  apply (rule_sleep F HF _ Hst); [done|]. clear v c Hs. intros v c _ Hs.
  apply (rule_read F HF _ Hst _ _ Hs). clear v c Hs. intros v c _ (_ & l & _ & Hl & Hd & _).
  destruct (failing_dead _ _ _ _ _ _ _ Hl Hd) as (t & _ & _ & Hc & _). rewrite Hc. apply (rule_done F HF).
Qed.

Lemma testRetriesExhausted_safe T sq v c : idle T sq [] (mkExhausted 0 []) v c → passes testRetriesExhausted v c.
Proof.
  intros Hi. apply (rule_preamble (mkExhausted 0 []) T sq); [done|]. clear v c Hi. intros q v c Hq Hwf Hi.
  set (g := λ (_ : time) (_ : Task) v, (errors_New "permanent failure", mkExhausted (add1 (invocations v)) (dead v))).
  set (A := λ n x, invocations x = wrap64 n).
  assert (∀ n now t x, A n x → 0 ≤ n → (g now t x).1 = errors_New "permanent failure" ∧ A (n + 1) (g now t x).2) as Hg.
  { intros n now t x Hn _. split; [done|]. unfold A. simpl. by rewrite Hn, add1_wrap. }
  assert (∀ t0, attempts t0 (simple g) (one_step g) (λ _, A) (λ _, errors_New "permanent failure")) as Hat
    by (intros t0; by apply simple_failing).
  apply (rule_enqueue_dying (simple g) (one_step g) A "permanent failure" q [] (mkExhausted 0 [])); [by vm_compute|done|by eapply idle_resting|].
  clear v c Hwf Hi. intros at_ uuid v c t0 _ HM Hwf Hs.
  pose proof (stable_dying (simple g) (one_step g) A "permanent failure" Hat q [] t0 HM) as Hdying.
  set (C := single [(q, simple g)] q [] (λ now l x, failing (one_step g) A "permanent failure" t0 now l x ∧ is_dead l ∧ dead x = dead_of l)).
  assert (stable C) as HC.
  { apply (stable_dead _ _ (simple g)); [apply one_pool|]. intros. by eapply failing_step. }
  apply (rule_waitFor F HF (dying (simple g) (one_step g) A "permanent failure" q [] t0) C); [done..| |done|done|].
  - clear v c Hwf Hs. intros v c _ Hs. apply (rule_List F HF _ Hdying v c Hs).
    clear v c Hs. intros v c Hwf Hs. rewrite check_ok.
    destruct (single_list _ q [] _ v c ltac:(simpl; lia) Hs) as (l & Ha & Hl & Hpage). rewrite Hpage.
    destruct (decide (length ([] ++ dead_of l) = 1%nat)) as [Hlen|Hlen].
    + assert (∃ t, l = Dead t) as [t ->] by (destruct l; try done; eauto).
      set (I := λ now l x, failing (one_step g) A "permanent failure" t0 now l x ∧ is_dead l ∧ l = Dead t).
      assert (stable (single [(q, simple g)] q [] I)) as HI.
      { apply (stable_dead _ _ (simple g) _ _ (λ l _, l = Dead t)); [apply one_pool|]. intros. by eapply failing_step. }
      apply (rule_section F HF _ HI); [by destruct Hs; split; [|exists (Dead t)]|].
      clear v c Hwf Hs Ha Hl Hpage. intros v c Hwf Hs. rewrite bool_decide_true by done.
      apply (rule_ret F HF C); [done| |done].
      eapply single_set_vars; [|exact Hs]. intros l (Hl & Hd & ->). done.
    + apply (rule_section F HF _ Hdying); [done|].
      clear v c Hwf Hs Ha Hl Hpage. intros v c Hwf Hs. rewrite bool_decide_false by done.
      apply (rule_ret F HF _ _ _ _ _ Hdying); [|done].
      eapply single_set_vars; [|exact Hs]. done.
  - clear v c Hwf Hs. intros v c _ Hs. apply (rule_sleep F HF _ HC); [done|]. clear v c Hs. intros v c _ Hs.
    assert (∀ v c, C v c → ∃ t, invocations (c_vars c) = 2 ∧ dead (c_vars c) = [t] ∧ same_identity t0 t ∧
      Attempts t = 2 ∧ LastError t = "permanent failure" ∧ zeroTime < DiedAt t) as HCt.
    { intros v1 c1 (_ & l & _ & Hl & Hd & Hdl).
      destruct (failing_dead _ _ _ _ _ _ _ Hl Hd) as (t & -> & Hid & HA & Ha & He & Hz). exists t. by split_and!. }
    apply (rule_read F HF _ HC _ _ Hs). clear v c Hs. intros v c _ Hs.
    destruct (HCt v c Hs) as (_ & -> & _). rewrite fatal_ok by done.
    apply (rule_read F HF _ HC _ _ Hs). clear v c Hs. intros v c _ Hs.
    destruct (HCt v c Hs) as (t & _ & -> & (Hid & _ & Hp & _) & Ha & He & Hd). rewrite (deref_ok _ t) by done.
    rewrite <- Hid, <- Hp, Ha, He. do 4 fatal_false. apply (rule_done F HF).
Qed.

Lemma testDeleteDeadTask_safe T sq v c : idle T sq [] tt v c → passes testDeleteDeadTask v c.
Proof.
  intros Hi. apply (rule_preamble tt T sq); [done|]. clear v c Hi. intros q v c Hq Hwf Hi.
  set (g := λ (_ : time) (_ : Task) (v : unit), (errors_New "always fails", v)).
  set (A := λ (_ : Z) (_ : unit), True).
  assert (∀ n now t x, A n x → 0 ≤ n → (g now t x).1 = errors_New "always fails" ∧ A (n + 1) (g now t x).2) as Hg
    by done.
  assert (∀ t0, attempts t0 (simple g) (one_step g) (λ _, A) (λ _, errors_New "always fails")) as Hat
    by (intros t0; by apply simple_failing).
  apply (rule_enqueue_dying (simple g) (one_step g) A "always fails" q [] tt); [by vm_compute|done|by eapply idle_resting|].
  clear v c Hwf Hi. intros at_ uuid v c t0 Hu HM Hwf Hs.
  apply (rule_wait_died (simple g) (one_step g) A "always fails" Hat q [] t0); [simpl; lia|done..|].
  clear v c Hwf Hs. intros v c _ Hs. pose proof (stable_died (simple g) (one_step g) A "always fails" Hat q [] t0 HM) as Hst.
  assert (∀ v c, died (simple g) (one_step g) A "always fails" q [] t0 v c → ∃ t, alone q [] (Dead t) v c ∧ ID t = ID t0) as Hdead.
  { intros v1 c1 (_ & l & Ha & Hl & Hd & _).
    destruct (failing_dead _ _ _ _ _ _ _ Hl Hd) as (t & -> & [Hid _] & _). by exists t. }
  apply (rule_Delete F HF _ Hst _ _ Hs). clear v c Hs. intros v c at1 uuid1 _ Hs.
  destruct (Hdead v c Hs) as (t & Ha & Hid).
  rewrite serve_unknown_delete by (rewrite (alone_dead _ _ _ _ _ Ha); by apply unknown_id, Forall_singleton; rewrite Hid).
  exists (Some ErrTaskNotFound). split; [done|]. cbn [snd]. fatal_false. clear t Ha Hid.
  apply (rule_Delete F HF _ Hst _ _ Hs). clear v c Hs. intros v c at2 uuid2 Hwf Hs.
  destruct (Hdead v c Hs) as (t & Ha & Hid). rewrite <- Hid.
  destruct (alone_delete q t v c at2 uuid2 Ha) as [He Ha']. rewrite He. exists None. split; [done|]. fatal_false.
  assert (resting [(q, simple g)] q [] tt (serve (CDeleteDeadTask q (ID t)) at2 uuid2 v).2 c) as Hrest.
  { split; [by apply (pools_serve _ (CDeleteDeadTask q (ID t))), Hs|]. exists Nowhere. by destruct (c_vars c). }
  assert (stable (resting [(q, simple g)] q [] tt)) as HR by (eapply stable_resting; apply one_pool).
  rewrite Hid in *.
  apply (rule_List F HF _ HR _ _ Hrest). clear v c Hs Hwf Ha Ha' He Hrest t Hid. intros v c _ Hs. rewrite check_ok.
  assert (∀ v c, resting [(q, simple g)] q [] tt v c → v_dead v q = []) as Hnone.
  { intros v1 c1 (_ & l & Ha & -> & _). apply (alone_dead _ _ _ _ _ Ha). }
  rewrite (Hnone v c Hs). fatal_false.
  apply (rule_Delete F HF _ HR _ _ Hs). clear v c Hs. intros v c at3 uuid3 _ Hs.
  rewrite serve_unknown_delete by (rewrite (Hnone v c Hs); by apply not_elem_of_nil).
  exists (Some ErrTaskNotFound). split; [done|]. apply (rule_done F HF).
Qed.

(** *** Tests of tasks that succeed *)

Lemma rule_wait_read {V} (P C : assertion (V := V)) (f : V → bool) what {B} (k : unit → test V B) Q v c :
  stable P → stable C → (∀ v c, wf v c → P v c → f (c_vars c) = true → C v c) → wf v c → P v c →
  (∀ v c, wf v c → C v c → twp F (k tt) Q v c) → twp F (waitFor what (read f) ≫= k) Q v c.
Proof using HF Hwait.
  intros HP HC Hf Hwf Hv Hk. apply (rule_waitFor F HF P C HP HC); [done| |done|done|done].
  intros v1 c1 _ H1. change (twp F (read f ≫= mret) (λ b, if (b : bool) then C else P) v1 c1).
  apply (rule_read F HF P HP _ _ H1). clear v1 c1 H1. intros v1 c1 Hwf1 H1.
  destruct (f (c_vars c1)) eqn:Hfx.
  - apply (rule_ret F HF C); [done|by apply Hf|done].
  - by apply (rule_ret F HF P).
Qed.

Section delivered.
Context {V : Type} (h : handler V) (M : time → Z → Task → prog (sect V) Outcome → V → Prop).
Context (A : time → Z → V → Prop) (out : Z → Outcome).
Context (hs : list (string * handler V)) (q : string) (t0 : Task).
Context (Hhs : ∀ h', (q, h') ∈ hs → h' = h).
Context (HM : 0 ≤ MaxRetries t0 < max_int64) (Hat : attempts t0 h M A out).

Lemma stable_delivery m : stable (single hs q [] (delivery t0 M A out m)).
Proof using Hhs HM Hat. apply (stable_single hs q h); [done|]. intros *. by apply (delivery_step t0 h). Qed.

(** When the variables show that [m] attempts have been made, that stays. *)
Lemma rule_wait_attempts m f what {B} (k : unit → test V B) Q v c :
  (∀ now n x, A now n x → 0 ≤ n → f x = true → m ≤ n) → wf v c → single hs q [] (delivery t0 M A out 0) v c →
  (∀ v c, wf v c → single hs q [] (delivery t0 M A out m) v c → twp F (k tt) Q v c) →
  twp F (waitFor what (read f) ≫= k) Q v c.
Proof using HF Hwait Hhs HM Hat.
  intros Hf Hwf Hv Hk. eapply (rule_wait_read _ _ f); [apply (stable_delivery 0)|apply (stable_delivery m)| |done..].
  intros v1 c1 _ (Hp & l & Ha & n & Hx & _ & Hn & Hl) Hfx. split; [done|]. exists l. split; [done|].
  exists n. split; [done|]. split; [|done]. eapply Hf; [done|lia|done].
Qed.

(** What is known of the variables. *)
Lemma delivered_vars m v c :
  single hs q [] (delivery t0 M A out m) v c → ∃ n, A (v_now v) n (c_vars c) ∧ m ≤ n ≤ MaxRetries t0 + 1.
Proof using. intros (_ & l & _ & n & Hx & Hm & Hn & _). exists n. split; [done|lia]. Qed.

(** No attempt is the last: nothing is dead. *)
Lemma delivered_alive m v c :
  (∀ n, failed out n → n = 0) → single hs q [] (delivery t0 M A out m) v c → v_dead v q = [].
Proof using HM.
  intros Ho (_ & l & Ha & Hl). rewrite (alone_dead _ _ _ _ _ Ha). simpl. by eapply delivery_alive.
Qed.
End delivered.

(** After one good attempt there is no other. *)
Lemma untried_first t0 n now t : 0 ≤ n → untried t0 (λ _, nil_) n now t → n = 0.
Proof using. by intros _ (_ & _ & [->|[? [=]]] & _). Qed.

(** *** RequeueDeadTask *)

(** The handler once it has seen that it may succeed. *)
Definition requeue_succeed (task : Task) : prog (sect requeue_vars) Outcome :=
  _ ← atomic (λ v, (tt, mkRequeue (fail v) (successAttempts v ++ [Attempts task]))); Ret nil_.

Definition while_failing (_ : time) (_ : Z) (t : Task) (p : prog (sect requeue_vars) Outcome) (_ : requeue_vars) : Prop :=
  p = requeue_handler t.
Definition not_yet (_ : Z) (x : requeue_vars) : Prop := x = mkRequeue true [].

Lemma requeue_attempts_fail t0 :
  attempts t0 requeue_handler while_failing (λ _, not_yet) (λ _, errors_New "failing phase").
Proof using. split; try done. intros now n t p x p' x' -> _ _ _ -> Hf. simpl in Hf. right. by simplify_eq. Qed.

Definition while_succeeding (_ : time) (_ : Z) (t : Task) (p : prog (sect requeue_vars) Outcome) (_ : requeue_vars) : Prop :=
  p = requeue_handler t ∨ p = requeue_succeed t.
Definition once (_ : time) (n : Z) (x : requeue_vars) : Prop :=
  x = mkRequeue false (if decide (n = 0) then [] else [1]).

Lemma requeue_attempts_succeed t0 : attempts t0 requeue_handler while_succeeding once (λ _, nil_).
Proof using.
  split; try done.
  - by left.
  - intros now n t p x p' x' Hx _ Hn Hu Hp Hf. assert (n = 0) as -> by by eapply untried_first.
    unfold once in *. simpl in Hx. subst x. destruct Hu as [Ha _]. destruct Hp as [-> | ->]; simpl in Hf; simplify_eq.
    + left. split; [done|]. by right.
    + right. simpl. by rewrite Ha.
  - by intros now n t o x [?|?].
Qed.

(** What is known when the task has died. *)
Lemma requeue_dead q t0 v c :
  died requeue_handler while_failing not_yet "failing phase" q [] t0 v c →
  ∃ t, alone q [] (Dead t) v c ∧ ID t = ID t0 ∧ MaxRetries t = MaxRetries t0 ∧
    pools [(q, requeue_handler)] v c ∧ c_vars c = mkRequeue true [].
Proof using.
  intros (Hp & l & Ha & Hl & Hd & _).
  destruct (failing_dead _ _ _ _ _ _ _ Hl Hd) as (t & -> & (Hid & _ & _ & _ & Hr & _) & HA & _). by exists t.
Qed.

(** The test once the task is revived. *)
Lemma requeue_revived q t1 v c :
  0 ≤ MaxRetries t1 < max_int64 → wf v c →
  single [(q, requeue_handler)] q [] (delivery t1 while_succeeding once (λ _, nil_) 0) v c →
  passes (_ ← waitFor "requeued task success" (read (λ v, bool_decide (length (successAttempts v) = 1%nat)));
    l ← read successAttempts;
    n ← deref (l !! 0%nat);
    _ ← fatal_if (negb (bool_decide (n = 1))) "requeued task Attempts = %d, want 1 (counter reset)";
    r ← ListDeadTasks q 10 0;
    dead ← check_err "ListDeadTasks: %v" r;
    fatal_if (negb (bool_decide (length dead = 0%nat))) "dead tasks after requeue = %d, want 0") v c.
Proof.
  intros HM Hwf Hs. pose proof (requeue_attempts_succeed t1) as Hat.
  eapply (rule_wait_attempts requeue_handler while_succeeding once _ _ q t1 (one_pool q _) HM Hat 1);
    [|exact Hwf|exact Hs|].
  { intros _ n x -> Hn Hlen. apply bool_decide_eq_true in Hlen. simpl in Hlen. case_decide; [done|lia]. }
  pose proof (stable_delivery requeue_handler while_succeeding once _ _ q t1 (one_pool q _) HM Hat 1) as Hst.
  clear v c Hwf Hs. intros v c _ Hs.
  apply (rule_read F HF _ Hst _ _ Hs). clear v c Hs. intros v c _ Hs.
  destruct (delivered_vars _ _ _ _ _ _ _ _ _ Hs) as (n & -> & Hn). cbn [successAttempts].
  rewrite decide_False by lia. rewrite (deref_ok _ 1) by done. fatal_false.
  apply (rule_List F HF _ Hst _ _ Hs). clear v c Hs. intros v c _ Hs. rewrite check_ok.
  assert (v_dead v q = []) as ->.
  { eapply (delivered_alive while_succeeding once (λ _, nil_)); [exact HM| |exact Hs]. by intros k [->|[? [=]]]. }
  apply (rule_done F HF).
Qed.

Lemma testRequeueDeadTask_safe T sq v c : idle T sq [] (mkRequeue true []) v c → passes testRequeueDeadTask v c.
Proof.
  intros Hi. apply (rule_preamble (mkRequeue true []) T sq); [done|]. clear v c Hi. intros q v c Hq Hwf Hi.
  apply (rule_enqueue_dying requeue_handler while_failing not_yet "failing phase" q [] (mkRequeue true []));
    [by vm_compute|done|by eapply idle_resting|].
  clear v c Hwf Hi. intros at_ uuid v c t0 Hu HM Hwf Hs. assert (MaxRetries t0 = 0) as H0 by done.
  apply (rule_wait_died _ _ _ _ requeue_attempts_fail q [] t0); [simpl; lia|done..|].
  clear v c Hwf Hs. intros v c _ Hs. pose proof (stable_died _ _ _ _ requeue_attempts_fail q [] t0 HM) as Hst.
  apply (rule_Requeue F HF _ Hst _ _ Hs). clear v c Hs. intros v c at1 uuid1 _ Hs _.
  destruct (requeue_dead _ _ _ _ Hs) as (t & Ha & Hid & _).
  rewrite serve_unknown_requeue by (rewrite (alone_dead _ _ _ _ _ Ha); by apply unknown_id, Forall_singleton; rewrite Hid).
  exists (Some ErrTaskNotFound). split; [done|]. cbn [snd]. fatal_false. clear t Ha Hid.
  (* fail.Store(false) *)
  apply (rule_section F HF _ Hst _ _ Hs). clear v c Hs. intros v c Hwf Hs.
  destruct (requeue_dead _ _ _ _ Hs) as (t & Ha & Hid & Hr & Hp & Hx). rewrite Hx. cbn [fst snd successAttempts].
  set (P := single [(q, requeue_handler)] q [] (λ _ l x, True ∧ is_dead l ∧ (l = Dead t ∧ x = mkRequeue false []))).
  assert (stable P) as HP.
  { apply (stable_dead _ _ requeue_handler _ (λ _ _ _, True) (λ l x, l = Dead t ∧ x = mkRequeue false []));
      [apply one_pool|done]. }
  assert (P v (set_vars (mkRequeue false []) c)) as Hs' by (split; [done|]; exists (Dead t); by destruct Ha).
  rewrite <- Hid. apply (rule_Requeue F HF _ HP _ _ Hs'). clear v c Hs Hs' Hwf Ha Hp Hx.
  intros v c at2 uuid2 Hwf (Hp & l & Ha & _ & _ & -> & Hx) _.
  destruct (alone_requeue q t v c at2 uuid2 Ha) as [He Ha']. rewrite He. exists None. split; [done|]. fatal_false.
  assert (0 ≤ MaxRetries (revived at2 t) < max_int64) as HM1 by (simpl; rewrite Hr, H0; lia).
  apply (requeue_revived q (revived at2 t)); [done|by apply wf_serve|].
  split; [by apply (pools_serve _ (CRequeueDeadTask q (ID t)))|]. exists (Pend (revived at2 t)). split; [done|].
  apply delivery_start; [done| |done]. by rewrite Hx.
Qed.

Lemma testEnqueueAndConsume_safe T sq v c : idle T sq [] (mkGot None) v c → passes testEnqueueAndConsume v c.
Proof.
  intros Hi. apply (rule_nextQueue F HF T sq (mkGot None)); [done|]. clear v c Hi. intros q v c Hq _ Hwf Hi.
  assert (stable (resting (V := got_vars) [] q [] (mkGot None))) as Hrest.
  { apply (stable_resting _ q (λ _, Ret nil_)). intros h Hh. by apply not_elem_of_nil in Hh. }
  apply (rule_Enqueue F HF _ Hrest _ _ (idle_resting _ _ _ _ q _ _ Hi)). clear v c Hwf Hi.
  intros _ _ v c at_ uuid _ _ Hwf Hi _ [Hu _]. cbv zeta. rewrite check_ok.
  set (t0 := new_task at_ uuid q _ _). change (ID t0) with uuid. change (Queue t0) with q.
  rewrite fatal_ok by (apply bool_decide_false; intros He; by rewrite He in Hu). do 2 fatal_false.
  set (g := λ (_ : time) task (_ : got_vars), (nil_, mkGot (Some task))).
  set (A := λ (_ : time) (n : Z) x, if decide (n = 0) then x = mkGot None
    else ∃ t, x = mkGot (Some t) ∧ same_identity t0 t ∧ Attempts t = 1).
  assert (0 ≤ MaxRetries t0 < max_int64) as HM by by vm_compute.
  assert (∀ now now' n x, now ≤ now' → A now n x → A now' n x) as HA by done.
  assert (∀ n now t x, A now n x → same_identity t0 t → 0 ≤ n → untried t0 (λ _, nil_) n now t →
    (g now t x).1 = nil_ ∧ A now (n + 1) (g now t x).2) as Hg.
  { intros n now t x _ Hid Hn Hut. assert (n = 0) as -> by by eapply untried_first.
    destruct Hut as [Ha _]. split; [done|]. unfold A. simpl. by exists t. }
  pose proof (simple_attempts t0 g A (λ _, nil_) HA Hg) as Hat.
  set (v' := (serve _ at_ uuid v).2).
  assert (single [] q [] (delivery t0 (one_step g) A (λ _, nil_) 0) v' c) as Hs
    by (apply (resting_enqueue [] (mkGot None)); [exact HM|done|exact Hi]).
  assert (wf v' c) as Hwf' by by apply wf_serve. clearbody v'. clear v Hwf Hi.
  assert (∀ h', (q, h') ∈ [] → h' = simple g) as Hno by (intros h' Hh; by apply not_elem_of_nil in Hh).
  eapply (rule_subscribe F HF [] q [] _ q (simple g));
    [exact (stable_delivery (simple g) (one_step g) A (λ _, nil_) [] q t0 Hno HM Hat 0)|exact Hs|].
  clear v' c Hs Hwf'. intros v c Hwf Hs. rewrite check_ok. apply (rule_deferring F HF); [done..|].
  eapply (rule_wait_attempts (simple g) (one_step g) A (λ _, nil_) _ q t0 (one_pool q _) HM Hat 1); [|exact Hwf|exact Hs|].
  { intros now n x HAx Hn Hsome. unfold A in HAx. case_decide; [by subst x|lia]. }
  clear v c Hwf Hs. intros v c _ Hs.
  apply (rule_read F HF _ (stable_delivery (simple g) (one_step g) A (λ _, nil_) _ q t0 (one_pool q _) HM Hat 1) _ _ Hs).
  clear v c Hs. intros v c _ Hs. destruct (delivered_vars _ _ _ _ _ _ _ _ _ Hs) as (n & HAx & Hn).
  unfold A in HAx. rewrite decide_False in HAx by lia.
  destruct HAx as (t & -> & (Hid & _ & Hp & Hmd & _) & Ha). rewrite (deref_ok _ t) by done.
  rewrite <- Hid, <- Hp, <- Hmd, Ha. do 3 fatal_false. apply (rule_done F HF).
Qed.

Lemma testRetryThenSucceed_safe T sq v c : idle T sq [] (mkSeen []) v c → passes testRetryThenSucceed v c.
Proof.
  intros Hi. apply (rule_preamble (mkSeen []) T sq); [done|]. clear v c Hi. intros q v c Hq Hwf Hi.
  set (g := λ (_ : time) task v,
        let v := mkSeen (attemptsSeen v ++ [Attempts task]) in
        let n := length (attemptsSeen v) in
        (if decide (n < 3)%nat then errors_New "transient failure" else nil_, v)).
  set (out := λ n, if decide (n < 3) then errors_New "transient failure" else nil_).
  set (A := λ (_ : time) n x, n ≤ 3 ∧ attemptsSeen x = Z.of_nat <$> List.seq 1 (Z.to_nat n)).
  apply (rule_Enqueue F HF _ (stable_resting _ q (simple g) [] _ (one_pool q _)) _ _ (idle_resting _ _ _ _ q _ _ Hi)).
  clear v c Hwf Hi. intros _ _ v c at_ uuid _ _ Hwf Hi _ _. cbv zeta. rewrite check_ok.
  set (t0 := new_task at_ uuid q (Some (String.list_byte_of_string "flaky")) []).
  assert (0 ≤ MaxRetries t0 < max_int64) as HM by by vm_compute.
  assert (∀ now now' n x, now ≤ now' → A now n x → A now' n x) as HA by done.
  assert (∀ n now t x, A now n x → same_identity t0 t → 0 ≤ n → untried t0 out n now t →
    (g now t x).1 = out (n + 1) ∧ A now (n + 1) (g now t x).2) as Hg.
  { intros n now t x [Hn3 Hx] _ Hn (Ha & _ & Hf & _). assert (n < 3) as Hlt.
    { destruct Hf as [->|Hf]; [lia|]. unfold out in Hf. case_decide; [done|]. by destruct Hf. }
    assert (attemptsSeen x ++ [Attempts t] = Z.of_nat <$> List.seq 1 (Z.to_nat (n + 1))) as Heq.
    { rewrite Hx, Ha, Z2Nat.inj_add, Nat.add_1_r, seq_S, fmap_app by lia. simpl. do 2 f_equal. lia. }
    unfold g, A, out. cbn [fst snd attemptsSeen]. rewrite Heq, length_fmap, length_seq. split; [|split; [lia|done]].
    repeat case_decide; done || lia. }
  pose proof (simple_attempts t0 g A out HA Hg) as Hat.
  set (v' := (serve _ at_ uuid v).2).
  assert (single [(q, simple g)] q [] (delivery t0 (one_step g) A out 0) v' c) as Hs
    by (apply (resting_enqueue _ (mkSeen [])); [exact HM|done|exact Hi]).
  assert (wf v' c) as Hwf' by by apply wf_serve. clearbody v'.
  eapply (rule_wait_attempts (simple g) (one_step g) A out _ q t0 (one_pool q _) HM Hat 3); [|exact Hwf'|exact Hs|].
  { intros now n x [_ ->] Hn Hlen. apply bool_decide_eq_true in Hlen. rewrite length_fmap, length_seq in Hlen. lia. }
  clear v v' c Hwf Hwf' Hi Hs. intros v c _ Hs.
  pose proof (stable_delivery (simple g) (one_step g) A out _ q t0 (one_pool q _) HM Hat 3) as Hst.
  apply (rule_sleep F HF _ Hst); [done|]. clear v c Hs. intros v c _ Hs.
  apply (rule_read F HF _ Hst _ _ Hs). clear v c Hs. intros v c _ Hs.
  assert (∀ v c, single [(q, simple g)] q [] (delivery t0 (one_step g) A out 3) v c →
    attemptsSeen (c_vars c) = [1; 2; 3] ∧ v_dead v q = []) as Hthree.
  { clear v c Hs. intros v c (_ & l & Ha & n & [Hn3 Hx] & Hn & _ & Hl). assert (n = 3) as -> by lia.
    split; [done|]. rewrite (alone_dead _ _ _ _ _ Ha). destruct l as [| | |t]; try done.
    by destruct Hl as (_ & _ & _ & [=] & _). }
  destruct (Hthree v c Hs) as [-> _]. do 2 fatal_false.
  apply (rule_List F HF _ Hst _ _ Hs). clear v c Hs. intros v c _ Hs. rewrite check_ok.
  destruct (Hthree v c Hs) as [_ ->]. apply (rule_done F HF).
Qed.

(** Two calls of [nextQueue] in a row give two names. *)
Lemma names_differ n : "q" +:+ pretty (wrap64 n) ≠ "q" +:+ pretty (wrap64 (wrap64 n + 1)).
Proof using.
  intros Hq. assert (pretty (wrap64 n) = pretty (wrap64 (wrap64 n + 1))) as Heq by by injection Hq.
  apply (inj pretty) in Heq. revert Heq. generalize (wrap64 n) (wrap64_in_int64 n). intros k Hk.
  destruct (decide (k = max_int64)) as [->|]; [by vm_compute|].
  rewrite wrap64_succ; [lia|done|unfold in_int64 in Hk; lia].
Qed.

Lemma testQueuesAreIsolated_safe T sq v c : idle T sq [] (mkIsolated 0 0) v c → passes testQueuesAreIsolated v c.
Proof.
  intros Hi. apply (rule_nextQueue F HF T sq (mkIsolated 0 0)); [done|]. clear v c Hi. intros qA v c _ HqA _ Hi.
  apply (rule_nextQueue F HF T _ (mkIsolated 0 0) _ _ _ _ Hi). clear v c Hi. intros qB v c _ HqB _ Hi.
  assert (qA ≠ qB) as Hne by (subst qA qB; apply names_differ). clear HqA HqB.
  set (gA := λ (_ : time) (_ : Task) v, (nil_, mkIsolated (add1 (deliveredA v)) (deliveredB v))).
  set (gB := λ (_ : time) (_ : Task) v, (nil_, mkIsolated (deliveredA v) (add1 (deliveredB v)))).
  apply idle_resting with (q := qA) in Hi.
  eapply (rule_subscribe F HF [] qA []); [|exact Hi|].
  { apply (stable_resting _ qA (simple gA)). intros h Hh. by apply not_elem_of_nil in Hh. }
  clear v c Hi. intros v c Hwf Hi. rewrite check_ok. apply (rule_deferring F HF); [done..|].
  eapply (rule_subscribe F HF _ qA []); [|exact Hi|]; [apply (stable_resting _ qA (simple gA)), one_pool|].
  clear v c Hwf Hi. intros v c Hwf Hi. rewrite check_ok. apply (rule_deferring F HF); [done..|]. simpl in Hi.
  set (hs := [(qA, simple gA); (qB, simple gB)]).
  assert (∀ h', (qA, h') ∈ hs → h' = simple gA) as Hhs.
  { intros h'. unfold hs. rewrite !elem_of_cons, elem_of_nil. intros [?|[?|?]]; congruence || done. }
  apply (rule_Enqueue F HF _ (stable_resting hs qA (simple gA) [] (mkIsolated 0 0) Hhs) _ _ Hi).
  clear v c Hwf Hi. intros _ _ v c at_ uuid _ _ Hwf Hi _ _. cbv zeta. rewrite check_ok.
  set (t0 := new_task at_ uuid qA (Some (String.list_byte_of_string "for-A")) []).
  set (A := λ (_ : time) n x, 0 ≤ n ≤ 1 ∧ x = mkIsolated n 0).
  assert (0 ≤ MaxRetries t0 < max_int64) as HM by by vm_compute.
  assert (∀ now now' n x, now ≤ now' → A now n x → A now' n x) as HA by done.
  assert (∀ n now t x, A now n x → same_identity t0 t → 0 ≤ n → untried t0 (λ _, nil_) n now t →
    (gA now t x).1 = nil_ ∧ A now (n + 1) (gA now t x).2) as Hg.
  { intros n now t x [_ ->] _ Hn Hut. assert (n = 0) as -> by by eapply untried_first. by split. }
  pose proof (simple_attempts t0 gA A (λ _, nil_) HA Hg) as Hat.
  set (v' := (serve _ at_ uuid v).2).
  assert (single hs qA [] (delivery t0 (one_step gA) A (λ _, nil_) 0) v' c) as Hs
    by (apply (resting_enqueue _ (mkIsolated 0 0)); [exact HM|done|exact Hi]).
  assert (wf v' c) as Hwf' by by apply wf_serve. clearbody v'.
  eapply (rule_wait_attempts (simple gA) (one_step gA) A (λ _, nil_) _ qA t0 Hhs HM Hat 1); [|exact Hwf'|exact Hs|].
  { intros now n x [_ ->] Hn Hd. apply bool_decide_eq_true in Hd. simpl in Hd. lia. }
  pose proof (stable_delivery (simple gA) (one_step gA) A (λ _, nil_) _ qA t0 Hhs HM Hat 1) as Hst.
  clear v v' c Hwf Hwf' Hi Hs. intros v c _ Hs. apply (rule_sleep F HF _ Hst); [done|].
  clear v c Hs. intros v c _ Hs. apply (rule_read F HF _ Hst _ _ Hs). clear v c Hs. intros v c _ Hs.
  destruct (delivered_vars _ _ _ _ _ _ _ _ _ Hs) as (n & [_ ->] & _). apply (rule_done F HF).
Qed.

(** *** DelayedDelivery *)

Definition early : string := "task delivered %d time(s) before its delay elapsed".

(** The handler before each of its steps; [at_] is when the task was enqueued. *)
Definition delayed_store (now : time) : prog (sect delayed_vars) Outcome :=
  _ ← atomic (λ v, (tt, mkDelayed (delivered v) (Some now)));
  _ ← atomic (λ v, (tt, mkDelayed (add1 (delivered v)) (deliveredAt v))); Ret nil_.
Definition delayed_add : prog (sect delayed_vars) Outcome :=
  _ ← atomic (λ v, (tt, mkDelayed (add1 (delivered v)) (deliveredAt v))); Ret nil_.

Definition in_time (at_ d now : time) : Prop := at_ + Second ≤ d ≤ now.

Definition while_delivering (at_ now : time) (_ : Z) (t : Task) (p : prog (sect delayed_vars) Outcome)
    (x : delayed_vars) : Prop :=
  p = delayed_handler t ∨ (∃ d, in_time at_ d now ∧ p = delayed_store d) ∨
  (∃ d, in_time at_ d now ∧ deliveredAt x = Some d ∧ p = delayed_add).

Definition delivered_late (at_ now : time) (n : Z) (x : delayed_vars) : Prop :=
  (n = 0 ∧ delivered x = 0) ∨ (n = 1 ∧ delivered x = 1 ∧ ∃ d, deliveredAt x = Some d ∧ in_time at_ d now).

Lemma delayed_attempts at_ t0 :
  RunAt t0 = at_ + Second →
  attempts t0 delayed_handler (while_delivering at_) (delivered_late at_) (λ _, nil_).
Proof using.
  intros Hrun. assert (∀ d now now', now ≤ now' → in_time at_ d now → in_time at_ d now') as Hmono
    by (unfold in_time; intros; lia).
  split.
  - intros now now' n x Hle [?|(? & ? & d & ? & ?)]; [by left|right]. split_and!; [done..|]. exists d. split; [done|].
    by eapply Hmono.
  - intros now now' n t p x Hle [->|[(d & Hd & ->)|(d & Hd & Hx & ->)]]; [by left|right..].
    + left. exists d. split; [by eapply Hmono|done].
    + right. exists d. split; [by eapply Hmono|done].
  - by left.
  - intros now n t p x p' x' Hx _ Hn Hu Hp Hf. assert (n = 0) as -> by by eapply untried_first.
    destruct Hx as [[_ Hx]|[? _]]; [|done]. destruct Hu as (_ & _ & _ & Hr). specialize (Hr eq_refl).
    destruct Hp as [->|[(d & Hd & ->)|(d & Hd & Hxd & ->)]]; simpl in Hf; simplify_eq.
    + left. split; [by left|]. right; left. exists now. split; [unfold in_time; lia|done].
    + left. split; [by left|]. right; right. by exists d.
    + right. split; [|done]. right. simpl. rewrite Hx. split_and!; [done..|by exists d].
  - by intros now n t o x [?|[(d & _ & ?)|(d & _ & _ & ?)]].
Qed.

(** The test after its short sleep: it may only find the task delivered early
    when a second has passed since it began. *)
Lemma delayed_rest q T start at_ t0 v c :
  (∀ t, T + Second ≤ t → F early t) → T ≤ start → start ≤ at_ → RunAt t0 = at_ + Second →
  0 ≤ MaxRetries t0 < max_int64 → wf v c →
  single [(q, delayed_handler)] q [] (delivery t0 (while_delivering at_) (delivered_late at_) (λ _, nil_) 0) v c →
  passes (n ← read delivered;
    _ ← fatal_if (negb (bool_decide (n = 0))) early;
    _ ← waitFor "delayed delivery" (read (λ v, bool_decide (delivered v = 1)));
    a ← read deliveredAt;
    at_ ← deref a;
    fatal_if (bool_decide (time_Sub at_ start < Second - 50 * Millisecond))
      "task delivered after %v, want >= %v") v c.
Proof.
  intros Hearly HT Hst Hrun HM Hwf Hs. pose proof (delayed_attempts at_ t0 Hrun) as Hat.
  pose proof (stable_delivery _ _ _ _ _ q t0 (one_pool q _) HM Hat 0) as Hst0.
  apply (rule_read F HF _ Hst0 _ _ Hs). clear v c Hwf Hs. intros v c Hwf Hs.
  destruct (delivered_vars _ _ _ _ _ _ _ _ _ Hs) as (n & [[-> Hx]|(-> & Hx & d & Hd & Hin)] & _);
    rewrite Hx; cycle 1.
  { apply (rule_bind F HF); [done|]. apply (rule_fail F HF), Hearly. unfold in_time in Hin. lia. }
  fatal_false. clear Hx.
  eapply (rule_wait_attempts _ _ _ _ _ q t0 (one_pool q _) HM Hat 1); [|exact Hwf|exact Hs|].
  { intros now n x [[-> Hx]|[-> _]] Hn Hd; [|done]. rewrite Hx in Hd. done. }
  pose proof (stable_delivery _ _ _ _ _ q t0 (one_pool q _) HM Hat 1) as Hst1.
  clear v c Hwf Hs. intros v c _ Hs. apply (rule_read F HF _ Hst1 _ _ Hs).
  clear v c Hs. intros v c _ Hs.
  destruct (delivered_vars _ _ _ _ _ _ _ _ _ Hs) as (n & [[-> Hx]|(-> & _ & d & Hd & Hin)] & Hn); [lia|].
  rewrite Hd. rewrite (deref_ok _ d) by done. rewrite bool_decide_false; [apply (rule_done F HF)|].
  unfold in_time, time_Sub, Second, Millisecond in *. lia.
Qed.

Lemma testDelayedDelivery_safe T sq v c :
  (∀ t, T + Second ≤ t → F early t) →
  idle T sq [] (mkDelayed 0 None) v c → passes testDelayedDelivery v c.
Proof.
  intros Hearly Hi. apply (rule_preamble (mkDelayed 0 None) T sq); [done|]. clear v c Hi.
  intros q v c Hq Hwf Hi. assert (T ≤ v_now v) as HT by apply Hi. apply idle_resting with (q := q) in Hi.
  pose proof (stable_resting _ q delayed_handler [] (mkDelayed 0 None) (one_pool q _)) as Hrest.
  apply (rule_now F HF _ (stable_and _ _ Hrest (stable_time T)) _ _ (conj Hi HT)).
  clear v c Hwf Hi HT. intros v c Hwf [Hi HT]. set (start := v_now v) in *.
  apply (rule_Enqueue F HF _ (stable_and _ _ Hrest (stable_time start)) _ _ (conj Hi (Z.le_refl _))).
  clearbody start. clear v c Hwf Hi. intros v0 c0 v c at_ uuid _ [_ Hv0] Hwf [Hi _] [Hat _] _. cbv zeta. rewrite check_ok.
  set (t0 := new_task at_ uuid q (Some (String.list_byte_of_string "later")) [WithDelay Second]).
  assert (RunAt t0 = at_ + Second) as Hrun by done. assert (start ≤ at_) as Hst by lia. clear v0 c0 Hv0 Hat.
  assert (0 ≤ MaxRetries t0 < max_int64) as HM by by vm_compute.
  set (v' := (serve _ at_ uuid v).2).
  assert (single [(q, delayed_handler)] q [] (delivery t0 (while_delivering at_) (delivered_late at_) (λ _, nil_) 0) v' c)
    as Hs by (apply (resting_enqueue _ (mkDelayed 0 None)); [exact HM|by left|exact Hi]).
  clearbody v'. clear v Hwf Hi.
  pose proof (stable_delivery _ _ _ _ _ q t0 (one_pool q _) HM (delayed_attempts at_ t0 Hrun) 0) as Hst0.
  apply (rule_sleep F HF _ Hst0); [done|]. clear v' c Hs. intros v c Hwf Hs.
  by apply (delayed_rest q T start at_ t0).
Qed.

(** *** StopWaitsForInFlightHandler *)

(** The handler after it has closed [started], and from the end of its sleep. *)
Definition slow_finish : prog (sect stop_vars) Outcome :=
  _ ← atomic (λ v, (tt, mkStop (started v) true)); Ret nil_.
Definition slow_sleep (t : time) : prog (sect stop_vars) Outcome :=
  _ ← Do (until (t + 500 * Millisecond)) Ret; slow_finish.
Definition slow_rest : prog (sect stop_vars) Outcome := t ← Now; slow_sleep t.

Definition slow_at (t : Task) (p : prog (sect stop_vars) Outcome) (x : stop_vars) : Prop :=
  (p = slow_handler t ∧ x = mkStop false false) ∨
  ((p = slow_rest ∨ (∃ t, p = slow_sleep t) ∨ p = slow_finish) ∧ x = mkStop true false) ∨
  (p = Ret nil_ ∧ x = mkStop true true).

Definition slow (_ : time) (l : loc) (x : stop_vars) : Prop :=
  match l with
  | Pend _ | Run _ _ _ PFresh => x = mkStop false false
  | Run _ _ t (PBusy p) => slow_at t p x
  | Run _ _ _ (PBack _ e) => e = None ∧ x = mkStop true true
  | Nowhere => x = mkStop true true
  | Dead _ => False
  end.

Lemma slow_step now now' l x l' x' :
  slow now l x → loc_step slow_handler now now' l x l' x' → slow now' l' x'.
Proof using.
  intros Hl Hs. destruct Hs as [now now' l x Hle|now i k t x Hrun|now i k t x
    |now i k t x p p' x' Hf|now i k t x o|now i k t x r|now i k t x r e at_ Hmr|now i k t x r e at_ Hmr Hat]; simpl in Hl.
  - by destruct l as [|t|i k t [|p|r e]|t].
  - done.
  - by left.
  - simpl. destruct Hl as [[-> ->]|[[Hp ->]|[-> _]]]; [| |done].
    + simpl in Hf. simplify_eq. right; left. split; [|done]. by left.
    + destruct Hp as [->|[[t' ->]| ->]]; simpl in Hf.
      * simplify_eq. right; left. split; [|done]. right; left. by eexists.
      * case_decide; [|done]. simplify_eq/=. right; left. split; [|done]. by right; right.
      * simplify_eq/=. by right; right.
  - destruct Hl as [[? _]|[[[?|[[? ?]|?]] _]|[[= ->] ->]]]; done.
  - by destruct Hl.
  - by destruct Hl.
  - by destruct Hl.
Qed.

Lemma slow_started now now' l x l' x' :
  slow now l x ∧ started x = true → loc_step slow_handler now now' l x l' x' →
  slow now' l' x' ∧ started x' = true.
Proof using.
  intros [Hl Hx] Hs. split; [by eapply slow_step|].
  destruct Hs as [now now' l x Hle|now i k t x Hrun|now i k t x
    |now i k t x p p' x' Hf|now i k t x o|now i k t x r|now i k t x r e at_ Hmr|now i k t x r e at_ Hmr Hat]; try done.
  simpl in Hl. destruct Hl as [[-> ->]|[[Hp ->]|[-> _]]]; [done| |done].
  destruct Hp as [->|[[t' ->]| ->]]; simpl in Hf; repeat case_decide; by simplify_eq/=.
Qed.

(** A done channel stays closed. *)
Definition sub_is_done {V} (k : nat) : assertion (V := V) := λ v _,
  ∃ s, v_subs v !! k = Some s ∧ sub_done s = true.

Lemma stable_is_done {V} k : stable (sub_is_done (V := V) k).
Proof using.
  intros v c v' c' _ (s & Hs & Hd) Ho.
  assert (∀ f k' (l : list subscription), l !! k = Some s → (∀ s, sub_done s = true → sub_done (f s) = true) →
    ∃ s, alter f k' l !! k = Some s ∧ sub_done s = true) as Halt.
  { intros f k' l Hl Hf. destruct (decide (k = k')) as [->|]; [|rewrite list_lookup_alter_ne by done; eauto].
    rewrite list_lookup_alter_eq, Hl. simpl. eauto. }
  destruct Ho as [v v' c Heq|a v c Ha _ Hg|i X f k' x vars v c Hi Hf|i o v c Hi (k' & t & Hr)].
  - exists s. by rewrite (eq_subs _ _ Heq).
  - destruct a as [d|i' k' t rest|i' k' t|i' o'|i' at_|cl|x at_ u|x|q' o'|k'|k']; simpl; unfold sub_is_done; try done; try by exists s.
    + exists s. repeat case_match; unfold settle; repeat case_match; by simpl.
    + exists s. destruct (v_call v) as [[[since cl] y]|]; simpl; [|done]. destruct cl; simpl; by repeat case_match.
    + by apply Halt.
  - by exists s.
  - exists s. simpl. by rewrite Hr.
Qed.

(** A pool that is done has let go of its task. *)
Lemma slow_over q v c s :
  wf v c → single [(q, slow_handler)] q [] (λ now l x, slow now l x ∧ started x = true) v c →
  v_subs v !! 0%nat = Some s → sub_done s = true →
  single [(q, slow_handler)] q [] (λ _ l x, l = Nowhere ∧ x = mkStop true true) v c.
Proof using.
  intros Hwf (Hp & l & Ha & Hl & Hst) Hs Hd. split; [done|]. exists l. split; [done|].
  destruct l as [|t|i k t p|t]; simpl in Hl; [done|by rewrite Hl in Hst| |done]. exfalso.
  pose proof (al_running _ _ _ _ _ Ha i) as Hr. simpl in Hr. rewrite decide_True in Hr by done.
  destruct (wf_open _ _ Hwf _ _ _ _ Hr) as (s' & Hs' & Hd' & _).
  assert (k = 0%nat) as -> by (destruct Hp as [Hq' _]; apply (f_equal length) in Hq';
    rewrite length_fmap in Hq'; apply lookup_lt_Some in Hs'; simpl in Hq'; lia).
  congruence.
Qed.

Lemma testStopWaitsForInFlight_safe T sq v c :
  idle T sq [] (mkStop false false) v c → passes testStopWaitsForInFlight v c.
Proof.
  intros Hi. apply (rule_nextQueue F HF T sq (mkStop false false)); [done|]. clear v c Hi. intros q v c Hq _ Hwf Hi.
  apply idle_resting with (q := q) in Hi.
  eapply (rule_subscribe F HF [] q []); [|exact Hi|].
  { apply (stable_resting _ q slow_handler). intros h Hh. by apply not_elem_of_nil in Hh. }
  clear v c Hwf Hi. intros v c _ Hi. rewrite check_ok. simpl in Hi.
  apply (rule_Enqueue F HF _ (stable_resting _ q slow_handler [] (mkStop false false) (one_pool q _)) _ _ Hi).
  clear v c Hi. intros _ _ v c at_ uuid _ _ _ Hi _ _. cbv zeta. rewrite check_ok.
  set (P := single [(q, slow_handler)] q [] slow).
  assert (stable P) as HP by (apply (stable_single _ q slow_handler); [apply one_pool|exact slow_step]).
  set (C := single [(q, slow_handler)] q [] (λ now l x, slow now l x ∧ started x = true)).
  assert (stable C) as HC by (apply (stable_single _ q slow_handler); [apply one_pool|exact slow_started]).
  set (v' := (serve _ at_ uuid v).2). assert (P v' c) as Hs.
  { destruct Hi as (Hp & l & Ha & -> & Hx).
    split; [by apply (pools_serve _ (CEnqueue q (Some (String.list_byte_of_string "slow")) []))|].
    exists (Pend (new_task at_ uuid q (Some (String.list_byte_of_string "slow")) [])).
    split; [by apply alone_enqueue|done]. }
  clearbody v'. clear v Hi. apply (rule_now F HF _ HP _ _ Hs). clear v' c Hs. intros v c _ Hs.
  apply (rule_SelectAfter F HF _ HP _ _ Hs). clear v c Hs. intros v c ok Hwf Hs Hok.
  destruct ok; [|apply (rule_bind F HF); [done|]; apply (rule_fail F HF), (Hwait "handler to start")].
  fatal_false. assert (C v c) as HCv.
  { destruct Hs as (Hp & l & Ha & Hl). split; [done|]. exists l. split; [done|]. split; [done|by apply Hok]. }
  clear Hs Hok Hwf.
  change (twp F (time_Now ≫= λ now, lift (StopOnce 0) ≫= λ _, lift (StopSelect 0 (now + waitTimeout)) ≫= λ err,
    fatal_if (bool_decide (is_Some err)) "Stop: %v" ≫= λ _, read finished ≫= λ f,
    fatal_if (negb f) "Stop returned before the in-flight handler finished" ≫= λ _, lift (IsDone 0) ≫= λ d,
    fatal_if (negb d) "Done() not closed after Stop returned") (λ _ _ _, True) v c).
  apply (rule_now F HF _ HC _ _ HCv). clear v c HCv. intros v c _ HCv. generalize (v_now v). intros t2.
  apply (rule_StopOnce F HF _ HC _ _ HCv). clear v c HCv. intros v c Hwf HCv.
  apply (single_stopped _ _ _ _ 0) in HCv.
  apply (rule_StopSelect F HF _ HC _ _ HCv). clear v c Hwf HCv. intros v c err Hwf HCv Herr.
  destruct err as [e|]; [apply (rule_bind F HF); [done|]; by apply (rule_fail F HF)|]. fatal_false.
  destruct (Herr eq_refl) as (s & Hs & Hd).
  set (E := λ v c, single [(q, slow_handler)] q [] (λ _ l x, l = Nowhere ∧ x = mkStop true true) v c ∧ sub_is_done 0 v c).
  assert (stable E) as HE.
  { apply stable_and; [|apply stable_is_done]. apply (stable_resting _ q slow_handler), one_pool. }
  assert (E v c) as HEv by (split; [by eapply slow_over|by exists s]).
  clear HCv Herr s Hs Hd Hwf. apply (rule_read F HF _ HE _ _ HEv). clear v c HEv. intros v c _ HEv.
  destruct HEv as [(Hp & l & Ha & Hl & Hx) Hd]. rewrite Hx. fatal_false.
  apply (rule_IsDone F HF _ HE); [by split; [split; [|exists l]|]|].
  clear v c Hp l Ha Hl Hx Hd. intros v c s _ [_ (s' & Hs' & Hd)] Hs. simplify_eq. rewrite Hd. apply (rule_done F HF).
Qed.
End tests.
