(* ===== verification/SuiteCrowd.v ===== *)
(** * The tests of the conformance suite with many tasks

    ListDeadTasksPagination, where tasks die one after the other, and
    CompetingConsumersDeliverOnce: two pools with one handler, which counts what
    it sees, and the invariant that no task is seen twice. *)

From stdpp Require Import base tactics list numbers option gmap strings pretty.
From S2P Require Import Prelude GoRuntime Contract Options Effects Memory MemorySpec Lifecycle WorkQueueSpec Suite SuiteHarness SuiteLogic SuiteRules SuiteSingle SuiteProofs.

#[local] Set Default Proof Using "Type*".

(** ** ListDeadTasksPagination *)

Section pagination.
Context (F : string → time → Prop) (HF : ∀ m t t', t ≤ t' → F m t → F m t').
Context (Hwait : ∀ what t, F ("timed out waiting for " +:+ what) t).
Context (q : string).

Definition always_fails : time → Task → unit → Outcome * unit := λ _ _ v, (errors_New "always fails", v).

(** The tasks [D] are dead, oldest first, and no other is there. *)
Definition buried (D : list Task) : assertion (V := unit) := resting [(q, simple always_fails)] q D tt.

Lemma stable_buried D : stable (buried D).
Proof. apply (stable_resting _ q (simple always_fails)), one_pool. Qed.

Lemma buried_dead D v c : buried D v c → v_dead v q = D.
Proof. intros (_ & l & Ha & -> & _). rewrite (alone_dead _ _ _ _ _ Ha). apply app_nil_r. Qed.

(** What has died is the last of the dead. *)
Lemma died_buried (t0 : Task) D v c :
  died (simple always_fails) (one_step always_fails) (λ _ _, True) "always fails" q D t0 v c → ∃ t, ID t = ID t0 ∧ buried (D ++ [t]) v c.
Proof.
  intros (Hp & l & Ha & Hl & Hd & _).
  destruct (failing_dead _ _ _ _ _ _ _ Hl Hd) as (t & -> & Hid & _). exists t. split.
  - by destruct Hid as (<- & _).
  - split; [done|]. exists Nowhere. split; [by apply alone_bury|]. split; [done|]. by destruct (c_vars c).
Qed.

Lemma enqueue_dying_safe n D v c :
  (length D + n ≤ 10)%nat → wf v c → buried D v c →
  twp F (enqueue_dying q n (length D) (ID <$> D))
    (λ ids v c, ∃ D', length D' = (length D + n)%nat ∧ ids = ID <$> D' ∧ buried D' v c) v c.
Proof.
  revert D v c. induction n as [|n IH]; intros D v c Hn Hwf Hb.
  - apply (rule_ret F HF (buried D)); [apply stable_buried|done|]. intros v1 c1 _ H1. exists D. by rewrite Nat.add_0_r.
  - cbn [enqueue_dying]. assert (∀ n now t x, True → 0 ≤ n →
      (always_fails now t x).1 = errors_New "always fails" ∧ True) as Hg by done.
    assert (∀ t0, attempts t0 (simple always_fails) (one_step always_fails) (λ _, (λ _ _, True)) (λ _, errors_New "always fails")) as Hat
    by (intros t0; by apply simple_failing).
  apply (rule_enqueue_dying F HF (simple always_fails) (one_step always_fails) (λ _ _, True) "always fails" q D tt); [by vm_compute|done|done|].
    clear v c Hwf Hb. intros at_ uuid v c t0 _ HM Hwf Hd. rewrite Nat.add_1_r.
    apply (rule_wait_died F HF Hwait (simple always_fails) (one_step always_fails) (λ _ _, True) "always fails" Hat q D t0); [lia|done..|].
    clear v c Hwf Hd. intros v c Hwf (t & Hid & Hb)%died_buried.
    replace (S (length D)) with (length (D ++ [t])) by (rewrite length_app; simpl; lia).
    replace ((ID <$> D) ++ [ID t0]) with (ID <$> D ++ [t]) by (by rewrite fmap_app; csimpl; rewrite Hid).
    eapply rule_mono; [exact HF| |apply IH; [rewrite length_app; simpl; lia|done|done]].
    intros ids v1 c1 _ (D' & Hl & Hi & H1). exists D'. split; [|done]. rewrite Hl, length_app. simpl. lia.
Qed.

Lemma pagination_lists D (k : list Task → test unit unit) limit offset msg v c :
  buried D v c → (∀ v c, buried D v c → twp F (k (page limit offset D)) (λ _ _ _, True) v c) →
  twp F (ListDeadTasks q limit offset ≫= λ r, check_err msg r ≫= k) (λ _ _ _, True) v c.
Proof using HF.
  intros Hb Hk. apply (rule_List F HF _ (stable_buried D) _ _ Hb). clear v c Hb. intros v c _ Hb.
  rewrite check_ok, (buried_dead D v c Hb). by apply Hk.
Qed.
End pagination.

Lemma testListDeadTasksPagination_safe F T sq v c :
  (∀ m t t', t ≤ t' → F m t → F m t') → (∀ what t, F ("timed out waiting for " +:+ what) t) →
  (∀ t, F "Stop: %v" t) →
  idle T sq [] tt v c → twp F testListDeadTasksPagination (λ _ _ _, True) v c.
Proof.
  intros HF Hwait Hstop Hi. apply (rule_preamble F HF Hstop tt T sq); [done|]. clear v c Hi.
  intros q v c _ Hwf Hi. apply idle_resting with (q := q) in Hi.
  apply (rule_bind F HF); [done|]. eapply (rule_mono F HF); [|apply (enqueue_dying_safe F HF Hwait q 3 []); [simpl; lia|exact Hwf|exact Hi]].
  clear v c Hwf Hi. intros ids v c _ (D & HD & -> & Hb).
  destruct D as [|t1 [|t2 [|t3 [|]]]]; try done.
  apply (pagination_lists F HF q _ _ _ _ _ _ _ Hb). clear v c Hb. intros v c Hb. do 2 fatal_false.
  apply (pagination_lists F HF q _ _ _ _ _ _ _ Hb). clear v c Hb. intros v c Hb. fatal_false.
  apply (pagination_lists F HF q _ _ _ _ _ _ _ Hb). clear v c Hb. intros v c Hb. apply (rule_done F HF).
Qed.

(** ** CompetingConsumersDeliverOnce *)

Definition seen_handler : time → Task → competing_vars → Outcome * competing_vars := λ _ task v,
  (nil_, mkCompeting (<[ID task := add1 (default 0 (seen v !! ID task))]> (seen v))).

Section crowd.
Context (q : string).
Implicit Types (v : view) (c : core competing_vars).

Definition crowd_pools : list (string * handler competing_vars) :=
  [(q, simple seen_handler); (q, simple seen_handler)].

(** Worker [i] has the task and its handler has not counted it. *)
Definition uncounted v c (i : nat) (t : Task) : Prop :=
  ∃ k st, v_running v i = Some (k, t, st) ∧
    match st with
    | Fresh => True
    | Busy => c_insts c !! i = Some (simple seen_handler t)
    | Back _ _ => False
    end.

(** A task of the queue that no handler has counted. *)
Definition unseen v c (t : Task) : Prop :=
  Queue t = q ∧ seen (c_vars c) !! ID t = None ∧ ID t ∈ v_ids v q.

Record crowd v c : Prop := {
  cw_pools : pools crowd_pools v c;
  cw_pend n t : t ∈ v_pending v n → n = q ∧ unseen v c t;
  cw_nodup : NoDup (ID <$> v_pending v q);
  cw_run i k t st : v_running v i = Some (k, t, st) →
    match st with
    | Fresh => True
    | Busy => c_insts c !! i = Some (simple seen_handler t) ∨ c_insts c !! i = Some (Ret nil_)
    | Back _ e => e = None
    end;
  cw_uncounted i t : uncounted v c i t → unseen v c t ∧ ID t ∉ ID <$> v_pending v q;
  cw_distinct i j t u : uncounted v c i t → uncounted v c j u → ID t = ID u → i = j;
  cw_ids id n : seen (c_vars c) !! id = Some n → id ∈ v_ids v q ∧ n = 1
}.

Lemma crowd_served v c k s : crowd v c → v_subs v !! k = Some s → handler_of k c = Some (simple seen_handler).
Proof.
  intros Hc Hk. refine (pools_served crowd_pools q (simple seen_handler) v c _ (cw_pools _ _ Hc) k s Hk _).
  - intros h'. unfold crowd_pools. rewrite !elem_of_cons, elem_of_nil. intros [?|[?|?]]; congruence || done.
  - destruct (cw_pools _ _ Hc) as [Hq _].
    assert ((sub_queue <$> v_subs v) !! k = Some (sub_queue s)) as Hs by (by rewrite list_lookup_fmap, Hk).
    rewrite Hq in Hs. destruct k as [|[|k]]; simpl in Hs; by simplify_eq.
Qed.

(** The tasks and deliveries are the same: so is the invariant. *)
Lemma crowd_same v v' c c' :
  (∀ n, v_pending v' n ≡ₚ v_pending v n) → (∀ i, v_running v' i = v_running v i) →
  (∀ n, v_ids v' n ≡ₚ v_ids v n) → c_insts c' = c_insts c → c_vars c' = c_vars c →
  pools crowd_pools v' c' → crowd v c → crowd v' c'.
Proof.
  intros Hp Hr Hi Hin Hx Hpl [_ Cp Cn Cr Cu Cd Ci].
  assert (∀ t, unseen v c t → unseen v' c' t) as Hun.
  { intros t (Hq & Hs & Hid). split_and!; [done|by rewrite Hx|by rewrite Hi]. }
  assert (∀ i t, uncounted v' c' i t → uncounted v c i t) as Huc.
  { intros i t (k & st & Hrun & Hst). rewrite Hr in Hrun. rewrite Hin in Hst. by exists k, st. }
  split; [done|..].
  - intros n t. rewrite Hp. intros (Hn & Hu)%Cp. auto.
  - by rewrite Hp.
  - intros i k t st. rewrite Hr, Hin. apply Cr.
  - intros i t Hu. rewrite Hp. destruct (Cu i t (Huc _ _ Hu)). auto.
  - intros i j t u Ht Hu. apply (Cd i j); auto.
  - intros id n. rewrite Hx, Hi. apply Ci.
Qed.

Lemma crowd_claim i k t rest v c :
  guard (Claimed i k t rest) v → crowd v c → crowd (apply (Claimed i k t rest) v) c.
Proof.
  intros (Hi & s & Hs & Hd & Hq & Hperm & Hrun) [Cpl Cp Cn Cr Cu Cd Ci].
  assert (Queue t = q ∧ unseen v c t) as [Hqt Ht].
  { destruct (Cp (Queue t) t) as [Hqt Hu]; [by rewrite Hperm; left|]. done. }
  rewrite Hqt in Hperm. rewrite Hperm in Cn. csimpl in Cn. apply NoDup_cons in Cn as [Hnin Cn].
  assert (∀ j u, j ≠ i → uncounted (apply (Claimed i k t rest) v) c j u → uncounted v c j u) as Hother.
  { intros j u Hj (k' & st & Hr & Hst). simpl in Hr. rewrite upd_ne in Hr by done. by exists k', st. }
  assert (∀ u, uncounted (apply (Claimed i k t rest) v) c i u → u = incr_Attempts t) as Hself.
  { intros u (k' & st & Hr & Hst). simpl in Hr. rewrite upd_eq in Hr. by simplify_eq. }
  assert (∀ u, u ∈ rest → u ∈ v_pending v q) as Hrest by (intros u Hu; rewrite Hperm; by right).
  split; [done|..].
  - intros n u. simpl. rewrite Hqt. unfold upd. case_decide; [subst n; intros Hu; by apply Cp, Hrest|apply Cp].
  - simpl. by rewrite Hqt, upd_eq.
  - intros j k' u st. simpl. unfold upd. case_decide; [|apply Cr]. intros [= <- <- <-]. done.
  - intros j u Hu. simpl. rewrite Hqt, upd_eq. destruct (decide (j = i)) as [->|Hj].
    + rewrite (Hself u Hu). split; [exact Ht|done].
    + destruct (Cu j u (Hother j u Hj Hu)) as [Hun Hnp]. split; [done|]. contradict Hnp. rewrite Hperm. csimpl. by right.
  - assert (∀ j u w, j ≠ i → uncounted (apply (Claimed i k t rest) v) c j u →
      uncounted (apply (Claimed i k t rest) v) c i w → ID u ≠ ID w) as Hne.
    { intros j u w Hj Hu Hw. rewrite (Hself w Hw). destruct (Cu j u (Hother j u Hj Hu)) as [_ Hnp].
      contradict Hnp. rewrite Hperm, Hnp. csimpl. by left. }
    intros j j' u w Hu Hw Hid. destruct (decide (j = i)) as [->|Hj], (decide (j' = i)) as [->|Hj']; [done| | |].
    + by destruct (Hne j' w u Hj' Hw Hu).
    + by destruct (Hne j u w Hj Hu Hw).
    + by apply (Cd j j' u w); [apply Hother..|].
  - done.
Qed.

(** A delivery goes on without a new handler to count it. *)
Lemma crowd_stage i k t st st' v c c' :
  v_running v i = Some (k, t, st) → c_vars c' = c_vars c → c_handlers c' = c_handlers c →
  (∀ j, j ≠ i → c_insts c' !! j = c_insts c !! j) →
  (uncounted (set_running i (Some (k, t, st')) v) c' i t → uncounted v c i t) →
  match st' with
  | Fresh => True
  | Busy => c_insts c' !! i = Some (simple seen_handler t) ∨ c_insts c' !! i = Some (Ret nil_)
  | Back _ e => e = None
  end →
  crowd v c → crowd (set_running i (Some (k, t, st')) v) c'.
Proof.
  intros Hi Hx Hh Hj Hu Hst [Cpl Cp Cn Cr Cu Cd Ci].
  set (v' := set_running i (Some (k, t, st')) v) in *.
  assert (∀ j u, uncounted v' c' j u → uncounted v c j u) as Huc.
  { intros j u Hun. destruct (decide (j = i)) as [->|Hne].
    - assert (u = t) as -> by (destruct Hun as (k' & s' & Hr & _); simpl in Hr; rewrite upd_eq in Hr; by simplify_eq).
      by apply Hu.
    - destruct Hun as (k' & s' & Hr & Hs). simpl in Hr. rewrite upd_ne in Hr by done. rewrite Hj in Hs by done.
      by exists k', s'. }
  assert (∀ u, unseen v c u → unseen v' c' u) as Hun by (intros u (?&?&?); split_and!; [done|by rewrite Hx|done]).
  split.
  - destruct Cpl as [Hq Hc]. split; [done|congruence].
  - intros n u (Hn & Hu')%Cp. auto.
  - done.
  - intros j k' u s'. simpl. unfold upd. case_decide as Heq; [intros [= <- <- <-]; by subst j|].
    rewrite Hj by done. apply Cr.
  - intros j u Hu'. destruct (Cu j u (Huc _ _ Hu')). auto.
  - intros j j' u w H1 H2. apply (Cd j j' u w); auto.
  - intros id n. rewrite Hx. apply Ci.
Qed.

(** A worker lays its task down. *)
Lemma crowd_drop i v c : crowd v c → crowd (set_running i None v) c.
Proof.
  intros [Cpl Cp Cn Cr Cu Cd Ci].
  assert (∀ j u, uncounted (set_running i None v) c j u → uncounted v c j u) as Huc.
  { intros j u (k' & s' & Hr & Hs). simpl in Hr. unfold upd in Hr. case_decide; [done|]. by exists k', s'. }
  split; [done|done|done| |..].
  - intros j k' u s'. simpl. unfold upd. case_decide; [done|]. apply Cr.
  - intros j u Hu. apply (Cu j u), Huc, Hu.
  - intros j j' u w H1 H2. apply (Cd j j' u w); auto.
  - done.
Qed.

(** The handler counts its task. *)
Lemma crowd_count i k t v c :
  v_running v i = Some (k, t, Busy) → c_insts c !! i = Some (simple seen_handler t) → crowd v c →
  crowd v (set_inst i (Ret nil_) (set_vars (seen_handler (v_now v) t (c_vars c)).2 c)).
Proof.
  intros Hr Hi [Cpl Cp Cn Cr Cu Cd Ci].
  assert (uncounted v c i t) as Hut by (by exists k, Busy).
  destruct (Cu i t Hut) as [(Hq & Hs & Hid) Hnp].
  set (c' := set_inst i (Ret nil_) (set_vars (seen_handler (v_now v) t (c_vars c)).2 c)).
  assert (∀ j u, uncounted v c' j u → uncounted v c j u ∧ j ≠ i) as Huc.
  { intros j u (k' & s' & Hr' & Hs'). destruct (decide (j = i)) as [->|Hne].
    - rewrite Hr in Hr'. simplify_eq. simpl in Hs'. by rewrite lookup_insert_eq in Hs'.
    - split; [|done]. exists k', s'. split; [done|]. destruct s'; try done. simpl in Hs'.
      by rewrite lookup_insert_ne in Hs' by done. }
  assert (∀ u, ID u ≠ ID t → unseen v c u → unseen v c' u) as Hun.
  { intros u Hne (Hqu & Hsu & Hiu). split_and!; [done| |done]. simpl. by rewrite lookup_insert_ne. }
  split; [done|..].
  - intros n u Hu. destruct (Cp n u Hu) as [-> Hx]. split; [done|]. apply Hun; [|done].
    contradict Hnp. rewrite <- Hnp. by apply list_elem_of_fmap_2.
  - done.
  - intros j k' u s' Hj. simpl. destruct (decide (j = i)) as [->|Hne].
    + rewrite Hr in Hj. simplify_eq. right. by rewrite lookup_insert_eq.
    + rewrite lookup_insert_ne by done. by eapply Cr.
  - intros j u (Hu & Hne)%Huc. destruct (Cu j u Hu) as [Hx Hp]. split; [|done]. apply Hun; [|done].
    intros Heq. by apply Hne, (Cd j i u t).
  - intros j j' u w (Hu & _)%Huc (Hw & _)%Huc. by apply Cd.
  - intros id n. simpl. rewrite lookup_insert_Some. intros [[<- <-]|[_ Hn]]; [|by apply Ci].
    rewrite Hs. split; [done|by vm_compute].
Qed.

(** A worker's handler is called. *)
Lemma crowd_invoked i k t v c :
  guard (Invoked i k t) v → wf v c → crowd v c →
  crowd (apply (Invoked i k t) v) (show_core (Invoked i k t) c).
Proof.
  simpl. intros Hg Hwf Hc. destruct (wf_open _ _ Hwf _ _ _ _ Hg) as (s & Hs & _).
  rewrite (crowd_served v c k s Hc Hs).
  apply (crowd_stage i k t Fresh Busy v c); [done|done|done| | | |done].
  - intros j Hj. simpl. by rewrite lookup_insert_ne.
  - intros _. by exists k, Fresh.
  - left. simpl. by rewrite lookup_insert_eq.
Qed.

Lemma crowd_settled i at_ v c :
  guard (Settled i at_) v → crowd v c → crowd (apply (Settled i at_) v) c.
Proof.
  intros (k & t & r & err & s & Hi & _) Hc. simpl. rewrite Hi.
  pose proof (cw_run _ _ Hc _ _ _ _ Hi) as Hr. simpl in Hr. subst err. by apply crowd_drop.
Qed.

Lemma crowd_action a v c :
  internal a = true → (∀ x t u, a ≠ Served x t u) → guard a v → wf v c → crowd v c →
  crowd (apply a v) (show_core a c).
Proof.
  intros Hi Hns Hg Hwf Hc.
  assert (pools crowd_pools (apply a v) (show_core a c)) as Hpl.
  { eapply (stable_pools crowd_pools v c); [exact Hwf|apply Hc|]. by apply Other_action. }
  destruct a as [d|i k t rest|i k t|i o|i at_|cl|x at_ u|x|q' o|k|k]; try done;
    try (by apply (crowd_same v _ c)).
  - by apply crowd_claim.
  - by apply crowd_invoked.
  - by apply crowd_settled.
  - by edestruct Hns.
Qed.

(** The handler goes on: it counts its task. *)
Lemma crowd_sect i X (f : time → competing_vars → option (X * competing_vars)) k x vars v c :
  c_insts c !! i = Some (Do (Sect f) k) → f (v_now v) (c_vars c) = Some (x, vars) → wf v c →
  crowd v c → crowd v (set_inst i (k x) (set_vars vars c)).
Proof.
  intros Hi Hf Hwf Hc. destruct (proj1 (wf_inst _ _ Hwf i) (mk_is_Some _ _ Hi)) as (j & t & Hr).
  destruct (cw_run _ _ Hc _ _ _ _ Hr) as [Hin|Hin]; [|congruence].
  assert (sect_step (Do (Sect f) k) (v_now v) (c_vars c) =
          Some (Ret nil_, (seen_handler (v_now v) t (c_vars c)).2)) as Hs.
  { rewrite Hi in Hin. assert (Do (Sect f) k = simple seen_handler t) as -> by congruence. done. }
  simpl in Hs. rewrite Hf in Hs. injection Hs as -> ->.
  by apply (crowd_count i j).
Qed.

Lemma crowd_left i o v c :
  c_insts c !! i = Some (Ret o) → guard (Left i o) v → crowd v c →
  crowd (apply (Left i o) v) (del_inst i c).
Proof.
  intros Hi (k & t & Hr) Hc. assert (o = nil_) as ->.
  { destruct (cw_run _ _ Hc _ _ _ _ Hr) as [Hin|Hin]; [by rewrite Hi in Hin|congruence]. }
  simpl. rewrite Hr. apply (crowd_stage i k t Busy (Back (v_now v) None) v c); [done|done|done| | |done|done].
  - intros j Hj. simpl. by rewrite lookup_delete_ne.
  - intros (k' & st & Hr' & Hst). simpl in Hr'. rewrite upd_eq in Hr'. by simplify_eq.
Qed.

Lemma stable_crowd : stable crowd.
Proof.
  intros v c v' c' Hwf Hc Ho.
  destruct Ho as [v v' c Heq|a v c Hi Hns Hg|i X f k x vars v c Hi Hf|i o v c Hi Hg].
  - apply (crowd_same v _ c); [apply Heq..|done|done| |done].
    eapply (stable_pools crowd_pools v c); [exact Hwf|apply Hc|by apply Other_view].
  - by apply crowd_action.
  - by apply (crowd_sect i X f).
  - by apply crowd_left.
Qed.

(** The test enqueues one more. *)
Lemma crowd_enqueue payload opts at_ uuid v c :
  uuid_fresh uuid q v → crowd v c → crowd (serve (CEnqueue q payload opts) at_ uuid v).2 c.
Proof.
  intros [_ Hfresh] [Cpl Cp Cn Cr Cu Cd Ci]. set (t := new_task at_ uuid q payload opts).
  set (v' := (serve (CEnqueue q payload opts) at_ uuid v).2).
  assert (∀ u, unseen v c u → unseen v' c u ∧ ID u ≠ uuid) as Hun.
  { intros u (Hq & Hs & Hid). split; [|by intros Hu; rewrite Hu in Hid].
    split_and!; [done|done|]. simpl. rewrite upd_eq. by right. }
  assert (unseen v' c t) as Ht.
  { split_and!; [done| |simpl; rewrite upd_eq; by left].
    destruct (seen (c_vars c) !! ID t) as [n|] eqn:Hs; [|done]. by destruct (Ci _ _ Hs) as [? _]. }
  assert (ID <$> v_pending v' q = uuid :: (ID <$> v_pending v q)) as Hpend by (simpl; by rewrite upd_eq).
  split.
  - exact (pools_serve crowd_pools (CEnqueue q payload opts) at_ uuid v c Cpl).
  - intros n u. simpl. unfold upd. case_decide as Hn.
    + subst n. rewrite elem_of_cons. intros [->|Hu]; [done|]. split; [done|]. by apply Hun, (Cp q u).
    + intros Hu. destruct (Cp n u Hu). done.
  - rewrite Hpend. apply NoDup_cons. split; [|done]. intros (u & Hid & Hu)%list_elem_of_fmap.
    destruct (Cp q u Hu) as [_ Hx]. by destruct (Hun u Hx) as [_ []].
  - exact Cr.
  - intros i u Hu. rewrite Hpend, elem_of_cons. destruct (Cu i u Hu) as [Hx Hp].
    destruct (Hun u Hx). split; [done|]. by intros [?|?].
  - exact Cd.
  - intros id n Hs. destruct (Ci id n Hs). split; [|done]. simpl. rewrite upd_eq. by right.
Qed.

(** Two pools and no task. *)
Lemma crowd_start v c : resting crowd_pools q [] (mkCompeting ∅) v c → crowd v c.
Proof.
  intros (Hp & l & [Ap Ad Ar _ _ _] & -> & Hx). simpl in *.
  assert (∀ n, v_pending v n = []) as Hpend by (intros n; rewrite Ap; by case_decide).
  assert (∀ i k t st, v_running v i ≠ Some (k, t, st)) as Hrun by (intros i k t st; by rewrite Ar).
  split.
  - done.
  - intros n t. rewrite Hpend. by intros ?%not_elem_of_nil.
  - rewrite Hpend. constructor.
  - by intros i k t st ?%Hrun.
  - by intros i t (k & st & ?%Hrun & _).
  - by intros i j t u (k & st & ?%Hrun & _).
  - intros id n. rewrite Hx. by vm_compute.
Qed.

Section test.
Context (F : string → time → Prop) (HF : ∀ m t t', t ≤ t' → F m t → F m t').

Lemma enqueue_jobs_crowd n i v c :
  wf v c → crowd v c → twp F (enqueue_jobs q n i) (λ _, crowd) v c.
Proof.
  revert i v c. induction n as [|n IH]; intros i v c Hwf Hc.
  - by apply (rule_ret F HF crowd _ _ _ _ stable_crowd).
  - cbn [enqueue_jobs]. apply (rule_Enqueue F HF _ stable_crowd _ _ Hc). clear v c Hwf Hc.
    intros _ _ v c at_ uuid _ _ Hwf Hc _ Hu. cbv zeta. rewrite check_ok.
    apply IH; [by apply wf_serve|by apply crowd_enqueue].
Qed.

(** Nothing is seen twice, whenever the test looks. *)
Lemma crowd_once v c : crowd v c → map_Forall (λ _ n, n = 1) (seen (c_vars c)).
Proof. intros Hc id n Hn. by destruct (cw_ids _ _ Hc _ _ Hn). Qed.
End test.
End crowd.

Lemma testCompetingConsumers_safe F T sq v c :
  (∀ m t t', t ≤ t' → F m t → F m t') → (∀ what t, F ("timed out waiting for " +:+ what) t) →
  (∀ t, F "Stop: %v" t) →
  idle T sq [] (mkCompeting ∅) v c → twp F testCompetingConsumers (λ _ _ _, True) v c.
Proof.
  intros HF Hwait Hstop Hi. apply (rule_nextQueue F HF T sq (mkCompeting ∅)); [done|].
  clear v c Hi. intros q v c _ _ _ Hi. apply idle_resting with (q := q) in Hi.
  set (h := simple seen_handler).
  eapply (rule_subscribe F HF [] q [] _ q h); [|exact Hi|].
  { apply (stable_resting _ q h). intros h' Hh. by apply not_elem_of_nil in Hh. }
  clear v c Hi. intros v c Hwf Hi. rewrite check_ok. apply (rule_deferring F HF); [done..|].
  eapply (rule_subscribe F HF _ q [] _ q h); [|exact Hi|]; [apply (stable_resting _ q h), one_pool|].
  clear v c Hwf Hi. intros v c Hwf Hi. rewrite check_ok. apply (rule_deferring F HF); [done..|].
  apply crowd_start in Hi. apply (rule_bind F HF); [done|].
  eapply (rule_mono F HF); [|by apply (enqueue_jobs_crowd q F HF)].
  clear v c Hwf Hi. intros [] v c Hwf Hc. pose proof (stable_crowd q) as Hst.
  apply (rule_wait_read F HF Hwait (crowd q) (crowd q)); [done|done|done|done|done|].
  clear v c Hwf Hc. intros v c _ Hc. apply (rule_sleep F HF _ Hst _ _ _ _ _ Hc).
  clear v c Hc. intros v c _ Hc. apply (rule_read F HF _ Hst _ _ Hc). clear v c Hc.
  intros v c _ Hc. 
  unfold fatal_if. rewrite negb_decide by exact (crowd_once q v c Hc). apply (rule_done F HF).
Qed.
