(* ===== verification/SuiteSafe.v ===== *)
(** * The conformance suite against any backend that keeps the contract

    [Run] as a whole: whatever the backend is, as long as its steps are the
    actions of [WorkQueueSpec], no schedule of its workers, the handlers, the
    clock and the test makes a test of the suite fail, except by a time-out. *)

From stdpp Require Import base tactics list numbers option gmap strings.
From S2P Require Import Prelude GoRuntime Contract Options Effects MemorySpec WorkQueueSpec Suite SuiteHarness SuiteLogic SuiteRules SuiteSingle SuiteProofs SuiteCrowd.

#[local] Set Default Proof Using "Type*".

(** The messages of a test that has waited for [waitTimeout]. *)
Definition timed_out (m : string) : bool :=
  String.prefix "timed out waiting for " m || String.eqb m "Stop: %v".

(** What a test that began at [T] may fail with at [t]: a time-out, and, once a
    second has passed, that a task delayed by a second was delivered while the
    test slept for a third of one. *)
Definition excusable (T : time) (m : string) (t : time) : Prop :=
  timed_out m = true ∨ (m = early ∧ T + Second ≤ t).

Lemma excusable_later T m t t' : t ≤ t' → excusable T m t → excusable T m t'.
Proof. intros Hle [?|[? ?]]; [by left|right]. split; [done|lia]. Qed.

Lemma excusable_wait T what t : excusable T ("timed out waiting for " +:+ what) t.
Proof. left. by destruct what. Qed.

Lemma excusable_stop T t : excusable T "Stop: %v" t.
Proof. left. reflexivity. Qed.

Lemma excusable_early T t : T + Second ≤ t → excusable T early t.
Proof. intros Ht. right. split; [done|exact Ht]. Qed.

(** Every test of the suite is safe from a state in which nothing was done. *)
Lemma Run_safe tc T sq v c :
  tc ∈ Suite.Run → idle T sq [] (tc_init tc) v c → twp (excusable T) (tc_body tc) (λ _ _ _, True) v c.
Proof.
  assert (∀ m t t', t ≤ t' → excusable T m t → excusable T m t') as HF by (intros *; apply excusable_later).
  pose proof (excusable_wait T) as Hw. pose proof (excusable_stop T) as Hs.
  unfold Suite.Run. rewrite !elem_of_cons, elem_of_nil.
  intros [->|[->|[->|[->|[->|[->|[->|[->|[->|[->|[->|[]]]]]]]]]]]]; simpl; intros Hi.
  - by eapply testEnqueueAndConsume_safe.
  - eapply testDelayedDelivery_safe; [done..|exact (excusable_early T)|exact Hi].
  - by eapply testRetryThenSucceed_safe.
  - by eapply testRetriesExhausted_safe.
  - by eapply testZeroMaxRetries_safe.
  - by eapply testRequeueDeadTask_safe.
  - by eapply testDeleteDeadTask_safe.
  - by eapply testListDeadTasksPagination_safe.
  - by eapply testCompetingConsumers_safe.
  - by eapply testQueuesAreIsolated_safe.
  - by eapply testStopWaitsForInFlight_safe.
Qed.

(** A started work queue on storage of its own. *)
Record fresh_view (v : view) : Prop := {
  fv_now : zeroTime < v_now v;
  fv_pending q : v_pending v q = [];
  fv_dead q : v_dead v q = [];
  fv_running i : v_running v i = None;
  fv_subs : v_subs v = [];
  fv_call : v_call v = None
}.

Lemma fresh_idle {V} v (x : V) n : fresh_view v → idle (v_now v) n [] x v (mkCore x n [] ∅).
Proof.
  intros [Hn Hp Hd Hr Hs _]. split; [|split; [done|lia]]. split.
  - split; [by rewrite Hs|done].
  - exists Nowhere. split; [|done]. split; simpl; try done; intros m.
    + rewrite Hp. by case_decide.
    + rewrite Hd. by case_decide.
Qed.

Section backend.
Context {W : Type} `{BackendLaws W}.

Lemma suite_excusable tc w n s ms m :
  tc ∈ Suite.Run → b_ok w → fresh_view (b_view w) →
  reachable hstep (hstart w n (tc_init tc) (tc_body tc)) s → verdict s = Some ms → m ∈ ms →
  excusable (v_now (b_view w)) m (v_now (b_view (h_backend s))).
Proof.
  intros Htc Hw Hf Hr Hv Hm.
  destruct (wp_sound (ends (excusable (v_now (b_view w))) (λ _ _ _, True)) w n (tc_init tc) (tc_body tc) s ms)
    as (r & Hq & ->); [done|apply Hf|apply Hf|apply Hf|apply Hf| |done|done|].
  - by eapply Run_safe; [|apply fresh_idle].
  - destruct r as [ms'|[]]; [|by apply not_elem_of_nil in Hm]. simpl in Hq. rewrite Forall_forall in Hq. auto.
Qed.

(** C3. On every backend that keeps the contract and from every fresh state, no test
    of [Run] ends, in any interleaving of the workers, the handlers, the clock
    and the test, with a failure other than a time-out (and, in
    DelayedDelivery, an early delivery when the test's sleep of a third of the
    delay has taken longer than the delay). *)
Theorem suite_safe tc w n s ms m :
  tc ∈ Suite.Run → b_ok w → fresh_view (b_view w) →
  reachable hstep (hstart w n (tc_init tc) (tc_body tc)) s → verdict s = Some ms → m ∈ ms →
  excusable (v_now (b_view w)) m (v_now (b_view (h_backend s))).
Proof. apply suite_excusable. Qed.
End backend.
