(* ===== verification/MemoryBackend.v ===== *)
(** * The in-memory backend as a backend of [WorkQueueSpec]

    Its worker pools with one client: the steps of [MemorySystem], each with
    the actions of the contract it is, and the proof that it is them. *)

From stdpp Require Import base tactics list numbers option gmap strings.
From S2P Require Import Prelude GoRuntime GoHeap Contract Options Memory MemorySpec Lifecycle Subscription MemorySystem MemoryShutdown DeadLetters MemoryDead WorkQueueSpec.

(** ** The system and a client *)

Record memory_queue := mkMemoryQueue {
  mq_sys : sys;
  mq_pools : list (string * ConsumeOptions);  (** per subscription: what [Consume] was given *)
  mq_call : option (time * call)              (** the client's call, and since when *)
}.

Inductive memory_event :=
  | Internally (e : event)    (** a worker, a timer or the clock *)
  | Execute (uuid : string).  (** the client's call is executed *)

(** The client's call as an operation of one queue. *)
Definition op_of (now : time) (uuid : string) (c : call) : op :=
  match c with
  | CEnqueue _ payload opts => OpEnqueue now uuid payload opts
  | CListDeadTasks _ limit offset => OpList limit offset
  | CRequeueDeadTask _ id => OpRequeue now id
  | CDeleteDeadTask _ id => OpDelete id
  end.

Definition answer_of (r : resp) : answer :=
  match r with
  | RTask t => AnsTask (inr t)
  | RList l => AnsTasks (inr l)
  | RErr e => AnsErr e
  | RClaim _ _ | RUnit => AnsErr None
  end.

(** ** What can be known of it *)

Definition in_hand (w : worker) : option (nat * Task * stage) :=
  match w_pc w with Handling t => Some (w_sub w, cloneTask t, Busy) | _ => None end.

Definition pool_view (c : chans) (p : string * ConsumeOptions) (s : Subscription.subscription) : subscription :=
  mkSubscription p.1 p.2 (bool_decide (is_closed (stopCh s) c)) (bool_decide (is_closed (done_ s) c)).

Definition pools_view (ps : list (string * ConsumeOptions)) (s : sys) : list subscription :=
  zip_with (pool_view (mem_chans (s_mem s))) ps (s_subs s).

Definition memory_view (w : memory_queue) : view :=
  let s := mq_sys w in
  mkView (s_now s) (λ q, cloneTask <$> a_pending (abs (s_mem s) q))
    (λ q, cloneTask <$> a_dead (abs (s_mem s) q)) (λ i, s_workers s !! i ≫= in_hand)
    (pools_view (mq_pools w) s) (λ q, ID <$> g_enq (s_ghost s q))
    ((λ p, (p.1, p.2, None)) <$> mq_call w).

(** ** Its steps *)

Definition own (e : event) : bool :=
  match e with
  | Tick _ | CloseDone _ | Run _ | Woken _ | TimedOut _ | MemorySystem.Stopped _ => true
  | Call _ _ | Subscribe _ _ | Stop _ | Finish _ _ => false
  end.

(** A worker that goes on has claimed the first pending task if it handles one
    now. *)
Definition claimed (i : nat) (s s' : sys) : list action :=
  match s_workers s' !! i with
  | Some w =>
      match w_pc w, a_pending (abs (s_mem s) (w_queue w)) with
      | Handling t, t0 :: rest =>
          [Claimed i (w_sub w) (cloneTask t0) (cloneTask <$> rest); Invoked i (w_sub w) (cloneTask t)]
      | _, _ => []
      end
  | None => []
  end.

Definition actions (e : event) (s s' : sys) : list action :=
  match e with
  | Tick d => [Passed d]
  | CloseDone k => [Closed k]
  | Run i => claimed i s s'
  | _ => []
  end.

Definition with_sys (s : sys) (w : memory_queue) : memory_queue :=
  mkMemoryQueue s (mq_pools w) (mq_call w).

(** The client's call is one call of the system; [uuid.NewString()] gives 36
    characters. *)
Definition execute (uuid : string) (w : memory_queue) : option (memory_queue * list action) :=
  '(_, c) ← mq_call w;
  let s := mq_sys w in
  let p := op_of (s_now s) uuid c in
  if decide (String.length uuid = 36%nat ∧ uuid ∉ ID <$> g_enq (s_ghost s (call_queue c))) then
    '(r, _) ← mem_exec (call_queue c) p (s_mem s);
    s' ← step (Call (call_queue c) p) s;
    Some (mkMemoryQueue s' (mq_pools w) None,
          [Served (answer_of r) (s_now s) uuid; Answered (answer_of r)])
  else None.

Definition memory_internal (e : memory_event) (w : memory_queue) : option (memory_queue * list action) :=
  match e with
  | Internally e =>
      if own e
      then s' ← step e (mq_sys w); Some (with_sys s' w, actions e (mq_sys w) s')
      else None
  | Execute uuid => execute uuid w
  end.

Definition memory_call (c : call) (w : memory_queue) : option memory_queue :=
  match mq_call w with
  | None => Some (mkMemoryQueue (mq_sys w) (mq_pools w) (Some (s_now (mq_sys w), c)))
  | Some _ => None
  end.

Definition memory_consume (q : string) (opts : list ConsumeOption) (w : memory_queue) : option memory_queue :=
  s' ← step (Subscribe q opts) (mq_sys w);
  Some (mkMemoryQueue s' (mq_pools w ++ [(q, NewConsumeOptions opts)]) (mq_call w)).

Definition memory_stop (k : nat) (w : memory_queue) : option memory_queue :=
  s' ← step (Stop k) (mq_sys w); Some (with_sys s' w).

(** The handler returns with [o] and the worker completes the task at once. *)
Definition memory_return (i : nat) (o : Outcome) (w : memory_queue) : option (memory_queue * list action) :=
  s' ← step (Finish i (λ t, (t, o))) (mq_sys w);
  Some (with_sys s' w, [Settled i (s_now (mq_sys w))]).

(** ** Invariant *)

Record pools_ok (ps : list (string * ConsumeOptions)) (s : sys) : Prop := {
  po_len : length ps = length (s_subs s);
  po_worker w : w ∈ s_workers s → ps !! w_sub w = Some (w_queue w, w_opts w);
  po_staffed k : (k < length ps)%nat → ∃ w, w ∈ s_workers s ∧ w_sub w = k;
  po_exited w sub : w ∈ s_workers s → w_pc w = Exited → s_subs s !! w_sub w = Some sub →
    is_closed (stopCh sub) (mem_chans (s_mem s))
}.

Record sys_inv (s : sys) : Prop := {
  si_ok : sys_ok s;
  si_done : done_ok s;
  si_life n : life_ok (life_of n s);
  si_here : enq_here s
}.

Record memory_inv (w : memory_queue) : Prop := {
  mi_sys : sys_inv (mq_sys w);
  mi_pools : pools_ok (mq_pools w) (mq_sys w);
  mi_since t c : mq_call w = Some (t, c) → t ≤ s_now (mq_sys w)
}.

#[export] Instance memory_backend : Backend memory_queue := {|
  b_ok := memory_inv;
  b_view := memory_view;
  b_event := memory_event;
  b_internal := memory_internal;
  b_call := memory_call;
  b_consume := memory_consume;
  b_stop := memory_stop;
  b_return := memory_return
|}.

Lemma memory_sys_step e s s' : sys_inv s → step e s = Some s' → sys_inv s'.
Proof.
  intros [Hok Hd Hl Hh] Hs. split.
  - by eapply sys_ok_step.
  - by eapply done_ok_step.
  - intros n. eapply life_step_ok; [by eapply step_life|apply Hl].
  - by eapply enq_here_step.
Qed.

Lemma memory_init_inv : sys_inv sys_init.
Proof.
  split.
  - apply sys_init_ok.
  - intros k sub Hk. simpl in Hk. by rewrite lookup_nil in Hk.
  - intros n. apply life_empty_ok.
  - intros n t Ht. by apply not_elem_of_nil in Ht.
Qed.

(** Every task of a queue is of it. *)
Lemma held_here s n t :
  sys_inv s →
  t ∈ a_pending (abs (s_mem s) n) ∨ t ∈ handling n (s_workers s) ∨ t ∈ a_dead (abs (s_mem s) n) →
  Queue t = n.
Proof.
  intros [_ _ Hl Hh] Ht. specialize (Hl n).
  assert (∃ t0, t0 ∈ g_enq (s_ghost s n) ∧ same_identity t0 t) as (t0 & Ht0 & Hid).
  { destruct Ht as [Ht|[Ht|Ht]];
      [apply (life_pend _ Hl) in Ht|apply (life_runn _ Hl) in Ht|apply (life_deadl _ Hl) in Ht];
      destruct Ht as [[H _] _]; exact H. }
  destruct Hid as (_ & <- & _). by apply Hh.
Qed.

Lemma handling_in s i w t :
  s_workers s !! i = Some w → w_pc w = Handling t → t ∈ handling (w_queue w) (s_workers s).
Proof.
  intros Hi Hpc. apply list_elem_of_bind. exists w. split; [|by eapply list_elem_of_lookup_2].
  unfold handled. rewrite Hpc, decide_True by done. by left.
Qed.

(** *** Pools *)

(** Subscriptions that keep their channels. *)
Definition same_chans (l l' : list Subscription.subscription) : Prop :=
  stopCh <$> l' = stopCh <$> l ∧ done_ <$> l' = done_ <$> l.

Lemma same_chans_lookup l l' k sub' :
  same_chans l l' → l' !! k = Some sub' →
  ∃ sub, l !! k = Some sub ∧ stopCh sub = stopCh sub' ∧ done_ sub = done_ sub'.
Proof.
  intros [Hs Hd] Hk. apply (f_equal (lookup k)) in Hs, Hd. rewrite !list_lookup_fmap, Hk in Hs, Hd.
  destruct (l !! k) as [sub|]; [|done]. simpl in *. exists sub. split; [done|]. split; congruence.
Qed.

Lemma Stop_once_same k sub sub' c c' (l : list Subscription.subscription) :
  l !! k = Some sub → Stop_once sub c = Some (sub', c') → same_chans l (<[k:=sub']> l).
Proof.
  intros Hk Ho. assert (stopCh sub' = stopCh sub ∧ done_ sub' = done_ sub) as [Hs Hd].
  { unfold Stop_once in Ho. destruct (stopOnce sub); [by simplify_eq|].
    by apply bind_Some in Ho as (c1 & _ & [= <- _]). }
  split; rewrite list_fmap_insert; apply list_insert_id; rewrite list_lookup_fmap, Hk; simpl; congruence.
Qed.

(** The workers, each of its pool, where it may have moved. *)
Definition same_workers (s s1 : sys) : Prop :=
  (∀ w', w' ∈ s_workers s1 → ∃ w, w ∈ s_workers s ∧ w_sub w' = w_sub w ∧
     w_queue w' = w_queue w ∧ w_opts w' = w_opts w ∧
     (w_pc w' = Exited → w_pc w = Exited ∨
        ∃ sub, s_subs s !! w_sub w = Some sub ∧ is_closed (stopCh sub) (mem_chans (s_mem s)))) ∧
  (∀ k, (∃ w, w ∈ s_workers s ∧ w_sub w = k) → ∃ w, w ∈ s_workers s1 ∧ w_sub w = k).

Lemma same_workers_refl s s1 : s_workers s1 = s_workers s → same_workers s s1.
Proof. intros Heq. unfold same_workers. rewrite Heq. split; [|done]. intros w Hw. exists w. split_and!; auto. Qed.

Lemma same_workers_set s s1 i w pc :
  s_workers s !! i = Some w → s_workers s1 = <[i:=set_pc pc w]> (s_workers s) →
  (pc = Exited → ∃ sub, s_subs s !! w_sub w = Some sub ∧ is_closed (stopCh sub) (mem_chans (s_mem s))) →
  same_workers s s1.
Proof.
  intros Hi Heq Hpc. unfold same_workers. rewrite Heq. split.
  - intros w' [->|Hin]%elem_of_insert_inv; [|exists w'; split_and!; auto].
    exists w. split; [by eapply list_elem_of_lookup_2|]. do 3 (split; [done|]). intros He. right. by apply Hpc.
  - intros k (w' & Hw' & Hk). apply list_elem_of_lookup in Hw' as [j Hj].
    destruct (decide (i = j)) as [->|Hne].
    + exists (set_pc pc w). simplify_eq. split; [|done].
      apply (list_elem_of_lookup_2 _ j). rewrite list_lookup_insert_eq; [done|by eapply lookup_lt_Some].
    + exists w'. split; [|done]. apply (list_elem_of_lookup_2 _ j). by rewrite list_lookup_insert_ne.
Qed.

Lemma pools_ok_keep ps s s1 :
  pools_ok ps s → same_chans (s_subs s) (s_subs s1) → same_workers s s1 →
  chans_le (mem_chans (s_mem s)) (mem_chans (s_mem s1)) → pools_ok ps s1.
Proof.
  intros [Hlen Hw Hst Hex] Hch [Hwk Hk] Hle. split.
  - rewrite Hlen. destruct Hch as [Hs _]. apply (f_equal length) in Hs. by rewrite !length_fmap in Hs.
  - intros w' (w & Hin & -> & -> & -> & _)%Hwk. auto.
  - intros k Hlt. by apply Hk, Hst.
  - intros w' sub' (w & Hin & Hsub & _ & _ & Hpc)%Hwk He Hs'. eapply chans_le_closed; [exact Hle|].
    destruct (same_chans_lookup _ _ _ _ Hch Hs') as (sub & Hs & <- & _). rewrite Hsub in Hs.
    destruct (Hpc He) as [Hw'|(sub2 & Hs2 & Hcl)]; [by apply (Hex w)|by simplify_eq].
Qed.

Lemma same_chans_refl l : same_chans l l.
Proof. done. Qed.

Lemma pools_ok_step ps e s s' :
  sys_ok s → pools_ok ps s → (∀ q o, e ≠ Subscribe q o) → step e s = Some s' → pools_ok ps s'.
Proof.
  intros Hs Hp He (Hlt & s1 & Hcore & ->)%step_Some. apply step_core_shape in Hcore as Hsh.
  assert (pools_ok ps s1) as []; [|by split].
  apply (pools_ok_keep ps s); [done| | |by eapply shape_chans_le].
  - destruct Hsh as [| | |k sub sub' c Hk Ho| | | | | |]; try apply same_chans_refl; [by destruct (He name opts)|].
    by eapply Stop_once_same.
  - destruct Hsh as [d Hd|name p r m Hcall Hx|name opts Ho|k sub sub' c Hk Ho|k sub c Hk Hall Hc
      |i w t wait ch m Hi Hpc Hc|i w wait ch m Hi Hpc Hc|i w h t m Hi Hpc Herr Hc
      |i w h t err m Hi Hpc Herr Hc|i w pc e' Hi Hnw Hnot Hmove]; try by apply same_workers_refl.
    + by destruct (He name opts).
    + by eapply same_workers_set.
    + by eapply same_workers_set.
    + by eapply same_workers_set.
    + by eapply same_workers_set.
    + eapply same_workers_set; [exact Hi|done|]. intros ->. inversion Hmove; try done. subst. eauto.
Qed.

Lemma pools_ok_subscribe ps q opts s s' :
  pools_ok ps s → step (Subscribe q opts) s = Some s' →
  pools_ok (ps ++ [(q, NewConsumeOptions opts)]) s'.
Proof.
  intros [Hlen Hw Hst Hex] (_ & s1 & Hcore & ->)%step_Some. simpl in Hcore. case_decide; [|done].
  injection Hcore as <-. unfold subscribe. simpl.
  destruct (NewConsumeOptions_sound opts) as [Hc _]. split; simpl.
  - rewrite !length_app, Hlen. done.
  - intros w [Hin|(-> & _)%elem_of_replicate]%elem_of_app; simpl.
    + apply lookup_app_l_Some. auto.
    + apply list_lookup_middle. by rewrite Hlen.
  - intros k. rewrite length_app. simpl. intros Hlt. destruct (decide (k < length ps)%nat) as [Hk|Hk].
    + destruct (Hst k Hk) as (w & Hin & <-). exists w. split; [|done]. apply elem_of_app. by left.
    + exists (mkWorker q (length (s_subs s)) (NewConsumeOptions opts) AtTop). split; [|simpl; lia].
      apply elem_of_app. right. apply elem_of_replicate. split; [done|lia].
  - intros w sub [Hin|(-> & _)%elem_of_replicate]%elem_of_app Hpc; [|done]. intros Hsub.
    assert (w_sub w < length (s_subs s))%nat as Hlt.
    { rewrite <- Hlen. by eapply lookup_lt_Some, Hw. }
    rewrite lookup_app_l in Hsub by done. by apply (Hex w sub).
Qed.
