(* ===== verification/MemoryConforms.v ===== *)
(** * The in-memory backend keeps the contract

    Every step of [MemoryBackend] is the actions it shows. *)

From stdpp Require Import base tactics list numbers option gmap strings.
From S2P Require Import Prelude GoRuntime GoHeap Contract Options Memory MemorySpec Lifecycle Subscription MemorySystem MemoryShutdown DeadLetters MemoryDead WorkQueueSpec MemoryBackend.

(** ** The invariant *)

Lemma step_time e s s' : step e s = Some s' → s_now s ≤ s_now s'.
Proof.
  intros (_ & s1 & Hcore & ->)%step_Some. apply step_core_shape in Hcore. simpl.
  destruct Hcore; simpl; lia.
Qed.

Lemma inv_with_sys e w s' :
  memory_inv w → (∀ q o, e ≠ Subscribe q o) → step e (mq_sys w) = Some s' → memory_inv (with_sys s' w).
Proof.
  intros [Hs Hp Ht] He Hstep. split; simpl.
  - by eapply memory_sys_step.
  - eapply pools_ok_step; [apply Hs|done..].
  - intros t c Hc. specialize (Ht t c Hc). pose proof (step_time _ _ _ Hstep). lia.
Qed.

(** ** What a step shows *)

Section shows.
Context (w : memory_queue) (Hw : memory_inv w).
Let s : sys := mq_sys w.

(** A step on one queue closes no channel of a subscription. *)
Lemma evolves_chan name m ch :
  evolves name (s_mem s) m → ch ∈ s_subs s ≫= sub_chans →
  is_closed ch (mem_chans m) ↔ is_closed ch (mem_chans (s_mem s)).
Proof using Hw.
  intros Hev Hch. pose proof (si_ok _ (mi_sys _ Hw)) as Hs. split.
  - intros Hcl. destruct (ev_closed _ _ _ Hev _ Hcl) as [?|[Hm|(q & Hq & Heq)]]; [done| |].
    + destruct Hm. by eapply subs_made; [apply Hs|].
    + by destruct (sk_notify _ Hs _ _ _ Hq Hch).
  - apply chans_le_closed, Hev.
Qed.

Lemma pools_view_lookup ps (s1 : sys) k :
  pools_view ps s1 !! k =
    p ← ps !! k; sub ← s_subs s1 !! k; Some (pool_view (mem_chans (s_mem s1)) p sub).
Proof using. apply lookup_zip_with. Qed.

Lemma pools_view_same (s1 : sys) :
  s_subs s1 = s_subs s →
  (∀ ch, ch ∈ s_subs s ≫= sub_chans →
     is_closed ch (mem_chans (s_mem s1)) ↔ is_closed ch (mem_chans (s_mem s))) →
  pools_view (mq_pools w) s1 = pools_view (mq_pools w) s.
Proof using.
  intros Hsub Hch. apply list_eq. intros k. rewrite !pools_view_lookup, Hsub.
  destruct (mq_pools w !! k) as [p|]; [simpl|done]. destruct (s_subs s !! k) as [sub|] eqn:Hk; [simpl|done].
  unfold pool_view. f_equal. f_equal; apply bool_decide_ext, Hch, (elem_of_sub_chans _ sub);
    [by eapply list_elem_of_lookup_2|by left|by eapply list_elem_of_lookup_2|by right; left].
Qed.

(** The pool of a worker that has not returned is not done. *)
Lemma pool_open i wk :
  s_workers s !! i = Some wk → w_pc wk ≠ Exited →
  ∃ sub, v_subs (memory_view w) !! w_sub wk = Some sub ∧ sub_done sub = false ∧
    sub_queue sub = w_queue wk ∧ sub_opts sub = w_opts wk.
Proof using Hw.
  intros Hi Hpc. destruct Hw as [Hs [Hlen Hwk _ _] _]. fold s in Hs, Hlen, Hwk.
  assert (wk ∈ s_workers s) as Hin by by eapply list_elem_of_lookup_2.
  specialize (Hwk wk Hin). assert (is_Some (s_subs s !! w_sub wk)) as [sub Hsub].
  { apply lookup_lt_is_Some. rewrite <- Hlen. by eapply lookup_lt_Some. }
  exists (pool_view (mem_chans (s_mem s)) (w_queue wk, w_opts wk) sub).
  split; [simpl; by rewrite pools_view_lookup, Hwk; simpl; fold s; rewrite Hsub|].
  split; [|done]. simpl. apply bool_decide_false. intros Hcl.
  pose proof (si_done _ Hs _ _ Hsub Hcl) as Hall. unfold all_exited in Hall. rewrite Forall_forall in Hall. by apply Hpc, Hall.
Qed.

(** A move of a worker that has no task before nor after. *)
Lemma shows_nothing i wk pc :
  s_workers s !! i = Some wk → (∀ t, w_pc wk ≠ Handling t) → (∀ t, pc ≠ Handling t) →
  does [] (memory_view w) (memory_view (with_sys (count_step (set_worker i (set_pc pc wk) s)) w)).
Proof using.
  intros Hi Hn Hn'. split; [|done]. split; try done. intros j. simpl. fold s.
  destruct (decide (j = i)) as [->|Hne]; [|by rewrite list_lookup_insert_ne].
  rewrite list_lookup_insert_eq by (by eapply lookup_lt_Some). rewrite Hi. unfold in_hand. simpl.
  destruct pc; try (by destruct (Hn' t)); destruct (w_pc wk) eqn:Hpc; try done; by destruct (Hn t).
Qed.

(** A worker wakes up or sees that it was stopped. *)
Lemma shows_move e s1 :
  step_core e s = Some s1 →
  match e with Woken _ | TimedOut _ | MemorySystem.Stopped _ => True | _ => False end →
  does [] (memory_view w) (memory_view (with_sys (count_step s1) w)).
Proof using.
  intros Hcore He. apply step_core_shape in Hcore. destruct Hcore; try done. by apply shows_nothing.
Qed.

Lemma abs_claim name m1 t wait ch :
  sys_ok s → s_steps s < max_int64 → claim (s_now s) name (s_mem s) = Some ((t, wait, ch), m1) →
  evolves name (s_mem s) m1 ∧ (∀ n, n ≠ name → abs m1 n = abs (s_mem s) n) ∧
  (RClaim t wait, abs m1 name) = spec_exec name (OpClaim (s_now s)) (abs (s_mem s) name).
Proof using.
  intros Hs Hlt Hc. destruct (mem_exec_Some name (OpClaim (s_now s)) (s_mem s) (RClaim t wait) m1)
    as (_ & Hspec & Hoth & _ & Hev); [apply Hs|by apply sys_room|done|by eapply claim_exec|done].
Qed.

(** It claims a task and calls its handler. *)
Lemma shows_claim i wk t wait ch m1 t0 rest :
  s_steps s < max_int64 → s_workers s !! i = Some wk → w_pc wk = AtClaim →
  claim (s_now s) (w_queue wk) (s_mem s) = Some ((Some t, wait, ch), m1) →
  a_pending (abs (s_mem s) (w_queue wk)) = t0 :: rest →
  does [Claimed i (w_sub wk) (cloneTask t0) (cloneTask <$> rest); Invoked i (w_sub wk) (cloneTask t)]
    (memory_view w)
    (memory_view (with_sys (count_step
       (set_ghost (upd_ghost (w_queue wk) (g_invoke (ID t) (Attempts t)) (s_ghost s))
          (set_worker i (set_pc (Handling t) wk) (set_mem m1 s)))) w)).
Proof using Hw.
  intros Hlt Hi Hpc Hc Hpend.
  destruct (abs_claim _ _ _ _ _ (si_ok _ (mi_sys _ Hw)) Hlt Hc) as (Hev & Hoth & Hspec).
  simpl in Hspec. rewrite Hpend in Hspec. case_decide as Hdue; [done|]. injection Hspec as -> _ Habs.
  assert (Queue t0 = w_queue wk) as Hq.
  { apply (held_here s); [apply Hw|]. left. rewrite Hpend. by left. }
  destruct (pool_open i wk Hi) as (sub & Hsub & Hd & Hsq & _); [congruence|].
  split; [|split; [simpl; by rewrite upd_eq|]].
  - split; [simpl; fold s; by rewrite Hi; simpl; unfold in_hand; rewrite Hpc|].
    exists sub. split_and!; [done|done|simpl; congruence| |simpl; fold s; lia].
    change (Queue (cloneTask t0)) with (Queue t0). rewrite Hq. simpl. fold s. by rewrite Hpend.
  - split; [|done]. split; try done.
    + intros n. simpl. change (Queue (cloneTask t0)) with (Queue t0). rewrite Hq. unfold upd.
      case_decide as Hn; [subst n; by rewrite Habs|by rewrite Hoth].
    + intros n. simpl. fold s. destruct (decide (n = w_queue wk)) as [->|Hn]; [by rewrite Habs|by rewrite Hoth].
    + intros j. simpl. fold s. unfold upd. case_decide as Hj.
      * subst j. by rewrite list_lookup_insert_eq by (by eapply lookup_lt_Some).
      * by rewrite list_lookup_insert_ne.
    + apply pools_view_same; [done|]. intros c. by apply (evolves_chan (w_queue wk)).
    + intros n. simpl. fold s. unfold upd_ghost. by case_decide.
Qed.

(** It finds nothing to claim. *)
Lemma shows_idle i wk wait ch m1 :
  s_steps s < max_int64 → s_workers s !! i = Some wk → w_pc wk = AtClaim →
  claim (s_now s) (w_queue wk) (s_mem s) = Some ((None, wait, Some ch), m1) →
  does [] (memory_view w)
    (memory_view (with_sys (count_step
       (set_worker i (set_pc (Arming (s_now s) wait ch) wk) (set_mem m1 s))) w)).
Proof using Hw.
  intros Hlt Hi Hpc Hc.
  destruct (abs_claim _ _ _ _ _ (si_ok _ (mi_sys _ Hw)) Hlt Hc) as (Hev & Hoth & Hspec).
  assert (∀ n, abs m1 n = abs (s_mem s) n) as Habs.
  { intros n. destruct (decide (n = w_queue wk)) as [->|Hn]; [|by apply Hoth]. simpl in Hspec.
    destruct (a_pending _); [by injection Hspec|]. case_decide; by injection Hspec. }
  destruct (shows_nothing i wk (Arming (s_now s) wait ch) Hi) as [[Hn Hp Hd Hr Hs Hids] Hcall];
    [intros t; congruence|done|].
  split; [|done]. split; try done.
  - intros n. simpl. by rewrite Habs.
  - intros n. simpl. by rewrite Habs.
  - apply pools_view_same; [done|]. intros c. by apply (evolves_chan (w_queue wk)).
Qed.

Lemma shows_run i s1 :
  s_steps s < max_int64 → step_core (Run i) s = Some s1 →
  does (claimed i s (count_step s1)) (memory_view w) (memory_view (with_sys (count_step s1) w)).
Proof using Hw.
  intros Hlt Hcore. simpl in Hcore. apply bind_Some in Hcore as (wk & Hi & Hrun).
  assert (i < length (s_workers s))%nat as Hlen by by eapply lookup_lt_Some.
  unfold run_worker in Hrun. destruct (w_pc wk) as [| |t|since wait ch|since wait armed ch|] eqn:Hpc; try done.
  - apply bind_Some in Hrun as (sub & _ & Hrun).
    case_decide; injection Hrun as <-; unfold claimed; simpl; rewrite list_lookup_insert_eq by done; simpl;
      apply shows_nothing; by congruence || done.
  - apply bind_Some in Hrun as ([[[t wait] ch] m1] & Hc & Hrun). destruct t as [t|].
    + assert (∃ t0 rest, a_pending (abs (s_mem s) (w_queue wk)) = t0 :: rest) as (t0 & rest & Hpend).
      { destruct (abs_claim _ _ _ _ _ (si_ok _ (mi_sys _ Hw)) Hlt Hc) as (_ & _ & Hspec). simpl in Hspec.
        destruct (a_pending _) as [|t0 rest]; [done|by eauto]. }
      injection Hrun as <-. unfold claimed. simpl. rewrite list_lookup_insert_eq by done. simpl.
      rewrite Hpend. by eapply shows_claim.
    + destruct ch as [ch|]; [|done]. injection Hrun as <-. unfold claimed. simpl.
      rewrite list_lookup_insert_eq by done. simpl. by eapply shows_idle.
  - injection Hrun as <-. unfold claimed; simpl; rewrite list_lookup_insert_eq by done; simpl.
    apply shows_nothing; by congruence || done.
Qed.

(** A channel of one subscription is closed: the view of this one changes. *)
Lemma pools_view_alter f k sub s1 :
  s_subs s !! k = Some sub → same_chans (s_subs s) (s_subs s1) →
  (∀ p, pool_view (mem_chans (s_mem s1)) p sub = f (pool_view (mem_chans (s_mem s)) p sub)) →
  (∀ j sub', j ≠ k → s_subs s !! j = Some sub' →
     (is_closed (stopCh sub') (mem_chans (s_mem s1)) ↔ is_closed (stopCh sub') (mem_chans (s_mem s))) ∧
     (is_closed (done_ sub') (mem_chans (s_mem s1)) ↔ is_closed (done_ sub') (mem_chans (s_mem s)))) →
  pools_view (mq_pools w) s1 = alter f k (pools_view (mq_pools w) s).
Proof using.
  intros Hk Hch Hf Hother. apply list_eq. intros j.
  assert (∀ p c sub1 sub2, stopCh sub1 = stopCh sub2 → done_ sub1 = done_ sub2 →
    pool_view c p sub1 = pool_view c p sub2) as Hpv by (intros p c sub1 sub2 H1 H2; unfold pool_view; by rewrite H1, H2).
  assert (∀ sub1, s_subs s1 !! j = Some sub1 → ∃ sub', s_subs s !! j = Some sub' ∧
    ∀ p, pool_view (mem_chans (s_mem s1)) p sub1 = pool_view (mem_chans (s_mem s1)) p sub') as Hs1.
  { intros sub1 Hj. destruct (same_chans_lookup _ _ _ _ Hch Hj) as (sub' & Hs' & H1 & H2). exists sub'.
    split; [done|]. intros p. by apply Hpv. }
  assert (length (s_subs s1) = length (s_subs s)) as Hlen.
  { destruct Hch as [Hl _]. apply (f_equal length) in Hl. by rewrite !length_fmap in Hl. }
  assert (s_subs s1 !! j = None → s_subs s !! j = None) as Hnone by (rewrite !lookup_ge_None; lia).
  destruct (decide (j = k)) as [->|Hne].
  - rewrite list_lookup_alter_eq, !pools_view_lookup, Hk. destruct (mq_pools w !! k) as [p|]; [simpl|done].
    destruct (s_subs s1 !! k) as [sub1|] eqn:H1; [|by rewrite Hnone in Hk]. simpl.
    destruct (Hs1 sub1 eq_refl) as (sub' & Hs' & ->). simplify_eq. f_equal. apply Hf.
  - rewrite list_lookup_alter_ne, !pools_view_lookup by done. destruct (mq_pools w !! j) as [p|]; [simpl|done].
    destruct (s_subs s1 !! j) as [sub1|] eqn:H1; [|by rewrite (Hnone eq_refl)].
    destruct (Hs1 sub1 eq_refl) as (sub' & Hs' & Heq). rewrite Hs'. simpl. rewrite Heq.
    destruct (Hother j sub' Hne Hs') as [Ho1 Ho2]. unfold pool_view. f_equal. f_equal; by apply bool_decide_ext.
Qed.

Lemma shows_stop k s1 :
  step_core (Stop k) s = Some s1 →
  does [Stopped k] (memory_view w) (memory_view (with_sys (count_step s1) w)).
Proof using Hw.
  intros Hcore. simpl in Hcore. apply bind_Some in Hcore as (sub & Hk & Hcore).
  apply bind_Some in Hcore as ([sub' c] & Ho & [= <-]).
  pose proof (si_ok _ (mi_sys _ Hw)) as Hs. pose proof (sk_subs _ Hs) as Hsub.
  destruct (Stop_once_ok _ _ _ _ _ _ Hsub Hk Ho) as (Hsub' & Hle & Hd & Hchans & Hcl).
  pose proof (Stop_once_same _ _ _ _ _ _ Hk Ho) as Hsame.
  assert (is_Some (pools_view (mq_pools w) s !! k)) as Hex.
  { apply lookup_lt_is_Some. unfold pools_view. rewrite length_zip_with.
    pose proof (po_len _ _ (mi_pools _ Hw)) as Hl. fold s in Hl. apply lookup_lt_Some in Hk. lia. }
  split; [exact Hex|]. split; [|done]. split; try done. simpl.
  apply (pools_view_alter stop_sub k sub); [done|exact Hsame| |].
  - intros p. unfold pool_view, stop_sub. simpl. f_equal.
    + apply bool_decide_true. destruct (same_chans_lookup _ _ k sub' Hsame) as (sub0 & Hs0 & Hst & _).
      { by apply list_lookup_insert_eq, (lookup_lt_Some _ _ sub). }
      simplify_eq. rewrite Hst. apply (subs_once _ _ Hsub' sub').
      { apply (list_elem_of_lookup_2 _ k). by apply list_lookup_insert_eq, (lookup_lt_Some _ _ sub). }
      unfold Stop_once in Ho. destruct (stopOnce sub) eqn:Hso; [by injection Ho as <- _|].
      by apply bind_Some in Ho as (c1 & _ & [= <- _]).
    + apply bool_decide_ext. split; [|by apply chans_le_closed]. intros [?|Heq]%Hcl; [done|].
      exfalso. eapply (stop_done_disjoint _ _ sub sub Hsub); [by eapply list_elem_of_lookup_2..|done].
  - intros j t Hj Ht. split; (split; [|by apply chans_le_closed]); intros [?|Heq]%Hcl; try done; exfalso.
    + exact (Hj (stopCh_inj _ _ _ _ _ _ Hsub Ht Hk Heq)).
    + symmetry in Heq. revert Heq. eapply (stop_done_disjoint _ _ _ _ Hsub); by eapply list_elem_of_lookup_2.
Qed.

Lemma shows_close k s1 :
  step_core (CloseDone k) s = Some s1 →
  does [Closed k] (memory_view w) (memory_view (with_sys (count_step s1) w)).
Proof using Hw.
  intros Hcore. simpl in Hcore. apply bind_Some in Hcore as (sub & Hk & Hcore).
  apply bind_Some in Hcore as (c & Ho & [= <-]). unfold close_done in Ho.
  destruct (all_exitedb k (s_workers s)) eqn:Hall; [|done]. apply all_exitedb_spec in Hall.
  pose proof (si_ok _ (mi_sys _ Hw)) as Hs. pose proof (sk_subs _ Hs) as Hsub.
  destruct (mi_pools _ Hw) as [Hlen Hwk Hst Hex]. fold s in Hlen, Hwk, Hst, Hex, Hs, Hsub.
  unfold all_exited in Hall. rewrite Forall_forall in Hall.
  assert (k < length (mq_pools w))%nat as Hlt by (rewrite Hlen; by eapply lookup_lt_Some).
  split; [split|split; [|done]].
  - destruct (lookup_lt_is_Some_2 _ _ Hlt) as [p Hp]. exists (pool_view (mem_chans (s_mem s)) p sub).
    split; [simpl; rewrite pools_view_lookup, Hp; simpl; fold s; by rewrite Hk|]. simpl. apply bool_decide_true.
    destruct (Hst k Hlt) as (wk & Hin & <-). by apply (Hex wk sub Hin); [apply Hall|].
  - intros i t st Hi. simpl in Hi. fold s in Hi. apply bind_Some in Hi as (wk & Hwi & Hi).
    apply list_elem_of_lookup_2 in Hwi. unfold in_hand in Hi. destruct (w_pc wk) eqn:Hpc; try done.
    injection Hi as Hk' _ _. specialize (Hall wk Hwi Hk'). congruence.
  - split; try done. simpl. apply (pools_view_alter close_sub k sub); [done|apply same_chans_refl| |].
    + intros p. unfold pool_view, close_sub. simpl. f_equal; [apply bool_decide_ext|apply bool_decide_true];
        rewrite (close_chan_is_closed _ _ _ _ Ho); [|by left].
      split; [|by right]. intros [Heq|?]; [|done]. exfalso. revert Heq.
      eapply (stop_done_disjoint _ _ _ _ Hsub); by eapply list_elem_of_lookup_2.
    + intros j t Hj Ht. simpl. rewrite !(close_chan_is_closed _ _ _ _ Ho).
      split; (split; [|by right]); intros [Heq|?]; try done; exfalso.
      * revert Heq. eapply (stop_done_disjoint _ _ _ _ Hsub); by eapply list_elem_of_lookup_2.
      * exact (Hj (done_inj _ _ _ _ _ _ Hsub Ht Hk Heq)).
Qed.

(** What a worker lays down after its handler has returned. *)
Lemma shows_settled i wk t o m1 g :
  s_steps s < max_int64 → s_workers s !! i = Some wk → w_pc wk = Handling t →
  complete (s_now s) (w_queue wk) t (recovered o) (w_opts wk) (s_mem s) = Some m1 →
  (∀ n, g_enq (g n) = g_enq (s_ghost s n)) →
  does [Left i o; Settled i (s_now s)] (memory_view w)
    (memory_view (with_sys (count_step (set_ghost g (set_worker i (set_pc AtTop wk) (set_mem m1 s)))) w)).
Proof using Hw.
  intros Hlt Hi Hpc Hc Hg. pose proof (si_ok _ (mi_sys _ Hw)) as Hs. fold s in Hs.
  destruct (pool_open i wk Hi) as (sub & Hsub & _ & _ & Hopts); [congruence|].
  destruct (mem_exec_Some _ (OpComplete _ _ _ _) _ _ _ (sk_mem s Hs) (sys_room s (w_queue wk) Hs Hlt)
    (sk_opts s Hs wk (list_elem_of_lookup_2 _ _ _ Hi)) (complete_exec _ _ _ _ _ _ _ Hc))
    as (_ & Hspec & Hoth & _ & Hev).
  assert (Queue t = w_queue wk) as Hq.
  { apply (held_here s); [apply Hw|]. right; left. by eapply handling_in. }
  assert (v_running (memory_view w) i = Some (w_sub wk, cloneTask t, Busy)) as Hrun.
  { simpl. fold s. rewrite Hi. simpl. unfold in_hand. by rewrite Hpc. }
  set (v1 := set_running i (Some (w_sub wk, cloneTask t, Back (s_now s) (recovered o))) (memory_view w)).
  assert (apply (Left i o) (memory_view w) = v1) as Hv1 by (cbn [apply]; by rewrite Hrun).
  assert (v_running v1 i = Some (w_sub wk, cloneTask t, Back (s_now s) (recovered o))) as Hrun1 by (simpl; by rewrite upd_eq).
  cbn [does]. rewrite Hv1. split; [by exists (w_sub wk), (cloneTask t)|].
  split; [exists (w_sub wk), (cloneTask t), (s_now s), (recovered o), sub; split_and!; done|].
  cbn [apply]. rewrite Hrun1. change (v_subs v1) with (v_subs (memory_view w)). rewrite Hsub, Hopts.
  assert (∀ j, upd i None (upd i (Some (w_sub wk, cloneTask t, Back (s_now s) (recovered o)))
     (v_running (memory_view w))) j = <[i:=set_pc AtTop wk]> (s_workers s) !! j ≫= in_hand) as Hrunning.
  { intros j. unfold upd. case_decide as Hj; [|by rewrite list_lookup_insert_ne].
    subst j. by rewrite list_lookup_insert_eq by (by eapply lookup_lt_Some). }
  assert (pools_view (mq_pools w) (count_step (set_ghost g (set_worker i (set_pc AtTop wk) (set_mem m1 s)))) =
    pools_view (mq_pools w) s) as Hpools.
  { apply pools_view_same; [done|]. intros ch. by apply (evolves_chan (w_queue wk)). }
  simpl in Hspec. destruct (recovered o) as [e|].
  - unfold settle. change (Queue (cloneTask t)) with (Queue t). change (MaxRetries (cloneTask t)) with (MaxRetries t).
    change (Attempts (cloneTask t)) with (Attempts t). rewrite Hq.
    case_decide; injection Hspec as Habs; (split; [|done]); split; simpl; fold s; try done;
      intros n; rewrite ?Hg; try done; unfold upd; destruct (decide (n = w_queue wk)) as [->|Hn];
      rewrite ?Habs, ?(Hoth n) by done; csimpl; rewrite ?fmap_app, ?a_insert_Permutation; done.
  - injection Hspec as Habs. assert (∀ n, abs m1 n = abs (s_mem s) n) as Heq.
    { intros n. destruct (decide (n = w_queue wk)) as [->|]; [done|by apply Hoth]. }
    split; [|done]. split; simpl; fold s; try done; intros n; by rewrite ?Heq, ?Hg.
Qed.

Lemma shows_finish i o s1 :
  s_steps s < max_int64 → step_core (Finish i (λ t, (t, o))) s = Some s1 →
  does [Left i o; Settled i (s_now s)] (memory_view w) (memory_view (with_sys (count_step s1) w)).
Proof using Hw.
  intros Hlt Hcore. simpl in Hcore. apply bind_Some in Hcore as (wk & Hi & Hfin).
  unfold finish_worker in Hfin. destruct (w_pc wk) as [| |t|since wait ch|since wait armed ch|] eqn:Hpc; try done.
  simpl in Hfin. apply bind_Some in Hfin as (m1 & Hc & Hfin). injection Hfin as <-.
  destruct (recovered o) eqn:Ho; (eapply (shows_settled i wk t o m1); [done..|by rewrite Ho|]).
  - done.
  - intros n. unfold upd_ghost. by case_decide.
Qed.

Lemma shows_subscribe q opts s1 :
  step_core (Subscribe q opts) s = Some s1 →
  does [Subscribed q (NewConsumeOptions opts)] (memory_view w)
    (memory_view (mkMemoryQueue (count_step s1) (mq_pools w ++ [(q, NewConsumeOptions opts)]) (mq_call w))).
Proof using Hw.
  intros Hcore. simpl in Hcore. case_decide; [|done]. injection Hcore as <-.
  pose proof (si_ok _ (mi_sys _ Hw)) as Hs. fold s in Hs.
  unfold subscribe. destruct (newSubscription (mem_chans (s_mem s))) as [sub c] eqn:Hnew.
  destruct (newSubscription_ok _ _ _ _ (ok_chans _ (sk_mem s Hs)) (sk_subs s Hs) Hnew) as (_ & _ & _ & Hcl & Hfresh).
  split; [done|]. split; [|done]. split; simpl; fold s; try done.
  - intros i. destruct (decide (i < length (s_workers s))%nat) as [Hlt|Hge]; [by rewrite lookup_app_l|].
    rewrite lookup_app_r, (lookup_ge_None_2 (s_workers s)) by lia. simpl.
    destruct (new_workers _ _ _ !! _) as [wk|] eqn:Hn; [simpl|done].
    apply list_elem_of_lookup_2, elem_of_replicate in Hn as [-> _]. done.
  - unfold pools_view at 1. simpl. rewrite zip_with_app by (apply (po_len _ _ (mi_pools _ Hw))). f_equal.
    + apply zip_with_ext; [|done..]. intros p sub'. unfold pool_view.
      f_equal; by apply bool_decide_ext.
    + simpl. unfold pool_view. f_equal.
      rewrite !bool_decide_false; [done|..]; rewrite Hcl; apply Hfresh; unfold sub_chans; rewrite !elem_of_cons; auto.
Qed.
End shows.

(** ** The client's call *)

Lemma find_dead_clone id l :
  find_dead id (cloneTask <$> l) = prod_map Datatypes.id cloneTask <$> find_dead id l.
Proof. unfold find_dead. by rewrite list_find_fmap. Qed.

Lemma remove_at_clone i l : remove_at i (cloneTask <$> l) = cloneTask <$> remove_at i l.
Proof. unfold remove_at. by rewrite fmap_app, fmap_take, fmap_drop. Qed.

Lemma cloneTask_new now uuid q payload opts :
  cloneTask (new_task now uuid q payload opts) = new_task now uuid q payload opts.
Proof. unfold new_task, cloneTask. simpl. by rewrite append_to_nil_idemp. Qed.

(** What an operation of a client does to a queue is what [serve] does to the
    view. *)
Lemma serve_spec cl now uuid v r a1 a g :
  (r, a1) = spec_exec (call_queue cl) (op_of now uuid cl) a →
  v_pending v (call_queue cl) = cloneTask <$> a_pending a →
  v_dead v (call_queue cl) = cloneTask <$> a_dead a →
  v_ids v (call_queue cl) = ID <$> g_enq g →
  let '(ans, v1) := serve cl now uuid v in
  ans = answer_of r ∧
  v_now v1 = v_now v ∧ (∀ i, v_running v1 i = v_running v i) ∧ v_subs v1 = v_subs v ∧
  (∀ n, v_pending v1 n ≡ₚ if decide (n = call_queue cl) then cloneTask <$> a_pending a1 else v_pending v n) ∧
  (∀ n, v_dead v1 n = if decide (n = call_queue cl) then cloneTask <$> a_dead a1 else v_dead v n) ∧
  (∀ n, v_ids v1 n = if decide (n = call_queue cl)
                     then ID <$> g_enq (g_call a (op_of now uuid cl) r g) else v_ids v n).
Proof.
  intros Hspec Hp Hd Hi. destruct cl as [q payload opts|q limit offset|q id|q id]; simpl in *.
  - injection Hspec as -> ->. simpl. split_and!; try done; intros n; unfold upd; case_decide; try done.
    + by rewrite a_insert_Permutation, Hp; csimpl; rewrite cloneTask_new.
    + by subst; rewrite Hd.
    + by rewrite Hi.
  - injection Hspec as -> ->. split_and!; try done; intros; try case_decide; subst; rewrite ?Hp, ?Hd, ?Hi; try done.
    by rewrite page_fmap.
  - rewrite Hd, find_dead_clone. destruct (find_dead id (a_dead a)) as [[k t]|]; simpl; injection Hspec as -> ->;
      (split_and!; try done; intros n; simpl; unfold upd; case_decide; subst; rewrite ?Hp, ?Hd, ?Hi; try done).
    + by rewrite a_insert_Permutation.
    + by rewrite remove_at_clone.
  - rewrite Hd, find_dead_clone. destruct (find_dead id (a_dead a)) as [[k t]|]; simpl; injection Hspec as -> ->;
      (split_and!; try done; intros n; simpl; unfold upd; case_decide; subst; rewrite ?Hp, ?Hd, ?Hi; try done).
    by rewrite remove_at_clone.
Qed.

Lemma shows_execute w uuid w' l :
  memory_inv w → execute uuid w = Some (w', l) →
  memory_inv w' ∧ forallb internal l = true ∧ does l (memory_view w) (memory_view w').
Proof.
  intros Hw He. unfold execute in He. apply bind_Some in He as ([since cl] & Hcl & He).
  set (s := mq_sys w) in *. set (q := call_queue cl) in *. set (p := op_of (s_now s) uuid cl) in *.
  case_decide as Hu; [|done]. destruct Hu as [Hlen Hfresh].
  apply bind_Some in He as ([r m] & Hx & He). apply bind_Some in He as (s' & Hstep & [= <- <-]).
  assert (memory_inv (mkMemoryQueue s' (mq_pools w) None)) as Hw'.
  { destruct (inv_with_sys (Call q p) w s' Hw) as [H1 H2 _]; [done|done|]. by split. }
  split; [done|]. split; [done|]. pose proof Hstep as (Hlt & s1 & Hcore & ->)%step_Some.
  simpl in Hcore. case_decide as Hok; [|done]. rewrite Hx in Hcore. injection Hcore as <-.
  pose proof (si_ok _ (mi_sys _ Hw)) as Hs. fold s in Hs.
  destruct (mem_exec_Some q p (s_mem s) r m (sk_mem _ Hs) (sys_room s q Hs Hlt) (call_op_ok _ _ _ Hok) Hx)
    as (_ & Hspec & Hoth & _ & Hev).
  pose proof (serve_spec cl (s_now s) uuid (memory_view w) r (abs m q) (abs (s_mem s) q) (s_ghost s q)
    Hspec eq_refl eq_refl eq_refl) as Hserve.
  destruct (serve cl (s_now s) uuid (memory_view w)) as [ans v1] eqn:Hsv.
  destruct Hserve as (-> & Hn & Hr & Hsub & Hp & Hd & Hids).
  assert (v_call (memory_view w) = Some (since, cl, None)) as Hcall by (simpl; by rewrite Hcl).
  pose proof (mi_since _ Hw _ _ Hcl) as Hsince. fold s in Hsince.
  cbn [does]. split.
  { exists since, cl. split; [done|]. split; [split; [done|simpl; fold s; lia]|]. split; [by split|]. by rewrite Hsv. }
  cbn [apply]. rewrite Hcall, Hsv. split; [by exists since, cl|]. split; [|done].
  split; simpl; fold s; try done.
  - intros n. rewrite Hp. case_decide; [by subst n|]. by rewrite Hoth.
  - intros n. rewrite Hd. case_decide; [by subst n|]. by rewrite Hoth.
  - rewrite Hsub. apply (pools_view_same w); [done|]. intros c. by apply (evolves_chan w Hw q).
  - intros n. rewrite Hids. fold q. unfold upd_ghost. destruct (decide (n = q)); [by subst n|done].
Qed.

(** ** The laws *)

#[export] Instance memory_backend_laws : BackendLaws memory_queue.
Proof.
  split.
  - intros e w w' l Hw He. destruct e as [e|uuid]; [|exact (shows_execute w uuid w' l Hw He)]. simpl in He.
    destruct (own e) eqn:Hown; [|done]. apply bind_Some in He as (s' & Hstep & [= <- <-]).
    assert (∀ q o, e ≠ Subscribe q o) as Hns by (intros q o Heq; subst e; discriminate Hown).
    split; [by apply (inv_with_sys _ _ _ Hw) in Hstep|]. pose proof Hstep as (Hlt & s1 & Hcore & ->)%step_Some.
    destruct e as [d| | | |k|i| |i|i|i]; try done; simpl.
    + simpl in Hcore. case_decide; [|done]. injection Hcore as <-. split; [done|].
      split; [done|]. by split.
    + split; [done|]. by apply shows_close.
    + split; [|by apply shows_run]. unfold claimed. repeat case_match; done.
    + split; [done|]. by eapply shows_move.
    + split; [done|]. by eapply shows_move.
    + split; [done|]. by eapply shows_move.
  - intros cl w w' [Hs Hp Ht] Hc. cbn in Hc. unfold memory_call in Hc. destruct (mq_call w) eqn:Hm; [done|].
    injection Hc as <-. split.
    + split; [done|done|]. simpl. intros t c' [= <- _]. lia.
    + split; [simpl; by rewrite Hm|]. split; [|done]. by split.
  - intros q opts w w' Hw Hc. cbn in Hc. unfold memory_consume in Hc. apply bind_Some in Hc as (s' & Hstep & [= <-]).
    split.
    + destruct Hw as [Hs Hp Ht]. split; simpl.
      * by eapply memory_sys_step.
      * by eapply pools_ok_subscribe.
      * intros t c Hc. specialize (Ht t c Hc). pose proof (step_time _ _ _ Hstep). lia.
    + apply step_Some in Hstep as (_ & s1 & Hcore & ->). by apply shows_subscribe.
  - intros k w w' Hw Hc. cbn in Hc. unfold memory_stop in Hc. apply bind_Some in Hc as (s' & Hstep & [= <-]).
    split; [by apply (inv_with_sys _ _ _ Hw) in Hstep|]. apply step_Some in Hstep as (_ & s1 & Hcore & ->). by apply shows_stop.
  - intros i o w w' l Hw Hc. cbn in Hc. unfold memory_return in Hc. apply bind_Some in Hc as (s' & Hstep & [= <- <-]).
    split; [by apply (inv_with_sys _ _ _ Hw) in Hstep|]. split; [done|].
    apply step_Some in Hstep as (Hlt & s1 & Hcore & ->). by apply shows_finish.
Qed.
