(* ===== verification/SuiteMemory.v ===== *)
(** * The conformance suite on the in-memory backend

    The suite runs on the model of the in-memory backend: every test can be
    executed, passes under a scheduler that lets everybody go on in turn, and
    under no scheduler fails otherwise than by a time-out. *)

From stdpp Require Import base tactics list numbers option gmap strings pretty.
From S2P Require Import Prelude GoRuntime Contract Options Effects Memory MemorySpec Lifecycle MemorySystem WorkQueueSpec MemoryBackend MemoryConforms Suite SuiteHarness SuiteSafe.

(** A started work queue on storage of its own, [d] after the zero time. *)
Definition factory (d : duration) : memory_queue :=
  mkMemoryQueue (count_step (mkSys (New no_chans) (zeroTime + d) [] [] (λ _, ghost_empty) 0)) [] None.

Lemma factory_inv d : 0 ≤ d → memory_inv (factory d).
Proof.
  intros Hd. split; simpl.
  - apply (memory_sys_step (Tick d) sys_init); [apply memory_init_inv|].
    unfold step. rewrite decide_True by done. simpl. by rewrite decide_True.
  - split; simpl; [done| |lia|]; intros w.
    + by intros ?%not_elem_of_nil.
    + by intros sub ?%not_elem_of_nil.
  - done.
Qed.

Lemma factory_fresh d : 0 < d → fresh_view (memory_view (factory d)).
Proof. intros Hd. split; simpl; [lia|done..]. Qed.

(** ** A scheduler *)

Definition pad (n : nat) (s : string) : string := s +:+ String.concat "" (replicate (n - String.length s) "-").

(** The identifier [uuid.NewString()] gives in the [k]-th step. *)
Definition nth_uuid (k : nat) : string := pad 36 (pretty k).

Section scheduler.
Context {V : Type}.

(** Who may go on, in the order in which they are asked: the test, its call,
    the workers with their handlers and timers, the goroutines that close done
    channels, and last the clock. *)
Definition candidates (k : nat) (s : hstate V memory_queue) : list (hevent memory_event) :=
  let w := mq_sys (h_backend s) in
  [Main true; Main false; Internal (Execute (nth_uuid k))] ++
  (List.seq 0 (length (s_workers w)) ≫= λ i,
     [Return i; Handler i] ++
     ((λ e, Internal (Internally e)) <$> [MemorySystem.Run i; Woken i; TimedOut i; MemorySystem.Stopped i])) ++
  ((λ j, Internal (Internally (CloseDone j))) <$> List.seq 0 (length (s_subs w))) ++
  [Internal (Internally (Tick (10 * Millisecond)))].

Fixpoint first_enabled (es : list (hevent memory_event)) (s : hstate V memory_queue) :
    option (hstate V memory_queue) :=
  match es with
  | [] => None
  | e :: es => match hstep e s with Some s' => Some s' | None => first_enabled es s end
  end.

(** Whether the test ends with [ms] within [fuel] steps when [asked] may go
    on. *)
Fixpoint ends_within (asked : nat → hstate V memory_queue → list (hevent memory_event))
    (ms : list string) (fuel : nat) (s : hstate V memory_queue) : bool :=
  match verdict s with
  | Some ms' => bool_decide (ms' = ms)
  | None =>
      match fuel with
      | O => false
      | S fuel =>
          match first_enabled (asked fuel s) s with
          | Some s' => ends_within asked ms fuel s'
          | None => false
          end
      end
  end.

Lemma first_enabled_step es s s' : first_enabled es s = Some s' → ∃ e, hstep e s = Some s'.
Proof.
  induction es as [|e es IH]; simpl; [done|]. case_match eqn:He; [|done]. intros [= ->]. by exists e.
Qed.

Lemma ends_within_sound asked ms fuel s :
  ends_within asked ms fuel s = true → ∃ s', reachable hstep s s' ∧ verdict s' = Some ms.
Proof.
  revert s. induction fuel as [|fuel IH]; intros s; cbn [ends_within];
    (destruct (verdict s) as [ms'|] eqn:Hv;
       [intros ->%bool_decide_eq_true; exists s; split; [by exists []|done]|]); [done|].
  destruct (first_enabled _ s) as [s1|] eqn:Hs; [|done]. intros (s2 & [es Hes] & Hv2)%IH.
  apply first_enabled_step in Hs as [e He]. exists s2. split; [|done]. exists (e :: es). cbn [run]. by rewrite He.
Qed.

(** Nobody but the test, its calls and the clock goes on. *)
Definition stalled (k : nat) (s : hstate V memory_queue) : list (hevent memory_event) :=
  [Main true; Main false; Internal (Execute (nth_uuid k)); Internal (Internally (Tick (10 * Millisecond)))].
End scheduler.

(** A test of the suite on a backend of its own. *)
Definition started_test (d : duration) (n : Z) (tc : testcase) : hstate (tc_vars tc) memory_queue :=
  hstart (factory d) n (tc_init tc) (tc_body tc).

(** C4. The in-memory backend passes the conformance suite: every test passes when
    all go on in turn, and in every execution of every test on a fresh backend
    a failure is a time-out, or, in DelayedDelivery, the early delivery a sleep
    of more than a second excuses. *)
Theorem memory_passes_suite tc :
  tc ∈ Suite.Run →
  (∃ s, reachable hstep (started_test Second 0 tc) s ∧ verdict s = Some []) ∧
  ∀ d n s ms m, 0 < d → reachable hstep (started_test d n tc) s → verdict s = Some ms → m ∈ ms →
    excusable (zeroTime + d) m (s_now (mq_sys (h_backend s))).
Proof.
  intros Htc. split.
  - apply (ends_within_sound candidates [] 4000).
    assert (Forall (λ tc, ends_within candidates [] 4000 (started_test Second 0 tc) = true) Suite.Run) as Hall
      by (repeat constructor; vm_compute; reflexivity).
    rewrite Forall_forall in Hall. by apply Hall.
  - intros d n s ms m Hd Hr Hv Hm.
    refine (suite_excusable tc (factory d) n s ms m Htc (factory_inv d _) (factory_fresh d Hd) Hr Hv Hm). lia.
Qed.

Lemma memory_passes_suite_witness :
  ∃ tc s, tc_name tc = "CompetingConsumersDeliverOnce" ∧
    reachable hstep (started_test Second 0 tc) s ∧ verdict s = Some [].
Proof.
  eexists (mkTest "CompetingConsumersDeliverOnce" competing_vars (mkCompeting ∅) testCompetingConsumers).
  destruct (memory_passes_suite (mkTest "CompetingConsumersDeliverOnce" competing_vars (mkCompeting ∅) testCompetingConsumers))
    as [(s & Hr & Hv) _].
  - unfold Suite.Run. rewrite !elem_of_cons. tauto.
  - exists s. split; [reflexivity|]. split; [exact Hr|exact Hv].
Defined.

(** On a backend whose workers never go on, EnqueueAndConsume waits until the
    task has not come, and then until its pool has not stopped. *)
Lemma suite_safe_witness :
  ∃ s, reachable hstep (started_test Second 0 (mkTest "EnqueueAndConsume" got_vars (mkGot None) testEnqueueAndConsume)) s ∧
    verdict s = Some ["timed out waiting for task delivery"; "Stop: %v"] ∧
    ∀ m, m ∈ ["timed out waiting for task delivery"; "Stop: %v"] →
      excusable (zeroTime + Second) m (s_now (mq_sys (h_backend s))).
Proof.
  destruct (ends_within_sound stalled ["timed out waiting for task delivery"; "Stop: %v"] (4 * 4000)
    (started_test Second 0 (mkTest "EnqueueAndConsume" got_vars (mkGot None) testEnqueueAndConsume)))
    as (s & Hr & Hv); [vm_compute; reflexivity|].
  exists s. split; [exact Hr|]. split; [exact Hv|]. intros m Hm.
  refine (suite_safe (mkTest "EnqueueAndConsume" got_vars (mkGot None) testEnqueueAndConsume) (factory Second) 0 s _ m
    _ (factory_inv Second _) (factory_fresh Second _) Hr Hv Hm).
  - unfold Suite.Run. rewrite !elem_of_cons. tauto.
  - by vm_compute.
  - by vm_compute.
Defined.
